(* ===== verification/_CoqProject ===== *)
-Q . S2P
Prelude.v
RustStr.v
External.v
Worklist.v
PlannerModel.v
PlannerClassify.v
PlannerGraph.v
PlannerPlan.v
PlannerHolds.v
PlannerLayers.v
PlannerLand.v
PlannerStackOrder.v
PlannerChecks.v
PlannerProps.v
ChangeClassifier.v
ChangeGlob.v
ChangeFacts.v
ChangeProps.v
QueueTests.v
QueueModel.v
QueuePlan.v
QueueValidate.v
QueueCulprit.v
QueueRecount.v
QueueFacts.v
QueueLand.v
QueueEvidence.v
QueueCulpritProps.v
QueueRecountProps.v
QueueProps.v
AgentStore.v
AgentQueue.v
AgentMoves.v
AgentDrain.v
AgentInvariant.v
AgentWalk.v
AgentSafeOps.v
AgentDrainLoop.v
AgentEnqueue.v
AgentProps.v
DagModel.v
DagOutcome.v
DagSearch.v
DagChecks.v
DagGraph.v
DagSchedule.v
DagRunner.v
DagRun.v
DagCore.v
DagInv.v
DagSystem.v
DagSkip.v
DagFair.v
DagDecisions.v
DagComplete.v
DagCases.v
DagProps.v
DagGraphProps.v
TeamTime.v
TeamModel.v
TeamLedger.v
TeamSystem.v
TeamProtocol.v
TeamOps.v
TeamFacts.v
TeamProps.v
TickModel.v
TickCadence.v
TickIo.v
TickState.v
TickEngine.v
TickRun.v
TickEffects.v
TickRefine.v
TickFacts.v
TickPlaceholders.v
TickIoFacts.v
TickConfigured.v
TickProps.v
TickIoProps.v
