(* ===== verification/Prelude.v ===== *)
(** * agent-utils: a verification library

    The repository is a suite of tools for people who run many coding agents
    (rs/<tool>/).  This library models the decision-making cores of seven of them as
    executable definitions, translated function by function from the Rust sources,
    and proves what those cores promise.

    - pr-landing-planner (rs/pr-landing-planner/src) reads a collected set of pull
      requests and produces an advisory plan: what lands now, what waits and why,
      which pull requests can be validated together.
    - tick-hub (rs/tick-hub/src) runs one scheduled tick over a set of reminders,
      each with a cadence and a gate command, prints [ACTION:] and [HEALTH:] lines
      and remembers in a file when each reminder last fired.
    - change-classifier (rs/change-classifier/src) matches a change's paths against a
      test-footprint policy: skip the suite, run the nodes selected, or run it all.
    - merge-queue (rs/merge-queue/src) validates and lands submitted changes in
      batches: from the queue and a probe of the heads it makes a landing plan, and
      it reads the verdict of every validation from the runner's output.
    - agent-queue (rs/agent-queue/src) keeps the prompts for one agent in the
      directories of a queue, and agentctl's drain (rs/agentctl/src/agent.rs) takes
      them out, types them into the agent's terminal and files them by the outcome.
    - dagrun (rs/dagrun/src) runs a graph of build and test steps: it refuses graphs that
      cannot run, admits steps behind their dependencies within a width and named
      resources, watches one supervisor thread per step, and fails fast by scope.
    - agent-teams (rs/agent-teams/src) carries messages between teams of agents; the
      receiving team keeps a ledger with one entry per message identifier, which any number
      of processes accept into, fence, retract, hand over from and prune.

    ** The files

    Shared:
    - [Prelude]: [result], [i64] bounds, the order of Rust's [Ord], stable sorting
      ([sort_by_key]) and the iteration order of [BTreeMap] and [BTreeSet]
      ([btree_iter], [btree_elems]) over stdpp's [gmap] and [gset], adjacency maps,
      automation.
    - [RustStr]: [String] as UTF-8 bytes, with the [str] methods the sources call.
    - [External]: interfaces of third-party code: [RegexCrate] (the regex crate)
      and [JsonNumber] (the number type of serde_json), with the laws that reading
      and writing integers relies on ([JsonNumberLaws]); JSON values; [StrDebug], the
      quoting of [Debug], whose Unicode tables are not reproduced; [JsonFloat], the
      [f64] of a number and its total order; [Sha2Crate], the digest of the sha2 crate.
    - [Worklist]: depth-first search with a stack and a set of seen nodes.

    The planner, in the order data flows through it:
    - [PlannerModel]: model.rs, the enumerations and records; mechanism.rs, the operational
      mechanism a label names.
    - [PlannerClassify]: classify.rs, from a raw check rollup to a [CiVerdict].
    - [PlannerGraph]: graph.rs, edges, reachability, holds, layers, clusters.
    - [PlannerPlan]: plan.rs, one action per pull request and the result.
    - facts: [PlannerHolds] (paths, cycles and holds), [PlannerLayers] (components,
      greedy groups, the layering loop), [PlannerLand] (the demotion loop, who lands),
      [PlannerStackOrder] (stacks, Kahn's algorithm), [PlannerChecks] (the rollup).
    - [PlannerProps]: the theorems C1 to C4 and C6 and their witnesses.

    change-classifier:
    - [ChangeClassifier]: lib.rs, globs, the policy, the classification.
    - facts: [ChangeGlob] (what a glob matches), [ChangeFacts] (group expansion, the loop
      over the paths, known nodes).
    - [ChangeProps]: the theorems C20 to C22 and their witnesses.

    merge-queue:
    - [QueueTests]: tests.rs, test identifiers, selections and results.
    - [QueueModel]: model.rs, changes and plans; the priority configuration of
      state.rs.
    - [QueuePlan]: plan.rs, from the queue to the plan, and its rendering.
    - [QueueValidate]: validate.rs, from a runner's output to a verdict.
    - [QueueCulprit]: run.rs, the search for the change that turned a batch red.
    - [QueueRecount]: recount.rs, the counts that every change of a batch may move.
    - facts: [QueueFacts] (the selection loop, holds, dependencies, conflicts),
      [QueueLand] (the cutting into batches, the plan), [QueueEvidence] (the culprit
      search, round by round).
    - [QueueCulpritProps]: the theorems C5, C7 and C8 and their witnesses.
    - [QueueRecountProps]: how a pin file is cut, C19 and its witness.
    - [QueueProps]: results and verdicts, the theorems C23 to C25 and their witnesses.

    agent-queue and agentctl's drain, whose state is a [Queue]: which directories
    exist, what is in which file, a clock of calls, and a ghost [log] of what was
    queued, taken and typed.  An operation is an [Op], a computation that ends in a
    result, an error or the death of the process.
    - [AgentStore]: fsio.rs and error.rs, one definition per call.  A class [World]
      says at which call the process dies, which calls fail, which locks are taken,
      and which tombstones other processes write between two calls.
    - [AgentQueue], [AgentMoves]: queue.rs, in the order of the file: enqueue, where
      an item is, queue order; then withdrawal, recovery, setting aside and cancel.
    - [AgentDrain]: agent.rs, [drain_with_runtime_binding], with the small parsers it
      calls.  The terminal is the class [Terminal]: when a wait ends, and how a
      delivery goes (did input begin, what was reported, if anything was).
    - facts: [AgentInvariant] (triples for [Op] that also hold of a run cut short by a
      death; what one call preserves), [AgentWalk] (no
      item is lost or doubled, call by call), [AgentSafeOps] and [AgentDrainLoop] (what
      the log may say next, given what is in the files), [AgentEnqueue] (the exact
      outcome).
    - [AgentProps]: histories (any sequence of operations, each in a world of its own),
      the theorems C26 to C30 and their witnesses.

    dagrun, whose scheduler is a state that one lock guards ([Shared]) and threads that
    take turns at it.  A critical section is one event, and what the operating system
    answers is the event's data, so a run is any sequence of events that can happen:
    - [DagModel]: model.rs, the graph, its steps and budgets; [DagOutcome]: outcomes and
      the parts of test_results.rs that decide whether a report fails a step.
    - [DagSearch]: the three-colour search for cycles, which model.rs and io.rs both use;
      [DagChecks]: what is refused before anything runs.
    - [DagSchedule]: the shared state and what is done to it under the lock; a ghost
      [history] records what was launched, published, taken back, signalled and killed.
    - [DagRunner]: [Runner::new] and the body of the loop from the budget check to the
      launches ([pass]); what a pass sees of the world is a [Sight].  Also the client of
      the resource state shared between schedulers (resource_caps.rs).
    - [DagRun]: a supervisor's last critical section ([finish]), threads and the main
      thread as a [System], its events ([exec]), runs ([reachable]) and [result].
    - facts: [DagGraph] (the graphs the checks accept), [DagCore], [DagInv],
      [DagSystem] (the invariant of a system and that every event keeps it),
      [DagSkip] (what every run keeps, and the steps skipped), [DagFair] (progress and fair schedules),
      [DagDecisions] (what a failure cuts and an outcome says), [DagComplete] (why runs
      fail; runs of accepted graphs).
    - [DagCases]: a small graph, and runs that show what the code does where a property
      needs an assumption.
    - [DagProps], [DagGraphProps]: the theorems C31 to C34, C36 and C38, and C39 and C40,
      with witnesses.

    agent-teams, whose state is a ledger that processes work on at the same time.  An
    operation is a [prog], a tree of the calls it makes on the ledger's files, its lock, the
    clock, the process table and the deliverer, with what it does on each reply:
    - [TeamTime]: timeutil.rs, reading and writing times, and that they are read back.
    - [TeamModel]: envelope.rs, the declarations of model.rs, and what ledger.rs computes of
      an entry without a call.
    - [TeamLedger]: ledger.rs, every operation on the entries of a team; from cli.rs the
      command that resolves an entry and the hook that presents an inbox.
    - [TeamSystem]: what a call does ([perform]), processes that run operations call by call
      ([System], [action], [step], [run]), and a ghost [log] of entries created, messages
      handed over and messages the deliverer said it does not have.
    - facts: [TeamProtocol] (what a process knows about one identifier between two calls,
      what each call demands and teaches, a weakest precondition), [TeamOps] (every operation
      keeps the protocol), [TeamFacts] (the protocol is sound: what one process knows stays
      true whatever the others do).
    - [TeamProps]: the theorems C9, C35 and C37, their witnesses, and runs that show what
      interleaved operations can do.

    tick-hub:
    - [TickModel]: text.rs and emit.rs, quoting and the lines of the protocol; model.rs and
      protocols.rs, where the two boundaries the tick is given, [GateRunner] and
      [FileAgeProbe], are type classes.
    - [TickCadence]: cadence.rs, dueness, the fired-state text and its replacement.
    - [TickIo]: io.rs, from a parsed document to a configuration and back.
    - [TickState]: state.rs, validation and serialization of the runtime state.
    - [TickEngine]: engine.rs up to the failure counters: gates and rendering.
    - [TickRun]: engine.rs from [record_line]: the tick itself, a computation over
      the lines, the fired-state and the sink of the [emit] callback.
    - [TickEffects]: an abstract specification: what a report contributes, as pure
      data (lines, a change of the fired-state, a count).
    - facts: [TickRefine] (the engine refines the effects), [TickFacts],
      [TickPlaceholders] (the byte scan), [TickIoFacts] (reading and writing a
      configuration), [TickConfigured] (the file, and what a configuration that was read
      guarantees the tick).
    - [TickProps], [TickIoProps]: the theorems C10 to C15 and C16 to C18, with their
      witnesses.

    A definition carries the name of the function it translates; a method is
    [Type_method] where the bare name would clash.  The body of a loop is a
    definition of its own where the source has no name for it.

    ** What the theorems show

    Planner.  Landing (C1 to C3): [land_now] is exactly the pull requests all of
    whose predecessors, themselves included, are unheld and green on a fresh base;
    the demotion loop runs to its end; the batch is a maximal conflict-free subset.
    Holds (C4): the held set is the least one closed under the ordering edges, and why
    each is held.  Graph
    (C6): layers partition the unheld numbers without internal conflicts.  Also, as plain
    theorems: which verdicts land ([landable_verdict]), the cycle detection is exact
    ([cycle_nodes_exact]), stacks are the root-to-leaf chains ([build_stacks_exact]),
    clusters are the connected components ([clusters_are_components]), layers respect the edges of an acyclic graph ([partition_layered]),
    reachability ([has_path_exact]), transitive reduction ([transitive_reduce_exact]), the
    order inside a cluster ([cluster_members_ordered]), which attempt of a check is
    selected ([select_latest_one_per_context]) and when the review protocol is satisfied
    ([review_binding_exact]).

    tick-hub.  The tick (C10 to C12): streaming lines and returning them agree,
    including the point at which a failing callback stops the tick; the window of
    parallel gates is invisible; the fired-state advances exactly for the
    reminders that were settled.  Cadences (C13), the file (C14 crash safety, C15 reading
    back).  Configurations: the dependency check decides (C16), a configuration that is
    read is well formed (C17) and survives being written (C18), and a tick of a
    configuration that was read leaves a fired-state that can be persisted
    ([configured_tick_persists]).  Also:
    [actions_emitted_exact], [unavailable_names_exact], rendering ([render_emit_exact],
    [render_failures_counted]), [prune_exact], the state file ([ops_state_round_trip]),
    and what the check before writing leaves out ([serializable_exact]).

    change-classifier.  What a glob matches (C20; a wildcard stands for a byte, not for a
    character), when the suite is skipped or
    narrowed (C21), which nodes are selected and which policies are refused (C22), when a
    stale policy is refused ([known_nodes_exact]).

    merge-queue.  What a plan lands is safe (C23: fit changes, after what they must
    land after, free of conflicts) and complete (C24: nothing more could land, and a
    held change says why, also where dependencies form a cycle); its batches
    ([batches_exact]); exactly what a green verdict rests on, the failure it can miss and
    the runner that reports nothing (C25).
    The search for a culprit ends whatever the probes report (C5), each of its verdicts is
    justified by the runs that were made (C7), and in a consistent world it finds the change (C8).  Recounting
    pins is exact, whatever the text around them (C19); a decrease passes only as declared
    ([check_decreases_exact]).

    agent-queue.  Over every history of enqueues, withdrawals, cancellations and
    drains, each cut short by a death at any call: an identifier is in one phase
    (C26) and a prompt is not lost (C27), both also when calls other than looks at a path
    fail; a prompt is typed
    at most once (C28) and a cancelled prompt is never typed (C29) when no call
    fails.  The assumptions are on the [World] alone ([truthful]: looking at a path
    does not fail; [reliable]: no call does), and for each one a history shows what
    happens without it ([duplicate_after_failed_look], [overwritten_after_failed_look],
    [typed_twice_after_failed_stamp]).  Enqueueing on every branch (C30), and the end
    of the retry loop ([retry_ends]).

    dagrun.  In every run: capacity is neither lost nor, where no demand is negative,
    overdrawn, and the width is kept (C31); a step is launched once, behind its dependencies (C32); success means that
    everything passed (C33).  Every fair schedule ends (C34), in any graph of unique tags.  The
    decisions: what a failure cuts ([trip_fail_fast_exact]), which steps can no longer run
    (C36), what a pass admits and that it is work conserving ([pass_admits]), when a step
    passes (C38).  The checks
    accept exactly the well-formed graphs (C39), and a run of an accepted graph fails only
    through a step that failed or a breached budget, and otherwise completes (C40).  The
    assumptions on skips in C34 and C40 and on demands in C31 are needed: [DagCases] has
    the runs.

    agent-teams.  In every schedule of any processes, each of which may die between two
    calls and whose calls may fail: an identifier is recorded once until thirty days after
    a time before which none of its messages and fences expires (C9), so a fence or a refusal that comes first keeps a message from
    being handed over; and a message is handed over again only by a process that was told
    the deliverer does not have it (C35).  What the deliverer answers is arbitrary.  The
    assumptions: process identifiers of the living are distinct and the process table tells
    the truth about them, the clock does not run
    backwards and is not before the epoch, the messages of an identifier expire within
    thirty days of that time ([expires_at]; [fence_lapses] is a run of one that does not),
    and no entry of the identifier has the name of a backup of another's ([own_backups]).
    [two_recoveries] and [retraction_lost] are runs in which an operation that holds no lock
    meets another, [fence_conflicts] one of a fence without a body hash.  Times are read back (C37), derived identifiers are
    valid ([message_id_valid]), and what the lines of a rendered message are
    ([rendered_lines]).

    ** Loops, fuel and bounds

    A [while] loop over a structure that is not an argument is a [Fixpoint] on
    fuel, and its caller supplies the fuel:
    - worklists pop at most as often as they push, and a node's successors are
      pushed once: the initial stack plus the total degree ([worklist_fuel]);
    - each turn of the layering loop removes a number ([S (size numbers)]), each
      turn of [components_loop] a component ([size known]), each turn of
      [stack_loop] places a member ([size member_set]);
    - a turn of [hold_dependents] that adds anything adds the end of an edge
      ([length edges]); a turn of [dependency_loop] that changes anything adds the
      name of a report; a turn of [demote_loop] that changes anything demotes a
      decision; the planner's [visit] extends a path without repetition
      ([S (size involved)]), and tick-hub's too ([S (size known)]);
    - [expand] enters a group once, and it must be defined ([S (size groups)]);
    - a turn of dagrun's [search_loop] pops an entry, and a step pushes itself and what it
      leads to once ([search_fuel]); a round of [skip_rounds] that changes anything adds a
      step ([S (size (r_steps R))]);
    - a turn of merge-queue's [select_loop] decides a change ([size queued_set]), a
      turn of [front_loop] pops one that was pushed once, a turn of [wait_loop] an
      entry of one queued change ([S (S (size items))]);
    - a round of the culprit search ([hunt]) settles a prefix further: unseen, failed once,
      failed for sure, passed ([3 * n + 3] for [n] changes);
    - a prompt is typed again in one drain after at most [COMPOSER_RETRIES] reports of
      an unreadable composer and [MAX_MISROUTES] misroutes ([retry_fuel]), and
      [settled_state] looks at most six times, as the source does.
    That the fuel never runs out is not assumed: the theorems describe the results
    completely, which a truncated run would not satisfy.

    An [i64] is a [Z]; saturating arithmetic is [i64_clamp], wrapping arithmetic
    [i64_wrap], and C13 has the bounds under which nothing overflows.  A [usize]
    that counts elements of a collection is a [nat].

    ** What is not modelled

    - Processes, threads and the file system beyond the calls named above.  A
      gate is a function [GateRunner] of its command and limit, so it is assumed
      to return and to answer alike in whichever thread it runs; a worker that
      panics is not modelled.  The file system of [persist_fired_state] is a map,
      with the failing call and the length of a partial write as inputs.
    - The planner's collection (collect.rs, host.rs, fixture.rs), its evidence and
      priority files (context.rs but for the required lanes, priority.rs) and its
      output and command line; tick-hub's probes and command line; the text of
      documents: the YAML and JSON readers and writers of io.rs and state.rs, with
      the visitor that rejects duplicate keys, and the JSON texts of
      change-classifier; its [git] call and golden vectors;
      [derive_symbols_from_diff] of mechanism.rs.
    - merge-queue's probing ([git], its cache, the peripheral hook), its runs (run.rs but
      for the culprit search: building batches, ejecting, revalidating what remains,
      landing; of the search the jobs that run its probes, which a world answers, and what
      is done about a verdict), the operations on its state
      directory (ops.rs), donors, decisions and prediction.  Of validate.rs the
      processes, the dagrun runner and the busy marker; how [f64] reads a number of
      seconds and how [serde_json] reads a row are arguments.  A [short] commit is cut
      at the tenth byte, which panics for a commit that is not ASCII.
    - agent-queue: owners and modes of files, the temporaries of an atomic write, the
      identity of the queue's directory, so the calls that check these only succeed or
      fail; the registry and process identity (registry.rs, identity.rs).  A lock
      is held by at most one process, so the operations of a history do not overlap,
      except that tombstones appear at any call; an enqueue that takes no lock is not
      interleaved with others.  What is on disk after a power failure is what was
      written before it: the syncs are calls that may fail and nothing more.
    - agentctl but for the drain.  Of the drain: the target binding, the option to batch
      a backlog, which is off by default, and what readiness, pacing and a delivery
      do to a pane, which [Terminal] answers.
    - dagrun: the JSON document, the rewrite of a configuration for [--max-cpus], the
      command line, planning and sizing from measured profiles, cgroups, evidence and
      profiling, what is printed.  A supervisor's polling, its limits and its kills are
      what its [Report] says when it takes the lock for the last time; signals reach
      processes outside the model, where only the list that was to be killed is kept.  The
      ledger of the shared resource state is a function of the [Sight].
    - agent-teams: sending, the outbox and its retries, relays, routes, proofs of who sends,
      health; what a deliverer does with a message; the paths of a ledger, so an identifier
      with a slash is one whose calls fail; pruning of all teams and of outboxes.  A file of
      the ledger is a JSON value: its text is not modelled, and one that cannot be read is
      absent, as it is to the code.
    - The other tools: gh-paced has a core of the same kind; wrkslotsd, wrkviz, the chat, terminal and usage crates are dominated by I/O. *)
From stdpp Require Export base tactics numbers list strings gmap sets fin_maps
  fin_sets sorting relations pretty.
From Stdlib Require Export Ascii.

(** ** Results of fallible code *)

Inductive result (E A : Type) : Type :=
| Ok (a : A)
| Err (e : E).
Arguments Ok {E A} a.
Arguments Err {E A} e.

Definition is_ok {E A} (r : result E A) : bool :=
  match r with Ok _ => true | Err _ => false end.

(** [Result::ok] *)
Definition result_ok {E A} (r : result E A) : option A :=
  match r with Ok a => Some a | Err _ => None end.

#[global] Instance result_ret {E} : MRet (result E) := fun A a => Ok a.
#[global] Instance result_bind {E} : MBind (result E) :=
  fun A B f r => match r with Ok a => f a | Err e => Err e end.

#[global] Instance result_eq_dec {E A} `{EqDecision E, EqDecision A} :
  EqDecision (result E A).
Proof. solve_decision. Defined.

Lemma bind_Ok {E A B} (f : A -> result E B) (r : result E A) b :
  r ≫= f = Ok b <-> exists a, r = Ok a /\ f a = Ok b.
Proof. destruct r as [a|e]; [|naive_solver]. split; [by exists a|]. by intros (a' & [= <-] & ?). Qed.

(** Invert a successful sequence of [?]s. *)
Ltac invert_ok H :=
  lazymatch type of H with
  | _ ≫= _ = Ok _ =>
      apply bind_Ok in H;
      let a := fresh "a" in let Ha := fresh "Ha" in destruct H as (a & Ha & H); invert_ok H
  | _ => idtac
  end.

(** [for x in l { s = f(x, s)?; }] *)
Fixpoint each_result {E S A} (f : A -> S -> result E S) (l : list A) (s : S) : result E S :=
  match l with
  | [] => Ok s
  | x :: l => match f x s with Ok s => each_result f l s | Err e => Err e end
  end.

(** [iter().map(f).collect::<Result<Vec<_>, _>>()] *)
Fixpoint collect_results {E A B} (f : A -> result E B) (l : list A) : result E (list B) :=
  match l with
  | [] => Ok []
  | x :: l => match f x with
              | Ok b => match collect_results f l with Ok bs => Ok (b :: bs) | Err e => Err e end
              | Err e => Err e
              end
  end.

(** ** 64-bit machine integers *)

Definition i64_min : Z := - 2 ^ 63.
Definition i64_max : Z := 2 ^ 63 - 1.
Definition in_i64 (z : Z) : Prop := (i64_min <= z <= i64_max)%Z.

(** Two's-complement wrap-around of [+], [-], [*] in a release build. *)
Definition i64_wrap (z : Z) : Z := ((z + 2 ^ 63) mod 2 ^ 64 - 2 ^ 63)%Z.

(** [saturating_add] and [saturating_sub]. *)
Definition i64_clamp (z : Z) : Z := Z.max i64_min (Z.min i64_max z).

Declare Scope i64_scope.
Delimit Scope i64_scope with i64.
Notation "a +w b" := (i64_wrap (a + b)%Z) (at level 50, left associativity) : i64_scope.
Notation "a -w b" := (i64_wrap (a - b)%Z) (at level 50, left associativity) : i64_scope.
Notation "a *w b" := (i64_wrap (a * b)%Z) (at level 40, left associativity) : i64_scope.
Notation "a +sat b" := (i64_clamp (a + b)%Z) (at level 50, left associativity) : i64_scope.
Notation "a -sat b" := (i64_clamp (a - b)%Z) (at level 50, left associativity) : i64_scope.

Lemma i64_wrap_id z : in_i64 z -> i64_wrap z = z.
Proof.
  unfold in_i64, i64_wrap, i64_min, i64_max. intros Hz.
  rewrite Z.mod_small; lia.
Qed.

Lemma i64_clamp_id z : in_i64 z -> i64_clamp z = z.
Proof. unfold in_i64, i64_clamp, i64_min, i64_max. lia. Qed.

Lemma i64_wrap_range z : in_i64 (i64_wrap z).
Proof.
  unfold in_i64, i64_wrap, i64_min, i64_max.
  pose proof (Z.mod_pos_bound (z + 2 ^ 63) (2 ^ 64)). lia.
Qed.

Lemma i64_clamp_range z : in_i64 (i64_clamp z).
Proof. unfold in_i64, i64_clamp, i64_min, i64_max. lia. Qed.

(** ** Ordered keys

    What Rust's [Ord] promises to [BTreeMap], [BTreeSet] and [sort_by_key]: a
    decidable total order. *)

Class RustOrd (K : Type) : Type := {
  rle : relation K;
  #[global] rle_dec :: RelDecision rle;
  #[global] rle_trans :: Transitive rle;
  #[global] rle_total :: Total rle;
  #[global] rle_antisymm :: AntiSymm (=) rle;
}.

#[global] Instance rle_refl `{RustOrd K} : Reflexive (@rle K _).
Proof. intros x. by destruct (total rle x x). Qed.

#[global] Program Instance Z_ord : RustOrd Z := {| rle := Z.le |}.
#[global] Program Instance nat_ord : RustOrd nat := {| rle := Nat.le |}.

(** *** Strings compare by their bytes *)

Definition str_le (a b : string) : Prop := String.leb a b = true.

#[global] Instance str_le_dec : RelDecision str_le.
Proof. intros a b. unfold str_le. apply _. Defined.

Lemma ascii_compare_lt_trans a b c :
  Ascii.compare a b = Lt -> Ascii.compare b c = Lt -> Ascii.compare a c = Lt.
Proof. unfold Ascii.compare. rewrite !N.compare_lt_iff. lia. Qed.

Lemma ascii_compare_refl a : Ascii.compare a a = Eq.
Proof. apply N.compare_refl. Qed.

#[global] Instance str_le_trans : Transitive str_le.
Proof.
  unfold str_le, String.leb. intros a.
  induction a as [|x a IH]; intros [|y b] [|z c]; simpl; try done.
  destruct (Ascii.compare x y) eqn:Hxy; try done; intros Hab;
    destruct (Ascii.compare y z) eqn:Hyz; try done; intros Hbc.
  - apply Ascii.compare_eq_iff in Hxy as ->. apply Ascii.compare_eq_iff in Hyz as ->.
    rewrite ascii_compare_refl. by apply (IH b c).
  - apply Ascii.compare_eq_iff in Hxy as ->. by rewrite Hyz.
  - apply Ascii.compare_eq_iff in Hyz as ->. by rewrite Hxy.
  - by rewrite (ascii_compare_lt_trans _ _ _ Hxy Hyz).
Qed.

#[global] Program Instance string_ord : RustOrd string := {| rle := str_le |}.
Next Obligation. exact String.leb_total. Qed.
Next Obligation. exact String.leb_antisym. Qed.

(** *** Tuples compare lexicographically *)

Section prod_ord.
Context `{RustOrd A, RustOrd B}.

Definition prod_le (x y : A * B) : Prop :=
  (rle x.1 y.1 /\ ~ rle y.1 x.1) \/ (rle x.1 y.1 /\ rle y.1 x.1 /\ rle x.2 y.2).

#[global] Instance prod_le_dec : RelDecision prod_le.
Proof. intros x y. unfold prod_le. apply _. Defined.

#[global] Instance prod_le_trans : Transitive prod_le.
Proof.
  intros [a1 b1] [a2 b2] [a3 b3]; unfold prod_le; simpl.
  intros [[H1 H2]|(H1 & H2 & H3)] [[H4 H5]|(H4 & H5 & H6)].
  - left. split; [by etrans|]. intros H6. apply H2. by etrans.
  - left. split; [by etrans|]. intros H7. apply H2. by etrans.
  - left. split; [by etrans|]. intros H6. apply H5. by etrans.
  - right. split_and!; by etrans.
Qed.

#[global] Instance prod_le_total : Total prod_le.
Proof.
  intros [a1 b1] [a2 b2]; unfold prod_le; simpl.
  destruct (decide (rle a1 a2)), (decide (rle a2 a1)).
  - destruct (total rle b1 b2); naive_solver.
  - naive_solver.
  - naive_solver.
  - destruct (total rle a1 a2); naive_solver.
Qed.

#[global] Instance prod_le_antisymm : AntiSymm (=) prod_le.
Proof.
  intros [a1 b1] [a2 b2]; unfold prod_le; simpl.
  intros [[H1 H2]|(H1 & H2 & H3)] [[H4 H5]|(H4 & H5 & H6)]; try done.
  f_equal; by apply (anti_symm rle).
Qed.

#[global] Instance prod_ord : RustOrd (A * B) := {| rle := prod_le |}.
End prod_ord.

(** *** Booleans, options, and types that are read off another *)

#[global] Instance bool_ord : RustOrd bool.
Proof.
  refine {| rle a b := implb a b = true |}.
  - intros a b. apply _.
  - by intros [] [] [].
  - intros [] []; cbn; auto.
  - by intros [] [].
Defined.

Definition option_le `{RustOrd A} (x y : option A) : Prop :=
  match x, y with
  | None, _ => True
  | Some a, Some b => rle a b
  | Some _, None => False
  end.

#[global] Instance option_le_dec `{RustOrd A} : RelDecision (option_le (A:=A)).
Proof. intros [a|] [b|]; cbn; apply _. Defined.

#[global] Instance option_ord `{RustOrd A} : RustOrd (option A).
Proof.
  refine {| rle := option_le (A:=A) |}.
  - apply _.
  - intros [a|] [b|] [c|]; cbn; try done. apply transitivity.
  - intros [a|] [b|]; cbn; auto. apply total, _.
  - intros [a|] [b|]; cbn; try done. intros ??. f_equal. by apply (anti_symm rle).
Defined.

(** The order of [derive(Ord)]: that of the fields, in order. *)
Definition inj_ord {A} `{RustOrd B} (f : A -> B) `{!Inj (=) (=) f} : RustOrd A.
Proof.
  refine {| rle x y := rle (f x) (f y) |}.
  - intros x y. apply _.
  - intros x y z. apply transitivity.
  - intros x y. apply total, _.
  - intros x y ??. apply (inj f). by apply (anti_symm rle).
Defined.

(** *** [Iterator::min_by_key]: the first least element *)

Definition min_by_key `{RustOrd K} {A} (key : A -> K) (l : list A) : option A :=
  match l with
  | [] => None
  | x :: l => Some (foldl (fun m y => if decide (rle (key m) (key y)) then m else y) x l)
  end.

Lemma min_by_key_Some `{RustOrd K} {A} (key : A -> K) l x :
  min_by_key key l = Some x -> x ∈ l /\ forall y, y ∈ l -> rle (key x) (key y).
Proof.
  destruct l as [|m l]; [done|]. cbn [min_by_key]. intros [= <-]. revert m.
  induction l as [|z l IH]; intros m; cbn [foldl].
  { split; [set_solver|]. by intros y ->%list_elem_of_singleton. }
  case_decide as Hm.
  - destruct (IH m) as [Hin Hle]. split; [set_solver|]. intros y Hy.
    assert (y ∈ m :: l \/ y = z) as [?| ->] by set_solver; [by apply Hle|].
    transitivity (key m); [apply Hle; set_solver|done].
  - destruct (IH z) as [Hin Hle]. split; [set_solver|]. intros y Hy.
    assert (y ∈ z :: l \/ y = m) as [?| ->] by set_solver; [by apply Hle|].
    transitivity (key z); [apply Hle; set_solver|]. by destruct (total rle (key m) (key z)).
Qed.

Lemma min_by_key_None `{RustOrd K} {A} (key : A -> K) l : min_by_key key l = None <-> l = [].
Proof. by destruct l. Qed.

(** ** [sort_by_key]: a stable sort *)

Section sort_by_key.
Context `{RustOrd K} {A : Type} (key : A -> K).

Fixpoint insert_by_key (x : A) (l : list A) : list A :=
  match l with
  | [] => [x]
  | y :: l' => if decide (rle (key x) (key y)) then x :: l else y :: insert_by_key x l'
  end.

Definition sort_by_key (l : list A) : list A := foldr insert_by_key [] l.

Definition key_le (x y : A) : Prop := rle (key x) (key y).

#[local] Instance key_le_trans : Transitive key_le.
Proof. intros x y z. unfold key_le. apply transitivity. Qed.

Lemma insert_by_key_perm x l : insert_by_key x l ≡ₚ x :: l.
Proof.
  induction l as [|y l IH]; simpl; [done|]. case_decide; [done|].
  rewrite IH. apply Permutation_swap.
Qed.

Lemma sort_by_key_perm l : sort_by_key l ≡ₚ l.
Proof. induction l as [|x l IH]; simpl; [done|]. by rewrite insert_by_key_perm, IH. Qed.

Lemma insert_by_key_sorted x l :
  StronglySorted key_le l -> StronglySorted key_le (insert_by_key x l).
Proof.
  induction 1 as [|y l Hl IH Hy]; simpl; [by repeat constructor|].
  case_decide as Hxy.
  - constructor; [by constructor|]. constructor; [done|].
    eapply Forall_impl; [exact Hy|]. intros z Hz. by etrans.
  - constructor; [done|]. rewrite insert_by_key_perm. constructor; [|done].
    unfold key_le. by destruct (total rle (key x) (key y)).
Qed.

Lemma sort_by_key_sorted l : StronglySorted key_le (sort_by_key l).
Proof. induction l; simpl; [constructor|]. by apply insert_by_key_sorted. Qed.

Lemma elem_of_sort_by_key x l : x ∈ sort_by_key l <-> x ∈ l.
Proof. by rewrite sort_by_key_perm. Qed.

Lemma sort_by_key_NoDup l : NoDup (sort_by_key l) <-> NoDup l.
Proof. by rewrite sort_by_key_perm. Qed.

Lemma sort_by_key_length l : length (sort_by_key l) = length l.
Proof. by rewrite sort_by_key_perm. Qed.
End sort_by_key.

(** ** [BTreeSet] and [BTreeMap]

    Contents are stdpp's [gset] and [gmap]; what the B-tree adds is the order in
    which iteration visits them. *)

Section btree.
Context `{RustOrd K, Countable K}.

Definition btree_elems (s : gset K) : list K := sort_by_key id (elements s).

Definition btree_iter {A} (m : gmap K A) : list (K * A) :=
  sort_by_key fst (map_to_list m).

Definition btree_keys {A} (m : gmap K A) : list K := (btree_iter m).*1.

Definition btree_values {A} (m : gmap K A) : list A := (btree_iter m).*2.

(** [iter().collect::<BTreeSet<_>>()] followed by [into_iter()]. *)
Definition sort_dedup (l : list K) : list K := btree_elems (list_to_set l).

(** [iter().collect::<BTreeMap<_, _>>()]: a later pair replaces an earlier one. *)
Definition map_collect {A} (l : list (K * A)) : gmap K A :=
  foldl (fun m p => <[p.1 := p.2]> m) ∅ l.

(** [entry(k).or_insert(a)]. *)
Definition entry_or_insert {A} (k : K) (a : A) (m : gmap K A) : gmap K A :=
  match m !! k with Some _ => m | None => <[k := a]> m end.

Lemma elem_of_btree_elems x s : x ∈ btree_elems s <-> x ∈ s.
Proof. unfold btree_elems. by rewrite elem_of_sort_by_key, elem_of_elements. Qed.

Lemma btree_elems_NoDup s : NoDup (btree_elems s).
Proof. apply sort_by_key_NoDup, NoDup_elements. Qed.

Lemma btree_elems_sorted s : StronglySorted rle (btree_elems s).
Proof. apply (sort_by_key_sorted id). Qed.

Lemma elem_of_btree_iter {A} k (a : A) m : (k, a) ∈ btree_iter m <-> m !! k = Some a.
Proof. unfold btree_iter. by rewrite elem_of_sort_by_key, elem_of_map_to_list. Qed.

Lemma elem_of_btree_keys {A} k (m : gmap K A) : k ∈ btree_keys m <-> is_Some (m !! k).
Proof.
  unfold btree_keys. rewrite list_elem_of_fmap. split.
  - intros ([k' a] & -> & Hin%elem_of_btree_iter). eauto.
  - intros [a Ha]. exists (k, a). by rewrite elem_of_btree_iter.
Qed.

Lemma btree_keys_NoDup {A} (m : gmap K A) : NoDup (btree_keys m).
Proof.
  unfold btree_keys, btree_iter. rewrite sort_by_key_perm.
  apply NoDup_fst_map_to_list.
Qed.

Lemma btree_iter_sorted {A} (m : gmap K A) : StronglySorted (key_le fst) (btree_iter m).
Proof. apply (sort_by_key_sorted fst). Qed.

Lemma btree_keys_sorted {A} (m : gmap K A) : StronglySorted rle (btree_keys m).
Proof.
  unfold btree_keys. apply (StronglySorted_fmap fst (key_le fst)); [done|].
  apply btree_iter_sorted.
Qed.

Lemma elem_of_sort_dedup x l : x ∈ sort_dedup l <-> x ∈ l.
Proof. unfold sort_dedup. by rewrite elem_of_btree_elems, elem_of_list_to_set. Qed.

Lemma sort_dedup_NoDup l : NoDup (sort_dedup l).
Proof. apply btree_elems_NoDup. Qed.
End btree.

(** *** [collect] into a map *)

Lemma map_collect_snoc `{Countable K} {A} (l : list (K * A)) k a :
  map_collect (l ++ [(k, a)]) = <[k := a]> (map_collect l).
Proof. unfold map_collect. by rewrite foldl_app. Qed.

Lemma map_collect_Some `{Countable K} {A} (l : list (K * A)) k a :
  map_collect l !! k = Some a -> (k, a) ∈ l.
Proof.
  induction l as [|[k' a'] l IH] using rev_ind; [done|].
  rewrite map_collect_snoc, lookup_insert. case_decide; intros Hk; simplify_eq; set_solver.
Qed.

Lemma map_collect_dom `{Countable K} {A} (l : list (K * A)) :
  dom (map_collect l) = list_to_set l.*1.
Proof.
  induction l as [|[k' a'] l IH] using rev_ind; [done|].
  rewrite map_collect_snoc, dom_insert_L, IH, fmap_app, list_to_set_app_L. simpl. set_solver.
Qed.

Lemma map_collect_NoDup `{Countable K} {A} (l : list (K * A)) k a :
  NoDup l.*1 -> (k, a) ∈ l -> map_collect l !! k = Some a.
Proof.
  induction l as [|[k' a'] l IH] using rev_ind; [set_solver|].
  rewrite map_collect_snoc, fmap_app, NoDup_app, elem_of_app. intros (Hl & Hd & _).
  intros [Hin|Heq%list_elem_of_singleton]; [|simplify_eq; by rewrite lookup_insert_eq].
  assert (k ∈ l.*1) as Hk by (apply list_elem_of_fmap; by exists (k, a)).
  rewrite lookup_insert_ne; [by apply IH|]. intros ->. by apply (Hd k); [|set_solver].
Qed.

Lemma map_collect_btree_iter `{RustOrd K, Countable K} {A} (m : gmap K A) :
  map_collect (btree_iter m) = m.
Proof.
  apply map_eq. intros k. apply option_eq. intros a. rewrite <-(elem_of_btree_iter k a m). split.
  - apply map_collect_Some.
  - apply map_collect_NoDup. apply btree_keys_NoDup.
Qed.

(** *** Maps to sets: adjacency *)

Section adjacency.
Context `{Countable K, Countable V}.
Implicit Types (m : gmap K (gset V)).

(** [map[&k]] where the key is present, [map.get(&k).into_iter().flatten()]. *)
Definition neighbours m (k : K) : gset V := default ∅ (m !! k).

(** [entry(k).or_default().insert(v)]. *)
Definition entry_insert (k : K) (v : V) m : gmap K (gset V) :=
  <[k := {[v]} ∪ neighbours m k]> m.

(** [keys.iter().map(|k| (k, BTreeSet::new())).collect()]. *)
Definition empty_entries (ks : gset K) : gmap K (gset V) := gset_to_gmap ∅ ks.

Lemma elem_of_neighbours_entry_insert k v m k' v' :
  v' ∈ neighbours (entry_insert k v m) k' <-> (k' = k /\ v' = v) \/ v' ∈ neighbours m k'.
Proof.
  unfold neighbours, entry_insert. rewrite lookup_insert. case_decide; subst; set_solver.
Qed.

Lemma neighbours_empty_entries ks k : neighbours (empty_entries ks) k = ∅.
Proof.
  unfold neighbours, empty_entries. rewrite lookup_gset_to_gmap.
  by case_guard.
Qed.

(** Adjacency built by a loop over [l] that inserts an entry where [f] asks for one. *)
Lemma elem_of_neighbours_foldl {E} (f : E -> option (K * V)) (l : list E) m k v :
  v ∈ neighbours (foldl (fun m e => match f e with
                                    | Some (a, b) => entry_insert a b m
                                    | None => m end) m l) k <->
  v ∈ neighbours m k \/ exists e, e ∈ l /\ f e = Some (k, v).
Proof.
  revert m. induction l as [|e l IH]; intros m; simpl; [set_solver|].
  rewrite IH. destruct (f e) as [[a b]|] eqn:He.
  - rewrite elem_of_neighbours_entry_insert. set_solver.
  - set_solver.
Qed.
End adjacency.

(** ** Lists *)

Section lists.
Context {A : Type}.

(** [iter().any] and [iter().all] decide the usual quantifiers. *)
Lemma existsb_elem (f : A -> bool) (l : list A) :
  existsb f l = true <-> exists x, x ∈ l /\ f x = true.
Proof. rewrite existsb_exists. by setoid_rewrite list_elem_of_In. Qed.

Lemma existsb_false (f : A -> bool) (l : list A) :
  existsb f l = false <-> forall x, x ∈ l -> f x = false.
Proof.
  rewrite <-not_true_iff_false, existsb_elem. split.
  - intros Hn x Hx. apply not_true_iff_false. eauto.
  - intros Hf (x & Hx & Ht). rewrite Hf in Ht; done.
Qed.

Lemma forallb_elem (f : A -> bool) (l : list A) :
  forallb f l = true <-> forall x, x ∈ l -> f x = true.
Proof. rewrite forallb_forall. by setoid_rewrite list_elem_of_In. Qed.

Lemma exists_cons (P : A -> Prop) x (l : list A) :
  (exists y, y ∈ x :: l /\ P y) <-> P x \/ exists y, y ∈ l /\ P y.
Proof.
  setoid_rewrite elem_of_cons. split.
  - intros (y & [->|Hy] & HP); [by left|right; eauto].
  - intros [HP|(y & Hy & HP)]; eauto.
Qed.

Lemma elem_of_rev (l : list A) x : x ∈ rev l <-> x ∈ l.
Proof. by rewrite !list_elem_of_In, <-in_rev. Qed.

Lemma elem_of_filter_b (f : A -> bool) (l : list A) x :
  x ∈ List.filter f l <-> x ∈ l /\ f x = true.
Proof. by rewrite !list_elem_of_In, filter_In. Qed.

Lemma elem_of_concat x (ls : list (list A)) : x ∈ concat ls <-> exists l, l ∈ ls /\ x ∈ l.
Proof.
  induction ls as [|l ls IH]; simpl.
  - set_solver.
  - rewrite elem_of_app, IH. set_solver.
Qed.

Lemma omap_cons {B} (f : A -> option B) x (l : list A) :
  omap f (x :: l) = match f x with Some y => y :: omap f l | None => omap f l end.
Proof. reflexivity. Qed.

Lemma length_omap_le {B} (f : A -> option B) (l : list A) : length (omap f l) <= length l.
Proof. induction l as [|x l IH]; [done|]. rewrite omap_cons. destruct (f x); simpl; lia. Qed.
End lists.

#[export] Instance concat_Permutation {A} :
  Proper ((≡ₚ) ==> (≡ₚ)) (@concat A).
Proof.
  intros l k. induction 1 as [|x l k _ IH|x y l|l k m _ IH1 _ IH2]; simpl; [done|..].
  - by rewrite IH.
  - rewrite !app_assoc. by rewrite (Permutation_app_comm y x).
  - by rewrite IH1.
Qed.

Lemma NoDup_concat_member {A} (ls : list (list A)) l : NoDup (concat ls) -> l ∈ ls -> NoDup l.
Proof.
  induction ls as [|k ls IH]; simpl; [set_solver|].
  intros (? & _ & ?)%NoDup_app [->|?]%elem_of_cons; auto.
Qed.

(** Elements with distinct keys are determined by their key. *)
Lemma NoDup_fmap_elem_inj {A B} (f : A -> B) (l : list A) x y :
  NoDup (f <$> l) -> x ∈ l -> y ∈ l -> f x = f y -> x = y.
Proof.
  intros Hnd [i Hi]%list_elem_of_lookup [j Hj]%list_elem_of_lookup Hf.
  assert (i = j) as <-; [|congruence].
  apply (NoDup_lookup _ i j (f x) Hnd); rewrite list_lookup_fmap; [by rewrite Hi|].
  by rewrite Hj, Hf.
Qed.

Lemma NoDup_fmap_filter {A B} (f : A -> B) (p : A -> bool) (l : list A) :
  NoDup (f <$> l) -> NoDup (f <$> List.filter p l).
Proof.
  induction l as [|x l IH]; [done|]. rewrite fmap_cons. intros [Hx Hl]%NoDup_cons.
  cbn [List.filter]. destruct (p x); [|by apply IH]. rewrite fmap_cons. apply NoDup_cons.
  split; [|by apply IH]. intros (y & Hy & [Hin _]%elem_of_filter_b)%list_elem_of_fmap.
  apply Hx, list_elem_of_fmap. eauto.
Qed.

Lemma StronglySorted_lookup_lt {A} (R : relation A) l i j x y :
  StronglySorted R l -> i < j -> l !! i = Some x -> l !! j = Some y -> R x y.
Proof.
  intros Hs. revert i j. induction Hs as [|z l Hs IH Hz]; intros i j Hij; [done|].
  destruct i as [|i], j as [|j]; cbn [lookup list_lookup]; try lia.
  - intros [= <-] Hj%list_elem_of_lookup_2. by apply (proj1 (list.Forall_forall _ _) Hz).
  - apply IH. lia.
Qed.

Lemma tc_subrel {A} (R R' : relation A) x y :
  (forall a b, R a b -> R' a b) -> tc R x y -> tc R' x y.
Proof. intros HR. apply (tc_congruence id). exact HR. Qed.

Lemma elements_split `{Countable A} (X Y : gset A) :
  Y ⊆ X -> elements X ≡ₚ elements Y ++ elements (X ∖ Y).
Proof.
  intros HY. rewrite <-elements_disj_union by set_solver.
  rewrite <-union_difference_L; done.
Qed.

Lemma list_to_set_size_le `{Countable A} (l : list A) :
  size (list_to_set l : gset A) <= length l.
Proof.
  change (length (elements (list_to_set l : gset A)) <= length l).
  apply submseteq_length, NoDup_submseteq; [apply NoDup_elements|].
  intros x. by rewrite elem_of_elements, elem_of_list_to_set.
Qed.

Create HintDb agent.
#[export] Hint Resolve i64_wrap_range i64_clamp_range : agent.
#[export] Hint Resolve btree_elems_NoDup btree_keys_NoDup sort_dedup_NoDup : agent.
#[export] Hint Rewrite @elem_of_sort_by_key @elem_of_btree_elems @elem_of_btree_keys
  @elem_of_sort_dedup @elem_of_concat @elem_of_filter_b : agent.

(** Turn boolean tests in hypotheses and goal into propositions. *)
Ltac b2p :=
  repeat match goal with
  | H : _ && _ = true |- _ => apply andb_true_iff in H as [? ?]
  | H : _ || _ = false |- _ => apply orb_false_iff in H as [? ?]
  | H : negb _ = true |- _ => apply negb_true_iff in H
  | H : negb _ = false |- _ => apply negb_false_iff in H
  | H : bool_decide _ = true |- _ => apply bool_decide_eq_true in H
  | H : bool_decide _ = false |- _ => apply bool_decide_eq_false in H
  | |- _ && _ = true => apply andb_true_iff; split
  | |- _ || _ = false => apply orb_false_iff; split
  | |- negb _ = true => apply negb_true_iff
  | |- negb _ = false => apply negb_false_iff
  | |- bool_decide _ = true => apply bool_decide_eq_true
  | |- bool_decide _ = false => apply bool_decide_eq_false
  end.

(** Decide a closed proposition by evaluation. *)
Ltac by_eval := apply (bool_decide_unpack _); vm_compute; exact I.
