(* ===== verification/RustStr.v ===== *)
(** * Rust strings

    A [String] or [&str] is its UTF-8 bytes, as a [string]; literals below are read
    as UTF-8.  Operations that Rust defines on bytes or on ASCII patterns are
    defined on bytes; those it defines on [char]s go through [chars], which cuts
    the bytes at character boundaries (the bytes that do not continue a
    character).  Searched patterns are never empty in this program. *)
From S2P Require Import Prelude.

Definition dquote : ascii := "034"%char.
Definition bslash : ascii := "092"%char.
Definition nl : ascii := "010"%char.

Definition str1 (c : ascii) : string := String c "".

(** ** Bytes *)

Definition is_upper (c : ascii) : bool := (65 <=? N_of_ascii c)%N && (N_of_ascii c <=? 90)%N.
Definition is_lower (c : ascii) : bool := (97 <=? N_of_ascii c)%N && (N_of_ascii c <=? 122)%N.
Definition is_digit (c : ascii) : bool := (48 <=? N_of_ascii c)%N && (N_of_ascii c <=? 57)%N.
Definition is_alpha (c : ascii) : bool := is_upper c || is_lower c.
Definition is_alnum (c : ascii) : bool := is_alpha c || is_digit c.

Definition byte_upper (c : ascii) : ascii :=
  if is_lower c then ascii_of_N (N_of_ascii c - 32) else c.
Definition byte_lower (c : ascii) : ascii :=
  if is_upper c then ascii_of_N (N_of_ascii c + 32) else c.

Fixpoint str_map (f : ascii -> ascii) (s : string) : string :=
  match s with "" => "" | String c s' => String (f c) (str_map f s') end.

Definition to_ascii_uppercase : string -> string := str_map byte_upper.
Definition to_ascii_lowercase : string -> string := str_map byte_lower.

Fixpoint str_forallb (f : ascii -> bool) (s : string) : bool :=
  match s with "" => true | String c s' => f c && str_forallb f s' end.

Definition str_is_empty (s : string) : bool := match s with "" => true | _ => false end.

Fixpoint strip_prefix (p s : string) : option string :=
  match p, s with
  | "", _ => Some s
  | String a p', String b s' => if (a =? b)%char then strip_prefix p' s' else None
  | String _ _, "" => None
  end.

Definition starts_with (s p : string) : bool :=
  match strip_prefix p s with Some _ => true | None => false end.

Fixpoint strip_suffix (p s : string) : option string :=
  if (s =? p)%string then Some "" else
  match s with "" => None | String c s' => String c <$> strip_suffix p s' end.

Definition ends_with (s p : string) : bool :=
  match strip_suffix p s with Some _ => true | None => false end.

Fixpoint contains (s p : string) : bool :=
  starts_with s p || match s with "" => false | String _ s' => contains s' p end.

(** [str::replace]: every non-overlapping occurrence, left to right. [skip] counts
    the bytes of the occurrence being replaced that are still to be dropped. *)
Fixpoint replace_from (skip : nat) (p r s : string) : string :=
  match s with
  | "" => ""
  | String c s' =>
      match skip with
      | S k => replace_from k p r s'
      | 0 => if starts_with s p
             then r +:+ replace_from (pred (String.length p)) p r s'
             else String c (replace_from 0 p r s')
      end
  end.

Definition replace (p r s : string) : string := replace_from 0 p r s.

Fixpoint split_once (sep : ascii) (s : string) : option (string * string) :=
  match s with
  | "" => None
  | String c s' =>
      if (c =? sep)%char then Some ("", s')
      else '(a, b) ← split_once sep s'; Some (String c a, b)
  end.

(** [str::split_once] at a string that is not empty. *)
Fixpoint split_once_str (sep s : string) : option (string * string) :=
  match strip_prefix sep s with
  | Some rest => Some ("", rest)
  | None => match s with
            | "" => None
            | String c s => '(a, b) ← split_once_str sep s; Some (String c a, b)
            end
  end.

Fixpoint str_contains_byte (c : ascii) (s : string) : bool :=
  match s with "" => false | String d s' => (c =? d)%char || str_contains_byte c s' end.

Definition join (sep : string) (l : list string) : string := String.concat sep l.

(** ** Characters *)

Definition is_continuation (c : ascii) : bool :=
  (128 <=? N_of_ascii c)%N && (N_of_ascii c <? 192)%N.

Definition starts_in_character (s : string) : bool :=
  match s with "" => false | String d _ => is_continuation d end.

Fixpoint chars (s : string) : list string :=
  match s with
  | "" => []
  | String c s' =>
      match chars s' with
      | [] => [str1 c]
      | ch :: rest => if starts_in_character s' then String c ch :: rest
                      else str1 c :: ch :: rest
      end
  end.

(** The code point of one character's bytes. *)
Definition char_code (ch : string) : N :=
  match ch with
  | String a "" => N_of_ascii a
  | String a (String b "") => N.land (N_of_ascii a) 31 * 64 + N.land (N_of_ascii b) 63
  | String a (String b (String c "")) =>
      N.land (N_of_ascii a) 15 * 4096 + N.land (N_of_ascii b) 63 * 64 + N.land (N_of_ascii c) 63
  | String a (String b (String c (String d ""))) =>
      N.land (N_of_ascii a) 7 * 262144 + N.land (N_of_ascii b) 63 * 4096
      + N.land (N_of_ascii c) 63 * 64 + N.land (N_of_ascii d) 63
  | _ => 65533
  end%N.

Definition in_codes (lo hi n : N) : bool := (lo <=? n)%N && (n <=? hi)%N.

(** [char::is_whitespace]: Unicode's White_Space. *)
Definition char_is_whitespace (ch : string) : bool :=
  let n := char_code ch in
  in_codes 9 13 n || (n =? 32)%N || (n =? 133)%N || (n =? 160)%N || (n =? 5760)%N
  || in_codes 8192 8202 n || (n =? 8232)%N || (n =? 8233)%N || (n =? 8239)%N
  || (n =? 8287)%N || (n =? 12288)%N.

Definition of_chars (cs : list string) : string := join "" cs.

Fixpoint drop_while (p : string -> bool) (cs : list string) : list string :=
  match cs with [] => [] | c :: cs' => if p c then drop_while p cs' else cs end.

(** [trim_matches]. *)
Definition trim_matches (p : string -> bool) (s : string) : string :=
  of_chars (rev (drop_while p (rev (drop_while p (chars s))))).

(** [str::trim]. *)
Definition str_trim : string -> string := trim_matches char_is_whitespace.

Definition trim_end_matches (p : string -> bool) (s : string) : string :=
  of_chars (rev (drop_while p (rev (chars s)))).

Definition trim_start_matches (p : string -> bool) (s : string) : string :=
  of_chars (drop_while p (chars s)).

(** [str::split] on a character predicate. *)
Fixpoint split_chars (p : string -> bool) (cs : list string) : list (list string) :=
  match cs with
  | [] => [[]]
  | c :: cs' =>
      match split_chars p cs' with
      | f :: fs => if p c then [] :: f :: fs else (c :: f) :: fs
      | [] => [[c]]
      end
  end.

Definition split (p : string -> bool) (s : string) : list string :=
  of_chars <$> split_chars p (chars s).

Definition split_whitespace (s : string) : list string :=
  List.filter (fun w => negb (str_is_empty w)) (split char_is_whitespace s).

(** ** Integers *)

(** [str::split] by a byte. *)
Fixpoint split_byte (sep : ascii) (s : string) : list string :=
  match s with
  | "" => [""]
  | String c s =>
      match split_byte sep s with
      | piece :: pieces => if (c =? sep)%char then "" :: piece :: pieces
                           else String c piece :: pieces
      | [] => []
      end
  end.

(** [str::lines]: cut after line feeds, drop each with the carriage return before it,
    and no last empty line. *)
Definition drop_cr (line : string) : string := default line (strip_suffix (str1 "013") line).

Definition str_lines (s : string) : list string :=
  let pieces := split_byte nl s in
  (drop_cr <$> removelast pieces)
  ++ match last pieces with None | Some "" => [] | Some line => [line] end.

Definition digit_value (c : ascii) : Z := Z.of_N (N_of_ascii c - 48).

Fixpoint digits_value (acc : Z) (s : string) : option Z :=
  match s with
  | "" => Some acc
  | String c s' => if is_digit c then digits_value (acc * 10 + digit_value c) s' else None
  end.

(** [str::parse::<i64>]: an optional sign, at least one ASCII digit, in range. *)
Definition parse_i64 (s : string) : option Z :=
  let '(sign, t) :=
    match s with
    | String "-" t => ((-1)%Z, t)
    | String "+" t => (1%Z, t)
    | _ => (1%Z, s)
    end in
  match t with
  | "" => None
  | _ => v ← digits_value 0 t;
         let z := (sign * v)%Z in
         if decide (i64_min <= z <= i64_max)%Z then Some z else None
  end.

Example parse_i64_max : parse_i64 "9223372036854775807" = Some i64_max.
Proof. reflexivity. Qed.
Example parse_i64_overflow : parse_i64 "9223372036854775808" = None.
Proof. reflexivity. Qed.
Example chars_utf8 : chars "a·b" = ["a"; "·"; "b"].
Proof. reflexivity. Qed.
Example trim_unicode : str_trim "  a b " = "a b".
Proof. reflexivity. Qed.
Example replace_quotes : replace "{pr}" "12" "f {pr} {pr}}" = "f 12 12}".
Proof. reflexivity. Qed.

(** ** Concatenation and prefixes *)

Lemma str_app_assoc (a b c : string) : (a +:+ b) +:+ c = a +:+ (b +:+ c).
Proof. induction a as [|x a IH]; [done|]. exact (f_equal (String x) IH). Qed.

Lemma str_app_nil_r (a : string) : a +:+ "" = a.
Proof. induction a as [|x a IH]; [done|]. exact (f_equal (String x) IH). Qed.

Lemma str_app_cons c a b : String c a +:+ b = String c (a +:+ b).
Proof. done. Qed.

Lemma str_length_app a b : String.length (a +:+ b) = String.length a + String.length b.
Proof. induction a as [|x a IH]; [done|]. rewrite str_app_cons. simpl. by rewrite IH. Qed.

Lemma strip_prefix_Some p s r : strip_prefix p s = Some r <-> s = p +:+ r.
Proof.
  revert s. induction p as [|c p IH]; intros s; simpl.
  - split; [by intros [= ->]|by intros ->].
  - destruct s as [|d s]; [done|]. destruct (Ascii.eqb_spec c d) as [->|Hne].
    + rewrite IH, str_app_cons. split; [by intros ->|by intros [= ->]].
    + rewrite str_app_cons. split; [done|]. by intros [= ->].
Qed.

Lemma strip_suffix_Some p s r : strip_suffix p s = Some r <-> s = r +:+ p.
Proof.
  revert r. induction s as [|c s IH]; intros r; cbn [strip_suffix].
  - destruct (String.eqb_spec "" p) as [<-|Hne].
    + rewrite str_app_nil_r. split; [by intros [= <-]|by intros <-].
    + split; [done|]. intros He. destruct r; [|done]. by destruct Hne.
  - destruct (String.eqb_spec (String c s) p) as [<-|Hne].
    + split; [by intros [= <-]|]. intros He. f_equal. symmetry.
      assert (Hl : String.length (String c s) = String.length (r +:+ String c s)) by by rewrite <-He.
      rewrite str_length_app in Hl. destruct r; [done|simpl in Hl; lia].
    + rewrite fmap_Some. setoid_rewrite IH. split.
      * intros (t & -> & ->). by rewrite str_app_cons.
      * destruct r as [|d r]; [intros He; by destruct Hne|]. rewrite str_app_cons.
        intros [= -> ->]. eauto.
Qed.

Lemma starts_with_spec s p : starts_with s p = true <-> exists r, s = p +:+ r.
Proof.
  unfold starts_with. setoid_rewrite <-strip_prefix_Some.
  destruct (strip_prefix p s); naive_solver.
Qed.

(** ** Characters of a concatenation *)

Lemma chars_app a b :
  starts_in_character b = false -> chars (a +:+ b) = chars a ++ chars b.
Proof.
  intros Hb. induction a as [|c a IH]; [done|]. rewrite str_app_cons. cbn [chars]. rewrite IH.
  destruct a as [|d a].
  - cbn [chars app]. change ("" +:+ b) with b. rewrite Hb.
    destruct (chars b); reflexivity.
  - assert (Hne : exists ch rest, chars (String d a) = ch :: rest).
    { cbn [chars]. destruct (chars a) as [|ch rest]; [eauto|].
      destruct (starts_in_character a); eauto. }
    destruct Hne as (ch & rest & ->). rewrite str_app_cons. cbn [app starts_in_character].
    by destruct (is_continuation d).
Qed.

Lemma of_chars_cons c cs : of_chars (c :: cs) = c +:+ of_chars cs.
Proof. destruct cs as [|d cs]; [|done]. cbn. by rewrite str_app_nil_r. Qed.

Lemma of_chars_app cs ds : of_chars (cs ++ ds) = of_chars cs +:+ of_chars ds.
Proof.
  induction cs as [|c cs IH]; [done|]. cbn [app]. by rewrite !of_chars_cons, IH, str_app_assoc.
Qed.

Lemma of_chars_chars s : of_chars (chars s) = s.
Proof.
  induction s as [|c s IH]; [done|]. cbn [chars].
  destruct (chars s) as [|ch rest] eqn:Hs.
  - by rewrite <-IH.
  - destruct (starts_in_character s); rewrite <-IH at 1; by rewrite ?of_chars_cons.
Qed.

Lemma drop_while_none p cs : (forall c, c ∈ cs -> p c = false) -> drop_while p cs = cs.
Proof. destruct cs as [|c cs]; [done|]. intros Hp. cbn. by rewrite Hp by set_solver. Qed.

(** Nothing to trim. *)
Lemma trim_matches_none p s :
  (forall c, c ∈ chars s -> p c = false) -> trim_matches p s = s.
Proof.
  intros Hp. unfold trim_matches. rewrite (drop_while_none p (chars s)) by done.
  rewrite drop_while_none, rev_involutive; [apply of_chars_chars|].
  intros c. rewrite list_elem_of_In, <-in_rev, <-list_elem_of_In. apply Hp.
Qed.

Lemma split_chars_piece p cs c ds :
  (forall x, x ∈ cs -> p x = false) -> p c = true ->
  split_chars p (cs ++ c :: ds) = cs :: split_chars p ds.
Proof.
  intros Hcs Hc.
  assert (Hne : forall l, exists f fs, split_chars p l = f :: fs).
  { intros l. destruct l as [|x l]; cbn [split_chars]; [eauto|].
    destruct (split_chars p l); [eauto|]. destruct (p x); eauto. }
  induction cs as [|x cs IH]; cbn [app split_chars].
  - destruct (Hne ds) as (f & fs & ->). by rewrite Hc.
  - rewrite IH by (intros; apply Hcs; set_solver). by rewrite Hcs by set_solver.
Qed.

(** The first piece of a split ends at the first separator. *)
Lemma split_piece p a sep b :
  (forall x, x ∈ chars a -> p x = false) -> chars sep = [sep] -> p sep = true ->
  starts_in_character sep = false -> starts_in_character b = false ->
  split p (a +:+ (sep +:+ b)) = a :: split p b.
Proof.
  intros Ha Hsep Hp Hs Hb. unfold split.
  assert (Hin : starts_in_character (sep +:+ b) = false) by by destruct sep.
  rewrite chars_app, chars_app, Hsep by done.
  cbn [app]. rewrite split_chars_piece by done. cbn [fmap list_fmap].
  by rewrite of_chars_chars.
Qed.

Lemma split_once_app sep a b :
  str_contains_byte sep a = false -> split_once sep (a +:+ (String sep b)) = Some (a, b).
Proof.
  induction a as [|c a IH]; cbn [str_contains_byte].
  - intros _. change ("" +:+ String sep b) with (String sep b). cbn [split_once].
    by rewrite Ascii.eqb_refl.
  - intros [Hc Ha]%orb_false_iff. rewrite str_app_cons. cbn [split_once].
    rewrite Ascii.eqb_sym, Hc, IH by done. done.
Qed.

(** ** Decimal numbers *)

Lemma digits_go (n : N) : forall s,
  (exists k : Z, (0 < k)%Z /\ forall acc,
     digits_value acc (pretty_N_go n s) = digits_value (acc * k + Z.of_N n) s) /\
  str_forallb is_digit (pretty_N_go n s) = str_forallb is_digit s.
Proof.
  induction (N.lt_wf_0 n) as [n _ IH]. intros s. destruct (decide (0 < n)%N) as [Hn|Hn].
  - rewrite pretty_N_go_step by done.
    destruct (IH (n / 10)%N) with (s := String (pretty_N_char (n mod 10)) s) as [(k & Hk & Hd) Hf];
      [apply N.div_lt; lia|].
    pose proof (N.mod_lt n 10) as Hm. pose proof (N.div_mod n 10) as Hdm.
    assert (Hc : is_digit (pretty_N_char (n mod 10)) = true /\
      digit_value (pretty_N_char (n mod 10)) = Z.of_N (n mod 10)).
    { assert (Hlt : (n mod 10 < 10)%N) by lia. revert Hlt. generalize (n mod 10)%N. intros d Hd10.
      assert (d = 0 \/ d = 1 \/ d = 2 \/ d = 3 \/ d = 4 \/ d = 5 \/ d = 6 \/ d = 7 \/ d = 8
              \/ d = 9)%N as Hcase by lia.
      destruct Hcase as [->|[->|[->|[->|[->|[->|[->|[->|[->| ->]]]]]]]]]; split; reflexivity. }
    destruct Hc as [Hc1 Hc2]. split.
    + exists (k * 10)%Z. split; [lia|]. intros acc. rewrite Hd. cbn [digits_value].
      rewrite Hc1, Hc2. f_equal. lia.
    + rewrite Hf. cbn [str_forallb]. by rewrite Hc1.
  - assert (n = 0)%N as -> by lia. rewrite pretty_N_go_0. split; [|done].
    exists 1%Z. split; [lia|]. intros acc. f_equal. lia.
Qed.

Lemma pretty_nonneg (z : Z) :
  (0 <= z)%Z -> str_forallb is_digit (pretty z) = true /\ digits_value 0 (pretty z) = Some z
                /\ str_is_empty (pretty z) = false.
Proof.
  intros Hz. destruct z as [|p|p]; [done| |lia].
  change (pretty (Z.pos p)) with (pretty (N.pos p)).
  destruct (digits_go (N.pos p) "") as [(k & Hk & Hd) Hf].
  assert (Hp : pretty (N.pos p) = pretty_N_go (N.pos p) "") by done.
  rewrite Hp, Hd, Hf. split_and!; [done|done|].
  rewrite pretty_N_go_step by lia. generalize (pretty_N_char (N.pos p mod 10)) as c.
  intros c. generalize (N.pos p / 10)%N as m. intros m.
  assert (Hne : forall n t, str_is_empty t = false -> str_is_empty (pretty_N_go n t) = false).
  { intros n. induction (N.lt_wf_0 n) as [n _ IH]. intros t Ht.
    destruct (decide (0 < n)%N); [|assert (n = 0)%N as -> by lia; by rewrite pretty_N_go_0].
    rewrite pretty_N_go_step by done. apply IH; [apply N.div_lt; lia|done]. }
  by apply Hne.
Qed.

Lemma parse_i64_pretty z : (0 <= z <= i64_max)%Z -> parse_i64 (pretty z) = Some z.
Proof.
  intros Hz. destruct (pretty_nonneg z) as (Hf & Hd & He); [lia|]. unfold parse_i64.
  destruct (pretty z) as [|c t] eqn:Hp; [done|].
  cbn [str_forallb] in Hf. apply andb_true_iff in Hf as [Hc _].
  assert (Hsign : forall s, match String c t with
     | String "-" t => ((-1)%Z, t) | String "+" t => (1%Z, t) | _ => s end = s).
  { intros s. destruct c as [[] [] [] [] [] [] [] []]; by vm_compute in Hc || reflexivity. }
  rewrite Hsign. rewrite Hd. cbn [mbind option_bind]. rewrite Z.mul_1_l.
  rewrite decide_True; [done|]. unfold i64_min. lia.
Qed.

(** The last byte. *)
Fixpoint str_last (s : string) : option ascii :=
  match s with "" => None | String c "" => Some c | String _ s' => str_last s' end.

Lemma str_last_app a c s : str_last (a +:+ String c s) = str_last (String c s).
Proof.
  induction a as [|d a IH]; [done|]. rewrite str_app_cons. rewrite <-IH. by destruct a.
Qed.
