(* ===== verification/External.v ===== *)
(** * Code outside the repository

    What the sources call in third-party crates, as interfaces the definitions are
    parameterised by: the [regex] crate and the number type of [serde_json]; and the
    quoting of [Debug], a matter of Unicode tables.
    [serde_json::Value] itself is its six documented constructors; an object is an
    association list read with [obj_get] ([Map::get]). *)
From S2P Require Import Prelude RustStr.

Scheme All for list.
Scheme All for prod.

(** ** [Debug for str]

    A quoted string, with escapes that depend on the standard library's Unicode
    tables. *)

Class StrDebug := { debug_str : string -> string }.

(** Strings without a character to escape, as [Debug] writes them. *)
Definition plain_debug : StrDebug :=
  {| debug_str s := str1 dquote +:+ s +:+ str1 dquote |}.

(** ** [regex] *)

Class RegexCrate := {
  regex : Set;
  (** [RegexBuilder::new(pattern).case_insensitive(ci).build()] *)
  regex_new : bool -> string -> result string regex;
  (** [captures_len] *)
  regex_captures_len : regex -> nat;
  (** [captures(text)]: for group 0, 1, ... its start and its text, if it took part. *)
  regex_captures : regex -> string -> option (list (option (nat * string)));
}.

Definition regex_is_match `{RegexCrate} (r : regex) (s : string) : bool :=
  match regex_captures r s with Some _ => true | None => false end.

Definition capture_group (cs : list (option (nat * string))) (i : nat) : option (nat * string) :=
  mjoin (cs !! i).

(** ** [serde_json] *)

Class JsonNumber := {
  number : Set;
  number_eq_dec :: EqDecision number;
  (** [as_i64] *)
  number_as_i64 : number -> option Z;
  (** [as_u64] *)
  number_as_u64 : number -> option Z;
  (** [as_f64() == Some(0.0)] *)
  number_is_zero : number -> bool;
  (** [as_f64().map(|value| value as i64)] *)
  number_truncated : number -> option Z;
  (** [is_i64() || is_u64()] *)
  number_is_integer : number -> bool;
  (** [Display] *)
  number_to_string : number -> string;
  (** [From<i64>] *)
  number_of_i64 : Z -> number;
}.

(** What [serde_json] documents of [as_i64]: it yields an [i64], and gives back the
    integer a number was made from. *)
Class JsonNumberLaws `{JsonNumber} : Prop := {
  number_as_i64_range : forall n z, number_as_i64 n = Some z -> in_i64 z;
  number_as_i64_of : forall z, in_i64 z -> number_as_i64 (number_of_i64 z) = Some z;
}.

Section value.
Context `{JsonNumber}.

Inductive value :=
| Null
| VBool (b : bool)
| Number (n : number)
| VString (s : string)
| Array (vs : list value)
| Object (kvs : list (string * value)).

Fixpoint obj_get (obj : list (string * value)) (key : string) : option value :=
  match obj with
  | [] => None
  | (k, v) :: obj' => if (k =? key)%string then Some v else obj_get obj' key
  end.

Definition as_object (v : value) : option (list (string * value)) :=
  match v with Object kvs => Some kvs | _ => None end.
Definition as_array (v : value) : option (list value) :=
  match v with Array vs => Some vs | _ => None end.
Definition as_str (v : value) : option string :=
  match v with VString s => Some s | _ => None end.
Definition as_bool (v : value) : option bool :=
  match v with VBool b => Some b | _ => None end.
Definition as_i64 (v : value) : option Z :=
  match v with Number n => number_as_i64 n | _ => None end.
Definition as_u64 (v : value) : option Z :=
  match v with Number n => number_as_u64 n | _ => None end.

Definition has_key (obj : list (string * value)) (key : string) : bool :=
  match obj_get obj key with Some _ => true | None => false end.

(** [Map::remove] and [Map::insert]; nothing reads the order of the entries. *)
Definition obj_remove (key : string) (obj : list (string * value)) : list (string * value) :=
  List.filter (fun kv => negb (kv.1 =? key)%string) obj.
Definition obj_insert (key : string) (v : value) (obj : list (string * value))
  : list (string * value) := (key, v) :: obj_remove key obj.

Lemma obj_get_remove key obj key' :
  obj_get (obj_remove key obj) key' = if (key =? key')%string then None else obj_get obj key'.
Proof.
  unfold obj_remove. induction obj as [|[k v] obj IH]; cbn; [by destruct (_ =? _)%string|].
  destruct (k =? key)%string eqn:Hk; cbn; rewrite IH.
  - apply String.eqb_eq in Hk as ->. by destruct (key =? key')%string.
  - destruct (key =? key')%string eqn:Hkey; [|done].
    apply String.eqb_eq in Hkey as <-. by rewrite Hk.
Qed.

Lemma obj_get_insert key v obj key' :
  obj_get (obj_insert key v obj) key' = if (key =? key')%string then Some v else obj_get obj key'.
Proof. cbn. destruct (key =? key')%string eqn:Hkey; [done|]. by rewrite obj_get_remove, Hkey. Qed.

(** [v.get(key)], and [v[key]], which is [Null] where there is no such key. *)
Definition value_get (v : value) (key : string) : option value :=
  match v with Object kvs => obj_get kvs key | _ => None end.
Definition value_index (v : value) (key : string) : value := default Null (value_get v key).
End value.

Abbreviation object := (list (string * value)).

(** What the prompt queues add: [From<u64>], and the numbers as [f64], ordered by
    [total_cmp], with the two zeros made one. *)
Class JsonFloat `{JsonNumber} := {
  f64 : Set;
  f64_total :: RustOrd f64;
  number_as_f64 : number -> option f64;
  f64_one_zero : f64 -> f64;
  number_of_u64 : Z -> number;
}.

(** [From<u64>] and [as_u64] are inverse. *)
Class JsonU64Laws `{JsonFloat} : Prop :=
  number_as_u64_of : forall z, (0 <= z < 2 ^ 64)%Z -> number_as_u64 (number_of_u64 z) = Some z.

(** ** [sha2] *)

(** The digest of some bytes, which has 32 bytes. *)
Class Sha2Crate := { sha256 : string -> string }.
Class Sha2Laws `{Sha2Crate} : Prop := sha256_length : forall s, String.length (sha256 s) = 32.

(** Integer numbers, as [serde_json] reads a literal without a fraction: an
    instance to run the definitions with. *)
Definition integer_number : JsonNumber := {|
  number := Z;
  number_as_i64 z := if decide (i64_min <= z <= i64_max)%Z then Some z else None;
  number_as_u64 z := if decide (0 <= z < 2 ^ 64)%Z then Some z else None;
  number_is_zero z := bool_decide (z = 0%Z);
  number_truncated z := Some (i64_clamp z);
  number_is_integer _ := true;
  number_to_string z := pretty z;
  number_of_i64 z := z;
|}.

#[export] Instance integer_number_laws : @JsonNumberLaws integer_number.
Proof.
  split; unfold number_as_i64, number_of_i64, in_i64; cbn.
  - intros n z. case_decide; [|done]. by intros [= <-].
  - intros z Hz. by rewrite decide_True.
Qed.

#[export] Instance integer_float : @JsonFloat integer_number :=
  @Build_JsonFloat integer_number Z _ (fun z : Z => Some z) (fun z => z) (fun z : Z => z).

#[export] Instance integer_u64_laws : @JsonU64Laws integer_number integer_float.
Proof. intros z Hz. cbn. by rewrite decide_True. Qed.

(** The first 32 bytes, filled up with zero bytes: an instance to run the definitions with. *)
Fixpoint first_bytes (n : nat) (s : string) : string :=
  match n with
  | 0 => ""
  | S n => match s with "" => String "000" (first_bytes n "") | String c s => String c (first_bytes n s) end
  end.
Definition first_bytes_digest : Sha2Crate := {| sha256 := first_bytes 32 |}.

Lemma first_bytes_length n s : String.length (first_bytes n s) = n.
Proof. revert s. induction n as [|n IH]; intros [|c s]; cbn; by rewrite ?IH. Qed.

#[export] Instance first_bytes_laws : @Sha2Laws first_bytes_digest.
Proof. intros s. apply first_bytes_length. Qed.
