(* ===== verification/Worklist.v ===== *)
(** * Depth-first worklists

    The planner searches its graphs with a stack of pending nodes and a set of
    seen ones.  [reach_loop] is that loop, over any successor function; the bound
    [left] says how many pushes are still possible, and under it the loop computes
    exactly the nodes reachable from the pending ones. *)
From S2P Require Import Prelude.

Section worklist.
Context (succ : Z -> list Z).

Fixpoint reach_loop (fuel : nat) (pending : list Z) (seen : gset Z) : gset Z :=
  match fuel, pending with
  | S fuel, current :: pending =>
      if decide (current ∈ seen) then reach_loop fuel pending seen
      else reach_loop fuel (succ current ++ pending) ({[current]} ∪ seen)
  | _, _ => seen
  end.

Definition succ_rel (x y : Z) : Prop := y ∈ succ x.

(** Successors of seen nodes are seen or pending. *)
Definition frontier (pending : list Z) (seen : gset Z) : Prop :=
  forall v c, v ∈ seen -> succ_rel v c -> c ∈ seen \/ c ∈ pending.

Lemma frontier_skip current pending seen :
  current ∈ seen -> frontier (current :: pending) seen -> frontier pending seen.
Proof. intros Hc Hf v c Hv Hs. destruct (Hf v c Hv Hs); set_solver. Qed.

Lemma frontier_expand current pending seen :
  frontier (current :: pending) seen ->
  frontier (succ current ++ pending) ({[current]} ∪ seen).
Proof.
  intros Hf v c Hv Hs. destruct (decide (v = current)) as [->|Hne].
  - right. apply elem_of_app. by left.
  - destruct (Hf v c) as [?|?]; set_solver.
Qed.

Lemma reach_loop_mono fuel pending seen : seen ⊆ reach_loop fuel pending seen.
Proof.
  revert pending seen. induction fuel as [|fuel IH]; intros [|current pending] seen; simpl;
    try done. case_decide; [done|]. etrans; [|apply IH]. set_solver.
Qed.

Lemma reach_loop_sound fuel pending seen x :
  x ∈ reach_loop fuel pending seen ->
  x ∈ seen \/ exists p, p ∈ pending /\ rtc succ_rel p x.
Proof.
  revert pending seen. induction fuel as [|fuel IH]; intros [|current pending] seen; simpl;
    auto. case_decide as Hc; intros Hx; apply IH in Hx as [Hx|(p & Hp & Hr)].
  - auto.
  - right. exists p. set_solver.
  - apply elem_of_union in Hx as [->%elem_of_singleton|]; [|auto].
    right. exists current. split; [set_solver|done].
  - right. apply elem_of_app in Hp as [Hp|Hp].
    + exists current. split; [set_solver|]. by eapply rtc_l.
    + exists p. set_solver.
Qed.

Context (left : gset Z -> nat).
Hypothesis left_step : forall v seen,
  v ∉ seen -> left ({[v]} ∪ seen) + length (succ v) <= left seen.

Lemma reach_loop_closed fuel pending seen :
  length pending + left seen < fuel -> frontier pending seen ->
  (forall p, p ∈ pending -> p ∈ reach_loop fuel pending seen) /\
  frontier [] (reach_loop fuel pending seen).
Proof.
  revert pending seen. induction fuel as [|fuel IH]; intros pending seen; [lia|].
  destruct pending as [|current pending]; simpl; intros Hfuel Hf.
  { split; [set_solver|done]. }
  case_decide as Hc.
  - destruct (IH pending seen) as [Hp Hcl]; [lia|by eapply frontier_skip|].
    split; [|done]. intros p [->|Hin]%elem_of_cons; [|auto].
    by apply reach_loop_mono.
  - destruct (IH (succ current ++ pending) ({[current]} ∪ seen)) as [Hp Hcl].
    { rewrite length_app. pose proof (left_step _ _ Hc). lia. }
    { by apply frontier_expand. }
    split; [|done]. intros p [->|Hin]%elem_of_cons.
    + apply reach_loop_mono. set_solver.
    + apply Hp. apply elem_of_app. by right.
Qed.

(** With enough fuel the loop returns the nodes seen or reachable. *)
Lemma reach_loop_spec fuel pending seen x :
  length pending + left seen < fuel -> frontier pending seen ->
  x ∈ reach_loop fuel pending seen <->
  x ∈ seen \/ exists p, p ∈ pending /\ rtc succ_rel p x.
Proof.
  intros Hfuel Hf. split; [apply reach_loop_sound|].
  destruct (reach_loop_closed _ _ _ Hfuel Hf) as [Hp Hcl].
  intros [Hx|(p & Hin & Hr)]; [by apply reach_loop_mono|].
  specialize (Hp p Hin). clear Hin. induction Hr as [|p q x Hs Hr IH]; [done|].
  apply IH. destruct (Hcl p q Hp Hs) as [?|?]; [done|set_solver].
Qed.

Lemma reach_from_spec fuel pending x :
  length pending + left ∅ < fuel ->
  x ∈ reach_loop fuel pending ∅ <-> exists p, p ∈ pending /\ rtc succ_rel p x.
Proof.
  intros Hfuel. rewrite reach_loop_spec; [set_solver|done|].
  intros v c Hv. set_solver.
Qed.
End worklist.

(** ** Adjacency maps supply the bound *)

Section degrees.
Implicit Types (adj : gmap Z (gset Z)).

(** Total out-degree of the nodes not yet seen. *)
Definition degree_left adj (seen : gset Z) : nat :=
  map_fold (fun v cs acc => (if decide (v ∈ seen) then 0 else size cs) + acc) 0 adj.

Lemma degree_left_insert i (cs : gset Z) adj seen :
  adj !! i = None ->
  degree_left (<[i := cs]> adj) seen
  = (if decide (i ∈ seen) then 0 else size cs) + degree_left adj seen.
Proof.
  intros Hi. unfold degree_left.
  refine (map_fold_insert_L
    (fun v (cs : gset Z) acc => (if decide (v ∈ seen) then 0 else size cs) + acc)
    0 i cs adj _ Hi).
  intros. lia.
Qed.

Lemma degree_left_step adj v seen :
  v ∉ seen ->
  degree_left adj ({[v]} ∪ seen) + size (neighbours adj v) = degree_left adj seen.
Proof.
  intros Hv. induction adj as [|i cs adj Hi IH] using map_ind.
  { unfold degree_left, neighbours. by rewrite lookup_empty. }
  rewrite !degree_left_insert by done.
  unfold neighbours in *. rewrite lookup_insert.
  destruct (decide (i = v)) as [->|Hiv].
  - rewrite Hi in IH. change (size (default ∅ None)) with 0 in IH.
    rewrite decide_True by set_solver. rewrite decide_False by done. simpl. lia.
  - destruct (decide (i ∈ seen)).
    + rewrite decide_True by set_solver. lia.
    + rewrite decide_False by set_solver. lia.
Qed.
End degrees.
