(* ===== verification/PlannerModel.v ===== *)
(** * pr-landing-planner: vocabulary
    ([rs/pr-landing-planner/src/mechanism.rs], [model.rs])

    Recognition of the operational mechanism a label or a changed symbol names
    ([derive_symbols_from_diff] needs the [regex] crate and is not modelled).  Then the
    plain data of the planner: enumerations with their machine-facing spellings, and the
    records the collector hands to the graph, classification and planning code.  [i64]
    fields are [Z], [usize] fields [nat], [BTreeSet] and [BTreeMap] are [gset] and [gmap]. *)
From S2P Require Import Prelude RustStr.

(** In declaration order, which is the order [derive(Ord)] gives. *)
Inductive Mechanism :=
| CancelInProgress | PrAutoTrigger | DagSchedulerWidth | LocallyValidatedLabel
| ValidateLedgerPath | MergeGateRequiredChecks.

#[export] Instance Mechanism_eq_dec : EqDecision Mechanism.
Proof. solve_decision. Defined.

Definition Mechanism_ALL : list Mechanism :=
  [CancelInProgress; PrAutoTrigger; DagSchedulerWidth; LocallyValidatedLabel;
   ValidateLedgerPath; MergeGateRequiredChecks].

Definition Mechanism_as_str (m : Mechanism) : string :=
  match m with
  | CancelInProgress => "cancel-in-progress"
  | PrAutoTrigger => "pr-auto-trigger"
  | DagSchedulerWidth => "dag-scheduler-width"
  | LocallyValidatedLabel => "locally-validated-label"
  | ValidateLedgerPath => "validate-ledger-path"
  | MergeGateRequiredChecks => "merge-gate-required-checks"
  end.

Definition aliases (m : Mechanism) : list string :=
  match m with
  | CancelInProgress => ["cancel-in-progress"]
  | PrAutoTrigger =>
      ["pr-auto-trigger"; "on-pull-request"; "pull-request-trigger"; "pr-trigger";
       "pr-triggers"]
  | DagSchedulerWidth => ["dag-scheduler-width"; "ci-dag-jobs"; "dag-jobs"; "dag-width"]
  | LocallyValidatedLabel =>
      ["locally-validated-label"; "locally-validated"; "validated-locally"]
  | ValidateLedgerPath => ["validate-ledger-path"; "ledger-path"; "validate-ledger"]
  | MergeGateRequiredChecks =>
      ["merge-gate-required-checks"; "merge-gate"; "required-checks"]
  end.

(** The position in [ALL], the discriminant [derive(Ord)] compares. *)
Definition Mechanism_index (m : Mechanism) : nat :=
  match m with
  | CancelInProgress => 0 | PrAutoTrigger => 1 | DagSchedulerWidth => 2
  | LocallyValidatedLabel => 3 | ValidateLedgerPath => 4 | MergeGateRequiredChecks => 5
  end.

#[export] Program Instance Mechanism_ord : RustOrd Mechanism :=
  {| rle a b := Mechanism_index a <= Mechanism_index b |}.
Next Obligation. intros a b. apply _. Defined.
Next Obligation. intros a b c. apply Nat.le_trans. Qed.
Next Obligation. intros a b. apply Nat.le_ge_cases. Qed.
Next Obligation. intros [] []; simpl; (done || lia). Qed.

#[export] Program Instance Mechanism_countable : Countable Mechanism :=
  inj_countable' Mechanism_index (fun n => nth n Mechanism_ALL CancelInProgress) _.
Next Obligation. by intros []. Qed.

(** The loop of [normalize] over the lower-cased text; [out] is written at its
    end, [separator] is the pending-separator flag.  A byte of a non-ASCII
    character is not ASCII alphanumeric, so looping over bytes or characters is
    the same. *)
Fixpoint normalize_loop (out : string) (separator : bool) (s : string) : string :=
  match s with
  | "" => out
  | String ch s' =>
      if is_alnum ch then
        let out := if separator && negb (str_is_empty out) then out +:+ "-" else out in
        normalize_loop (out +:+ str1 ch) false s'
      else normalize_loop out true s'
  end.

Definition is_dash (ch : string) : bool := (ch =? "-")%string.

Definition normalize (raw : string) : string :=
  trim_matches is_dash (normalize_loop "" false (to_ascii_lowercase raw)).

Definition alias_matches (normalized alias : string) : bool :=
  (normalized =? alias)%string
  || starts_with normalized (alias +:+ "-")
  || ends_with normalized ("-" +:+ alias)
  || contains normalized ("-" +:+ alias +:+ "-").

Definition classify (raw : string) : option Mechanism :=
  let normalized := normalize raw in
  List.find (fun m => existsb (alias_matches normalized) (aliases m)) Mechanism_ALL.

Example classify_label : classify "CI_DAG_JOBS" = Some DagSchedulerWidth.
Proof. reflexivity. Qed.

(** ** Enumerations *)

Inductive CiState := Passed | Failed | NoResult.

Definition CiState_as_str (s : CiState) : string :=
  match s with Passed => "passed" | Failed => "failed" | NoResult => "no-result" end.

Inductive RedClass := Real | Flaky | StaleRequiredCheck | EvaluateOnceRace | RunnerOutage.

Definition RedClass_as_str (r : RedClass) : string :=
  match r with
  | Real => "real"
  | Flaky => "flaky"
  | StaleRequiredCheck => "stale-required-check"
  | EvaluateOnceRace => "evaluate-once-race"
  | RunnerOutage => "runner-outage"
  end.

Inductive PrAction :=
| LandNow | RebaseThenLand | RefireStaleGate | EscalateRunnerOutage
| EscalateGatePolicy | RefireCi | HoldFix | Wait.

Definition PrAction_ALL : list PrAction :=
  [LandNow; RebaseThenLand; RefireStaleGate; EscalateRunnerOutage;
   EscalateGatePolicy; RefireCi; HoldFix; Wait].

Definition PrAction_as_str (a : PrAction) : string :=
  match a with
  | LandNow => "land-now"
  | RebaseThenLand => "rebase-then-land"
  | RefireStaleGate => "refire-stale-gate"
  | EscalateRunnerOutage => "escalate-runner-outage"
  | EscalateGatePolicy => "escalate-gate-policy"
  | RefireCi => "refire-ci"
  | HoldFix => "hold-fix"
  | Wait => "wait"
  end.

Inductive ValidationEvidence :=
| EvidenceNone | AuthoritativeCi | LocallyValidated | CleanValidateRecord.

Definition ValidationEvidence_as_str (e : ValidationEvidence) : string :=
  match e with
  | EvidenceNone => "none"
  | AuthoritativeCi => "authoritative-ci"
  | LocallyValidated => "locally-validated"
  | CleanValidateRecord => "clean-validate-record"
  end.

Definition ValidationEvidence_parse (value : string) : option ValidationEvidence :=
  match value with
  | "none" => Some EvidenceNone
  | "authoritative-ci" => Some AuthoritativeCi
  | "locally-validated" => Some LocallyValidated
  | "clean-validate-record" => Some CleanValidateRecord
  | _ => None
  end.

Inductive ValidationAuthority := AuthorityNone | HardGreen | SoftGreen.

Definition ValidationAuthority_as_str (a : ValidationAuthority) : string :=
  match a with AuthorityNone => "none" | HardGreen => "hard-green" | SoftGreen => "soft-green" end.

Definition ValidationAuthority_parse (value : string) : option ValidationAuthority :=
  match value with
  | "none" => Some AuthorityNone
  | "hard-green" => Some HardGreen
  | "soft-green" => Some SoftGreen
  | _ => None
  end.

Inductive ReviewBinding := NotRequired | Missing | Unbound | Stale | ExactHead.

Definition ReviewBinding_as_str (b : ReviewBinding) : string :=
  match b with
  | NotRequired => "not-required"
  | Missing => "missing"
  | Unbound => "unbound"
  | Stale => "stale"
  | ExactHead => "exact-head"
  end.

Inductive PolicyClass := Unclassified | CiHygiene | GatePolicy.

Definition PolicyClass_as_str (p : PolicyClass) : string :=
  match p with
  | Unclassified => "unclassified"
  | CiHygiene => "ci-hygiene"
  | GatePolicy => "gate-policy"
  end.

Definition PolicyClass_parse (value : string) : option PolicyClass :=
  match value with
  | "unclassified" => Some Unclassified
  | "ci-hygiene" => Some CiHygiene
  | "gate-policy" => Some GatePolicy
  | _ => None
  end.

#[export] Instance CiState_eq_dec : EqDecision CiState.
Proof. solve_decision. Defined.
#[export] Instance RedClass_eq_dec : EqDecision RedClass.
Proof. solve_decision. Defined.
#[export] Instance PrAction_eq_dec : EqDecision PrAction.
Proof. solve_decision. Defined.
#[export] Instance ValidationEvidence_eq_dec : EqDecision ValidationEvidence.
Proof. solve_decision. Defined.
#[export] Instance ValidationAuthority_eq_dec : EqDecision ValidationAuthority.
Proof. solve_decision. Defined.
#[export] Instance ReviewBinding_eq_dec : EqDecision ReviewBinding.
Proof. solve_decision. Defined.
#[export] Instance PolicyClass_eq_dec : EqDecision PolicyClass.
Proof. solve_decision. Defined.

(** ** Records *)

Record CheckRun := {
  cr_name : string;
  cr_status : string;
  cr_conclusion : string;
  cr_text : string;
  cr_workflow : string;
  cr_duration_secs : option Z;
}.

#[export] Instance CheckRun_eq_dec : EqDecision CheckRun.
Proof. solve_decision. Defined.

Record CiVerdict := {
  raw_state : CiState;
  red_class : option RedClass;
  gate_present : bool;
  gate_ok : bool;
  gate_missing_run : bool;
  ci_detail : string;
}.

Definition CiVerdict_default : CiVerdict := {|
  raw_state := NoResult; red_class := None; gate_present := false;
  gate_ok := false; gate_missing_run := false; ci_detail := "";
|}.

Record PrNode := {
  number : Z;
  head_ref : string;
  base_ref : string;
  head_sha : string;
  base_sha : string;
  title : string;
  author : string;
  is_draft : bool;
  mergeable : string;
  review_decision : string;
  review_evidence_unavailable : bool;
  created_at : string;
  updated_at : string;
  additions : Z;
  deletions : Z;
  labels : list string;
  mechanism_symbols : list string;
  files : gset string;
  base_conflict_paths : list string;
  commits_behind : Z;
  ci : CiVerdict;
  priority : Z;
  assigned_agent : string;
  validation_evidence : ValidationEvidence;
  validation_authority : ValidationAuthority;
  review_pass_heads : gmap string string;
  review_evidence_digest : string;
  review_objections_resolved : bool;
  policy_class : PolicyClass;
}.

(** Total changed lines; [i64] addition wraps in a release build. *)
Definition pr_size (n : PrNode) : Z := (additions n +w deletions n)%i64.

Definition base_conflicting (n : PrNode) : bool :=
  negb (match base_conflict_paths n with [] => true | _ => false end)
  || (mergeable n =? "CONFLICTING")%string.

Record ConflictEdge := { ce_a : Z; ce_b : Z; ce_paths : list string }.
Record OverlapEdge := { oe_a : Z; oe_b : Z; oe_paths : list string }.
Record MechanismEdge := { me_a : Z; me_b : Z; me_mechanisms : list string }.

Record Cluster := { members : list Z; conflict_paths : list string }.

Definition Cluster_size (c : Cluster) : nat := length (members c).

(** [saturating_sub] on [usize] is the truncated subtraction of [nat]. *)
Definition Cluster_rebases_avoided (c : Cluster) : nat := Cluster_size c - 1.

Record UnclassifiedMechanism := { um_pr : Z; um_candidates : list string }.
Record OrderingEdge := { before : Z; after : Z; reason : string }.
Record HeldPr := { held_pr : Z; reasons : list string }.

Record CollectedGraph := {
  repository : string;
  base : string;
  nodes : list PrNode;
  conflict_edges : list ConflictEdge;
  overlap_edges : list OverlapEdge;
  ordering_edges : list OrderingEdge;
  mechanism_edges : list MechanismEdge;
  unclassified_mechanisms : list UnclassifiedMechanism;
}.

Record PrActionDecision := {
  dec_pr : Z;
  dec_action : PrAction;
  dec_why : string;
  dec_group : option nat;
}.

Record Plan := {
  parallel_safe_groups : list (list Z);
  land_now : list Z;
  order : list Z;
  per_pr_actions : list PrActionDecision;
  plan_batch : list Z;
}.

Record Diagnostics := {
  stale_gates : list Z;
  flaky_reds : list Z;
  real_reds : list Z;
  evaluate_once_race : list Z;
  outage_prs : list Z;
  outage_suspected : bool;
}.

Record PlanResult := {
  res_graph : CollectedGraph;
  res_stacks : list (list Z);
  res_held : list HeldPr;
  res_plan : Plan;
  res_diagnostics : Diagnostics;
}.

(** ** Helpers *)

Definition edge_key (a b : Z) : Z * Z := if decide (a <= b)%Z then (a, b) else (b, a).

(** The [filter] with [seen.insert]: a label is kept when it was not yet seen. *)
Fixpoint dedupe_seen (seen : gset string) (ls : list string) : list string :=
  match ls with
  | [] => []
  | l :: ls' =>
      if decide (l ∈ seen) then dedupe_seen seen ls'
      else l :: dedupe_seen ({[l]} ∪ seen) ls'
  end.

Definition dedupe_priority (ls : list string) : list string := dedupe_seen ∅ ls.
