(* ===== verification/PlannerClassify.v ===== *)
(** * pr-landing-planner: CI classification ([rs/pr-landing-planner/src/classify.rs])

    Selection of one attempt per check, the three-valued state of a rollup, and
    the class of a red one.  Regular expressions and JSON numbers are the
    interfaces of [External]. *)
From S2P Require Import Prelude RustStr External PlannerModel.

Definition FAILED_CONCLUSIONS : list string :=
  ["FAILURE"; "TIMED_OUT"; "ERROR"; "STARTUP_FAILURE"].
Definition PASSED_CONCLUSIONS : list string := ["SUCCESS"].

(** ** Configuration *)

Record FlakySignature := { name_regex : string; text_regex : string; note : string }.

Record ClassifyConfig := {
  gate_check : string;
  flaky_signatures : list FlakySignature;
  evaluate_once_markers : list string;
  outage_markers : list string;
  outage_max_duration_secs : Z;
  outage_min_prs : nat;
}.

Definition ClassifyConfig_default : ClassifyConfig := {|
  gate_check := "merge-gate";
  flaky_signatures := [];
  evaluate_once_markers :=
    ["full ci still queued"; "rerun after ci completes"; "still queued"];
  outage_markers := ["blobnotfound"; "no runner"; "runner not found"];
  outage_max_duration_secs := 5;
  outage_min_prs := 2;
|}.

(** The three messages of the [String] error, before formatting. *)
Inductive ConfigError :=
| InvalidSignature (field pattern error : string)
| EmptyGateCheck
| NegativeThreshold.

Section signatures.
Context `{RegexCrate}.

Definition validate_pattern (field pattern : string) : result ConfigError () :=
  if str_is_empty pattern then Ok ()
  else match regex_new true pattern with
       | Ok _ => Ok ()
       | Err error => Err (InvalidSignature field pattern error)
       end.

Definition FlakySignature_validate (sig : FlakySignature) : result ConfigError () :=
  validate_pattern "name_regex" (name_regex sig);;
  validate_pattern "text_regex" (text_regex sig).

Definition pattern_matches (pattern v : string) : bool :=
  str_is_empty pattern
  || match regex_new true pattern with Ok r => regex_is_match r v | Err _ => false end.

Definition FlakySignature_matches (sig : FlakySignature) (check : CheckRun) : bool :=
  if str_is_empty (name_regex sig) && str_is_empty (text_regex sig) then false
  else pattern_matches (name_regex sig) (cr_name check)
       && pattern_matches (text_regex sig) (cr_text check).

Fixpoint validate_signatures (sigs : list FlakySignature) : result ConfigError () :=
  match sigs with
  | [] => Ok ()
  | sig :: sigs => FlakySignature_validate sig;; validate_signatures sigs
  end.

Definition ClassifyConfig_validate (cfg : ClassifyConfig) : result ConfigError () :=
  if str_is_empty (str_trim (gate_check cfg)) then Err EmptyGateCheck
  else if decide (outage_max_duration_secs cfg < 0)%Z then Err NegativeThreshold
  else validate_signatures (flaky_signatures cfg).
End signatures.

(** ** One check *)

Definition classify_check (status conclusion : string) : CiState :=
  let status := to_ascii_uppercase (str_trim status) in
  let conclusion := to_ascii_uppercase (str_trim conclusion) in
  if negb (str_is_empty status) && negb (status =? "COMPLETED")%string then NoResult
  else if decide (conclusion ∈ FAILED_CONCLUSIONS) then Failed
  else if decide (conclusion ∈ PASSED_CONCLUSIONS) then Passed
  else NoResult.

Definition check_state (check : CheckRun) : CiState :=
  classify_check (cr_status check) (cr_conclusion check).

(** ** Reading a rollup *)

Section rollup.
Context `{JsonNumber, RegexCrate}.

Definition scalar_string (v : option value) : string :=
  match v with
  | Some (VString s) => s
  | Some (Number n) => number_to_string n
  | Some (VBool b) => if b then "True" else "False"
  | _ => ""
  end.

(** [keys.map(text).find(|value| p(value)).unwrap_or_default()] *)
Definition first_text (p : string -> bool) (text : option value -> string)
    (obj : object) (keys : list string) : string :=
  default "" (List.find p ((fun key => text (obj_get obj key)) <$> keys)).

Definition non_empty (s : string) : bool := negb (str_is_empty s).

Definition first_string (obj : object) (keys : list string) : string :=
  first_text non_empty scalar_string obj keys.

Fixpoint int_field (obj : object) (keys : list string) : option Z :=
  match keys with
  | [] => None
  | key :: keys =>
      match v ← obj_get obj key; as_i64 v with
      | Some i => Some i
      | None => int_field obj keys
      end
  end.

Definition selection_text (v : option value) : string :=
  match v with
  | None | Some Null | Some (VBool false) => ""
  | Some (VString s) => str_trim s
  | Some (Number n) => if number_is_zero n then "" else str_trim (number_to_string n)
  | Some (VBool true) => "True"
  | Some _ => ""
  end.

Definition head_matches (obj : object) (requested : string) : bool :=
  if str_is_empty requested then true
  else
    let observed := first_text non_empty selection_text obj
                      ["headSha"; "head_sha"; "headRefOid"] in
    str_is_empty observed || (observed =? requested)%string.

Definition check_context (obj : object) : string :=
  first_text non_empty selection_text obj ["name"; "context"].

Definition run_id_value (v : value) : option Z :=
  match v with
  | VString s => parse_i64 s
  | Number n => match number_as_i64 n with Some i => Some i | None => number_truncated n end
  | VBool b => Some (if b then 1 else 0)%Z
  | _ => None
  end.

(** The [for key] loop of [run_id]. *)
Fixpoint run_id_field (obj : object) (keys : list string) : option Z :=
  match keys with
  | [] => None
  | key :: keys =>
      match obj_get obj key with
      | Some v =>
          if str_is_empty (selection_text (Some v)) then run_id_field obj keys
          else match run_id_value v with Some i => Some i | None => run_id_field obj keys end
      | None => run_id_field obj keys
      end
  end.

Definition RUN_URL : string := "/actions/runs/(\d+)(?:/|$)".

Definition run_id (obj : object) : Z :=
  match run_id_field obj ["runId"; "run_id"] with
  | Some i => i
  | None =>
      let url := first_text non_empty selection_text obj
                   ["detailsUrl"; "details_url"; "url"; "html_url"] in
      default 0%Z
        (r ← result_ok (regex_new false RUN_URL);
         cs ← regex_captures r url; g ← capture_group cs 1; parse_i64 g.2)
  end.

Definition timestamp (obj : object) : string :=
  first_text (fun v => non_empty v && negb (starts_with v "0001-01-01")) selection_text obj
    ["createdAt"; "created_at"; "startedAt"; "started_at"; "completedAt"].

Definition recency_key (obj : object) : Z * string := (run_id obj, timestamp obj).

Definition outcome_identity (obj : object) : string * string :=
  let conclusion := selection_text (obj_get obj "conclusion") in
  (selection_text (obj_get obj "status"),
   if str_is_empty conclusion then selection_text (obj_get obj "state") else conclusion).

Record SelectedCheck := { recency : Z * string; sel_index : nat; sel_check : object }.

Definition ambiguous_check (context : string) : object :=
  [("name", VString context); ("status", VString "AMBIGUOUS"); ("conclusion", VString "");
   ("_selectionError",
    VString "duplicate check context has equal ordering identity and contrary verdicts")].

Definition context_key (context : string) (index : nat) : string :=
  if str_is_empty context then String "000"%char ("unnamed-" +:+ pretty index) else context.

(** The body of the selection loop; [None] is [continue] with nothing changed. *)
Definition select_entry (head_sha : string)
    (acc : gmap string SelectedCheck * list string) (p : nat * value)
  : gmap string SelectedCheck * list string :=
  let '(latest, order) := acc in
  let '(index, entry) := p in
  match as_object entry with
  | None => acc
  | Some obj =>
      if negb (head_matches obj head_sha) then acc
      else
        let context := check_context obj in
        let key := context_key context index in
        let candidate_key := recency_key obj in
        let candidate := {| recency := candidate_key; sel_index := index; sel_check := obj |} in
        match latest !! key with
        | None => (<[key := candidate]> latest, order ++ [key])
        | Some previous =>
            if decide (candidate_key = recency previous) then
              if decide (outcome_identity (sel_check previous) = outcome_identity obj) then
                if decide (sel_index previous < index) then (<[key := candidate]> latest, order)
                else acc
              else
                (<[key := {| recency := candidate_key;
                             sel_index := Nat.max (sel_index previous) index;
                             sel_check := ambiguous_check context |}]> latest, order)
            else if decide (rle (recency previous) candidate_key) then
              (<[key := candidate]> latest, order)
            else acc
        end
  end.

(** [order.filter_map(|key| latest.remove(&key))] *)
Fixpoint drain_selected (order : list string) (latest : gmap string SelectedCheck)
  : list object :=
  match order with
  | [] => []
  | key :: order =>
      match latest !! key with
      | Some s => sel_check s :: drain_selected order (delete key latest)
      | None => drain_selected order latest
      end
  end.

Definition rollup_entries (raw : value) : option (list value) :=
  match as_array raw with
  | Some vs => Some vs
  | None =>
      obj ← as_object raw;
      v ← (match obj_get obj "statusCheckRollup" with
           | Some v => Some v
           | None => obj_get obj "check_runs"
           end);
      as_array v
  end.

Definition select_latest_checks (raw : value) (head_sha : string) : list object :=
  match rollup_entries raw with
  | None => []
  | Some entries =>
      let '(latest, order) :=
        foldl (select_entry head_sha) (∅, []) (imap (fun i v => (i, v)) entries) in
      drain_selected order latest
  end.

Definition narrow_check (obj : object) : CheckRun :=
  let conclusion := to_ascii_uppercase (first_string obj ["conclusion"]) in
  {| cr_name := first_string obj ["name"; "context"; "workflowName"];
     cr_status := to_ascii_uppercase (first_string obj ["status"]);
     cr_conclusion := if str_is_empty conclusion
                      then to_ascii_uppercase (first_string obj ["state"]) else conclusion;
     cr_text := first_string obj ["text"; "title"; "description"; "summary"];
     cr_workflow := first_string obj ["workflowName"; "workflow"];
     cr_duration_secs := int_field obj ["duration_secs"; "durationSecs"] |}.

Definition parse_rollup (raw : value) (head_sha : string) : list CheckRun :=
  narrow_check <$> select_latest_checks raw head_sha.

Definition signature_of (entry : value) : option FlakySignature :=
  obj ← as_object entry;
  let field key := default "" (v ← obj_get obj key; as_str v) in
  let sig := {| name_regex := field "name_regex"; text_regex := field "text_regex";
                note := field "note" |} in
  if negb (str_is_empty (name_regex sig)) || negb (str_is_empty (text_regex sig))
  then Some sig else None.

Definition flaky_signatures_from_value (raw : value) : list FlakySignature :=
  let entries := match as_array raw with
                 | Some vs => Some vs
                 | None => obj ← as_object raw; v ← obj_get obj "signatures"; as_array v
                 end in
  omap signature_of (default [] entries).
End rollup.

(** ** The state and the red class of a pull request *)

Fixpoint classify_state_loop (saw_no_result : bool) (checks : list CheckRun) : CiState :=
  match checks with
  | [] => if saw_no_result then NoResult else Passed
  | check :: checks =>
      match check_state check with
      | Failed => Failed
      | NoResult => classify_state_loop true checks
      | Passed => classify_state_loop saw_no_result checks
      end
  end.

Definition classify_state (checks : list CheckRun) : CiState :=
  match checks with [] => NoResult | _ => classify_state_loop false checks end.

Definition has_marker (markers : list string) (check : CheckRun) : bool :=
  existsb (fun m => contains (to_ascii_lowercase (cr_text check)) (to_ascii_lowercase m)) markers.

Definition looks_like_missing_run (check : CheckRun) (cfg : ClassifyConfig) : bool :=
  has_marker (outage_markers cfg) check
  || (cr_conclusion check =? "STARTUP_FAILURE")%string
  || (match cr_duration_secs check with
      | Some d => bool_decide (d <= outage_max_duration_secs cfg)%Z
      | None => false
      end && bool_decide (cr_conclusion check ∈ FAILED_CONCLUSIONS)).

Definition is_state (s : CiState) (check : CheckRun) : bool := bool_decide (check_state check = s).

Definition is_gate (cfg : ClassifyConfig) (check : CheckRun) : bool :=
  (cr_name check =? gate_check cfg)%string.

Section classify_pr.
Context `{RegexCrate}.

Definition known_flaky (cfg : ClassifyConfig) (check : CheckRun) : bool :=
  existsb (fun sig => FlakySignature_matches sig check) (flaky_signatures cfg).

Definition real_red_detail (cfg : ClassifyConfig) (red_checks : list CheckRun) : string :=
  match sort_dedup (cr_name <$> List.filter (fun c => negb (known_flaky cfg c)) red_checks) with
  | [] => "real red"
  | names => "real red on: " +:+ join ", " names
  end.

Definition non_empty_all {A} (p : A -> bool) (l : list A) : bool :=
  match l with [] => false | _ => forallb p l end.

Definition classify_pr (checks : list CheckRun) (cfg : ClassifyConfig) : CiVerdict :=
  let raw := classify_state checks in
  let gate := List.find (is_gate cfg) checks in
  let gate_is p := match gate with Some c => p c | None => false end in
  let present := match gate with Some _ => true | None => false end in
  let ok := gate_is (is_state Passed) in
  let missing_run := gate_is (fun c => looks_like_missing_run c cfg) in
  let verdict red detail missing := {|
    raw_state := raw; red_class := red; gate_present := present; gate_ok := ok;
    gate_missing_run := missing; ci_detail := detail |} in
  if negb (bool_decide (raw = Failed)) then verdict None (CiState_as_str raw) missing_run
  else
    let red_checks := List.filter (is_state Failed) checks in
    let non_gate_state :=
      classify_state (List.filter (fun c => negb (is_gate cfg c)) checks) in
    if missing_run then
      verdict (Some RunnerOutage)
        ("gate check '" +:+ gate_check cfg +:+ "' never ran (runner outage signature)") true
    else if non_empty_all (fun c => is_gate cfg c && has_marker (evaluate_once_markers cfg) c)
              red_checks then
      verdict (Some EvaluateOnceRace)
        "gate evaluated once while full CI was still queued (benign; treat as pending)" false
    else if gate_is (is_state Failed)
            && negb (existsb (fun c => negb (is_gate cfg c)) red_checks)
            && bool_decide (non_gate_state = Passed) then
      verdict (Some StaleRequiredCheck)
        ("CI green on head; required gate '" +:+ gate_check cfg +:+ "' is stale") false
    else if non_empty_all (known_flaky cfg) red_checks then
      verdict (Some Flaky) "all red checks match a known flaky signature; refire CI" false
    else verdict (Some Real) (real_red_detail cfg red_checks) false.
End classify_pr.
