(* ===== verification/PlannerGraph.v ===== *)
(** * pr-landing-planner: graph algorithms ([rs/pr-landing-planner/src/graph.rs])

    Each loop of the source is a [Fixpoint] on fuel whose body is the loop's body;
    the fuel each caller supplies is an upper bound on the iterations, and the
    theorems of the facts files, which describe the result completely, show that it
    never runs out.  Stacks ([Vec] with [push] and [pop]) keep their top at the
    head of the list.  Where the source indexes a map by a key that is always
    present ([map[&k]], a panic otherwise) the model has [neighbours] or a value
    that is never used. *)
From S2P Require Import Prelude RustStr PlannerModel.

Definition MECHANISM_LABEL_PREFIX : string := "mechanism:".

(** [rs/pr-landing-planner/src/context.rs] *)
Definition REQUIRED_REVIEW_LANES : list string := ["codex"; "claude"].

(** ** Mechanism and overlap edges *)

Definition mechanism_slugs (ls : list string) : list string :=
  sort_dedup (List.filter (fun slug => negb (str_is_empty slug))
                (omap (strip_prefix MECHANISM_LABEL_PREFIX) ls)).

Definition mechanism_candidates (node : PrNode) : list string :=
  sort_dedup (mechanism_slugs (labels node) ++ mechanism_symbols node).

(** The loop's two accumulators, [recognised] and [unknown]. *)
Definition classify_candidate (acc : gset Mechanism * list string) (candidate : string)
  : gset Mechanism * list string :=
  let '(recognised, unknown) := acc in
  match classify candidate with
  | Some m => ({[m]} ∪ recognised, unknown)
  | None => (recognised, unknown ++ [candidate])
  end.

Definition classify_node_mechanisms (node : PrNode) : gset Mechanism * list string :=
  foldl classify_candidate (∅, []) (mechanism_candidates node).

(** [enumerate().skip(i + 1)]: the ordered pairs of distinct positions. *)
Fixpoint pairs {A} (l : list A) : list (A * A) :=
  match l with [] => [] | x :: l' => (pair x <$> l') ++ pairs l' end.

Definition mechanism_edge (p : PrNode * PrNode) : option MechanismEdge :=
  let '(a, b) := p in
  let ca := (classify_node_mechanisms a).1 in
  let cb := (classify_node_mechanisms b).1 in
  if decide (ca = ∅) then None
  else match Mechanism_as_str <$> btree_elems (ca ∩ cb) with
       | [] => None
       | mechanisms => Some {| me_a := number a; me_b := number b; me_mechanisms := mechanisms |}
       end.

Definition build_mechanism_edges (ns : list PrNode) : list MechanismEdge :=
  omap mechanism_edge (pairs ns).

Definition build_unclassified_mechanisms (ns : list PrNode) : list UnclassifiedMechanism :=
  omap (fun node =>
          match (classify_node_mechanisms node).2 with
          | [] => None
          | candidates => Some {| um_pr := number node; um_candidates := candidates |}
          end) ns.

Definition overlap_edge (p : PrNode * PrNode) : option OverlapEdge :=
  let '(a, b) := p in
  match btree_elems (files a ∩ files b) with
  | [] => None
  | paths => Some {| oe_a := number a; oe_b := number b; oe_paths := paths |}
  end.

Definition build_overlap_edges (ns : list PrNode) : list OverlapEdge :=
  omap overlap_edge (pairs ns).

Definition build_conflict_edges_file_overlap (ns : list PrNode) : list ConflictEdge :=
  (fun e => {| ce_a := oe_a e; ce_b := oe_b e; ce_paths := oe_paths e |})
    <$> build_overlap_edges ns.

(** ** Ordering edges *)

Definition base_ref_edge (by_head : gmap string Z) (node : PrNode) : option OrderingEdge :=
  b ← by_head !! base_ref node;
  if decide (b = number node) then None
  else Some {| before := b; after := number node; reason := "base-ref" |}.

Definition build_ordering_edges_base_ref (ns : list PrNode) : list OrderingEdge :=
  let by_head := map_collect ((fun node => (head_ref node, number node)) <$> ns) in
  omap (base_ref_edge by_head) ns.

Definition dedupe_ordering (edges : list OrderingEdge) : list OrderingEdge :=
  btree_values (foldl (fun seen e => entry_or_insert (before e, after e) e seen)
                  (∅ : gmap (Z * Z) OrderingEdge) edges).

(** [adjacency.entry(edge.before).or_default().insert(edge.after)] for every edge. *)
Definition ordering_adjacency (edges : list OrderingEdge) : gmap Z (gset Z) :=
  foldl (fun adj e => entry_insert (before e) (after e) adj) ∅ edges.

(** *** Worklist fuel

    A node's successors are pushed once, when it is first seen, so a depth-first
    loop pops at most [initial pushes + total degree] times. *)
Definition total_degree (adj : gmap Z (gset Z)) : nat :=
  map_fold (fun _ cs acc => size cs + acc) 0 adj.

Definition worklist_fuel (adj : gmap Z (gset Z)) (initial : nat) : nat :=
  S (initial + total_degree adj).

(** ** [has_path] and transitive reduction *)

(** The inner [for child] loop: [None] when [target] was found. *)
Fixpoint has_path_children (target : Z) (skip : Z * Z) (current : Z)
    (children pending : list Z) : option (list Z) :=
  match children with
  | [] => Some pending
  | child :: children =>
      if decide ((current, child) = skip) then has_path_children target skip current children pending
      else if decide (child = target) then None
      else has_path_children target skip current children (child :: pending)
  end.

Fixpoint has_path_loop (fuel : nat) (adj : gmap Z (gset Z)) (target : Z) (skip : Z * Z)
    (pending : list Z) (seen : gset Z) : bool :=
  match fuel, pending with
  | S fuel, current :: pending =>
      if decide (current ∈ seen) then has_path_loop fuel adj target skip pending seen
      else match has_path_children target skip current
                   (btree_elems (neighbours adj current)) pending with
           | None => true
           | Some pending => has_path_loop fuel adj target skip pending ({[current]} ∪ seen)
           end
  | _, _ => false
  end.

Definition has_path (adj : gmap Z (gset Z)) (start target : Z) (skip : Z * Z) : bool :=
  has_path_loop (worklist_fuel adj 1) adj target skip [start] ∅.

Definition transitive_reduce (edges : list OrderingEdge) : list OrderingEdge :=
  let adj := ordering_adjacency edges in
  List.filter (fun e => negb (has_path adj (before e) (after e) (before e, after e))) edges.

(** ** Stacks *)

Fixpoint visit (fuel : nat) (children : gmap Z (gset Z)) (node : Z) (path : list Z)
  : list (list Z) :=
  match fuel with
  | 0 => []
  | S fuel =>
      match btree_elems (neighbours children node) with
      | [] => if decide (1 < length path) then [path] else []
      | next =>
          concat ((fun child => if decide (child ∈ path) then []
                                else visit fuel children child (path ++ [child])) <$> next)
      end
  end.

Definition build_stacks (edges : list OrderingEdge) : list (list Z) :=
  let reduced := transitive_reduce edges in
  let children := ordering_adjacency reduced in
  let parents := foldl (fun m e => entry_insert (after e) (before e) m)
                   (∅ : gmap Z (gset Z)) reduced in
  let involved : gset Z := list_to_set (concat ((fun e => [before e; after e]) <$> reduced)) in
  let roots := List.filter (fun n => bool_decide (neighbours parents n = ∅))
                 (btree_elems involved) in
  concat ((fun root => visit (S (size involved)) children root [root]) <$> roots).

(** ** Holds *)

Fixpoint cycle_loop (fuel : nat) (adj : gmap Z (gset Z)) (start : Z)
    (pending : list Z) (seen : gset Z) : bool :=
  match fuel, pending with
  | S fuel, current :: pending =>
      if decide (current = start) then true
      else if decide (current ∈ seen) then cycle_loop fuel adj start pending seen
      else cycle_loop fuel adj start
             (rev (btree_elems (neighbours adj current)) ++ pending) ({[current]} ∪ seen)
  | _, _ => false
  end.

Definition on_cycle (adj : gmap Z (gset Z)) (start : Z) : bool :=
  let pending := rev (btree_elems (neighbours adj start)) in
  cycle_loop (worklist_fuel adj (length pending)) adj start pending ∅.

Definition cycle_nodes (edges : list OrderingEdge) : gset Z :=
  let adj := ordering_adjacency edges in
  list_to_set (List.filter (on_cycle adj) (btree_keys adj)).

(** One lane of [review_binding]: the reason it adds, if any. *)
Definition lane_reason (node : PrNode) (lane : string) : option string :=
  if negb (existsb (String.eqb ("passed-review-" +:+ lane)) (labels node))
  then Some ("review-pass-missing:" +:+ lane)
  else match review_pass_heads node !! lane with
       | None => Some ("review-pass-unbound:" +:+ lane)
       | Some reviewed =>
           if decide (reviewed = head_sha node) then None
           else Some ("review-pass-stale:" +:+ lane +:+ ":reviewed=" +:+ reviewed
                      +:+ ":current=" +:+ head_sha node)
       end.

Definition protocol_active (node : PrNode) : bool :=
  negb (bool_decide (review_pass_heads node = ∅))
  || existsb (fun label =>
                (label =? "post-facto-human-review")%string
                || starts_with label "passed-review-"
                || starts_with label "adversarial-review-") (labels node).

Definition review_binding (node : PrNode) : ReviewBinding * list string :=
  if negb (protocol_active node) then (NotRequired, [])
  else
    let rs := omap (lane_reason node) REQUIRED_REVIEW_LANES in
    let binding :=
      match rs with
      | [] => ExactHead
      | _ =>
          if existsb (fun r => starts_with r "review-pass-stale:") rs then Stale
          else if existsb (fun r => starts_with r "review-pass-unbound:") rs then Unbound
          else Missing
      end in
    (binding, rs).

Definition review_decision_reason (node : PrNode) : list string :=
  let review := to_ascii_uppercase (str_trim (review_decision node)) in
  if decide (review = "REVIEW_REQUIRED") then ["review-required"]
  else if decide (review = "CHANGES_REQUESTED") then
    if review_objections_resolved node then [] else ["changes-requested"]
  else if decide (review = "" \/ review = "APPROVED") then []
  else ["review-decision-unknown:" +:+ review].

(** The body of the loop over [nodes]. *)
Definition node_reasons (cycles : gset Z) (node : PrNode) : list string :=
  (if is_draft node then ["draft"] else [])
  ++ (if review_evidence_unavailable node then ["review-evidence-unavailable"] else [])
  ++ review_decision_reason node
  ++ (review_binding node).2
  ++ (match base_conflict_paths node with [] => [] | _ => ["local-base-conflict"] end)
  ++ (if (mergeable node =? "CONFLICTING")%string then ["github-base-conflicting"] else [])
  ++ (if decide (number node ∈ cycles) then ["ordering-cycle"] else []).

Definition direct_reasons (cycles : gset Z) (ns : list PrNode) : gmap Z (list string) :=
  foldl (fun m node => match node_reasons cycles node with
                       | [] => m
                       | why => <[number node := why]> m
                       end) ∅ ns.

Definition hold_additions (edges : list OrderingEdge) (rs : gmap Z (list string))
  : list (Z * list string) :=
  omap (fun e =>
          match rs !! before e, rs !! after e with
          | Some _, None => Some (after e, ["depends-on-held:#" +:+ pretty (before e)])
          | _, _ => None
          end) edges.

Fixpoint hold_dependents (fuel : nat) (edges : list OrderingEdge) (rs : gmap Z (list string))
  : gmap Z (list string) :=
  match fuel, hold_additions edges rs with
  | S fuel, (_ :: _) as adds =>
      hold_dependents fuel edges (foldl (fun m p => entry_or_insert p.1 p.2 m) rs adds)
  | _, _ => rs
  end.

Definition held_reasons (ns : list PrNode) (edges : list OrderingEdge) : list HeldPr :=
  let rs := hold_dependents (length edges) edges (direct_reasons (cycle_nodes edges) ns) in
  (fun p => {| held_pr := p.1; reasons := p.2 |}) <$> btree_iter rs.

(** ** Parallel-safe groups *)

Abbreviation rank_key := (Z * Z * string * Z)%type.

Definition rank (node : PrNode) : rank_key :=
  (priority node, pr_size node, created_at node, number node).

(** [rank(by_number[number])]; every number ranked is a key of [by_number]. *)
Definition rank_of (by_number : gmap Z PrNode) (n : Z) : rank_key :=
  match by_number !! n with Some node => rank node | None => (0%Z, 0%Z, "", n) end.

Definition sort_by_rank (by_number : gmap Z PrNode) : list Z -> list Z :=
  sort_by_key (rank_of by_number).

(** Push each number that conflicts with no member chosen so far. *)
Definition push_conflict_free (conflicts : gmap Z (gset Z)) (group : list Z) (n : Z) : list Z :=
  if forallb (fun peer => negb (bool_decide (peer ∈ neighbours conflicts n))) group
  then group ++ [n] else group.

Definition pick_conflict_free (conflicts : gmap Z (gset Z)) (ready : list Z) : list Z :=
  foldl (push_conflict_free conflicts) [] ready.

(** Both directions of every conflict edge between known numbers. *)
Definition conflict_adjacency (known : gset Z) (edges : list ConflictEdge) : gmap Z (gset Z) :=
  foldl (fun m e =>
           if decide (ce_a e ∈ known /\ ce_b e ∈ known)
           then entry_insert (ce_b e) (ce_a e) (entry_insert (ce_a e) (ce_b e) m)
           else m) (empty_entries known) edges.

Definition predecessor_map (known : gset Z) (edges : list OrderingEdge) : gmap Z (gset Z) :=
  foldl (fun m e =>
           if decide (before e ∈ known /\ after e ∈ known)
           then entry_insert (after e) (before e) m
           else m) (empty_entries known) edges.

Fixpoint partition_loop (fuel : nat) (by_number : gmap Z PrNode)
    (conflicts predecessors : gmap Z (gset Z)) (remaining placed : gset Z) : list (list Z) :=
  match fuel with
  | 0 => []
  | S fuel =>
      if decide (remaining = ∅) then []
      else
        let ready := sort_by_rank by_number
          (List.filter (fun n => bool_decide (neighbours predecessors n ⊆ placed))
             (btree_elems remaining)) in
        match ready with
        | [] => (fun n => [n]) <$> sort_by_rank by_number (btree_elems remaining)
        | _ =>
            let group := pick_conflict_free conflicts ready in
            group :: partition_loop fuel by_number conflicts predecessors
                       (remaining ∖ list_to_set group) (placed ∪ list_to_set group)
        end
  end.

Definition nodes_by_number (ns : list PrNode) : gmap Z PrNode :=
  map_collect ((fun node => (number node, node)) <$> ns).

Definition partition_parallel_safe (ns : list PrNode) (conflict_edges : list ConflictEdge)
    (ordering_edges : list OrderingEdge) (exclude : gset Z) : list (list Z) :=
  let by_number := nodes_by_number
    (List.filter (fun node => negb (bool_decide (number node ∈ exclude))) ns) in
  let numbers := dom by_number in
  let conflicts := conflict_adjacency numbers conflict_edges in
  let predecessors := predecessor_map numbers ordering_edges in
  partition_loop (S (size numbers)) by_number conflicts predecessors numbers ∅.

(** ** Connected components *)

Fixpoint component_loop (fuel : nat) (adj : gmap Z (gset Z)) (pending : list Z)
    (component : gset Z) : gset Z :=
  match fuel, pending with
  | S fuel, number :: pending =>
      if decide (number ∈ component) then component_loop fuel adj pending component
      else component_loop fuel adj
             (rev (btree_elems (neighbours adj number)) ++ pending) ({[number]} ∪ component)
  | _, _ => component
  end.

Fixpoint components_loop (fuel : nat) (adj : gmap Z (gset Z)) (remaining : gset Z)
  : list (list Z) :=
  match fuel, btree_elems remaining with
  | S fuel, start :: _ =>
      let component := component_loop (worklist_fuel adj 1) adj [start] ∅ in
      btree_elems component :: components_loop fuel adj (remaining ∖ component)
  | _, _ => []
  end.

(** [(Reverse(component.len()), component[0])]; a component is never empty. *)
Definition component_key (c : list Z) : Z * Z := (- Z.of_nat (length c), default 0 (head c))%Z.

Definition connected_components (numbers : list Z) (edges : list ConflictEdge)
  : list (list Z) :=
  let known : gset Z := list_to_set numbers in
  let adj := conflict_adjacency known edges in
  sort_by_key component_key (components_loop (size known) adj known).

(** ** Stack order inside a component *)

(** [successors] and [indegree]; an edge counts only the first time it is inserted. *)
Definition stack_edge (member_set : gset Z) (acc : gmap Z (gset Z) * gmap Z nat)
    (e : OrderingEdge) : gmap Z (gset Z) * gmap Z nat :=
  let '(successors, indegree) := acc in
  if decide (before e ∈ member_set /\ after e ∈ member_set) then
    let indegree :=
      if decide (after e ∈ neighbours successors (before e)) then indegree
      else <[after e := S (default 0 (indegree !! after e))]> indegree in
    (entry_insert (before e) (after e) successors, indegree)
  else acc.

(** The [for child] loop: decrement, and push the children that reach zero. *)
Definition release_child (acc : list Z * gmap Z nat) (child : Z) : list Z * gmap Z nat :=
  let '(ready, indegree) := acc in
  let d := default 0 (indegree !! child) - 1 in
  (if decide (d = 0) then ready ++ [child] else ready, <[child := d]> indegree).

Fixpoint stack_loop (fuel : nat) (by_number : gmap Z PrNode) (successors : gmap Z (gset Z))
    (ready : list Z) (indegree : gmap Z nat) : list Z :=
  match fuel, ready with
  | S fuel, n :: ready =>
      let '(ready, indegree) :=
        foldl release_child (ready, indegree) (btree_elems (neighbours successors n)) in
      n :: stack_loop fuel by_number successors (sort_by_rank by_number ready) indegree
  | _, _ => []
  end.

Definition stack_order (ms : list Z) (by_number : gmap Z PrNode)
    (ordering_edges : list OrderingEdge) : list Z :=
  let member_set : gset Z := list_to_set ms in
  let '(successors, indegree) :=
    foldl (stack_edge member_set) (empty_entries member_set, gset_to_gmap 0 member_set)
      ordering_edges in
  let ready := sort_by_rank by_number
    (List.filter (fun n => bool_decide (default 0 (indegree !! n) = 0))
       (btree_elems member_set)) in
  let ordered := stack_loop (size member_set) by_number successors ready indegree in
  if decide (length ordered < size member_set)
  then ordered ++ sort_by_rank by_number (btree_elems (member_set ∖ list_to_set ordered))
  else ordered.

Definition cluster_of (by_number : gmap Z PrNode) (conflict_edges : list ConflictEdge)
    (ordering_edges : list OrderingEdge) (component : list Z) : Cluster :=
  let ms : gset Z := list_to_set component in
  {| members := stack_order component by_number ordering_edges;
     conflict_paths := sort_dedup
       (concat (ce_paths <$> List.filter
          (fun e => bool_decide (ce_a e ∈ ms) && bool_decide (ce_b e ∈ ms)) conflict_edges)) |}.

Definition cluster_by_conflict (ns : list PrNode) (conflict_edges : list ConflictEdge)
    (ordering_edges : list OrderingEdge) : list Cluster :=
  cluster_of (nodes_by_number ns) conflict_edges ordering_edges
    <$> connected_components (number <$> ns) conflict_edges.

Definition rebases_avoided (clusters : list Cluster) : nat :=
  sum_list (Cluster_rebases_avoided <$> clusters).
