(* ===== verification/PlannerPlan.v ===== *)
(** * pr-landing-planner: the plan ([rs/pr-landing-planner/src/plan.rs])

    Fusion of graph, holds, evidence, freshness and CI into one action per pull
    request, the demotion loop that makes dependents wait for their blockers, and
    the plan and diagnostics built from the decisions. *)
From S2P Require Import Prelude RustStr PlannerModel PlannerGraph.

Definition DEFAULT_FRESHNESS_MAX_BEHIND : option Z := None.

(** ** One node's action *)

Definition held_action (rs : list string) : PrAction * string :=
  let joined := "held: " +:+ join ", " rs in
  if existsb (String.eqb "review-evidence-unavailable") rs then (Wait, joined)
  else if existsb (String.eqb "ordering-cycle") rs then
    (Wait, "held: ordering-cycle (resolve dependency cycle and rerun)")
  else if existsb (fun r =>
             (r =? "review-required")%string || (r =? "changes-requested")%string
             || starts_with r "review-decision-unknown:"
             || starts_with r "review-pass-") rs then (Wait, joined)
  else if existsb (fun r => starts_with r "depends-on-held") rs then (Wait, joined)
  else if existsb (String.eqb "draft") rs then (Wait, "held: draft (mark ready to land)")
  else if existsb (fun r => (r =? "local-base-conflict")%string
                            || (r =? "github-base-conflicting")%string) rs then
    (RebaseThenLand,
     joined +:+ " — rebase onto base before landing; validation landability remains delegated to the consuming workspace")
  else (Wait, joined).

Definition red_action (red : RedClass) : PrAction :=
  match red with
  | RunnerOutage => EscalateRunnerOutage
  | EvaluateOnceRace => Wait
  | StaleRequiredCheck => RefireStaleGate
  | Flaky => RefireCi
  | Real => HoldFix
  end.

(** [freshness_max_behind.is_some_and(|limit| node.commits_behind > limit)] *)
Definition too_far_behind (freshness_max_behind : option Z) (node : PrNode) : bool :=
  match freshness_max_behind with
  | Some limit => bool_decide (limit < commits_behind node)%Z
  | None => false
  end.

Definition ci_action (node : PrNode) (freshness_max_behind : option Z) : PrAction * string :=
  let evidence := ValidationEvidence_as_str (validation_evidence node) in
  let authority := ValidationAuthority_as_str (validation_authority node) in
  if decide (policy_class node = GatePolicy) then
    (EscalateGatePolicy,
     "gate-policy change requires coordinator decision; validation evidence is not approval")
  else if decide (validation_evidence node = CleanValidateRecord) then
    if decide (validation_authority node = AuthorityNone) then
      (Wait, "clean-validate-record has no consuming-workspace hard/soft-green authority")
    else if too_far_behind freshness_max_behind node then
      (RebaseThenLand,
       evidence +:+ " at exact head with " +:+ authority +:+ " authority; rebase "
       +:+ pretty (commits_behind node)
       +:+ " commit(s), then land without pre-landing revalidation; post-facto validation remains due")
    else
      (LandNow,
       evidence +:+ " at exact head with " +:+ authority +:+ " authority; no merge-gate wait")
  else match red_class (ci node) with
  | Some red => (red_action red, ci_detail (ci node))
  | None =>
      if negb (gate_present (ci node)) then
        (RefireCi, "required gate has NO_RESULT (absent); re-dispatch")
      else if negb (gate_ok (ci node)) then
        (RefireCi, "required gate has NO_RESULT; re-dispatch")
      else if decide (raw_state (ci node) = NoResult) then
        (Wait, "required gate passed; another CI check has NO_RESULT")
      else if too_far_behind freshness_max_behind node then
        (RebaseThenLand,
         "authoritative CI green, gate ok, but " +:+ pretty (commits_behind node)
         +:+ " commit(s) behind base; rebase before landing")
      else (LandNow, "authoritative CI green, gate ok")
  end.

(** ** The batch *)

(** Conflict adjacency over every edge; unlike the partition's, not restricted. *)
Definition all_conflicts (edges : list ConflictEdge) : gmap Z (gset Z) :=
  foldl (fun m e => entry_insert (ce_b e) (ce_a e) (entry_insert (ce_a e) (ce_b e) m))
    ∅ edges.

Definition greedy_conflict_free (numbers : list Z) (conflicts : gmap Z (gset Z))
    (by_number : gmap Z PrNode) : list Z :=
  pick_conflict_free conflicts (sort_by_rank by_number numbers).

(** ** Demotion of dependents *)

Definition decide_node (held_by_number : gmap Z HeldPr) (group_of : gmap Z nat)
    (freshness_max_behind : option Z) (node : PrNode) : PrActionDecision :=
  let '(action, why) :=
    if decide (policy_class node = GatePolicy) then ci_action node freshness_max_behind
    else match held_by_number !! number node with
         | Some held => held_action (reasons held)
         | None => ci_action node freshness_max_behind
         end in
  {| dec_pr := number node; dec_action := action; dec_why := why;
     dec_group := group_of !! number node |}.

(** [blockers.iter().find_map(...)]: the first predecessor not landing now. *)
Definition find_blocker (blockers : list OrderingEdge) (by_action : gmap Z PrAction) (pr : Z)
  : option Z :=
  before <$> List.find (fun e =>
    bool_decide (after e = pr)
    && negb (bool_decide (by_action !! before e = Some LandNow))) blockers.

Definition landing (a : PrAction) : bool :=
  match a with LandNow | RebaseThenLand => true | _ => false end.

(** State of one pass of the [loop]: the decisions already visited (mutated in
    place by the source), the action map and the [changed] flag. *)
Definition demote_step (blockers : list OrderingEdge)
    (acc : list PrActionDecision * gmap Z PrAction * bool) (d : PrActionDecision)
  : list PrActionDecision * gmap Z PrAction * bool :=
  let '(visited, by_action, changed) := acc in
  match find_blocker blockers by_action (dec_pr d) with
  | Some blocker =>
      if landing (dec_action d) then
        let action := default Wait (by_action !! blocker) in
        let d' := {| dec_pr := dec_pr d; dec_action := Wait;
                     dec_why := "dependency #" +:+ pretty blocker +:+ " requires "
                                +:+ PrAction_as_str action +:+ "; wait and rerun";
                     dec_group := dec_group d |} in
        (visited ++ [d'], <[dec_pr d := Wait]> by_action,
         changed || negb (bool_decide (by_action !! dec_pr d = Some Wait)))
      else (visited ++ [d], by_action, changed)
  | None => (visited ++ [d], by_action, changed)
  end.

Definition demote_pass (blockers : list OrderingEdge) (ds : list PrActionDecision)
    (by_action : gmap Z PrAction) : list PrActionDecision * gmap Z PrAction * bool :=
  foldl (demote_step blockers) ([], by_action, false) ds.

Fixpoint demote_loop (fuel : nat) (blockers : list OrderingEdge) (ds : list PrActionDecision)
    (by_action : gmap Z PrAction) : list PrActionDecision :=
  match fuel with
  | 0 => ds
  | S fuel =>
      let '(ds, by_action, changed) := demote_pass blockers ds by_action in
      if changed then demote_loop fuel blockers ds by_action else ds
  end.

(** ** The plan *)

Definition action_is (a : PrAction) (d : PrActionDecision) : bool :=
  bool_decide (dec_action d = a).

Definition reds (class : RedClass) (ns : list PrNode) : list Z :=
  number <$> List.filter (fun node => bool_decide (red_class (ci node) = Some class)) ns.

Definition diagnostics_of (ns : list PrNode) (outage_min_prs : nat) : Diagnostics :=
  let outage := reds RunnerOutage ns in
  {| stale_gates := reds StaleRequiredCheck ns;
     flaky_reds := reds Flaky ns;
     real_reds := reds Real ns;
     evaluate_once_race := reds EvaluateOnceRace ns;
     outage_prs := outage;
     outage_suspected := bool_decide (outage_min_prs <= length outage) |}.

Definition initial_decisions (ns : list PrNode) (held_by_number : gmap Z HeldPr)
    (groups : list (list Z)) (freshness_max_behind : option Z) : list PrActionDecision :=
  let group_of := map_collect
    (concat (imap (fun group numbers => (fun n => (n, group)) <$> numbers) groups)) in
  decide_node held_by_number group_of freshness_max_behind <$> sort_by_key number ns.

Definition final_decisions (ns : list PrNode) (ordering_edges : list OrderingEdge)
    (held_by_number : gmap Z HeldPr) (groups : list (list Z))
    (freshness_max_behind : option Z) : list PrActionDecision :=
  let ds := initial_decisions ns held_by_number groups freshness_max_behind in
  let by_action := map_collect ((fun d => (dec_pr d, dec_action d)) <$> ds) in
  let blockers := sort_by_key (fun e => (after e, before e)) ordering_edges in
  demote_loop (S (length ds)) blockers ds by_action.

Definition batch_of (ns : list PrNode) (conflict_edges : list ConflictEdge)
    (ordering_edges : list OrderingEdge) (land : list Z) : list Z :=
  let ordered_children : gset Z := list_to_set (after <$> ordering_edges) in
  let candidates := List.filter (fun n => negb (bool_decide (n ∈ ordered_children))) land in
  greedy_conflict_free candidates (all_conflicts conflict_edges) (nodes_by_number ns).

Definition compute_plan (ns : list PrNode) (conflict_edges : list ConflictEdge)
    (ordering_edges : list OrderingEdge) (held : list HeldPr)
    (freshness_max_behind : option Z) (outage_min_prs : nat) (batch : bool)
  : Plan * Diagnostics :=
  let held_by_number := map_collect ((fun h => (held_pr h, h)) <$> held) in
  let groups := partition_parallel_safe ns conflict_edges ordering_edges (dom held_by_number) in
  let decisions := final_decisions ns ordering_edges held_by_number groups freshness_max_behind in
  let land := dec_pr <$> List.filter (action_is LandNow) decisions in
  ({| parallel_safe_groups := groups;
      land_now := land;
      order := concat groups;
      per_pr_actions := decisions;
      plan_batch :=
        match batch, land with
        | true, _ :: _ => batch_of ns conflict_edges ordering_edges land
        | _, _ => []
        end |},
   diagnostics_of ns outage_min_prs).

Definition assemble_result (g : CollectedGraph) (freshness_max_behind : option Z)
    (outage_min_prs : nat) (batch : bool) : PlanResult :=
  let held := held_reasons (nodes g) (ordering_edges g) in
  let '(plan, diagnostics) :=
    compute_plan (nodes g) (conflict_edges g) (ordering_edges g) held
      freshness_max_behind outage_min_prs batch in
  {| res_graph := g; res_stacks := build_stacks (ordering_edges g); res_held := held;
     res_plan := plan; res_diagnostics := diagnostics |}.
