(* ===== verification/PlannerHolds.v ===== *)
(** * pr-landing-planner: reachability, cycles and holds

    The ordering edges as a relation, and what [has_path], [on_cycle] and
    [transitive_reduce] compute in terms of its paths; [component_loop] is a worklist, and
    [hold_dependents] a least fixed point over the ordering edges. *)
From S2P Require Import Prelude RustStr Worklist PlannerModel PlannerGraph.

(** ** Relations of the edge lists *)

Definition ord_rel (edges : list OrderingEdge) (x y : Z) : Prop :=
  exists e, e ∈ edges /\ before e = x /\ after e = y.

(** The relation without one pair. *)
Definition avoiding (R : relation Z) (skip : Z * Z) : relation Z :=
  fun x y => R x y /\ (x, y) <> skip.

(** Acyclicity, by a rank that every edge increases. *)
Definition ranked (rk : Z -> nat) (edges : list OrderingEdge) : Prop :=
  forall e, e ∈ edges -> rk (before e) < rk (after e).

Lemma elem_of_ordering_adjacency edges x y :
  y ∈ neighbours (ordering_adjacency edges) x <-> ord_rel edges x y.
Proof.
  unfold ordering_adjacency, ord_rel.
  rewrite (elem_of_neighbours_foldl (fun e => Some (before e, after e))).
  unfold neighbours. rewrite lookup_empty. simpl. split.
  - intros [?|(e & He & [= <- <-])]; [set_solver|eauto].
  - intros (e & He & <- & <-). eauto.
Qed.

Lemma ranked_tc rk edges x y : ranked rk edges -> tc (ord_rel edges) x y -> rk x < rk y.
Proof.
  intros Hrk. induction 1 as [x y (e & He & <- & <-)|x y z (e & He & <- & <-) _ IH].
  - by apply Hrk.
  - specialize (Hrk e He). lia.
Qed.

Lemma length_btree_elems (s : gset Z) : length (btree_elems s) = size s.
Proof. unfold btree_elems. by rewrite sort_by_key_length. Qed.

Lemma total_degree_left adj : degree_left adj ∅ = total_degree adj.
Proof.
  induction adj as [|i cs adj Hi IH] using map_ind; [done|].
  rewrite degree_left_insert, IH by done. rewrite decide_False by set_solver.
  symmetry. refine (map_fold_insert_L (fun _ (cs : gset Z) acc => size cs + acc) 0 i cs adj _ Hi).
  intros. lia.
Qed.

(** A worklist over a sub-list of each node's neighbours. *)
Lemma subset_left_step adj (succ : Z -> list Z) :
  (forall v, length (succ v) <= size (neighbours adj v)) ->
  forall v seen, v ∉ seen ->
    degree_left adj ({[v]} ∪ seen) + length (succ v) <= degree_left adj seen.
Proof.
  intros Hlen v seen Hv. rewrite <-(degree_left_step adj v seen Hv).
  specialize (Hlen v). lia.
Qed.

Lemma rtc_step_tc (R : relation Z) x y : (exists v, rtc R x v /\ R v y) <-> tc R x y.
Proof.
  split.
  - intros (v & Hr & Hs). eapply tc_rtc_l; [done|]. by constructor.
  - induction 1 as [x y Hs|x v y Hs _ (u & Hu & Huy)].
    + by exists x.
    + exists u. split; [by eapply rtc_l|done].
Qed.

(** ** [has_path] *)

Definition unskipped (skip : Z * Z) (current : Z) (c : Z) : bool :=
  negb (bool_decide ((current, c) = skip)).

Definition path_succ adj (skip : Z * Z) (current : Z) : list Z :=
  rev (List.filter (unskipped skip current) (btree_elems (neighbours adj current))).

Lemma elem_of_path_succ adj skip x y :
  y ∈ path_succ adj skip x <-> avoiding (fun x y => y ∈ neighbours adj x) skip x y.
Proof.
  unfold path_succ, avoiding, unskipped.
  rewrite elem_of_rev, elem_of_filter_b, elem_of_btree_elems.
  rewrite negb_true_iff, bool_decide_eq_false. done.
Qed.

Lemma has_path_children_spec target skip current children pending :
  has_path_children target skip current children pending =
  if decide (target ∈ List.filter (unskipped skip current) children) then None
  else Some (rev (List.filter (unskipped skip current) children) ++ pending).
Proof.
  revert pending. induction children as [|c children IH]; intros pending;
    cbn [has_path_children List.filter].
  { by rewrite decide_False by set_solver. }
  destruct (unskipped skip current c) eqn:Hu; unfold unskipped in Hu; b2p.
  - rewrite decide_False by done. destruct (decide (c = target)) as [->|Ht].
    + by rewrite decide_True by set_solver.
    + rewrite IH. destruct (decide (target ∈ List.filter _ children)).
      * by rewrite decide_True by set_solver.
      * rewrite decide_False by set_solver. simpl. by rewrite <-app_assoc.
  - rewrite decide_True by done. apply IH.
Qed.

Section has_path.
Context (adj : gmap Z (gset Z)) (target : Z) (skip : Z * Z).
#[local] Notation succ := (path_succ adj skip).
#[local] Notation loop fuel := (has_path_loop fuel adj target skip).

Lemma target_filter current :
  target ∈ List.filter (unskipped skip current) (btree_elems (neighbours adj current))
  <-> target ∈ succ current.
Proof. unfold path_succ. by rewrite !list_elem_of_In, <-in_rev. Qed.

Lemma has_path_loop_true fuel pending seen :
  loop fuel pending seen = true ->
  exists p v, p ∈ pending /\ rtc (succ_rel succ) p v /\ succ_rel succ v target.
Proof.
  revert pending seen. induction fuel as [|fuel IH]; intros [|current pending] seen; simpl;
    try done. case_decide as Hc.
  - intros (p & v & Hp & ?)%IH. exists p, v. set_solver.
  - rewrite has_path_children_spec. case_decide as Ht.
    + intros _. exists current, current. split; [set_solver|]. split; [done|].
      by apply target_filter.
    + intros (p & v & Hp & Hr & Hv)%IH. apply elem_of_app in Hp as [Hp|Hp].
      * exists current, v. split; [set_solver|]. split; [by eapply rtc_l|done].
      * exists p, v. set_solver.
Qed.

Lemma has_path_loop_false fuel pending seen :
  loop fuel pending seen = false ->
  forall v, v ∈ reach_loop succ fuel pending seen -> v ∈ seen \/ ~ succ_rel succ v target.
Proof.
  revert pending seen. induction fuel as [|fuel IH]; intros [|current pending] seen; simpl;
    auto. case_decide as Hc.
  - apply IH.
  - rewrite has_path_children_spec. case_decide as Ht; [done|].
    intros Hf v Hv. destruct (IH _ _ Hf v Hv) as [[->%elem_of_singleton|]%elem_of_union|];
      auto. right. intros Hs. apply Ht, target_filter, Hs.
Qed.

Lemma path_succ_length v : length (succ v) <= size (neighbours adj v).
Proof.
  unfold path_succ. rewrite length_rev, <-length_btree_elems. apply filter_length_le.
Qed.

Lemma has_path_spec start :
  has_path adj start target skip = true <->
  tc (avoiding (fun x y => y ∈ neighbours adj x) skip) start target.
Proof.
  assert (Hrel : forall x y, tc (succ_rel succ) x y
            <-> tc (avoiding (fun x y => y ∈ neighbours adj x) skip) x y).
  { intros x y. split; intros Ht; (eapply (tc_congruence id); [|exact Ht]);
      intros ??; apply elem_of_path_succ. }
  rewrite <-Hrel, <-rtc_step_tc. unfold has_path. split.
  - intros (p & v & ->%list_elem_of_singleton & Hr & Hv)%has_path_loop_true. eauto.
  - intros (v & Hr & Hv). apply not_false_iff_true. intros Hf.
    destruct (has_path_loop_false _ _ _ Hf v) as [?|?]; [|set_solver|done].
    apply (reach_from_spec succ (degree_left adj)).
    + apply subset_left_step, path_succ_length.
    + rewrite total_degree_left. unfold worklist_fuel. simpl. lia.
    + exists start. set_solver.
Qed.
End has_path.

(** ** Transitive reduction *)

Lemma avoiding_adjacency edges skip x y :
  tc (avoiding (fun x y => y ∈ neighbours (ordering_adjacency edges) x) skip) x y
  <-> tc (avoiding (ord_rel edges) skip) x y.
Proof.
  split; intros Ht; (eapply (tc_congruence id); [|exact Ht]);
    intros ?? [??]; (split; [by apply elem_of_ordering_adjacency|done]).
Qed.

Lemma elem_of_transitive_reduce edges e :
  e ∈ transitive_reduce edges <->
  e ∈ edges /\ ~ tc (avoiding (ord_rel edges) (before e, after e)) (before e) (after e).
Proof.
  unfold transitive_reduce. rewrite elem_of_filter_b, negb_true_iff.
  rewrite <-not_true_iff_false, has_path_spec. by rewrite avoiding_adjacency.
Qed.

Lemma ord_rel_reduce_sub edges x y :
  ord_rel (transitive_reduce edges) x y -> ord_rel edges x y.
Proof. intros (e & [He _]%elem_of_transitive_reduce & ?). by exists e. Qed.

(** Every edge survives as a path of kept edges, by induction on how much rank it
    spans: a detour around an edge is made of edges that span less. *)
Lemma reduce_detour rk edges d x y :
  ranked rk edges -> rk y - rk x <= d -> ord_rel edges x y ->
  tc (ord_rel (transitive_reduce edges)) x y.
Proof.
  intros Hrk. revert x y. induction d as [|d IH]; intros x y Hd Hxy.
  { pose proof (ranked_tc rk edges x y Hrk (tc_once _ _ _ Hxy)). lia. }
  destruct Hxy as (e & He & Hx & Hy).
  destruct (has_path (ordering_adjacency edges) x y (x, y)) eqn:Hp.
  2:{ apply tc_once. exists e. split; [|done]. apply elem_of_transitive_reduce.
      split; [done|]. rewrite <-avoiding_adjacency, <-has_path_spec, Hx, Hy. congruence. }
  apply has_path_spec, avoiding_adjacency in Hp.
  assert (Hgo : forall u w, tc (avoiding (ord_rel edges) (x, y)) u w ->
            rk x <= rk u -> (rk u = rk x -> u = x) -> rk w <= rk y -> (rk w = rk y -> w = y) ->
            tc (ord_rel (transitive_reduce edges)) u w); [|apply Hgo; auto].
  induction 1 as [u w [Huw Hne]|u v w [Huv _] Hvw IHt]; intros Hu Hux Hw Hwy.
  - pose proof (ranked_tc rk edges u w Hrk (tc_once _ _ _ Huw)).
    apply IH; [|done].
    destruct (decide (rk u = rk x)), (decide (rk w = rk y)); try lia.
    destruct Hne. by rewrite Hux, Hwy.
  - pose proof (ranked_tc rk edges u v Hrk (tc_once _ _ _ Huv)) as Huv'.
    assert (rk v < rk w) as Hvw'.
    { apply (ranked_tc rk edges v w Hrk). eapply (tc_congruence id); [|exact Hvw].
      by intros ?? [? _]. }
    apply tc_trans with v; [|apply IHt; intros; lia].
    apply IH; [lia|done].
Qed.

(** ** The common worklist *)

Definition all_succ (adj : gmap Z (gset Z)) (current : Z) : list Z :=
  rev (btree_elems (neighbours adj current)).

Lemma elem_of_all_succ adj x y : y ∈ all_succ adj x <-> y ∈ neighbours adj x.
Proof.
  unfold all_succ. by rewrite elem_of_rev, elem_of_btree_elems.
Qed.

Lemma rtc_all_succ adj x y :
  rtc (succ_rel (all_succ adj)) x y <-> rtc (fun x y => y ∈ neighbours adj x) x y.
Proof.
  split; intros Hr; (eapply (rtc_congruence id); [|exact Hr]); intros ??; apply elem_of_all_succ.
Qed.

Lemma all_succ_length adj v : length (all_succ adj v) <= size (neighbours adj v).
Proof. unfold all_succ. by rewrite length_rev, length_btree_elems. Qed.

Lemma component_loop_reach fuel adj pending seen :
  component_loop fuel adj pending seen = reach_loop (all_succ adj) fuel pending seen.
Proof.
  revert pending seen. induction fuel as [|fuel IH]; intros [|c pending] seen; simpl; auto.
  case_decide; apply IH.
Qed.

Lemma reach_all_spec adj pending x :
  x ∈ reach_loop (all_succ adj) (worklist_fuel adj (length pending)) pending ∅ <->
  exists p, p ∈ pending /\ rtc (fun x y => y ∈ neighbours adj x) p x.
Proof.
  rewrite (reach_from_spec _ (degree_left adj)).
  - by setoid_rewrite rtc_all_succ.
  - apply subset_left_step, all_succ_length.
  - rewrite total_degree_left. unfold worklist_fuel. lia.
Qed.

(** ** Cycles *)

Lemma cycle_loop_reach fuel adj start pending seen :
  start ∉ seen ->
  cycle_loop fuel adj start pending seen = true <->
  start ∈ reach_loop (all_succ adj) fuel pending seen.
Proof.
  revert pending seen. induction fuel as [|fuel IH]; intros [|c pending] seen Hs; simpl;
    try (split; [done|set_solver]).
  destruct (decide (c = start)) as [->|Hc].
  - rewrite decide_False by done. split; [|done]. intros _. apply reach_loop_mono. set_solver.
  - destruct (decide (c ∈ seen)); [by apply IH|]. apply IH. set_solver.
Qed.

Lemma on_cycle_spec adj start :
  on_cycle adj start = true <-> tc (fun x y => y ∈ neighbours adj x) start start.
Proof.
  unfold on_cycle. rewrite cycle_loop_reach by set_solver. rewrite reach_all_spec. split.
  - intros (p & Hp%elem_of_all_succ & Hr). by eapply tc_rtc_r; [apply tc_once|].
  - intros Ht. inversion Ht as [? ? Hs|? p ? Hs Ht']; subst.
    + exists start. split; [by apply elem_of_all_succ|done].
    + exists p. split; [by apply elem_of_all_succ|by apply tc_rtc].
Qed.

Lemma elem_of_cycle_nodes edges n : n ∈ cycle_nodes edges <-> tc (ord_rel edges) n n.
Proof.
  unfold cycle_nodes. rewrite elem_of_list_to_set, elem_of_filter_b, on_cycle_spec.
  assert (Heq : forall x y, tc (fun x y => y ∈ neighbours (ordering_adjacency edges) x) x y
                            <-> tc (ord_rel edges) x y).
  { intros x y. split; intros Ht; (eapply (tc_congruence id); [|exact Ht]);
      intros ??; apply elem_of_ordering_adjacency. }
  rewrite Heq. split; [by intros [_ ?]|]. intros Ht. split; [|done].
  rewrite elem_of_btree_keys.
  assert (exists y, ord_rel edges n y) as [y Hy%elem_of_ordering_adjacency].
  { inversion Ht; eauto. }
  unfold neighbours in Hy. destruct (_ !! n); [eauto|set_solver].
Qed.

(** ** Dependents of held pull requests *)

Implicit Types (rs : gmap Z (list string)) (edges : list OrderingEdge).

(** One round: entries are only added, each for the head of an edge from a held one. *)
Lemma entry_or_insert_dom {A} (k : Z) (a : A) (m : gmap Z A) :
  dom (entry_or_insert k a m) = {[k]} ∪ dom m.
Proof.
  unfold entry_or_insert. destruct (m !! k) eqn:Hk; [|by rewrite dom_insert_L].
  apply elem_of_dom_2 in Hk. set_solver.
Qed.

Lemma entry_or_insert_keep {A} (k k' : Z) (a a' : A) (m : gmap Z A) :
  m !! k = Some a -> entry_or_insert k' a' m !! k = Some a.
Proof.
  intros Hk. unfold entry_or_insert. destruct (m !! k') eqn:Hk'; [done|].
  rewrite lookup_insert_ne; [done|]. congruence.
Qed.

Definition add_all (rs : gmap Z (list string)) (adds : list (Z * list string)) :=
  foldl (fun m p => entry_or_insert p.1 p.2 m) rs adds.

Lemma add_all_dom rs adds : dom (add_all rs adds) = list_to_set adds.*1 ∪ dom rs.
Proof.
  revert rs. induction adds as [|[k a] adds IH]; intros rs; simpl; [set_solver|].
  unfold add_all in IH. rewrite IH, entry_or_insert_dom. set_solver.
Qed.

Lemma add_all_keep rs adds k a : rs !! k = Some a -> add_all rs adds !! k = Some a.
Proof.
  revert rs. induction adds as [|[k' a'] adds IH]; intros rs Hk; simpl; [done|].
  by apply IH, entry_or_insert_keep.
Qed.

Lemma add_all_new rs adds k a :
  add_all rs adds !! k = Some a -> rs !! k = Some a \/ (k, a) ∈ adds.
Proof.
  revert rs. induction adds as [|[k' a'] adds IH]; intros rs Hk; simpl; [by left|].
  apply IH in Hk as [Hk|Hk]; [|right; set_solver].
  unfold entry_or_insert in Hk; simpl in Hk. destruct (rs !! k') eqn:Hk'; [by left|].
  rewrite lookup_insert in Hk. case_decide; [|by left].
  simplify_eq. right. set_solver.
Qed.

Lemma elem_of_hold_additions edges rs k why :
  (k, why) ∈ hold_additions edges rs <->
  exists e, e ∈ edges /\ after e = k /\ before e ∈ dom rs /\ k ∉ dom rs
            /\ why = ["depends-on-held:#" +:+ pretty (before e)].
Proof.
  unfold hold_additions. rewrite list_elem_of_omap. split.
  - intros (e & He & Hm). destruct (rs !! before e) eqn:Hb; [|done].
    destruct (rs !! after e) eqn:Ha; [done|]. simplify_eq. exists e.
    split_and!; auto; [by eapply elem_of_dom_2|by apply not_elem_of_dom].
  - intros (e & He & <- & [w Hb]%elem_of_dom & Ha%not_elem_of_dom & ->).
    exists e. by rewrite Hb, Ha.
Qed.

(** What the loop ends with: no edge leads from a held pull request to a free one. *)
Definition hold_closed edges rs : Prop :=
  forall e, e ∈ edges -> before e ∈ dom rs -> after e ∈ dom rs.

Definition free_heads edges rs : gset Z := list_to_set (after <$> edges) ∖ dom rs.

Lemma hold_additions_nil edges rs : hold_additions edges rs = [] -> hold_closed edges rs.
Proof.
  intros Hn e He Hb. destruct (decide (after e ∈ dom rs)) as [|Ha]; [done|].
  assert (Hin : (after e, ["depends-on-held:#" +:+ pretty (before e)]) ∈ hold_additions edges rs).
  { apply elem_of_hold_additions. eauto 10. }
  rewrite Hn in Hin. set_solver.
Qed.

Lemma free_heads_decrease edges rs :
  hold_additions edges rs <> [] ->
  size (free_heads edges (add_all rs (hold_additions edges rs))) < size (free_heads edges rs).
Proof.
  intros Hne. apply subset_size. unfold free_heads. rewrite add_all_dom.
  destruct (hold_additions edges rs) as [|[k why] adds] eqn:Hadds; [done|].
  assert (Hk : (k, why) ∈ hold_additions edges rs) by (rewrite Hadds; set_solver).
  apply elem_of_hold_additions in Hk as (e & He & <- & _ & Hk & _).
  assert (after e ∈ after <$> edges) by (apply list_elem_of_fmap; eauto).
  set_solver.
Qed.

Lemma hold_dependents_closed fuel edges rs :
  size (free_heads edges rs) <= fuel -> hold_closed edges (hold_dependents fuel edges rs).
Proof.
  revert rs. induction fuel as [|fuel IH]; intros rs Hfuel; cbn [hold_dependents].
  - apply hold_additions_nil. destruct (hold_additions edges rs) eqn:Hadds; [done|].
    pose proof (free_heads_decrease edges rs) as Hd. rewrite Hadds in Hd.
    specialize (Hd ltac:(done)). lia.
  - destruct (hold_additions edges rs) as [|p adds] eqn:Hadds.
    + by apply hold_additions_nil.
    + apply IH. pose proof (free_heads_decrease edges rs) as Hd. rewrite Hadds in Hd.
      specialize (Hd ltac:(done)). unfold add_all in Hd.
      etrans; [|apply Nat.lt_succ_r; eapply Nat.lt_le_trans; [exact Hd|exact Hfuel]]. done.
Qed.

Lemma hold_dependents_keep fuel edges rs k a :
  rs !! k = Some a -> hold_dependents fuel edges rs !! k = Some a.
Proof.
  revert rs. induction fuel as [|fuel IH]; intros rs Hk; simpl; [done|].
  destruct (hold_additions edges rs) as [|p adds] eqn:Hadds; [done|].
  apply IH. by apply (add_all_keep rs (p :: adds)).
Qed.

(** Everything added depends on something already held, and says so. *)
Lemma hold_dependents_new fuel edges rs k why :
  hold_dependents fuel edges rs !! k = Some why ->
  rs !! k = Some why \/
  (k ∉ dom rs /\ exists b, ord_rel edges b k
      /\ why = ["depends-on-held:#" +:+ pretty b]
      /\ exists x, x ∈ dom rs /\ rtc (ord_rel edges) x b).
Proof.
  revert rs. induction fuel as [|fuel IH]; intros rs Hk; cbn [hold_dependents] in Hk; [by left|].
  destruct (hold_additions edges rs) as [|p adds] eqn:Hadds; [by left|].
  assert (Hadd : forall k' why', (k', why') ∈ hold_additions edges rs ->
            exists e, e ∈ edges /\ after e = k' /\ before e ∈ dom rs /\ k' ∉ dom rs
              /\ why' = ["depends-on-held:#" +:+ pretty (before e)])
    by (intros k' why'; apply elem_of_hold_additions).
  apply IH in Hk as [Hk|(Hk & b & Hb & -> & x & Hx & Hr)].
  - apply (add_all_new rs (p :: adds)) in Hk as [?|Hin]; [by left|]. right.
    rewrite <-Hadds in Hin. apply Hadd in Hin as (e & He & <- & Hbe & Hk & ->).
    split; [done|]. exists (before e). split; [by exists e|]. split; [done|].
    by exists (before e).
  - right. unfold add_all in *.
    change (foldl _ _ _) with (add_all rs (p :: adds)) in Hk, Hx. rewrite add_all_dom in Hk, Hx.
    split; [set_solver|]. exists b. split_and!; try done.
    apply elem_of_union in Hx as [Hx|Hx]; [|eauto].
    apply elem_of_list_to_set, list_elem_of_fmap in Hx as ([k' why'] & -> & Hin).
    rewrite <-Hadds in Hin. apply Hadd in Hin as (e & He & Hk' & Hbe & _ & _).
    exists (before e). split; [done|]. eapply rtc_l; [|done]. by exists e.
Qed.

Lemma free_heads_size edges rs : size (free_heads edges rs) <= length edges.
Proof.
  unfold free_heads. etrans; [apply subseteq_size, subseteq_difference_l; reflexivity|].
  rewrite <-(length_fmap after edges). apply list_to_set_size_le.
Qed.

(** The held set is the closure of the directly held one along the edges. *)
Lemma hold_dependents_dom edges rs k :
  k ∈ dom (hold_dependents (length edges) edges rs) <->
  exists x, x ∈ dom rs /\ rtc (ord_rel edges) x k.
Proof.
  split.
  - intros [why Hk]%elem_of_dom. apply hold_dependents_new in Hk as [Hk|(_ & b & Hb & _ & x & Hx & Hr)].
    + apply elem_of_dom_2 in Hk. by exists k.
    + exists x. split; [done|]. by eapply rtc_r.
  - intros (x & Hx & Hr).
    pose proof (hold_dependents_closed (length edges) edges rs (free_heads_size edges rs)) as Hcl.
    assert (Hx' : x ∈ dom (hold_dependents (length edges) edges rs)).
    { apply elem_of_dom in Hx as [a Hx]. eapply elem_of_dom_2, hold_dependents_keep, Hx. }
    clear Hx. induction Hr as [|x y k (e & He & <- & <-) Hr IH]; [done|]. by apply IH, Hcl.
Qed.

(** ** Numbers in order *)

Lemma sorted_once l : StronglySorted Z.le l -> NoDup l -> StronglySorted Z.lt l.
Proof.
  induction 1 as [|x l _ IH Hx]; intros Hnd; [constructor|]. apply NoDup_cons in Hnd as [Hn Hnd].
  constructor; [by apply IH|]. rewrite Forall_forall in Hx |- *. intros y Hy. specialize (Hx y Hy).
  assert (x <> y) by (by intros ->). lia.
Qed.

Lemma btree_keys_lt {A} (m : gmap Z A) : StronglySorted Z.lt (btree_keys m).
Proof. apply sorted_once; [|apply btree_keys_NoDup]. unfold btree_keys.
  apply (StronglySorted_fmap fst (key_le fst)); [done|]. apply btree_iter_sorted. Qed.

(** ** What holds a pull request by itself *)

(** Its review protocol has begun: a receipt exists, or a label speaks of one. *)
Definition in_review (node : PrNode) : Prop :=
  review_pass_heads node <> ∅
  \/ exists label, label ∈ labels node
       /\ (label = "post-facto-human-review" \/ starts_with label "passed-review-" = true
           \/ starts_with label "adversarial-review-" = true).

(** The reasons of a node's own, one constructor each. *)
Inductive own_reason (edges : list OrderingEdge) (node : PrNode) : string -> Prop :=
| Draft : is_draft node = true -> own_reason edges node "draft"
| NoEvidence : review_evidence_unavailable node = true -> own_reason edges node "review-evidence-unavailable"
| ReviewRequired : to_ascii_uppercase (str_trim (review_decision node)) = "REVIEW_REQUIRED" ->
    own_reason edges node "review-required"
| ChangesRequested : to_ascii_uppercase (str_trim (review_decision node)) = "CHANGES_REQUESTED" ->
    review_objections_resolved node = false -> own_reason edges node "changes-requested"
| UnknownDecision review : review = to_ascii_uppercase (str_trim (review_decision node)) ->
    review ∉ ["REVIEW_REQUIRED"; "CHANGES_REQUESTED"; ""; "APPROVED"] ->
    own_reason edges node ("review-decision-unknown:" +:+ review)
| LaneMissing lane : in_review node -> lane ∈ ["codex"; "claude"] ->
    ("passed-review-" +:+ lane) ∉ labels node -> own_reason edges node ("review-pass-missing:" +:+ lane)
| LaneUnbound lane : in_review node -> lane ∈ ["codex"; "claude"] ->
    ("passed-review-" +:+ lane) ∈ labels node -> review_pass_heads node !! lane = None ->
    own_reason edges node ("review-pass-unbound:" +:+ lane)
| LaneStale lane reviewed : in_review node -> lane ∈ ["codex"; "claude"] ->
    ("passed-review-" +:+ lane) ∈ labels node -> review_pass_heads node !! lane = Some reviewed ->
    reviewed <> head_sha node ->
    own_reason edges node ("review-pass-stale:" +:+ lane +:+ ":reviewed=" +:+ reviewed +:+ ":current=" +:+ head_sha node)
| LocalConflict : base_conflict_paths node <> [] -> own_reason edges node "local-base-conflict"
| BaseConflict : mergeable node = "CONFLICTING" -> own_reason edges node "github-base-conflicting"
| OnCycle : tc (ord_rel edges) (number node) (number node) -> own_reason edges node "ordering-cycle".

Lemma protocol_active_spec node : protocol_active node = true <-> in_review node.
Proof.
  unfold protocol_active, in_review.
  rewrite orb_true_iff, negb_true_iff, bool_decide_eq_false, existsb_elem.
  setoid_rewrite orb_true_iff. setoid_rewrite orb_true_iff. setoid_rewrite String.eqb_eq. naive_solver.
Qed.

Lemma elem_of_review_reasons edges node r : r ∈ (review_binding node).2 -> own_reason edges node r.
Proof.
  unfold review_binding. destruct (protocol_active node) eqn:Hp; cbn [negb snd]; [|by intros ?%not_elem_of_nil].
  apply protocol_active_spec in Hp. intros (lane & Hl & Hr)%list_elem_of_omap. unfold lane_reason in Hr.
  destruct (existsb _ _) eqn:Hx; cbn [negb] in Hr.
  - apply existsb_elem in Hx as (x & Hx & <-%String.eqb_eq).
    destruct (review_pass_heads node !! lane) eqn:Hh; [case_decide; [done|]|]; injection Hr as <-; by econstructor.
  - injection Hr as <-. constructor; [done..|]. intros Hin. rewrite existsb_false in Hx.
    specialize (Hx _ Hin). by rewrite String.eqb_refl in Hx.
Qed.

Lemma review_reason_listed node lane r :
  in_review node -> lane ∈ ["codex"; "claude"] -> lane_reason node lane = Some r -> r ∈ (review_binding node).2.
Proof.
  intros Hp%protocol_active_spec Hl Hr. unfold review_binding. rewrite Hp. cbn [negb snd].
  apply list_elem_of_omap. by exists lane.
Qed.

Lemma own_reason_exact edges node r : r ∈ node_reasons (cycle_nodes edges) node <-> own_reason edges node r.
Proof.
  unfold node_reasons. rewrite !elem_of_app. split.
  - intros [H|[H|[H|[H|[H|[H|H]]]]]].
    + destruct (is_draft node) eqn:He; [|by apply not_elem_of_nil in H].
      apply list_elem_of_singleton in H as ->. by constructor.
    + destruct (review_evidence_unavailable node) eqn:He; [|by apply not_elem_of_nil in H].
      apply list_elem_of_singleton in H as ->. by constructor.
    + unfold review_decision_reason in H. repeat (case_decide || case_match);
        try (by apply not_elem_of_nil in H); apply list_elem_of_singleton in H as ->; try by constructor.
      constructor; [done|]. set_solver.
    + by apply elem_of_review_reasons.
    + destruct (base_conflict_paths node) eqn:He; [by apply not_elem_of_nil in H|].
      apply list_elem_of_singleton in H as ->. constructor. by rewrite He.
    + destruct (mergeable node =? "CONFLICTING")%string eqn:He; [|by apply not_elem_of_nil in H].
      apply list_elem_of_singleton in H as ->. constructor. by apply String.eqb_eq.
    + case_decide as He; [|by apply not_elem_of_nil in H]. apply list_elem_of_singleton in H as ->.
      constructor. by apply elem_of_cycle_nodes.
  - intros Hr.
    assert (Hx : forall lane, existsb (String.eqb ("passed-review-" +:+ lane)) (labels node) = true
                              <-> ("passed-review-" +:+ lane) ∈ labels node).
    { intros lane. rewrite existsb_elem. setoid_rewrite String.eqb_eq. naive_solver. }
    destruct Hr as [He|He|He|He Ho|review He Ho|lane Ha Hl Hn|lane Ha Hl Hi Hh|lane v Ha Hl Hi Hh Hv|He|He|He].
    + rewrite He. set_solver.
    + rewrite He. set_solver.
    + do 2 right; left. unfold review_decision_reason. rewrite He. set_solver.
    + do 2 right; left. unfold review_decision_reason. rewrite He, Ho. set_solver.
    + do 2 right; left. unfold review_decision_reason. rewrite <-He.
      repeat case_decide; [set_solver..|]. by apply list_elem_of_singleton.
    + do 3 right; left. eapply review_reason_listed; [done..|]. unfold lane_reason.
      destruct (existsb _ _) eqn:Hb; [by apply Hx in Hb|done].
    + do 3 right; left. eapply review_reason_listed; [done..|]. unfold lane_reason.
      apply Hx in Hi as ->. by rewrite Hh.
    + do 3 right; left. eapply review_reason_listed; [done..|]. unfold lane_reason.
      apply Hx in Hi as ->. rewrite Hh. by rewrite decide_False.
    + do 4 right; left. destruct (base_conflict_paths node); [done|]. set_solver.
    + do 5 right; left. rewrite He. set_solver.
    + do 6 right. apply elem_of_cycle_nodes in He. rewrite decide_True by done. set_solver.
Qed.

Lemma has_reason edges node : node_reasons (cycle_nodes edges) node <> [] <-> exists r, own_reason edges node r.
Proof.
  setoid_rewrite <-own_reason_exact. split.
  - destruct (node_reasons _ _) as [|r rs]; [done|]. intros _. exists r. set_solver.
  - by intros (r & Hr) He; rewrite He in Hr; apply not_elem_of_nil in Hr.
Qed.

(** ** Direct reasons *)

Lemma direct_reasons_dom cycles ns k :
  k ∈ dom (direct_reasons cycles ns) <->
  exists node, node ∈ ns /\ number node = k /\ node_reasons cycles node <> [].
Proof.
  unfold direct_reasons.
  assert (Hgen : forall m : gmap Z (list string), k ∈ dom (foldl (fun m node => match node_reasons cycles node with
                       | [] => m | why => <[number node := why]> m end) m ns) <->
     k ∈ dom m \/ exists node, node ∈ ns /\ number node = k /\ node_reasons cycles node <> []).
  { induction ns as [|node ns IH]; intros m; simpl; [set_solver|]. rewrite IH.
    destruct (node_reasons cycles node) eqn:Hr.
    - set_solver.
    - rewrite dom_insert_L. split.
      + intros [[?%elem_of_singleton|?]%elem_of_union|?]; [|set_solver|set_solver].
        right. exists node. rewrite Hr. set_solver.
      + set_solver. }
  rewrite Hgen. set_solver.
Qed.

Lemma direct_reasons_Some cycles ns k why :
  direct_reasons cycles ns !! k = Some why ->
  exists node, node ∈ ns /\ number node = k /\ why = node_reasons cycles node /\ why <> [].
Proof.
  unfold direct_reasons.
  enough (Hgen : forall m : gmap Z (list string),
    foldl (fun m node => match node_reasons cycles node with
                         | [] => m | why => <[number node := why]> m end) m ns !! k = Some why ->
    m !! k = Some why \/ exists node, node ∈ ns /\ number node = k /\ why = node_reasons cycles node /\ why <> []).
  { intros Hk. destruct (Hgen _ Hk) as [Hm|?]; [by rewrite lookup_empty in Hm|done]. }
  induction ns as [|node ns IH]; intros m; cbn [foldl]; [by left|].
  intros [Hm|(x & Hx & ? & ?)]%IH; [|right; exists x; set_solver].
  destruct (node_reasons cycles node) eqn:Hr; [by left|].
  rewrite lookup_insert in Hm. case_decide; [|by left]. right. exists node.
  split_and!; [set_solver|done|congruence|congruence].
Qed.

Lemma elem_of_held_reasons ns edges h :
  h ∈ held_reasons ns edges <->
  hold_dependents (length edges) edges (direct_reasons (cycle_nodes edges) ns) !! held_pr h
  = Some (reasons h).
Proof.
  unfold held_reasons. rewrite list_elem_of_fmap. split.
  - intros ([k why] & -> & Hin%elem_of_btree_iter). done.
  - intros Hin. exists (held_pr h, reasons h). rewrite elem_of_btree_iter.
    split; [by destruct h|done].
Qed.
