(* ===== verification/PlannerLayers.v ===== *)
(** * pr-landing-planner: components and layers

    Connected components of the conflict graph, the greedy choice of a conflict-free
    group, and the layering loop: [partition_loop] places every remaining number once, in
    conflict-free groups, each group after the groups of its predecessors. *)
From S2P Require Import Prelude RustStr Worklist PlannerModel PlannerGraph PlannerHolds.

Implicit Types (adj conflicts predecessors : gmap Z (gset Z)).

(** ** The conflict relation *)

Definition conflict_rel (known : gset Z) (edges : list ConflictEdge) (x y : Z) : Prop :=
  x ∈ known /\ y ∈ known /\
  exists e, e ∈ edges /\ ((ce_a e = x /\ ce_b e = y) \/ (ce_a e = y /\ ce_b e = x)).

Lemma conflict_rel_sym known edges x y :
  conflict_rel known edges x y -> conflict_rel known edges y x.
Proof. unfold conflict_rel. naive_solver. Qed.

Lemma elem_of_conflict_adjacency known edges x y :
  y ∈ neighbours (conflict_adjacency known edges) x <-> conflict_rel known edges x y.
Proof.
  unfold conflict_adjacency, conflict_rel.
  assert (Hgen : forall m, y ∈ neighbours (foldl (fun m e =>
      if decide (ce_a e ∈ known /\ ce_b e ∈ known)
      then entry_insert (ce_b e) (ce_a e) (entry_insert (ce_a e) (ce_b e) m) else m) m edges) x
    <-> y ∈ neighbours m x \/ (x ∈ known /\ y ∈ known /\
  exists e, e ∈ edges /\ ((ce_a e = x /\ ce_b e = y) \/ (ce_a e = y /\ ce_b e = x)))).
  { induction edges as [|e edges IH]; intros m; simpl; [set_solver|]. rewrite IH.
    case_decide.
    - rewrite !elem_of_neighbours_entry_insert. set_solver.
    - set_solver. }
  rewrite Hgen, neighbours_empty_entries. set_solver.
Qed.

Lemma conflict_adjacency_sym known edges x y :
  y ∈ neighbours (conflict_adjacency known edges) x ->
  x ∈ neighbours (conflict_adjacency known edges) y.
Proof. rewrite !elem_of_conflict_adjacency. apply conflict_rel_sym. Qed.

Lemma elem_of_predecessor_map known edges x y :
  x ∈ neighbours (predecessor_map known edges) y <->
  x ∈ known /\ y ∈ known /\ ord_rel edges x y.
Proof.
  unfold predecessor_map, ord_rel.
  assert (Hgen : forall m, x ∈ neighbours (foldl (fun m e =>
      if decide (before e ∈ known /\ after e ∈ known)
      then entry_insert (after e) (before e) m else m) m edges) y
    <-> x ∈ neighbours m y \/ (x ∈ known /\ y ∈ known /\
      exists e, e ∈ edges /\ before e = x /\ after e = y)).
  { induction edges as [|e edges IH]; intros m; simpl; [set_solver|]. rewrite IH.
    case_decide; [rewrite elem_of_neighbours_entry_insert|]; set_solver. }
  rewrite Hgen, neighbours_empty_entries. set_solver.
Qed.

(** ** Connected components *)

Section components.
Context (adj : gmap Z (gset Z)).
#[local] Notation E := (fun x y => y ∈ neighbours adj x).
Hypothesis E_sym : forall x y, E x y -> E y x.

Lemma rtc_E_sym x y : rtc E x y -> rtc E y x.
Proof. induction 1; [done|]. eapply rtc_r; [done|]. by apply E_sym. Qed.

Definition component (start : Z) : gset Z :=
  component_loop (worklist_fuel adj 1) adj [start] ∅.

Lemma elem_of_component start x : x ∈ component start <-> rtc E start x.
Proof.
  unfold component. rewrite component_loop_reach.
  change 1 with (length [start]). rewrite reach_all_spec. set_solver.
Qed.

(** A part of the partition: sorted, and the class of one of its elements. *)
Definition is_component (c : list Z) : Prop :=
  c <> [] /\ StronglySorted rle c /\ forall x y, x ∈ c -> y ∈ c <-> rtc E x y.

Lemma component_is_component start : is_component (btree_elems (component start)).
Proof.
  split; [|split].
  - assert (start ∈ btree_elems (component start)) as Hs.
    { rewrite elem_of_btree_elems, elem_of_component. done. }
    intros Hn. rewrite Hn in Hs. set_solver.
  - apply btree_elems_sorted.
  - intros x y. rewrite !elem_of_btree_elems, !elem_of_component. intros Hx. split.
    + intros Hy. etrans; [by apply rtc_E_sym|done].
    + intros Hy. by etrans.
Qed.

Lemma components_loop_spec fuel remaining :
  size remaining <= fuel ->
  (forall x y, x ∈ remaining -> E x y -> y ∈ remaining) ->
  concat (components_loop fuel adj remaining) ≡ₚ elements remaining /\
  forall c, c ∈ components_loop fuel adj remaining -> is_component c.
Proof.
  revert remaining. induction fuel as [|fuel IH]; intros remaining Hfuel Hcl;
    cbn [components_loop].
  { assert (remaining = ∅) as ->; [|split; [by rewrite elements_empty|set_solver]].
    apply leibniz_equiv, size_empty_iff. lia. }
  destruct (btree_elems remaining) as [|start rest] eqn:Hrem.
  { assert (remaining = ∅) as ->; [|split; [by rewrite elements_empty|set_solver]].
    apply leibniz_equiv, elem_of_equiv_empty. intros x.
    rewrite <-elem_of_btree_elems, Hrem. set_solver. }
  fold (component start).
  assert (Hstart : start ∈ remaining).
  { rewrite <-elem_of_btree_elems, Hrem. set_solver. }
  assert (Hsub : component start ⊆ remaining).
  { intros x Hx%elem_of_component. clear Hrem.
    induction Hx as [|x y z Hxy _ IHx]; [done|]. apply IHx. by eapply Hcl. }
  assert (Hself : start ∈ component start) by by apply elem_of_component.
  destruct (IH (remaining ∖ component start)) as [Hperm Hcomp].
  - rewrite size_difference by done.
    assert (size (component start) <> 0); [|lia].
    intros Hz%size_empty_inv. set_solver.
  - intros x y [Hx Hnx]%elem_of_difference Hxy. apply elem_of_difference.
    split; [by eapply Hcl|]. intros Hy. apply Hnx, elem_of_component.
    apply elem_of_component in Hy. eapply rtc_r; [done|]. by apply E_sym.
  - split.
    + cbn [concat]. rewrite Hperm. unfold btree_elems. rewrite sort_by_key_perm.
      symmetry. by apply elements_split.
    + intros c [->|Hc]%elem_of_cons; [apply component_is_component|by apply Hcomp].
Qed.
End components.

Lemma connected_components_spec numbers edges :
  let known : gset Z := list_to_set numbers in
  let comps := connected_components numbers edges in
  concat comps ≡ₚ elements known /\
  (forall c, c ∈ comps -> c <> [] /\ NoDup c /\
     forall x y, x ∈ c -> y ∈ c <-> rtc (conflict_rel known edges) x y) /\
  (forall i j c d, i < j -> comps !! i = Some c -> comps !! j = Some d -> length d <= length c).
Proof.
  intros known comps. subst comps. unfold connected_components. fold known.
  destruct (components_loop_spec (conflict_adjacency known edges)
    (conflict_adjacency_sym known edges) (size known) known) as [Hp Hc]; [done| |].
  { intros x y _ (_ & Hy & _)%elem_of_conflict_adjacency. done. }
  set (l := components_loop _ _ _) in *.
  split_and!.
  - by rewrite sort_by_key_perm.
  - intros c Hin. rewrite elem_of_sort_by_key in Hin.
    destruct (Hc c Hin) as (Hne & _ & Hr). split_and!; [done| |].
    + apply (NoDup_concat_member l); [|done]. rewrite Hp. apply NoDup_elements.
    + intros x y Hx. rewrite (Hr x y Hx).
      split; apply rtc_subrel; intros a b; by rewrite elem_of_conflict_adjacency.
  - intros i j c d Hij Hi Hj.
    pose proof (StronglySorted_lookup_lt _ _ _ _ _ _ (sort_by_key_sorted component_key l) Hij Hi Hj)
      as Hle.
    unfold key_le, component_key in Hle. cbn [rle prod_ord] in Hle.
    destruct Hle as [[Hle _]|[Hle _]]; cbn in Hle; lia.
Qed.

(** ** Greedy conflict-free choice *)

(** No member conflicts with another one. *)
Definition independent conflicts (group : list Z) : Prop :=
  forall x y, x ∈ group -> y ∈ group -> x <> y -> y ∉ neighbours conflicts x.

Section pick.
Context (conflicts : gmap Z (gset Z)).
#[local] Notation push := (push_conflict_free conflicts).

(** A number is pushed exactly when nothing chosen so far conflicts with it. *)
Lemma push_cases group n :
  (push group n = group ++ [n] /\ forall p, p ∈ group -> p ∉ neighbours conflicts n) \/
  (push group n = group /\ exists p, p ∈ group /\ p ∈ neighbours conflicts n).
Proof.
  unfold push_conflict_free.
  destruct (forallb _ group) eqn:Hf.
  - left. split; [done|]. intros p Hp. rewrite forallb_elem in Hf.
    specialize (Hf p Hp). by b2p.
  - right. split; [done|]. apply not_true_iff_false in Hf.
    destruct (decide (Exists (fun p => p ∈ neighbours conflicts n) group)) as [Hx|Hx].
    { apply list.Exists_exists in Hx. naive_solver. }
    destruct Hf. apply forallb_elem. intros p Hp. b2p. intros Hin. apply Hx.
    apply list.Exists_exists. eauto.
Qed.

Lemma push_keep group ready p : p ∈ group -> p ∈ foldl push group ready.
Proof.
  revert group. induction ready as [|n ready IH]; intros group Hp; simpl; [done|].
  apply IH. destruct (push_cases group n) as [[-> _]|[-> _]]; set_solver.
Qed.

Lemma pick_sub group ready p : p ∈ foldl push group ready -> p ∈ group \/ p ∈ ready.
Proof.
  revert group. induction ready as [|n ready IH]; intros group; simpl; [by left|].
  intros [Hp|Hp]%IH; [|set_solver].
  destruct (push_cases group n) as [[Heq _]|[Heq _]]; rewrite Heq in Hp; set_solver.
Qed.

Lemma pick_NoDup group ready :
  NoDup (group ++ ready) -> NoDup (foldl push group ready).
Proof.
  revert group. induction ready as [|n ready IH]; intros group; simpl.
  { by rewrite app_nil_r. }
  intros Hnd. destruct (push_cases group n) as [[Heq _]|[Heq _]]; rewrite Heq; apply IH.
  - by rewrite <-app_assoc.
  - apply NoDup_app in Hnd as (? & Hd & [??]%NoDup_cons). apply NoDup_app. set_solver.
Qed.

(** Whatever is left out conflicts with something chosen. *)
Lemma pick_maximal group ready n :
  n ∈ ready -> n ∉ foldl push group ready ->
  exists p, p ∈ foldl push group ready /\ p ∈ neighbours conflicts n.
Proof.
  revert group. induction ready as [|m ready IH]; intros group; simpl; [set_solver|].
  intros [->|Hn]%elem_of_cons Hout; [|by apply IH].
  destruct (push_cases group m) as [[Heq _]|[Heq (p & Hp & Hpm)]]; rewrite Heq in *.
  - destruct Hout. apply push_keep. set_solver.
  - exists p. split; [by apply push_keep|done].
Qed.

Lemma pick_nil ready : pick_conflict_free conflicts ready = [] -> ready = [].
Proof.
  destruct ready as [|n ready]; [done|]. unfold pick_conflict_free. intros Hn.
  destruct (decide (n ∈ foldl push [] (n :: ready))) as [Hin|Hout].
  - rewrite Hn in Hin. set_solver.
  - apply pick_maximal in Hout as (p & Hp & _); [|set_solver]. rewrite Hn in Hp. set_solver.
Qed.
(** Conflict adjacency goes both ways, so checking one way is enough. *)
Hypothesis sym : forall x y, y ∈ neighbours conflicts x -> x ∈ neighbours conflicts y.

Lemma pick_independent group ready :
  independent conflicts group -> independent conflicts (foldl push group ready).
Proof.
  revert group. induction ready as [|n ready IH]; intros group Hg; simpl; [done|].
  apply IH. destruct (push_cases group n) as [[-> Hn]|[-> _]]; [|done].
  intros x y [Hx| ->%list_elem_of_singleton]%elem_of_app
    [Hy| ->%list_elem_of_singleton]%elem_of_app Hne; [by apply Hg| |by apply Hn|done].
  intros Hin. by apply (Hn x Hx), sym.
Qed.
End pick.

Section layers.
Context (by_number : gmap Z PrNode) (conflicts predecessors : gmap Z (gset Z)).
Hypothesis conflicts_sym :
  forall x y, y ∈ neighbours conflicts x -> x ∈ neighbours conflicts y.
#[local] Notation loop fuel := (partition_loop fuel by_number conflicts predecessors).

Definition ready_of (remaining placed : gset Z) : list Z :=
  sort_by_rank by_number
    (List.filter (fun n => bool_decide (neighbours predecessors n ⊆ placed))
       (btree_elems remaining)).

Lemma elem_of_ready remaining placed n :
  n ∈ ready_of remaining placed <-> n ∈ remaining /\ neighbours predecessors n ⊆ placed.
Proof.
  unfold ready_of, sort_by_rank.
  by rewrite elem_of_sort_by_key, elem_of_filter_b, elem_of_btree_elems, bool_decide_eq_true.
Qed.

Lemma ready_NoDup remaining placed : NoDup (ready_of remaining placed).
Proof.
  unfold ready_of, sort_by_rank. rewrite sort_by_key_NoDup.
  apply NoDup_ListNoDup, List.NoDup_filter, NoDup_ListNoDup, btree_elems_NoDup.
Qed.

Definition group_of_ready remaining placed : list Z :=
  pick_conflict_free conflicts (ready_of remaining placed).

Lemma elem_of_group remaining placed n :
  n ∈ group_of_ready remaining placed -> n ∈ ready_of remaining placed.
Proof. intros [?|?]%pick_sub; [set_solver|done]. Qed.

Lemma group_NoDup remaining placed : NoDup (group_of_ready remaining placed).
Proof. apply pick_NoDup. apply ready_NoDup. Qed.

Lemma group_sub remaining placed : list_to_set (group_of_ready remaining placed) ⊆ remaining.
Proof.
  intros n Hn%elem_of_list_to_set%elem_of_group%elem_of_ready. by destruct Hn.
Qed.

(** The three ways one iteration can go. *)
Lemma loop_unfold fuel remaining placed :
  loop (S fuel) remaining placed =
  if decide (remaining = ∅) then []
  else match ready_of remaining placed with
       | [] => (fun n => [n]) <$> sort_by_rank by_number (btree_elems remaining)
       | _ => group_of_ready remaining placed
              :: loop fuel (remaining ∖ list_to_set (group_of_ready remaining placed))
                   (placed ∪ list_to_set (group_of_ready remaining placed))
       end.
Proof. done. Qed.

Lemma group_shrinks remaining placed :
  ready_of remaining placed <> [] ->
  size (remaining ∖ list_to_set (group_of_ready remaining placed)) < size remaining.
Proof.
  intros Hne. pose proof (group_sub remaining placed) as Hsub.
  destruct (group_of_ready remaining placed) as [|n g] eqn:Hg.
  { by apply pick_nil in Hg. }
  apply subset_size. cbn [list_to_set] in *. set_solver.
Qed.

Lemma concat_singletons {A} (l : list A) : concat ((fun n => [n]) <$> l) = l.
Proof. induction l as [|x l IH]; [done|]. cbn. f_equal. exact IH. Qed.

Lemma partition_loop_perm fuel remaining placed :
  size remaining < fuel -> concat (loop fuel remaining placed) ≡ₚ elements remaining.
Proof.
  revert remaining placed. induction fuel as [|fuel IH]; intros remaining placed; [lia|].
  intros Hfuel. rewrite loop_unfold. case_decide as Hr.
  { subst. by rewrite elements_empty. }
  pose proof (group_shrinks remaining placed) as Hsh.
  destruct (ready_of remaining placed) eqn:Hready.
  - rewrite concat_singletons. unfold sort_by_rank, btree_elems.
    by rewrite !sort_by_key_perm.
  - cbn [concat]. rewrite IH by (specialize (Hsh ltac:(done)); lia).
    rewrite (elements_split remaining (list_to_set (group_of_ready remaining placed)))
      by apply group_sub.
    by rewrite elements_list_to_set by apply group_NoDup.
Qed.

Lemma partition_loop_independent fuel remaining placed g :
  g ∈ loop fuel remaining placed -> g <> [] /\ NoDup g /\ independent conflicts g.
Proof.
  revert remaining placed. induction fuel as [|fuel IH]; intros remaining placed.
  { cbn. set_solver. }
  rewrite loop_unfold. case_decide; [set_solver|].
  destruct (ready_of remaining placed) eqn:Hready.
  - intros (n & -> & _)%list_elem_of_fmap. split; [done|]. split; [apply NoDup_singleton|].
    intros x y ->%list_elem_of_singleton ->%list_elem_of_singleton. done.
  - intros [->|Hg]%elem_of_cons; [|by eapply IH]. split; [|split].
    + intros Hn%pick_nil. congruence.
    + apply group_NoDup.
    + apply pick_independent; [done|]. intros x y Hx. set_solver.
Qed.

Lemma partition_loop_sub fuel remaining placed j h y :
  loop fuel remaining placed !! j = Some h -> y ∈ h -> y ∈ remaining.
Proof.
  revert j remaining placed. induction fuel as [|fuel IH]; intros j remaining placed; [done|].
  rewrite loop_unfold. case_decide; [done|].
  destruct (ready_of remaining placed) eqn:Hready.
  - intros Hh%list_elem_of_lookup_2 Hy. apply list_elem_of_fmap in Hh as (n & -> & Hn).
    apply list_elem_of_singleton in Hy as ->. unfold sort_by_rank in Hn.
    by rewrite elem_of_sort_by_key, elem_of_btree_elems in Hn.
  - destruct j as [|j]; cbn [lookup list_lookup].
    + intros [= <-] Hy. by apply elem_of_group, elem_of_ready in Hy as [? _].
    + intros Hj Hy. specialize (IH _ _ _ Hj Hy). set_solver.
Qed.

(** *** With acyclic predecessors *)
Context (rk : Z -> nat).
Hypothesis acyclic : forall x y, x ∈ neighbours predecessors y -> rk x < rk y.

(** Predecessors of what remains are placed or remain. *)
Definition preds_known (remaining placed : gset Z) : Prop :=
  forall x y, y ∈ remaining -> x ∈ neighbours predecessors y -> x ∈ remaining ∪ placed.

Lemma ready_nonempty remaining placed :
  remaining <> ∅ -> preds_known remaining placed -> ready_of remaining placed <> [].
Proof.
  intros Hne Hk Hn.
  assert (Hmin : forall d n, n ∈ remaining -> rk n < d -> False).
  { intros d. induction d as [|d IH]; intros n Hin Hd; [lia|].
    assert (Hnr : n ∉ ready_of remaining placed) by (rewrite Hn; set_solver).
    rewrite elem_of_ready in Hnr. apply Hnr. split; [done|]. intros x Hx.
    pose proof (Hk x n Hin Hx) as Hor. apply elem_of_union in Hor as [Hxr|?]; [|done].
    destruct (IH x Hxr). specialize (acyclic x n Hx). lia. }
  apply set_choose_L in Hne as [n Hin]. apply (Hmin (S (rk n)) n); [done|lia].
Qed.

Lemma preds_known_step remaining placed :
  preds_known remaining placed ->
  preds_known (remaining ∖ list_to_set (group_of_ready remaining placed))
    (placed ∪ list_to_set (group_of_ready remaining placed)).
Proof.
  intros Hk x y [Hy _]%elem_of_difference Hx. specialize (Hk x y Hy Hx).
  destruct (decide (x ∈ group_of_ready remaining placed)); set_solver.
Qed.

Lemma loop_acyclic fuel remaining placed :
  preds_known remaining placed -> remaining <> ∅ ->
  loop (S fuel) remaining placed =
    group_of_ready remaining placed
    :: loop fuel (remaining ∖ list_to_set (group_of_ready remaining placed))
         (placed ∪ list_to_set (group_of_ready remaining placed)).
Proof.
  intros Hk Hne. rewrite loop_unfold, decide_False by done.
  pose proof (ready_nonempty remaining placed Hne Hk). by destruct (ready_of _ _).
Qed.

(** A member's predecessors were placed before, or sit in a strictly earlier group. *)
Lemma partition_loop_order fuel remaining placed j g x y :
  preds_known remaining placed ->
  loop fuel remaining placed !! j = Some g -> y ∈ g -> x ∈ neighbours predecessors y ->
  x ∈ placed \/
  exists i h, i < j /\ loop fuel remaining placed !! i = Some h /\ x ∈ h.
Proof.
  revert remaining placed j. induction fuel as [|fuel IH]; intros remaining placed j Hk; [done|].
  destruct (decide (remaining = ∅)) as [->|Hne].
  { by rewrite loop_unfold, decide_True by done. }
  rewrite (loop_acyclic fuel remaining placed Hk Hne).
  destruct j as [|j]; cbn [lookup list_lookup].
  - intros [= <-] Hy Hx. left. apply elem_of_group, elem_of_ready in Hy as [_ Hy].
    by apply Hy.
  - intros Hj Hy Hx.
    destruct (IH _ _ j (preds_known_step _ _ Hk) Hj Hy Hx) as [[?|Hg]%elem_of_union|Hlater].
    + by left.
    + right. exists 0, (group_of_ready remaining placed).
      split_and!; [lia|done|by apply elem_of_list_to_set in Hg].
    + right. destruct Hlater as (i & h & Hij & Hi & Hxh). exists (S i), h.
      split_and!; [lia|done|done].
Qed.

(** Nothing is delayed without cause: a member of a later group whose
    predecessors were already placed conflicts with a member of this one. *)
Lemma partition_loop_eager fuel remaining placed i j g h y :
  preds_known remaining placed -> i < j ->
  loop fuel remaining placed !! i = Some g -> loop fuel remaining placed !! j = Some h ->
  y ∈ h ->
  (forall x, x ∈ neighbours predecessors y ->
     x ∈ placed \/ x ∈ concat (take i (loop fuel remaining placed))) ->
  exists p, p ∈ g /\ p ∈ neighbours conflicts y.
Proof.
  revert remaining placed i j.
  induction fuel as [|fuel IH]; intros remaining placed i j Hk Hij; [done|].
  destruct (decide (remaining = ∅)) as [->|Hne].
  { by rewrite loop_unfold, decide_True by done. }
  rewrite (loop_acyclic fuel remaining placed Hk Hne).
  destruct j as [|j]; [lia|]. destruct i as [|i]; cbn [lookup list_lookup take concat].
  - intros [= <-] Hh Hy Hpl.
    apply partition_loop_sub with (y := y) in Hh as Hyr; [|done].
    apply elem_of_difference in Hyr as [Hyr Hyg]. rewrite elem_of_list_to_set in Hyg.
    apply pick_maximal; [|done]. apply elem_of_ready. split; [done|].
    intros x Hx. destruct (Hpl x Hx); set_solver.
  - intros Hg Hh Hy Hpl.
    apply (IH _ _ i j (preds_known_step _ _ Hk)); [lia|done|done|done|].
    intros x Hx. destruct (Hpl x Hx) as [?|[?|?]%elem_of_app]; [left|left|by right];
      set_solver.
Qed.
End layers.
