(* ===== verification/PlannerLand.v ===== *)
(** * pr-landing-planner: demotion, and who lands

    [demote_loop] ends in a state no further pass changes, in which a pull request
    lands only if everything it is ordered after lands, and it demotes nothing else; then
    the conditions under which one node's action is [LandNow], and the decisions
    [final_decisions] ends with. *)
From S2P Require Import Prelude RustStr Worklist PlannerModel PlannerGraph PlannerPlan PlannerHolds PlannerLayers.

(** ** Decisions and their map *)

Definition actions (ds : list PrActionDecision) : gmap Z PrAction :=
  map_collect ((fun d => (dec_pr d, dec_action d)) <$> ds).

Definition distinct (ds : list PrActionDecision) : Prop := NoDup (dec_pr <$> ds).

Lemma actions_keys ds : ((fun d => (dec_pr d, dec_action d)) <$> ds).*1 = dec_pr <$> ds.
Proof. by rewrite <-list_fmap_compose. Qed.

Lemma actions_elem ds d : distinct ds -> d ∈ ds -> actions ds !! dec_pr d = Some (dec_action d).
Proof.
  intros Hnd Hd. apply map_collect_NoDup; [by rewrite actions_keys|].
  apply list_elem_of_fmap. eauto.
Qed.

Lemma actions_inv ds k a :
  actions ds !! k = Some a -> exists d, d ∈ ds /\ dec_pr d = k /\ dec_action d = a.
Proof.
  intros Hk%map_collect_Some. apply list_elem_of_fmap in Hk as (d & [= -> ->] & Hd). eauto.
Qed.

Lemma actions_update l d d' r :
  distinct (l ++ d :: r) -> dec_pr d' = dec_pr d ->
  actions (l ++ d' :: r) = <[dec_pr d := dec_action d']> (actions (l ++ d :: r)).
Proof.
  intros Hnd Hpr. unfold actions, map_collect. rewrite !fmap_app, !foldl_app. simpl.
  rewrite Hpr.
  assert (Hout : dec_pr d ∉ dec_pr <$> r).
  { unfold distinct in Hnd. rewrite fmap_app, fmap_cons in Hnd.
    apply NoDup_app in Hnd as (_ & _ & [? _]%NoDup_cons). done. }
  clear Hnd. set (m := foldl _ ∅ ((fun d => (dec_pr d, dec_action d)) <$> l)).
  clearbody m. revert m.
  induction r as [|x r IH]; intros m; simpl; [by rewrite insert_insert_eq|].
  rewrite (insert_insert_ne m _ (dec_pr d)), (insert_insert_ne m _ (dec_pr d)) by set_solver.
  apply IH. set_solver.
Qed.

(** [d'] is [d], or [d] was landing and now waits. *)
Definition demoted (d d' : PrActionDecision) : Prop :=
  dec_pr d' = dec_pr d /\ dec_group d' = dec_group d /\
  (d' = d \/ (landing (dec_action d) = true /\ dec_action d' = Wait)).

#[export] Instance demoted_refl : Reflexive demoted.
Proof. intros d. unfold demoted. auto. Qed.

#[export] Instance demoted_trans : Transitive demoted.
Proof.
  intros d1 d2 d3 (Hp & Hg & H12) (Hp' & Hg' & H23). split; [congruence|]. split; [congruence|].
  destruct H12 as [->|[Hl Hw]]; [done|]. right. split; [done|].
  by destruct H23 as [->|[? ?]].
Qed.

Lemma demoted_prs ds ds' : Forall2 demoted ds ds' -> dec_pr <$> ds = dec_pr <$> ds'.
Proof.
  intros Hf. apply list_eq_Forall2, Forall2_fmap. eapply Forall2_impl; [exact Hf|].
  by intros d d' (-> & _).
Qed.

Lemma demoted_distinct ds ds' : Forall2 demoted ds ds' -> distinct ds -> distinct ds'.
Proof.
  intros Hds%demoted_prs. unfold distinct. by rewrite Hds.
Qed.

Definition landing_count (ds : list PrActionDecision) : nat :=
  length (List.filter (fun d => landing (dec_action d)) ds).

Lemma landing_count_app l r : landing_count (l ++ r) = landing_count l + landing_count r.
Proof. unfold landing_count. by rewrite List.filter_app, length_app. Qed.

Section demotion.
Context (blockers : list OrderingEdge).

(** No landing decision has a blocker. *)
Definition settled (ds : list PrActionDecision) : Prop :=
  forall d, d ∈ ds -> landing (dec_action d) = true ->
            find_blocker blockers (actions ds) (dec_pr d) = None.

Lemma find_blocker_None m pr :
  find_blocker blockers m pr = None <->
  forall e, e ∈ blockers -> after e = pr -> m !! before e = Some LandNow.
Proof.
  unfold find_blocker. rewrite fmap_None. split.
  - intros Hn e He <-. rewrite list_elem_of_In in He.
    pose proof (List.find_none _ _ Hn e He) as Hf. simpl in Hf.
    rewrite bool_decide_eq_true_2 in Hf by done. simpl in Hf. by b2p.
  - intros Hall. destruct (List.find _ _) as [e|] eqn:Hf; [|done].
    apply List.find_some in Hf as [He Hf]. rewrite <-list_elem_of_In in He. b2p.
    rewrite (Hall e He) in *; done.
Qed.

(** One step: the decision is demoted, or kept because nothing blocks it. *)
Lemma demote_step_cases visited d rest changed :
  distinct (visited ++ d :: rest) ->
  (exists d',
     demote_step blockers (visited, actions (visited ++ d :: rest), changed) d
     = (visited ++ [d'], actions ((visited ++ [d']) ++ rest), true)
     /\ demoted d d' /\ landing (dec_action d) = true /\ landing (dec_action d') = false)
  \/ (demote_step blockers (visited, actions (visited ++ d :: rest), changed) d
      = (visited ++ [d], actions ((visited ++ [d]) ++ rest), changed)
      /\ (landing (dec_action d) = true ->
          find_blocker blockers (actions (visited ++ d :: rest)) (dec_pr d) = None)).
Proof.
  intros Hnd. unfold demote_step. rewrite <-!app_assoc. cbn [app].
  destruct (find_blocker _ _ _) as [b|] eqn:Hb; [|by right].
  destruct (landing (dec_action d)) eqn:Hl; [|by right]. left.
  rewrite (actions_elem _ d Hnd) by set_solver.
  rewrite (bool_decide_eq_false_2 (Some (dec_action d) = Some Wait))
    by (intros [= Hw]; by rewrite Hw in Hl).
  cbn [negb]. rewrite orb_true_r.
  match goal with |- context [visited ++ [?x]] => exists x end.
  split; [|split; [split_and!; [done|done|by right]|done]].
  rewrite <-app_assoc. cbn [app].
  f_equal. f_equal. symmetry. by apply (actions_update visited d).
Qed.

Lemma landing_count_demoted l l' : Forall2 demoted l l' -> landing_count l' <= landing_count l.
Proof.
  unfold landing_count.
  induction 1 as [|x x' l l' (_ & _ & [->|[Hx Hw]]) _ IHl]; simpl; [lia| |].
  - destruct (landing (dec_action x)); simpl; lia.
  - rewrite Hx, Hw. simpl. lia.
Qed.

(** One pass, from any split of the decisions into visited and to visit. *)
Lemma demote_pass_spec rest : forall visited changed,
  distinct (visited ++ rest) ->
  exists rest' changed',
    foldl (demote_step blockers) (visited, actions (visited ++ rest), changed) rest
    = (visited ++ rest', actions (visited ++ rest'), changed || changed')
    /\ Forall2 demoted rest rest'
    /\ (changed' = true -> landing_count rest' < landing_count rest)
    /\ (changed' = false -> rest' = rest /\
          forall d, d ∈ rest -> landing (dec_action d) = true ->
            find_blocker blockers (actions (visited ++ rest)) (dec_pr d) = None).
Proof.
  induction rest as [|d rest IH]; intros visited changed Hnd.
  { exists [], false. rewrite orb_false_r, app_nil_r. split; [done|]. split; [constructor|].
    split; [done|]. intros _. split; [done|]. by intros ? []%elem_of_nil. }
  cbn [foldl].
  destruct (demote_step_cases visited d rest changed Hnd)
    as [(d' & -> & Hd & Hl & Hl')|[-> Hnone]].
  - destruct (IH (visited ++ [d']) true) as (rest' & changed' & -> & Hf & _ & _).
    { eapply demoted_distinct; [|exact Hnd]. rewrite <-app_assoc.
      apply Forall2_app; [done|]. by constructor. }
    exists (d' :: rest'), true. rewrite orb_true_r, <-app_assoc.
    split_and!; [done|by constructor| |done]. intros _.
    apply landing_count_demoted in Hf. unfold landing_count in *. cbn [List.filter].
    rewrite Hl, Hl'. simpl. lia.
  - destruct (IH (visited ++ [d]) changed) as (rest' & changed' & -> & Hf & Ht & Hfalse).
    { by rewrite <-app_assoc. }
    rewrite <-app_assoc in Hfalse. rewrite <-app_assoc.
    exists (d :: rest'), changed'. split_and!; [done|by constructor| |].
    + intros Hc. specialize (Ht Hc). unfold landing_count in *. cbn [List.filter].
      destruct (landing (dec_action d)); simpl; lia.
    + intros Hc. destruct (Hfalse Hc) as [-> Hall]. split; [done|].
      intros x [->|Hx]%elem_of_cons Hlx; [by apply Hnone|by apply Hall].
Qed.

(** The loop stops at a settled demotion of its input. *)
Lemma demote_loop_spec fuel ds :
  landing_count ds < fuel -> distinct ds ->
  Forall2 demoted ds (demote_loop fuel blockers ds (actions ds)) /\
  settled (demote_loop fuel blockers ds (actions ds)).
Proof.
  revert ds. induction fuel as [|fuel IH]; intros ds Hfuel Hnd; [lia|].
  cbn [demote_loop]. unfold demote_pass.
  destruct (demote_pass_spec ds [] false Hnd) as (ds' & changed & Heq & Hf & Ht & Hfalse).
  cbn [app orb] in Heq. rewrite Heq. destruct changed.
  - destruct (IH ds') as [Hf' Hs].
    + specialize (Ht eq_refl). lia.
    + by eapply demoted_distinct.
    + split; [|done]. by etrans.
  - destruct (Hfalse eq_refl) as [-> Hall]. split; [done|]. intros d Hd Hl. by apply Hall.
Qed.

(** A set of landing numbers closed under predecessors is never touched. *)
Definition safe (G : Z -> Prop) (m : gmap Z PrAction) : Prop :=
  forall pr, G pr -> m !! pr = Some LandNow /\
                     forall e, e ∈ blockers -> after e = pr -> G (before e).

Lemma safe_step G visited m changed d visited' m' changed' :
  safe G m -> demote_step blockers (visited, m, changed) d = (visited', m', changed') ->
  safe G m'.
Proof.
  intros Hs. unfold demote_step.
  destruct (find_blocker blockers m (dec_pr d)) as [b|] eqn:Hb; [|by intros [= <- <- <-]].
  destruct (landing (dec_action d)); intros [= <- <- <-]; [|done].
  intros pr Hpr. destruct (Hs pr Hpr) as [Hm He]. split; [|done].
  rewrite lookup_insert_ne; [done|]. intros Heq.
  assert (find_blocker blockers m (dec_pr d) = None) as Hn; [|congruence].
  apply find_blocker_None. rewrite Heq. intros e Hin Ha. by apply Hs, He.
Qed.

Lemma safe_pass G rest : forall visited m changed visited' m' changed',
  safe G m -> foldl (demote_step blockers) (visited, m, changed) rest = (visited', m', changed') ->
  safe G m'.
Proof.
  induction rest as [|d rest IH]; intros visited m changed visited' m' changed' Hs; cbn [foldl].
  { by intros [= <- <- <-]. }
  destruct (demote_step blockers (visited, m, changed) d) as [[v1 m1] c1] eqn:Hd.
  intros Heq. eapply IH; [|exact Heq]. by eapply safe_step.
Qed.

Lemma demote_loop_safe G fuel ds :
  distinct ds -> safe G (actions ds) ->
  safe G (actions (demote_loop fuel blockers ds (actions ds))).
Proof.
  revert ds. induction fuel as [|fuel IH]; intros ds Hnd Hs; [done|].
  cbn [demote_loop]. unfold demote_pass.
  destruct (demote_pass_spec ds [] false Hnd) as (ds' & changed & Heq & Hf & _).
  cbn [app orb] in Heq. pose proof (safe_pass _ _ _ _ _ _ _ _ Hs Heq) as Hs'.
  rewrite Heq. destruct changed; [|done].
  apply IH; [by eapply demoted_distinct|done].
Qed.
End demotion.

(** ** One node *)

(** Evidence that lets a node that is not held land now. *)
Definition ci_landable (fresh : option Z) (node : PrNode) : Prop :=
  too_far_behind fresh node = false /\
  ((validation_evidence node = CleanValidateRecord /\ validation_authority node <> AuthorityNone)
   \/ (validation_evidence node <> CleanValidateRecord /\ red_class (ci node) = None
       /\ gate_present (ci node) = true /\ gate_ok (ci node) = true
       /\ raw_state (ci node) <> NoResult)).

Lemma ci_action_land fresh node :
  (ci_action node fresh).1 = LandNow <->
  policy_class node <> GatePolicy /\ ci_landable fresh node.
Proof.
  unfold ci_action, ci_landable.
  destruct (decide (policy_class node = GatePolicy)); [naive_solver|].
  destruct (decide (validation_evidence node = CleanValidateRecord)).
  - destruct (decide (validation_authority node = AuthorityNone)); [naive_solver|].
    destruct (too_far_behind fresh node); naive_solver.
  - destruct (red_class (ci node)) as [[]|]; try naive_solver.
    destruct (gate_present (ci node)); [|naive_solver].
    destruct (gate_ok (ci node)); [|naive_solver]. simpl.
    destruct (decide (raw_state (ci node) = NoResult)); [naive_solver|].
    destruct (too_far_behind fresh node); naive_solver.
Qed.

(** A held pull request waits, or must be rebased first: it never lands now. *)
Lemma held_action_cases rs :
  (held_action rs).1 = Wait \/ (held_action rs).1 = RebaseThenLand.
Proof. unfold held_action. repeat case_match; auto. Qed.

Definition cleared (held : gset Z) (fresh : option Z) (node : PrNode) : Prop :=
  policy_class node <> GatePolicy /\ number node ∉ held /\ ci_landable fresh node.

Lemma decide_node_land held_by_number group_of fresh node :
  dec_action (decide_node held_by_number group_of fresh node) = LandNow <->
  cleared (dom held_by_number) fresh node.
Proof.
  unfold decide_node, cleared. pose proof (ci_action_land fresh node) as Hl.
  destruct (decide (policy_class node = GatePolicy)) as [Hp|Hp].
  - destruct (ci_action node fresh) as [a w]; simpl in *. tauto.
  - rewrite not_elem_of_dom. destruct (held_by_number !! number node) as [h|].
    + pose proof (held_action_cases (reasons h)) as Hw.
      destruct (held_action (reasons h)) as [a w]; simpl in *.
      split; [intros ->; by destruct Hw|by intros (_ & ? & _)].
    + destruct (ci_action node fresh) as [a w]; simpl in *. tauto.
Qed.

Lemma decide_node_pr h g f node : dec_pr (decide_node h g f node) = number node.
Proof. unfold decide_node. by repeat case_match. Qed.

(** ** The final decisions *)

Section final.
Context (ns : list PrNode) (edges : list OrderingEdge) (held_by_number : gmap Z HeldPr)
  (groups : list (list Z)) (fresh : option Z).
Hypothesis numbers_distinct : NoDup (number <$> ns).
#[local] Notation ds0 := (initial_decisions ns held_by_number groups fresh).
#[local] Notation ds := (final_decisions ns edges held_by_number groups fresh).
#[local] Notation blockers := (sort_by_key (fun e => (after e, before e)) edges).

Lemma initial_prs : dec_pr <$> ds0 ≡ₚ number <$> ns.
Proof.
  unfold initial_decisions. rewrite <-list_fmap_compose.
  rewrite (list_fmap_ext _ number).
  - by rewrite sort_by_key_perm.
  - intros i node _. apply decide_node_pr.
Qed.

Lemma initial_sorted : StronglySorted Z.le (dec_pr <$> ds0).
Proof.
  unfold initial_decisions. rewrite <-list_fmap_compose.
  rewrite (list_fmap_ext _ number).
  - apply (StronglySorted_fmap number (key_le number)); [done|]. apply sort_by_key_sorted.
  - intros i node _. apply decide_node_pr.
Qed.

Lemma initial_distinct : distinct ds0.
Proof. unfold distinct. by rewrite initial_prs. Qed.

Lemma elem_of_initial d :
  d ∈ ds0 -> exists node, node ∈ ns /\ number node = dec_pr d /\
    (dec_action d = LandNow <-> cleared (dom held_by_number) fresh node).
Proof.
  unfold initial_decisions. intros (node & -> & Hn)%list_elem_of_fmap.
  rewrite elem_of_sort_by_key in Hn. exists node. rewrite decide_node_pr.
  split_and!; [done|done|]. apply decide_node_land.
Qed.

Lemma initial_cleared node :
  node ∈ ns -> cleared (dom held_by_number) fresh node ->
  actions ds0 !! number node = Some LandNow.
Proof.
  intros Hn Hc. unfold initial_decisions. set (h := map_collect _).
  rewrite <-(decide_node_pr held_by_number h fresh node).
  rewrite <-(proj2 (decide_node_land held_by_number h fresh node) Hc).
  apply actions_elem; [apply initial_distinct|]. unfold initial_decisions.
  apply list_elem_of_fmap. exists node. split; [done|]. by rewrite elem_of_sort_by_key.
Qed.

Lemma final_spec : Forall2 demoted ds0 ds /\ settled blockers ds /\ distinct ds.
Proof.
  unfold final_decisions.
  destruct (demote_loop_spec blockers (S (length ds0)) ds0) as [Hf Hs].
  - unfold landing_count. pose proof (filter_length_le (fun d => landing (dec_action d)) ds0). lia.
  - apply initial_distinct.
  - split_and!; [exact Hf|exact Hs|]. eapply demoted_distinct; [exact Hf|apply initial_distinct].
Qed.

Lemma final_safe G : safe blockers G (actions ds0) -> safe blockers G (actions ds).
Proof. apply demote_loop_safe, initial_distinct. Qed.

(** [LandNow] at the end: it was [LandNow] at the start, and so were all the
    pull requests it is ordered after, however far. *)
Lemma final_land pr :
  actions ds !! pr = Some LandNow <->
  forall x, rtc (ord_rel edges) x pr ->
    exists node, node ∈ ns /\ number node = x /\ cleared (dom held_by_number) fresh node.
Proof.
  destruct final_spec as (Hf & Hs & Hd). split.
  - intros Hpr x Hr.
    assert (Hx : actions ds !! x = Some LandNow).
    { revert Hpr. induction Hr as [|x y z (e & He & <- & <-) Hr IH]; [done|].
      intros Hz. apply IH, actions_inv in Hz as (d & Hd' & Hy & Hl).
      assert (Hb : find_blocker blockers (actions ds) (dec_pr d) = None)
        by (apply Hs; [done|by rewrite Hl]).
      rewrite find_blocker_None in Hb. apply Hb; [by rewrite elem_of_sort_by_key|done]. }
    apply actions_inv in Hx as (d & Hd' & <- & Hl).
    apply list_elem_of_lookup in Hd' as [i Hi].
    destruct (Forall2_lookup_r _ _ _ _ _ Hf Hi) as (d0 & H0 & Hp & _ & Hdem).
    destruct Hdem as [->|[_ Hw]]; [|congruence].
    apply list_elem_of_lookup_2, elem_of_initial in H0 as (node & Hn & Hnum & Hc).
    exists node. naive_solver.
  - intros Hall.
    apply (final_safe (fun y => forall x, rtc (ord_rel edges) x y ->
      exists node, node ∈ ns /\ number node = x /\ cleared (dom held_by_number) fresh node));
      [|done].
    intros y Hy. split.
    + destruct (Hy y) as (node & Hn & <- & Hc); [done|]. by apply initial_cleared.
    + intros e He <- x Hx. rewrite elem_of_sort_by_key in He. apply Hy.
      eapply rtc_r; [exact Hx|]. by exists e.
Qed.

Lemma elem_of_land pr :
  pr ∈ dec_pr <$> List.filter (action_is LandNow) ds <-> actions ds !! pr = Some LandNow.
Proof.
  destruct final_spec as (_ & _ & Hd). rewrite list_elem_of_fmap. unfold action_is. split.
  - intros (d & -> & Hin). rewrite elem_of_filter_b in Hin. destruct Hin as [Hin Ha]. b2p.
    rewrite <-Ha. by apply actions_elem.
  - intros (d & Hin & <- & Ha)%actions_inv. exists d. rewrite elem_of_filter_b.
    split; [done|]. split; [done|]. by b2p.
Qed.
End final.

(** ** Holds, seen from a node *)

Lemma held_dom ns edges :
  dom (map_collect ((fun h => (held_pr h, h)) <$> held_reasons ns edges))
  = dom (hold_dependents (length edges) edges (direct_reasons (cycle_nodes edges) ns)).
Proof.
  rewrite map_collect_dom, <-list_fmap_compose. apply set_eq. intros k.
  rewrite elem_of_list_to_set, list_elem_of_fmap, elem_of_dom. split.
  - intros (h & -> & Hh%elem_of_held_reasons). simpl. eauto.
  - intros [why Hk]. exists {| held_pr := k; reasons := why |}. split; [done|].
    by apply elem_of_held_reasons.
Qed.

(** Not held: neither it nor anything it is ordered after has a reason of its own. *)
Lemma not_held ns edges k :
  k ∉ dom (hold_dependents (length edges) edges (direct_reasons (cycle_nodes edges) ns)) <->
  forall node, node ∈ ns -> rtc (ord_rel edges) (number node) k ->
    node_reasons (cycle_nodes edges) node = [].
Proof.
  rewrite hold_dependents_dom. setoid_rewrite direct_reasons_dom. split.
  - intros Hn node Hin Hr. destruct (node_reasons _ _) eqn:He; [done|].
    destruct Hn. exists (number node). split; [|done]. exists node. by rewrite He.
  - intros Hall (x & (node & Hin & <- & Hne) & Hr). by apply Hne, Hall.
Qed.

(** ** The batch *)

Lemma elem_of_all_conflicts edges x y :
  y ∈ neighbours (all_conflicts edges) x <->
  exists e, e ∈ edges /\ ((ce_a e = x /\ ce_b e = y) \/ (ce_a e = y /\ ce_b e = x)).
Proof.
  unfold all_conflicts.
  assert (Hgen : forall m : gmap Z (gset Z), y ∈ neighbours (foldl (fun m e =>
      entry_insert (ce_b e) (ce_a e) (entry_insert (ce_a e) (ce_b e) m)) m edges) x
    <-> y ∈ neighbours m x \/
  exists e, e ∈ edges /\ ((ce_a e = x /\ ce_b e = y) \/ (ce_a e = y /\ ce_b e = x))).
  { induction edges as [|e edges IH]; intros m; simpl; [set_solver|].
    rewrite IH, !elem_of_neighbours_entry_insert. set_solver. }
  rewrite Hgen. unfold neighbours. rewrite lookup_empty. set_solver.
Qed.

Lemma elem_of_batch_candidates (edges : list OrderingEdge) (land : list Z) n :
  n ∈ List.filter (fun n => negb (bool_decide (n ∈ (list_to_set (after <$> edges) : gset Z)))) land
  <-> n ∈ land /\ forall e, e ∈ edges -> after e <> n.
Proof.
  rewrite elem_of_filter_b, negb_true_iff, bool_decide_eq_false, elem_of_list_to_set,
    list_elem_of_fmap. naive_solver.
Qed.
