(* ===== verification/PlannerStackOrder.v ===== *)
(** * pr-landing-planner: stacks, and the order inside a component

    [visit] enumerates the simple chains from a node to the leaves of the reduced
    ordering graph.  [stack_order] is Kahn's algorithm with a ready list kept in rank
    order: it places every member once, whatever the edges, and after all its predecessors
    when the ordering is acyclic. *)
From S2P Require Import Prelude RustStr Worklist PlannerModel PlannerGraph PlannerHolds PlannerLayers.

(** Consecutive elements related, by position. *)
Definition chain (R : relation Z) (l : list Z) : Prop :=
  forall i x y, l !! i = Some x -> l !! S i = Some y -> R x y.

Definition leaf (R : relation Z) (x : Z) : Prop := forall y, ~ R x y.
Definition root (R : relation Z) (x : Z) : Prop := forall y, ~ R y x.

(** A complete stack: a simple chain of two or more from a root to a leaf. *)
Definition is_stack (R : relation Z) (s : list Z) : Prop :=
  2 <= length s /\ NoDup s /\ chain R s /\
  (forall x, head s = Some x -> root R x) /\ (forall x, last s = Some x -> leaf R x).

Lemma chain_app_inv R l k : chain R (l ++ k) -> chain R l.
Proof.
  intros Hc i x y Hx Hy. apply (Hc i); (rewrite lookup_app_l; [done|]).
  - by eapply lookup_lt_Some.
  - by eapply lookup_lt_Some.
Qed.

Lemma chain_snoc (R : relation Z) l x y :
  chain R l -> last l = Some x -> R x y -> chain R (l ++ [y]).
Proof.
  intros Hc Hlast Hxy i a b Ha Hb.
  destruct (decide (S i < length l)) as [Hi|Hi].
  - rewrite lookup_app_l in Ha, Hb by lia. by apply (Hc i).
  - pose proof (lookup_lt_Some _ _ _ Hb) as Hlen. rewrite length_app in Hlen. simpl in Hlen.
    assert (S i = length l) as Hsi by lia.
    rewrite Hsi, list_lookup_middle in Hb by done. simplify_eq.
    rewrite lookup_app_l in Ha by lia. rewrite last_lookup, <-Hsi in Hlast. simpl in Hlast.
    congruence.
Qed.

Section visit.
Context (children : gmap Z (gset Z)) (V : gset Z).
#[local] Notation R := (fun x y => y ∈ neighbours children x).
Hypothesis V_closed : forall x y, R x y -> y ∈ V.

(** The simple chains extending [path] to a leaf. *)
Definition completes (path s : list Z) : Prop :=
  exists ext, s = path ++ ext /\ NoDup s /\ chain R s /\
              (forall x, last s = Some x -> leaf R x) /\ 2 <= length s.

Lemma btree_nil_leaf node : btree_elems (neighbours children node) = [] <-> leaf R node.
Proof.
  split.
  - intros Hn y Hy. rewrite <-elem_of_btree_elems, Hn in Hy. set_solver.
  - intros Hl. destruct (btree_elems _) as [|y l] eqn:He; [done|].
    destruct (Hl y). rewrite <-elem_of_btree_elems, He. set_solver.
Qed.

Lemma completes_step node path s :
  last path = Some node -> ~ leaf R node ->
  completes path s <->
  exists child, R node child /\ child ∉ path /\ completes (path ++ [child]) s.
Proof.
  intros Hlast Hnl. split.
  - intros (ext & -> & Hnd & Hc & Hlf & Hlen). destruct ext as [|child ext].
    { rewrite app_nil_r in Hlf. by destruct Hnl; apply Hlf. }
    exists child. split_and!.
    + rewrite last_lookup in Hlast. pose proof (lookup_lt_Some _ _ _ Hlast).
      apply (Hc (Init.Nat.pred (length path))).
      * rewrite lookup_app_l by lia. done.
      * rewrite lookup_app_r by lia.
        by replace (S (Init.Nat.pred (length path)) - length path) with 0 by lia.
    + apply NoDup_app in Hnd as (_ & Hd & _). intros Hin. apply (Hd child Hin). set_solver.
    + exists ext. rewrite <-app_assoc. done.
  - intros (child & _ & _ & ext & -> & Hrest). exists (child :: ext).
    by rewrite <-app_assoc in *.
Qed.

Lemma extend_path node child path :
  last path = Some node -> NoDup path -> chain R path -> (forall x, x ∈ path -> x ∈ V) ->
  R node child -> child ∉ path ->
  last (path ++ [child]) = Some child /\ NoDup (path ++ [child]) /\
  chain R (path ++ [child]) /\ (forall x, x ∈ path ++ [child] -> x ∈ V).
Proof.
  intros Hlast Hnd Hc HV Hr Hp. split_and!.
  - by rewrite last_snoc.
  - apply NoDup_app. split; [done|]. split; [|apply NoDup_singleton].
    intros x Hx ->%list_elem_of_singleton. done.
  - by apply (chain_snoc _ path node child).
  - intros x [?|Hx]%elem_of_app; [by apply HV|]. apply list_elem_of_singleton in Hx as ->.
    by apply (V_closed node).
Qed.

Lemma visit_spec fuel node path s :
  size V < fuel + length path -> last path = Some node ->
  NoDup path -> chain R path -> (forall x, x ∈ path -> x ∈ V) ->
  s ∈ visit fuel children node path <-> completes path s.
Proof.
  revert node path. induction fuel as [|fuel IH]; intros node path Hfuel Hlast Hnd Hc HV.
  { assert (length path <= size V); [|lia].
    change (length path <= length (elements V)). apply submseteq_length, NoDup_submseteq; [done|].
    intros x Hx. by apply elem_of_elements, HV. }
  cbn [visit]. destruct (btree_elems (neighbours children node)) as [|c cs] eqn:Hnext.
  - apply btree_nil_leaf in Hnext.
    assert (Hiff : completes path s <-> s = path /\ 2 <= length path).
    { split.
      - intros (ext & -> & Hnd' & Hc' & _ & Hlen). destruct ext as [|child ext].
        { by rewrite app_nil_r in *. }
        rewrite last_lookup in Hlast. pose proof (lookup_lt_Some _ _ _ Hlast).
        destruct (Hnext child). apply (Hc' (Init.Nat.pred (length path))).
        + rewrite lookup_app_l by lia. done.
        + rewrite lookup_app_r by lia.
          by replace (S (Init.Nat.pred (length path)) - length path) with 0 by lia.
      - intros [-> Hlen]. exists []. rewrite app_nil_r. split_and!; try done.
        intros x Hx. by assert (x = node) as -> by congruence. }
    rewrite Hiff. case_decide.
    + rewrite list_elem_of_singleton. intuition lia.
    + split; [set_solver|]. intros [_ ?]. lia.
  - rewrite <-Hnext, elem_of_concat, (completes_step node) by
      (first [done | intros Hl%btree_nil_leaf; congruence]). split.
    + intros (l & (child & -> & Hin)%list_elem_of_fmap & Hs).
      rewrite elem_of_btree_elems in Hin. case_decide as Hp; [set_solver|].
      exists child. split_and!; [done|done|].
      destruct (extend_path node child path) as (? & ? & ? & ?); [done..|].
      apply (IH child); try done. rewrite length_app. simpl. lia.
    + intros (child & Hin & Hp & Hs). exists (visit fuel children child (path ++ [child])).
      split.
      * apply list_elem_of_fmap. exists child. rewrite decide_False by done.
        by rewrite elem_of_btree_elems.
      * destruct (extend_path node child path) as (? & ? & ? & ?); [done..|].
        apply (IH child); try done. rewrite length_app. simpl. lia.
Qed.
End visit.

Lemma chain_ext (R R' : relation Z) l :
  (forall x y, R x y <-> R' x y) -> chain R l <-> chain R' l.
Proof. intros Heq. unfold chain. by setoid_rewrite Heq. Qed.

Lemma elem_of_involved edges x :
  x ∈ (list_to_set (concat ((fun e => [before e; after e]) <$> edges)) : gset Z) <->
  exists y, ord_rel edges x y \/ ord_rel edges y x.
Proof.
  rewrite elem_of_list_to_set, elem_of_concat. unfold ord_rel. split.
  - intros (l & (e & -> & He)%list_elem_of_fmap & Hx).
    apply elem_of_cons in Hx as [->|Hx]; [exists (after e); left; by exists e|].
    apply list_elem_of_singleton in Hx as ->. exists (before e). right. by exists e.
  - intros (y & [(e & He & <- & <-)|(e & He & <- & <-)]);
      (eexists; split; [apply list_elem_of_fmap; by exists e|set_solver]).
Qed.

Lemma elem_of_build_stacks edges s :
  s ∈ build_stacks edges <-> is_stack (ord_rel (transitive_reduce edges)) s.
Proof.
  unfold build_stacks. set (red := transitive_reduce edges).
  set (children := ordering_adjacency red).
  set (parents := foldl _ _ red). set (involved := list_to_set _).
  assert (Hch : forall x y, y ∈ neighbours children x <-> ord_rel red x y)
    by apply elem_of_ordering_adjacency.
  assert (Hpar : forall x, neighbours parents x = ∅ <-> root (ord_rel red) x).
  { intros x. rewrite <-(leibniz_equiv_iff (neighbours parents x)), elem_of_equiv_empty.
    apply forall_proper. intros y. unfold parents.
    rewrite (elem_of_neighbours_foldl (fun e => Some (after e, before e))).
    unfold neighbours, ord_rel. rewrite lookup_empty. simpl.
    split; intros Hn; [|set_solver].
    intros (e & He & <- & <-). apply Hn. right. eauto. }
  assert (Hinv : forall x, x ∈ involved <-> exists y, ord_rel red x y \/ ord_rel red y x)
    by apply elem_of_involved.
  assert (Hvisit : forall r, r ∈ involved ->
    s ∈ visit (S (size involved)) children r [r] <-> completes children [r] s).
  { intros r Hr. apply (visit_spec children involved).
    - intros x y Hxy%Hch. apply Hinv. eauto.
    - simpl. lia.
    - done.
    - apply NoDup_singleton.
    - intros [|i] x y ? ?; done.
    - by intros x ->%list_elem_of_singleton. }
  rewrite elem_of_concat. setoid_rewrite list_elem_of_fmap. split.
  - intros (l & (r & -> & Hr) & Hs). rewrite elem_of_filter_b, elem_of_btree_elems in Hr.
    destruct Hr as [Hr Hroot]. b2p. apply Hvisit in Hs as (ext & -> & Hnd & Hc & Hl & Hlen); [|done].
    split_and!; [done|done|by eapply chain_ext; [|exact Hc]; intros; rewrite Hch| |].
    + intros x [= <-]. by apply Hpar.
    + intros x Hx y Hy%Hch. by apply (Hl x Hx y).
  - intros (Hlen & Hnd & Hc & Hroot & Hleaf). destruct s as [|r [|c s]]; simpl in Hlen; [lia..|].
    assert (Hr : r ∈ involved).
    { apply Hinv. exists c. left. by apply (Hc 0). }
    exists (visit (S (size involved)) children r [r]). split.
    + exists r. split; [done|]. rewrite elem_of_filter_b, elem_of_btree_elems.
      split; [done|]. b2p. by apply Hpar, Hroot.
    + apply Hvisit; [done|]. exists (c :: s). split_and!; [done|done| | |simpl; lia].
      * eapply chain_ext; [|exact Hc]. intros; by rewrite Hch.
      * intros x Hx y Hy%Hch. by apply (Hleaf x Hx y).
Qed.

Definition degree (indegree : gmap Z nat) (n : Z) : nat := default 0 (indegree !! n).

Lemma degree_insert indegree k d n :
  degree (<[k := d]> indegree) n = if decide (n = k) then d else degree indegree n.
Proof. unfold degree. rewrite lookup_insert. by repeat case_decide; subst. Qed.

Lemma difference_empty_sub (X Y : gset Z) : X ∖ Y ≡ ∅ <-> X ⊆ Y.
Proof.
  split.
  - intros He x Hx. destruct (decide (x ∈ Y)); [done|]. set_solver.
  - set_solver.
Qed.

(** ** The [for child] loop *)

Lemma release_spec cs ready indegree :
  NoDup cs ->
  (foldl release_child (ready, indegree) cs).1 =
    ready ++ List.filter (fun c => bool_decide (degree indegree c - 1 = 0)) cs /\
  forall n, degree (foldl release_child (ready, indegree) cs).2 n =
    if decide (n ∈ cs) then degree indegree n - 1 else degree indegree n.
Proof.
  revert ready indegree. induction cs as [|c cs IH]; intros ready indegree.
  { cbn [foldl fst snd List.filter]. rewrite app_nil_r. split; [done|]. intros n. rewrite decide_False by set_solver. done. }
  intros [Hc Hcs]%NoDup_cons. cbn [foldl release_child].
  destruct (IH (if decide (default 0 (indegree !! c) - 1 = 0) then ready ++ [c] else ready)
              (<[c := default 0 (indegree !! c) - 1]> indegree) Hcs) as [-> Hd].
  split.
  - cbn [List.filter].
    assert (Heq : List.filter
        (fun c0 => bool_decide (degree (<[c := degree indegree c - 1]> indegree) c0 - 1 = 0)) cs
      = List.filter (fun c0 => bool_decide (degree indegree c0 - 1 = 0)) cs).
    { apply List.filter_ext_in. intros x Hx%list_elem_of_In. rewrite degree_insert.
      rewrite decide_False; [done|]. by intros ->. }
    unfold degree in *. rewrite Heq. case_decide as Hz.
    + rewrite (bool_decide_eq_true_2 _ Hz), <-app_assoc. done.
    + by rewrite (bool_decide_eq_false_2 _ Hz).
  - intros n. rewrite Hd, degree_insert. unfold degree.
    destruct (decide (n = c)) as [->|Hne].
    + rewrite decide_False by done. by rewrite decide_True by set_solver.
    + destruct (decide (n ∈ cs)); [rewrite decide_True by set_solver|
        rewrite decide_False by set_solver]; done.
Qed.

(** ** The main loop *)

Section kahn.
Context (by_number : gmap Z PrNode) (successors predecessors : gmap Z (gset Z)) (M : gset Z).
Hypothesis dual : forall x y, y ∈ neighbours successors x <-> x ∈ neighbours predecessors y.
Hypothesis inside : forall x y, x ∈ neighbours predecessors y -> x ∈ M /\ y ∈ M.

(** [E] is what was emitted so far. *)
Record kahn_inv (E : gset Z) (ready : list Z) (indegree : gmap Z nat) : Prop := {
  ready_nodup : NoDup ready;
  ready_exact : forall n, n ∈ ready <->
    n ∈ M /\ n ∉ E /\ neighbours predecessors n ⊆ E;
  degrees_left : forall n, n ∈ M -> degree indegree n = size (neighbours predecessors n ∖ E);
  emitted_closed : forall n, n ∈ E -> neighbours predecessors n ⊆ E;
}.

Lemma degree_step E n c :
  n ∉ E ->
  size (neighbours predecessors c ∖ ({[n]} ∪ E)) =
  if decide (c ∈ neighbours successors n)
  then size (neighbours predecessors c ∖ E) - 1 else size (neighbours predecessors c ∖ E).
Proof.
  intros Hn. case_decide as Hc; rewrite dual in Hc.
  - replace (neighbours predecessors c ∖ ({[n]} ∪ E))
      with ((neighbours predecessors c ∖ E) ∖ {[n]}) by set_solver.
    rewrite size_difference by set_solver. by rewrite size_singleton.
  - f_equal. set_solver.
Qed.

Lemma kahn_step E n ready indegree :
  kahn_inv E (n :: ready) indegree ->
  let p := foldl release_child (ready, indegree) (btree_elems (neighbours successors n)) in
  kahn_inv ({[n]} ∪ E) (sort_by_rank by_number p.1) p.2.
Proof.
  intros [Hnd Hex Hdeg Hcl] p. apply NoDup_cons in Hnd as [Hnr Hnd].
  destruct (proj1 (Hex n)) as (HnM & HnE & Hnp); [set_solver|].
  destruct (release_spec (btree_elems (neighbours successors n)) ready indegree) as [Hp1 Hp2];
    [apply btree_elems_NoDup|]. subst p.
  assert (Hdeg' : forall c, c ∈ M ->
    degree (foldl release_child (ready, indegree) (btree_elems (neighbours successors n))).2 c
    = size (neighbours predecessors c ∖ ({[n]} ∪ E))).
  { intros c Hc. rewrite Hp2, degree_step, <-Hdeg by done.
    destruct (decide (c ∈ btree_elems (neighbours successors n))) as [Hi|Hi];
      rewrite elem_of_btree_elems in Hi; [by rewrite decide_True|by rewrite decide_False]. }
  assert (Hnew : forall c,
    c ∈ List.filter (fun c => bool_decide (degree indegree c - 1 = 0))
          (btree_elems (neighbours successors n)) <->
    c ∈ neighbours successors n /\ neighbours predecessors c ⊆ {[n]} ∪ E).
  { intros c. rewrite elem_of_filter_b, elem_of_btree_elems, bool_decide_eq_true.
    enough (c ∈ neighbours successors n ->
      (degree indegree c - 1 = 0 <-> neighbours predecessors c ⊆ {[n]} ∪ E)) by tauto.
    intros Hc. assert (HcM : c ∈ M) by (apply dual, inside in Hc; tauto).
    pose proof (degree_step E n c HnE) as Hs. rewrite decide_True in Hs by done.
    rewrite Hdeg, <-Hs, size_empty_iff by done.
    apply difference_empty_sub. }
  assert (Hfresh : forall c, c ∈ neighbours successors n -> c ∉ E /\ c ∉ ready).
  { intros c Hc%dual. split; [intros He|intros He].
    - apply HnE, (Hcl c He). done.
    - destruct (proj1 (Hex c)) as (_ & _ & Hpc); [set_solver|]. apply HnE, Hpc. done. }
  constructor.
  - unfold sort_by_rank. rewrite sort_by_key_NoDup, Hp1. apply NoDup_app. split_and!; [done| |].
    + intros c Hc [Hin _]%Hnew. by apply (Hfresh c Hin).
    + apply NoDup_ListNoDup, List.NoDup_filter, NoDup_ListNoDup, btree_elems_NoDup.
  - intros c. unfold sort_by_rank. rewrite elem_of_sort_by_key, Hp1, elem_of_app, Hnew. split.
    + intros [Hc|[Hc Hpc]].
      * destruct (proj1 (Hex c)) as (? & ? & ?); [set_solver|].
        split_and!; [done| |by apply union_subseteq_r'].
        intros [?%elem_of_singleton|?]%elem_of_union; [|done].
        subst c. apply Hnr. done.
      * destruct (Hfresh c Hc) as [HcE _]. split_and!; [by apply dual, inside in Hc as [_ ?]| |done].
        intros [?%elem_of_singleton|?]%elem_of_union; [|done]. subst c.
        apply HnE. apply Hnp. by apply dual.
    + intros (HcM & HcE & Hpc). destruct (decide (n ∈ neighbours predecessors c)) as [Hin|Hin].
      * right. split; [by apply dual|done].
      * left. assert (c ∈ n :: ready) as [->|?]%elem_of_cons; [|by destruct HcE; apply elem_of_union_l, elem_of_singleton|done].
        apply Hex. split_and!; [done|by intros ?; apply HcE, elem_of_union_r|].
        intros x Hx. apply Hpc in Hx as Hx'. apply elem_of_union in Hx' as [->%elem_of_singleton|?];
          done.
  - exact Hdeg'.
  - intros c [->%elem_of_singleton|Hc]%elem_of_union; apply union_subseteq_r'; [done|].
    by apply Hcl.
Qed.

#[local] Notation loop fuel := (stack_loop fuel by_number successors).

Definition emits_after (E : gset Z) (out : list Z) : Prop :=
  forall j y, out !! j = Some y -> forall x, x ∈ neighbours predecessors y ->
    x ∈ E \/ exists i, i < j /\ out !! i = Some x.

Lemma stack_loop_spec fuel E ready indegree :
  size (M ∖ E) <= fuel -> kahn_inv E ready indegree ->
  NoDup (loop fuel ready indegree) /\
  (forall x, x ∈ loop fuel ready indegree -> x ∈ M /\ x ∉ E) /\
  emits_after E (loop fuel ready indegree) /\
  (forall n, n ∈ M -> neighbours predecessors n ⊆ E ∪ list_to_set (loop fuel ready indegree) ->
     n ∈ E ∪ list_to_set (loop fuel ready indegree)).
Proof.
  revert E ready indegree. induction fuel as [|fuel IH]; intros E ready indegree Hf Hi.
  - assert (Hall : M ∖ E ≡ ∅) by (apply size_empty_iff; lia).
    cbn [stack_loop]. split_and!; [constructor|set_solver|by intros ? ?|].
    intros n Hn _. apply difference_empty_sub in Hall. by apply elem_of_union_l, Hall.
  - destruct ready as [|n ready]; cbn [stack_loop].
    { split_and!; [constructor|set_solver|by intros ? ?|]. intros n Hn Hp.
      apply elem_of_union_l. destruct (decide (n ∈ E)) as [|Hne]; [done|].
      exfalso. apply (not_elem_of_nil n), (ready_exact _ _ _ Hi). split_and!; [done|done|].
      cbn [list_to_set] in Hp. by rewrite union_empty_r_L in Hp. }
    destruct (proj1 (ready_exact _ _ _ Hi n)) as (HnM & HnE & Hnp); [set_solver|].
    pose proof (kahn_step E n ready indegree Hi) as Hstep. cbn zeta in Hstep.
    destruct (foldl release_child _ _) as [ready' indegree'] eqn:Hp. cbn [fst snd] in Hstep.
    assert (Hsz : size (M ∖ ({[n]} ∪ E)) <= fuel).
    { enough (size (M ∖ ({[n]} ∪ E)) < size (M ∖ E)) by lia.
      apply subset_size. split; [clear -n; set_solver|]. intros Hs.
      assert (n ∈ M ∖ E) as Hx by (apply elem_of_difference; done).
      apply Hs in Hx. clear -Hx. set_solver. }
    destruct (IH _ _ _ Hsz Hstep) as (Hnd & Hin & Hord & Hfull).
    set (out := loop fuel (sort_by_rank by_number ready') indegree') in *.
    split_and!.
    + apply NoDup_cons. split; [|done]. intros Hx. apply Hin in Hx as [_ Hx].
      clear -Hx. set_solver.
    + intros x [->|Hx]%elem_of_cons; [done|]. apply Hin in Hx. clear -Hx. set_solver.
    + intros [|j] y Hj x Hx; cbn [lookup list_lookup] in Hj.
      { injection Hj as <-. left. by apply Hnp. }
      destruct (Hord j y Hj x Hx) as [[->%elem_of_singleton|?]%elem_of_union|(i & ? & ?)].
      * right. exists 0. split; [lia|done].
      * by left.
      * right. exists (S i). split; [lia|done].
    + intros m Hm Hpm. cbn [list_to_set] in *.
      replace (E ∪ ({[n]} ∪ list_to_set out)) with ({[n]} ∪ E ∪ list_to_set out) in *
        by (clear -n; set_solver).
      by apply Hfull.
Qed.
End kahn.

(** ** The initial maps *)

Lemma foldl_stack_edge ms (edges : list OrderingEdge) succ deg :
  (forall n, n ∈ ms -> exists s : gset Z, degree deg n = size s /\
      (forall x, x ∈ s <-> n ∈ neighbours succ x)) ->
  let p := foldl (stack_edge ms) (succ, deg) edges in
  (forall x y, y ∈ neighbours p.1 x <->
     y ∈ neighbours succ x \/ (x ∈ ms /\ y ∈ ms /\ ord_rel edges x y)) /\
  (forall n, n ∈ ms -> exists s : gset Z, degree p.2 n = size s /\
      (forall x, x ∈ s <-> n ∈ neighbours p.1 x)).
Proof.
  revert succ deg. induction edges as [|e edges IH]; intros succ deg Hdeg; cbn [foldl].
  { split; [|exact Hdeg]. intros x y. unfold ord_rel. cbn [fst]. set_solver. }
  assert (Hcons : forall x y, ord_rel (e :: edges) x y <->
    (before e = x /\ after e = y) \/ ord_rel edges x y).
  { intros x y. unfold ord_rel. set_solver. }
  setoid_rewrite Hcons. unfold stack_edge at 2 4 6.
  destruct (decide (before e ∈ ms /\ after e ∈ ms)) as [[Hb Ha]|Hn].
  - destruct (IH (entry_insert (before e) (after e) succ)
      (if decide (after e ∈ neighbours succ (before e)) then deg
       else <[after e := S (default 0 (deg !! after e))]> deg)) as [H1 H2].
    + intros n Hn. destruct (Hdeg n Hn) as (s & Hs & Hx).
      setoid_rewrite elem_of_neighbours_entry_insert. case_decide as Hin.
      * exists s. split; [done|]. intros x. rewrite Hx. naive_solver.
      * rewrite degree_insert. case_decide as Hne.
        { subst n. exists ({[before e]} ∪ s). split.
          - rewrite size_union by (rewrite <-Hx in Hin; set_solver).
            rewrite size_singleton. unfold degree in Hs. lia.
          - intros x. rewrite elem_of_union, elem_of_singleton, Hx. naive_solver. }
        { exists s. split; [done|]. intros x. rewrite Hx. naive_solver. }
    + split; [|exact H2]. intros x y. rewrite H1, elem_of_neighbours_entry_insert. naive_solver.
  - destruct (IH succ deg Hdeg) as [H1 H2]. split; [|exact H2].
    intros x y. rewrite H1. naive_solver.
Qed.

(** ** [stack_order] *)

Section stack_order.
Context (ms : list Z) (by_number : gmap Z PrNode) (edges : list OrderingEdge).
#[local] Notation M := (list_to_set ms : gset Z).
#[local] Notation succ :=
  (foldl (stack_edge M) (empty_entries M, gset_to_gmap 0 M) edges).1.
#[local] Notation deg :=
  (foldl (stack_edge M) (empty_entries M, gset_to_gmap 0 M) edges).2.
#[local] Notation preds := (predecessor_map M edges).
#[local] Notation initial := (sort_by_rank by_number
  (List.filter (fun n => bool_decide (default 0 (deg !! n) = 0)) (btree_elems M))).
#[local] Notation ordered := (stack_loop (size M) by_number succ initial deg).

Lemma stack_maps :
  (forall x y, y ∈ neighbours succ x <-> x ∈ neighbours preds y) /\
  (forall n, n ∈ M -> degree deg n = size (neighbours preds n)).
Proof.
  destruct (foldl_stack_edge M edges (empty_entries M) (gset_to_gmap 0 M)) as [H1 H2].
  { intros n Hn. exists ∅. unfold degree. split.
    - rewrite lookup_gset_to_gmap, option_guard_True by done. done.
    - intros x. rewrite neighbours_empty_entries. done. }
  assert (Hd : forall x y, y ∈ neighbours succ x <-> x ∈ neighbours preds y).
  { intros x y. rewrite H1, neighbours_empty_entries, elem_of_predecessor_map. set_solver. }
  split; [exact Hd|]. intros n Hn. destruct (H2 n Hn) as (s & -> & Hs). f_equal.
  apply set_eq. intros x. by rewrite Hs, Hd.
Qed.

Lemma stack_initial : kahn_inv preds M ∅ initial deg.
Proof.
  destruct stack_maps as [_ Hdeg]. constructor.
  - unfold sort_by_rank. rewrite sort_by_key_NoDup.
    apply NoDup_ListNoDup, List.NoDup_filter, NoDup_ListNoDup, btree_elems_NoDup.
  - intros n. unfold sort_by_rank.
    rewrite elem_of_sort_by_key, elem_of_filter_b, elem_of_btree_elems, bool_decide_eq_true.
    enough (n ∈ M -> default 0 (deg !! n) = 0 <-> neighbours preds n ⊆ ∅) by set_solver.
    intros Hn. specialize (Hdeg n Hn). unfold degree in Hdeg. rewrite Hdeg, size_empty_iff.
    set_solver.
  - intros n Hn. rewrite Hdeg by done. by rewrite difference_empty_L.
  - set_solver.
Qed.

Lemma ordered_spec :
  NoDup ordered /\ (forall x, x ∈ ordered -> x ∈ M) /\
  (forall j y, ordered !! j = Some y -> forall x, x ∈ ms -> y ∈ ms -> ord_rel edges x y ->
     exists i, i < j /\ ordered !! i = Some x) /\
  (forall n, n ∈ M -> (forall x, x ∈ M -> ord_rel edges x n -> x ∈ ordered) -> n ∈ ordered).
Proof.
  destruct stack_maps as [Hd _].
  destruct (stack_loop_spec by_number succ preds M Hd) with (fuel := size M) (E := ∅ : gset Z)
    (ready := initial) (indegree := deg) as (H1 & H2 & H3 & H4).
  - intros x y. rewrite elem_of_predecessor_map. tauto.
  - by rewrite difference_empty_L.
  - apply stack_initial.
  - split_and!; [exact H1|intros x Hx; by apply H2 in Hx as [? _]| |].
    + intros j y Hj x Hx Hy He. destruct (H3 j y Hj x) as [?|?]; [|set_solver|done].
      apply elem_of_predecessor_map. rewrite !elem_of_list_to_set. done.
    + intros n Hn Hall.
      apply (elem_of_list_to_set (C := gset Z)). rewrite <-(union_empty_l_L (list_to_set _)).
      apply H4; [done|]. intros x (Hx & _ & He)%elem_of_predecessor_map.
      apply elem_of_union_r, elem_of_list_to_set. by apply Hall.
Qed.

Lemma stack_order_eq :
  stack_order ms by_number edges =
  if decide (length ordered < size M)
  then ordered ++ sort_by_rank by_number (btree_elems (M ∖ list_to_set ordered)) else ordered.
Proof. unfold stack_order. by destruct (foldl _ _ edges). Qed.

Lemma ordered_list_sub : list_to_set ordered ⊆ M.
Proof. intros x Hx%elem_of_list_to_set. by apply ordered_spec. Qed.

Lemma stack_order_perm : stack_order ms by_number edges ≡ₚ elements M.
Proof.
  rewrite stack_order_eq. destruct ordered_spec as (Hnd & _).
  rewrite (elements_split M (list_to_set ordered)) by apply ordered_list_sub.
  rewrite elements_list_to_set by done. case_decide as Hlen.
  - apply Permutation_app_head. unfold sort_by_rank, btree_elems.
    etrans; apply sort_by_key_perm.
  - replace (M ∖ list_to_set ordered) with (∅ : gset Z).
    { by rewrite elements_empty, app_nil_r. }
    symmetry. apply leibniz_equiv, size_empty_iff.
    rewrite size_difference by apply ordered_list_sub.
    rewrite (size_list_to_set ordered) by done. lia.
Qed.

(** Edges between members go up in [rk]. *)
Definition ranked_inside (rk : Z -> nat) : Prop :=
  forall x y, x ∈ ms -> y ∈ ms -> ord_rel edges x y -> rk x < rk y.

Lemma ordered_complete rk n : ranked_inside rk -> n ∈ ms -> n ∈ ordered.
Proof.
  intros Hrk. destruct ordered_spec as (_ & _ & _ & Hfull).
  induction n as [n IH] using (induction_ltof1 _ rk). intros Hn.
  apply Hfull; [by apply elem_of_list_to_set|].
  intros x Hx%elem_of_list_to_set He. apply IH; [by apply Hrk|done].
Qed.

Lemma stack_order_respects rk j y x :
  ranked_inside rk -> stack_order ms by_number edges !! j = Some y ->
  x ∈ ms -> ord_rel edges x y ->
  exists i, i < j /\ stack_order ms by_number edges !! i = Some x.
Proof.
  intros Hrk Hj Hx He. destruct ordered_spec as (Hnd & Hsub & Hord & _).
  assert (Hy : y ∈ ms).
  { apply (elem_of_list_to_set (C := gset Z)), elem_of_elements.
    rewrite <-stack_order_perm. by apply list_elem_of_lookup_2 in Hj. }
  rewrite stack_order_eq in *. rewrite decide_False in * by
    (apply Nat.nlt_ge; rewrite <-(size_list_to_set (C := gset Z) ordered) by done;
     apply subseteq_size; intros z Hz; apply elem_of_list_to_set;
     eapply ordered_complete; [done|by apply elem_of_list_to_set in Hz]).
  by apply (Hord j y).
Qed.
End stack_order.
