(* ===== verification/PlannerChecks.v ===== *)
(** * pr-landing-planner: facts about the check rollup

    [classify_state] as a quantified statement, the invariant of the selection
    loop of [select_latest_checks], and the branches of [classify_pr]. *)
From S2P Require Import Prelude RustStr External PlannerModel PlannerClassify.

(** ** [classify_state] *)

Lemma classify_state_loop_spec saw checks :
  classify_state_loop saw checks =
  if existsb (is_state Failed) checks then Failed
  else if saw || existsb (is_state NoResult) checks then NoResult else Passed.
Proof.
  revert saw. induction checks as [|c checks IH]; intros saw; simpl.
  { by rewrite orb_false_r. }
  unfold is_state at 1 3. destruct (check_state c) eqn:Hc; rewrite ?IH; simpl; try done.
  by rewrite orb_true_r.
Qed.

Lemma classify_state_failed checks :
  classify_state checks = Failed <-> exists c, c ∈ checks /\ check_state c = Failed.
Proof.
  assert (Hloop : classify_state checks = Failed <-> existsb (is_state Failed) checks = true).
  { destruct checks as [|c checks]; [done|]. unfold classify_state.
    rewrite classify_state_loop_spec. by repeat case_match. }
  rewrite Hloop, existsb_elem. unfold is_state. by setoid_rewrite bool_decide_eq_true.
Qed.

Lemma classify_state_passed checks :
  classify_state checks = Passed <->
  checks <> [] /\ forall c, c ∈ checks -> check_state c = Passed.
Proof.
  destruct checks as [|c0 checks]; [naive_solver|]. unfold classify_state.
  rewrite classify_state_loop_spec, orb_false_l.
  destruct (existsb (is_state Failed) _) eqn:Hf; [|destruct (existsb (is_state NoResult) _) eqn:Hn].
  - apply existsb_elem in Hf as (c & Hc & Hs). unfold is_state in Hs. b2p.
    split; [done|]. intros [_ Hall]. rewrite (Hall c Hc) in Hs. done.
  - apply existsb_elem in Hn as (c & Hc & Hs). unfold is_state in Hs. b2p.
    split; [done|]. intros [_ Hall]. rewrite (Hall c Hc) in Hs. done.
  - split; [intros _; split; [done|]|done]. intros c Hc.
    rewrite existsb_false in Hf, Hn. specialize (Hf c Hc). specialize (Hn c Hc).
    unfold is_state in Hf, Hn. b2p. by destruct (check_state c).
Qed.

(** ** Selection of one attempt per context *)

Section select.
Context `{JsonNumber, RegexCrate}.

(** What an entry contributes: its key and the record the loop would insert. *)
Definition candidate (head_sha : string) (p : nat * value) : option (string * SelectedCheck) :=
  obj ← as_object p.2;
  if head_matches obj head_sha
  then Some (context_key (check_context obj) p.1,
             {| recency := recency_key obj; sel_index := p.1; sel_check := obj |})
  else None.

Definition candidates (head_sha : string) (entries : list value)
  : list (string * SelectedCheck) :=
  omap (candidate head_sha) (imap (fun i v => (i, v)) entries).

(** The value the loop leaves at the candidate's key. *)
Definition merge (prev : option SelectedCheck) (c : SelectedCheck) : SelectedCheck :=
  match prev with
  | None => c
  | Some p =>
      if decide (recency c = recency p) then
        if decide (outcome_identity (sel_check p) = outcome_identity (sel_check c)) then
          if decide (sel_index p < sel_index c) then c else p
        else {| recency := recency c; sel_index := Nat.max (sel_index p) (sel_index c);
                sel_check := ambiguous_check (check_context (sel_check c)) |}
      else if decide (rle (recency p) (recency c)) then c else p
  end.

Definition select_candidate (acc : gmap string SelectedCheck * list string)
    (kc : string * SelectedCheck) : gmap string SelectedCheck * list string :=
  (<[kc.1 := merge (acc.1 !! kc.1) kc.2]> acc.1,
   match acc.1 !! kc.1 with None => acc.2 ++ [kc.1] | Some _ => acc.2 end).

Lemma select_entry_candidate head_sha acc p :
  select_entry head_sha acc p =
  match candidate head_sha p with Some kc => select_candidate acc kc | None => acc end.
Proof.
  destruct acc as [latest order], p as [index entry].
  unfold select_entry, candidate, select_candidate, merge. cbn [fst snd].
  destruct (as_object entry) as [obj|]; [|done]. cbn [mbind option_bind].
  destruct (head_matches obj head_sha); [|done]. cbn [negb fst snd].
  set (key := context_key (check_context obj) index). cbn [recency sel_index sel_check].
  destruct (latest !! key) as [prev|] eqn:Hl; [|done].
  repeat case_decide; try done; by rewrite insert_id.
Qed.

Lemma select_fold head_sha entries acc :
  foldl (select_entry head_sha) acc (imap (fun i v => (i, v)) entries)
  = foldl select_candidate acc (candidates head_sha entries).
Proof.
  unfold candidates. generalize (imap (fun i v => (i, v)) entries) as l.
  intros l. revert acc. induction l as [|p l IH]; intros acc; [done|].
  cbn [foldl]. rewrite IH, select_entry_candidate.
  rewrite omap_cons.
  by destruct (candidate head_sha p).
Qed.

(** *** The state of one key *)

Definition of_key (k : string) (cs : list (string * SelectedCheck)) : list SelectedCheck :=
  (List.filter (fun kc => (kc.1 =? k)%string) cs).*2.

Lemma of_key_snoc k cs kc :
  of_key k (cs ++ [kc]) = of_key k cs ++ (if (kc.1 =? k)%string then [kc.2] else []).
Proof.
  unfold of_key. rewrite List.filter_app, fmap_app. f_equal. simpl.
  by destruct (kc.1 =? k)%string.
Qed.

Definition merged (cs : list SelectedCheck) : option SelectedCheck :=
  foldl (fun prev c => Some (merge prev c)) None cs.

Lemma select_candidates_lookup cs k :
  (foldl select_candidate (∅, []) cs).1 !! k = merged (of_key k cs).
Proof.
  induction cs as [|kc cs IH] using rev_ind; [done|].
  rewrite of_key_snoc, foldl_app. cbn [foldl]. unfold select_candidate at 1. cbn [fst].
  unfold merged. rewrite foldl_app. fold (merged (of_key k cs)).
  destruct (String.eqb_spec kc.1 k) as [<-|Hne]; cbn [foldl].
  - rewrite lookup_insert_eq. by rewrite IH.
  - by rewrite lookup_insert_ne.
Qed.

(** The keys, each at its first occurrence. *)
Definition first_keys (ks : list string) : list string := rev (remove_dups (rev ks)).

Lemma merged_is_Some k cs : is_Some (merged (of_key k cs)) <-> k ∈ cs.*1.
Proof.
  induction cs as [|kc cs IH] using rev_ind; [simpl; split; [by intros []|set_solver]|].
  rewrite of_key_snoc, fmap_app, elem_of_app. unfold merged. rewrite foldl_app.
  fold (merged (of_key k cs)). rewrite <-IH. cbn.
  destruct (String.eqb_spec kc.1 k) as [<-|Hne]; simpl.
  - split; [|done]. intros _. right. set_solver.
  - set_solver.
Qed.

Lemma select_candidates_order cs :
  (foldl select_candidate (∅, []) cs).2 = first_keys cs.*1.
Proof.
  induction cs as [|kc cs IH] using rev_ind; [done|].
  rewrite foldl_app. cbn [foldl]. unfold select_candidate at 1. cbn [snd].
  rewrite select_candidates_lookup, IH. unfold first_keys.
  rewrite fmap_app, rev_app_distr. cbn [fmap list_fmap rev app remove_dups].
  pose proof (merged_is_Some kc.1 cs) as Hs. case_decide as Hk.
  - rewrite elem_of_rev in Hk.
    apply Hs in Hk as [s ->]. done.
  - rewrite elem_of_rev in Hk.
    destruct (merged (of_key kc.1 cs)) as [s|]; [|done]. destruct Hk. apply Hs. eauto.
Qed.

Lemma drain_selected_spec order latest :
  NoDup order -> drain_selected order latest = omap (fun k => sel_check <$> latest !! k) order.
Proof.
  revert latest. induction order as [|k order IH]; intros latest; [done|].
  intros [Hk Hnd]%NoDup_cons. cbn [drain_selected].
  rewrite omap_cons.
  destruct (latest !! k) as [s|]; cbn; [|by apply IH]. f_equal. rewrite IH by done.
  apply list_omap_ext, Forall_Forall2_diag, list.Forall_forall. intros x Hx.
  rewrite lookup_delete_ne; [done|]. by intros ->.
Qed.

(** *** What is selected for one key *)

Definition index_lt (c d : SelectedCheck) : Prop := sel_index c < sel_index d.
Definition ambiguous_outcome : string * string := ("AMBIGUOUS", "").
Definition outcome (c : SelectedCheck) : string * string := outcome_identity (sel_check c).

(** The latest attempt when the newest ones agree, an ambiguous record otherwise. *)
Definition chosen (cs : list SelectedCheck) (s : SelectedCheck) : Prop :=
  (forall d, d ∈ cs -> rle (recency d) (recency s)) /\
  (exists d, d ∈ cs /\ recency d = recency s) /\
  ((s ∈ cs /\ forall d, d ∈ cs -> recency d = recency s ->
      outcome d = outcome s /\ sel_index d <= sel_index s)
   \/ (outcome s = ambiguous_outcome /\
       exists d e, d ∈ cs /\ e ∈ cs /\ recency d = recency s /\ recency e = recency s
                   /\ outcome d <> outcome e)).

Lemma outcome_ambiguous context : outcome_identity (ambiguous_check context) = ambiguous_outcome.
Proof. reflexivity. Qed.

Lemma merge_first c : chosen [c] c.
Proof.
  split_and!; [|exists c; set_solver|left; split; [set_solver|]];
    by intros d ->%list_elem_of_singleton.
Qed.

Lemma merge_chosen cs s c :
  cs <> [] -> chosen cs s -> (forall d, d ∈ cs -> sel_index d < sel_index c) ->
  sel_index s < sel_index c -> chosen (cs ++ [c]) (merge (Some s) c).
Proof.
  intros Hne (Hmax & (d0 & Hd0 & Hr0) & Hcase) Hidx Hlt. unfold merge, chosen.
  setoid_rewrite elem_of_app. setoid_rewrite list_elem_of_singleton.
  destruct (decide (recency c = recency s)) as [Hr|Hr].
  - fold (outcome s) (outcome c). destruct (decide (outcome s = outcome c)) as [Ho|Ho].
    + rewrite decide_True by done. rewrite Hr. split_and!.
      * intros d [Hd| ->]; [by apply Hmax|by rewrite Hr].
      * exists c. auto.
      * destruct Hcase as [[Hs Hall]|(Hamb & d & e & Hd & He & ? & ? & ?)].
        { left. split; [by right|]. intros d [Hd| ->] Hrd; [|done].
          destruct (Hall d Hd Hrd) as [Hod _]. specialize (Hidx d Hd).
          split; [congruence|lia]. }
        { right. split; [congruence|]. exists d, e. auto. }
    + cbn [recency sel_check]. rewrite Hr. split_and!.
      * intros d [Hd| ->]; [by apply Hmax|by rewrite Hr].
      * exists c. auto.
      * right. split; [apply outcome_ambiguous|].
        destruct Hcase as [[Hs Hall]|(_ & d & e & ? & ? & ? & ? & ?)].
        { exists s, c. auto. }
        { exists d, e. auto 10. }
  - destruct (decide (rle (recency s) (recency c))) as [Hle|Hle].
    + split_and!.
      * intros d [Hd| ->]; [|done]. etrans; [by apply Hmax|done].
      * exists c. auto.
      * left. split; [by right|]. intros d [Hd| ->] Hrd; [|done]. destruct Hr.
        apply (anti_symm rle); [|done]. rewrite <-Hrd. by apply Hmax.
    + assert (Hcs : rle (recency c) (recency s)) by (by destruct (total rle (recency c) (recency s))).
      split_and!.
      * intros d [Hd| ->]; [by apply Hmax|done].
      * exists d0. auto.
      * destruct Hcase as [[Hs Hall]|(Hamb & d & e & ? & ? & ? & ? & ?)].
        { left. split; [by left|]. intros d [Hd| ->] Hrd; [by apply Hall|done]. }
        { right. split; [done|]. exists d, e. auto 10. }
Qed.

Lemma merge_index s c : sel_index s < sel_index c -> sel_index (merge (Some s) c) <= sel_index c.
Proof. intros Hlt. unfold merge. repeat case_decide; cbn [sel_index]; lia. Qed.

Lemma merged_chosen cs :
  StronglySorted index_lt cs ->
  match merged cs with
  | None => cs = []
  | Some s => chosen cs s /\ exists d, last cs = Some d /\ sel_index s <= sel_index d
  end.
Proof.
  induction cs as [|c cs IH] using rev_ind; [done|].
  intros Hs. apply StronglySorted_app in Hs as (Hlt & Hcs & _).
  unfold merged in *. rewrite foldl_app. cbn [foldl]. specialize (IH Hcs).
  destruct (foldl _ None cs) as [s|].
  - destruct IH as [Hch (d & Hd & Hle)].
    assert (Hcsn : cs <> []) by (by intros ->).
    assert (Hidx : forall d, d ∈ cs -> sel_index d < sel_index c).
    { intros x Hx. by apply (Hlt x c Hx), list_elem_of_singleton. }
    assert (Hsc : sel_index s < sel_index c).
    { apply last_Some_elem_of in Hd. specialize (Hidx d Hd). lia. }
    split; [by apply merge_chosen|]. exists c. rewrite last_snoc. split; [done|].
    by apply merge_index.
  - subst cs. split; [apply merge_first|]. by exists c.
Qed.

(** *** The candidates come in the order of the rollup *)

Lemma imap_pair_sorted {A} (l : list A) n :
  StronglySorted (fun p q : nat * A => p.1 < q.1) (imap (fun i v => (n + i, v)) l) /\
  Forall (fun p => n <= p.1) (imap (fun i v => (n + i, v)) l).
Proof.
  revert n. induction l as [|v l IH]; intros n; [split; constructor|].
  rewrite imap_cons.
  rewrite (imap_ext _ (fun i v => (S n + i, v)) l) by (intros; simpl; f_equal; lia).
  destruct (IH (S n)) as [Hs Hf]. split.
  - constructor; [done|]. eapply Forall_impl; [exact Hf|]. simpl. lia.
  - constructor; [simpl; lia|]. eapply Forall_impl; [exact Hf|]. simpl. lia.
Qed.

Lemma candidates_sorted head_sha entries :
  StronglySorted (fun a b => index_lt a.2 b.2) (candidates head_sha entries).
Proof.
  unfold candidates.
  assert (Hs : StronglySorted (fun p q : nat * value => p.1 < q.1)
                 (imap (fun i v => (i, v)) entries)) by apply (imap_pair_sorted entries 0).
  assert (Hidx : forall p kc, candidate head_sha p = Some kc -> sel_index kc.2 = p.1).
  { intros [i v] kc. unfold candidate. cbn [fst snd]. destruct (as_object v) as [obj|]; [|done].
    cbn [mbind option_bind]. destruct (head_matches obj head_sha); [|done]. by intros [= <-]. }
  induction Hs as [|p l Hs IH Hp]; [constructor|].
  rewrite omap_cons.
  destruct (candidate head_sha p) as [kc|] eqn:Hkc; [|done]. constructor; [done|].
  apply list.Forall_forall. intros kd (q & Hq & Hkd)%list_elem_of_omap.
  unfold index_lt. rewrite (Hidx _ _ Hkc), (Hidx _ _ Hkd).
  by apply (proj1 (list.Forall_forall _ _) Hp).
Qed.

Lemma of_key_sorted k head_sha entries :
  StronglySorted index_lt (of_key k (candidates head_sha entries)).
Proof.
  unfold of_key. apply (StronglySorted_fmap snd (fun a b => index_lt a.2 b.2)); [done|].
  generalize (candidates_sorted head_sha entries).
  induction 1 as [|kc l Hs IH Hf]; simpl; [constructor|].
  destruct (kc.1 =? k)%string; [|done]. constructor; [done|].
  apply list.Forall_forall. intros x [Hx _]%elem_of_filter_b.
  by apply (proj1 (list.Forall_forall _ _) Hf).
Qed.

Lemma first_keys_elem ks k : k ∈ first_keys ks <-> k ∈ ks.
Proof.
  unfold first_keys.
  by rewrite elem_of_rev, elem_of_remove_dups,
    elem_of_rev.
Qed.

Lemma first_keys_NoDup ks : NoDup (first_keys ks).
Proof. unfold first_keys. apply NoDup_ListNoDup, NoDup_rev, NoDup_ListNoDup, NoDup_remove_dups. Qed.

Lemma select_latest_chosen raw head_sha entries :
  rollup_entries raw = Some entries ->
  let cs := candidates head_sha entries in
  Forall2 (fun k o => exists s, o = sel_check s /\ chosen (of_key k cs) s)
    (first_keys cs.*1) (select_latest_checks raw head_sha).
Proof.
  intros Hraw cs. unfold select_latest_checks. rewrite Hraw, select_fold. fold cs.
  pose proof (select_candidates_order cs) as Ho.
  pose proof (select_candidates_lookup cs) as Hl.
  destruct (foldl select_candidate (∅, []) cs) as [latest order]. cbn [fst snd] in Ho, Hl.
  subst order. rewrite drain_selected_spec by apply first_keys_NoDup.
  assert (Hin : forall k, k ∈ first_keys cs.*1 -> k ∈ cs.*1) by (intros k; apply first_keys_elem).
  induction (first_keys cs.*1) as [|k ks IH]; [constructor|].
  rewrite omap_cons.
  rewrite Hl. destruct (proj2 (merged_is_Some k cs)) as [s Hs]; [apply Hin; set_solver|].
  rewrite Hs. cbn. constructor.
  - exists s. split; [done|]. pose proof (merged_chosen _ (of_key_sorted k head_sha entries)) as Hc.
    fold cs in Hc. rewrite Hs in Hc. tauto.
  - apply IH. intros x Hx. apply Hin. set_solver.
Qed.
End select.

(** ** [classify_pr] *)

Section verdicts.
Context `{RegexCrate}.

Lemma classify_pr_raw checks cfg : raw_state (classify_pr checks cfg) = classify_state checks.
Proof. unfold classify_pr. by repeat case_match. Qed.

Lemma classify_pr_no_red checks cfg :
  red_class (classify_pr checks cfg) = None <-> classify_state checks <> Failed.
Proof.
  unfold classify_pr. destruct (bool_decide_reflect (classify_state checks = Failed)) as [Hf|Hf];
    cbn [negb]; [|done]. by repeat case_match.
Qed.

Lemma classify_pr_gate checks cfg :
  gate_present (classify_pr checks cfg) = existsb (is_gate cfg) checks.
Proof.
  assert (Hp : gate_present (classify_pr checks cfg)
    = match List.find (is_gate cfg) checks with Some _ => true | None => false end).
  { unfold classify_pr. by repeat case_match. }
  rewrite Hp. clear Hp. induction checks as [|c checks IH]; [done|]. simpl.
  by destruct (is_gate cfg c).
Qed.

Lemma classify_pr_gate_ok checks cfg :
  gate_ok (classify_pr checks cfg)
  = match List.find (is_gate cfg) checks with Some c => is_state Passed c | None => false end.
Proof. unfold classify_pr. by repeat case_match. Qed.
End verdicts.
