(* ===== verification/PlannerProps.v ===== *)
(** * pr-landing-planner: the theorems

    What the planner promises, stated of the translated definitions: who may land
    now, the batch, the holds, the ordering graph and its layers, and the CI
    verdicts they rest on.  The proofs apply the facts files. *)
From S2P Require Import Prelude RustStr External Worklist PlannerModel PlannerClassify PlannerGraph PlannerPlan PlannerHolds PlannerLayers PlannerLand PlannerStackOrder PlannerChecks.

(** ** A small repository to evaluate the definitions on *)

(** A pull request whose gate passed. *)
Definition green (n : Z) : PrNode := {|
  PlannerModel.number := n; head_ref := "head-" +:+ pretty n; base_ref := "main";
  head_sha := "sha"; base_sha := "base"; title := ""; author := "";
  is_draft := false; mergeable := "MERGEABLE"; review_decision := "APPROVED";
  review_evidence_unavailable := false; created_at := ""; updated_at := "";
  additions := n; deletions := 0; labels := []; mechanism_symbols := []; files := {["src/a.rs"]};
  base_conflict_paths := []; commits_behind := 0;
  ci := {| raw_state := Passed; red_class := None; gate_present := true; gate_ok := true;
           gate_missing_run := false; ci_detail := "passed" |};
  priority := 100; assigned_agent := ""; validation_evidence := AuthoritativeCi;
  validation_authority := AuthorityNone; review_pass_heads := ∅; review_evidence_digest := "";
  review_objections_resolved := false; policy_class := Unclassified |}.

Definition ord (a b : Z) : OrderingEdge := {| before := a; after := b; reason := "base-ref" |}.
Definition conflict (a b : Z) : ConflictEdge := {| ce_a := a; ce_b := b; ce_paths := ["src/a.rs"] |}.

(** 1 before 2 before 3, with the shortcut 1 before 3; 3 and 4 touch the same file. *)
Definition demo : CollectedGraph := {|
  repository := "r"; base := "main"; nodes := [green 4; green 1; green 2; green 3];
  conflict_edges := [conflict 3 4]; overlap_edges := []; ordering_edges := [ord 1 2; ord 2 3; ord 1 3];
  mechanism_edges := []; unclassified_mechanisms := [] |}.

(** ** Who lands *)

(** C1: A pull request is in [land_now] exactly when it and every pull request it
    is ordered after, through any number of edges, is a collected node that is no
    gate-policy change, has no reason of its own to be held, and carries landable
    evidence (clean validation with authority, or an authoritative green gate) on
    a fresh enough base. *)
Theorem land_now_exact (g : CollectedGraph) fresh outage batch pr :
  NoDup (PlannerModel.number <$> nodes g) ->
  pr ∈ land_now (res_plan (assemble_result g fresh outage batch)) <->
  forall x, rtc (ord_rel (ordering_edges g)) x pr ->
    exists node, node ∈ nodes g /\ PlannerModel.number node = x
      /\ policy_class node <> GatePolicy
      /\ node_reasons (cycle_nodes (ordering_edges g)) node = []
      /\ ci_landable fresh node.
Proof.
  intros Hnd. unfold assemble_result, compute_plan. cbn zeta iota beta.
  cbn [res_plan land_now]. rewrite elem_of_land, final_land by done. split.
  - intros Hall x Hx. destruct (Hall x Hx) as (node & Hn & Hnum & Hp & Hh & Hc).
    exists node. split_and!; [done|done|done| |done].
    rewrite held_dom, not_held in Hh. by apply Hh.
  - intros Hall x Hx. destruct (Hall x Hx) as (node & Hn & Hnum & Hp & Hh & Hc).
    exists node. split_and!; [done|done|]. split_and!; [done| |done].
    rewrite held_dom, not_held. intros m Hm Hr. rewrite Hnum in Hr.
    destruct (Hall (PlannerModel.number m)) as (m' & Hm' & Heq & _ & Hr' & _); [by etrans|].
    by rewrite (NoDup_fmap_elem_inj PlannerModel.number (nodes g) m m').
Qed.

Lemma land_now_exact_witness :
  NoDup (PlannerModel.number <$> nodes demo) /\
  (3%Z ∈ land_now (res_plan (assemble_result demo None 2 true)) <->
   forall x, rtc (ord_rel (ordering_edges demo)) x 3%Z ->
    exists node, node ∈ nodes demo /\ PlannerModel.number node = x
      /\ policy_class node <> GatePolicy
      /\ node_reasons (cycle_nodes (ordering_edges demo)) node = []
      /\ ci_landable None node).
Proof. split; [by_eval|]. apply land_now_exact. by_eval. Defined.

(** C2: Every pull request gets exactly one decision, in ascending order of its
    number; and a decision that lands, now or after a rebase, has only
    predecessors whose decision is [LandNow], so the demotion loop has run to its
    end. *)
Theorem decisions_settled ns ces oes held fresh outage batch :
  NoDup (PlannerModel.number <$> ns) ->
  let ds := per_pr_actions (compute_plan ns ces oes held fresh outage batch).1 in
  dec_pr <$> ds ≡ₚ PlannerModel.number <$> ns /\ StronglySorted Z.le (dec_pr <$> ds) /\
  forall d e, d ∈ ds -> landing (dec_action d) = true -> e ∈ oes -> after e = dec_pr d ->
    exists b, b ∈ ds /\ dec_pr b = before e /\ dec_action b = LandNow.
Proof.
  intros Hnd ds. unfold ds, compute_plan. cbn [fst per_pr_actions].
  set (hs := map_collect _). set (gs := partition_parallel_safe _ _ _ _).
  destruct (final_spec ns oes hs gs fresh Hnd) as (Hf & Hs & Hd).
  assert (Heq : dec_pr <$> final_decisions ns oes hs gs fresh
              = dec_pr <$> initial_decisions ns hs gs fresh).
  { symmetry. by apply demoted_prs. }
  rewrite Heq. split_and!.
  - by apply initial_prs.
  - apply initial_sorted.
  - intros d e Hin Hl He Ha. specialize (Hs d Hin Hl). rewrite find_blocker_None in Hs.
    apply actions_inv, Hs; [by rewrite elem_of_sort_by_key|done].
Qed.

Lemma decisions_settled_witness :
  let ds := per_pr_actions (compute_plan (nodes demo) [] (ordering_edges demo) [] None 2 true).1 in
  dec_pr <$> ds ≡ₚ PlannerModel.number <$> nodes demo /\ StronglySorted Z.le (dec_pr <$> ds) /\
  forall d e, d ∈ ds -> landing (dec_action d) = true -> e ∈ ordering_edges demo ->
    after e = dec_pr d -> exists b, b ∈ ds /\ dec_pr b = before e /\ dec_action b = LandNow.
Proof. apply decisions_settled. by_eval. Defined.

(** C3: The batch is a set of pull requests that land now, none of them ordered
    after another pull request and no two of them in conflict, and it is maximal:
    an unordered pull request that lands now and is left out conflicts with a
    member. *)
Theorem batch_maximal_independent ns ces oes held fresh outage :
  let plan := (compute_plan ns ces oes held fresh outage true).1 in
  let conflicting x y := exists e, e ∈ ces /\
    ((ce_a e = x /\ ce_b e = y) \/ (ce_a e = y /\ ce_b e = x)) in
  (forall x, x ∈ plan_batch plan -> x ∈ land_now plan /\ forall e, e ∈ oes -> after e <> x) /\
  (forall x y, x ∈ plan_batch plan -> y ∈ plan_batch plan -> x <> y -> ~ conflicting x y) /\
  (forall x, x ∈ land_now plan -> (forall e, e ∈ oes -> after e <> x) -> x ∉ plan_batch plan ->
     exists y, y ∈ plan_batch plan /\ conflicting x y).
Proof.
  intros plan conflicting. subst plan. unfold compute_plan. cbn [fst plan_batch land_now].
  set (land := dec_pr <$> _). set (picked := batch_of ns ces oes land).
  assert (Hb : match land with [] => [] | _ :: _ => picked end = picked).
  { subst picked. by destruct land. }
  rewrite Hb. clear Hb. subst picked. clearbody land. unfold batch_of, greedy_conflict_free.
  set (cands := List.filter _ land).
  assert (Hc : forall n, n ∈ sort_by_rank (nodes_by_number ns) cands <->
    n ∈ land /\ forall e, e ∈ oes -> after e <> n).
  { intros n. unfold sort_by_rank, cands. by rewrite elem_of_sort_by_key, elem_of_batch_candidates. }
  assert (Hsym : forall x y, y ∈ neighbours (all_conflicts ces) x <-> conflicting x y)
    by (intros; apply elem_of_all_conflicts).
  split_and!.
  - intros x [Hx|Hx]%pick_sub; [set_solver|]. by apply Hc.
  - intros x y Hx Hy Hne. rewrite <-Hsym. revert x y Hx Hy Hne.
    apply pick_independent; [|intros ?; set_solver].
    intros x y. rewrite !Hsym. unfold conflicting. naive_solver.
  - intros x Hx Hu Hout. setoid_rewrite <-Hsym. apply pick_maximal; [by apply Hc|done].
Qed.

(** ** Holds *)

(** C4: [held_reasons] is the least set that contains every node with a reason of
    its own and is closed under the ordering edges: a number is held exactly when
    it is reachable from such a node.  A number with reasons of its own is held for
    exactly these (the reasons are listed in [own_reason]); any other held number has
    one reason, and that names a held predecessor.  Numbers come out once, in ascending
    order. *)
Theorem held_reasons_exact ns edges :
  StronglySorted Z.lt (held_pr <$> held_reasons ns edges) /\
  (forall k, k ∈ held_pr <$> held_reasons ns edges <->
     exists node r, node ∈ ns /\ own_reason edges node r
       /\ rtc (ord_rel edges) (PlannerModel.number node) k) /\
  (forall h, h ∈ held_reasons ns edges ->
     (exists node, node ∈ ns /\ PlannerModel.number node = held_pr h
        /\ reasons h <> [] /\ forall r, r ∈ reasons h <-> own_reason edges node r) \/
     ((forall node r, node ∈ ns -> PlannerModel.number node = held_pr h -> ~ own_reason edges node r)
        /\ exists b, ord_rel edges b (held_pr h) /\ b ∈ held_pr <$> held_reasons ns edges
             /\ reasons h = ["depends-on-held:#" +:+ pretty b])).
Proof.
  assert (Hdom : forall k, k ∈ held_pr <$> held_reasons ns edges <->
    k ∈ dom (hold_dependents (length edges) edges (direct_reasons (cycle_nodes edges) ns))).
  { intros k. rewrite <-held_dom, map_collect_dom, elem_of_list_to_set, <-list_fmap_compose.
    done. }
  split_and!.
  - unfold held_reasons. rewrite <-list_fmap_compose. apply btree_keys_lt.
  - intros k. rewrite Hdom, hold_dependents_dom. setoid_rewrite direct_reasons_dom.
    setoid_rewrite has_reason. naive_solver.
  - intros h Hh%elem_of_held_reasons.
    destruct (hold_dependents_new _ _ _ _ _ Hh) as [Hd|(Hd & b & Hb & Hr & x & Hx & Hxb)].
    + left. apply direct_reasons_Some in Hd as (node & Hn & Hnum & Hwhy & Hne). exists node.
      split_and!; [done..|]. intros r. rewrite Hwhy. apply own_reason_exact.
    + right. split.
      * intros node r Hn Hnum Ho. apply Hd, direct_reasons_dom. exists node.
        split_and!; [done..|]. apply has_reason. by exists r.
      * exists b. split_and!; [done| |done]. rewrite Hdom, hold_dependents_dom. eauto.
Qed.

(** A number lies on a dependency cycle exactly when it can be reached from
    itself through at least one ordering edge. *)
Theorem cycle_nodes_exact edges n : n ∈ cycle_nodes edges <-> tc (ord_rel edges) n n.
Proof. apply elem_of_cycle_nodes. Qed.

(** ** Layers *)

(** The nodes the layering places: every number not excluded. *)
Definition placed_numbers (ns : list PrNode) (exclude : gset Z) : gset Z :=
  dom (nodes_by_number
    (List.filter (fun node => negb (bool_decide (PlannerModel.number node ∈ exclude))) ns)).

Lemma elem_of_placed_numbers ns exclude n :
  n ∈ placed_numbers ns exclude <-> n ∈ PlannerModel.number <$> ns /\ n ∉ exclude.
Proof.
  unfold placed_numbers, nodes_by_number.
  rewrite map_collect_dom, <-list_fmap_compose, elem_of_list_to_set, !list_elem_of_fmap.
  setoid_rewrite elem_of_filter_b. setoid_rewrite negb_true_iff.
  setoid_rewrite bool_decide_eq_false. split.
  - intros (y & -> & Hy & Hn). simpl. eauto.
  - intros [(y & -> & Hy) Hn]. exists y. auto.
Qed.

Lemma partition_eq ns ces oes exclude :
  let N := placed_numbers ns exclude in
  exists by_number,
  partition_parallel_safe ns ces oes exclude
  = partition_loop (S (size N)) by_number (conflict_adjacency N ces) (predecessor_map N oes) N ∅.
Proof. by eexists. Qed.

(** C6: The parallel-safe groups partition the numbers that are not excluded, each
    once, into non-empty groups, and no two members of a group conflict; this
    holds for every ordering, cyclic ones included. *)
Theorem partition_sound ns ces oes exclude :
  let groups := partition_parallel_safe ns ces oes exclude in
  concat groups ≡ₚ elements (placed_numbers ns exclude) /\
  (forall n, n ∈ concat groups <-> n ∈ PlannerModel.number <$> ns /\ n ∉ exclude) /\
  forall g, g ∈ groups -> g <> [] /\
    forall x y e, x ∈ g -> y ∈ g -> x <> y -> e ∈ ces -> ~ (ce_a e = x /\ ce_b e = y).
Proof.
  intros groups. subst groups. destruct (partition_eq ns ces oes exclude) as [bn ->].
  assert (Hp : concat (partition_loop (S (size (placed_numbers ns exclude))) bn
      (conflict_adjacency (placed_numbers ns exclude) ces)
      (predecessor_map (placed_numbers ns exclude) oes) (placed_numbers ns exclude) ∅)
    ≡ₚ elements (placed_numbers ns exclude)).
  { apply partition_loop_perm; [apply conflict_adjacency_sym|apply Nat.lt_succ_diag_r]. }
  split_and!; [exact Hp| |].
  - intros n. by rewrite Hp, elem_of_elements, elem_of_placed_numbers.
  - intros g Hg. assert (Hsub : forall x, x ∈ g -> x ∈ placed_numbers ns exclude).
    { intros x Hx. apply elem_of_elements. rewrite <-Hp. apply elem_of_concat. eauto. }
    apply partition_loop_independent in Hg as (Hne & _ & Hind).
    + split; [done|]. intros x y e Hx Hy Hxy He [Ha Hb]. apply (Hind x y Hx Hy Hxy).
      apply elem_of_conflict_adjacency. split_and!; [by apply Hsub|by apply Hsub|eauto].
    + apply conflict_adjacency_sym.
Qed.

(** When the ordering edges are acyclic (they go up in some rank), a pull
    request is placed strictly after all its placed predecessors, and it is
    delayed past a group in which it could have been placed only because it
    conflicts with a member of that group. *)
Theorem partition_layered ns ces oes exclude rk :
  ranked rk oes ->
  let groups := partition_parallel_safe ns ces oes exclude in
  (forall e j g, e ∈ oes -> groups !! j = Some g -> after e ∈ g -> before e ∈ concat groups ->
     exists i h, i < j /\ groups !! i = Some h /\ before e ∈ h) /\
  (forall i j g h y, i < j -> groups !! i = Some g -> groups !! j = Some h -> y ∈ h ->
     (forall e, e ∈ oes -> after e = y -> before e ∈ concat groups ->
        before e ∈ concat (take i groups)) ->
     exists p e, p ∈ g /\ e ∈ ces
       /\ ((ce_a e = y /\ ce_b e = p) \/ (ce_a e = p /\ ce_b e = y))).
Proof.
  intros Hrk groups. pose proof (partition_sound ns ces oes exclude) as (Hp & _).
  fold groups in Hp. revert Hp. subst groups.
  destruct (partition_eq ns ces oes exclude) as [bn ->]. set (N := placed_numbers ns exclude).
  set (groups := partition_loop _ _ _ _ _ _). intros Hp.
  assert (Hin : forall x, x ∈ concat groups <-> x ∈ N).
  { intros x. by rewrite Hp, elem_of_elements. }
  assert (Hat : forall i h x, groups !! i = Some h -> x ∈ h -> x ∈ N).
  { intros i h x Hi Hx. apply Hin, elem_of_concat. exists h.
    split; [by eapply list_elem_of_lookup_2|done]. }
  pose proof (conflict_adjacency_sym N ces) as Hsy.
  assert (Hac : forall x y, x ∈ neighbours (predecessor_map N oes) y -> rk x < rk y).
  { intros x y (_ & _ & e & He & <- & <-)%elem_of_predecessor_map. by apply Hrk. }
  assert (Hk : preds_known (predecessor_map N oes) N ∅).
  { intros x y _ (Hx & _)%elem_of_predecessor_map. by apply elem_of_union_l. }
  split.
  - intros e j g He Hj Hg Hb.
    destruct (partition_loop_order bn (conflict_adjacency N ces) (predecessor_map N oes) Hsy rk Hac
      _ _ _ j g (before e) (after e) Hk Hj Hg) as [Hn|Hlater]; [|set_solver|done].
    apply elem_of_predecessor_map. split_and!; [by apply Hin|by eapply Hat|by exists e].
  - intros i j g h y Hij Hi Hj Hy Hpl.
    destruct (partition_loop_eager bn (conflict_adjacency N ces) (predecessor_map N oes) Hsy rk Hac
      _ _ _ i j g h y Hk Hij Hi Hj Hy) as (p & Hpg & Hc).
    + intros x (Hx & _ & e & He & <- & Ha)%elem_of_predecessor_map. right.
      apply Hpl; [done|done|by apply Hin].
    + apply elem_of_conflict_adjacency in Hc as (_ & _ & e & He & Hor). eauto.
Qed.

Lemma demo_ranked : ranked Z.to_nat (ordering_edges demo).
Proof.
  intros e He. cbn [ordering_edges demo] in He. repeat apply elem_of_cons in He as [->|He];
    [simpl; lia..|by apply not_elem_of_nil in He].
Qed.

Lemma partition_layered_witness :
  let groups := partition_parallel_safe (nodes demo) (conflict_edges demo) (ordering_edges demo) ∅ in
  groups = [[1%Z; 4%Z]; [2%Z]; [3%Z]] /\
  (forall e j g, e ∈ ordering_edges demo -> groups !! j = Some g -> after e ∈ g ->
     before e ∈ concat groups ->
     exists i h, i < j /\ groups !! i = Some h /\ before e ∈ h) /\
  (forall i j g h y, i < j -> groups !! i = Some g -> groups !! j = Some h -> y ∈ h ->
     (forall e, e ∈ ordering_edges demo -> after e = y -> before e ∈ concat groups ->
        before e ∈ concat (take i groups)) ->
     exists p e, p ∈ g /\ e ∈ conflict_edges demo
       /\ ((ce_a e = y /\ ce_b e = p) \/ (ce_a e = p /\ ce_b e = y))).
Proof. split; [by_eval|]. apply partition_layered with (rk := Z.to_nat). apply demo_ranked. Defined.

(** ** The ordering graph *)

(** [has_path] decides reachability along a non-empty path that does not use
    the skipped edge. *)
Theorem has_path_exact edges start target skip :
  has_path (ordering_adjacency edges) start target skip = true <->
  tc (avoiding (ord_rel edges) skip) start target.
Proof. rewrite has_path_spec. apply avoiding_adjacency. Qed.

(** Transitive reduction keeps an edge exactly when nothing else leads from its
    source to its target; on acyclic edges the result reaches the same pairs, and
    no edge of it can be bypassed any more. *)
Theorem transitive_reduce_exact edges rk :
  ranked rk edges ->
  (forall e, e ∈ transitive_reduce edges <-> e ∈ edges /\
     ~ tc (avoiding (ord_rel edges) (before e, after e)) (before e) (after e)) /\
  (forall x y, tc (ord_rel (transitive_reduce edges)) x y <-> tc (ord_rel edges) x y) /\
  (forall e, e ∈ transitive_reduce edges ->
     ~ tc (avoiding (ord_rel (transitive_reduce edges)) (before e, after e)) (before e) (after e)).
Proof.
  intros Hrk. split_and!.
  - apply elem_of_transitive_reduce.
  - intros x y. split.
    + apply tc_subrel. apply ord_rel_reduce_sub.
    + induction 1 as [x y Hxy|x y z Hxy _ IH].
      * by eapply reduce_detour.
      * etrans; [|exact IH]. by eapply reduce_detour.
  - intros e [_ He]%elem_of_transitive_reduce Hd. apply He. revert Hd. apply tc_subrel.
    intros x y [Hr Hs]. split; [by apply ord_rel_reduce_sub|done].
Qed.

Lemma transitive_reduce_exact_witness :
  transitive_reduce (ordering_edges demo) = [ord 1 2; ord 2 3] /\
  (forall x y, tc (ord_rel (transitive_reduce (ordering_edges demo))) x y
               <-> tc (ord_rel (ordering_edges demo)) x y).
Proof.
  split; [reflexivity|]. apply (transitive_reduce_exact _ Z.to_nat). apply demo_ranked.
Defined.

(** The reported stacks are exactly the maximal chains of the reduced ordering:
    duplicate-free paths of at least two pull requests along reduced edges, from
    one with no predecessor to one with no successor. *)
Theorem build_stacks_exact edges s :
  s ∈ build_stacks edges <-> is_stack (ord_rel (transitive_reduce edges)) s.
Proof. apply elem_of_build_stacks. Qed.

(** ** Clusters *)

(** The clusters partition the collected numbers; two numbers share a cluster
    exactly when a chain of conflict edges joins them, and no two clusters share a
    member.  The largest clusters come first. *)
Theorem clusters_are_components ns ces oes :
  let cs := cluster_by_conflict ns ces oes in
  let joined := rtc (conflict_rel (list_to_set (PlannerModel.number <$> ns)) ces) in
  concat (members <$> cs) ≡ₚ elements (list_to_set (PlannerModel.number <$> ns) : gset Z) /\
  (forall c, c ∈ cs -> members c <> [] /\
     forall x y, x ∈ members c -> y ∈ members c <-> joined x y) /\
  (forall i j c d, i < j -> cs !! i = Some c -> cs !! j = Some d ->
     Cluster_size d <= Cluster_size c).
Proof.
  intros cs joined. subst cs joined. unfold cluster_by_conflict.
  set (N := list_to_set (PlannerModel.number <$> ns) : gset Z).
  set (comps := connected_components _ _).
  destruct (connected_components_spec (PlannerModel.number <$> ns) ces) as (Hp & Hc & Hs).
  fold comps N in Hp, Hc, Hs.
  assert (Hm : forall c, c ∈ comps ->
    members (cluster_of (nodes_by_number ns) ces oes c) ≡ₚ c).
  { intros c Hin. unfold cluster_of. cbn [members]. rewrite stack_order_perm.
    apply elements_list_to_set. by apply Hc. }
  split_and!.
  - rewrite <-Hp. rewrite <-list_fmap_compose. clear Hp Hs Hc.
    induction comps as [|c comps IH]; [done|]. rewrite fmap_cons. cbn [concat compose].
    rewrite IH by (intros; apply Hm; set_solver). by rewrite Hm by set_solver.
  - intros c (comp & -> & Hin)%list_elem_of_fmap. specialize (Hm comp Hin).
    destruct (Hc comp Hin) as (Hne & _ & Hj). split.
    + intros He. rewrite He in Hm. by apply Hne, Permutation_nil.
    + intros x y. rewrite Hm. apply Hj.
  - intros i j c d Hij (ci & -> & Hi)%list_lookup_fmap_Some (cj & -> & Hj)%list_lookup_fmap_Some.
    unfold Cluster_size. rewrite !Hm by (by eapply list_elem_of_lookup_2). by eapply Hs.
Qed.

(** Inside a cluster of acyclic ordering, a pull request is listed after every
    member it is ordered after. *)
Theorem cluster_members_ordered ns ces oes rk c e j :
  ranked rk oes -> c ∈ cluster_by_conflict ns ces oes -> e ∈ oes ->
  members c !! j = Some (after e) -> before e ∈ members c ->
  exists i, i < j /\ members c !! i = Some (before e).
Proof.
  intros Hrk (comp & -> & Hin)%list_elem_of_fmap He Hj Hb. cbn [cluster_of members] in *.
  apply (stack_order_respects comp (nodes_by_number ns) oes rk j (after e) (before e)).
  - intros x y _ _ (e' & He' & <- & <-). by apply Hrk.
  - done.
  - by rewrite stack_order_perm, elem_of_elements, elem_of_list_to_set in Hb.
  - by exists e.
Qed.

Lemma cluster_members_ordered_witness :
  exists i, i < 1 /\ members {| members := [1%Z; 2%Z]; conflict_paths := ["src/a.rs"] |} !! i = Some 1%Z.
Proof.
  apply (cluster_members_ordered [green 2; green 1] [conflict 2 1] [ord 1 2] Z.to_nat
           {| members := [1%Z; 2%Z]; conflict_paths := ["src/a.rs"] |} (ord 1 2) 1).
  - intros e He. apply list_elem_of_singleton in He as ->. simpl. lia.
  - apply list_elem_of_singleton. vm_compute. reflexivity.
  - apply list_elem_of_singleton. reflexivity.
  - reflexivity.
  - simpl. set_solver.
Defined.

(** ** Verdicts *)

Section verdicts.
Context `{RegexCrate}.

(** A node whose verdict [classify_pr] computed, and that carries no clean
    validation record, is landable exactly when it is fresh enough, a check
    named as the gate is present, and every check of its rollup passed. *)
Theorem landable_verdict checks cfg fresh node :
  ci node = classify_pr checks cfg -> validation_evidence node <> CleanValidateRecord ->
  ci_landable fresh node <->
  too_far_behind fresh node = false /\
  (exists c, c ∈ checks /\ cr_name c = gate_check cfg) /\
  (forall c, c ∈ checks -> check_state c = Passed).
Proof.
  intros Hci Hev. unfold ci_landable. rewrite Hci, classify_pr_raw, classify_pr_no_red,
    classify_pr_gate, classify_pr_gate_ok, existsb_elem. unfold is_gate.
  setoid_rewrite String.eqb_eq. fold (is_gate cfg).
  pose proof (classify_state_passed checks) as Hp. split.
  - intros [Hf [[? _]|(_ & Hnf & Hg & _ & Hnn)]]; [done|]. split_and!; [done|done|].
    apply Hp. by destruct (classify_state checks).
  - intros (Hf & Hg & Hall). split; [done|]. right.
    assert (Hs : classify_state checks = Passed).
    { apply Hp. split; [|done]. intros ->. set_solver. }
    rewrite Hs. split_and!; [done|done|done| |done].
    destruct (List.find (is_gate cfg) checks) as [c|] eqn:Hfind.
    + apply List.find_some in Hfind as [Hc _]. apply list_elem_of_In in Hc.
      unfold is_state. b2p. by apply Hall.
    + destruct Hg as (c & Hc & Hn). apply list_elem_of_In in Hc.
      pose proof (List.find_none _ _ Hfind c Hc) as Hnone. unfold is_gate in Hnone.
      by apply String.eqb_neq in Hnone.
Qed.
End verdicts.

(** No regular expression ever compiles: enough to run a configuration without
    flaky signatures. *)
Definition no_regex : RegexCrate := {|
  regex := Empty_set; regex_new _ _ := Err "unsupported";
  regex_captures_len r := match r with end; regex_captures r _ := match r with end |}.

Definition check_run (name conclusion : string) : CheckRun := {|
  cr_name := name; cr_status := "COMPLETED"; cr_conclusion := conclusion; cr_text := "";
  cr_workflow := ""; cr_duration_secs := Some 60%Z |}.

Lemma landable_verdict_witness :
  ci_landable None (green 1) <->
    too_far_behind None (green 1) = false /\
    (exists c, c ∈ [check_run "build" "success"; check_run "merge-gate" "SUCCESS"]
               /\ cr_name c = gate_check ClassifyConfig_default) /\
    (forall c, c ∈ [check_run "build" "success"; check_run "merge-gate" "SUCCESS"] ->
       check_state c = Passed).
Proof. apply (@landable_verdict no_regex); [reflexivity|discriminate]. Defined.

Section selection.
Context `{JsonNumber, RegexCrate}.

(** One attempt is selected per check context, in the order the contexts
    first appear: the last of the most recent exact-head attempts when these
    agree on their outcome, and otherwise a record of status [AMBIGUOUS]. *)
Theorem select_latest_one_per_context raw head_sha entries :
  rollup_entries raw = Some entries ->
  let cs := candidates head_sha entries in
  NoDup (first_keys cs.*1) /\ (forall k, k ∈ first_keys cs.*1 <-> k ∈ cs.*1) /\
  Forall2 (fun k o => exists s, o = sel_check s /\ chosen (of_key k cs) s)
    (first_keys cs.*1) (select_latest_checks raw head_sha).
Proof.
  intros Hraw cs. split_and!; [apply first_keys_NoDup|apply first_keys_elem|].
  by apply select_latest_chosen.
Qed.
End selection.

Lemma select_latest_one_per_context_witness :
  let _ := integer_number in let _ := no_regex in
  let entry id c := Object [("name", VString "gate"); ("runId", Number id); ("conclusion", VString c)] in
  let raw := Array [entry 1%Z "SUCCESS"; entry 2%Z "SUCCESS"; entry 2%Z "FAILURE"] in
  let cs := candidates "" [entry 1%Z "SUCCESS"; entry 2%Z "SUCCESS"; entry 2%Z "FAILURE"] in
  check_state <$> parse_rollup raw "" = [NoResult] /\
  NoDup (first_keys cs.*1) /\ (forall k, k ∈ first_keys cs.*1 <-> k ∈ cs.*1) /\
  Forall2 (fun k o => exists s, o = sel_check s /\ chosen (of_key k cs) s)
      (first_keys cs.*1) (select_latest_checks raw "").
Proof.
  intros ? ? entry raw cs. split; [reflexivity|].
  apply (select_latest_one_per_context raw ""). reflexivity.
Defined.

(** The review protocol holds a node exactly when it is active and some
    required lane has no pass label or no receipt for the exact head; when it is
    active and nothing is missing, the binding is [ExactHead]. *)
Theorem review_binding_exact node :
  let bound lane := ("passed-review-" +:+ lane) ∈ labels node
                    /\ review_pass_heads node !! lane = Some (head_sha node) in
  ((review_binding node).2 = [] <->
     protocol_active node = false \/ forall lane, lane ∈ REQUIRED_REVIEW_LANES -> bound lane) /\
  ((review_binding node).1 = ExactHead <->
     protocol_active node = true /\ forall lane, lane ∈ REQUIRED_REVIEW_LANES -> bound lane).
Proof.
  intros bound.
  assert (Hl : forall lane, lane_reason node lane = None <-> bound lane).
  { intros lane. unfold lane_reason, bound.
    destruct (existsb (String.eqb _) (labels node)) eqn:Hx; simpl.
    - apply existsb_elem in Hx as (x & Hx & <-%String.eqb_eq).
      destruct (review_pass_heads node !! lane); [case_decide|]; naive_solver.
    - rewrite existsb_false in Hx. split; [done|]. intros [Hin _].
      specialize (Hx _ Hin). by rewrite String.eqb_refl in Hx. }
  assert (Hn : omap (lane_reason node) REQUIRED_REVIEW_LANES = [] <->
    forall lane, lane ∈ REQUIRED_REVIEW_LANES -> bound lane).
  { setoid_rewrite <-Hl. generalize REQUIRED_REVIEW_LANES as lanes.
    induction lanes as [|lane lanes IH]; [split; [set_solver|done]|].
    rewrite omap_cons. destruct (lane_reason node lane) eqn:Hr.
    - split; [done|]. intros Hall. rewrite Hall in Hr; [done|set_solver].
    - rewrite IH. set_solver. }
  unfold review_binding. destruct (protocol_active node); simpl negb; cbn iota.
  - destruct (omap _ _) as [|r rs]; cbn [fst snd]; [naive_solver|].
    split; [naive_solver|]. split; [by repeat case_match|naive_solver].
  - cbn [fst snd]. naive_solver.
Qed.
