(* ===== verification/ChangeClassifier.v ===== *)
(** * change-classifier ([rs/change-classifier/src/lib.rs])

    Glob matching over bytes, the test-footprint policy and its reading, and the
    classification of a change's paths.  The [git] subprocess that lists them and
    the reading of files are not modelled. *)
From S2P Require Import Prelude RustStr External.

Definition POLICY_VERSION : Z := 2.

(** ** Globs *)

(** [(0..=t.len()).any(|i| p(&t[i..]))] *)
Fixpoint any_suffix (p : string -> bool) (t : string) : bool :=
  p t || match t with "" => false | String _ t => any_suffix p t end.

(** The loop of a single star: the same, up to the first slash. *)
Fixpoint any_suffix_in_segment (p : string -> bool) (t : string) : bool :=
  p t || match t with
         | "" => false
         | String c t => if (c =? "/")%char then false else any_suffix_in_segment p t
         end.

Fixpoint glob_inner (p t : string) : bool :=
  match p with
  | "" => str_is_empty t
  | String "*" (String "*" (String "/" rest)) => any_suffix (glob_inner rest) t
  | String "*" (String "*" rest) => any_suffix (glob_inner rest) t
  | String "*" rest => any_suffix_in_segment (glob_inner rest) t
  | String "?" rest =>
      match t with String c t => negb (c =? "/")%char && glob_inner rest t | "" => false end
  | String c rest =>
      match t with String d t => (c =? d)%char && glob_inner rest t | "" => false end
  end.

Definition glob_match (pattern path : string) : bool := glob_inner pattern path.

Definition matches_any (globs : list string) (path : string) : bool :=
  existsb (fun glob => glob_match glob path) globs.

(** ** The policy *)

Inductive Verdict := Skip | Selective | Full.

Definition Verdict_as_str (v : Verdict) : string :=
  match v with Skip => "skip" | Selective => "selective" | Full => "full" end.

Inductive PathClass := ForceFull | Matched | Inert | Unknown.

#[export] Instance PathClass_eq_dec : EqDecision PathClass.
Proof. solve_decision. Defined.

Record BackendRule := {
  br_id : string;
  br_paths : list string;
  scoped_paths : list (string * list string);
  backends : list string;
  lanes : list string;
  extra_nodes : list string;
  tier : string;
}.

(** [path.strip_prefix(dir).and_then(|rest| rest.strip_prefix('/'))] *)
Definition inside (dir path : string) : option string :=
  rest ← strip_prefix dir path; strip_prefix "/" rest.

(** [BackendRule::matches] *)
Definition rule_matches (rule : BackendRule) (path : string) : bool :=
  matches_any (br_paths rule) path
  || existsb (fun dg => match inside dg.1 path with
                        | Some inner => matches_any dg.2 inner
                        | None => false
                        end) (scoped_paths rule).

Section policy.
Context `{JsonNumber}.

Record Footprint := {
  fp_paths : list string;
  fp_nodes : list string;
  fp_e2e_all : bool;
  fp_e2e_backends : list string;
  component : string;
  raw : value;
}.

Record Policy := {
  force_full : list string;
  ci_irrelevant : list string;
  groups : gmap string (list string);
  footprints : list Footprint;
  backend_rules : list BackendRule;
}.

Inductive PolicyError :=
| UnsupportedVersion (version : option Z)
| UnknownGroup (name : string).

(** [strings]: the strings of an array, the rest skipped. *)
Definition strings (v : value) : list string :=
  match as_array v with Some items => omap as_str items | None => [] end.

Definition literal_dir (glob : string) : option string :=
  '(first, _) ← split_once "/" glob;
  if negb (str_is_empty first) && negb (str_contains_byte "*" first || str_contains_byte "?" first)
  then Some first else None.

(** [Policy::expand]: the nodes [out], the groups [seen], and the unknown group the
    expansion stopped at.  A group is entered once and must exist, so the number of
    groups bounds the depth. *)
Fixpoint expand (fuel : nat) (gs : gmap string (list string)) (refs : list string)
    (out seen : gset string) : gset string * gset string * option PolicyError :=
  match fuel with
  | 0 => (out, seen, None)
  | S fuel =>
      (fix each (refs : list string) (out seen : gset string) :=
         match refs with
         | [] => (out, seen, None)
         | reference :: refs =>
             match strip_prefix "@" reference with
             | None => each refs ({[reference]} ∪ out) seen
             | Some name =>
                 if decide (name ∈ seen) then each refs out seen
                 else match gs !! name with
                      | None => (out, {[name]} ∪ seen, Some (UnknownGroup name))
                      | Some ms =>
                          match expand fuel gs ms out ({[name]} ∪ seen) with
                          | (out, seen, None) => each refs out seen
                          | failed => failed
                          end
                      end
             end
         end) refs out seen
  end.

(** [policy.expand(refs, out, &mut BTreeSet::new())] *)
Definition expand_nodes (p : Policy) (refs : list string) (out : gset string)
  : gset string * option PolicyError :=
  let '(out, _, e) := expand (S (size (groups p))) (groups p) refs out ∅ in (out, e).

Definition footprint_from (index : nat) (entry : value) : Footprint :=
  let paths := strings (value_index entry "paths") in
  {| fp_nodes := strings (value_index entry "nodes");
     fp_e2e_all := default false (as_bool (value_index entry "e2e_all"));
     fp_e2e_backends := strings (value_index entry "e2e_backends");
     component :=
       match v ← value_get entry "component"; as_str v with
       | Some c => c
       | None => default ("footprint-" +:+ pretty index) (g ← head paths; literal_dir g)
       end;
     raw := entry;
     fp_paths := paths |}.

Definition scoped_from (kv : string * value) : option (string * list string) :=
  dir ← strip_suffix "_paths" kv.1;
  if str_is_empty dir then None else Some (dir, strings kv.2).

Definition rule_from (rule : value) : BackendRule := {|
  br_id := default "" (as_str (value_index rule "id"));
  br_paths := strings (value_index rule "paths");
  scoped_paths := omap scoped_from (default [] (as_object rule));
  backends := strings (value_index rule "backends");
  lanes := strings (value_index rule "lanes");
  extra_nodes := strings (value_index rule "extra_nodes");
  tier := default "backend" (as_str (value_index rule "tier")) |}.

(** [value.get(key).and_then(Value::as_array).into_iter().flatten()] *)
Definition entries (v : value) (key : string) : list value :=
  default [] (a ← value_get v key; as_array a).

(** The references the rules of a policy expand. *)
Definition rule_refs (p : Policy) : list (list string) :=
  (fp_nodes <$> footprints p) ++ (extra_nodes <$> backend_rules p).

(** The check of every group a rule names. *)
Definition check_refs (p : Policy) (refs : list string) (probe : gset string)
  : result PolicyError (gset string) :=
  match expand_nodes p refs probe with (probe, None) => Ok probe | (_, Some e) => Err e end.

(** The policy a document describes. *)
Definition policy_fields (v : value) : Policy := {|
  force_full := strings (value_index v "force_full");
  ci_irrelevant := strings (value_index v "ci_irrelevant");
  groups := map_collect (prod_map id strings
              <$> default [] (g ← value_get v "groups"; as_object g));
  footprints := imap footprint_from (entries v "footprints");
  backend_rules := rule_from <$> entries v "backend_rules" |}.

Definition policy_version (v : value) : option Z := n ← value_get v "version"; as_u64 n.

(** [Policy::from_value] *)
Definition policy_from_value (v : value) : result PolicyError Policy :=
  let version := policy_version v in
  if decide (version = Some POLICY_VERSION) then
    let p := policy_fields v in
    each_result (check_refs p) (rule_refs p) ∅;;
    Ok p
  else Err (UnsupportedVersion version).

(** ** Classification *)

Record PathMatch := {
  pm_path : string;
  pm_class : PathClass;
  pm_footprints : list nat;
  pm_backend_rules : list string;
}.

Record Classification := {
  verdict : Verdict;
  nodes : gset string;
  e2e_all : bool;
  e2e_backends : gset string;
  cl_backend_rules : list string;
  backend_lanes : list string;
  components : gset string;
  unknown : list string;
  paths : list PathMatch;
  reasons : list string;
}.

(** [only_force_full] and [only_inert] *)
Definition only_class (class : PathClass) (c : Classification) : bool :=
  match paths c with
  | [] => false
  | pms => forallb (fun pm => bool_decide (pm_class pm = class)) pms
  end.
Definition only_force_full : Classification -> bool := only_class ForceFull.
Definition only_inert : Classification -> bool := only_class Inert.

Definition push_unique (l : list string) (item : string) : list string :=
  if existsb (String.eqb item) l then l else l ++ [item].

(** The part of [out] the matched rules add to, with [core_rule]. *)
Record Selection := {
  sel_nodes : gset string;
  sel_e2e_all : bool;
  sel_e2e_backends : gset string;
  sel_backend_rules : list string;
  sel_backend_lanes : list string;
  sel_components : gset string;
  sel_core_rule : option string;
}.

(** One turn of the loop over footprints, with the indexes [entry] collects. *)
Definition footprint_step (p : Policy) (path : string) (acc : Selection * list nat)
    (ix : nat * Footprint) : Selection * list nat :=
  let '(sel, found) := acc in
  let '(index, footprint) := ix in
  if matches_any (fp_paths footprint) path then
    ({| sel_nodes := (expand_nodes p (fp_nodes footprint) (sel_nodes sel)).1;
        sel_e2e_all := sel_e2e_all sel || fp_e2e_all footprint;
        sel_e2e_backends := list_to_set (fp_e2e_backends footprint) ∪ sel_e2e_backends sel;
        sel_backend_rules := sel_backend_rules sel;
        sel_backend_lanes := sel_backend_lanes sel;
        sel_components := {[component footprint]} ∪ sel_components sel;
        sel_core_rule := sel_core_rule sel |}, found ++ [index])
  else acc.

(** One turn of the loop over backend rules. *)
Definition rule_step (p : Policy) (path : string) (acc : Selection * list string)
    (rule : BackendRule) : Selection * list string :=
  let '(sel, found) := acc in
  if rule_matches rule path then
    let core := (tier rule =? "core")%string in
    ({| sel_nodes := if core then sel_nodes sel
                     else (expand_nodes p (extra_nodes rule) (sel_nodes sel)).1;
        sel_e2e_all := sel_e2e_all sel;
        sel_e2e_backends :=
          if core then sel_e2e_backends sel
          else list_to_set (List.filter (fun b => negb (b =? "*")%string) (backends rule))
               ∪ sel_e2e_backends sel;
        sel_backend_rules := push_unique (sel_backend_rules sel) (br_id rule);
        sel_backend_lanes := foldl push_unique (sel_backend_lanes sel) (lanes rule);
        sel_components := {["backend:" +:+ br_id rule]} ∪ sel_components sel;
        sel_core_rule := if core then Some (br_id rule) else sel_core_rule sel |},
     found ++ [br_id rule])
  else acc.

(** The variables of the loop over the paths. *)
Record Scan := {
  selection : Selection;
  scan_unknown : list string;
  scan_paths : list PathMatch;
  scan_reasons : list string;
  force : bool;
  all_inert : bool;
}.

Definition scan_start : Scan := {|
  selection := {| sel_nodes := ∅; sel_e2e_all := false; sel_e2e_backends := ∅;
                  sel_backend_rules := []; sel_backend_lanes := []; sel_components := ∅;
                  sel_core_rule := None |};
  scan_unknown := []; scan_paths := []; scan_reasons := []; force := false; all_inert := true |}.

(** The body of that loop. *)
Definition scan_path (p : Policy) (st : Scan) (path : string) : Scan :=
  if matches_any (force_full p) path then
    {| selection := selection st; scan_unknown := scan_unknown st;
       scan_paths := scan_paths st ++ [{| pm_path := path; pm_class := ForceFull;
                                          pm_footprints := []; pm_backend_rules := [] |}];
       scan_reasons := scan_reasons st ++ [path +:+ " → force_full"];
       force := true; all_inert := false |}
  else
    let '(sel, fps) := foldl (footprint_step p path) (selection st, []) (imap pair (footprints p)) in
    let '(sel, rules) := foldl (rule_step p path) (sel, []) (backend_rules p) in
    let matched := match fps, rules with [], [] => false | _, _ => true end in
    let inert := matches_any (ci_irrelevant p) path in
    {| selection := sel;
       scan_unknown := if matched || inert then scan_unknown st else scan_unknown st ++ [path];
       scan_paths := scan_paths st ++ [
         {| pm_path := path;
            pm_class := if matched then Matched else if inert then Inert else Unknown;
            pm_footprints := fps; pm_backend_rules := rules |}];
       scan_reasons := scan_reasons st;
       force := force st;
       all_inert := if matched then false else all_inert st && inert |}.

(** The verdict after the loop, and the reason it adds, if any. *)
Definition verdict_of (st : Scan) : Verdict * list string :=
  match sel_core_rule (selection st) with
  | Some rule => (Full, ["shared core rule `" +:+ rule +:+ "` matched → full suite"])
  | None =>
      if force st then (Full, [])
      else match scan_unknown st with
      | (_ :: _) as us =>
          (Full, [pretty (length us) +:+ " unmapped path(s) (e.g. " +:+ join ", " (take 3 us)
                  +:+ ") → conservative full suite"])
      | [] =>
          if decide (sel_nodes (selection st) = ∅) then
            if all_inert st then (Skip, ["all changed paths are CI-irrelevant → skip"])
            else (Full, ["no footprint matched but paths not proven inert → full suite"])
          else (Selective,
                [pretty (size (sel_nodes (selection st))) +:+ " node(s) selected"])
      end
  end.

Definition classification_of (st : Scan) (v : Verdict) (why : list string) : Classification := {|
  verdict := v;
  nodes := sel_nodes (selection st);
  e2e_all := sel_e2e_all (selection st);
  e2e_backends := sel_e2e_backends (selection st);
  cl_backend_rules := sel_backend_rules (selection st);
  backend_lanes := sel_backend_lanes (selection st);
  components := sel_components (selection st);
  unknown := scan_unknown st;
  paths := scan_paths st;
  reasons := scan_reasons st ++ why |}.

(** [classify] *)
Definition classify (p : Policy) (changed : list string) : Classification :=
  match changed with
  | [] => classification_of scan_start Full ["no changed-path information available → full suite"]
  | _ =>
      let st := foldl (scan_path p) scan_start changed in
      let '(v, why) := verdict_of st in
      classification_of st v why
  end.

(** ** Known nodes *)

(** [UnknownNode], ordered by its fields: the node and the rule that named it. *)
Abbreviation UnknownNode := (string * string)%type.

(** The closure [check]. *)
Definition check_known (p : Policy) (known : gset string) (refs : list string) (rule : string)
    (bad : gset UnknownNode) : gset UnknownNode :=
  set_map (fun node => (node, rule)) ((expand_nodes p refs ∅).1 ∖ known) ∪ bad.

Definition footprint_label (index : nat) (f : Footprint) : string :=
  "footprint " +:+ pretty index +:+ " (" +:+ component f +:+ ")".

Definition check_entry (p : Policy) (known : gset string) (bad : gset UnknownNode)
    (entry : PathMatch) : gset UnknownNode :=
  let bad := foldl (fun bad index =>
    match footprints p !! index with
    | Some f => check_known p known (fp_nodes f) (footprint_label index f) bad
    | None => bad
    end) bad (pm_footprints entry) in
  foldl (fun bad rule =>
      check_known p known (extra_nodes rule) ("backend rule " +:+ br_id rule) bad) bad
    (List.filter (fun rule => negb (tier rule =? "core")%string
                              && bool_decide (br_id rule ∈ pm_backend_rules entry))
       (backend_rules p)).

(** [classify_known]: the error is the [KnownNodeRefusal]'s list. *)
Definition classify_known (p : Policy) (changed : list string) (known : gset string)
  : result (list UnknownNode) Classification :=
  let out := classify p changed in
  match btree_elems (foldl (check_entry p known) ∅ (paths out)) with
  | [] => Ok out
  | unknown_nodes => Err unknown_nodes
  end.
End policy.

(** [Display for KnownNodeRefusal] *)
Definition KnownNodeRefusal_to_string (unknown_nodes : list (string * string)) : string :=
  let listed := (fun entry => "`" +:+ entry.1 +:+ "` (named by " +:+ entry.2 +:+ ")") <$> unknown_nodes in
  "refused: matched rules name " +:+ pretty (length listed)
  +:+ " node(s) not in the known-node list: " +:+ join ", " listed.

(** A known-node list that is not a JSON array. *)
Definition parse_known_lines (text : string) : gset string :=
  list_to_set (List.filter (fun line => negb (str_is_empty line) && negb (starts_with line "#"))
                 (str_trim <$> str_lines text)).

(** ** [git diff --name-status] *)

Definition name_status_line (line : string) : list string :=
  match split_once "009" line with
  | None =>
      let path := str_trim line in if str_is_empty path then [] else [path]
  | Some (status, rest) =>
      let status := str_trim status in
      let fields := str_trim <$> split_byte "009" rest in
      if starts_with status "R" || starts_with status "C"
      then List.filter (fun field => negb (str_is_empty field)) fields
      else match fields with
           | path :: _ => if str_is_empty path then [] else [path]
           | [] => []
           end
  end.

Definition parse_name_status (text : string) : list string :=
  concat (name_status_line <$> str_lines text).

(** The golden vectors of [testdata/vectors.json] for globs and name-status lines. *)
Example glob_vectors :
  forallb (fun v => Bool.eqb (glob_match v.1.1 v.1.2) v.2)
    [("Cargo.toml", "Cargo.toml", true); ("Cargo.toml", "core/Cargo.toml", false);
     ("*.md", "README.md", true); ("*.md", "docs/x.md", false); ("docs/**", "docs/a/b/c.md", true);
     ("docs/**", "docs", false); ("**/*.rs", "core/src/scheduler.rs", true);
     ("**/*.rs", "main.rs", true); ("core/**/*.rs", "core/src/a/b.rs", true);
     ("core/**/*.rs", "cli/src/a.rs", false); ("a?c", "abc", true); ("a?c", "a/c", false);
     ("a/**/z.c", "a/b/c/z.c", true); ("a/**/z.c", "a/z.c", true); ("*", "a/b", false);
     ("a*", "a", true); ("**/NAME", "deep/dir/NAMED", false); ("src/*.rs", "src/.rs", true);
     ("", "", true); ("", "a", false)] = true.
Proof. reflexivity. Qed.

Example name_status_vectors :
  parse_name_status ("R087" +:+ str1 "009" +:+ "core/src/old.rs" +:+ str1 "009"
    +:+ "engine-fast/src/new.rs" +:+ str1 nl +:+ str1 nl +:+ "D" +:+ str1 "009" +:+ "gone.rs"
    +:+ str1 nl +:+ "Cargo.lock")
  = ["core/src/old.rs"; "engine-fast/src/new.rs"; "gone.rs"; "Cargo.lock"].
Proof. reflexivity. Qed.
