(* ===== verification/ChangeGlob.v ===== *)
(** * change-classifier: what a glob means

    A pattern is a list of tokens, and it matches a path that can be cut into one
    piece per token, each piece of the token's kind. *)
From S2P Require Import Prelude RustStr ChangeClassifier.

Inductive token := AnyRun | SegmentRun | OneChar | Lit (c : ascii).

(** The tokens of a pattern; a slash after a double star belongs to it. *)
Fixpoint tokens (p : string) : list token :=
  match p with
  | "" => []
  | String c r =>
      if (c =? "*")%char then
        match r with
        | String d r' =>
            if (d =? "*")%char then
              match r' with
              | String e r'' => AnyRun :: (if (e =? "/")%char then tokens r'' else tokens r')
              | "" => [AnyRun]
              end
            else SegmentRun :: tokens r
        | "" => [SegmentRun]
        end
      else if (c =? "?")%char then OneChar :: tokens r
      else Lit c :: tokens r
  end.

Definition accepts (k : token) (piece : string) : Prop :=
  match k with
  | AnyRun => True
  | SegmentRun => str_contains_byte "/" piece = false
  | OneChar => exists c, piece = str1 c /\ c <> "/"%char
  | Lit c => piece = str1 c
  end.

(** The path is cut into one accepted piece per token. *)
Definition matches (ks : list token) (t : string) : Prop :=
  exists pieces, Forall2 accepts ks pieces /\ t = of_chars pieces.

Lemma matches_nil t : matches [] t <-> t = "".
Proof.
  split; [by intros (ps & ->%Forall2_nil_inv_l & ->)|]. intros ->. exists []. by split; [constructor|].
Qed.

Lemma matches_cons k ks t :
  matches (k :: ks) t <-> exists a b, t = a +:+ b /\ accepts k a /\ matches ks b.
Proof.
  split.
  - intros (ps & (a & ps' & Ha & Hps & ->)%Forall2_cons_inv_l & ->).
    exists a, (of_chars ps'). rewrite of_chars_cons. split_and!; [done|done|by exists ps'].
  - intros (a & b & -> & Ha & ps & Hps & ->). exists (a :: ps).
    rewrite of_chars_cons. split; [by constructor|done].
Qed.

(** ** The two loops *)

Lemma any_suffix_spec p t :
  any_suffix p t = true <-> exists a b, t = a +:+ b /\ p b = true.
Proof.
  induction t as [|c t IH]; cbn [any_suffix].
  - rewrite orb_false_r. split; [by exists "", ""|]. intros ([|? ?] & b & Heq & Hb); [|done].
    by rewrite Heq.
  - rewrite orb_true_iff, IH. split.
    + intros [Hp|(a & b & -> & Hb)]; [by exists "", (String c t)|by exists (String c a), b].
    + intros ([|d a] & b & Heq & Hb); [left; by rewrite Heq|]. rewrite str_app_cons in Heq.
      injection Heq as -> ->. right. by exists a, b.
Qed.

Lemma any_suffix_in_segment_spec p t :
  any_suffix_in_segment p t = true <->
  exists a b, t = a +:+ b /\ str_contains_byte "/" a = false /\ p b = true.
Proof.
  induction t as [|c t IH]; cbn [any_suffix_in_segment].
  - rewrite orb_false_r. split; [by exists "", ""|]. intros ([|? ?] & b & Heq & _ & Hb); [|done].
    by rewrite Heq.
  - rewrite orb_true_iff. split.
    + intros [Hp|Hr]; [by exists "", (String c t)|].
      destruct (Ascii.eqb_spec c "/") as [|Hc]; [done|].
      apply IH in Hr as (a & b & -> & Ha & Hb). exists (String c a), b. split_and!; [done| |done].
      cbn [str_contains_byte]. rewrite Ha, orb_false_r. apply Ascii.eqb_neq. congruence.
    + intros ([|d a] & b & Heq & Ha & Hb); [left; by rewrite Heq|]. rewrite str_app_cons in Heq.
      injection Heq as -> ->. right. cbn [str_contains_byte] in Ha.
      apply orb_false_iff in Ha as [Hd Ha]. apply Ascii.eqb_neq in Hd.
      rewrite (proj2 (Ascii.eqb_neq d "/")) by congruence. apply IH. by exists a, b.
Qed.

(** ** The matcher *)

(** One step of the matcher, on the decoded character. *)
Lemma glob_inner_cons c r t :
  glob_inner (String c r) t =
  if (c =? "*")%char then
    match r with
    | String "*" (String "/" rest) => any_suffix (glob_inner rest) t
    | String "*" rest => any_suffix (glob_inner rest) t
    | _ => any_suffix_in_segment (glob_inner r) t
    end
  else if (c =? "?")%char then
    match t with String d t => negb (d =? "/")%char && glob_inner r t | "" => false end
  else match t with String d t => (c =? d)%char && glob_inner r t | "" => false end.
Proof. by destruct c as [[] [] [] [] [] [] [] []]. Qed.

Lemma glob_star_cases (r t : string) :
  (match r with
   | String "*" (String "/" rest) => any_suffix (glob_inner rest) t
   | String "*" rest => any_suffix (glob_inner rest) t
   | _ => any_suffix_in_segment (glob_inner r) t
   end) =
  match r with
  | String d r' =>
      if (d =? "*")%char then
        match r' with
        | String e r'' => any_suffix (glob_inner (if (e =? "/")%char then r'' else r')) t
        | "" => any_suffix (glob_inner "") t
        end
      else any_suffix_in_segment (glob_inner r) t
  | "" => any_suffix_in_segment (glob_inner "") t
  end.
Proof.
  destruct r as [|d r]; [done|].
  destruct d as [[] [] [] [] [] [] [] []]; try done.
  destruct r as [|e r]; [done|]. by destruct e as [[] [] [] [] [] [] [] []].
Qed.

Lemma matches_any_run ks t f :
  (forall b, f b = true <-> matches ks b) ->
  any_suffix f t = true <-> matches (AnyRun :: ks) t.
Proof.
  intros Hf. rewrite any_suffix_spec, matches_cons. setoid_rewrite Hf. cbn [accepts].
  split; intros (a & b & -> & ?); exists a, b; tauto.
Qed.

Lemma matches_segment_run ks t f :
  (forall b, f b = true <-> matches ks b) ->
  any_suffix_in_segment f t = true <-> matches (SegmentRun :: ks) t.
Proof. intros Hf. rewrite any_suffix_in_segment_spec, matches_cons. by setoid_rewrite Hf. Qed.

Lemma matches_one ks t f :
  (forall b, f b = true <-> matches ks b) ->
  match t with String d t => negb (d =? "/")%char && f t | "" => false end = true <->
  matches (OneChar :: ks) t.
Proof.
  intros Hf. rewrite matches_cons. cbn [accepts]. split.
  - destruct t as [|d t]; [done|]. intros [Hd Ht]%andb_true_iff. exists (str1 d), t.
    split_and!; [done| |by apply Hf]. exists d. split; [done|].
    apply negb_true_iff, Ascii.eqb_neq in Hd. done.
  - intros (a & b & -> & (c & -> & Hc) & Hb). change (str1 c +:+ b) with (String c b). cbv iota beta. apply andb_true_iff. split; [|by apply Hf].
    by apply negb_true_iff, Ascii.eqb_neq.
Qed.

Lemma matches_lit c ks t f :
  (forall b, f b = true <-> matches ks b) ->
  match t with String d t => (c =? d)%char && f t | "" => false end = true <->
  matches (Lit c :: ks) t.
Proof.
  intros Hf. rewrite matches_cons. cbn [accepts]. split.
  - destruct t as [|d t]; [done|]. intros [->%Ascii.eqb_eq Ht]%andb_true_iff.
    exists (str1 d), t. split_and!; [done|done|by apply Hf].
  - intros (a & b & -> & -> & Hb). change (str1 c +:+ b) with (String c b). cbv iota beta. rewrite Ascii.eqb_refl. by apply Hf.
Qed.

Lemma glob_inner_spec p t : glob_inner p t = true <-> matches (tokens p) t.
Proof.
  remember (String.length p) as n eqn:Hn. revert p t Hn.
  induction n as [n IH] using (well_founded_induction lt_wf). intros p t ->.
  destruct p as [|c r]; cbn [tokens].
  { rewrite matches_nil. cbn [glob_inner]. by destruct t. }
  rewrite glob_inner_cons, glob_star_cases.
  assert (Hr : forall b, glob_inner r b = true <-> matches (tokens r) b).
  { intros b. by apply (IH (String.length r)); [cbn; lia|]. }
  destruct (c =? "*")%char.
  - destruct r as [|d r']; [apply matches_segment_run; apply Hr|].
    destruct (d =? "*")%char; [|by apply matches_segment_run].
    destruct r' as [|e r'']; [apply matches_any_run|].
    + intros b. by apply (IH 0); [cbn; lia|].
    + destruct (e =? "/")%char; apply matches_any_run; intros b.
      * by apply (IH (String.length r'')); [cbn; lia|].
      * by apply (IH (String.length (String e r''))); [cbn; lia|].
  - destruct (c =? "?")%char; [by apply matches_one|by apply matches_lit].
Qed.
