(* ===== verification/ChangeFacts.v ===== *)
(** * change-classifier: facts about a classification

    [expand] is a depth-first search of the groups that threads the nodes it found
    and the groups it entered; it finds exactly the nodes a list of references
    names, through any number of groups, cycles included.  Then each path's match as a
    function of the path alone, and what the loop over the paths accumulates. *)
From S2P Require Import Prelude RustStr External ChangeClassifier.

(** ** What references name *)

Section named.
Context (gs : gmap string (list string)).

Inductive names_node : list string -> string -> Prop :=
| names_here refs n : n ∈ refs -> strip_prefix "@" n = None -> names_node refs n
| names_through refs r g ms n :
    r ∈ refs -> strip_prefix "@" r = Some g -> gs !! g = Some ms -> names_node ms n ->
    names_node refs n.

Inductive names_group : list string -> string -> Prop :=
| group_here refs r g : r ∈ refs -> strip_prefix "@" r = Some g -> names_group refs g
| group_through refs r g ms g' :
    r ∈ refs -> strip_prefix "@" r = Some g -> gs !! g = Some ms -> names_group ms g' ->
    names_group refs g'.

(** Every group the references reach is defined. *)
Definition defined (refs : list string) : Prop := forall g, names_group refs g -> is_Some (gs !! g).

Lemma names_node_subset refs refs' n : refs ⊆ refs' -> names_node refs n -> names_node refs' n.
Proof.
  intros Hs Hn. revert Hs. destruct Hn as [refs m Hm Hp|refs r g ms m Hr Hp Hg Hm]; intros Hs.
  - apply names_here; [by apply Hs|done].
  - eapply names_through; [by apply Hs|done..].
Qed.

Lemma names_group_subset refs refs' g : refs ⊆ refs' -> names_group refs g -> names_group refs' g.
Proof.
  intros Hs Hn. revert Hs. destruct Hn as [refs r g1 Hr Hp|refs r g1 ms g2 Hr Hp Hg Hm]; intros Hs.
  - eapply group_here; [by apply Hs|done].
  - eapply group_through; [by apply Hs|done..].
Qed.

(** Plain references are out, groups are entered. *)
Definition processed (refs : list string) (out seen : gset string) : Prop :=
  forall r, r ∈ refs -> match strip_prefix "@" r with None => r ∈ out | Some g => g ∈ seen end.

(** The groups entered since [seen0] are defined and processed. *)
Definition entered (seen0 out seen : gset string) : Prop :=
  forall g, g ∈ seen -> g ∉ seen0 -> exists ms, gs !! g = Some ms /\ processed ms out seen.

Lemma processed_mono refs out seen out' seen' :
  out ⊆ out' -> seen ⊆ seen' -> processed refs out seen -> processed refs out' seen'.
Proof.
  intros Ho Hs Hp r Hr. specialize (Hp r Hr). destruct (strip_prefix "@" r); auto.
Qed.

Lemma entered_mono seen0 out seen out' :
  out ⊆ out' -> entered seen0 out seen -> entered seen0 out' seen.
Proof.
  intros Ho He g Hg Hn. destruct (He g Hg Hn) as (ms & ? & ?). exists ms. split; [done|].
  by eapply processed_mono.
Qed.

Lemma entered_trans seen0 seen1 out1 out2 seen2 :
  entered seen0 out1 seen1 -> out1 ⊆ out2 -> seen1 ⊆ seen2 -> entered seen1 out2 seen2 ->
  entered seen0 out2 seen2.
Proof.
  intros H1 Ho Hs H2 g Hg Hn. destruct (decide (g ∈ seen1)) as [Hg1|Hg1]; [|by apply H2].
  destruct (H1 g Hg1 Hn) as (ms & ? & ?). exists ms. split; [done|]. by eapply processed_mono.
Qed.

(** Once everything entered is processed, everything named is out. *)
Lemma processed_complete refs out seen n :
  entered ∅ out seen -> processed refs out seen -> names_node refs n -> n ∈ out.
Proof.
  intros He Hp Hn. induction Hn as [refs n Hr Hs|refs r g ms n Hr Hs Hg _ IH].
  - specialize (Hp n Hr). by rewrite Hs in Hp.
  - apply IH. specialize (Hp r Hr). rewrite Hs in Hp.
    destruct (He g Hp) as (ms' & Hms & Hpr); [set_solver|]. by simplify_eq.
Qed.

Lemma processed_defined refs out seen : entered ∅ out seen -> processed refs out seen -> defined refs.
Proof.
  intros He Hp g Hn. induction Hn as [refs r g Hr Hs|refs r g ms g' Hr Hs Hg _ IH];
    specialize (Hp r Hr); rewrite Hs in Hp;
    (destruct (He g Hp) as (ms' & Hms & Hpr); [set_solver|]).
  - by exists ms'.
  - simplify_eq. by apply IH.
Qed.

(** ** The search *)

Context `{JsonNumber}.

Abbreviation outcome := (gset string * gset string * option PolicyError)%type.

(** What a call that got [refs], [out] and [seen] promises of its result. *)
Definition expand_outcome (refs : list string) (out seen : gset string) (res : outcome) : Prop :=
  let '(out', seen', e) := res in
  out ⊆ out' /\ seen ⊆ seen' /\ (forall n, n ∈ out' -> n ∈ out \/ names_node refs n) /\
  match e with
  | None => processed refs out' seen' /\ entered seen out' seen'
  | Some (UnknownGroup g) => names_group refs g /\ gs !! g = None
  | Some (UnsupportedVersion _) => False
  end.

(** The inner loop. *)
Definition expand_each (fuel : nat) :=
  fix each (refs : list string) (out seen : gset string) : outcome :=
    match refs with
    | [] => (out, seen, None)
    | reference :: refs =>
        match strip_prefix "@" reference with
        | None => each refs ({[reference]} ∪ out) seen
        | Some name =>
            if decide (name ∈ seen) then each refs out seen
            else match gs !! name with
                 | None => (out, {[name]} ∪ seen, Some (UnknownGroup name))
                 | Some ms =>
                     match expand fuel gs ms out ({[name]} ∪ seen) with
                     | (out, seen, None) => each refs out seen
                     | failed => failed
                     end
                 end
        end
    end.

Lemma expand_S fuel refs out seen :
  expand (S fuel) gs refs out seen = expand_each fuel refs out seen.
Proof. reflexivity. Qed.

(** A reference that adds [r] or was entered before, followed by the rest. *)
Lemma expand_outcome_cons r refs out out1 seen seen1 res :
  out ⊆ out1 -> seen ⊆ seen1 ->
  (forall n, n ∈ out1 -> n ∈ out \/ names_node [r] n) ->
  processed [r] out1 seen1 -> entered seen out1 seen1 ->
  expand_outcome refs out1 seen1 res -> expand_outcome (r :: refs) out seen res.
Proof.
  destruct res as [[out' seen'] e]. intros Ho Hs Hn Hp He (Ho' & Hs' & Hn' & Hres).
  split_and!; [by etrans|by etrans| |].
  - intros n [Hin|Hin]%Hn'.
    + destruct (Hn n Hin) as [|Hr]; [by left|right].
      eapply names_node_subset; [|exact Hr]. set_solver.
    + right. eapply names_node_subset; [|exact Hin]. set_solver.
  - destruct e as [[v|g]|]; [done| |].
    + destruct Hres as [Hg ?]. split; [|done]. eapply names_group_subset; [|exact Hg]. set_solver.
    + destruct Hres as [Hpr Her]. split.
      * intros x [->|Hx]%elem_of_cons; [|by apply Hpr].
        eapply processed_mono; [exact Ho'|exact Hs'|exact Hp|set_solver].
      * by eapply entered_trans.
Qed.

Lemma expand_spec fuel refs out seen :
  size (dom gs ∖ seen) < fuel -> expand_outcome refs out seen (expand fuel gs refs out seen).
Proof.
  revert refs out seen. induction fuel as [|fuel IH]; intros refs out seen; [lia|].
  rewrite expand_S. revert out seen.
  induction refs as [|r refs IHr]; intros out seen Hf; cbn [expand_each].
  { split_and!; [done|done|by left|by intros ? ?%elem_of_nil|by intros ? ? ?]. }
  destruct (strip_prefix "@" r) as [g|] eqn:Hr.
  - case_decide as Hg.
    { eapply (expand_outcome_cons r refs out out seen seen); [done|done|by left| |by intros ? ? ?|].
      - intros x ->%list_elem_of_singleton. by rewrite Hr.
      - by apply IHr. }
    destruct (gs !! g) as [ms|] eqn:Hms.
    2: { split_and!; [done|set_solver|by left| |done]. eapply group_here; [|done]. set_solver. }
    assert (Hin : expand_outcome ms out ({[g]} ∪ seen) (expand fuel gs ms out ({[g]} ∪ seen))).
    { apply IH. enough (size (dom gs ∖ ({[g]} ∪ seen)) < size (dom gs ∖ seen)) by lia.
      apply subset_size. split; [set_solver|]. intros Hs.
      assert (g ∈ dom gs ∖ seen) as Hx.
      { apply elem_of_difference. split; [by apply elem_of_dom_2 in Hms|done]. }
      apply Hs in Hx. set_solver. }
    destruct (expand fuel gs ms out ({[g]} ∪ seen)) as [[out1 seen1] e].
    destruct Hin as (Ho & Hs & Hn & Hres).
    assert (Hnamed : forall n, names_node ms n -> names_node [r] n).
    { intros n. eapply names_through; [|exact Hr|exact Hms]. set_solver. }
    destruct e as [[v|g']|].
    + done.
    + destruct Hres as [Hg' ?]. split_and!; [done|set_solver| | |done].
      * intros n [?|Hx%Hnamed]%Hn; [by left|]. right. eapply names_node_subset; [|exact Hx]. set_solver.
      * eapply group_through; [|exact Hr|exact Hms|done]. set_solver.
    + destruct Hres as [Hp He].
      eapply (expand_outcome_cons r refs out out1 seen seen1); [done|set_solver| | | |].
      * intros n [?|Hx%Hnamed]%Hn; [by left|by right].
      * intros x ->%list_elem_of_singleton. rewrite Hr. set_solver.
      * intros x Hx Hxs. destruct (decide (x = g)) as [->|Hxg].
        -- by exists ms.
        -- apply He; [done|set_solver].
      * apply IHr. enough (size (dom gs ∖ seen1) <= size (dom gs ∖ seen)) by lia.
        apply subseteq_size. set_solver.
  - eapply (expand_outcome_cons r refs out ({[r]} ∪ out) seen seen); [set_solver|done| | | |].
    + intros n [->%elem_of_singleton|?]%elem_of_union; [right|by left].
      apply names_here; [set_solver|done].
    + intros x ->%list_elem_of_singleton. rewrite Hr. set_solver.
    + intros x Hx Hxs. done.
    + by apply IHr.
Qed.
End named.

(** ** [expand_nodes] *)

Section expand_nodes.
Context `{JsonNumber} (p : Policy) (refs : list string) (out : gset string).

Lemma expand_nodes_outcome :
  exists seen, expand_outcome (groups p) refs out ∅
    ((expand_nodes p refs out).1, seen, (expand_nodes p refs out).2).
Proof.
  unfold expand_nodes.
  pose proof (expand_spec (groups p) (S (size (groups p))) refs out ∅) as He.
  destruct (expand _ _ _ _ _) as [[out' seen] e]. exists seen. apply He.
  rewrite difference_empty_L, size_dom. lia.
Qed.

(** The expansion succeeds exactly when every group it can reach is defined. *)
Lemma expand_nodes_error : (expand_nodes p refs out).2 = None <-> defined (groups p) refs.
Proof.
  destruct expand_nodes_outcome as (seen & _ & _ & _ & Hres).
  destruct (expand_nodes p refs out).2 as [[v|g]|].
  - done.
  - destruct Hres as [Hg Hn]. split; [done|]. intros Hd. destruct (Hd g Hg) as [? Hs]. congruence.
  - destruct Hres as [Hp He]. split; [|done]. intros _. by eapply processed_defined.
Qed.

Lemma expand_nodes_sound n :
  n ∈ (expand_nodes p refs out).1 -> n ∈ out \/ names_node (groups p) refs n.
Proof. destruct expand_nodes_outcome as (seen & _ & _ & Hn & _). apply Hn. Qed.

Lemma elem_of_expand_nodes n :
  defined (groups p) refs ->
  n ∈ (expand_nodes p refs out).1 <-> n ∈ out \/ names_node (groups p) refs n.
Proof.
  intros Hd. split; [apply expand_nodes_sound|].
  destruct expand_nodes_outcome as (seen & Ho & _ & _ & Hres).
  rewrite (proj2 expand_nodes_error Hd) in Hres. destruct Hres as [Hp He].
  intros [?|Hn]; [by apply Ho|]. by eapply processed_complete.
Qed.
End expand_nodes.

(** A policy that was read defines every group its rules reach. *)
Definition policy_checked `{JsonNumber} (p : Policy) : Prop :=
  forall refs, refs ∈ rule_refs p -> defined (groups p) refs.

(** What the check of the references [l] finds. *)
Lemma check_refs_outcome `{JsonNumber} p l probe :
  match each_result (check_refs p) l probe with
  | Ok _ => forall refs, refs ∈ l -> defined (groups p) refs
  | Err (UnknownGroup g) =>
      groups p !! g = None /\ exists refs, refs ∈ l /\ names_group (groups p) refs g
  | Err (UnsupportedVersion _) => False
  end.
Proof.
  revert probe. induction l as [|refs l IH]; intros probe; cbn [each_result]; [set_solver|].
  unfold check_refs at 1. pose proof (expand_nodes_error p refs probe) as He.
  destruct (expand_nodes_outcome p refs probe) as (seen & _ & _ & _ & Hres).
  destruct (expand_nodes p refs probe) as [out [[ver|g]|]]; cbn [fst snd] in *; [done| |].
  - destruct Hres as [Hn Hg]. split; [done|]. exists refs. split; [set_solver|done].
  - assert (Hd : defined (groups p) refs) by by apply He. specialize (IH out). revert IH.
    cbn [mbind result_bind]. destruct (each_result (check_refs p) l out) as [s'|[ver|g]]; set_solver.
Qed.

(** What reading a document finds. *)
Lemma policy_from_value_outcome `{JsonNumber} v :
  match policy_from_value v with
  | Ok p => policy_version v = Some POLICY_VERSION /\ p = policy_fields v /\ policy_checked p
  | Err (UnsupportedVersion version) =>
      version = policy_version v /\ version <> Some POLICY_VERSION
  | Err (UnknownGroup g) =>
      policy_version v = Some POLICY_VERSION /\ groups (policy_fields v) !! g = None /\
      exists refs, refs ∈ rule_refs (policy_fields v)
        /\ names_group (groups (policy_fields v)) refs g
  end.
Proof.
  unfold policy_from_value, policy_checked. case_decide as Hv; [|done].
  pose proof (check_refs_outcome (policy_fields v) (rule_refs (policy_fields v)) ∅) as Hc.
  cbv zeta. destruct (each_result _ _ _) as [s|[ver|g]]; cbn [mbind result_bind]; [|done|];
    split_and!; tauto.
Qed.

Lemma policy_from_value_checked `{JsonNumber} v p :
  policy_from_value v = Ok p -> policy_checked p.
Proof. intros Hp. pose proof (policy_from_value_outcome v) as Ho. rewrite Hp in Ho. tauto. Qed.

Section facts.
Context `{JsonNumber} (p : Policy).

(** ** One path *)

Definition forced (path : string) : bool := matches_any (force_full p) path.

Definition footprint_hits (path : string) : list (nat * Footprint) :=
  List.filter (fun ix => matches_any (fp_paths ix.2) path) (imap pair (footprints p)).

Definition rule_hits (path : string) : list BackendRule :=
  List.filter (fun rule => rule_matches rule path) (backend_rules p).

Definition path_class (path : string) : PathClass :=
  if forced path then ForceFull
  else match footprint_hits path, rule_hits path with
       | [], [] => if matches_any (ci_irrelevant p) path then Inert else Unknown
       | _, _ => Matched
       end.

Definition path_match (path : string) : PathMatch := {|
  pm_path := path; pm_class := path_class path;
  pm_footprints := if forced path then [] else (footprint_hits path).*1;
  pm_backend_rules := if forced path then [] else br_id <$> rule_hits path |}.

Definition is_core (rule : BackendRule) : bool := (tier rule =? "core")%string.

(** A rule that matched the path names the node. *)
Definition selects (path node : string) : Prop :=
  forced path = false /\
  ((exists ix, ix ∈ footprint_hits path /\ names_node (groups p) (fp_nodes ix.2) node) \/
   (exists rule, rule ∈ rule_hits path /\ is_core rule = false
      /\ names_node (groups p) (extra_nodes rule) node)).

Definition core_hit (path : string) : Prop :=
  forced path = false /\ exists rule, rule ∈ rule_hits path /\ is_core rule = true.

(** ** The loops over footprints and rules *)

Lemma footprint_loop path l sel found :
  (forall ix, ix ∈ l -> defined (groups p) (fp_nodes ix.2)) ->
  let hits := List.filter (fun ix => matches_any (fp_paths ix.2) path) l in
  let '(sel', found') := foldl (footprint_step p path) (sel, found) l in
  found' = found ++ hits.*1 /\ sel_core_rule sel' = sel_core_rule sel /\
  forall n, n ∈ sel_nodes sel' <->
    n ∈ sel_nodes sel \/ exists ix, ix ∈ hits /\ names_node (groups p) (fp_nodes ix.2) n.
Proof.
  revert sel found. induction l as [|[i f] l IH]; intros sel found Hd; cbn [foldl List.filter].
  { split_and!; [by rewrite app_nil_r|done|]. intros n. split; [by left|].
    intros [?|(ix & ?%elem_of_nil & _)]; done. }
  unfold footprint_step at 2. cbn [snd].
  assert (Hdl : forall ix, ix ∈ l -> defined (groups p) (fp_nodes ix.2)).
  { intros ix Hix. apply Hd. set_solver. }
  destruct (matches_any (fp_paths f) path).
  - match goal with |- context [foldl _ (?s, ?fo) l] => specialize (IH s fo Hdl) end.
    cbv zeta in IH. destruct (foldl _ _ l) as [sel' found'].
    destruct IH as (-> & Hc & Hn). cbn [sel_core_rule sel_nodes] in *.
    split_and!; [by rewrite fmap_cons, <-app_assoc|done|]. intros n.
    rewrite Hn, (elem_of_expand_nodes p) by (apply (Hd (i, f)); set_solver).
    rewrite exists_cons. cbn [snd]. tauto.
  - by apply IH.
Qed.

Lemma rule_loop path l sel found :
  (forall rule, rule ∈ l -> defined (groups p) (extra_nodes rule)) ->
  let hits := List.filter (fun rule => rule_matches rule path) l in
  let '(sel', found') := foldl (rule_step p path) (sel, found) l in
  found' = found ++ (br_id <$> hits) /\
  (is_Some (sel_core_rule sel') <->
     is_Some (sel_core_rule sel) \/ exists rule, rule ∈ hits /\ is_core rule = true) /\
  forall n, n ∈ sel_nodes sel' <->
    n ∈ sel_nodes sel \/ exists rule, rule ∈ hits /\ is_core rule = false
      /\ names_node (groups p) (extra_nodes rule) n.
Proof.
  revert sel found. induction l as [|rule l IH]; intros sel found Hd; cbn [foldl List.filter].
  { split_and!; [by rewrite app_nil_r| |]; set_solver. }
  unfold rule_step at 2.
  assert (Hdl : forall rule, rule ∈ l -> defined (groups p) (extra_nodes rule)).
  { intros r Hr. apply Hd. set_solver. }
  destruct (rule_matches rule path); [|by apply IH].
  match goal with |- context [foldl _ (?s, ?fo) l] => specialize (IH s fo Hdl) end.
  cbv zeta in IH. destruct (foldl _ _ l) as [sel' found'].
  destruct IH as (-> & Hc & Hn). cbn [sel_core_rule sel_nodes] in *. fold (is_core rule) in *.
  split_and!; [by rewrite fmap_cons, <-app_assoc| |].
  - rewrite Hc, exists_cons. destruct (is_core rule) eqn:Hcore.
    + split; [by right; left|]. intros _. left. by eexists.
    + split; [tauto|]. intros [?|[?|?]]; [by left|done|by right].
  - intros n. rewrite Hn, exists_cons. destruct (is_core rule) eqn:Hcore.
    + split; [tauto|]. intros [?|[[? _]|?]]; [by left|done|by right].
    + rewrite elem_of_expand_nodes by (apply Hd; set_solver). tauto.
Qed.

(** ** The loop over the paths *)

Hypothesis checked : policy_checked p.

Lemma checked_footprint ix : ix ∈ imap pair (footprints p) -> defined (groups p) (fp_nodes ix.2).
Proof.
  intros (i & f & -> & Hf)%elem_of_lookup_imap_1. apply checked. unfold rule_refs.
  apply elem_of_app. left. apply list_elem_of_fmap. exists f. split; [done|].
  by eapply list_elem_of_lookup_2.
Qed.

Lemma checked_rule rule : rule ∈ backend_rules p -> defined (groups p) (extra_nodes rule).
Proof.
  intros Hr. apply checked. unfold rule_refs. apply elem_of_app. right.
  apply list_elem_of_fmap. eauto.
Qed.

(** What one turn adds. *)
Lemma scan_path_adds st path :
  let st' := scan_path p st path in
  scan_paths st' = scan_paths st ++ [path_match path] /\
  scan_unknown st' = scan_unknown st ++ (if decide (path_class path = Unknown) then [path] else []) /\
  force st' = force st || bool_decide (path_class path = ForceFull) /\
  all_inert st' = all_inert st && bool_decide (path_class path = Inert) /\
  (is_Some (sel_core_rule (selection st')) <->
     is_Some (sel_core_rule (selection st)) \/ core_hit path) /\
  (forall n, n ∈ sel_nodes (selection st') <-> n ∈ sel_nodes (selection st) \/ selects path n).
Proof.
  cbv zeta. unfold scan_path, path_match, path_class, core_hit, selects. fold (forced path).
  destruct (forced path).
  { cbn. rewrite app_nil_r, orb_true_r, andb_false_r.
    split_and!; try done; intros; split; [by left| |by left|]; intros [?|[??]]; done. }
  pose proof (footprint_loop path (imap pair (footprints p)) (selection st) [] checked_footprint)
    as Hf. cbv zeta in Hf.
  destruct (foldl (footprint_step p path) _ _) as [sel fps]. destruct Hf as (Hfps & Hfc & Hfn).
  pose proof (rule_loop path (backend_rules p) sel [] checked_rule) as Hr. cbv zeta in Hr.
  destruct (foldl (rule_step p path) _ _) as [sel' rules]. destruct Hr as (Hrules & Hrc & Hrn).
  fold (footprint_hits path) in Hfps, Hfn. fold (rule_hits path) in Hrules, Hrc, Hrn.
  cbn [app] in Hfps, Hrules.
  assert (Hmatched : match fps, rules with [], [] => false | _, _ => true end
    = match footprint_hits path, rule_hits path with [], [] => false | _, _ => true end).
  { rewrite Hfps, Hrules. by destruct (footprint_hits path), (rule_hits path). }
  cbn [scan_paths scan_unknown force all_inert selection]. rewrite Hmatched, <-Hfps, <-Hrules.
  assert (Hcore : is_Some (sel_core_rule sel') <-> is_Some (sel_core_rule (selection st)) \/
    false = false /\ exists rule, rule ∈ rule_hits path /\ is_core rule = true).
  { rewrite Hrc, Hfc. naive_solver. }
  assert (Hnodes : forall n, n ∈ sel_nodes sel' <-> n ∈ sel_nodes (selection st) \/ false = false /\
    ((exists ix, ix ∈ footprint_hits path /\ names_node (groups p) (fp_nodes ix.2) n) \/
     (exists rule, rule ∈ rule_hits path /\ is_core rule = false
        /\ names_node (groups p) (extra_nodes rule) n))).
  { intros n. rewrite Hrn, Hfn. naive_solver. }
  destruct (footprint_hits path) as [|f fs], (rule_hits path) as [|r rs],
    (matches_any (ci_irrelevant p) path); cbn [orb andb];
    rewrite ?app_nil_r, ?orb_false_r, ?andb_true_r, ?andb_false_r; split_and!; try done.
Qed.

(** What the whole loop has accumulated. *)
Lemma scan_paths_spec changed :
  let st := foldl (scan_path p) scan_start changed in
  scan_paths st = path_match <$> changed /\
  scan_unknown st = List.filter (fun path => bool_decide (path_class path = Unknown)) changed /\
  force st = existsb (fun path => bool_decide (path_class path = ForceFull)) changed /\
  all_inert st = forallb (fun path => bool_decide (path_class path = Inert)) changed /\
  (is_Some (sel_core_rule (selection st)) <-> exists path, path ∈ changed /\ core_hit path) /\
  (forall n, n ∈ sel_nodes (selection st) <-> exists path, path ∈ changed /\ selects path n).
Proof.
  induction changed as [|path changed IH] using rev_ind.
  { cbv zeta. cbn. split_and!; try done; [|intros n]; set_solver. }
  cbv zeta in *. rewrite foldl_snoc. set (st := foldl _ scan_start changed) in *.
  destruct IH as (H1 & H2 & H3 & H4 & H5 & H6).
  destruct (scan_path_adds st path) as (S1 & S2 & S3 & S4 & S5 & S6).
  rewrite S1, S2, S3, S4, S5, H1, H2, H3, H4, H5, fmap_app, List.filter_app, existsb_app, forallb_app.
  cbn [fmap list_fmap List.filter existsb forallb]. rewrite orb_false_r, andb_true_r.
  split_and!; [done| |done|done| |].
  - f_equal. by case_decide; [rewrite bool_decide_eq_true_2|rewrite bool_decide_eq_false_2].
  - set_solver.
  - intros n. rewrite S6, H6. set_solver.
Qed.

(** ** The verdict *)

Lemma classify_scan changed :
  nodes (classify p changed) = sel_nodes (selection (foldl (scan_path p) scan_start changed)) /\
  paths (classify p changed) = scan_paths (foldl (scan_path p) scan_start changed).
Proof.
  unfold classify. destruct changed as [|path l]; [done|]. by destruct (verdict_of _) as [v why].
Qed.

Lemma classify_verdict changed :
  changed <> [] ->
  verdict (classify p changed) = (verdict_of (foldl (scan_path p) scan_start changed)).1.
Proof. unfold classify. destruct changed; [done|]. by destruct (verdict_of _) as [v why]. Qed.

(** Nothing that forces the full suite. *)
Definition narrowable (st : Scan) : Prop :=
  sel_core_rule (selection st) = None /\ force st = false /\ scan_unknown st = [].

Lemma verdict_of_spec st :
  ((verdict_of st).1 = Skip <->
     narrowable st /\ sel_nodes (selection st) = ∅ /\ all_inert st = true) /\
  ((verdict_of st).1 = Selective <-> narrowable st /\ sel_nodes (selection st) <> ∅).
Proof.
  unfold verdict_of, narrowable.
  destruct (sel_core_rule _); [cbn; naive_solver|]. destruct (force st); [cbn; naive_solver|].
  destruct (scan_unknown st); [|cbn; naive_solver].
  case_decide; [|cbn; naive_solver]. destruct (all_inert st); cbn; naive_solver.
Qed.

Lemma all_of_class class changed :
  forallb (fun path => bool_decide (path_class path = class)) changed = true <->
  forall path, path ∈ changed -> path_class path = class.
Proof. rewrite forallb_elem. by setoid_rewrite bool_decide_eq_true. Qed.

Lemma none_of_class class changed :
  existsb (fun path => bool_decide (path_class path = class)) changed = false <->
  forall path, path ∈ changed -> path_class path <> class.
Proof. rewrite existsb_false. by setoid_rewrite bool_decide_eq_false. Qed.

Lemma no_unknown changed :
  List.filter (fun path => bool_decide (path_class path = Unknown)) changed = [] <->
  forall path, path ∈ changed -> path_class path <> Unknown.
Proof.
  induction changed as [|path l IH]; cbn [List.filter]; [split; [set_solver|done]|].
  case_bool_decide as Hu; [|rewrite IH; set_solver]. split; [done|]. intros Hall.
  by destruct (Hall path); [set_solver|].
Qed.

Lemma narrowable_scan changed :
  narrowable (foldl (scan_path p) scan_start changed) <->
  (forall path, path ∈ changed -> path_class path = Matched \/ path_class path = Inert) /\
  (forall path, path ∈ changed -> ~ core_hit path).
Proof.
  destruct (scan_paths_spec changed) as (_ & Hu & Hf & _ & Hc & _). unfold narrowable.
  rewrite Hu, Hf, no_unknown, none_of_class, eq_None_not_Some, Hc. split.
  - intros (H1 & H2 & H3). split; [|by intros path Hp Hh; apply H1; eauto].
    intros path Hp. specialize (H2 path Hp). specialize (H3 path Hp).
    destruct (path_class path); tauto.
  - intros [H1 H2]. split_and!; [by intros (path & Hp & Hh); eapply H2| |];
      intros path Hp; destruct (H1 path Hp) as [-> | ->]; done.
Qed.

Lemma inert_selects_nothing path : path_class path = Inert ->
  ~ core_hit path /\ forall n, ~ selects path n.
Proof.
  unfold path_class, core_hit, selects. destruct (forced path); [done|].
  destruct (footprint_hits path); [|done]. destruct (rule_hits path); [|done]. set_solver.
Qed.

Lemma verdict_skip changed :
  verdict (classify p changed) = Skip <->
  changed <> [] /\ forall path, path ∈ changed -> path_class path = Inert.
Proof.
  destruct (decide (changed = [])) as [->|Hne]; [cbn; split; [done|by intros [? _]]|].
  rewrite classify_verdict by done. rewrite (proj1 (verdict_of_spec _)), narrowable_scan.
  destruct (scan_paths_spec changed) as (_ & _ & _ & Hi & _ & Hn).
  rewrite Hi, all_of_class. split; [tauto|]. intros [_ Hall]. split_and!; [| | |done].
  - intros path Hp. right. by apply Hall.
  - intros path Hp. by apply inert_selects_nothing, Hall.
  - apply set_eq. intros n. rewrite Hn. split; [|set_solver]. intros (path & Hp & Hs).
    by apply (inert_selects_nothing path (Hall path Hp)) in Hs.
Qed.

Lemma verdict_selective changed :
  verdict (classify p changed) = Selective <->
  (forall path, path ∈ changed -> path_class path = Matched \/ path_class path = Inert) /\
  (forall path, path ∈ changed -> ~ core_hit path) /\
  exists path n, path ∈ changed /\ selects path n.
Proof.
  destruct (decide (changed = [])) as [->|Hne].
  { cbn. split; [done|]. intros (_ & _ & path & n & Hp & _). by apply elem_of_nil in Hp. }
  rewrite classify_verdict by done. rewrite (proj2 (verdict_of_spec _)), narrowable_scan.
  destruct (scan_paths_spec changed) as (_ & _ & _ & _ & _ & Hn).
  assert (Hne' : sel_nodes (selection (foldl (scan_path p) scan_start changed)) <> ∅ <->
    exists path n, path ∈ changed /\ selects path n).
  { split.
    - intros [n Hin]%set_choose_L. apply Hn in Hin as (path & ? & ?). eauto.
    - intros (path & n & ? & ?) Heq. assert (n ∈ (∅ : gset string)) as Hx; [|set_solver].
      rewrite <-Heq. apply Hn. eauto. }
  rewrite Hne'. tauto.
Qed.
End facts.

(** ** Known nodes *)

Lemma foldl_collect {A X} `{Countable X} (f : gset X -> A -> gset X) (P : A -> X -> Prop) l bad x :
  (forall b a y, a ∈ l -> y ∈ f b a <-> y ∈ b \/ P a y) ->
  x ∈ foldl f bad l <-> x ∈ bad \/ exists a, a ∈ l /\ P a x.
Proof.
  revert bad. induction l as [|a l IH]; intros bad Hf; cbn [foldl]; [set_solver|].
  rewrite IH, Hf, exists_cons by set_solver. tauto.
Qed.

Section known.
Context `{JsonNumber} (p : Policy) (known : gset string).
Hypothesis checked : policy_checked p.

(** A checked rule labelled [label] names the unknown node. *)
Definition named_unknown (refs : list string) (label : string) (nr : string * string) : Prop :=
  nr.1 ∉ known /\ nr.2 = label /\ names_node (groups p) refs nr.1.

Lemma elem_of_check_known refs label bad nr :
  defined (groups p) refs ->
  nr ∈ check_known p known refs label bad <-> nr ∈ bad \/ named_unknown refs label nr.
Proof.
  intros Hd. unfold check_known, named_unknown. rewrite elem_of_union, elem_of_map.
  setoid_rewrite elem_of_difference. setoid_rewrite (elem_of_expand_nodes p refs ∅ _ Hd).
  destruct nr as [node rule]. cbn [fst snd]. split.
  - intros [(n & [= -> ->] & [?|?] & ?)|?]; [set_solver|right; tauto|by left].
  - intros [?|(? & -> & ?)]; [by right|left]. exists node. tauto.
Qed.

(** What the check of one path looks at: its footprints, and every rule whose
    identifier is that of a rule it matched. *)
Definition checked_against (path : string) (nr : string * string) : Prop :=
  forced p path = false /\
  ((exists ix, ix ∈ footprint_hits p path
      /\ named_unknown (fp_nodes ix.2) (footprint_label ix.1 ix.2) nr) \/
   (exists rule, rule ∈ backend_rules p /\ is_core rule = false
      /\ br_id rule ∈ br_id <$> rule_hits p path
      /\ named_unknown (extra_nodes rule) ("backend rule " +:+ br_id rule) nr)).

Lemma footprint_hits_index path ix :
  ix ∈ footprint_hits p path -> footprints p !! ix.1 = Some ix.2.
Proof.
  unfold footprint_hits. intros [(i & f & -> & Hf)%elem_of_lookup_imap_1 _]%elem_of_filter_b. done.
Qed.

Lemma elem_of_check_footprints path bad nr :
  nr ∈ foldl (fun bad index =>
      match footprints p !! index with
      | Some f => check_known p known (fp_nodes f) (footprint_label index f) bad
      | None => bad
      end) bad (footprint_hits p path).*1 <->
  nr ∈ bad \/ exists ix, ix ∈ footprint_hits p path
    /\ named_unknown (fp_nodes ix.2) (footprint_label ix.1 ix.2) nr.
Proof.
  rewrite (foldl_collect _ (fun index nr => exists f, footprints p !! index = Some f
    /\ named_unknown (fp_nodes f) (footprint_label index f) nr)).
  - apply or_iff_compat_l. split.
    + intros (index & (ix & -> & Hix)%list_elem_of_fmap & f & Hf & Hn). exists ix.
      rewrite (footprint_hits_index path) in Hf by done. by injection Hf as <-.
    + intros (ix & Hix & Hn). exists ix.1. split; [apply list_elem_of_fmap; eauto|].
      exists ix.2. split; [by eapply footprint_hits_index|done].
  - intros b index y _. destruct (footprints p !! index) as [f|] eqn:Hf; [|naive_solver].
    rewrite elem_of_check_known; [naive_solver|].
    apply (checked_footprint p checked (index, f)). apply elem_of_lookup_imap. eauto.
Qed.

Lemma elem_of_named_rules (ids : list string) rule :
  rule ∈ List.filter (fun rule => negb (tier rule =? "core")%string
                                  && bool_decide (br_id rule ∈ ids)) (backend_rules p) <->
  rule ∈ backend_rules p /\ is_core rule = false /\ br_id rule ∈ ids.
Proof. by rewrite elem_of_filter_b, andb_true_iff, negb_true_iff, bool_decide_eq_true. Qed.

Lemma elem_of_check_entry path bad nr :
  nr ∈ check_entry p known bad (path_match p path) <-> nr ∈ bad \/ checked_against path nr.
Proof.
  unfold check_entry, checked_against, path_match. cbn [pm_footprints pm_backend_rules].
  rewrite (foldl_collect _ (fun rule nr =>
    named_unknown (extra_nodes rule) ("backend rule " +:+ br_id rule) nr)).
  2: { intros b rule y [Hr _]%elem_of_filter_b. apply elem_of_check_known.
       by apply (checked_rule p checked). }
  destruct (forced p path).
  - cbn [foldl]. split; [|by intros [?|[? _]]; [left|]].
    intros [?|(rule & (_ & _ & ?%elem_of_nil)%elem_of_named_rules & _)]; [by left|done].
  - rewrite elem_of_check_footprints. split.
    + intros [[?|?]|(rule & (? & ? & ?)%elem_of_named_rules & ?)];
        [by left|by right; split; [|left]|].
      right. split; [done|]. right. by exists rule.
    + intros [?|(_ & [?|(rule & ? & ? & ? & ?)])]; [by left; left|by left; right|].
      right. exists rule. by rewrite elem_of_named_rules.
Qed.

Lemma elem_of_known_bad changed nr :
  nr ∈ foldl (check_entry p known) ∅ (paths (classify p changed)) <->
  exists path, path ∈ changed /\ checked_against path nr.
Proof.
  rewrite (proj2 (classify_scan p changed)), (proj1 (scan_paths_spec p checked changed)).
  rewrite (foldl_collect _ (fun pm nr => exists path, pm = path_match p path
    /\ checked_against path nr)).
  - setoid_rewrite list_elem_of_fmap. split.
    + intros [?|(pm & (path & -> & Hp) & path' & Heq & Hc)]; [set_solver|].
      exists path. split; [done|]. injection Heq as <-. done.
    + intros (path & Hp & Hc). right. exists (path_match p path). split; eauto.
  - intros b pm y (path & -> & _)%list_elem_of_fmap. rewrite elem_of_check_entry.
    apply or_iff_compat_l. split; [eauto|]. intros (path' & Heq & Hc). by injection Heq as <-.
Qed.
(** A selected node that is not known is found. *)
Lemma unselected_known changed n :
  (forall path nr, path ∈ changed -> ~ checked_against path nr) ->
  n ∈ nodes (classify p changed) -> n ∈ known.
Proof.
  rewrite (proj1 (classify_scan p changed)). intros Hnone Hn.
  apply (scan_paths_spec p checked changed) in Hn as (path & Hp & Hf & Hn).
  destruct (decide (n ∈ known)) as [|Hk]; [done|exfalso].
  destruct Hn as [([i f] & Hix & Hn)|(rule & Hr & Hc & Hn)].
  - apply (Hnone path (n, footprint_label i f) Hp). split; [done|]. left. by exists (i, f).
  - apply (Hnone path (n, "backend rule " +:+ br_id rule) Hp). split; [done|]. right.
    exists rule. split_and!; [|done|by apply list_elem_of_fmap_2|done].
    by apply elem_of_filter_b in Hr as [? _].
Qed.
End known.
