(* ===== verification/ChangeProps.v ===== *)
(** * change-classifier: the theorems

    What a glob matches, which nodes a change selects, when a verdict skips or
    narrows the suite, and when a stale policy is refused. *)
From S2P Require Import Prelude RustStr External ChangeClassifier ChangeGlob ChangeFacts.

(** ** Globs *)

(** C20: A glob matches exactly the paths that can be cut into one piece per token,
    from beginning to end: any bytes for a double star, no slash for a star, one
    byte but a slash for a question mark, itself for anything else.  A double star
    takes the slash after it along, so what follows may begin anywhere in the
    path, also in the middle of a name.  A question mark stands for a byte and not, as
    the documentation has it, for a character: one of several bytes is not matched by a
    question mark, and is matched by as many question marks as it has bytes. *)
Theorem glob_match_exact :
  (forall pattern path, glob_match pattern path = true <-> matches (tokens pattern) path) /\
  (forall rest before t, glob_match rest t = true ->
     glob_match ("**/" +:+ rest) (before +:+ t) = true) /\
  (forall s, glob_match "?" s = true <-> exists c, s = str1 c /\ c <> "/"%char) /\
  glob_match "?" "é" = false /\ glob_match "??" "é" = true.
Proof.
  split_and!; [apply glob_inner_spec| | |done|done].
  - intros rest before t Hm.
    apply glob_inner_spec. change (tokens ("**/" +:+ rest)) with (AnyRun :: tokens rest).
    apply matches_cons. exists before, t. split_and!; [done|done|by apply glob_inner_spec].
  - intros s. unfold glob_match. rewrite glob_inner_spec. change (tokens "?") with [OneChar].
    rewrite matches_cons. setoid_rewrite matches_nil. split.
    + intros (a & b & -> & (c & -> & Hc) & ->). exists c. by rewrite str_app_nil_r.
    + intros (c & -> & Hc). exists (str1 c), "". rewrite str_app_nil_r. split_and!; [done|by exists c|done].
Qed.

(** ** A policy to evaluate the definitions on *)

Definition names (l : list string) : @value integer_number :=
  @Array integer_number ((@VString integer_number) <$> l).

(** A footprint over [src] whose nodes come through a group, and a backend rule. *)
Definition demo_policy : @value integer_number :=
  @Object integer_number
    [("version", @Number integer_number 2%Z); ("force_full", names ["Cargo.lock"]);
     ("ci_irrelevant", names ["*.md"]);
     ("groups", @Object integer_number [("fast", names ["unit"; "@lint"; "@fast"]); ("lint", names ["clippy"])]);
     ("footprints", @Array integer_number
        [@Object integer_number [("paths", names ["src/**"]); ("nodes", names ["@fast"])]]);
     ("backend_rules", @Array integer_number
        [@Object integer_number [("id", @VString integer_number "kvm"); ("paths", names ["vm/**"]);
                                 ("extra_nodes", names ["boot"])]])].

Definition demo_read : Policy := @policy_fields integer_number demo_policy.

Example demo_policy_read : @policy_from_value integer_number demo_policy = Ok demo_read.
Proof. reflexivity. Qed.

Example demo_verdicts :
  let c := @classify integer_number demo_read ["src/a/b.rs"; "README.md"] in
  verdict c = Selective /\ nodes c = {["unit"; "clippy"]} /\ components c = {["src"]} /\
  verdict (@classify integer_number demo_read ["README.md"]) = Skip /\
  verdict (@classify integer_number demo_read ["src/a"; "x"]) = Full.
Proof. cbv zeta. split_and!; reflexivity. Qed.

(** ** Verdicts *)

(** C21: The verdict of a policy that was read: the suite is skipped exactly for a
    change whose every path is inert (matches no forcing glob, no footprint and no
    rule, and is declared irrelevant), and narrowed exactly when no path forces the
    suite or is unknown, no core rule matches and some node is selected; anything
    else, an empty change included, runs everything.  Each path is listed with its
    own class. *)
Theorem verdict_exact `{JsonNumber} v p changed :
  policy_from_value v = Ok p ->
  let c := classify p changed in
  (verdict c = Skip <-> changed <> [] /\ forall path, path ∈ changed -> path_class p path = Inert) /\
  (verdict c = Selective <->
     (forall path, path ∈ changed -> path_class p path = Matched \/ path_class p path = Inert) /\
     (forall path, path ∈ changed -> ~ core_hit p path) /\
     exists path n, path ∈ changed /\ selects p path n) /\
  paths c = path_match p <$> changed.
Proof.
  intros Hp%policy_from_value_checked. cbv zeta.
  split_and!; [by apply verdict_skip|by apply verdict_selective|].
  rewrite (proj2 (classify_scan p changed)). by apply (scan_paths_spec p Hp).
Qed.

Lemma verdict_exact_witness :
  verdict (@classify integer_number demo_read ["README.md"]) = Skip <->
  ["README.md"] <> [] /\
  forall path, path ∈ ["README.md"] -> @path_class integer_number demo_read path = Inert.
Proof. apply (@verdict_exact integer_number demo_policy _ ["README.md"] demo_policy_read). Defined.

(** ** Nodes *)

(** The references a rule of the policy expands. *)
Definition expanded_by_rule `{JsonNumber} (p : Policy) (refs : list string) : Prop :=
  (exists f, f ∈ footprints p /\ refs = fp_nodes f) \/ (exists r, r ∈ backend_rules p /\ refs = extra_nodes r).

(** One of the globs matches the path. *)
Definition hit (globs : list string) (path : string) : Prop := exists g, g ∈ globs /\ matches (tokens g) path.

(** A rule matches the path, or what of it lies in a directory of its own. *)
Definition rule_hit (r : BackendRule) (path : string) : Prop :=
  hit (br_paths r) path
  \/ exists dir globs inner, (dir, globs) ∈ scoped_paths r /\ path = dir +:+ "/" +:+ inner /\ hit globs inner.

(** A footprint or a non-core rule that matches the path names the node, and the path does
    not force the full suite. *)
Definition named_for `{JsonNumber} (p : Policy) (path n : string) : Prop :=
  ~ hit (force_full p) path
  /\ ((exists f, f ∈ footprints p /\ hit (fp_paths f) path /\ names_node (groups p) (fp_nodes f) n)
      \/ exists r, r ∈ backend_rules p /\ tier r <> "core" /\ rule_hit r path
           /\ names_node (groups p) (extra_nodes r) n).

Lemma matches_any_spec globs path : matches_any globs path = true <-> hit globs path.
Proof.
  unfold matches_any, hit. rewrite existsb_elem. unfold glob_match. by setoid_rewrite glob_inner_spec.
Qed.

Lemma rule_matches_spec r path : rule_matches r path = true <-> rule_hit r path.
Proof.
  unfold rule_matches, rule_hit. rewrite orb_true_iff, matches_any_spec, existsb_elem. f_equiv. split.
  - intros ([dir globs] & Hin & Hm). cbn [fst snd] in Hm. unfold inside in Hm.
    destruct (strip_prefix dir path) as [rest|] eqn:Hd; cbn [mbind option_bind] in Hm; [|done].
    destruct (strip_prefix "/" rest) as [inner|] eqn:Hr; [|done]. apply strip_prefix_Some in Hd as ->.
    apply strip_prefix_Some in Hr as ->. exists dir, globs, inner. by rewrite <- matches_any_spec.
  - intros (dir & globs & inner & Hin & -> & Hm). exists (dir, globs). split; [done|]. cbn [fst snd]. unfold inside.
    rewrite (proj2 (strip_prefix_Some _ _ _) eq_refl). cbn [mbind option_bind].
    rewrite (proj2 (strip_prefix_Some _ _ _) eq_refl). by apply matches_any_spec.
Qed.

Lemma selects_named `{JsonNumber} p path n : selects p path n <-> named_for p path n.
Proof.
  unfold selects, named_for, forced. rewrite <- matches_any_spec, not_true_iff_false.
  assert (Hf : (exists ix, ix ∈ footprint_hits p path /\ names_node (groups p) (fp_nodes ix.2) n)
    <-> exists f, f ∈ footprints p /\ hit (fp_paths f) path /\ names_node (groups p) (fp_nodes f) n).
  { unfold footprint_hits. setoid_rewrite elem_of_filter_b. setoid_rewrite matches_any_spec. split.
    - intros ([i f] & [Hin Hh] & Hn). apply elem_of_lookup_imap in Hin as (i' & f' & [= -> ->] & Hin).
      exists f'. split; [by eapply list_elem_of_lookup_2|done].
    - intros (f & [i Hin]%list_elem_of_lookup & Hh & Hn). exists (i, f). split_and!; [|done|done].
      apply elem_of_lookup_imap. by exists i, f. }
  assert (Hr : (exists rule, rule ∈ rule_hits p path /\ is_core rule = false /\ names_node (groups p) (extra_nodes rule) n)
    <-> exists r, r ∈ backend_rules p /\ tier r <> "core" /\ rule_hit r path /\ names_node (groups p) (extra_nodes r) n).
  { unfold rule_hits, is_core. setoid_rewrite elem_of_filter_b. setoid_rewrite rule_matches_spec.
    setoid_rewrite String.eqb_neq. naive_solver. }
  by rewrite Hf, Hr.
Qed.

Lemma elem_of_rule_refs `{JsonNumber} p refs : refs ∈ rule_refs p <-> expanded_by_rule p refs.
Proof.
  unfold rule_refs, expanded_by_rule. rewrite elem_of_app, !list_elem_of_fmap. naive_solver.
Qed.

(** C22: Reading a policy refuses exactly the documents whose version is not 2 and those
    with a rule that names, directly or through groups, a group that is not
    defined; with a policy that is accepted, whatever cycles its groups have, a
    change selects exactly the nodes that are named, directly or through groups, by
    a footprint or a non-core rule that matches one of its paths, a path that
    forces the full suite aside. *)
Theorem selected_nodes_exact `{JsonNumber} v :
  let described := policy_fields v in
  let gs := groups described in
  let version := n ← value_get v "version"; as_u64 n in
  match policy_from_value v with
  | Ok p =>
      p = described /\ version = Some 2%Z /\
      (forall refs g, expanded_by_rule p refs -> names_group gs refs g -> is_Some (gs !! g)) /\
      forall changed n,
        n ∈ nodes (classify p changed) <-> exists path, path ∈ changed /\ named_for p path n
  | Err (UnsupportedVersion found) => found = version /\ version <> Some 2%Z
  | Err (UnknownGroup g) =>
      version = Some 2%Z /\ gs !! g = None
      /\ exists refs, expanded_by_rule described refs /\ names_group gs refs g
  end.
Proof.
  cbv zeta. pose proof (policy_from_value_outcome v) as Ho.
  destruct (policy_from_value v) as [p|[version|g]]; [|by destruct Ho as [-> ?]|by setoid_rewrite elem_of_rule_refs in Ho].
  destruct Ho as (Hv & -> & Hc). split_and!; [done|done| |].
  - intros refs g Hr. by apply Hc, elem_of_rule_refs.
  - intros changed n. setoid_rewrite <- selects_named.
    rewrite (proj1 (classify_scan _ changed)). by apply (scan_paths_spec _ Hc changed).
Qed.

(** A classification against a list of known nodes is the plain one, unchanged,
    or it is refused with a non-empty list, sorted and without repetition, of
    exactly the pairs of an unknown node and a rule naming it, among the rules
    checked for some path: the footprints that match it and the non-core rules with
    the identifier of one that does.  A classification that is not refused selects
    known nodes only. *)
Theorem known_nodes_exact `{JsonNumber} v p changed known :
  policy_from_value v = Ok p ->
  match classify_known p changed known with
  | Ok c =>
      c = classify p changed /\ nodes c ⊆ known /\
      forall path nr, path ∈ changed -> ~ checked_against p known path nr
  | Err bad =>
      bad <> [] /\ NoDup bad /\ StronglySorted rle bad /\
      forall nr, nr ∈ bad <-> exists path, path ∈ changed /\ checked_against p known path nr
  end.
Proof.
  intros Hp%policy_from_value_checked. unfold classify_known. set (found := foldl _ _ _).
  assert (Hf : forall nr, nr ∈ btree_elems found <->
    exists path, path ∈ changed /\ checked_against p known path nr).
  { intros nr. rewrite elem_of_btree_elems. by apply elem_of_known_bad. }
  pose proof (btree_elems_NoDup found) as Hnd. pose proof (btree_elems_sorted found) as Hs.
  destruct (btree_elems found) as [|b bad]; [|done].
  assert (Hnone : forall path nr, path ∈ changed -> ~ checked_against p known path nr).
  { intros path nr Hpath Hc. apply (not_elem_of_nil nr), Hf. eauto. }
  split_and!; [done| |done]. intros n Hn. apply (unselected_known p known Hp changed); eauto.
Qed.

Lemma known_nodes_exact_witness :
  @classify_known integer_number demo_read ["src/a"] {["unit"]}
  = Err [("clippy", "footprint 0 (src)")] /\
  NoDup [("clippy", "footprint 0 (src)")].
Proof.
  assert (Hc : @classify_known integer_number demo_read ["src/a"] {["unit"]}
    = Err [("clippy", "footprint 0 (src)")]) by reflexivity.
  pose proof (@known_nodes_exact integer_number demo_policy demo_read ["src/a"] {["unit"]}
    demo_policy_read) as Hk.
  rewrite Hc in Hk. split; [exact Hc|apply Hk].
Defined.
