(* ===== verification/QueueTests.v ===== *)
(** * merge-queue: validation as a set of tests ([rs/merge-queue/src/tests.rs])

    Test identifiers, selections, the results of one run and validation claims. *)
From S2P Require Import Prelude RustStr External.

Definition CASE_SEPARATOR : string := "::".

(** ** [TestId] *)

Record TestId := { step : string; case : option string }.

#[export] Instance TestId_eq_dec : EqDecision TestId.
Proof. solve_decision. Defined.

Definition TestId_fields (t : TestId) : string * option string := (step t, case t).

#[export] Program Instance TestId_countable : Countable TestId :=
  inj_countable' TestId_fields (fun f => {| step := f.1; case := f.2 |}) _.
Next Obligation. by intros []. Qed.

#[export] Instance TestId_fields_inj : Inj (=) (=) TestId_fields.
Proof. by intros [] [] [= -> ->]. Qed.

#[export] Instance TestId_ord : RustOrd TestId := inj_ord TestId_fields.

Definition TestId_step (s : string) : TestId := {| step := s; case := None |}.

Inductive TestIdError :=
| EmptyStep (text : string)
| EmptyCase (text : string)
| IdCharacter (text : string).

#[export] Instance TestIdError_eq_dec : EqDecision TestIdError.
Proof. solve_decision. Defined.

(** What [TestId::parse] reports. *)
Definition TestIdError_to_string `{StrDebug} (e : TestIdError) : string :=
  match e with
  | EmptyStep text => "invalid test id " +:+ debug_str text +:+ ": empty step"
  | EmptyCase text => "invalid test id " +:+ debug_str text +:+ ": empty case"
  | IdCharacter text =>
      "invalid test id " +:+ debug_str text +:+ ": step and case must not contain whitespace or '#' "
      +:+ "(form is `step` or `step::case`)"
  end.

(** [any(|c| c.is_whitespace() || c == '#')] *)
Definition has_delimiter (s : string) : bool :=
  existsb (fun c => char_is_whitespace c || (c =? "#")%string) (chars s).

(** [TestId::parse] *)
Definition TestId_parse (text : string) : result TestIdError TestId :=
  let text := str_trim text in
  let '(s, c) := match split_once_str CASE_SEPARATOR text with
                 | Some (s, c) => (s, Some c)
                 | None => (text, None)
                 end in
  if str_is_empty s then Err (EmptyStep text)
  else if default false (str_is_empty <$> c) then Err (EmptyCase text)
  else if has_delimiter s || default false (has_delimiter <$> c) then Err (IdCharacter text)
  else Ok {| step := s; case := c |}.

Definition whole_step (t : TestId) : TestId := TestId_step (step t).

(** [Display for TestId] *)
Definition TestId_to_string (t : TestId) : string :=
  match case t with
  | Some c => step t +:+ CASE_SEPARATOR +:+ c
  | None => step t
  end.

(** ** [Selection] *)

Inductive Selection :=
| All
| Tests (tests : gset TestId).

#[export] Instance Selection_eq_dec : EqDecision Selection.
Proof. solve_decision. Defined.

Definition Selection_default : Selection := Tests ∅.

Definition Selection_of (tests : list TestId) : Selection := Tests (list_to_set tests).

Definition is_all (s : Selection) : bool := match s with All => true | Tests _ => false end.

Definition Selection_is_empty (s : Selection) : bool :=
  match s with All => false | Tests tests => bool_decide (tests = ∅) end.

(** [fn covers] *)
Definition set_covers (tests : gset TestId) (test : TestId) : bool :=
  bool_decide (test ∈ tests)
  || (bool_decide (is_Some (case test)) && bool_decide (whole_step test ∈ tests)).

(** [Selection::covers] *)
Definition covers (s : Selection) (test : TestId) : bool :=
  match s with All => true | Tests tests => set_covers tests test end.

Definition Selection_union (s s' : Selection) : Selection :=
  match s, s' with
  | All, _ | _, All => All
  | Tests a, Tests b => Tests (a ∪ b)
  end.

Definition intersect (s s' : Selection) : Selection :=
  match s, s' with
  | All, x | x, All => x
  | Tests a, Tests b =>
      Tests (list_to_set (List.filter (fun test => set_covers a test && set_covers b test)
                            (btree_elems a ++ btree_elems b)))
  end.

(** [Selection::tests] *)
Definition listed (s : Selection) : option (gset TestId) :=
  match s with All => None | Tests tests => Some tests end.

Definition summary (s : Selection) : string :=
  match s with
  | All => "all"
  | Tests tests => if decide (size tests = 1) then "1 test" else pretty (size tests) +:+ " tests"
  end.

Inductive Scope := Complete | Focused.

Definition Scope_of (s : Selection) : Scope := if is_all s then Complete else Focused.

Definition Scope_as_str (s : Scope) : string :=
  match s with Complete => "complete" | Focused => "focused" end.

(** ** [Outcome] *)

Inductive Outcome := Pass | Fail | Skip | Error | Missing.

#[export] Instance Outcome_eq_dec : EqDecision Outcome.
Proof. solve_decision. Defined.

(** The order of the variants, which [derive(Ord)] compares. *)
Definition Outcome_index (o : Outcome) : nat :=
  match o with Pass => 0 | Fail => 1 | Skip => 2 | Error => 3 | Missing => 4 end.

Definition Outcome_ALL : list Outcome := [Pass; Fail; Skip; Error; Missing].

#[export] Program Instance Outcome_countable : Countable Outcome :=
  inj_countable' Outcome_index (fun n => nth n Outcome_ALL Pass) _.
Next Obligation. by intros []. Qed.

Definition is_bad (o : Outcome) : bool :=
  match o with Fail | Error | Missing => true | Pass | Skip => false end.

Definition Outcome_as_str (o : Outcome) : string :=
  match o with
  | Pass => "pass" | Fail => "fail" | Skip => "skip" | Error => "error" | Missing => "missing"
  end.

Definition Outcome_parse (text : string) : option Outcome :=
  let t := to_ascii_lowercase (str_trim text) in
  let among := existsb (String.eqb t) in
  if among ["pass"; "passed"; "ok"; "success"] then Some Pass
  else if among ["fail"; "failed"; "failure"] then Some Fail
  else if among ["skip"; "skipped"] then Some Skip
  else if among ["error"; "errored"; "timeout"; "timed-out"; "cancelled"] then Some Error
  else None.

(** ** Results *)

Record TestResult := {
  id : TestId;
  outcome : Outcome;
  duration_ms : option Z;
  log : option string;
}.

Record TestResults := {
  results : gmap TestId Outcome;
  durations_ms : gmap TestId Z;
  logs : gmap TestId string;
  unattributed : bool;
}.

Definition TestResults_default : TestResults :=
  {| results := ∅; durations_ms := ∅; logs := ∅; unattributed := false |}.

(** The worse outcome, by the order of the variants. *)
Definition worse (old new : Outcome) : Outcome :=
  if decide (Outcome_index old < Outcome_index new) then new else old.

Definition record (rs : TestResults) (r : TestResult) : TestResults := {|
  results := <[id r := worse (default (outcome r) (results rs !! id r)) (outcome r)]> (results rs);
  durations_ms := match duration_ms r with
                  | Some ms => <[id r := ms]> (durations_ms rs)
                  | None => durations_ms rs
                  end;
  logs := match log r with Some l => <[id r := l]> (logs rs) | None => logs rs end;
  unattributed := unattributed rs |}.

(** [TestResults::result] *)
Definition result_of (rs : TestResults) (t : TestId) : option TestResult :=
  (fun o => {| id := t; outcome := o; duration_ms := durations_ms rs !! t; log := logs rs !! t |})
  <$> results rs !! t.

(** The tests whose outcome satisfies [p]. *)
Definition tests_with (p : Outcome -> bool) (rs : TestResults) : gset TestId :=
  list_to_set (List.filter (fun kv => p kv.2) (btree_iter (results rs))).*1.

Definition attributed_failures : TestResults -> gset TestId :=
  tests_with (fun o => match o with Fail | Error => true | _ => false end).

Definition failed : TestResults -> gset TestId := tests_with is_bad.

Definition failed_results (rs : TestResults) : list TestResult :=
  omap (result_of rs) (btree_elems (failed rs)).

(** [TestResults::green] *)
Definition all_good (rs : TestResults) : bool :=
  forallb (fun o => negb (is_bad o)) (btree_values (results rs)).

Definition counts (rs : TestResults) : gmap Outcome nat :=
  foldl (fun m o => <[o := S (default 0 (m !! o))]> m) ∅ (btree_values (results rs)).

(** One turn of the loop of [require]. *)
Definition require_test (rs : TestResults) (test : TestId) : TestResults :=
  let reported :=
    bool_decide (is_Some (results rs !! test))
    || existsb (fun seen => (step seen =? step test)%string && bool_decide (case test = None))
         (btree_keys (results rs)) in
  if reported then rs
  else {| results := <[test := Missing]> (results rs); durations_ms := durations_ms rs;
          logs := logs rs; unattributed := unattributed rs |}.

Definition require (rs : TestResults) (s : Selection) : TestResults :=
  match listed s with
  | None => rs
  | Some tests => foldl require_test rs (btree_elems tests)
  end.

(** ** Claims *)

Record ValidationClaim := {
  selection : Selection;
  policy : string;
  scope : Scope;
  commit : string;
}.

(** [ValidationClaim::new] *)
Definition ValidationClaim_new (s : Selection) (policy commit : string) : ValidationClaim :=
  {| selection := s; policy := policy; scope := Scope_of s; commit := commit |}.

(** ** [parse_selection], of the text itself: reading an [@FILE] is I/O *)

Definition before_comment (line : string) : string :=
  match split_byte "#" line with piece :: _ => piece | [] => "" end.

Definition selection_words (line : string) : list string :=
  List.filter (fun word => negb (str_is_empty word))
    (split (fun c => existsb (String.eqb c) [","; " "; str1 "009"]) (before_comment line)).

(** The two nested loops as one over all the words. *)
Fixpoint parse_words (words : list string) (tests : gset TestId) : result TestIdError Selection :=
  match words with
  | [] => Ok (Tests tests)
  | word :: words =>
      if (word =? "all")%string then Ok All
      else test ← TestId_parse word; parse_words words ({[test]} ∪ tests)
  end.

Definition parse_selection_body (body : string) : result TestIdError Selection :=
  parse_words (concat (selection_words <$> str_lines body)) ∅.

(** The unit tests of the module. *)
Example test_ids :
  TestId_parse "rust.test::queue::bisect_halves"
  = Ok {| step := "rust.test"; case := Some "queue::bisect_halves" |} /\
  is_ok (TestId_parse "::x") = false /\ is_ok (TestId_parse "a::") = false /\
  is_ok (TestId_parse "a b") = false /\ is_ok (TestId_parse "a#b") = false.
Proof. split_and!; reflexivity. Qed.

Example selection_forms :
  parse_selection_body "all" = Ok All /\
  parse_selection_body "a, b c" = Ok (Selection_of (TestId_step <$> ["a"; "b"; "c"])) /\
  parse_selection_body "" = Ok Selection_default.
Proof. split_and!; by_eval. Qed.
