(* ===== verification/QueueModel.v ===== *)
(** * merge-queue: vocabulary ([rs/merge-queue/src/model.rs] and parts of [state.rs])

    Submitted changes, what holds them, the landing plan's records, and what a
    change waits on.  Serialization attributes are not modelled. *)
From S2P Require Import Prelude RustStr QueueTests.

Inductive ItemStatus := Queued | Landed | Ejected | Withdrawn.

#[export] Instance ItemStatus_eq_dec : EqDecision ItemStatus.
Proof. solve_decision. Defined.

Definition ItemStatus_as_str (s : ItemStatus) : string :=
  match s with
  | Queued => "queued" | Landed => "landed" | Ejected => "ejected" | Withdrawn => "withdrawn"
  end.

Record NotifyDelivery := {
  nd_key : string;
  nd_attempts : Z;
  nd_delivered : bool;
  nd_last_error : string;
}.

Definition NotifyDelivery_is_empty (d : NotifyDelivery) : bool :=
  str_is_empty (nd_key d) && (nd_attempts d =? 0)%Z && negb (nd_delivered d)
  && str_is_empty (nd_last_error d).

Inductive NotifyMode := Both | HooksOnly | NotifyOnly.

Definition NotifyMode_as_str (m : NotifyMode) : string :=
  match m with Both => "both" | HooksOnly => "hooks-only" | NotifyOnly => "notify-only" end.

(** [NotifyMode::parse]: the error names the value. *)
Definition NotifyMode_parse (value : string) : result string NotifyMode :=
  if (value =? "both")%string then Ok Both
  else if (value =? "hooks-only")%string then Ok HooksOnly
  else if (value =? "notify-only")%string then Ok NotifyOnly
  else Err value.

Definition NotifyMode_is_default (m : NotifyMode) : bool :=
  match m with Both => true | _ => false end.

Record Event := { at_ : string; ev_kind : string; detail : string }.

Record Requirement := { peer : string; req_commit : string; req_pr : option Z }.

Record HeldChange := { hc_pr : Z; hc_head : string }.

Record HeldCandidate := {
  tip : string;
  parent : string;
  changes : list HeldChange;
  prefixes : list string;
  hc_claim : ValidationClaim;
  run : string;
  validation : nat;
}.

(** [HeldCandidate::prs] *)
Definition candidate_prs (c : HeldCandidate) : list Z := hc_pr <$> changes c.

Record Ruling := { by_ : string; ruling_reason : string; ruling_at : string }.

Record Item := {
  pr : Z;
  head_ref : string;
  head : string;
  priority : Z;
  submitted_at : string;
  submitted_by : string;
  notify : string;
  shepherd : string;
  notify_mode : option NotifyMode;
  notify_delivery : NotifyDelivery;
  title : string;
  after : list Z;
  solo : bool;
  prioritized : bool;
  exact_ : bool;
  requires : list Requirement;
  claim : option ValidationClaim;
  source : string;
  close_pending : bool;
  validation_refusals : Z;
  suspect_reruns : Z;
  next_retry_at : string;
  last_refusal : string;
  flaky_nodes : list string;
  flaky_hold_until : string;
  hold_verdict : string;
  held_candidate : option HeldCandidate;
  accepted : option Ruling;
  escalated : string;
  deciding_report : string;
  deciding_failed : list TestResult;
  status : ItemStatus;
  landed_as : string;
  history : list Event;
}.

(** ** Holds for a ruling

    The markers are those of [validate.rs]. *)

Definition FLAKY_MARKER : string := "GREEN_FLAKY".
Definition INFRA_BLOCKED_MARKER : string := "INFRA-BLOCKED".
Definition SUSPECT_FLAKE_MARKER : string := "SUSPECT-FLAKE".

Definition effective_notify_mode (i : Item) (config_mode : NotifyMode) : NotifyMode :=
  default config_mode (notify_mode i).

Definition hold_label (i : Item) : string :=
  if str_is_empty (hold_verdict i) then FLAKY_MARKER else hold_verdict i.

Definition hold_kind (i : Item) : string :=
  if (hold_verdict i =? INFRA_BLOCKED_MARKER)%string then "held-infra-blocked"
  else if (hold_verdict i =? SUSPECT_FLAKE_MARKER)%string then "held-suspect-flake"
  else "held-green-flaky".

Definition clear_hold (i : Item) : Item :=
  {| pr := pr i; head_ref := head_ref i; head := head i; priority := priority i;
     submitted_at := submitted_at i; submitted_by := submitted_by i; notify := notify i;
     shepherd := shepherd i; notify_mode := notify_mode i; notify_delivery := notify_delivery i;
     title := title i; after := after i; solo := solo i; prioritized := prioritized i;
     exact_ := exact_ i; requires := requires i; claim := claim i; source := source i;
     close_pending := close_pending i; validation_refusals := validation_refusals i;
     suspect_reruns := suspect_reruns i; next_retry_at := next_retry_at i;
     last_refusal := last_refusal i; flaky_nodes := []; flaky_hold_until := "";
     hold_verdict := ""; held_candidate := None; accepted := None; escalated := escalated i;
     deciding_report := deciding_report i; deciding_failed := deciding_failed i;
     status := status i; landed_as := landed_as i; history := history i |}.

(** [until > at], of strings *)
Definition later (time at_ : string) : bool := bool_decide (~ rle time at_).

Definition is_queued (i : Item) : bool := bool_decide (status i = Queued).

Definition is_flaky_held_at (i : Item) (at_ : string) : bool :=
  is_queued i && negb (str_is_empty (flaky_hold_until i)) && later (flaky_hold_until i) at_.

Definition is_deferred_at (i : Item) (at_ : string) : bool :=
  is_queued i && negb (str_is_empty (next_retry_at i)) && later (next_retry_at i) at_.

(** ** Plans *)

Record PlannedBatch := { index : nat; prs : list Z; note : string }.

Record Held := {
  held_pr : Z;
  kind : string;
  reason : string;
  with_ : list Z;
  paths : list string;
}.

#[export] Instance Held_eq_dec : EqDecision Held.
Proof. solve_decision. Defined.

Record PlannedItem := {
  pi_pr : Z;
  pi_head : string;
  pi_priority : Z;
  pi_submitted_at : string;
  files : nat;
  conflict_degree : nat;
  pi_prioritized : bool;
  peripheral : bool;
  peripheral_source : string;
}.

Record Conflict := { a : Z; b : Z; conflict_paths : list string }.

Record Plan := {
  schema : string;
  created_at : string;
  base : string;
  base_sha : string;
  items : list PlannedItem;
  batches : list PlannedBatch;
  held : list Held;
  conflicts : list Conflict;
  dependencies : list (Z * Z);
  suggest_priority : list Z;
  prior_conflicts : list (Z * Z);
}.

Definition PLAN_SCHEMA : string := "merge-queue-plan/v1".

(** ** What a change waits on *)

Record Waiting := { waiting_pr : Z; waiting_status : string; through : list Z }.

(** [Waiting::describe] *)
Definition describe (w : Waiting) : string :=
  foldl (fun text n => text +:+ "#" +:+ pretty n +:+ ", which waits on ") "waiting on " (through w)
  +:+ "#" +:+ pretty (waiting_pr w) +:+ " (" +:+ waiting_status w +:+ ")".

(** [Waiting::named] *)
Definition named (w : Waiting) : Z := default (waiting_pr w) (list.head (through w)).

(** The variables of the search of [waiting_on]: [out], [seen] and the queue. *)
Record WaitSearch := {
  ws_out : list Waiting;
  ws_seen : gset Z;
  ws_queue : list (list Z * list Z);
}.

(** One dependency of an entry reached [through]. *)
Definition wait_step (items : gmap Z Item) (through : list Z) (ws : WaitSearch) (dep : Z)
  : WaitSearch :=
  let other (label : string) :=
    if existsb (fun w => waiting_pr w =? dep)%Z (ws_out ws) then ws
    else {| ws_out := ws_out ws ++ [{| waiting_pr := dep; waiting_status := label; through := through |}];
            ws_seen := ws_seen ws; ws_queue := ws_queue ws |} in
  match items !! dep with
  | Some item =>
      match status item with
      | Landed => ws
      | Queued =>
          if decide (dep ∈ ws_seen ws) then ws
          else {| ws_out := ws_out ws; ws_seen := {[dep]} ∪ ws_seen ws;
                  ws_queue := ws_queue ws ++ [(after item, through ++ [dep])] |}
      | Ejected | Withdrawn => other (ItemStatus_as_str (status item))
      end
  | None => other "not in the queue"
  end.

(** The loop; an entry is pushed once for a queued change, so one turn per change and
    one for the first entry are enough. *)
Fixpoint wait_loop (fuel : nat) (items : gmap Z Item) (ws : WaitSearch) : list Waiting :=
  match fuel with
  | 0 => ws_out ws
  | S fuel =>
      match ws_queue ws with
      | [] => ws_out ws
      | (deps, through) :: queue =>
          wait_loop fuel items
            (foldl (wait_step items through)
               {| ws_out := ws_out ws; ws_seen := ws_seen ws; ws_queue := queue |} deps)
      end
  end.

Definition waiting_on (pr : Z) (after : list Z) (items : gmap Z Item) : list Waiting :=
  wait_loop (S (S (size items))) items
    {| ws_out := []; ws_seen := {[pr]}; ws_queue := [(after, [])] |}.

Record WaitingChange := { wc_pr : Z; wc_waiting_on : list Waiting }.

Definition waiting_changes (l : list Item) : list WaitingChange :=
  let by_pr := map_collect ((fun i => (pr i, i)) <$> l) in
  omap (fun item =>
      if is_queued item then
        match waiting_on (pr item) (after item) by_pr with
        | [] => None
        | ws => Some {| wc_pr := pr item; wc_waiting_on := ws |}
        end
      else None) (btree_values by_pr).

(** ** Priority changes ([PriorityConfig] of [state.rs]) *)

Record PriorityConfig := { label : string; ci_paths : list string }.

Definition DEFAULT_PRIORITY_LABEL : string := "mq-priority".

(** [PriorityConfig::label] *)
Definition priority_label (p : PriorityConfig) : option string :=
  if (label p =? "")%string then Some DEFAULT_PRIORITY_LABEL
  else if (label p =? "-")%string then None
  else Some (label p).

Definition labelled (p : PriorityConfig) (labels : list string) : bool :=
  match priority_label p with
  | None => false
  | Some wanted =>
      existsb (fun l => to_ascii_lowercase l =? to_ascii_lowercase wanted)%string labels
  end.

(** The parts of a wildcard pattern after the first. *)
Fixpoint match_parts (parts : list string) (rest : string) : bool :=
  match parts with
  | [] => str_is_empty rest
  | [part] => ends_with rest part
  | part :: parts =>
      match split_once_str part rest with
      | Some (_, rest) => match_parts parts rest
      | None => false
      end
  end.

Definition path_matches (pattern path : string) : bool :=
  match strip_suffix "/" pattern with
  | Some dir => starts_with path (dir +:+ "/")
  | None =>
      if negb (str_contains_byte "*" pattern) then (pattern =? path)%string
      else match split_byte "*" pattern with
           | [] => str_is_empty path
           | part :: parts =>
               match strip_prefix part path with
               | Some rest => match_parts parts rest
               | None => false
               end
           end
  end.

Definition pattern_covers (pattern path : string) : bool :=
  path_matches pattern path
  || (negb (str_contains_byte "*" pattern) && starts_with path (trim_end_matches (String.eqb "/") pattern +:+ "/")).

Definition only_ci_paths (p : PriorityConfig) (files : list string) : bool :=
  match files with
  | [] => false
  | _ => forallb (fun path => existsb (fun pattern => pattern_covers pattern path) (ci_paths p)) files
         && negb (bool_decide (ci_paths p = []))
  end.
