(* ===== verification/QueuePlan.v ===== *)
(** * merge-queue: the landing plan ([rs/merge-queue/src/plan.rs])

    [make_plan]: the holds a change brings with it, the dependencies, the selection
    in dependency and priority order, and the batches; and [clusters] and [render].
    The probe itself, which runs [git], is an input. *)
From S2P Require Import Prelude RustStr External QueueTests QueueModel.
From S2P Require PlannerModel PlannerGraph.

(** [short]: the first 10 bytes. *)
Definition short (sha : string) : string := String.substring 0 10 sha.

(** [list] *)
Definition pr_list (prs : list Z) : string := join ", " ((fun pr => "#" +:+ pretty pr) <$> prs).

Record PeripheralMark := { mark_peripheral : bool; mark_cached : bool }.

(** The fields of [Probe] planning reads. *)
Record Probe := {
  heads : gmap Z (option string);
  touched : gmap Z (gset string);
  base_conflicts : gmap Z (list string);
  probe_conflicts : list Conflict;
  ancestry : list (Z * Z);
  external : gmap Z Held;
  ranges : gmap Z (gset string);
  marks : gmap Z PeripheralMark;
  prior : list (Z * Z);
}.

Record PlanOptions := {
  max_batch : nat;
  priority_config : PriorityConfig;
  peripheral_max_batch : nat;
}.

(** Not at the front, priority, conflict degree, submission time, number. *)
Abbreviation Rank := (bool * Z * nat * string * Z)%type.

Section plan.
Context `{StrDebug}.

(** [held.entry(entry.pr).or_insert(entry)] *)
Definition hold (held : gmap Z Held) (entry : Held) : gmap Z Held :=
  entry_or_insert (held_pr entry) entry held.

Definition held_for (pr : Z) (kind reason : string) : Held :=
  {| held_pr := pr; kind := kind; reason := reason; with_ := []; paths := [] |}.

(** ** 1. What holds a change by itself *)

Definition identity_hold (base : string) (probe : Probe) (item : Item) : option Held :=
  match heads probe !! pr item with
  | Some (Some current) =>
      if negb (current =? head item)%string then
        Some (held_for (pr item) "head-moved"
          ("head moved since submission (" +:+ short (head item) +:+ " -> " +:+ short current
           +:+ "); resubmit the new head"))
      else match base_conflicts probe !! pr item with
           | Some ((_ :: _) as ps) =>
               Some {| held_pr := pr item; kind := "conflicts-with-base";
                       reason := "conflicts with " +:+ base +:+ " on " +:+ join ", " ps
                                 +:+ "; rebase onto " +:+ base +:+ " and resubmit";
                       with_ := []; paths := ps |}
           | _ => None
           end
  | _ =>
      Some (held_for (pr item) "head-missing"
        ("head " +:+ debug_str (head_ref item) +:+ " no longer resolves; resubmit or withdraw"))
  end.

Definition suspect_reason (item : Item) : string :=
  hold_label item +:+ ": " +:+ join ", " (flaky_nodes item)
  +:+ " timed out or reached no verdict once; they run again beside the "
  +:+ "run, and it goes back to the queue if they pass (held until "
  +:+ flaky_hold_until item +:+ ")".

Definition ruling_text (item : Item) : string :=
  match held_candidate item, accepted item with
  | Some candidate, Some ruling =>
      "accepted by " +:+ by_ ruling +:+ ": a run lands " +:+ short (tip candidate)
      +:+ " if the base is still " +:+ short (parent candidate)
  | Some candidate, None =>
      "`merge-queue accept-flaky " +:+ join " " (pretty <$> candidate_prs candidate)
      +:+ " --by WHO --reason WHY` lands the validated commit " +:+ short (tip candidate)
      +:+ ", and `merge-queue retry " +:+ pretty (pr item) +:+ "` validates it again"
  | _, _ => "`merge-queue retry " +:+ pretty (pr item) +:+ "` returns it to the queue"
  end.

Definition flaky_reason (item : Item) : string :=
  let why := if (hold_verdict item =? INFRA_BLOCKED_MARKER)%string
             then "the host refused every measurement of them on a run and on its rerun"
             else "passed only after a retry" in
  "validation was " +:+ hold_label item +:+ " (" +:+ join ", " (flaky_nodes item) +:+ ": " +:+ why
  +:+ "); held for a ruling until " +:+ flaky_hold_until item +:+ "; " +:+ ruling_text item.

Definition refused_reason (item : Item) : string :=
  "validation admission refused to run ("
  +:+ (if str_is_empty (last_refusal item) then "retry later" else last_refusal item)
  +:+ "); stays queued, retry after " +:+ next_retry_at item
  +:+ " (refusal " +:+ pretty (validation_refusals item) +:+ ")".

(** One turn of the loop over escalations, rulings and deferrals. *)
Definition deferral_hold (at_ : string) (item : Item) : option Held :=
  if negb (str_is_empty (escalated item)) then
    Some (held_for (pr item) "escalated"
      ("escalated to its owner: " +:+ escalated item +:+ "; `merge-queue retry "
       +:+ pretty (pr item) +:+ "` returns it to the queue"))
  else if is_flaky_held_at item at_ && (hold_verdict item =? SUSPECT_FLAKE_MARKER)%string then
    Some (held_for (pr item) (hold_kind item) (suspect_reason item))
  else if is_flaky_held_at item at_ then
    Some (held_for (pr item) (hold_kind item) (flaky_reason item))
  else if is_deferred_at item at_ then
    Some (held_for (pr item) "validation-refused" (refused_reason item))
  else None.

Definition external_hold (probe : Probe) (item : Item) : option Held := external probe !! pr item.

(** The ejected and withdrawn changes whose commits [item] carries. *)
Definition carried (all_items : list Item) (probe : Probe) (item : Item) : list Z :=
  match ranges probe !! pr item with
  | None => []
  | Some range =>
      pr <$> List.filter (fun other =>
        bool_decide (status other = Ejected \/ status other = Withdrawn)
        && negb (pr other =? pr item)%Z && bool_decide (head other ∈ range)) all_items
  end.

Definition items_by_pr (all_items : list Item) : gmap Z Item :=
  map_collect ((fun item => (pr item, item)) <$> all_items).

Definition carried_hold (all_items : list Item) (probe : Probe) (item : Item) : option Held :=
  match carried all_items probe item with
  | [] => None
  | (first :: _) as with_ =>
      let status := default "" ((fun i => ItemStatus_as_str (status i)) <$> items_by_pr all_items !! first) in
      Some {| held_pr := pr item; kind := "waiting-on-dependency";
              reason := "contains the commits of #" +:+ pretty first +:+ ", which is " +:+ status
                        +:+ "; rebase without them or resubmit #" +:+ pretty first;
              with_ := with_; paths := [] |}
  end.

(** [for item in &queued { if let Some(h) = f(item) { hold(&mut held, h) } }] *)
Definition hold_each (f : Item -> option Held) (queued : list Item) (held : gmap Z Held)
  : gmap Z Held :=
  foldl (fun held item => match f item with Some h => hold held h | None => held end) held queued.

Definition own_holds (all_items queued : list Item) (base at_ : string) (probe : Probe)
  : gmap Z Held :=
  hold_each (carried_hold all_items probe) queued
    (hold_each (external_hold probe) queued
      (hold_each (deferral_hold at_) queued
        (hold_each (identity_hold base probe) queued ∅))).

(** ** 2. Dependencies *)

Record Depending := {
  dp_held : gmap Z Held;
  preds : gmap Z (gset Z);
  dp_dependencies : gset (Z * Z);
}.

Definition add_dependency (before after : Z) (dp : Depending) : Depending := {|
  dp_held := dp_held dp;
  preds := entry_insert after before (preds dp);
  dp_dependencies := {[(before, after)]} ∪ dp_dependencies dp |}.

Definition unmet_hold (pr dep : Z) (found : option ItemStatus) : Held := {|
  held_pr := pr; kind := "waiting-on-dependency";
  reason := "depends on #" +:+ pretty dep +:+ ", which is "
            +:+ default "not in the queue" (ItemStatus_as_str <$> found)
            +:+ "; submit it or drop the dependency";
  with_ := [dep]; paths := [] |}.

(** One dependency named in [after]. *)
Definition after_step (by_pr : gmap Z Item) (pr : Z) (dp : Depending) (dep : Z) : Depending :=
  match status <$> by_pr !! dep with
  | Some Landed => dp
  | Some Queued => add_dependency dep pr dp
  | found => {| dp_held := hold (dp_held dp) (unmet_hold pr dep found);
                preds := preds dp; dp_dependencies := dp_dependencies dp |}
  end.

Definition ancestry_step (queued_set : gset Z) (dp : Depending) (ba : Z * Z) : Depending :=
  if decide (ba.1 ∈ queued_set /\ ba.2 ∈ queued_set) then add_dependency ba.1 ba.2 dp else dp.

Definition all_dependencies (by_pr : gmap Z Item) (queued : list Item) (probe : Probe)
    (held : gmap Z Held) : Depending :=
  let queued_set : gset Z := list_to_set (pr <$> queued) in
  let explicit := foldl (fun dp item => foldl (after_step by_pr (pr item)) dp (after item))
    {| dp_held := held; preds := empty_entries queued_set; dp_dependencies := ∅ |} queued in
  foldl (ancestry_step queued_set) explicit (ancestry probe).

(** ** 3. Selection *)

Definition conflict_insert (x y : Z) (ps : list string) (m : gmap Z (gmap Z (list string)))
  : gmap Z (gmap Z (list string)) :=
  <[x := <[y := ps]> (default ∅ (m !! x))]> m.

(** [conflicts]: the paths each change conflicts on with each other one. *)
Definition conflict_map (cs : list Conflict) : gmap Z (gmap Z (list string)) :=
  foldl (fun m c => conflict_insert (b c) (a c) (conflict_paths c)
                      (conflict_insert (a c) (b c) (conflict_paths c) m)) ∅ cs.

Definition degree (conflicts : gmap Z (gmap Z (list string))) (held : gmap Z Held) (pr : Z) : nat :=
  match conflicts !! pr with
  | None => 0
  | Some peers => length (List.filter (fun peer => bool_decide (held !! peer = None)) (btree_keys peers))
  end.

(** One popped change: its dependencies that are new join the front and the stack. *)
Definition front_step (acc : gset Z * list Z) (dep : Z) : gset Z * list Z :=
  let '(front, stack) := acc in
  if decide (dep ∈ front) then acc else ({[dep]} ∪ front, dep :: stack).

(** The stack is kept with its top first. *)
Fixpoint front_loop (fuel : nat) (preds : gmap Z (gset Z)) (stack : list Z) (front : gset Z)
  : gset Z :=
  match fuel, stack with
  | S fuel, pr :: stack =>
      let '(front, stack) := foldl front_step (front, stack) (btree_elems (neighbours preds pr)) in
      front_loop fuel preds stack front
  | _, _ => front
  end.

(** Priority changes and, transitively, what they must land after: each enters the
    stack once. *)
Definition front_of (queued : list Item) (preds : gmap Z (gset Z)) : gset Z :=
  let front : gset Z := list_to_set (pr <$> List.filter prioritized queued) in
  front_loop (S (size front + size (dom preds))) preds (rev (btree_elems front)) front.

Definition rank (by_pr : gmap Z Item) (front : gset Z) (degrees : gmap Z nat) (pr : Z) : Rank :=
  (negb (bool_decide (pr ∈ front)), default 0%Z (priority <$> by_pr !! pr),
   default 0 (degrees !! pr), default "" (submitted_at <$> by_pr !! pr), pr).

(** The ready change of least rank, or, where a cycle leaves none, the least of all. *)
Definition next_change (preds : gmap Z (gset Z)) (rank : Z -> Rank) (remaining decided : gset Z)
  : option Z :=
  match min_by_key rank (List.filter (fun pr => bool_decide (neighbours preds pr ⊆ decided))
                           (btree_elems remaining)) with
  | Some pr => Some pr
  | None => min_by_key rank (btree_elems remaining)
  end.

Definition blocked_hold (pr : Z) (blocked_by : list Z) : Held := {|
  held_pr := pr; kind := "waiting-on-dependency";
  reason := "must land after " +:+ pr_list blocked_by +:+ ", which cannot land this round";
  with_ := blocked_by; paths := [] |}.

Definition clash_hold (pr : Z) (clashes : list (Z * list string)) : Held :=
  let with_ := clashes.*1 in
  let ps := sort_dedup (concat clashes.*2) in
  {| held_pr := pr; kind := "conflicts-with-queued";
     reason := "conflicts with " +:+ pr_list with_ +:+ " on " +:+ join ", " ps +:+ "; rebase after "
               +:+ (if decide (length with_ = 1) then "it" else "they") +:+ " lands and resubmit";
     with_ := with_; paths := ps |}.

(** What becomes of the change whose turn it is. *)
Definition decide_change (preds : gmap Z (gset Z)) (conflicts : gmap Z (gmap Z (list string)))
    (pr : Z) (held : gmap Z Held) (selected : list Z) : gmap Z Held * list Z :=
  if decide (is_Some (held !! pr)) then (held, selected)
  else
    let blocked_by := List.filter (fun dep => negb (bool_decide (dep ∈ selected)))
                        (btree_elems (neighbours preds pr)) in
    match blocked_by with
    | _ :: _ => (hold held (blocked_hold pr blocked_by), selected)
    | [] =>
        let clashes := List.filter (fun kv => bool_decide (kv.1 ∈ selected))
                         (btree_iter (default ∅ (conflicts !! pr))) in
        match clashes with
        | [] => (held, selected ++ [pr])
        | _ => (hold held (clash_hold pr clashes), selected)
        end
    end.

(** The selection loop: each turn decides one change. *)
Fixpoint select_loop (fuel : nat) (preds : gmap Z (gset Z))
    (conflicts : gmap Z (gmap Z (list string))) (rank : Z -> Rank)
    (remaining decided : gset Z) (held : gmap Z Held) (selected : list Z)
  : gmap Z Held * list Z :=
  match fuel with
  | 0 => (held, selected)
  | S fuel =>
      match next_change preds rank remaining decided with
      | None => (held, selected)
      | Some pr =>
          let '(held, selected) := decide_change preds conflicts pr held selected in
          select_loop fuel preds conflicts rank (remaining ∖ {[pr]}) ({[pr]} ∪ decided) held selected
      end
  end.

(** ** 4. Batches *)

Record Chunking := {
  current : list Z;
  current_peripheral : bool;
  closed : list PlannedBatch;
}.

(** The closure [close]. *)
Definition close (note : string) (ch : Chunking) : Chunking :=
  match current ch with
  | [] => ch
  | prs => {| current := []; current_peripheral := current_peripheral ch;
              closed := closed ch ++ [{| index := length (closed ch); prs := prs; note := note |}] |}
  end.

Definition push (pr : Z) (ch : Chunking) : Chunking :=
  {| current := current ch ++ [pr]; current_peripheral := current_peripheral ch; closed := closed ch |}.

Definition is_peripheral (probe : Probe) (pr : Z) : bool :=
  default false (mark_peripheral <$> marks probe !! pr).

Definition alone (item : Item) : bool := solo item || exact_ item || prioritized item.

Definition alone_note (item : Item) : string :=
  if exact_ item then "exact" else if prioritized item then "priority" else "solo".

(** The end of a run of changes of the other kind. *)
Definition switch_kind (peripheral : bool) (ch : Chunking) : Chunking :=
  let ch := if negb (bool_decide (current ch = [])) && negb (Bool.eqb peripheral (current_peripheral ch))
            then close (if current_peripheral ch then "peripheral" else "") ch else ch in
  if bool_decide (current ch = [])
  then {| current := current ch; current_peripheral := peripheral; closed := closed ch |} else ch.

(** One turn of the loop over the selected changes. *)
Definition chunk_step (by_pr : gmap Z Item) (probe : Probe) (max_batch peripheral_limit : nat)
    (ch : Chunking) (pr : Z) : Chunking :=
  match by_pr !! pr with
  | None => ch
  | Some item =>
      if alone item then close (alone_note item) (push pr (close "" ch))
      else
        let peripheral := is_peripheral probe pr in
        let ch := push pr (switch_kind peripheral ch) in
        let limit := if peripheral then peripheral_limit else max_batch in
        if decide (limit <= length (current ch))
        then close (if peripheral then "peripheral" else "max-batch") ch else ch
  end.

Definition chunk (by_pr : gmap Z Item) (probe : Probe) (max_batch peripheral_limit : nat)
    (selected : list Z) : list PlannedBatch :=
  closed (close "" (foldl (chunk_step by_pr probe max_batch peripheral_limit)
    {| current := []; current_peripheral := false; closed := [] |} selected)).

(** ** The plan *)

Definition planned_item (probe : Probe) (degrees : gmap Z nat) (item : Item) : PlannedItem := {|
  pi_pr := pr item;
  pi_head := default "" (default None (heads probe !! pr item));
  pi_priority := priority item;
  pi_submitted_at := submitted_at item;
  files := default 0 (size <$> touched probe !! pr item);
  conflict_degree := default 0 (degrees !! pr item);
  pi_prioritized := prioritized item;
  peripheral := is_peripheral probe (pr item);
  peripheral_source :=
    match marks probe !! pr item with
    | None => ""
    | Some mark => if mark_cached mark then "cache" else "hook"
    end |}.

Definition suggested (probe : Probe) (options : PlanOptions) (item : Item) : bool :=
  negb (prioritized item)
  && default false ((fun fs => only_ci_paths (priority_config options) (btree_elems fs))
                    <$> touched probe !! pr item).

(** [make_plan]; [at_] and [created] are the two times it reads. *)
Definition make_plan (all_items : list Item) (base base_sha : string) (probe : Probe)
    (options : PlanOptions) (at_ created : string) : Plan :=
  let max_batch := Nat.max (max_batch options) 1 in
  let by_pr := items_by_pr all_items in
  let queued := List.filter is_queued all_items in
  let dp := all_dependencies by_pr queued probe (own_holds all_items queued base at_ probe) in
  let queued_set : gset Z := list_to_set (pr <$> queued) in
  let conflicts := conflict_map (probe_conflicts probe) in
  let degrees := map_collect ((fun pr => (pr, degree conflicts (dp_held dp) pr)) <$> btree_elems queued_set) in
  let front := front_of queued (preds dp) in
  let '(held, selected) :=
    select_loop (size queued_set) (preds dp) conflicts (rank by_pr front degrees)
      queued_set ∅ (dp_held dp) [] in
  {| schema := PLAN_SCHEMA;
     created_at := created;
     base := base;
     base_sha := base_sha;
     items := planned_item probe degrees <$> queued;
     batches := chunk by_pr probe max_batch (Nat.max (peripheral_max_batch options) max_batch) selected;
     held := btree_values held;
     conflicts := probe_conflicts probe;
     dependencies := btree_elems (dp_dependencies dp);
     suggest_priority := pr <$> List.filter (suggested probe options) queued;
     prior_conflicts := prior probe |}.
End plan.

(** ** [clusters] and [render] *)

Definition clusters (plan : Plan) : list (list Z) :=
  List.filter (fun component => Nat.ltb 1 (length component))
    (PlannerGraph.connected_components (pi_pr <$> items plan)
       ((fun c => PlannerModel.Build_ConflictEdge (a c) (b c) (conflict_paths c)) <$> conflicts plan)).

Definition render_member (by_pr : gmap Z PlannedItem) (pr : Z) : string :=
  match by_pr !! pr with
  | None => ""
  | Some item =>
      "#" +:+ pretty pr +:+ " (" +:+ (if pi_prioritized item then "priority, " else "") +:+ "p"
      +:+ pretty (pi_priority item) +:+ ", " +:+ pretty (files item) +:+ " files)"
  end.

Definition render_batch (by_pr : gmap Z PlannedItem) (batch : PlannedBatch) : string :=
  "  batch " +:+ pretty (S (index batch)) +:+ ": " +:+ join ", " (render_member by_pr <$> prs batch)
  +:+ (if str_is_empty (note batch) then "" else "  [" +:+ note batch +:+ "]") +:+ str1 nl.

Definition render (plan : Plan) : string :=
  let by_pr := map_collect ((fun item => (pi_pr item, item)) <$> items plan) in
  let lines (title : string) (ls : list string) :=
    match ls with [] => "" | _ => title +:+ str1 nl +:+ join "" ls end in
  "Plan for " +:+ base plan +:+ " @ " +:+ short (base_sha plan) +:+ ": "
  +:+ pretty (length (items plan)) +:+ " queued, "
  +:+ pretty (sum_list ((fun b => length (prs b)) <$> batches plan)) +:+ " landable in "
  +:+ pretty (length (batches plan)) +:+ " batch(es), " +:+ pretty (length (held plan))
  +:+ " held" +:+ str1 nl
  +:+ join "" (render_batch by_pr <$> batches plan)
  +:+ lines "Held:" ((fun h => "  #" +:+ pretty (held_pr h) +:+ " " +:+ kind h +:+ ": "
                                 +:+ reason h +:+ str1 nl) <$> held plan)
  +:+ lines "Conflict clusters:" ((fun c => "  " +:+ pr_list c +:+ str1 nl) <$> clusters plan)
  +:+ match suggest_priority plan with
      | [] => ""
      | prs => "Suggested priority label (changes only CI paths; never applied by the queue): "
               +:+ pr_list prs +:+ str1 nl
      end.
