(* ===== verification/QueueValidate.v ===== *)
(** * merge-queue: what a validation run says ([rs/merge-queue/src/validate.rs])

    Reading a runner's output, and the verdict of a finished run.  The processes and
    files are inputs: the text of the results file, of the log, and how the runner
    ended; of [Ran] the measurements and paths are left out. *)
From S2P Require Import Prelude RustStr External QueueTests QueueModel.

Definition REFUSAL_EXIT : Z := 75.
Definition INFRA_BLOCKED_EXIT : Z := 6.
Definition CANNOT_EXECUTE : string := "the validator could not execute".
Definition REFUSAL_MARKER : string := "COULD_NOT_RUN".
Definition COULD_NOT_RUN_SCOPE_MARKER : string := "MQ_COULD_NOT_RUN_SCOPE".
Definition RERUN_EXEMPT_MARKER : string := "RERUN-EXEMPT".
Definition SUSPECT_SHAPES : list string := ["timeout"; "no-verdict"].

(** ** Markers in the log *)

(** A scope line: host or not, and the reason. *)
Definition scope_line (line : string) : option (bool * string) :=
  rest ← strip_prefix COULD_NOT_RUN_SCOPE_MARKER (str_trim line);
  let rest := str_trim (trim_start_matches (String.eqb ":") rest) in
  match strip_prefix "host" rest with
  | Some reason => Some (true, str_trim reason)
  | None => reason ← strip_prefix "job" rest; Some (false, str_trim reason)
  end.

Definition could_not_run_scope (log_text : string) : option (bool * string) :=
  list.head (omap scope_line (str_lines log_text)).

(** The identifiers of one marker line. *)
Definition marker_line (marker line : string) : list TestId :=
  match rest ← strip_prefix marker (str_trim line);
        strip_prefix ":" (trim_start_matches char_is_whitespace rest) with
  | None => []
  | Some rest =>
      omap (fun raw => result_ok (TestId_parse (str_trim raw)))
        (split (fun c => existsb (String.eqb c) [","; " "]) rest)
  end.

Definition marker_ids (log_text marker : string) : list TestId :=
  concat (marker_line marker <$> str_lines log_text).

Definition red_exit (exit : option Z) : bool :=
  match exit with
  | Some code => negb (code =? 0)%Z && negb (code =? REFUSAL_EXIT)%Z && negb (code =? INFRA_BLOCKED_EXIT)%Z
  | None => false
  end.

Definition exited (exit : option Z) (code : Z) : bool := bool_decide (exit = Some code).

Definition flaky_passes (exit : option Z) (log_text : string) : list TestId :=
  if negb (exited exit 0) then [] else marker_ids log_text FLAKY_MARKER.

Definition infra_blocked (exit : option Z) (log_text : string) : list TestId :=
  if negb (exited exit INFRA_BLOCKED_EXIT) then [] else marker_ids log_text INFRA_BLOCKED_MARKER.

Definition rerun_exempt (exit : option Z) (log_text : string) : list TestId :=
  if red_exit exit then marker_ids log_text RERUN_EXEMPT_MARKER else [].

Definition is_refusal (exit : option Z) (log_text : string) (attributed_failures : bool) : bool :=
  if exited exit REFUSAL_EXIT then true
  else if exited exit 0 || attributed_failures then false
  else match List.find (fun line => negb (str_is_empty line)) (str_trim <$> str_lines log_text) with
       | Some first => starts_with first REFUSAL_MARKER
       | None => false
       end.

(** ** Results *)

Definition is_empty_red (exit : option Z) (cancelled refused : bool) (rs : TestResults) : bool :=
  if cancelled || refused || negb (red_exit exit) then false
  else bool_decide (results rs = ∅)
       || (unattributed rs
           && forallb (fun o => match o with Error | Missing => true | _ => false end)
                (btree_values (results rs))).

Definition deterministic_failures (rs : TestResults) (exempt : list TestId) : gset TestId :=
  list_to_set (List.filter (fun test => existsb (fun st => (step st =? step test)%string) exempt)
                 (btree_elems (attributed_failures rs))).

(** The largest cut at a character boundary, from [n] down. *)
Fixpoint boundary (n : nat) (s : string) : nat :=
  match n with
  | 0 => 0
  | S n' => match String.get n s with
            | Some c => if is_continuation c then boundary n' s else n
            | None => n
            end
  end.

Definition truncate_detail (detail : string) : string :=
  if decide (String.length detail <= 300) then detail
  else String.substring 0 (boundary 300 detail) detail +:+ "...".

(** ** Runs *)

(** [Ran], without the wall time, the CPU time, the log's path and the donor. *)
Record Ran := {
  ran_results : TestResults;
  exit : option Z;
  cancelled : bool;
  interrupted : option string;
  handle : option string;
  refused : bool;
  ran_flaky_passes : list TestId;
  ran_infra_blocked : list TestId;
  suspect : list TestId;
  ran_rerun_exempt : list TestId;
  cannot_execute : option string;
  effective_selection : option Selection;
  early_red : bool;
}.

Inductive ProbeObservation := ObservedPass | ObservedFail | ObservedUnknown.

#[export] Instance ProbeObservation_eq_dec : EqDecision ProbeObservation.
Proof. solve_decision. Defined.

(** [Ran::green] *)
Definition green (r : Ran) : bool :=
  negb (cancelled r) && negb (refused r) && exited (exit r) 0 && all_good (ran_results r).

Definition ran_is_empty_red (r : Ran) : bool :=
  is_empty_red (exit r) (cancelled r) (refused r) (ran_results r).

Definition reproduces (r : Ran) : bool :=
  negb (cancelled r) && negb (refused r)
  && (negb (bool_decide (attributed_failures (ran_results r) = ∅)) || negb (exited (exit r) 0)).

Definition reproduced (r : Ran) : gset TestId := attributed_failures (ran_results r).

Definition deterministic_red (r : Ran) : bool :=
  if negb (reproduces r) || bool_decide (ran_rerun_exempt r = []) then false
  else negb (bool_decide (reproduced r = ∅))
       && bool_decide (deterministic_failures (ran_results r) (ran_rerun_exempt r) = reproduced r).

(** [Ran::failed] *)
Definition ran_failed (r : Ran) : gset TestId :=
  if refused r || cancelled r then ∅ else failed (ran_results r).

Definition suspect_only (r : Ran) : option (gset TestId) :=
  if cancelled r || refused r || unattributed (ran_results r) then None
  else if negb (bool_decide (ran_failed r = ∅))
          && forallb (fun t => bool_decide (t ∈ suspect r)) (btree_elems (ran_failed r))
       then Some (ran_failed r) else None.

Definition probe_observation (r : Ran) : ProbeObservation :=
  if cancelled r || refused r || ran_is_empty_red r then ObservedUnknown
  else if reproduces r then ObservedFail
  else if existsb (fun o => bool_decide (o = Pass)) (btree_values (results (ran_results r)))
  then ObservedPass else ObservedUnknown.

(** [parse_ids]: a select command's answer. *)
Definition select_line (prefix line : string) : option string :=
  id ← strip_prefix prefix (str_trim line);
  let id := str_trim id in
  if str_is_empty id || starts_with id "#" then None else Some id.

Definition parse_ids (text prefix : string) : result TestIdError (Selection * gset TestId) :=
  let ids := omap (select_line prefix) (str_lines text) in
  tests ← each_result (fun id tests =>
            if (id =? "all")%string then Ok tests else test ← TestId_parse id; Ok ({[test]} ∪ tests))
            ids ∅;
  if existsb (String.eqb "all") ids then Ok (All, tests) else Ok (Tests tests, ∅).

(** ** Verdict lines *)

Section lines.
(** The milliseconds of a decimal number of seconds, as [f64] parses and rounds it. *)
Context (secs_to_ms : string -> option Z).

Definition parse_u64 (s : string) : option Z :=
  let digits := default s (strip_prefix "+" s) in
  if str_is_empty digits then None
  else z ← digits_value 0 digits; if decide (z < 2 ^ 64)%Z then Some z else None.

Definition first_piece (sep : ascii) (s : string) : string :=
  match split_byte sep s with piece :: _ => piece | [] => "" end.

Definition verdict_duration_ms (verdict : string) : option Z :=
  let group := first_piece ")" (List.last (split_byte "(" verdict) "") in
  let first := str_trim (first_piece "," group) in
  match strip_suffix "ms" first with
  | Some ms => parse_u64 (str_trim ms)
  | None => secs ← strip_suffix "s" first; secs_to_ms (str_trim secs)
  end.

Definition verdict_outcome (verdict : string) : option Outcome :=
  if starts_with verdict "✓ PASS" then Some Pass
  else if starts_with verdict "✗ FAIL" then Some Fail
  else if starts_with verdict "SKIPPED" then Some Skip
  else None.

(** One line: the results so far, and the steps whose captured output is being
    printed. *)
Definition step_line (acc : TestResults * gset string) (line : string) : TestResults * gset string :=
  let '(rs, in_detail) := acc in
  match rest ← strip_prefix "[" line; split_once_str "] " rest with
  | None => acc
  | Some (step, verdict) =>
      let whole := trim_end_matches char_is_whitespace verdict in
      if (whole =? "----- detail -----")%string then (rs, {[step]} ∪ in_detail)
      else if (whole =? "----- end detail -----")%string then (rs, in_detail ∖ {[step]})
      else if decide (step ∈ in_detail) then acc
      else match TestId_parse step, verdict_outcome verdict with
           | Ok t, Some o =>
               (record rs {| id := t; outcome := o; duration_ms := verdict_duration_ms verdict;
                             log := None |}, in_detail)
           | _, _ => acc
           end
  end.

Definition parse_step_lines (text : string) : TestResults :=
  (foldl step_line (TestResults_default, ∅) (str_lines text)).1.

(** One failure the verdict lines show and the results do not contradict. *)
Definition name_failure (logged : TestResults) (acc : TestResults * bool) (kv : TestId * Outcome)
  : TestResults * bool :=
  let '(rs, named) := acc in
  let '(t, o) := kv in
  if bool_decide (o = Fail) && negb (bool_decide (results rs !! t = Some Pass)) then
    ({| results := <[t := Fail]> (results rs);
        durations_ms := match durations_ms logged !! t with
                        | Some ms => <[t := ms]> (durations_ms rs)
                        | None => durations_ms rs
                        end;
        logs := logs rs; unattributed := unattributed rs |}, true)
  else acc.

Definition mark_unattributed (rs : TestResults) : TestResults :=
  {| results := results rs; durations_ms := durations_ms rs; logs := logs rs; unattributed := true |}.

Definition name_the_failures_of_a_red_run (rs : TestResults) (log_text : string) : TestResults :=
  let logged := parse_step_lines log_text in
  let '(rs, named) := foldl (name_failure logged) (rs, false) (btree_iter (results logged)) in
  if named then rs else mark_unattributed rs.

(** ** A [command] validation, after the runner has ended *)

(** One row of [$MQ_RESULTS]. *)
Record ResultLine := {
  row_id : string;
  row_outcome : string;
  row_duration_ms : option Z;
  row_log : option string;
  row_shape : option string;
}.

Record Finished := {
  fin_exit : option Z;
  fin_cancelled : bool;
  fin_early_red : bool;
  fin_early_verdict : option TestId;
  fin_interrupted : option string;
  spawn_error : option string;
}.

(** [serde_json::from_str::<ResultLine>], with the error's text. *)
Context (row_from_json : string -> result string ResultLine).
Context `{StrDebug}.

(** The variables of the loop over the rows. *)
Record Rows := {
  rows_results : TestResults;
  rows_suspect : gset TestId;
  bad_row : option string;
}.

Definition bad (st : Rows) (detail : string) : Rows := {|
  rows_results := rows_results st; rows_suspect := rows_suspect st;
  bad_row := match bad_row st with Some d => Some d | None => Some (truncate_detail detail) end |}.

Definition row_step (results_path : string) (st : Rows) (numbered : nat * string) : Rows :=
  let '(line_no, line) := numbered in
  if str_is_empty (str_trim line) then st
  else match row_from_json line with
  | Err error =>
      bad st ("bad line in " +:+ results_path +:+ " line " +:+ pretty line_no +:+ ": " +:+ error
              +:+ ": " +:+ line)
  | Ok row =>
      match Outcome_parse (row_outcome row) with
      | None =>
          bad st ("unknown outcome " +:+ debug_str (row_outcome row) +:+ " in " +:+ results_path
                  +:+ " line " +:+ pretty line_no)
      | Some o =>
          match TestId_parse (row_id row) with
          | Err error =>
              bad st ("bad line in " +:+ results_path +:+ " line " +:+ pretty line_no +:+ ": "
                      +:+ TestIdError_to_string error)
          | Ok t =>
              {| rows_results := record (rows_results st)
                   {| id := t; outcome := o; duration_ms := row_duration_ms row; log := row_log row |};
                 rows_suspect :=
                   if bool_decide (o = Fail)
                      && default false ((fun s => existsb (String.eqb s) SUSPECT_SHAPES) <$> row_shape row)
                   then {[t]} ∪ rows_suspect st else rows_suspect st;
                 bad_row := bad_row st |}
          end
      end
  end.

Definition read_rows (results_path : string) (text : option string) : Rows :=
  foldl (row_step results_path)
    {| rows_results := TestResults_default; rows_suspect := ∅; bad_row := None |}
    (imap (fun n line => (S n, line)) (default [] (str_lines <$> text))).

(** ** Stopping a run early *)

(** One line of a [dagrun] journal, and [serde_json]'s reading of it. *)
Record JournalLine := {
  jl_event : string;
  jl_step : string;
  jl_ok : option bool;
  wall_elapsed_s : option string;
  jl_log : option string;
}.

Context (journal_from_json : string -> option JournalLine).

Definition journal_outcome (j : JournalLine) : option Outcome :=
  if (jl_event j =? "step_end")%string then
    Some match jl_ok j with Some true => Pass | _ => Fail end
  else if (jl_event j =? "step_skip")%string then Some Skip
  else None.

Definition journal_step (rs : TestResults) (line : string) : TestResults :=
  match journal_from_json line with
  | None => rs
  | Some j =>
      match TestId_parse (jl_step j), journal_outcome j with
      | Ok t, Some o =>
          record rs {| id := t; outcome := o; duration_ms := secs ← wall_elapsed_s j; secs_to_ms secs;
                       log := jl_log j |}
      | _, _ => rs
      end
  end.

Definition parse_journal (text : string) : TestResults :=
  foldl journal_step TestResults_default (str_lines text).

(** The test the runner's early verdict names. *)
Definition early_verdict (verdict : option string) : option TestId :=
  text ← verdict;
  if negb (ends_with text (str1 nl)) then None
  else
    line ← list.head (str_lines text);
    test ← strip_prefix "FAILED " line;
    result_ok (TestId_parse (str_trim test)).

(** A streamed row that can be read already. *)
Definition streamed_row (rs : TestResults) (line : string) : TestResults :=
  if str_is_empty (str_trim line) then rs
  else match row_from_json line with
  | Err _ => rs
  | Ok row =>
      match TestId_parse (row_id row), Outcome_parse (row_outcome row) with
      | Ok t, Some o =>
          record rs {| id := t; outcome := o; duration_ms := row_duration_ms row; log := row_log row |}
      | _, _ => rs
      end
  end.

Definition set_results (m : gmap TestId Outcome) (rs : TestResults) : TestResults :=
  {| results := m; durations_ms := durations_ms rs; logs := logs rs; unattributed := unattributed rs |}.

(** [EarlyRedFiles::streamed_failures]: the journal overrides a row, and the verdict
    lines only add. *)
Definition streamed_failures (streamed : bool) (log_text : string)
    (rows journal : option string) : gset TestId :=
  if negb streamed then ∅
  else
    let exempt := marker_ids log_text RERUN_EXEMPT_MARKER in
    if bool_decide (exempt = []) then ∅
    else
      let rs := foldl streamed_row TestResults_default (default [] (str_lines <$> rows)) in
      let rs := foldl (fun rs kv => set_results (<[kv.1 := kv.2]> (results rs)) rs) rs
                  (default [] ((fun text => btree_iter (results (parse_journal text))) <$> journal)) in
      let rs := foldl (fun rs kv => set_results (entry_or_insert kv.1 kv.2 (results rs)) rs) rs
                  (btree_iter (results (parse_step_lines log_text))) in
      deterministic_failures rs exempt.

(** [cannot_execute]; the command as the shell would quote it and the [PATH] are given. *)
Definition cannot_execute_reason (command path : string) (fin : Finished) (log_text : string)
    (reported_failures : bool) : option string :=
  if fin_cancelled fin then None
  else
    what ← match spawn_error fin with
           | Some error => Some error
           | None =>
               if exited (fin_exit fin) 127 && negb reported_failures
               then Some "exit 127: a command was not found"
               else if exited (fin_exit fin) 126 && negb reported_failures
               then Some "exit 126: a command was found but could not be executed"
               else None
           end;
    let detail := CANNOT_EXECUTE +:+ " (" +:+ what +:+ "): command " +:+ command +:+ "; PATH=" +:+ path in
    Some match spawn_error fin with
         | Some _ => detail
         | None =>
             match List.find (fun line => negb (str_is_empty line)) (rev (str_trim <$> str_lines log_text)) with
             | Some l => detail +:+ "; last output: " +:+ of_chars (take 200 (chars l))
             | None => detail
             end
         end.

(** What [run_with] is given once the runner has ended. *)
Record RunInput := {
  in_selection : Selection;
  empty_red_could_not_run : bool;
  in_results_path : string;
  results_text : option string;
  in_log_text : string;
  in_handle : option string;
  in_command : string;
  in_path : string;
  finished : Finished;
}.

(** A runner stopped early: the verdicts seen so far, with the early verdict failed. *)
Definition early_ran (i : RunInput) (rs : TestResults) (suspects : gset TestId) : Ran := {|
  ran_results := match fin_early_verdict (finished i) with
                 | Some t =>
                     if decide (t ∈ attributed_failures rs) then rs
                     else record rs {| id := t; outcome := Fail; duration_ms := None; log := None |}
                 | None => rs
                 end;
  exit := None; cancelled := false; interrupted := None; handle := in_handle i; refused := false;
  ran_flaky_passes := []; ran_infra_blocked := [];
  suspect := btree_elems suspects;
  ran_rerun_exempt := marker_ids (in_log_text i) RERUN_EXEMPT_MARKER;
  cannot_execute := None; effective_selection := None; early_red := true |}.

(** A runner that reported nothing: every selected test inherits the exit status. *)
Definition inherit_exit (i : RunInput) (rs : TestResults) : TestResults :=
  if bool_decide (results rs = ∅) then
    foldl (fun rs t => record rs {| id := t; outcome := if exited (fin_exit (finished i)) 0 then Pass else Error;
                                    duration_ms := None; log := None |})
      (mark_unattributed rs) (default [] (btree_elems <$> listed (in_selection i)))
  else rs.

(** [CommandValidator::run_with] from the runner's end, and the line it appends to the
    log. *)
Definition command_ran (i : RunInput) : Ran * option string :=
  let fin := finished i in
  let rows := read_rows (in_results_path i) (results_text i) in
  let rs := if bool_decide (results (rows_results rows) = ∅) && bool_decide (bad_row rows = None)
            then parse_step_lines (in_log_text i) else rows_results rows in
  let reported_failures := negb (bool_decide (attributed_failures rs = ∅)) in
  if fin_early_red fin then (early_ran i rs (rows_suspect rows), None)
  else
    let rs := require (inherit_exit i rs) (in_selection i) in
    let cannot := cannot_execute_reason (in_command i) (in_path i) fin (in_log_text i) reported_failures in
    let refused0 := bool_decide (is_Some cannot)
                    || (negb (fin_cancelled fin)
                        && is_refusal (fin_exit fin) (in_log_text i) reported_failures) in
    let empty_refused := negb refused0 && empty_red_could_not_run i
                         && is_empty_red (fin_exit fin) (fin_cancelled fin) false rs in
    let bad_refused := bool_decide (is_Some (bad_row rows)) && negb (fin_cancelled fin) in
    let refused := refused0 || empty_refused || bad_refused in
    let rs :=
      if refused && negb bad_refused
      then {| results := ∅; durations_ms := ∅; logs := ∅; unattributed := empty_refused |}
      else if negb refused && negb (fin_cancelled fin) && negb reported_failures
              && negb (unattributed rs) && red_exit (fin_exit fin)
      then name_the_failures_of_a_red_run rs (in_log_text i) else rs in
    ({| ran_results := rs;
        exit := fin_exit fin; cancelled := fin_cancelled fin; interrupted := fin_interrupted fin;
        handle := in_handle i; refused := refused;
        ran_flaky_passes := if refused then [] else flaky_passes (fin_exit fin) (in_log_text i);
        ran_infra_blocked := if refused then [] else infra_blocked (fin_exit fin) (in_log_text i);
        suspect := if refused then [] else btree_elems (rows_suspect rows);
        ran_rerun_exempt := if refused then [] else rerun_exempt (fin_exit fin) (in_log_text i);
        cannot_execute := match cannot with
                          | Some c => Some c
                          | None => if bad_refused then (fun d => "could not run: " +:+ d) <$> bad_row rows
                                    else None
                          end;
        effective_selection := None; early_red := false |},
     if bad_refused then (fun d => COULD_NOT_RUN_SCOPE_MARKER +:+ ": host " +:+ d) <$> bad_row rows
     else None).
End lines.
