(* ===== verification/QueueCulprit.v ===== *)
(** * merge-queue: who broke a red batch ([rs/merge-queue/src/run.rs])

    The culprit search: from the prefixes of a red batch that were seen to pass and to fail
    it derives a verdict or the prefixes to probe next.  What a probe reports is a [Ran];
    building prefixes, running probes and acting on a verdict are not part of it. *)
From S2P Require Import Prelude RustStr External QueueTests QueueModel QueueValidate.

Definition NO_RECORDED_RESULT : string := "red with no recorded test result".

Definition ids (tests : list TestId) : string := join ", " (TestId_to_string <$> tests).

Definition refusal_detail (ran : Ran) : string :=
  match cannot_execute ran with
  | Some why => why
  | None =>
      if refused ran && unattributed (ran_results ran) && negb (exited (exit ran) REFUSAL_EXIT)
      then match exit ran with
           | Some code => NO_RECORDED_RESULT +:+ " (exit " +:+ pretty code +:+ ")"
           | None => NO_RECORDED_RESULT
           end
      else match exit ran with
           | Some code => "exit " +:+ pretty code +:+ " (" +:+ REFUSAL_MARKER +:+ ")"
           | None => "no exit status (" +:+ REFUSAL_MARKER +:+ ")"
           end
  end.

(** ** Data *)

Record Candidate := {
  cd_prs : list Z;
  parent : string;
  tip : string;
  prefixes : list string
}.

(** The commit of the prefix with [i] changes; a prefix beyond the last panics. *)
Definition prefix (c : Candidate) (i : nat) : option string :=
  match i with 0 => Some (parent c) | S i => prefixes c !! i end.

Record Obs := {
  fails : nat;
  passes : nat;
  unknowns : nat;
  obs_failed : gset TestId;
  once : option string
}.

Definition Obs_default : Obs :=
  {| fails := 0; passes := 0; unknowns := 0; obs_failed := ∅; once := None |}.

Definition DETERMINISTIC_ONCE : string :=
  "seen once: a deterministic check, which a rerun of the same tree cannot change".
Definition UNCONFIRMED_ONCE : string :=
  "seen once: same-commit confirmation is off (validator.confirm_reruns)".

Inductive Seen := SeenUnknown | SeenPass | SeenFail.

#[global] Instance Seen_eq_dec : EqDecision Seen.
Proof. solve_decision. Defined.

Definition Obs_seen (o : Obs) : Seen :=
  if 0 <? passes o then SeenPass else if 0 <? fails o then SeenFail else SeenUnknown.

Definition confirmed_fail (o : Obs) : bool :=
  (passes o =? 0)
  && ((2 <=? fails o) || ((fails o =? 1) && match once o with Some _ => true | None => false end)).

Definition confirmation (o : Obs) : string :=
  match once o with
  | Some why => if fails o <? 2 then why else "seen twice"
  | None => "seen twice"
  end.

Inductive Hold := GreenFlaky | InfraBlocked.

Definition Hold_label (h : Hold) : string :=
  match h with GreenFlaky => FLAKY_MARKER | InfraBlocked => INFRA_BLOCKED_MARKER end.

Inductive Culprit :=
| BaseRed (tests : gset TestId) (how : string)
| Flaky (tests : gset TestId)
| HeldFor (hold : Hold) (tests : list TestId)
| RefusedProbe (detail : string)
| Inconclusive (detail : string)
| Found (index : nat) (failing flaky : gset TestId) (how : string).

Record CulpritSearch := {
  candidate : Candidate;
  focus : Selection;
  obs : gmap nat Obs;
  probes : list nat
}.

Definition with_obs (f : gmap nat Obs -> gmap nat Obs) (s : CulpritSearch) : CulpritSearch :=
  {| candidate := candidate s; focus := focus s; obs := f (obs s); probes := probes s |}.

Definition with_probes (l : list nat) (s : CulpritSearch) : CulpritSearch :=
  {| candidate := candidate s; focus := focus s; obs := obs s; probes := l |}.

(** How many changes the candidate has; the whole candidate is the last prefix. *)
Definition width_of (s : CulpritSearch) : nat := length (cd_prs (candidate s)).

(** ** The search *)

Definition unconfirmed (confirm_reruns : bool) : option string :=
  if confirm_reruns then None else Some UNCONFIRMED_ONCE.

Definition first_sighting (first_failed : gset TestId) (first_deterministic confirm_reruns : bool) : Obs := {|
  fails := 1; passes := 0; unknowns := 0; obs_failed := first_failed;
  once := if first_deterministic then Some DETERMINISTIC_ONCE else unconfirmed confirm_reruns
|}.

Definition CulpritSearch_new (c : Candidate) (f : Selection) (first_failed : gset TestId)
    (first_deterministic trust_base confirm_reruns : bool) : CulpritSearch :=
  let seen := {[length (cd_prs c) := first_sighting first_failed first_deterministic confirm_reruns]} in
  {| candidate := c; focus := f;
     obs := if trust_base && negb (bool_decide (cd_prs c = []))
            then <[0 := {| fails := 0; passes := 1; unknowns := 0; obs_failed := ∅; once := None |}]> seen
            else seen;
     probes := [] |}.

Definition seen_at (s : CulpritSearch) (i : nat) : Seen :=
  match obs s !! i with Some o => Obs_seen o | None => SeenUnknown end.

Definition confirmed (s : CulpritSearch) (i : nat) : bool :=
  match obs s !! i with Some o => confirmed_fail o | None => false end.

(** The first prefix that fails, the whole candidate where none does. *)
Definition first_fail (s : CulpritSearch) : nat :=
  default (width_of s) (List.find (fun i => bool_decide (seen_at s i = SeenFail)) (seq 0 (S (width_of s)))).

(** The last prefix before [hi] that passes. *)
Definition last_pass (s : CulpritSearch) (hi : nat) : option nat :=
  List.find (fun i => bool_decide (seen_at s i = SeenPass)) (rev (seq 0 hi)).

Definition flaky_tests (s : CulpritSearch) : gset TestId :=
  ⋃ (obs_failed <$> List.filter (fun o => (0 <? passes o) && (0 <? fails o)) (map_to_list (obs s)).*2).

(** [self.obs[&i]] *)
Definition obs_at (s : CulpritSearch) (i : nat) : Obs := default Obs_default (obs s !! i).

Definition verdict (s : CulpritSearch) : option Culprit :=
  if bool_decide (seen_at s (width_of s) = SeenPass) then Some (Flaky (flaky_tests s))
  else if confirmed s 0 then Some (BaseRed (obs_failed (obs_at s 0)) (confirmation (obs_at s 0)))
  else
    let hi := first_fail s in
    if (0 <? hi) && bool_decide (last_pass s hi = Some (Nat.pred hi)) && confirmed s hi
    then Some (Found (Nat.pred hi) (obs_failed (obs_at s hi)) (flaky_tests s) (confirmation (obs_at s hi)))
    else None.

(** The points of [1..=room] that divide [start..hi], each once. *)
Definition between (start hi room : nat) (points : list nat) : list nat :=
  foldl (fun points k =>
    let point := start + (hi - start) * k / (room + 1) in
    if (start <? point) && (point <? hi) && negb (bool_decide (point ∈ points))
    then points ++ [point] else points) points (seq 1 room).

Definition probe_points (width : nat) (s : CulpritSearch) : list nat :=
  let hi := first_fail s in
  let lo := last_pass s hi in
  if hi =? 0 then [0] else
  let points := match lo with None => [0] | Some _ => [] end in
  let points := between (default 0 lo) hi (width - length points) points in
  let points := if (length points <? width) && negb (confirmed s hi) then points ++ [hi] else points in
  match points with [] => [hi] | _ => points end.

(** *** Recording *)

Definition JobResult : Type := result string (nat * Ran).

Definition on_fail (ran : Ran) (confirm_reruns : bool) (o : Obs) : Obs := {|
  fails := S (fails o); passes := passes o; unknowns := unknowns o;
  obs_failed := obs_failed o ∪ reproduced ran;
  once := if deterministic_red ran then Some DETERMINISTIC_ONCE
          else match once o with None => unconfirmed confirm_reruns | kept => kept end
|}.
Definition on_pass (o : Obs) : Obs := {|
  fails := fails o; passes := S (passes o); unknowns := unknowns o; obs_failed := obs_failed o; once := once o |}.
Definition on_unknown (o : Obs) : Obs := {|
  fails := fails o; passes := passes o; unknowns := S (unknowns o); obs_failed := obs_failed o; once := once o |}.

Definition inconclusive_detail (s : CulpritSearch) (i : nat) (ran : Ran) : string :=
  "probe at prefix " +:+ pretty i +:+ " of " +:+ pretty (width_of s) +:+
  (if ran_is_empty_red ran
   then " was a " +:+ NO_RECORDED_RESULT +:+ " (exit "
        +:+ match exit ran with Some code => pretty code | None => "none" end
        +:+ "): it can name no culprit"
   else " observed only missing/skipped tests (no pass, no reproduced failure)").

(** One probe's result; a culprit ends the round. *)
Definition record_probe (confirm_reruns : bool) (i : nat) (ran : Ran) (s : CulpritSearch)
  : CulpritSearch * option Culprit :=
  if refused ran then (s, Some (RefusedProbe (refusal_detail ran)))
  else if (i =? width_of s) && negb (cancelled ran) && negb (bool_decide (ran_infra_blocked ran = []))
  then (s, Some (HeldFor InfraBlocked (ran_infra_blocked ran)))
  else if (i =? width_of s) && negb (cancelled ran) && green ran && negb (bool_decide (ran_flaky_passes ran = []))
  then (s, Some (HeldFor GreenFlaky (ran_flaky_passes ran)))
  else if negb (bool_decide (ran_infra_blocked ran = []))
  then (s, Some (Inconclusive ("probe at prefix " +:+ pretty i +:+ " of " +:+ pretty (width_of s)
           +:+ " was INFRA-BLOCKED (" +:+ ids (ran_infra_blocked ran) +:+ "): the host refused to measure it")))
  else
    let update f := with_obs (fun m => <[i := f (default Obs_default (m !! i))]> m) s in
    match probe_observation ran with
    | ObservedFail => (update (on_fail ran confirm_reruns), None)
    | ObservedPass => (update on_pass, None)
    | ObservedUnknown => (update on_unknown, Some (Inconclusive (inconclusive_detail s i ran)))
    end.

(** [record]: the probes in order, until one ends the round or its job failed. *)
Fixpoint record_all (confirm_reruns : bool) (l : list (nat * JobResult)) (s : CulpritSearch)
  : CulpritSearch * result string (option Culprit) :=
  match l with
  | [] => (s, Ok None)
  | (_, Err e) :: _ => (s, Err e)
  | (i, Ok (_, ran)) :: rest =>
      match record_probe confirm_reruns i ran s with
      | (s, Some culprit) => (s, Ok (Some culprit))
      | (s, None) => record_all confirm_reruns rest s
      end
  end.

Definition record_round (confirm_reruns : bool) (points : list nat) (results : list JobResult)
    (s : CulpritSearch) : CulpritSearch * result string (option Culprit) :=
  record_all confirm_reruns (zip points results) s.

(** *** Driving it *)

Inductive next := Verdict (c : Culprit) | Probing (s : CulpritSearch).

(** [advance_red], up to what is done about a verdict. *)
Definition advance (width : nat) (s : CulpritSearch) : next :=
  match verdict s with
  | Some c => Verdict c
  | None => Probing (with_probes (probe_points width s) s)
  end.

(** [feed_red], likewise. *)
Definition feed (width : nat) (confirm_reruns : bool) (results : list JobResult) (s : CulpritSearch)
  : result string next :=
  match record_round confirm_reruns (probes s) results (with_probes [] s) with
  | (_, Err e) => Err e
  | (_, Ok (Some c)) => Ok (Verdict c)
  | (s, Ok None) => Ok (advance width s)
  end.

(** *** How it starts *)

Record Chosen := { chosen_selection : Selection; chosen_policy : string; extra : gset TestId }.

Definition red_focus (chosen : Chosen) (ran : Ran) : Selection :=
  if unattributed (ran_results ran) then chosen_selection chosen
  else Tests (ran_failed ran).

Definition not_passed (ran : Ran) : gset TestId :=
  tests_with (fun o => negb (bool_decide (o = Pass))) (ran_results ran).

(** [start_red], where it begins a search. *)
Definition red_search (c : Candidate) (chosen : Chosen) (ran : Ran) (trust_base confirm_reruns : bool)
  : CulpritSearch :=
  CulpritSearch_new c (red_focus chosen ran) (ran_failed ran) (deterministic_red ran) trust_base confirm_reruns.
