(* ===== verification/QueueRecount.v ===== *)
(** * merge-queue: recounting pins ([rs/merge-queue/src/recount.rs])

    Reading the counts of a pin file with the place of every literal, what a change adds
    to them, which decreases it declared, and writing the counts of a batch back.  Bytes
    are scanned as the text that remains; overflow wraps, as in a release build. *)
From S2P Require Import Prelude RustStr External QueueTests QueueModel QueueValidate.

Definition PIN_PATH : string := "ci/manifest-plan/src/validation_dag_static.rs".

Record Pin := { pin_name : string; pin_value : Z }.

Record PinFile := { pins : list Pin; spans : list (nat * nat) }.

(** ** Reading *)

Definition is_ascii_whitespace (c : ascii) : bool :=
  existsb (N.eqb (N_of_ascii c)) [32; 9; 10; 12; 13]%N.

(** The longest prefix of bytes with a property, and the rest. *)
Fixpoint span_while (p : ascii -> bool) (s : string) : string * string :=
  match s with
  | "" => ("", "")
  | String c r => if p c then let '(a, b) := span_while p r in (String c a, b) else ("", s)
  end.

(** The string up to a quote that no backslash precedes, and what follows the quote. *)
Fixpoint read_name (s : string) : option (string * string) :=
  match s with
  | "" => None
  | String c r =>
      if Ascii.eqb c dquote then Some ("", r)
      else if Ascii.eqb c bslash then
        match r with
        | "" => None
        | String e r => '(name, rest) ← read_name r; Some (String c (String e name), rest)
        end
      else '(name, rest) ← read_name r; Some (String c name, rest)
  end.

(** After the name: a comma, blanks, a number and a parenthesis. *)
Definition read_count (s : string) : option (string * string * string) :=
  s ← strip_prefix "," s;
  let '(blanks, s) := span_while is_ascii_whitespace s in
  let '(digits, s) := span_while is_digit s in
  if str_is_empty digits then None
  else rest ← strip_prefix ")" s; Some (blanks, digits, rest).

(** [parse_one], on the text from the parenthesis: the name, the blanks before the number,
    its digits and what follows the entry. *)
Definition parse_one (s : string) : option (string * string * string * string) :=
  s ← strip_prefix (String "(" (str1 dquote)) s;
  '(name, s) ← read_name s;
  '(blanks, digits, rest) ← read_count s;
  Some (name, blanks, digits, rest).

(** The entries of the text from offset [i] on, each with the span of its number. *)
Fixpoint scan (fuel i : nat) (s : string) : list (Pin * (nat * nat)) :=
  match fuel, s with
  | 0, _ | _, "" => []
  | S fuel, String _ r =>
      match parse_one s with
      | Some (name, blanks, digits, rest) =>
          let num_at := i + 2 + String.length name + 2 + String.length blanks in
          let num_end := num_at + String.length digits in
          ({| pin_name := name; pin_value := default 0%Z (parse_u64 digits) |}, (num_at, num_end))
            :: scan fuel (S num_end) rest
      | None => scan fuel (S i) r
      end
  end.

Definition parse_pins (text : string) : PinFile :=
  let found := scan (String.length text) 0 text in
  {| pins := found.*1; spans := found.*2 |}.

Definition Key : Type := string * nat.

Fixpoint keys_from (seen : gmap string nat) (l : list Pin) : list Key :=
  match l with
  | [] => []
  | pin :: l =>
      let index := default 0 (seen !! pin_name pin) in
      (pin_name pin, index) :: keys_from (<[pin_name pin := S index]> seen) l
  end.

Definition keys (l : list Pin) : list Key := keys_from ∅ l.

Definition by_key (l : list Pin) : gmap Key Z := map_collect (zip (keys l) (pin_value <$> l)).

Definition has_conflict_markers (text : string) : bool :=
  existsb (fun line => starts_with line "<<<<<<< " || starts_with line ">>>>>>> ") (str_lines text).

Definition values (text : option string) : gmap Key Z :=
  match text with Some text => by_key (pins (parse_pins text)) | None => ∅ end.

(** ** What a change adds *)

Definition count_of (name : string) (l : list Pin) : nat :=
  length (List.filter (fun pin => (pin_name pin =? name)%string) l).

Definition occurrences (m : gmap Key Z) (name : string) (n : nat) : list Z :=
  (fun index => default 0%Z (m !! (name, index))) <$> seq 0 n.

(** The names of the pins, each at its first occurrence. *)
Definition pin_names (l : list Pin) : list string :=
  foldl (fun names pin => if bool_decide (pin_name pin ∈ names) then names else names ++ [pin_name pin]) [] l.

Definition as_i64 (z : Z) : Z := i64_wrap z.

(** Each occurrence's difference between the merge base and the head, where there is one. *)
Definition changed_deltas (name : string) (mb head : list Z) (deltas : gmap Key Z) : gmap Key Z :=
  foldl (fun deltas x =>
    let '(index, (mb_value, head_value)) := x in
    let delta := i64_wrap (as_i64 head_value - as_i64 mb_value) in
    if (delta =? 0)%Z then deltas else <[(name, index) := delta]> deltas)
    deltas (zip (seq 0 (length mb)) (zip mb head)).

Definition introduced_deltas (name : string) (head : list Z) (deltas : gmap Key Z) : gmap Key Z :=
  foldl (fun deltas x => <[(name, x.1) := as_i64 x.2]> deltas) deltas (zip (seq 0 (length head)) head).

Section messages.
Context `{StrDebug}.

Definition name_delta (base mb head : list Pin) (name : string) (deltas : gmap Key Z)
  : result string (gmap Key Z) :=
  let b := count_of name base in
  let m := count_of name mb in
  let h := count_of name head in
  let mb_values := occurrences (by_key mb) name m in
  let head_values := occurrences (by_key head) name h in
  if (m =? h) && bool_decide (mb_values = head_values) then Ok deltas
  else if (b =? m) && (m =? h) then Ok (changed_deltas name mb_values head_values deltas)
  else if (b =? 0) && (m =? 0) then Ok (introduced_deltas name head_values deltas)
  else Err ("occurrence-count mismatch for pin " +:+ debug_str name +:+ ": base " +:+ pretty b
            +:+ ", merge base " +:+ pretty m +:+ ", head " +:+ pretty h).

Fixpoint all_deltas (base mb head : list Pin) (names : list string) (deltas : gmap Key Z)
  : result string (gmap Key Z) :=
  match names with
  | [] => Ok deltas
  | name :: names =>
      match name_delta base mb head name deltas with
      | Ok deltas => all_deltas base mb head names deltas
      | Err e => Err e
      end
  end.

Definition change_deltas (base mergebase head : option string) : result string (gmap Key Z) :=
  if (default "" head =? default "" mergebase)%string then Ok ∅
  else match base, mergebase, head with
  | Some base_text, Some mb, Some hd =>
      let base_pins := pins (parse_pins base_text) in
      let mb_pins := pins (parse_pins mb) in
      let head_pins := pins (parse_pins hd) in
      all_deltas base_pins mb_pins head_pins (pin_names (base_pins ++ mb_pins ++ head_pins)) ∅
  | _, _, _ =>
      let missing := match base, mergebase with
                     | None, _ => "base" | _, None => "merge base" | _, _ => "head" end in
      Err ("pin file missing in " +:+ missing +:+ " (" +:+ PIN_PATH +:+ ")")
  end.
End messages.

(** [delta] less [earlier], without the keys that come to zero. *)
Definition subtract (delta earlier : gmap Key Z) : gmap Key Z :=
  filter (fun x => x.2 <> 0%Z)
    (foldl (fun out x => <[x.1 := i64_wrap (default 0%Z (out !! x.1) - x.2)]> out) delta (btree_iter earlier)).

(** ** Declared decreases *)

Definition DECREASE_TRAILER : string := "Count-Pin-Decrease".

Record Decrease := { dc_name : string; occurrence : nat; amount : Z; dc_reason : string }.

(** [str::rsplit_once] *)
Fixpoint rsplit_once (sep : ascii) (s : string) : option (string * string) :=
  match s with
  | "" => None
  | String c r =>
      match rsplit_once sep r with
      | Some (a, b) => Some (String c a, b)
      | None => if Ascii.eqb c sep then Some ("", r) else None
      end
  end.

(** What precedes the first whitespace character, and what follows it. *)
Fixpoint break_whitespace (cs : list string) : list string * option (list string) :=
  match cs with
  | [] => ([], None)
  | c :: cs =>
      if char_is_whitespace c then ([], Some cs)
      else let '(a, rest) := break_whitespace cs in (c :: a, rest)
  end.

(** [splitn(3, char::is_whitespace)], where it has three parts. *)
Definition three_parts (s : string) : option (string * string * string) :=
  let '(a, rest) := break_whitespace (chars s) in
  rest ← rest;
  let '(b, rest) := break_whitespace rest in
  c ← rest;
  Some (of_chars a, of_chars b, of_chars c).

Definition parse_decrease (value : string) : option Decrease :=
  '(pin, amount, reason) ← three_parts (str_trim value);
  if str_is_empty (str_trim reason) then None
  else
    let '(name, occurrence) := match rsplit_once ":" pin with
                               | Some (name, index) => (name, parse_u64 index)
                               | None => (pin, Some 0%Z)
                               end in
    occurrence ← occurrence;
    amount ← parse_i64 amount;
    if (amount =? 0)%Z || str_is_empty name then None
    else Some {| dc_name := name; occurrence := Z.to_nat occurrence; amount := Z.abs amount;
                 dc_reason := str_trim reason |}.

Definition trailer_step (acc : list Decrease * list string) (line : string) : list Decrease * list string :=
  let '(declared, unreadable) := acc in
  match split_once ":" line with
  | None => acc
  | Some (key, value) =>
      if negb (to_ascii_lowercase (str_trim key) =? to_ascii_lowercase DECREASE_TRAILER)%string then acc
      else match parse_decrease value with
           | Some decrease => (declared ++ [decrease], unreadable)
           | None => (declared, unreadable ++ [line])
           end
  end.

Definition declared_decreases (message : string) : list Decrease * list string :=
  foldl trailer_step ([], []) (str_trim <$> str_lines message).

(** The declaration of a pin: the first one for it. *)
Definition declaration_of (key : Key) (declared : list Decrease) : option Decrease :=
  List.find (fun dc => (dc_name dc =? key.1)%string && (occurrence dc =? key.2)) declared.

Section check.
Context `{StrDebug}.
Context (base : gmap Key Z) (running : gmap Key Z) (mb_values : gmap Key Z) (reference : string)
  (head_values : gmap Key Z) (declared : list Decrease) (unreadable : list string).

Definition shown (m : gmap Key Z) (key : Key) : string :=
  match m !! key with Some value => pretty value | None => "absent" end.

Definition resolved (key : Key) (d : Z) : Z :=
  i64_wrap (default (as_i64 (default 0%Z (base !! key))) (running !! key) + d).

Definition decrease_values (key : Key) (d : Z) : string :=
  "pin " +:+ debug_str key.1 +:+ " (occurrence " +:+ pretty key.2 +:+ ") is " +:+ shown mb_values key
  +:+ " at " +:+ reference +:+ " and " +:+ shown head_values key +:+ " at the head (" +:+ pretty d
  +:+ "), so on the base's " +:+ pretty (default 0%Z (base !! key)) +:+ " it resolves to "
  +:+ pretty (resolved key d).

Definition pin_label (key : Key) : string :=
  if key.2 =? 0 then key.1 else key.1 +:+ ":" +:+ pretty key.2.

Definition check_decrease (key : Key) (d : Z) : result string Decrease :=
  match declaration_of key declared with
  | Some decrease =>
      if (amount decrease =? Z.abs d)%Z then Ok decrease
      else Err (decrease_values key d +:+ ", but the head commit declares a decrease of "
                +:+ pretty (amount decrease) +:+ " (" +:+ DECREASE_TRAILER +:+ ": " +:+ pin_label key +:+ " "
                +:+ pretty (amount decrease) +:+ " " +:+ dc_reason decrease
                +:+ "); a decrease must match its declaration exactly")
  | None =>
      let unread := match unreadable with
                    | [] => ""
                    | _ => " (unreadable trailer(s): " +:+ join " | " unreadable +:+ ")"
                    end in
      Err (decrease_values key d +:+ ", below the base; an undeclared decrease is refused" +:+ unread
           +:+ ": declare an intended one with a `" +:+ DECREASE_TRAILER +:+ ": " +:+ pin_label key +:+ " "
           +:+ pretty (Z.abs d) +:+ " <reason>` trailer on the head commit, or rebase a head whose pin is stale "
           +:+ "against its merge base")
  end.

Fixpoint check_all (l : list (Key * Z)) (honoured : list Decrease) : result string (list Decrease) :=
  match l with
  | [] => Ok honoured
  | (key, d) :: l =>
      if (0 <=? d)%Z then check_all l honoured
      else match check_decrease key d with
           | Ok decrease => check_all l (honoured ++ [decrease])
           | Err e => Err e
           end
  end.

Definition check_decreases (delta : gmap Key Z) : result string (list Decrease) :=
  check_all (btree_iter delta) [].
End check.

(** ** Writing *)

(** One change's deltas on top of the running values. *)
Definition add_delta (m : gmap Key Z) (delta : gmap Key Z) : gmap Key Z :=
  foldl (fun m x => <[x.1 := i64_wrap (default 0%Z (m !! x.1) + x.2)]> m) m (btree_iter delta).

Definition candidate_values (base_pins : list Pin) (deltas : list (gmap Key Z)) : gmap Key Z :=
  Z.max 0 <$> foldl add_delta (as_i64 <$> by_key base_pins) deltas.

Fixpoint str_take (n : nat) (s : string) : string :=
  match n, s with S n, String c r => String c (str_take n r) | _, _ => "" end.

Fixpoint str_drop (n : nat) (s : string) : string :=
  match n, s with S n, String _ r => str_drop n r | _, _ => s end.

(** [String::replace_range] *)
Definition replace_range (span : nat * nat) (by_ s : string) : string :=
  str_take span.1 s +:+ by_ +:+ str_drop span.2 s.

(** The numbers are replaced from the last to the first. *)
Definition rewrite_pins (text : string) (values : gmap Key Z) : string :=
  let parsed := parse_pins text in
  foldr (fun x out => match values !! x.1 with
                      | Some value => replace_range x.2 (pretty value) out
                      | None => out
                      end) text (zip (keys (pins parsed)) (spans parsed)).

(** ** A file to evaluate the definitions on *)

Definition quoted (name : string) : string := str1 dquote +:+ name +:+ str1 dquote.

Definition demo_pins : string :=
  "// counts" +:+ str1 nl +:+ "(" +:+ quoted "unit" +:+ ", 12), (" +:+ quoted "slow" +:+ ",3), ("
  +:+ quoted "unit" +:+ ", 4) // (" +:+ quoted "x".

Example demo_pins_read :
  (pin_name <$> pins (parse_pins demo_pins), pin_value <$> pins (parse_pins demo_pins), keys (pins (parse_pins demo_pins)))
  = (["unit"; "slow"; "unit"], [12; 3; 4]%Z, [("unit", 0); ("slow", 0); ("unit", 1)]).
Proof. vm_compute. reflexivity. Qed.

Example demo_pins_rewritten :
  rewrite_pins demo_pins {[("unit", 1) := 100%Z; ("slow", 0) := 2%Z]}
  = "// counts" +:+ str1 nl +:+ "(" +:+ quoted "unit" +:+ ", 12), (" +:+ quoted "slow" +:+ ",2), ("
    +:+ quoted "unit" +:+ ", 100) // (" +:+ quoted "x".
Proof. vm_compute. reflexivity. Qed.

Example demo_declared :
  let d := declared_decreases ("Drop a test" +:+ str1 nl +:+ "count-pin-decrease: unit:1 -2 gone now" +:+ str1 nl
                               +:+ "Count-Pin-Decrease: unit two") in
  (dc_name <$> d.1, occurrence <$> d.1, amount <$> d.1, dc_reason <$> d.1, d.2)
  = (["unit"], [1], [2%Z], ["gone now"], ["Count-Pin-Decrease: unit two"]).
Proof. vm_compute. reflexivity. Qed.
