(* ===== verification/QueueFacts.v ===== *)
(** * merge-queue: facts about selection, holds and dependencies

    The selected changes follow what they depend on and do not conflict; a change
    that is decided is selected or held, and what the loop holds waits for a change
    that is not selected or conflicts with one that is.  Then the holds that precede the
    loop, dependencies and conflicts. *)
From S2P Require Import Prelude RustStr External QueueTests QueueModel QueuePlan.

Section select.
Context (preds : gmap Z (gset Z)) (conflicts : gmap Z (gmap Z (list string))) (rank : Z -> Rank).

(** [p] conflicts with [q] by the map. *)
Definition clashes_with (p q : Z) : Prop := is_Some (default ∅ (conflicts !! p) !! q).

(** A selection, as it grows. *)
Inductive lands_in_order : list Z -> Prop :=
| lands_nil : lands_in_order []
| lands_snoc l p :
    lands_in_order l -> p ∉ l -> (forall d, d ∈ neighbours preds p -> d ∈ l) ->
    (forall q, q ∈ l -> ~ clashes_with p q) -> lands_in_order (l ++ [p]).

Lemma lands_split l1 p l2 :
  lands_in_order (l1 ++ p :: l2) ->
  p ∉ l1 /\ (forall d, d ∈ neighbours preds p -> d ∈ l1) /\ (forall q, q ∈ l1 -> ~ clashes_with p q).
Proof.
  induction l2 as [|x l2 IH] using rev_ind; intros Hl.
  - inversion Hl as [Heq|l q ??? ? Heq]; [by destruct l1|].
    apply app_inj_tail in Heq as [-> ->]. done.
  - rewrite app_comm_cons, app_assoc in Hl. apply IH.
    inversion Hl as [Heq|l q ??? ? Heq]; [by destruct l1|].
    apply app_inj_tail in Heq as [-> ->]. done.
Qed.

Lemma lands_NoDup l : lands_in_order l -> NoDup l.
Proof.
  induction 1 as [|l p _ IH Hp _ _]; [constructor|]. apply NoDup_app. split_and!; [done| |].
  - intros x Hx ->%list_elem_of_singleton. done.
  - apply NoDup_singleton.
Qed.

(** ** The change whose turn it is *)

Lemma next_change_None remaining decided :
  next_change preds rank remaining decided = None <-> remaining = ∅.
Proof.
  unfold next_change. split.
  - destruct (min_by_key _ _); [done|]. intros Hn%min_by_key_None. apply set_eq. intros x.
    rewrite <-elem_of_btree_elems, Hn. set_solver.
  - intros ->. assert (btree_elems (∅ : gset Z) = []) as Hn by by_eval. by rewrite Hn.
Qed.

(** It is a remaining one, ready unless no remaining change is. *)
Lemma next_change_Some remaining decided p :
  next_change preds rank remaining decided = Some p ->
  p ∈ remaining /\
  ((neighbours preds p ⊆ decided /\
    forall q, q ∈ remaining -> neighbours preds q ⊆ decided -> rle (rank p) (rank q)) \/
   (forall q, q ∈ remaining -> ~ neighbours preds q ⊆ decided)).
Proof.
  unfold next_change. destruct (min_by_key _ (List.filter _ _)) as [r|] eqn:Hr.
  - intros [= ->]. apply min_by_key_Some in Hr as [[Hp Hd]%elem_of_filter_b Hmin].
    apply elem_of_btree_elems in Hp. apply bool_decide_eq_true in Hd. split; [done|left].
    split; [done|]. intros q Hq Hqd. apply Hmin, elem_of_filter_b.
    by rewrite elem_of_btree_elems, bool_decide_eq_true.
  - intros [Hp _]%min_by_key_Some. apply elem_of_btree_elems in Hp. split; [done|right].
    apply min_by_key_None in Hr. intros q Hq Hd. apply (not_elem_of_nil q). rewrite <-Hr.
    apply elem_of_filter_b. by rewrite elem_of_btree_elems, bool_decide_eq_true.
Qed.

(** ** One turn *)

(** Why the loop holds [p], in terms of the changes it selects in the end. *)
Definition held_because (selected : list Z) (p : Z) (h : Held) : Prop :=
  held_pr h = p /\ with_ h <> [] /\
  ((kind h = "waiting-on-dependency" /\
    forall d, d ∈ with_ h <-> d ∈ neighbours preds p /\ d ∉ selected) \/
   (kind h = "conflicts-with-queued" /\ (forall d, d ∈ neighbours preds p -> d ∈ selected) /\
    forall q, q ∈ with_ h -> q ∈ selected /\ clashes_with p q)).

Lemma lookup_hold_self held h :
  held !! held_pr h = None -> hold held h !! held_pr h = Some h.
Proof. intros Hn. unfold hold, entry_or_insert. rewrite Hn. apply lookup_insert_eq. Qed.

Lemma lookup_hold_ne held h p : p <> held_pr h -> hold held h !! p = held !! p.
Proof.
  intros Hne. unfold hold, entry_or_insert. destruct (held !! held_pr h); [done|].
  by apply lookup_insert_ne.
Qed.

(** The three outcomes of a turn. *)
Lemma decide_change_cases p held selected held' selected' :
  decide_change preds conflicts p held selected = (held', selected') ->
  (held' = held /\ selected' = selected /\ is_Some (held !! p)) \/
  (held' = held /\ selected' = selected ++ [p] /\ held !! p = None /\
   (forall d, d ∈ neighbours preds p -> d ∈ selected) /\
   (forall q, q ∈ selected -> ~ clashes_with p q)) \/
  (selected' = selected /\ held !! p = None /\
   exists h, held' = hold held h /\ held_because selected p h).
Proof.
  unfold decide_change. case_decide as Hh; [intros [= <- <-]; by left|].
  apply eq_None_not_Some in Hh.
  set (waits := List.filter _ (btree_elems (neighbours preds p))).
  assert (Hw : forall d, d ∈ waits <-> d ∈ neighbours preds p /\ d ∉ selected).
  { intros d. unfold waits.
    by rewrite elem_of_filter_b, elem_of_btree_elems, negb_true_iff, bool_decide_eq_false. }
  assert (Hready : waits = [] -> forall d, d ∈ neighbours preds p -> d ∈ selected).
  { intros Hnil d Hd. destruct (decide (d ∈ selected)) as [|Hn]; [done|].
    exfalso. apply (not_elem_of_nil d). rewrite <-Hnil. by apply Hw. }
  clearbody waits. destruct waits as [|d waits].
  2: { intros [= <- <-]. right; right. split_and!; [done|done|]. eexists. split; [done|].
       split_and!; [done|done|]. by left. }
  specialize (Hready eq_refl). set (met := List.filter _ (btree_iter _)).
  assert (Hm : forall q ps, (q, ps) ∈ met <->
    default ∅ (conflicts !! p) !! q = Some ps /\ q ∈ selected).
  { intros q ps. unfold met. by rewrite elem_of_filter_b, elem_of_btree_iter, bool_decide_eq_true. }
  clearbody met. destruct met as [|c met]; intros [= <- <-]; right.
  - left. split_and!; [done..|exact Hready|]. intros q Hq [ps Hps].
    apply (not_elem_of_nil (q, ps)), Hm. done.
  - right. split_and!; [done|done|]. eexists. split; [done|]. split_and!; [done|done|]. right.
    split_and!; [done|done|]. intros q ([q' ps] & -> & Hq)%list_elem_of_fmap.
    apply Hm in Hq as [Hps Hsel]. split; [done|]. by exists ps.
Qed.

(** ** The loop *)

(** Once no remaining change has all its dependencies selected, none is selected. *)
Lemma select_loop_stuck fuel remaining decided held selected :
  (forall q, q ∈ remaining -> exists d, d ∈ neighbours preds q /\ d ∉ selected) ->
  (select_loop fuel preds conflicts rank remaining decided held selected).2 = selected.
Proof.
  revert remaining decided held. induction fuel as [|fuel IH]; intros remaining decided held Hq;
    cbn [select_loop]; [done|].
  destruct (next_change _ _ _ _) as [p|] eqn:Hp; [|done]. apply next_change_Some in Hp as [Hp _].
  destruct (decide_change _ _ _ _ _) as [held' selected'] eqn:Hd.
  apply decide_change_cases in Hd as [(-> & -> & _)|[(-> & -> & _ & Hall & _)|(-> & _ & h & -> & _)]].
  - apply IH. intros q Hr. apply Hq. set_solver.
  - exfalso. destruct (Hq p Hp) as (d & Hd & Hn). by apply Hn, Hall.
  - apply IH. intros q Hr. apply Hq. set_solver.
Qed.

(** What holds between turns: [all] is what there is to decide. *)
Record selecting (all remaining decided : gset Z) (held : gmap Z Held) (selected : list Z) : Prop := {
  sl_parts : all = remaining ∪ decided;
  sl_disjoint : remaining ## decided;
  sl_order : lands_in_order selected;
  sl_decided : forall p, p ∈ selected -> p ∈ decided /\ held !! p = None;
  sl_settled : forall p, p ∈ decided -> p ∈ selected \/ is_Some (held !! p);
}.
(** Holding a change that is not held leaves the others alone. *)
Lemma lookup_hold held h p q :
  held_pr h = p -> held !! p = None ->
  hold held h !! q = if decide (q = p) then Some h else held !! q.
Proof.
  intros <- Hn. case_decide as Hq; [subst; by apply lookup_hold_self|by apply lookup_hold_ne].
Qed.

Lemma selecting_step all remaining decided held selected p held' selected' :
  selecting all remaining decided held selected -> p ∈ remaining ->
  decide_change preds conflicts p held selected = (held', selected') ->
  selecting all (remaining ∖ {[p]}) ({[p]} ∪ decided) held' selected'.
Proof.
  intros [Hall Hdis Hord Hdec Hset] Hp Hd.
  assert (Hpd : p ∉ decided) by set_solver.
  assert (Hps : p ∉ selected) by (intros Hin%Hdec; tauto).
  assert (Hparts : all = remaining ∖ {[p]} ∪ ({[p]} ∪ decided)).
  { rewrite Hall. apply set_eq. intros x. destruct (decide (x = p)) as [->|]; set_solver. }
  assert (Hdis' : remaining ∖ {[p]} ## {[p]} ∪ decided) by set_solver.
  apply decide_change_cases in Hd as [(-> & -> & Hh)|[(-> & -> & Hh & Hready & Hfree)|(-> & Hh & h & -> & Hb)]].
  - split; [done..| |]; intros q Hq.
    + destruct (Hdec q Hq). set_solver.
    + apply elem_of_union in Hq as [->%elem_of_singleton|Hq]; [by right|by apply Hset].
  - split; [done|done|by constructor| |]; intros q Hq.
    + apply elem_of_app in Hq as [Hq| ->%list_elem_of_singleton]; [|set_solver].
      destruct (Hdec q Hq). set_solver.
    + apply elem_of_union in Hq as [->%elem_of_singleton|Hq]; [set_solver|].
      destruct (Hset q Hq); [left; set_solver|by right].
  - destruct Hb as [Hpr _].
    split; [done..| |]; intros q Hq; rewrite (lookup_hold _ _ _ _ Hpr Hh).
    + destruct (Hdec q Hq). rewrite decide_False by (intros ->; done). set_solver.
    + case_decide as Hqp; [by right|]. apply Hset. set_solver.
Qed.

(** What was not selected when [p] was held never is. *)
Lemma unselected_stays remaining decided p (selected selected' : list Z) d :
  next_change preds rank remaining decided = Some p ->
  remaining ## decided ->
  (forall q, q ∈ selected -> q ∈ decided) ->
  (forall q, q ∈ selected' -> q ∈ selected \/ q ∈ remaining ∖ {[p]}) ->
  ((forall q, q ∈ remaining ∖ {[p]} -> exists d, d ∈ neighbours preds q /\ d ∉ selected) ->
   selected' = selected) ->
  d ∈ neighbours preds p -> d ∉ selected -> d ∉ selected'.
Proof.
  intros Hp%next_change_Some Hdis Hdec Hnew Hstuck Hd Hn.
  destruct Hp as (_ & [[Hready _]|Hnone]).
  - intros Hin. destruct (Hnew d Hin) as [|Hr]; [done|]. set_solver.
  - rewrite Hstuck; [done|]. intros q Hq. specialize (Hnone q ltac:(set_solver)).
    destruct (decide (neighbours preds q ∖ decided = ∅)) as [He|[x Hx]%set_choose_L];
      [exfalso; apply Hnone; set_solver|].
    exists x. split; [set_solver|]. intros Hin%Hdec. set_solver.
Qed.

Lemma held_because_final (selected selected' : list Z) p h :
  (forall q, q ∈ selected -> q ∈ selected') ->
  (forall d, d ∈ neighbours preds p -> d ∉ selected -> d ∉ selected') ->
  held_because selected p h -> held_because selected' p h.
Proof.
  intros Hsub Hstay (Hpr & Hw & [[Hk Hd]|(Hk & Hd & Hq)]); (split_and!; [done|done|]).
  - left. split; [done|]. intros d. rewrite Hd. split; intros [Hin Hn]; (split; [done|]); auto.
  - right. split_and!; [done|by auto|]. intros q Hin. destruct (Hq q Hin). auto.
Qed.

(** What the loop leaves. *)
Definition selection_done (all remaining : gset Z) (held : gmap Z Held) (selected : list Z)
    (held' : gmap Z Held) (selected' : list Z) : Prop :=
  selecting all ∅ all held' selected' /\
  (forall q, q ∈ selected -> q ∈ selected') /\
  (forall q, q ∈ selected' -> q ∈ selected \/ q ∈ remaining) /\
  (forall q h, held !! q = Some h -> held' !! q = Some h) /\
  (forall q h, held' !! q = Some h ->
     held !! q = Some h \/ (q ∈ remaining /\ held !! q = None /\ held_because selected' q h)).

Lemma select_loop_spec fuel all remaining decided held selected held' selected' :
  selecting all remaining decided held selected -> size remaining <= fuel ->
  select_loop fuel preds conflicts rank remaining decided held selected = (held', selected') ->
  selection_done all remaining held selected held' selected'.
Proof.
  revert remaining decided held selected.
  induction fuel as [|fuel IH]; intros remaining decided held selected Hs Hsize; cbn [select_loop].
  all: assert (Hend : remaining = ∅ -> (held, selected) = (held', selected') ->
         selection_done all remaining held selected held' selected').
  1,3: intros Hr [= <- <-]; subst remaining; pose proof (sl_parts _ _ _ _ _ Hs) as ->;
       rewrite (left_id_L ∅ (∪)) in *; split_and!; naive_solver.
  { intros Heq. apply Hend; [|done]. apply leibniz_equiv, size_empty_inv. lia. }
  destruct (next_change _ _ _ _) as [p|] eqn:Hp; [|apply next_change_None in Hp; by apply Hend].
  assert (Hin : p ∈ remaining) by by apply next_change_Some in Hp as [? _].
  destruct (decide_change _ _ _ _ _) as [held1 selected1] eqn:Hd. intros Hl.
  pose proof (selecting_step _ _ _ _ _ _ _ _ Hs Hin Hd) as Hs1.
  assert (Hsize1 : size (remaining ∖ {[p]}) <= fuel).
  { rewrite size_difference, size_singleton by set_solver. lia. }
  destruct (IH _ _ _ _ Hs1 Hsize1 Hl) as (He & Hsub & Hnew & Hkeep & Hwhy). clear IH.
  assert (Hstuck : (forall q, q ∈ remaining ∖ {[p]} -> exists d, d ∈ neighbours preds q /\ d ∉ selected1) ->
    selected' = selected1).
  { intros Hq. rewrite <-(select_loop_stuck fuel _ ({[p]} ∪ decided) held1 selected1 Hq). by rewrite Hl. }
  clear Hl Hs1 Hsize Hsize1. destruct Hs as [_ Hdis _ Hdec _].
  apply decide_change_cases in Hd as [(-> & -> & Hh)|[(-> & -> & Hh & _)|(-> & Hh & h & -> & Hb)]].
  - split_and!; [done|done| |done|]; intros q; [intros Hq; destruct (Hnew q Hq); set_solver|].
    intros h Hq. destruct (Hwhy q h Hq) as [|(? & ?)]; [by left|right; set_solver].
  - split_and!; [done| | |done|]; intros q; [intros Hq; apply Hsub; set_solver| |].
    + intros Hq. destruct (Hnew q Hq); set_solver.
    + intros h Hq. destruct (Hwhy q h Hq) as [|(? & ?)]; [by left|right; set_solver].
  - pose proof (proj1 Hb) as Hpr. split_and!; [done|done| | |].
    + intros q Hq. destruct (Hnew q Hq); set_solver.
    + intros q h' Hq. apply Hkeep. rewrite (lookup_hold _ _ _ _ Hpr Hh).
      by rewrite decide_False by (intros ->; congruence).
    + intros q h' Hq. destruct (Hwhy q h' Hq) as [Hq1|(Hr & Hq1 & Hb1)];
        rewrite (lookup_hold _ _ _ _ Hpr Hh) in Hq1; case_decide as Hqp; try done.
      * injection Hq1 as <-. subst q. right. split_and!; [done|done|].
        apply (held_because_final selected); [done| |done]. intros d.
        apply (unselected_stays remaining decided p); try done. by intros x [? _]%Hdec.
      * by left.
      * right. split_and!; [set_solver|done|done].
Qed.
End select.

(** ** Holds *)

Section holds.
Context `{StrDebug}.

(** Every entry is found under its own number. *)
Definition keyed (held : gmap Z Held) : Prop := forall p h, held !! p = Some h -> held_pr h = p.

Lemma lookup_hold_is_Some held h p :
  is_Some (hold held h !! p) <-> is_Some (held !! p) \/ held_pr h = p.
Proof.
  unfold hold, entry_or_insert. destruct (held !! held_pr h) as [h'|] eqn:Hh.
  - split; [by left|]. intros [?| <-]; [done|by exists h'].
  - rewrite lookup_insert_is_Some. split; [intros [?|[_ ?]]; auto|].
    intros [?| <-]; [|by left]. destruct (decide (held_pr h = p)); auto.
Qed.

Lemma keyed_hold held h : keyed held -> keyed (hold held h).
Proof.
  intros Hk p h'. unfold hold, entry_or_insert. destruct (held !! held_pr h); [apply Hk|].
  rewrite lookup_insert_Some. intros [[<- <-]|[_ Hp]]; [done|by apply Hk].
Qed.

Lemma hold_each_keyed f l held : keyed held -> keyed (hold_each f l held).
Proof.
  unfold hold_each. revert held. induction l as [|i l IH]; intros held Hk; cbn [foldl]; [done|].
  apply IH. destruct (f i); [by apply keyed_hold|done].
Qed.

Lemma hold_each_dom f l held p :
  (forall i h, i ∈ l -> f i = Some h -> held_pr h = pr i) ->
  is_Some (hold_each f l held !! p) <->
  is_Some (held !! p) \/ exists i, i ∈ l /\ pr i = p /\ is_Some (f i).
Proof.
  unfold hold_each. revert held. induction l as [|i l IH]; intros held Hf; cbn [foldl].
  { split; [by left|]. intros [?|(i & ?%elem_of_nil & _)]; done. }
  assert (Hl : forall j h, j ∈ l -> f j = Some h -> held_pr h = pr j).
  { intros j h Hj. apply Hf. set_solver. }
  rewrite (IH _ Hl), exists_cons. destruct (f i) as [h|] eqn:Hi.
  - rewrite lookup_hold_is_Some, (Hf i h) by set_solver.
    assert (is_Some (Some h)) by done. tauto.
  - assert (~ is_Some (@None Held)) by (by intros []). tauto.
Qed.

Context (all_items : list Item) (base at_ : string) (probe : Probe).

Definition queued : list Item := List.filter is_queued all_items.

(** Nothing about the change itself keeps it from landing. *)
Record landable (i : Item) : Prop := {
  head_current : heads probe !! pr i = Some (Some (head i));
  base_clean : default [] (base_conflicts probe !! pr i) = [];
  not_escalated : escalated i = "";
  not_awaiting_ruling : flaky_hold_until i = "" \/ rle (flaky_hold_until i) at_;
  not_deferred : next_retry_at i = "" \/ rle (next_retry_at i) at_;
  no_external : external probe !! pr i = None;
  carries_nothing : forall range j, ranges probe !! pr i = Some range -> j ∈ all_items -> pr j <> pr i ->
    status j = Ejected \/ status j = Withdrawn -> head j ∉ range;
}.

Lemma held_until_false s : negb (str_is_empty s) && later s at_ = false <-> s = "" \/ rle s at_.
Proof.
  unfold later. rewrite andb_false_iff, negb_false_iff, bool_decide_eq_false.
  assert (Hs : str_is_empty s = true <-> s = "") by by destruct s.
  rewrite Hs. split; (intros [|Hn]; [by left|right]); [by apply dec_stable|tauto].
Qed.

Lemma carried_nil i : carried all_items probe i = [] <->
  forall range j, ranges probe !! pr i = Some range -> j ∈ all_items -> pr j <> pr i ->
    status j = Ejected \/ status j = Withdrawn -> head j ∉ range.
Proof.
  unfold carried. destruct (ranges probe !! pr i) as [range|]; [|naive_solver].
  assert (Hnil : forall l : list Item, pr <$> l = [] <-> l = []) by by intros [].
  rewrite Hnil. split.
  - intros Hn range' j [= <-] Hj Hp Hs Hin. apply (elem_of_nil (A:=Item) j). rewrite <- Hn.
    apply elem_of_filter_b. split; [done|]. rewrite !andb_true_iff, negb_true_iff, Z.eqb_neq.
    split_and!; by try apply bool_decide_eq_true.
  - intros Hall. apply elem_of_nil_inv. intros j [Hj Hb]%elem_of_filter_b.
    rewrite !andb_true_iff, negb_true_iff, Z.eqb_neq, !bool_decide_eq_true in Hb.
    destruct Hb as [[Hs Hp] Hin]. exact (Hall range j eq_refl Hj Hp Hs Hin).
Qed.

Lemma identity_hold_None i :
  identity_hold base probe i = None <->
  heads probe !! pr i = Some (Some (head i)) /\ default [] (base_conflicts probe !! pr i) = [].
Proof.
  unfold identity_hold. destruct (heads probe !! pr i) as [[current|]|]; [|naive_solver..].
  destruct (String.eqb_spec current (head i)) as [->|Hne]; cbn [negb]; [|naive_solver].
  destruct (base_conflicts probe !! pr i) as [[|c cs]|]; cbn [default]; naive_solver.
Qed.

Lemma deferral_hold_None i :
  deferral_hold at_ i = None <->
  escalated i = "" /\ is_flaky_held_at i at_ = false /\ is_deferred_at i at_ = false.
Proof.
  unfold deferral_hold. destruct (escalated i) as [|c s]; cbn [str_is_empty negb]; [|naive_solver].
  destruct (is_flaky_held_at i at_); cbn [andb]; [case_match; naive_solver|].
  destruct (is_deferred_at i at_); naive_solver.
Qed.

Lemma deferral_hold_spec i : status i = Queued -> deferral_hold at_ i = None <->
  escalated i = "" /\ (flaky_hold_until i = "" \/ rle (flaky_hold_until i) at_)
  /\ (next_retry_at i = "" \/ rle (next_retry_at i) at_).
Proof.
  intros Hs. rewrite deferral_hold_None. unfold is_flaky_held_at, is_deferred_at, is_queued.
  rewrite bool_decide_true by done. cbn [andb]. by rewrite !held_until_false.
Qed.

Lemma carried_hold_None i : carried_hold all_items probe i = None <-> carried all_items probe i = [].
Proof. unfold carried_hold. by destruct (carried all_items probe i). Qed.

Lemma landable_iff i : status i = Queued ->
  landable i <-> identity_hold base probe i = None /\ deferral_hold at_ i = None
    /\ external_hold probe i = None /\ carried_hold all_items probe i = None.
Proof.
  intros Hs. rewrite identity_hold_None, deferral_hold_spec, carried_hold_None, carried_nil by done.
  unfold external_hold. split; [intros []; tauto|]. intros ((? & ?) & (? & ? & ?) & ? & ?). by split.
Qed.

Lemma elem_of_queued_b i : i ∈ queued -> status i = Queued.
Proof. unfold queued, is_queued. by intros [_ ?%bool_decide_eq_true]%elem_of_filter_b. Qed.

(** The numbers of what the first part of the plan holds. *)
Hypothesis external_keyed : forall i h,
  i ∈ queued -> external probe !! pr i = Some h -> held_pr h = pr i.

Lemma own_holds_dom p :
  is_Some (own_holds all_items queued base at_ probe !! p) <->
  exists i, i ∈ queued /\ pr i = p /\ ~ landable i.
Proof.
  unfold own_holds.
  assert (Hid : forall i h, i ∈ queued -> identity_hold base probe i = Some h -> held_pr h = pr i).
  { intros i h _. unfold identity_hold. repeat case_match; naive_solver. }
  assert (Hde : forall i h, i ∈ queued -> deferral_hold at_ i = Some h -> held_pr h = pr i).
  { intros i h _. unfold deferral_hold. repeat case_match; naive_solver. }
  assert (Hca : forall i h, i ∈ queued -> carried_hold all_items probe i = Some h -> held_pr h = pr i).
  { intros i h _. unfold carried_hold. case_match; naive_solver. }
  rewrite !hold_each_dom by done. rewrite lookup_empty.
  split.
  - intros [[[[[h ?]|(i & Hi & Hp & Hs)]|(i & Hi & Hp & Hs)]|(i & Hi & Hp & Hs)]|(i & Hi & Hp & Hs)];
      [done|..]; exists i; (split_and!; [done|done|]); apply elem_of_queued_b in Hi;
      intros Hok; apply (landable_iff _ Hi) in Hok; apply eq_None_not_Some in Hs; tauto.
  - intros (i & Hi & Hp & Hn). rewrite landable_iff in Hn by by apply elem_of_queued_b in Hi. rewrite <-!not_eq_None_Some.
    destruct (decide (identity_hold base probe i = None)) as [H1|H1];
      [|left; left; left; right; exists i; by rewrite <-not_eq_None_Some].
    destruct (decide (deferral_hold at_ i = None)) as [H2|H2];
      [|left; left; right; exists i; by rewrite <-not_eq_None_Some].
    destruct (decide (external_hold probe i = None)) as [H3|H3];
      [|left; right; exists i; by rewrite <-not_eq_None_Some].
    right. exists i. split_and!; [done|done|]. rewrite <-not_eq_None_Some. tauto.
Qed.

Lemma own_holds_keyed : keyed (own_holds all_items queued base at_ probe).
Proof. unfold own_holds. repeat apply hold_each_keyed. intros p h. by rewrite lookup_empty. Qed.
End holds.

(** ** Dependencies *)

(** [dp] has recorded the dependencies [D], of a change on another one, and holds [U]. *)
Definition recorded (dp : Depending) (D : Z -> Z -> Prop) (U : Z -> Prop) : Prop :=
  (forall p d, d ∈ neighbours (preds dp) p <-> D p d) /\
  (forall p d, (d, p) ∈ dp_dependencies dp <-> D p d) /\
  (forall p, is_Some (dp_held dp !! p) <-> U p) /\
  keyed (dp_held dp).

Lemma recorded_iff dp D U D' U' :
  (forall p d, D p d <-> D' p d) -> (forall p, U p <-> U' p) -> recorded dp D U -> recorded dp D' U'.
Proof.
  intros HD HU (H1 & H2 & H3 & H4). split_and!; [..|done].
  - intros p d. by rewrite H1, HD.
  - intros p d. by rewrite H2, HD.
  - intros p. by rewrite H3, HU.
Qed.

(** A loop each turn of which records a part. *)
Lemma recorded_foldl {X} (f : Depending -> X -> Depending) (l : list X)
    (D' : X -> Z -> Z -> Prop) (U' : X -> Z -> Prop) dp D U :
  (forall dp D U x, recorded dp D U ->
     recorded (f dp x) (fun p d => D p d \/ D' x p d) (fun p => U p \/ U' x p)) ->
  recorded dp D U ->
  recorded (foldl f dp l) (fun p d => D p d \/ exists x, x ∈ l /\ D' x p d)
    (fun p => U p \/ exists x, x ∈ l /\ U' x p).
Proof.
  intros Hf. revert dp D U. induction l as [|x l IH]; intros dp D U Hr; cbn [foldl].
  { eapply recorded_iff; [| |exact Hr].
    - intros p d. split; [by left|]. by intros [?|(x & ?%elem_of_nil & _)].
    - intros p. split; [by left|]. by intros [?|(x & ?%elem_of_nil & _)]. }
  eapply recorded_iff; [| |apply IH, Hf, Hr]; cbn beta.
  - intros p d. rewrite exists_cons. tauto.
  - intros p. rewrite exists_cons. tauto.
Qed.

Lemma recorded_add dp D U b a :
  recorded dp D U ->
  recorded (add_dependency b a dp) (fun p d => D p d \/ (p = a /\ d = b)) U.
Proof.
  intros (H1 & H2 & H3 & H4). unfold recorded, add_dependency. cbn [preds dp_dependencies dp_held].
  split_and!; [| |done|done]; intros p d.
  - rewrite elem_of_neighbours_entry_insert, H1. tauto.
  - rewrite elem_of_union, elem_of_singleton, H2. split; [intros [[= -> ->]|?]; tauto|].
    intros [?|[-> ->]]; tauto.
Qed.

Section dependencies.
Context (all_items : list Item) (probe : Probe).

(** A dependency named in [after] that can neither be waited for nor is met. *)
Definition unmet (found : option ItemStatus) : Prop :=
  found <> Some Landed /\ found <> Some Queued.

#[export] Instance unmet_dec found : Decision (unmet found).
Proof. unfold unmet. apply _. Defined.

Definition found_status (d : Z) : option ItemStatus := status <$> items_by_pr all_items !! d.

Lemma recorded_after p dp D U d :
  recorded dp D U ->
  recorded (after_step (items_by_pr all_items) p dp d)
    (fun p' d' => D p' d' \/ (p' = p /\ d' = d /\ found_status d = Some Queued))
    (fun p' => U p' \/ (p' = p /\ unmet (found_status d))).
Proof.
  intros Hr. unfold after_step. fold (found_status d). set (found := found_status d).
  assert (Hun : unmet found ->
    recorded {| dp_held := hold (dp_held dp) (unmet_hold p d found);
                preds := preds dp; dp_dependencies := dp_dependencies dp |}
      (fun p' d' => D p' d' \/ (p' = p /\ d' = d /\ found = Some Queued))
      (fun p' => U p' \/ (p' = p /\ unmet found))).
  { destruct Hr as (H1 & H2 & H3 & H4). intros [Hl Hq]. unfold recorded. cbn.
    split_and!; [| | |by apply keyed_hold].
    - intros p' d'. rewrite H1. tauto.
    - intros p' d'. rewrite H2. tauto.
    - intros p'. rewrite lookup_hold_is_Some, H3. cbn. unfold unmet. naive_solver. }
  unfold unmet in *. destruct found as [[]|].
  2: { eapply recorded_iff; [| |exact Hr]; naive_solver. }
  all: try (apply Hun; done).
  eapply recorded_iff; [| |exact (recorded_add _ _ _ d p Hr)]; naive_solver.
Qed.

(** [p], which is queued, must land after [d], which is queued too. *)
Definition depends_on (p d : Z) : Prop :=
  (exists i, i ∈ queued all_items /\ pr i = p /\ d ∈ after i /\ found_status d = Some Queued) \/
  ((d, p) ∈ ancestry probe /\ d ∈ pr <$> queued all_items /\ p ∈ pr <$> queued all_items).

Lemma all_dependencies_spec held :
  keyed held ->
  recorded (all_dependencies (items_by_pr all_items) (queued all_items) probe held) depends_on
    (fun p => is_Some (held !! p) \/
       exists i, i ∈ queued all_items /\ pr i = p /\ exists d, d ∈ after i /\ unmet (found_status d)).
Proof.
  intros Hk. unfold all_dependencies. set (qs := list_to_set (pr <$> queued all_items) : gset Z).
  assert (Hstart : recorded {| dp_held := held; preds := empty_entries qs; dp_dependencies := ∅ |}
    (fun _ _ => False) (fun p => is_Some (held !! p))).
  { unfold recorded. cbn. split_and!; [|set_solver|done|done].
    intros p d. rewrite neighbours_empty_entries. set_solver. }
  apply (recorded_foldl (fun dp item => foldl (after_step (items_by_pr all_items) (pr item)) dp (after item))
    (queued all_items)
    (fun i p d => exists d', d' ∈ after i /\ (p = pr i /\ d = d' /\ found_status d' = Some Queued))
    (fun i p => exists d', d' ∈ after i /\ (p = pr i /\ unmet (found_status d')))) in Hstart.
  2: { intros dp D U i Hr. apply recorded_foldl; [|done].
       intros dp' D' U' d Hr'. by apply recorded_after. }
  apply (recorded_foldl (ancestry_step qs) (ancestry probe)
    (fun ba p d => d = ba.1 /\ p = ba.2 /\ d ∈ qs /\ p ∈ qs) (fun _ _ => False)) in Hstart.
  2: { intros dp D U [x y] Hr. unfold ancestry_step. cbn [fst snd]. case_decide as Hxy.
       - eapply recorded_iff; [| |by apply recorded_add]; naive_solver.
       - eapply recorded_iff; [| |exact Hr]; naive_solver. }
  eapply recorded_iff; [| |exact Hstart]; unfold depends_on; subst qs; cbn beta.
  - intros p d. setoid_rewrite elem_of_list_to_set. split.
    + intros [[[]|(i & Hi & d' & Hd & -> & -> & Hf)]|([x y] & Hxy & -> & -> & Hx & Hy)];
        [left; by exists i|by right].
    + intros [(i & Hi & <- & Hd & Hf)|(Hxy & Hx & Hy)].
      * left; right. exists i. split; [done|]. by exists d.
      * right. by exists (d, p).
  - intros p. split.
    + intros [[?|(i & Hi & d & Hd & -> & Hu)]|(x & _ & [])]; [by left|right]. exists i. eauto.
    + intros [?|(i & Hi & <- & d & Hd & Hu)]; left; [by left|right]. exists i. split; [done|]. by exists d.
Qed.
End dependencies.

(** ** Conflicts *)

Lemma clashes_with_insert m x y ps p q :
  clashes_with (conflict_insert x y ps m) p q <-> clashes_with m p q \/ (p = x /\ q = y).
Proof.
  unfold clashes_with, conflict_insert. destruct (decide (p = x)) as [->|Hne].
  - rewrite lookup_insert_eq. cbn [from_option Datatypes.id]. rewrite lookup_insert_is_Some'. naive_solver.
  - rewrite lookup_insert_ne by done. naive_solver.
Qed.

Lemma conflict_map_spec cs p q :
  clashes_with (conflict_map cs) p q <->
  exists c, c ∈ cs /\ ((p = a c /\ q = b c) \/ (p = b c /\ q = a c)).
Proof.
  unfold conflict_map. transitivity (clashes_with ∅ p q \/
    exists c, c ∈ cs /\ ((p = a c /\ q = b c) \/ (p = b c /\ q = a c))).
  - generalize (∅ : gmap Z (gmap Z (list string))) as m.
    induction cs as [|c cs IH]; intros m; cbn [foldl].
    { split; [by left|]. by intros [?|(c & ?%elem_of_nil & _)]. }
    rewrite IH, !clashes_with_insert, exists_cons. tauto.
  - split; [|by right]. intros [Hc|?]; [|done]. unfold clashes_with in Hc.
    rewrite lookup_empty in Hc. cbn in Hc. rewrite lookup_empty in Hc. by destruct Hc.
Qed.
