(* ===== verification/QueueLand.v ===== *)
(** * merge-queue: the batches, and the plan as a whole

    The loop over the selected changes cuts them, in order, into batches of their
    own and groups of one kind, each as long as it may be; and what [make_plan] lands and
    holds, from the facts about its parts. *)
From S2P Require Import Prelude RustStr External QueueTests QueueModel QueuePlan QueueFacts.

Section batches.
Context (by_pr : gmap Z Item) (probe : Probe) (max_batch peripheral_limit : nat).
Hypothesis max_positive : 1 <= max_batch.
Hypothesis max_limit : max_batch <= peripheral_limit.

Definition limit (peripheral : bool) : nat := if peripheral then peripheral_limit else max_batch.

(** A change that may share a batch, of the given kind. *)
Definition shares (kind : bool) (p : Z) : Prop :=
  exists i, by_pr !! p = Some i /\ alone i = false /\ is_peripheral probe p = kind.

Definition group (kind : bool) (b : PlannedBatch) : Prop :=
  Forall (shares kind) (prs b) /\ length (prs b) <= limit kind.

Definition solitary (b : PlannedBatch) : Prop :=
  exists p i, prs b = [p] /\ by_pr !! p = Some i /\ alone i = true /\ note b = alone_note i.

Definition batch_ok (b : PlannedBatch) : Prop :=
  prs b <> [] /\ (solitary b \/ exists kind, group kind b).

(** A group is followed by one of its kind only when it is full. *)
Definition greedy (l : list PlannedBatch) : Prop := forall n b b' kind,
  l !! n = Some b -> l !! S n = Some b' -> group kind b -> group kind b' ->
  length (prs b) = limit kind.

(** The batches [l] hold the changes [done]. *)
Definition batched (done : list Z) (l : list PlannedBatch) : Prop :=
  concat (prs <$> l) = done /\
  (forall n b, l !! n = Some b -> index b = n /\ batch_ok b) /\ greedy l.

Lemma batched_snoc done l b :
  batched done l -> index b = length l -> batch_ok b ->
  (forall b' kind, last l = Some b' -> group kind b' -> group kind b -> length (prs b') = limit kind) ->
  batched (done ++ prs b) (l ++ [b]).
Proof.
  intros (<- & Hok & Hg) Hi Hb Hlast. split_and!.
  - by rewrite fmap_app, concat_app; cbn; rewrite app_nil_r.
  - intros n b'. rewrite lookup_app_Some, list_lookup_singleton_Some.
    intros [?|(Hn & Hz & <-)]; [by apply Hok|]. split; [lia|done].
  - intros n b1 b2 kind. rewrite !lookup_app_Some, !list_lookup_singleton_Some.
    intros [H1|(H1 & Hz & <-)] [H2|(H2 & Hz2 & <-)].
    + by apply (Hg n).
    + apply Hlast. rewrite last_lookup. replace (pred (length l)) with n; [done|].
      apply lookup_lt_Some in H1. lia.
    + apply lookup_lt_Some in H2. lia.
    + lia.
Qed.

Lemma solitary_no_group b kind : solitary b -> ~ group kind b.
Proof.
  intros (p & i & Hp & Hi & Ha & _) [Hall _]. rewrite Hp in Hall.
  apply Forall_singleton in Hall as (j & Hj & Hn & _). congruence.
Qed.

Lemma group_kind b kind kind' : prs b <> [] -> group kind b -> group kind' b -> kind = kind'.
Proof.
  intros Hne [H1 _] [H2 _]. destruct (prs b) as [|p l]; [done|].
  apply Forall_cons in H1 as [(i & _ & _ & <-) _]. by apply Forall_cons in H2 as [(j & _ & _ & <-) _].
Qed.

(** The last batch could not have taken the changes of kind [kind] that come next. *)
Definition settled (kind : bool) (l : list PlannedBatch) : Prop :=
  forall b, last l = Some b -> group kind b -> length (prs b) = limit kind.

(** What holds between turns. *)
Record chunking (done : list Z) (ch : Chunking) : Prop := {
  ch_batched : exists before, batched before (closed ch) /\ done = before ++ current ch;
  ch_members : Forall (shares (current_peripheral ch)) (current ch);
  ch_room : length (current ch) < limit (current_peripheral ch);
  ch_current : current ch <> [] -> settled (current_peripheral ch) (closed ch);
  ch_between : current ch = [] -> forall kind, settled kind (closed ch);
}.

Lemma limit_positive kind : 1 <= limit kind.
Proof. destruct kind; cbn; lia. Qed.

(** Closing a group. *)
Lemma close_batched note before ch :
  batched before (closed ch) ->
  Forall (shares (current_peripheral ch)) (current ch) ->
  length (current ch) <= limit (current_peripheral ch) ->
  (current ch <> [] -> settled (current_peripheral ch) (closed ch)) ->
  batched (before ++ current ch) (closed (close note ch)) /\ current (close note ch) = [] /\
  current_peripheral (close note ch) = current_peripheral ch.
Proof.
  intros Hb Hm Hlen Hs. unfold close. destruct (current ch) as [|p l] eqn:Hc.
  { by rewrite app_nil_r, Hc. }
  cbn [closed current current_peripheral]. split; [|done].
  assert (Hgr : group (current_peripheral ch)
    {| index := length (closed ch); prs := p :: l; note := note |}) by by split.
  apply (batched_snoc _ _ {| index := length (closed ch); prs := p :: l; note := note |} Hb).
  - done.
  - split; [done|]. right. by eexists.
  - intros b' kind Hlast Hk Hk'. assert (kind = current_peripheral ch) as ->.
    { eapply group_kind; [|exact Hk'|exact Hgr]. done. }
    by apply Hs.
Qed.

(** What a closed group leaves at the end. *)
Lemma close_last note ch :
  current ch <> [] ->
  last (closed (close note ch)) = Some {| index := length (closed ch); prs := current ch; note := note |}.
Proof. unfold close. destruct (current ch); [done|]. intros _. cbn. by rewrite last_snoc. Qed.
(** A change in a batch of its own. *)
Lemma alone_chunking done ch p i :
  by_pr !! p = Some i -> alone i = true -> chunking done ch ->
  chunking (done ++ [p]) (close (alone_note i) (push p (close "" ch))).
Proof.
  intros Hp Ha [(before & Hb & ->) Hm Hroom Hc _].
  destruct (close_batched "" before ch Hb Hm ltac:(lia) Hc) as (Hb' & Hnil & Hkind).
  unfold close at 1, push. rewrite Hnil. cbn [app current closed current_peripheral].
  set (b := {| index := _; prs := [p]; note := _ |}).
  assert (Hsol : solitary b) by by exists p, i.
  assert (Hnew : batched ((before ++ current ch) ++ [p]) (closed (close "" ch) ++ [b])).
  { apply (batched_snoc _ _ b Hb'); [done| |].
    - split; [done|by left].
    - intros b' kind _ _ Hg. by apply (solitary_no_group b kind Hsol) in Hg. }
  split; cbn [current closed current_peripheral].
  - exists ((before ++ current ch) ++ [p]). split; [done|by rewrite app_nil_r].
  - constructor.
  - apply limit_positive.
  - done.
  - intros _ kind b'. rewrite last_snoc. intros [= <-] Hg.
    by apply (solitary_no_group b kind Hsol) in Hg.
Qed.

(** After [switch_kind] the group in progress, if any, has the kind asked for. *)
Lemma switch_kind_chunking done ch kind :
  chunking done ch ->
  let ch' := switch_kind kind ch in
  (exists before, batched before (closed ch') /\ done = before ++ current ch') /\
  current_peripheral ch' = kind /\ Forall (shares kind) (current ch') /\
  length (current ch') < limit kind /\ settled kind (closed ch').
Proof.
  intros [(before & Hb & ->) Hm Hroom Hc Hbetween]. cbv zeta. unfold switch_kind.
  destruct (decide (current ch = [])) as [Hnil|Hne].
  { rewrite (bool_decide_eq_true_2 _ Hnil). cbn [negb andb]. rewrite bool_decide_eq_true_2 by done.
    cbn [current closed current_peripheral]. rewrite Hnil.
    split_and!; [by exists before|done|constructor|apply limit_positive|by apply Hbetween]. }
  rewrite (bool_decide_eq_false_2 _ Hne). cbn [negb andb].
  destruct (Bool.eqb_spec kind (current_peripheral ch)) as [Heq|Hkind]; cbn [negb].
  { rewrite bool_decide_eq_false_2 by done. rewrite Heq.
    split_and!; [by exists before|done|done|done|by apply Hc]. }
  set (note := if current_peripheral ch then _ else _).
  destruct (close_batched note before ch Hb Hm ltac:(lia) Hc) as (Hb' & Hnil & _).
  rewrite bool_decide_eq_true_2 by done. cbn [current closed current_peripheral]. rewrite Hnil.
  split_and!; [by exists (before ++ current ch); rewrite app_nil_r|done|constructor|apply limit_positive|].
  intros b'. rewrite close_last by done. intros [= <-] Hg. exfalso. apply Hkind.
  eapply group_kind; [|exact Hg|]; [done|]. split; [done|]. cbn [prs]. lia.
Qed.

(** One turn. *)
Lemma chunk_step_chunking done ch p :
  is_Some (by_pr !! p) -> chunking done ch ->
  chunking (done ++ [p]) (chunk_step by_pr probe max_batch peripheral_limit ch p).
Proof.
  intros [i Hp] Hch. unfold chunk_step. rewrite Hp.
  destruct (alone i) eqn:Ha; [by apply alone_chunking|].
  set (kind := is_peripheral probe p). change (if kind then peripheral_limit else max_batch) with (limit kind).
  destruct (switch_kind_chunking done ch kind Hch) as ((before & Hb & ->) & Hk & Hm & Hroom & Hs).
  set (ch' := switch_kind kind ch) in *.
  assert (Hm' : Forall (shares kind) (current ch' ++ [p])).
  { apply Forall_app. split; [done|]. apply Forall_singleton. by exists i. }
  case_decide as Hfull; cbn [push current] in Hfull; rewrite length_app in Hfull; cbn [length] in Hfull.
  - set (note := if kind then _ else _).
    assert (Hpre : length (current (push p ch')) <= limit (current_peripheral (push p ch'))).
    { cbn [push current current_peripheral]. rewrite length_app, Hk. cbn [length]. lia. }
    destruct (close_batched note before (push p ch') Hb) as (Hb' & Hnil & Hkind').
    { cbn [push current current_peripheral]. by rewrite Hk. }
    { done. }
    { cbn [push current_peripheral closed]. by rewrite Hk. }
    cbn [push current] in Hb'. split; rewrite ?Hnil; [|constructor|apply limit_positive|done|].
    + eexists. split; [exact Hb'|]. by rewrite app_nil_r, app_assoc.
    + intros _ kind' b'. rewrite close_last by (cbn; by destruct (current ch')).
      intros [= <-] Hg. cbn [prs push current]. rewrite length_app. cbn [length].
      assert (kind' = kind) as ->; [|lia].
      eapply group_kind; [|exact Hg|].
      * cbn. by destruct (current ch').
      * split; [done|]. cbn [prs push current]. rewrite length_app. cbn [length]. lia.
  - split; cbn [push current closed current_peripheral]; rewrite ?Hk.
    + exists before. by rewrite app_assoc.
    + done.
    + rewrite length_app. cbn [length]. lia.
    + done.
    + by destruct (current ch').
Qed.

(** All the batches. *)
Lemma chunk_spec selected :
  (forall p, p ∈ selected -> is_Some (by_pr !! p)) ->
  batched selected (chunk by_pr probe max_batch peripheral_limit selected).
Proof.
  intros Hin. unfold chunk. set (start := {| current := []; current_peripheral := false; closed := [] |}).
  assert (Hch : chunking selected
    (foldl (chunk_step by_pr probe max_batch peripheral_limit) start selected)).
  { induction selected as [|p l IH] using rev_ind.
    - split; [|constructor|apply limit_positive|done|done]. exists []. split; [|done].
      split_and!; done.
    - rewrite foldl_snoc. apply chunk_step_chunking; [apply Hin; set_solver|].
      apply IH. intros q Hq. apply Hin. set_solver. }
  revert Hch. generalize (foldl (chunk_step by_pr probe max_batch peripheral_limit) start selected) as ch.
  intros ch [(before & Hb & ->) Hm Hroom Hc _].
  by apply (close_batched "" before ch Hb Hm ltac:(lia) Hc).
Qed.
(** A batch of changes that share one is a group. *)
Lemma shares_group b kind : batch_ok b -> Forall (shares kind) (prs b) -> group kind b.
Proof.
  intros [Hne [Hsol|[kind' Hg]]] Hall.
  - destruct Hsol as (p & i & Hp & Hi & Ha & _). rewrite Hp in Hall.
    apply Forall_singleton in Hall as (j & Hj & Hn & _). congruence.
  - assert (kind = kind') as ->; [|done]. destruct (prs b) as [|p l] eqn:Hp; [done|].
    destruct Hg as [Hg _]. rewrite Hp in Hg. apply Forall_cons in Hg as [(j & _ & _ & <-) _].
    by apply Forall_cons in Hall as [(i & _ & _ & <-) _].
Qed.
End batches.

Lemma length_concat_sum {A B} (f : A -> list B) (l : list A) :
  length (concat (f <$> l)) = sum_list (length ∘ f <$> l).
Proof. induction l as [|x l IH]; [done|]. cbn. by rewrite length_app, IH. Qed.

(** The changes of a plan in landing order. *)
Definition landed (plan : Plan) : list Z := concat (prs <$> batches plan).

(** [p] and [q] conflict according to the probe. *)
Definition in_conflict (probe : Probe) (p q : Z) : Prop :=
  exists c, c ∈ probe_conflicts probe /\ ((p = a c /\ q = b c) \/ (p = b c /\ q = a c)).

Definition is_queued_pr (all_items : list Item) (p : Z) : Prop :=
  exists i, i ∈ all_items /\ status i = Queued /\ pr i = p.

(** Change [p] has to land after [d], which is queued as well: it says so, or its head is
    built on that of [d]. *)
Definition must_follow (all_items : list Item) (probe : Probe) (d p : Z) : Prop :=
  is_queued_pr all_items d /\ is_queued_pr all_items p
  /\ ((exists i, i ∈ all_items /\ status i = Queued /\ pr i = p /\ d ∈ after i) \/ (d, p) ∈ ancestry probe).

Section land.
Context `{StrDebug} (all_items : list Item) (base base_sha : string) (probe : Probe)
  (options : PlanOptions) (at_ created : string).
Hypothesis distinct : NoDup (pr <$> all_items).
Hypothesis external_keyed : forall p h, external probe !! p = Some h -> held_pr h = p.

Definition the_plan : Plan := make_plan all_items base base_sha probe options at_ created.
Definition queued_prs : gset Z := list_to_set (pr <$> queued all_items).
Definition start_held : gmap Z Held := own_holds all_items (queued all_items) base at_ probe.
Definition the_dependencies : Depending :=
  all_dependencies (items_by_pr all_items) (queued all_items) probe start_held.
Definition the_conflicts : gmap Z (gmap Z (list string)) := conflict_map (probe_conflicts probe).

Lemma item_by_pr i : i ∈ all_items -> items_by_pr all_items !! pr i = Some i.
Proof.
  intros Hi. unfold items_by_pr. apply map_collect_NoDup.
  - by rewrite <-list_fmap_compose.
  - apply list_elem_of_fmap. eauto.
Qed.

Lemma item_by_pr_inv p i : items_by_pr all_items !! p = Some i -> i ∈ all_items /\ pr i = p.
Proof.
  intros Hp%map_collect_Some. apply list_elem_of_fmap in Hp as (j & [= -> ->] & Hj). done.
Qed.

Lemma elem_of_queued i : i ∈ queued all_items <-> i ∈ all_items /\ status i = Queued.
Proof. unfold queued, is_queued. by rewrite elem_of_filter_b, bool_decide_eq_true. Qed.

(** One item to a number. *)
Lemma queued_item i j : i ∈ queued all_items -> j ∈ queued all_items -> pr i = pr j -> i = j.
Proof.
  intros [Hi _]%elem_of_queued [Hj _]%elem_of_queued Heq.
  apply item_by_pr in Hi. apply item_by_pr in Hj. congruence.
Qed.

Lemma found_status_Some d s :
  found_status all_items d = Some s <-> exists j, j ∈ all_items /\ pr j = d /\ status j = s.
Proof.
  unfold found_status. rewrite fmap_Some. split.
  - intros (j & [Hj Hd]%item_by_pr_inv & ->). eauto.
  - intros (j & Hj & <- & <-). exists j. by rewrite item_by_pr.
Qed.

(** ** The selection *)

Lemma start_keyed : keyed start_held.
Proof. apply own_holds_keyed. Qed.

Lemma dependencies_recorded :
  recorded the_dependencies (depends_on all_items probe)
    (fun p => is_Some (start_held !! p) \/ exists i, i ∈ queued all_items /\ pr i = p
       /\ exists d, d ∈ after i /\ unmet (found_status all_items d)).
Proof. apply all_dependencies_spec, start_keyed. Qed.

(** What [make_plan] makes of the selection. *)
Lemma plan_selection :
  exists held' selected,
    batches the_plan = chunk (items_by_pr all_items) probe (Nat.max (max_batch options) 1)
      (Nat.max (peripheral_max_batch options) (Nat.max (max_batch options) 1)) selected /\
    held the_plan = btree_values held' /\
    dependencies the_plan = btree_elems (dp_dependencies the_dependencies) /\
    selection_done (preds the_dependencies) the_conflicts queued_prs queued_prs
      (dp_held the_dependencies) [] held' selected.
Proof.
  unfold the_plan, make_plan. fold (queued all_items). fold start_held. fold the_dependencies.
  fold queued_prs. fold the_conflicts. cbv zeta.
  match goal with |- context [select_loop _ _ _ ?r _ _ _ _] => set (rk := r) end.
  destruct (select_loop _ _ _ _ _ _ _ _) as [held' selected] eqn:Hs.
  exists held', selected. split_and!; [done|done|done|].
  eapply (select_loop_spec _ _ rk); [|reflexivity|exact Hs].
  split; [set_solver|set_solver|constructor| |]; intros p Hp; set_solver.
Qed.

Lemma limits_ok :
  1 <= Nat.max (max_batch options) 1 /\
  Nat.max (max_batch options) 1
    <= Nat.max (peripheral_max_batch options) (Nat.max (max_batch options) 1).
Proof. lia. Qed.

(** What the changes of a plan have been through. *)
Definition planned (held' : gmap Z Held) : Prop :=
  held the_plan = btree_values held' /\
  dependencies the_plan = btree_elems (dp_dependencies the_dependencies) /\
  selection_done (preds the_dependencies) the_conflicts queued_prs queued_prs
    (dp_held the_dependencies) [] held' (landed the_plan) /\
  batched (items_by_pr all_items) probe (Nat.max (max_batch options) 1)
    (Nat.max (peripheral_max_batch options) (Nat.max (max_batch options) 1))
    (landed the_plan) (batches the_plan).

Lemma plan_planned : exists held', planned held'.
Proof.
  destruct plan_selection as (held' & selected & Hb & Hh & Hd & Hs). exists held'.
  destruct limits_ok as [Hm Hl].
  assert (Hin : forall p, p ∈ selected -> is_Some (items_by_pr all_items !! p)).
  { intros p Hp. destruct Hs as (_ & _ & Hnew & _). destruct (Hnew p Hp) as [?|Hq]; [set_solver|].
    apply elem_of_list_to_set, list_elem_of_fmap in Hq as (i & -> & [Hi _]%elem_of_queued).
    rewrite item_by_pr by done. done. }
  pose proof (chunk_spec _ probe _ _ Hm Hl selected Hin) as Hc. rewrite <-Hb in Hc.
  assert (Hland : landed the_plan = selected) by apply Hc.
  unfold planned. rewrite Hland. done.
Qed.
(** ** Reading the plan *)

Section reading.
Context (held' : gmap Z Held).
Hypothesis done_ : planned held'.

Lemma plan_dependency p d :
  (d, p) ∈ dependencies the_plan <-> depends_on all_items probe p d.
Proof.
  destruct done_ as (_ & -> & _). rewrite elem_of_btree_elems. apply dependencies_recorded.
Qed.

Lemma plan_dependency_spec p d : (d, p) ∈ dependencies the_plan <-> must_follow all_items probe d p.
Proof.
  rewrite plan_dependency. unfold depends_on, must_follow.
  assert (Hq : forall n, n ∈ pr <$> queued all_items <-> is_queued_pr all_items n).
  { intros n. unfold is_queued_pr. rewrite list_elem_of_fmap. setoid_rewrite elem_of_queued. naive_solver. }
  rewrite !Hq. setoid_rewrite elem_of_queued. setoid_rewrite found_status_Some. unfold is_queued_pr. naive_solver.
Qed.

Lemma plan_predecessor p d :
  d ∈ neighbours (preds the_dependencies) p <-> (d, p) ∈ dependencies the_plan.
Proof. rewrite plan_dependency. apply dependencies_recorded. Qed.

Lemma plan_conflict p q : clashes_with the_conflicts p q <-> in_conflict probe p q.
Proof. apply conflict_map_spec. Qed.

Lemma held_keyed : keyed held'.
Proof.
  destruct done_ as (_ & _ & (_ & _ & _ & _ & Hwhy) & _). intros p h Hh.
  destruct (Hwhy p h Hh) as [Hs|(_ & _ & [Hpr _])]; [|done].
  destruct dependencies_recorded as (_ & _ & _ & Hk). by apply Hk.
Qed.

Lemma elem_of_held h : h ∈ held the_plan <-> held' !! held_pr h = Some h.
Proof.
  destruct done_ as (-> & _). unfold btree_values. rewrite list_elem_of_fmap. split.
  - intros ([p h'] & -> & Hp%elem_of_btree_iter). cbn. by rewrite (held_keyed p h' Hp).
  - intros Hh. exists (held_pr h, h). by rewrite elem_of_btree_iter.
Qed.

Lemma held_numbers p : p ∈ held_pr <$> held the_plan <-> is_Some (held' !! p).
Proof.
  rewrite list_elem_of_fmap. split.
  - intros (h & -> & Hh%elem_of_held). by exists h.
  - intros [h Hh]. exists h. pose proof (held_keyed p h Hh) as <-. by rewrite elem_of_held.
Qed.

Lemma held_numbers_NoDup : NoDup (held_pr <$> held the_plan).
Proof.
  assert (Heq : held_pr <$> held the_plan = btree_keys held').
  { destruct done_ as (-> & _). unfold btree_values, btree_keys. rewrite <-list_fmap_compose.
    apply list_fmap_ext. intros n [p h] Hn%list_elem_of_lookup_2%elem_of_btree_iter. cbn.
    by apply held_keyed. }
  rewrite Heq. apply btree_keys_NoDup.
Qed.

(** Exactly the queued changes are decided, each one way. *)
Lemma landed_or_held p :
  (p ∈ landed the_plan -> held' !! p = None) /\
  (p ∈ pr <$> queued all_items <-> p ∈ landed the_plan \/ is_Some (held' !! p)).
Proof.
  destruct done_ as (_ & _ & ([_ _ _ Hdec Hset] & _ & Hnew & _ & Hwhy) & _).
  split; [by intros [_ ?]%Hdec|]. split.
  - intros Hp. apply Hset. by apply elem_of_list_to_set.
  - intros [Hp|[h Hh]].
    + destruct (Hnew p Hp) as [?|Hq]; [set_solver|]. by apply elem_of_list_to_set in Hq.
    + destruct (Hwhy p h Hh) as [Hs|(Hq & _)]; [|by apply elem_of_list_to_set in Hq].
      destruct dependencies_recorded as (_ & _ & Hd & _).
      destruct (proj1 (Hd p)) as [Hown|(i & Hi & <- & _)]; [by exists h| |by apply list_elem_of_fmap_2].
      apply own_holds_dom in Hown as (i & Hi & <- & _); [by apply list_elem_of_fmap_2|].
      intros j h' _. apply external_keyed.
Qed.

(** What comes before a landed change, and what does not conflict with it. *)
Lemma landed_after l1 p l2 :
  landed the_plan = l1 ++ p :: l2 ->
  (forall d, (d, p) ∈ dependencies the_plan -> d ∈ l1) /\
  (forall q, q ∈ l1 -> ~ in_conflict probe p q).
Proof.
  destruct done_ as (_ & _ & ([_ _ Hord _ _] & _) & _). intros Heq. rewrite Heq in Hord.
  apply lands_split in Hord as (_ & Hd & Hc). split.
  - intros d Hin. by apply Hd, plan_predecessor.
  - intros q Hq Hcon. by apply (Hc q Hq), plan_conflict.
Qed.

Lemma landed_NoDup : NoDup (landed the_plan).
Proof. destruct done_ as (_ & _ & ([_ _ Hord _ _] & _) & _). by eapply lands_NoDup. Qed.

Lemma in_conflict_sym p q : in_conflict probe p q -> in_conflict probe q p.
Proof. intros (c & Hc & ?). exists c. tauto. Qed.

Lemma landed_no_conflict p q :
  p ∈ landed the_plan -> q ∈ landed the_plan -> p <> q -> ~ in_conflict probe p q.
Proof.
  intros (l1 & l2 & Heq)%list_elem_of_split Hq Hne Hc.
  destruct (landed_after _ _ _ Heq) as [_ Hfree]. rewrite Heq in Hq.
  apply elem_of_app in Hq as [Hq|[->|Hq]%elem_of_cons]; [by apply (Hfree q)|done|].
  apply list_elem_of_split in Hq as (l3 & l4 & ->).
  rewrite app_comm_cons, app_assoc in Heq. apply landed_after in Heq as [_ Hfree'].
  apply (Hfree' p); [set_solver|by apply in_conflict_sym].
Qed.

(** Before the selection a change is held for itself or for a dependency it names. *)
Lemma held_at_start i :
  i ∈ queued all_items ->
  is_Some (dp_held the_dependencies !! pr i) <->
  ~ (landable all_items at_ probe i /\ forall d, d ∈ after i -> ~ unmet (found_status all_items d)).
Proof.
  intros Hi. destruct dependencies_recorded as (_ & _ & Hd & _). rewrite Hd.
  unfold start_held. rewrite own_holds_dom by (intros j h _; apply external_keyed). split.
  - intros [(j & Hj & Hp & Hn)|(j & Hj & Hp & d & Hin & Hu)] [Hl Hmet];
      (assert (j = i) as -> by by apply queued_item); [done|by apply (Hmet d)].
  - intros Hn. destruct (decide (Exists (fun d => unmet (found_status all_items d)) (after i))) as [He|He].
    + right. apply Exists_exists in He as (d & Hd' & Hu). exists i. eauto.
    + left. exists i. split_and!; [done|done|]. intros Hl. apply Hn. split; [done|].
      intros d Hin Hu. apply He, Exists_exists. eauto.
Qed.
(** Every queued change is landed or held, not both, once. *)
Lemma decided_once :
  NoDup (landed the_plan ++ (held_pr <$> held the_plan)) /\
  (forall p, p ∈ landed the_plan ++ (held_pr <$> held the_plan) <->
     exists i, i ∈ all_items /\ status i = Queued /\ pr i = p).
Proof.
  split.
  - apply NoDup_app. split_and!; [apply landed_NoDup| |apply held_numbers_NoDup].
    intros p Hp [h Hh]%held_numbers. apply (landed_or_held p) in Hp. congruence.
  - intros p. rewrite elem_of_app, held_numbers, <-(proj2 (landed_or_held p)), list_elem_of_fmap.
    split.
    + intros (i & -> & [Hi Hs]%elem_of_queued). by exists i.
    + intros (i & Hi & Hs & <-). exists i. by rewrite elem_of_queued.
Qed.

(** What is held before the selection stays held. *)
Lemma held_stays p : held' !! p = None -> dp_held the_dependencies !! p = None.
Proof.
  destruct done_ as (_ & _ & (_ & _ & _ & Hkeep & _) & _). intros Hn.
  destruct (dp_held the_dependencies !! p) as [h|] eqn:Hh; [|done]. apply Hkeep in Hh. congruence.
Qed.

Lemma fit_iff i :
  i ∈ queued all_items ->
  dp_held the_dependencies !! pr i = None <->
  landable all_items at_ probe i /\ forall d, d ∈ after i -> ~ unmet (found_status all_items d).
Proof.
  intros Hi. rewrite eq_None_not_Some, held_at_start by done.
  split; [|by intros Hfit Hn]. intros Hnn.
  destruct (decide (identity_hold base probe i = None /\ deferral_hold at_ i = None /\
      external_hold probe i = None /\ carried_hold all_items probe i = None)) as [Hl|Hl].
  - apply (landable_iff all_items base at_ probe) in Hl; [|by eapply elem_of_queued_b]. split; [done|]. intros d Hd Hu.
    apply Hnn. intros [_ Hall]. by apply (Hall d).
  - exfalso. apply Hnn. intros [Hok _]. apply Hl.
    apply (landable_iff all_items base at_ probe) in Hok; [done|by eapply elem_of_queued_b].
Qed.

(** A landed change is fit to land, and what it names has landed or comes before it. *)
Lemma landed_fit l1 p l2 :
  landed the_plan = l1 ++ p :: l2 ->
  exists i, i ∈ queued all_items /\ pr i = p /\ landable all_items at_ probe i /\
    forall d, d ∈ after i ->
      (exists j, j ∈ all_items /\ pr j = d /\ status j = Landed) \/ d ∈ l1.
Proof.
  intros Heq. assert (Hp : p ∈ landed the_plan) by (rewrite Heq; set_solver).
  apply (landed_or_held p) in Hp as Hn.
  assert (Hq : p ∈ pr <$> queued all_items) by (apply landed_or_held; by left).
  apply list_elem_of_fmap in Hq as (i & -> & Hi). exists i. split_and!; [done|done| |].
  all: assert (Hfit : landable all_items at_ probe i /\
         forall d, d ∈ after i -> ~ unmet (found_status all_items d))
    by by apply fit_iff, held_stays.
  - apply Hfit.
  - intros d Hd. apply Hfit in Hd as Hmet. unfold unmet in Hmet.
    destruct (decide (found_status all_items d = Some Landed)) as [Hl|Hl].
    + left. by apply found_status_Some.
    + right. apply (landed_after _ _ _ Heq), plan_dependency. left. exists i.
      split_and!; [done..|]. destruct (decide (found_status all_items d = Some Queued)); tauto.
Qed.
(** A queued change that could land by itself and names nothing that cannot. *)
Definition fit (i : Item) : Prop :=
  landable all_items at_ probe i /\
  forall d, d ∈ after i -> exists j, j ∈ all_items /\ pr j = d /\ (status j = Landed \/ status j = Queued).

Lemma fit_start i :
  i ∈ queued all_items -> fit i <-> dp_held the_dependencies !! pr i = None.
Proof.
  intros Hi. rewrite fit_iff by done. apply and_iff_compat_l.
  assert (Hd : forall d, ~ unmet (found_status all_items d) <->
    exists j, j ∈ all_items /\ pr j = d /\ (status j = Landed \/ status j = Queued)).
  { intros d. transitivity (found_status all_items d = Some Landed \/ found_status all_items d = Some Queued).
    - unfold unmet. destruct (decide (found_status all_items d = Some Landed)),
        (decide (found_status all_items d = Some Queued)); tauto.
    - rewrite !found_status_Some. naive_solver. }
  split; intros Hall d Hin; by apply Hd, Hall.
Qed.

(** Why a fit change is held. *)
Lemma held_reason i h :
  i ∈ queued all_items -> fit i -> h ∈ held the_plan -> held_pr h = pr i ->
  with_ h <> [] /\
  ((kind h = "waiting-on-dependency" /\
    forall d, d ∈ with_ h <-> (d, pr i) ∈ dependencies the_plan /\ d ∉ landed the_plan) \/
   (kind h = "conflicts-with-queued" /\
    (forall d, (d, pr i) ∈ dependencies the_plan -> d ∈ landed the_plan) /\
    forall q, q ∈ with_ h -> q ∈ landed the_plan /\ in_conflict probe (pr i) q)).
Proof.
  intros Hi Hfit%fit_start Hh Hpr; [|done]. apply elem_of_held in Hh. rewrite Hpr in Hh.
  destruct done_ as (_ & _ & (_ & _ & _ & _ & Hwhy) & _).
  destruct (Hwhy _ _ Hh) as [Hs|(_ & _ & _ & Hne & [[Hk Hd]|(Hk & Hd & Hq)])]; [congruence|..];
    (split; [done|]).
  - left. split; [done|]. intros d. by rewrite Hd, plan_predecessor.
  - right. split_and!; [done| |].
    + intros d Hin. by apply Hd, plan_predecessor.
    + intros q Hin. by destruct (Hq q Hin) as [? ?%plan_conflict].
Qed.

(** Which queued changes land. *)
Lemma landed_iff i :
  i ∈ queued all_items ->
  pr i ∈ landed the_plan <->
  fit i /\ (forall d, (d, pr i) ∈ dependencies the_plan -> d ∈ landed the_plan) /\
  (forall q, q ∈ landed the_plan -> pr i <> q -> ~ in_conflict probe (pr i) q).
Proof.
  intros Hi. split.
  - intros Hp. split_and!.
    + apply fit_start; [done|]. by apply held_stays, landed_or_held.
    + apply list_elem_of_split in Hp as (l1 & l2 & Heq). intros d Hd.
      apply (landed_after _ _ _ Heq) in Hd. rewrite Heq. set_solver.
    + intros q Hq. by apply landed_no_conflict.
  - intros (Hfit & Hd & Hc).
    assert (Hp : pr i ∈ landed the_plan \/ is_Some (held' !! pr i)).
    { by apply landed_or_held, list_elem_of_fmap_2. }
    destruct Hp as [|[h Hh]]; [done|exfalso]. assert (Hpr : held_pr h = pr i) by by apply held_keyed.
    assert (Hin : h ∈ held the_plan) by (apply elem_of_held; congruence).
    destruct (held_reason i h Hi Hfit Hin Hpr) as [Hne Hr].
    destruct (with_ h) as [|x xs] eqn:Hw; [done|].
    destruct Hr as [[_ Hx]|(_ & _ & Hx)].
    + destruct (proj1 (Hx x)) as [Hdep Hn]; [set_solver|]. by apply Hn, Hd.
    + destruct (Hx x) as [Hl Hcon]; [set_solver|]. apply (Hc x Hl); [|done].
      intros Heq. rewrite <-Heq in Hl. apply landed_or_held in Hl. congruence.
Qed.
End reading.
End land.
