(* ===== verification/QueueEvidence.v ===== *)
(** * merge-queue: facts about the culprit search

    The scans and the points of a round; that every round that does not end the search
    settles a prefix further, so that a search ends; and that its observations are the
    tally of the runs it recorded, so that its verdicts are justified by runs. *)
From S2P Require Import Prelude RustStr External QueueTests QueueModel QueueValidate QueueCulprit.

(** ** The scans *)

Lemma find_seq (p : nat -> bool) a len :
  match List.find p (seq a len) with
  | Some x => a <= x < a + len /\ p x = true /\ forall y, a <= y < x -> p y = false
  | None => forall y, a <= y < a + len -> p y = false
  end.
Proof.
  revert a. induction len as [|len IH]; intros a; simpl; [intros; lia|].
  destruct (p a) eqn:Ha; [split_and!; [lia|lia|done|intros; lia]|].
  specialize (IH (S a)). destruct (List.find p (seq (S a) len)) as [x|].
  - destruct IH as (Hx & Hp & Hb). split_and!; [lia|lia|done|].
    intros y Hy. destruct (decide (y = a)) as [->|]; [done|]. apply Hb. lia.
  - intros y Hy. destruct (decide (y = a)) as [->|]; [done|]. apply IH. lia.
Qed.

Lemma find_rev_seq (p : nat -> bool) hi :
  match List.find p (rev (seq 0 hi)) with
  | Some x => x < hi /\ p x = true /\ forall y, x < y < hi -> p y = false
  | None => forall y, y < hi -> p y = false
  end.
Proof.
  induction hi as [|hi IH]; [simpl; intros; lia|].
  rewrite seq_S, rev_app_distr. simpl. destruct (p hi) eqn:Hp; [split_and!; [lia|done|intros; lia]|].
  destruct (List.find p (rev (seq 0 hi))) as [x|].
  - destruct IH as (Hx & Hpx & Hb). split_and!; [lia|done|].
    intros y Hy. destruct (decide (y = hi)) as [->|]; [done|]. apply Hb. lia.
  - intros y Hy. destruct (decide (y = hi)) as [->|]; [done|]. apply IH. lia.
Qed.

(** The first failing prefix, in a search whose whole candidate was seen to fail. *)
Lemma first_fail_spec s : seen_at s (width_of s) = SeenFail ->
  first_fail s <= width_of s /\ seen_at s (first_fail s) = SeenFail
  /\ forall i, i < first_fail s -> seen_at s i <> SeenFail.
Proof.
  intros Hn. unfold first_fail.
  pose proof (find_seq (fun i => bool_decide (seen_at s i = SeenFail)) 0 (S (width_of s))) as H.
  destruct (List.find _ _) as [x|]; simpl.
  - destruct H as (Hx & Hp & Hb). split_and!; [lia|by apply bool_decide_eq_true in Hp|].
    intros i Hi. apply (bool_decide_eq_false (seen_at s i = SeenFail)), Hb. lia.
  - specialize (H (width_of s)). rewrite bool_decide_eq_false in H. destruct H; [lia|done].
Qed.

Lemma last_pass_spec s hi :
  match last_pass s hi with
  | Some l => l < hi /\ seen_at s l = SeenPass /\ forall i, l < i < hi -> seen_at s i <> SeenPass
  | None => forall i, i < hi -> seen_at s i <> SeenPass
  end.
Proof.
  unfold last_pass.
  pose proof (find_rev_seq (fun i => bool_decide (seen_at s i = SeenPass)) hi) as H.
  destruct (List.find _ _) as [x|].
  - destruct H as (Hx & Hp & Hb). split_and!; [lia|by apply bool_decide_eq_true in Hp|].
    intros i Hi. by apply (bool_decide_eq_false (seen_at s i = SeenPass)), Hb.
  - intros i Hi. by apply (bool_decide_eq_false (seen_at s i = SeenPass)), H.
Qed.

(** ** The points of a round *)

Definition between_step (start hi room : nat) (points : list nat) (k : nat) : list nat :=
  let point := start + (hi - start) * k / (room + 1) in
  if (start <? point) && (point <? hi) && negb (bool_decide (point ∈ points))
  then points ++ [point] else points.

Lemma between_foldl start hi room points :
  between start hi room points = foldl (between_step start hi room) points (seq 1 room).
Proof. done. Qed.

Lemma between_sound_loop start hi room ks points x :
  x ∈ foldl (between_step start hi room) points ks -> x ∈ points \/ start < x < hi.
Proof.
  revert points. induction ks as [|k ks IH]; intros points; simpl; [auto|].
  intros [Hx|]%IH; [|by right]. unfold between_step in Hx.
  destruct (_ && _) eqn:Hb; [|by left]. apply elem_of_app in Hx as [|Hx%list_elem_of_singleton]; [by left|].
  right. rewrite !andb_true_iff, !Nat.ltb_lt in Hb. subst x. lia.
Qed.

Lemma between_sound start hi room points x :
  x ∈ between start hi room points -> x ∈ points \/ start < x < hi.
Proof. rewrite between_foldl. apply between_sound_loop. Qed.

Lemma between_grows_loop start hi room ks points x :
  x ∈ points -> x ∈ foldl (between_step start hi room) points ks.
Proof.
  revert points. induction ks as [|k ks IH]; intros points Hx; simpl; [done|].
  apply IH. unfold between_step. case_match; [apply elem_of_app; by left|done].
Qed.

(** With room for a point, two prefixes apart are divided. *)
Lemma between_divides start hi room points : 0 < room -> start + 1 < hi ->
  exists x, x ∈ between start hi room points.
Proof.
  intros Hr Hh. rewrite between_foldl. destruct room as [|r]; [lia|].
  rewrite (seq_S r 1), foldl_app. cbn [foldl]. set (l := foldl _ _ _). set (room := S r).
  change (exists x, x ∈ between_step start hi room l room). unfold between_step.
  set (point := start + (hi - start) * room / (room + 1)).
  assert (Hlo : 1 <= (hi - start) * room / (room + 1)) by (apply Nat.div_le_lower_bound; nia).
  assert (Hhi : (hi - start) * room / (room + 1) < hi - start) by (apply Nat.Div0.div_lt_upper_bound; nia).
  destruct (bool_decide (point ∈ l)) eqn:Hin.
  - rewrite andb_false_r. exists point. by apply bool_decide_eq_true in Hin.
  - exists point. rewrite !(proj2 (Nat.ltb_lt _ _)) by (subst point; lia). simpl. apply elem_of_app; right; by left.
Qed.

(** ** What a search knows of a prefix *)

Lemma seen_at_obs s i : seen_at s i = Obs_seen (obs_at s i).
Proof. unfold seen_at, obs_at. by destruct (obs s !! i). Qed.

Lemma confirmed_obs s i : confirmed s i = confirmed_fail (obs_at s i).
Proof. unfold confirmed, obs_at. by destruct (obs s !! i). Qed.

(** The whole candidate was seen to fail at least once; how every search starts. *)
Definition Red (s : CulpritSearch) : Prop := 0 < fails (obs_at s (width_of s)).

Lemma red_seen s : Red s -> seen_at s (width_of s) <> SeenPass -> seen_at s (width_of s) = SeenFail.
Proof.
  unfold Red. rewrite seen_at_obs. unfold Obs_seen. intros Hf.
  destruct (0 <? passes _); [done|]. by rewrite (proj2 (Nat.ltb_lt _ _) Hf).
Qed.

Lemma red_new c f t d tb cr : Red (CulpritSearch_new c f t d tb cr).
Proof.
  unfold Red, obs_at, width_of. simpl. destruct tb; simpl.
  - case_bool_decide as Hc; simpl; [by rewrite lookup_singleton_eq; simpl; lia|].
    rewrite lookup_insert_ne by (destruct (cd_prs c); simpl; congruence).
    rewrite lookup_singleton_eq. simpl. lia.
  - rewrite lookup_singleton_eq. simpl. lia.
Qed.

Lemma no_verdict s : verdict s = None ->
  seen_at s (width_of s) <> SeenPass /\ confirmed s 0 = false
  /\ (0 < first_fail s -> last_pass s (first_fail s) = Some (Nat.pred (first_fail s)) ->
      confirmed s (first_fail s) = false).
Proof.
  unfold verdict. case_bool_decide as Hn; [done|]. destruct (confirmed s 0); [done|].
  intros Hv. split_and!; [done|done|]. intros Hpos Hlp.
  rewrite (proj2 (Nat.ltb_lt _ _) Hpos), (bool_decide_eq_true_2 _ Hlp) in Hv. simpl in Hv.
  by destruct (confirmed s (first_fail s)).
Qed.

(** Every prefix a round probes is unsettled: not seen to pass, and no confirmed failure. *)
Lemma probe_points_unsettled width s x : 1 <= width -> Red s -> verdict s = None ->
  x ∈ probe_points width s ->
  x <= width_of s /\ seen_at s x <> SeenPass /\ confirmed s x = false.
Proof.
  intros Hw Hred (Hn & H0 & Hv)%no_verdict. pose proof (red_seen s Hred Hn) as Hnf.
  destruct (first_fail_spec s Hnf) as (Hle & Hhi & Hbelow).
  pose proof (last_pass_spec s (first_fail s)) as Hlast.
  unfold probe_points. set (hi := first_fail s) in *. destruct (Nat.eqb_spec hi 0) as [Hz|Hz].
  { intros ->%list_elem_of_singleton. rewrite Hz in Hhi. by split_and!; [lia|congruence|]. }
  set (lo := last_pass s hi) in *.
  assert (Hzero : lo = None -> seen_at s 0 <> SeenPass).
  { intros Hlo. rewrite Hlo in Hlast. apply Hlast. lia. }
  assert (Hmid : forall y, default 0 lo < y < hi -> seen_at s y <> SeenPass /\ confirmed s y = false).
  { intros y Hy. assert (seen_at s y <> SeenPass) as Hyp.
    { destruct lo; simpl in Hy; apply Hlast; lia. }
    split; [done|]. specialize (Hbelow y ltac:(lia)). rewrite confirmed_obs. rewrite seen_at_obs in *.
    unfold Obs_seen in *. unfold confirmed_fail. destruct (passes (obs_at s y)); [|done].
    destruct (fails (obs_at s y)); [done|done]. }
  assert (Hbtw : forall room, x ∈ between (default 0 lo) hi room (match lo with None => [0] | Some _ => [] end) ->
            x <= width_of s /\ seen_at s x <> SeenPass /\ confirmed s x = false).
  { intros room [Hx|Hx]%between_sound.
    - destruct lo; [by apply not_elem_of_nil in Hx|]. apply list_elem_of_singleton in Hx as ->.
      split_and!; [lia|by apply Hzero|done].
    - destruct (Hmid x Hx). split_and!; [lia|done|done]. }
  assert (Hhi_ok : confirmed s hi = false ->
            hi <= width_of s /\ seen_at s hi <> SeenPass /\ confirmed s hi = false).
  { intros. by split_and!; [|congruence|]. }
  set (points := between _ _ _ _).
  assert (Hempty : points = [] -> confirmed s hi = false).
  { intros Hp. destruct lo as [l|] eqn:Hlo.
    - apply Hv; [lia|]. f_equal. destruct Hlast as (Hl & _ & _).
      destruct (decide (S l = hi)); [lia|].
      destruct (between_divides l hi (width - 0) []) as [y Hy]; [lia|lia|].
      unfold points in Hp. simpl in Hp. rewrite Hp in Hy. by apply not_elem_of_nil in Hy.
    - exfalso. assert (0 ∈ points) as H by (apply between_grows_loop; by left).
      rewrite Hp in H. by apply not_elem_of_nil in H. }
  destruct ((length points <? width) && negb (confirmed s hi)) eqn:Hadd.
  - rewrite andb_true_iff, negb_true_iff in Hadd. intros Hx.
    assert (Hin : x ∈ points ++ [hi]) by (revert Hx; clearbody points; by destruct points).
    apply elem_of_app in Hin as [|Hin%list_elem_of_singleton]; [by eapply Hbtw|].
    subst x. apply Hhi_ok, Hadd.
  - destruct points as [|y ys] eqn:Hp.
    + intros ->%list_elem_of_singleton. by apply Hhi_ok, Hempty.
    + intros Hx. rewrite <- Hp in Hx. by eapply Hbtw.
Qed.

Lemma probe_points_some width s : probe_points width s <> [].
Proof.
  unfold probe_points. destruct (_ =? 0); [done|]. by case_match.
Qed.

(** ** What recording does to the observations *)

(** The observation one conclusive answer makes of another. *)
Definition observe (confirm_reruns : bool) (ran : Ran) (o : Obs) : Obs :=
  match probe_observation ran with
  | ObservedFail => on_fail ran confirm_reruns o
  | ObservedPass => on_pass o
  | ObservedUnknown => on_unknown o
  end.

Lemma obs_at_with f s i j :
  obs_at (with_obs (fun m => <[i := f (default Obs_default (m !! i))]> m) s) j
  = if decide (j = i) then f (obs_at s i) else obs_at s j.
Proof.
  unfold obs_at, with_obs. simpl. destruct (decide (j = i)) as [->|Hj].
  - by rewrite lookup_insert_eq.
  - by rewrite lookup_insert_ne.
Qed.

(** A probe that does not end its round was observed to pass or to fail. *)
Lemma record_probe_spec cr i ran s s' oc : record_probe cr i ran s = (s', oc) ->
  width_of s' = width_of s /\ probes s' = probes s /\ candidate s' = candidate s
  /\ match oc with
     | None => probe_observation ran <> ObservedUnknown
               /\ forall j, obs_at s' j = if decide (j = i) then observe cr ran (obs_at s i) else obs_at s j
     | Some _ => True
     end.
Proof.
  unfold record_probe, observe. intros H.
  repeat case_match; simplify_eq/=; split_and!; try done; intros j; by rewrite obs_at_with.
Qed.

(** *** A measure of what is left to settle *)

Definition obs_rank (o : Obs) : nat :=
  match Obs_seen o with
  | SeenPass => 0
  | SeenFail => if confirmed_fail o then 1 else 2
  | SeenUnknown => 3
  end.

Definition measure (s : CulpritSearch) : nat :=
  sum_list ((fun i => obs_rank (obs_at s i)) <$> seq 0 (S (width_of s))).

Ltac obs_cases :=
  repeat match goal with
         | |- context [?a <? ?b] => destruct (Nat.ltb_spec a b)
         | |- context [?a <=? ?b] => destruct (Nat.leb_spec a b)
         | |- context [?a =? ?b] => destruct (Nat.eqb_spec a b)
         | |- context [match once ?o with _ => _ end] => destruct (once o)
         | |- context [if ?b then _ else _] => destruct b
         end.

Lemma observe_rank cr ran o : probe_observation ran <> ObservedUnknown ->
  obs_rank (observe cr ran o) <= obs_rank o
  /\ (Obs_seen o <> SeenPass -> confirmed_fail o = false -> obs_rank (observe cr ran o) < obs_rank o).
Proof.
  intros Hu. unfold observe. destruct (probe_observation ran); [| |done]; clear Hu.
  - assert (Hz : obs_rank (on_pass o) = 0) by done. rewrite Hz. split; [lia|].
    intros Hs Hc. unfold obs_rank. rewrite Hc. destruct (Obs_seen o); [lia|done|lia].
  - unfold obs_rank, Obs_seen, confirmed_fail, on_fail. simpl.
    destruct (passes o) as [|p], (fails o) as [|[|f]]; simpl; obs_cases; simpl; split; (lia || done).
Qed.

Lemma sum_list_mono {A} (f g : A -> nat) (l : list A) : (forall x, x ∈ l -> f x <= g x) ->
  sum_list (f <$> l) <= sum_list (g <$> l)
  /\ (forall x, x ∈ l -> f x < g x -> sum_list (f <$> l) < sum_list (g <$> l)).
Proof.
  induction l as [|a l IH]; intros H; csimpl; [split; [lia|]; by intros x ?%not_elem_of_nil|].
  destruct IH as [IH1 IH2]; [intros x Hx; apply H; by right|].
  pose proof (H a ltac:(by left)). split; [lia|]. intros x [->|Hx]%elem_of_cons Hlt; [lia|].
  specialize (IH2 x Hx Hlt). lia.
Qed.

Lemma record_probe_measure cr i ran s s' : record_probe cr i ran s = (s', None) ->
  measure s' <= measure s
  /\ (i <= width_of s -> seen_at s i <> SeenPass -> confirmed s i = false -> measure s' < measure s).
Proof.
  intros (Hw & _ & _ & Hu & Ho)%record_probe_spec. unfold measure. rewrite Hw.
  destruct (observe_rank cr ran (obs_at s i) Hu) as [Hle Hlt].
  destruct (sum_list_mono (fun j => obs_rank (obs_at s' j)) (fun j => obs_rank (obs_at s j))
              (seq 0 (S (width_of s)))) as [H1 H2].
  { intros j _. rewrite Ho. by case_decide; [subst|]. }
  split; [done|]. intros Hi Hs Hc. rewrite seen_at_obs in Hs. rewrite confirmed_obs in Hc.
  apply (H2 i); [rewrite list_elem_of_In, in_seq; lia|]. rewrite Ho, decide_True by done. by apply Hlt.
Qed.

Lemma record_probe_red cr i ran s s' : record_probe cr i ran s = (s', None) -> Red s -> Red s'.
Proof.
  intros (Hw & _ & _ & Hu & Ho)%record_probe_spec. unfold Red. rewrite Hw, Ho.
  case_decide as Hd; [|done]. subst i. unfold observe. case_match; simpl; lia.
Qed.

Lemma record_all_keeps cr l s s' : record_all cr l s = (s', Ok None) ->
  measure s' <= measure s /\ width_of s' = width_of s /\ (Red s -> Red s').
Proof.
  revert s. induction l as [|[i [[h ran]|e]] l IH]; intros s; simpl; [by intros [= <-]| |done].
  destruct (record_probe cr i ran s) as [s1 [c|]] eqn:Hr; [done|]. intros (Hm & Hw & Hred)%IH.
  pose proof (record_probe_measure _ _ _ _ _ Hr) as [Hm1 _].
  pose proof (record_probe_spec _ _ _ _ _ _ Hr) as (Hw1 & _).
  split_and!; [lia|congruence|]. intros H. by eapply Hred, record_probe_red.
Qed.

Lemma record_all_settles cr i h ran l s s' : record_all cr ((i, Ok (h, ran)) :: l) s = (s', Ok None) ->
  i <= width_of s -> seen_at s i <> SeenPass -> confirmed s i = false -> measure s' < measure s.
Proof.
  simpl. destruct (record_probe cr i ran s) as [s1 [c|]] eqn:Hr; [done|].
  intros (Hm & _)%record_all_keeps Hi Hs Hc.
  pose proof (proj2 (record_probe_measure _ _ _ _ _ Hr) Hi Hs Hc). lia.
Qed.

(** ** Searches as sequences of rounds *)

(** The rounds of a search, up to a bound, in a world that answers the probes of a round;
    [None] when the bound is reached first. *)
Fixpoint hunt (width : nat) (confirm_reruns : bool) (answer : nat -> list nat -> list JobResult)
    (bound round : nat) (now : next) : option (result string Culprit) :=
  match now, bound with
  | Verdict c, _ => Some (Ok c)
  | Probing s, 0 => None
  | Probing s, S bound =>
      match feed width confirm_reruns (answer round (probes s)) s with
      | Ok now => hunt width confirm_reruns answer bound (S round) now
      | Err e => Some (Err e)
      end
  end.

(** The runs that answered the probes of a round, each with the prefix it ran, in order. *)
Definition round_runs (l : list (nat * JobResult)) : list (nat * Ran) :=
  omap (fun x => match x.2 with Ok (_, ran) => Some (x.1, ran) | Err _ => None end) l.

(** The runs a search makes: those of each of its rounds. *)
Fixpoint runs_made (width : nat) (confirm_reruns : bool) (answer : nat -> list nat -> list JobResult)
    (bound round : nat) (now : next) : list (nat * Ran) :=
  match now, bound with
  | Probing s, S bound =>
      round_runs (zip (probes s) (answer round (probes s)))
      ++ match feed width confirm_reruns (answer round (probes s)) s with
         | Ok now => runs_made width confirm_reruns answer bound (S round) now
         | Err _ => []
         end
  | _, _ => []
  end.

(** A search between rounds. *)
Definition Waiting (width : nat) (s : CulpritSearch) : Prop :=
  Red s /\ probes s = probe_points width s /\ verdict s = None.

Lemma advance_waiting width s s' : Red s -> advance width s = Probing s' ->
  Waiting width s' /\ s' = with_probes (probe_points width s) s.
Proof.
  unfold advance. intros Hred H. destruct (verdict s) eqn:Hv; [done|]. by injection H as <-.
Qed.

Lemma feed_measure width cr answers s s' : 1 <= width -> Waiting width s -> answers <> [] ->
  feed width cr answers s = Ok (Probing s') -> Waiting width s' /\ measure s' < measure s
  /\ width_of s' = width_of s.
Proof.
  intros Hw (Hred & Hp & Hv) Hne. unfold feed, record_round.
  destruct (record_all _ _ _) as [s1 [[c|]|e]] eqn:Hr; [done| |done].
  intros [= H]. destruct (record_all_keeps _ _ _ _ Hr) as (_ & Hw1 & Hred1).
  apply advance_waiting in H as [Hwait ->]; [|by apply Hred1]. split_and!; [done| |done].
  destruct (probes s) as [|i points] eqn:Hps; [by symmetry in Hp; apply probe_points_some in Hp|].
  destruct answers as [|[[h ran]|e] answers]; [done| |done].
  assert (Hin : i ∈ probe_points width s) by (rewrite <- Hp; by left).
  destruct (probe_points_unsettled width s i Hw Hred Hv Hin) as (Hi & Hs & Hc).
  exact (record_all_settles cr i h ran (zip points answers) (with_probes [] s) s1 Hr Hi Hs Hc).
Qed.

Lemma hunt_ends width cr answer bound round now : 1 <= width ->
  (forall r points, points <> [] -> answer r points <> []) ->
  match now with Verdict _ => True | Probing s => Waiting width s /\ measure s < bound end ->
  exists out, hunt width cr answer bound round now = Some out.
Proof.
  intros Hw Ha. revert round now. induction bound as [|bound IH]; intros round now.
  - destruct now; [by eexists|]. intros [_ ?]. lia.
  - destruct now as [c|s]; [by eexists|]. intros [Hs Hm]. simpl.
    destruct (feed _ _ _ _) as [now|e] eqn:Hf; [|by eexists]. apply IH.
    destruct now as [c|s']; [done|]. apply feed_measure in Hf as (H1 & H2 & _); [by split; [|lia]|done|done|].
    apply Ha. rewrite (proj1 (proj2 Hs)). apply probe_points_some.
Qed.

Lemma measure_new c f t d tb cr : measure (CulpritSearch_new c f t d tb cr) < 3 * length (cd_prs c) + 3.
Proof.
  unfold measure. set (s := CulpritSearch_new c f t d tb cr). change (width_of s) with (length (cd_prs c)).
  set (n := length (cd_prs c)). pose proof (red_new c f t d tb cr) as Hred. fold s in Hred.
  assert (Hn : obs_rank (obs_at s n) <= 2).
  { unfold Red in Hred. change (width_of s) with n in Hred. unfold obs_rank, Obs_seen.
    rewrite (proj2 (Nat.ltb_lt _ _) Hred). simpl. repeat (case_match; simplify_eq); lia. }
  rewrite seq_S, fmap_app.
  assert (Hall : forall l, sum_list ((fun i => obs_rank (obs_at s i)) <$> l) <= 3 * length l).
  { induction l as [|i l IH]; csimpl; [lia|]. assert (obs_rank (obs_at s i) <= 3); [|lia].
    unfold obs_rank. repeat case_match; lia. }
  specialize (Hall (seq 0 n)). rewrite length_seq in Hall. rewrite sum_list_with_app. csimpl.
  change (0 + n) with n. lia.
Qed.

Section evidence.

(** How the search was started, and the world that answers its probes. *)
Context (c : Candidate) (chosen_focus : Selection) (first_failed : gset TestId).
Context (first_deterministic trust_base confirm_reruns : bool).
Context (answer : nat -> list nat -> list JobResult).

Let n : nat := length (cd_prs c).

(** The run [ran] answered a probe of the prefix with [i] changes. *)
Definition Answered (i : nat) (ran : Ran) : Prop :=
  exists round points k h, points !! k = Some i /\ answer round points !! k = Some (Ok (h, ran)).

(** ** The tally of a log of runs *)

Definition runs_seen (o : ProbeObservation) (log : list (nat * Ran)) (i : nat) : list Ran :=
  (filter (fun x => x.1 = i /\ probe_observation x.2 = o) log).*2.

(** Each sighting of a failure of a prefix: the tests seen to fail, and whether the run was
    red for deterministic checks only.  The red batch run is the first one of the whole. *)
Definition sightings (log : list (nat * Ran)) (i : nat) : list (gset TestId * bool) :=
  (if decide (i = n) then [(first_failed, first_deterministic)] else [])
  ++ ((fun ran => (reproduced ran, deterministic_red ran)) <$> runs_seen ObservedFail log i).

(** Whether the parent is taken to pass without a probe. *)
Definition trusted (i : nat) : bool := trust_base && (i =? 0) && negb (n =? 0).

Definition Passed (log : list (nat * Ran)) (i : nat) : Prop :=
  trusted i = true \/ runs_seen ObservedPass log i <> [].

Definition tests_seen (l : list (gset TestId * bool)) : gset TestId := ⋃ l.*1.

Definition once_for (l : list (gset TestId * bool)) : option string :=
  if existsb snd l then Some DETERMINISTIC_ONCE
  else match l with [] => None | _ => unconfirmed confirm_reruns end.

(** The observations of [s] are the tally of [log]. *)
Definition Tallies (log : list (nat * Ran)) (s : CulpritSearch) : Prop :=
  candidate s = c
  /\ forall i, let o := obs_at s i in
       fails o = length (sightings log i)
       /\ passes o = (if trusted i then 1 else 0) + length (runs_seen ObservedPass log i)
       /\ obs_failed o = tests_seen (sightings log i)
       /\ once o = once_for (sightings log i).

Lemma runs_seen_snoc o log i ran j :
  runs_seen o (log ++ [(i, ran)]) j
  = runs_seen o log j ++ (if decide (i = j /\ probe_observation ran = o) then [ran] else []).
Proof.
  unfold runs_seen. rewrite filter_app, fmap_app, filter_cons, filter_nil. f_equal. simpl. by repeat case_decide.
Qed.

Lemma tests_seen_snoc l t d : tests_seen (l ++ [(t, d)]) = tests_seen l ∪ t.
Proof. unfold tests_seen. rewrite fmap_app, union_list_app_L. simpl. set_solver. Qed.

Lemma once_for_snoc l t d : once_for (l ++ [(t, d)])
  = if d then Some DETERMINISTIC_ONCE
    else match once_for l with None => unconfirmed confirm_reruns | kept => kept end.
Proof.
  unfold once_for. rewrite existsb_app. simpl. rewrite orb_false_r.
  destruct l as [|x l]; simpl; [by destruct d|].
  destruct (snd x || existsb snd l); simpl; [by destruct d|]. destruct d; [done|].
  by destruct (unconfirmed confirm_reruns).
Qed.

Lemma sightings_snoc log i ran j :
  sightings (log ++ [(i, ran)]) j
  = sightings log j ++ (if decide (i = j /\ probe_observation ran = ObservedFail)
                        then [(reproduced ran, deterministic_red ran)] else []).
Proof.
  unfold sightings. rewrite runs_seen_snoc, fmap_app, app_assoc. f_equal. by case_decide.
Qed.

Lemma obs_at_new i :
  obs_at (CulpritSearch_new c chosen_focus first_failed first_deterministic trust_base confirm_reruns) i
  = if decide (i = n) then first_sighting first_failed first_deterministic confirm_reruns
    else if trusted i then on_pass Obs_default else Obs_default.
Proof.
  unfold obs_at, CulpritSearch_new, trusted. simpl. fold n.
  assert (Hn : bool_decide (cd_prs c = []) = (n =? 0)) by (subst n; by destruct (cd_prs c)). rewrite Hn.
  destruct (trust_base && negb (n =? 0)) eqn:Ht.
  - rewrite andb_true_iff, negb_true_iff, Nat.eqb_neq in Ht. destruct Ht as [-> Hz]. simpl.
    rewrite (proj2 (Nat.eqb_neq _ _) Hz). rewrite andb_true_r.
    destruct (decide (i = 0)) as [->|Hi].
    + rewrite lookup_insert_eq. by rewrite decide_False by done.
    + rewrite lookup_insert_ne by done. rewrite (proj2 (Nat.eqb_neq _ _) Hi).
      case_decide; [subst i; by rewrite lookup_singleton_eq|by rewrite lookup_singleton_ne].
  - assert (trust_base && (i =? 0) && negb (n =? 0) = false) as ->.
    { destruct trust_base, (i =? 0); simpl in *; auto. }
    case_decide; [subst i; by rewrite lookup_singleton_eq|by rewrite lookup_singleton_ne].
Qed.

Lemma tallies_new :
  Tallies [] (CulpritSearch_new c chosen_focus first_failed first_deterministic trust_base confirm_reruns).
Proof.
  split; [done|]. intros i. simpl. rewrite obs_at_new. unfold sightings, runs_seen. rewrite filter_nil. simpl.
  destruct (decide (i = n)) as [->|Hi].
  - assert (trusted n = false) as ->.
    { unfold trusted. destruct trust_base, (n =? 0) eqn:Hz; done. }
    simpl. unfold tests_seen, once_for. simpl. rewrite orb_false_r.
    split_and!; [done|done|set_solver|by destruct first_deterministic].
  - by destruct (trusted i).
Qed.

Lemma tallies_record log s i ran s' : Tallies log s ->
  record_probe confirm_reruns i ran s = (s', None) -> Tallies (log ++ [(i, ran)]) s'.
Proof.
  intros [Hc Ht] (_ & _ & Hc' & Hu & Ho)%record_probe_spec. split; [congruence|].
  intros j. simpl. rewrite Ho. specialize (Ht j). simpl in Ht. destruct Ht as (Hf & Hp & Hob & Honce).
  rewrite sightings_snoc, runs_seen_snoc. destruct (decide (j = i)) as [->|Hji].
  - unfold observe. destruct (probe_observation ran) eqn:Hr; [| |done].
    + rewrite (decide_False (P := i = i /\ ObservedPass = ObservedFail)) by naive_solver.
      rewrite (decide_True (P := i = i /\ ObservedPass = ObservedPass)) by done.
      rewrite app_nil_r, length_app. simpl. split_and!; [done|lia|done|done].
    + rewrite (decide_True (P := i = i /\ ObservedFail = ObservedFail)) by done.
      rewrite (decide_False (P := i = i /\ ObservedFail = ObservedPass)) by naive_solver.
      rewrite app_nil_r, length_app, tests_seen_snoc, once_for_snoc. simpl.
      split_and!; [lia|done|by rewrite Hob|by rewrite Honce].
  - rewrite !decide_False by naive_solver. by rewrite !app_nil_r.
Qed.

(** Logs of answered runs. *)
Definition Logged (log : list (nat * Ran)) : Prop := forall i ran, (i, ran) ∈ log -> Answered i ran.

(** ** What each verdict has to rest on *)

(** A failure is confirmed by two sightings, or by one of deterministic checks only, or by
    one when same-commit confirmation is off; [how] says which. *)
Definition ConfirmedBy (l : list (gset TestId * bool)) (how : string) : Prop :=
  match l with
  | [] => False
  | [(_, deterministic)] =>
      (deterministic = true /\ how = DETERMINISTIC_ONCE)
      \/ (deterministic = false /\ confirm_reruns = false /\ how = UNCONFIRMED_ONCE)
  | _ => how = "seen twice"
  end.

(** The tests that failed at a prefix that also passed. *)
Definition Flickering (log : list (nat * Ran)) (tests : gset TestId) : Prop :=
  forall t, t ∈ tests <-> exists i, Passed log i /\ t ∈ tests_seen (sightings log i).

Definition Justified (log : list (nat * Ran)) (v : Culprit) : Prop :=
  match v with
  | Found k failing flaky how =>
      k < n /\ Passed log k /\ ~ Passed log (S k)
      /\ ConfirmedBy (sightings log (S k)) how /\ failing = tests_seen (sightings log (S k))
      /\ Flickering log flaky
      /\ forall i, i <= k -> sightings log i <> [] -> Passed log i
  | BaseRed failing how =>
      ~ Passed log 0 /\ ConfirmedBy (sightings log 0) how /\ failing = tests_seen (sightings log 0)
  | Flaky flaky => Passed log n /\ Flickering log flaky
  | HeldFor hold tests =>
      exists ran, (n, ran) ∈ log /\ refused ran = false /\ cancelled ran = false /\ tests <> []
                  /\ match hold with
                     | InfraBlocked => tests = ran_infra_blocked ran
                     | GreenFlaky => green ran = true /\ tests = ran_flaky_passes ran
                     end
  | RefusedProbe detail => exists i ran, (i, ran) ∈ log /\ refused ran = true /\ detail = refusal_detail ran
  | Inconclusive _ =>
      exists i ran, (i, ran) ∈ log /\ refused ran = false
                    /\ (ran_infra_blocked ran <> [] \/ probe_observation ran = ObservedUnknown)
  end.

Lemma passed_tally log s i : Tallies log s -> 0 < passes (obs_at s i) <-> Passed log i.
Proof.
  intros [_ Ht]. specialize (Ht i). simpl in Ht. destruct Ht as (_ & -> & _ & _). unfold Passed.
  destruct (trusted i), (runs_seen ObservedPass log i); simpl; split; intros H; (lia || auto).
  destruct H; done.
Qed.

Lemma confirmed_tally log s i : Tallies log s -> confirmed s i = true ->
  ~ Passed log i /\ ConfirmedBy (sightings log i) (confirmation (obs_at s i))
  /\ obs_failed (obs_at s i) = tests_seen (sightings log i).
Proof.
  intros Hs Hc. rewrite confirmed_obs in Hc. unfold confirmed_fail in Hc.
  rewrite andb_true_iff, Nat.eqb_eq in Hc. destruct Hc as [Hp Hc].
  split; [rewrite <- (passed_tally log s i Hs); lia|].
  destruct Hs as [_ Ht]. specialize (Ht i). simpl in Ht. destruct Ht as (Hf & _ & Ho & Honce).
  split; [|done]. unfold confirmation. rewrite Hf, Honce in *. unfold ConfirmedBy, once_for in *.
  destruct (sightings log i) as [|[t d] [|y l]]; simpl in *; [done| |].
  - destruct d; simpl in *; [by left|]. unfold unconfirmed in *. destruct confirm_reruns; [done|]. by right.
  - destruct (_ || _); [done|]. by destruct (unconfirmed confirm_reruns).
Qed.

Lemma sighted_tally log s i : Tallies log s -> 0 < fails (obs_at s i) <-> sightings log i <> [].
Proof.
  intros [_ Ht]. specialize (Ht i). simpl in Ht. destruct Ht as (-> & _). destruct (sightings log i); simpl; split;
    (lia || done).
Qed.

Lemma flickering_tally log s : Tallies log s -> Flickering log (flaky_tests s).
Proof.
  intros Hs t. unfold flaky_tests. rewrite elem_of_union_list. split.
  - intros (X & HX & Ht). apply list_elem_of_fmap in HX as (o & -> & Ho).
    rewrite list_elem_of_In, filter_In, <- list_elem_of_In, andb_true_iff, !Nat.ltb_lt in Ho.
    destruct Ho as (Ho & Hp & Hf). apply list_elem_of_fmap in Ho as ([i o'] & -> & Hi%elem_of_map_to_list).
    simpl in *. exists i. assert (Hoi : obs_at s i = o') by (unfold obs_at; by rewrite Hi).
    rewrite <- Hoi in *. split; [by apply (passed_tally log s i Hs)|].
    destruct Hs as [_ Hs]. specialize (Hs i). simpl in Hs. by destruct Hs as (_ & _ & <- & _).
  - intros (i & Hp & Ht). pose proof Hs as [_ Htal]. specialize (Htal i). simpl in Htal.
    destruct Htal as (_ & _ & Ho & _). rewrite <- Ho in Ht.
    apply (passed_tally log s i Hs) in Hp. exists (obs_failed (obs_at s i)). split; [|done].
    apply list_elem_of_fmap. exists (obs_at s i). split; [done|].
    rewrite list_elem_of_In, filter_In, <- list_elem_of_In, andb_true_iff, !Nat.ltb_lt. split_and!; [|done|].
    + apply list_elem_of_fmap. unfold obs_at in *. destruct (obs s !! i) as [o|] eqn:Hi.
      * exists (i, o). by rewrite elem_of_map_to_list.
      * simpl in Hp. lia.
    + apply (sighted_tally log s i Hs). intros Hz. rewrite Ho, Hz in Ht. unfold tests_seen in Ht; simpl in Ht; set_solver.
Qed.

Lemma seen_pass_tally log s i : Tallies log s -> seen_at s i = SeenPass <-> Passed log i.
Proof.
  intros Hs. rewrite <- (passed_tally log s i Hs), seen_at_obs. unfold Obs_seen.
  destruct (Nat.ltb_spec 0 (passes (obs_at s i))); [done|]. case_match; split; (lia || done).
Qed.

Lemma width_tally log s : Tallies log s -> width_of s = n.
Proof. intros [Hc _]. unfold width_of. by rewrite Hc. Qed.

Lemma verdict_justified log s v : Red s -> Tallies log s -> verdict s = Some v -> Justified log v.
Proof.
  intros Hred Hs. unfold verdict. pose proof (width_tally log s Hs) as Hn.
  case_bool_decide as Hp.
  { intros [= <-]. rewrite Hn in Hp. split; [by apply (seen_pass_tally log s)|by apply flickering_tally]. }
  destruct (confirmed s 0) eqn:H0.
  { intros [= <-]. by apply (confirmed_tally log s 0 Hs) in H0 as (? & ? & ?). }
  destruct (first_fail_spec s (red_seen s Hred Hp)) as (Hle & Hhi & Hbelow). set (hi := first_fail s) in *.
  destruct (_ && _) eqn:Hif; [|done]. rewrite !andb_true_iff, Nat.ltb_lt, bool_decide_eq_true in Hif.
  destruct Hif as [[Hpos Hlo] Hc]. intros [= <-]. pose proof (last_pass_spec s hi) as Hlast.
  rewrite Hlo in Hlast. destruct Hlast as (_ & Hpass & _). destruct hi as [|k] eqn:Hk; [lia|].
  simpl in *. apply (confirmed_tally log s (S k) Hs) in Hc as (Hnp & Hcf & Ho).
  split_and!; [lia|by apply (seen_pass_tally log s)|done|done|done|by apply flickering_tally|].
  intros i Hi Hsi. apply (seen_pass_tally log s i Hs). specialize (Hbelow i ltac:(lia)).
  apply (sighted_tally log s i Hs) in Hsi. rewrite seen_at_obs in *. unfold Obs_seen in *.
  rewrite (proj2 (Nat.ltb_lt _ _) Hsi) in *. by destruct (0 <? passes (obs_at s i)).
Qed.

(** ** Through the rounds *)

Lemma record_probe_justified log made s i ran s' v : Tallies log s -> (i, ran) ∈ made ->
  record_probe confirm_reruns i ran s = (s', Some v) -> Justified made v.
Proof.
  intros Hs Ha. unfold record_probe. rewrite (width_tally log s Hs).
  destruct (refused ran) eqn:Href; [intros [= _ <-]; by exists i, ran|].
  destruct ((i =? n) && _ && negb (bool_decide (ran_infra_blocked ran = []))) eqn:H1.
  { rewrite !andb_true_iff, Nat.eqb_eq, !negb_true_iff, bool_decide_eq_false in H1.
    destruct H1 as [[-> Hcan] Hne]. intros [= _ <-]. by exists ran. }
  destruct ((i =? n) && _ && green ran && _) eqn:H2.
  { rewrite !andb_true_iff, Nat.eqb_eq, !negb_true_iff, bool_decide_eq_false in H2.
    destruct H2 as [[[-> Hcan] Hgr] Hne]. intros [= _ <-]. by exists ran. }
  clear H1 H2. destruct (bool_decide (ran_infra_blocked ran = [])) eqn:H3; simpl.
  2: { apply bool_decide_eq_false in H3. intros [= _ <-]. exists i, ran. auto. }
  destruct (probe_observation ran) eqn:Hu; [done|done|]. intros [= _ <-]. exists i, ran. auto.
Qed.

Lemma record_all_justified l s log s' oc : Tallies log s -> record_all confirm_reruns l s = (s', Ok oc) ->
  let made := log ++ round_runs l in
  match oc with Some v => Justified made v | None => Tallies made s' end.
Proof.
  revert s log. induction l as [|[i [[h ran]|e]] l IH]; intros s log Hs; simpl; [| |done].
  { intros [= <- <-]. by rewrite app_nil_r. }
  destruct (record_probe confirm_reruns i ran s) as [s1 [v|]] eqn:Hr.
  - intros [= <- <-]. eapply record_probe_justified; [done| |done]. apply elem_of_app. right. by left.
  - intros Hl. eapply tallies_record in Hr; [|done]. pose proof (IH _ _ Hr Hl) as Hoc. simpl in Hoc.
    by rewrite <- app_assoc in Hoc.
Qed.

Lemma hunt_justified width bound round now log v :
  match now with Verdict v => Justified log v | Probing s => Waiting width s /\ Tallies log s end ->
  hunt width confirm_reruns answer bound round now = Some (Ok v) ->
  Justified (log ++ runs_made width confirm_reruns answer bound round now) v.
Proof.
  revert round now log. induction bound as [|bound IH]; intros round now log Hnow Hh.
  { destruct now as [v'|s]; simpl in Hh; [|done]. injection Hh as <-. by rewrite app_nil_r. }
  destruct now as [v'|s]; simpl in Hh; [injection Hh as <-; by rewrite app_nil_r|].
  destruct Hnow as [(Hred & Hp & Hv) Hs]. cbn [runs_made]. rewrite app_assoc.
  assert (Hs' : Tallies log (with_probes [] s)) by done. unfold feed in *. unfold record_round in *.
  destruct (record_all _ _ _) as [s1 [oc|e]] eqn:Hr; [|done].
  pose proof (record_all_justified _ _ _ _ _ Hs' Hr) as Hoc. simpl in Hoc.
  destruct oc as [v'|]; [exact (IH (S round) (Verdict v') _ Hoc Hh)|].
  apply record_all_keeps in Hr as (_ & _ & Hred1). specialize (Hred1 Hred).
  apply (IH (S round) (advance width s1)); [|exact Hh]. destruct (advance width s1) as [v'|s2] eqn:Hadv.
  - unfold advance in Hadv. destruct (verdict s1) as [v''|] eqn:Hv1; [|done]. injection Hadv as <-.
    by eapply verdict_justified.
  - by apply advance_waiting in Hadv as [Hwait ->].
Qed.

(** Every run a search makes answered a probe. *)
Lemma runs_made_logged width bound round now : Logged (runs_made width confirm_reruns answer bound round now).
Proof.
  revert round now. induction bound as [|bound IH]; intros round now i ran; destruct now as [v|s]; simpl;
    try by intros ?%not_elem_of_nil.
  rewrite elem_of_app. intros [Hin|Hin].
  - unfold round_runs in Hin. apply list_elem_of_omap in Hin as ([j [[h ran']|e]] & Hin & [= -> ->]).
    apply list_elem_of_lookup in Hin as [k Hk]. exists round, (probes s), k, h.
    by apply lookup_zip_with_Some in Hk as (x & y & [= <- <-] & Hx & Hy).
  - destruct (feed _ _ _ _) as [now|e]; [by eapply IH|by apply not_elem_of_nil in Hin].
Qed.

End evidence.
