(* ===== verification/QueueCulpritProps.v ===== *)
(** * merge-queue: the culprit search always ends, and names only culprits it saw

    The theorems C5, C7 and C8 and their witnesses. *)
From S2P Require Import Prelude RustStr External QueueTests QueueModel QueueValidate QueueCulprit QueueEvidence.

(** The search a red batch starts, up to its first probes or a verdict at once. *)
Definition started (width : nat) (c : Candidate) (chosen : Chosen) (ran : Ran) (trust_base confirm_reruns : bool)
  : next :=
  advance width (red_search c chosen ran trust_base confirm_reruns).

Lemma started_waiting width c chosen ran tb cr :
  match started width c chosen ran tb cr with
  | Verdict _ => True
  | Probing s => Waiting width s /\ measure s < 3 * length (cd_prs c) + 3
  end.
Proof.
  unfold started. destruct (advance _ _) as [v|s] eqn:Ha; [done|].
  apply advance_waiting in Ha as [Hw ->]; [|apply red_new]. split; [done|]. apply measure_new.
Qed.

(** An error of a search is the error of an answer. *)
Lemma hunt_error width cr answer bound round now e :
  hunt width cr answer bound round now = Some (Err e) -> exists r points, Err e ∈ answer r points.
Proof.
  revert round now. induction bound as [|bound IH]; intros round now; [by destruct now|].
  destruct now as [v|s]; simpl; [done|]. unfold feed, record_round.
  set (l := zip (probes s) (answer round (probes s))).
  assert (Hl : forall i, (i, Err e) ∈ l -> exists r points, Err e ∈ answer r points).
  { intros i Hi. exists round, (probes s). apply list_elem_of_lookup in Hi as [k Hk].
    apply lookup_zip_with_Some in Hk as (x & y & [= _ <-] & _ & Hy). by eapply list_elem_of_lookup_2. }
  destruct (record_all cr l _) as [s1 [[v|]|e']] eqn:Hr; [by destruct bound| apply IH|].
  intros [= ->]. clearbody l. generalize dependent (with_probes [] s).
  induction l as [|[i [[h ran]|e']] l IHl]; intros s0; simpl; [done| |].
  - destruct (record_probe _ _ _ _) as [s2 [v|]]; [done|]. apply IHl. intros j Hj. apply (Hl j). by right.
  - intros [= _ ->]. apply (Hl i). by left.
Qed.

(** C5: The search for the culprit of a red batch of [n] changes ends: whatever the probes
    report, even if no report is consistent with any other, [3 * n + 3] rounds bring a
    verdict or the error of a probe, as long as each round reports at least one. *)
Theorem culprit_search_ends width c chosen ran trust_base confirm_reruns answer :
  1 <= width ->
  (forall round points, points <> [] -> answer round points <> []) ->
  exists out,
    hunt width confirm_reruns answer (3 * length (cd_prs c) + 3) 0
      (started width c chosen ran trust_base confirm_reruns) = Some out
    /\ forall e, out = Err e -> exists round points, Err e ∈ answer round points.
Proof.
  intros Hw Ha.
  destruct (hunt_ends width confirm_reruns answer (3 * length (cd_prs c) + 3) 0 _ Hw Ha
    (started_waiting width c chosen ran trust_base confirm_reruns)) as [out Hout].
  exists out. split; [done|]. intros e ->. by eapply hunt_error.
Qed.

Lemma started_justified width c chosen ran trust_base confirm_reruns answer bound v :
  hunt width confirm_reruns answer bound 0 (started width c chosen ran trust_base confirm_reruns) = Some (Ok v) ->
  Justified c (ran_failed ran) (deterministic_red ran) trust_base confirm_reruns
    (runs_made width confirm_reruns answer bound 0 (started width c chosen ran trust_base confirm_reruns)) v.
Proof.
  set (focus := red_focus chosen ran).
  pose proof (tallies_new c focus (ran_failed ran) (deterministic_red ran) trust_base confirm_reruns answer) as Hnew.
  apply hunt_justified with (log := []).
  unfold started. destruct (advance _ _) as [v'|s] eqn:Ha.
  - unfold advance in Ha. destruct (verdict _) as [v''|] eqn:Hv; [|done]. injection Ha as <-.
    by eapply verdict_justified; [apply red_new|exact Hnew|].
  - by apply advance_waiting in Ha as [Hw ->]; [|apply red_new].
Qed.

(** C7: Every verdict of a culprit search rests on the runs it made, each counted once, with
    the red run of the batch as the first of the whole: the change named is confirmed by two
    sightings of a failure of the prefix that ends with it (or by one, where it was of
    deterministic checks only or confirmation is off), which never passed, while the
    prefix before it passed, unless that is the base and it is trusted, and every shorter one
    that failed also passed; the base is
    blamed only for confirmed failures of its own, a batch is called flaky only when the
    whole of it passed; a hold or a refusal repeats what a run said, and no conclusion is
    drawn only where a run was blocked or measured nothing. *)
Theorem named_culprit_justified width c chosen ran trust_base confirm_reruns answer bound v :
  let start := started width c chosen ran trust_base confirm_reruns in
  hunt width confirm_reruns answer bound 0 start = Some (Ok v) ->
  Justified c (ran_failed ran) (deterministic_red ran) trust_base confirm_reruns
    (runs_made width confirm_reruns answer bound 0 start) v.
Proof. apply started_justified. Qed.

(** *** A consistent world *)

(** Runs that measure: none refused, blocked by the host or passed on a retry; the
    prefixes with at least [k] changes fail and the shorter ones pass. *)
Definition Breaks (k : nat) (run : nat -> nat -> Ran) : Prop :=
  forall round i,
    refused (run round i) = false /\ ran_infra_blocked (run round i) = [] /\ ran_flaky_passes (run round i) = []
    /\ probe_observation (run round i) = if k <=? i then ObservedFail else ObservedPass.

Definition measured (run : nat -> nat -> Ran) (round : nat) (points : list nat) : list JobResult :=
  (fun i => Ok (round, run round i)) <$> points.

Lemma measured_answered run i ran : Answered (measured run) i ran -> exists round, ran = run round i.
Proof.
  intros (round & points & k & h & Hk & Hm). unfold measured in Hm. rewrite list_lookup_fmap, Hk in Hm.
  injection Hm as _ <-. by exists round.
Qed.

Lemma runs_seen_in o log i ran : ran ∈ runs_seen o log i -> (i, ran) ∈ log /\ probe_observation ran = o.
Proof.
  unfold runs_seen. intros ([j ran'] & -> & [[Hj Ho] Hin]%list_elem_of_filter)%list_elem_of_fmap.
  simpl in *. by subst j.
Qed.

Lemma confirmed_sighted cr l how : ConfirmedBy cr l how -> l <> [].
Proof. by destruct l. Qed.

Section consistent.

Context (c : Candidate) (ff : gset TestId) (fd tb cr : bool) (run : nat -> nat -> Ran) (k : nat).
Let n : nat := length (cd_prs c).
Context (Hk : 1 <= k <= n) (Hrun : Breaks k run) (log : list (nat * Ran)) (Hlog : Logged (measured run) log).

Lemma logged_run o i : runs_seen o log i <> [] -> o = if k <=? i then ObservedFail else ObservedPass.
Proof.
  intros Hne. destruct (runs_seen o log i) as [|ran l] eqn:Hl; [done|].
  destruct (runs_seen_in o log i ran) as [Hin <-]; [rewrite Hl; by left|].
  apply Hlog in Hin. apply measured_answered in Hin as [round ->]. by apply Hrun.
Qed.

Lemma passed_below i : Passed c tb log i -> i < k.
Proof.
  intros [Ht|Hp].
  - unfold trusted in Ht. rewrite !andb_true_iff, Nat.eqb_eq in Ht. lia.
  - apply logged_run in Hp. destruct (Nat.leb_spec k i); [done|lia].
Qed.

Lemma sighted_above i : sightings c ff fd log i <> [] -> k <= i.
Proof.
  intros Hs. unfold sightings in Hs. fold n in Hs. destruct (decide (i = n)); [lia|].
  simpl in Hs. destruct (Nat.leb_spec k i) as [|Hlt]; [done|]. exfalso. apply Hs.
  destruct (runs_seen ObservedFail log i) eqn:Hl; [done|].
  pose proof (logged_run ObservedFail i ltac:(by rewrite Hl)) as Ho.
  by rewrite (proj2 (Nat.leb_gt _ _) Hlt) in Ho.
Qed.

End consistent.

(** C8: In a consistent world, where the prefixes without change [k] pass and those with it
    fail, the search ends with change [k] named and no test called flaky, whether or not
    the base is trusted and failures are confirmed by reruns, and however many prefixes a
    round probes. *)
Theorem consistent_culprit_found width c chosen ran trust_base confirm_reruns run k :
  1 <= width -> 1 <= k <= length (cd_prs c) -> Breaks k run ->
  exists failing how,
    hunt width confirm_reruns (measured run) (3 * length (cd_prs c) + 3) 0
      (started width c chosen ran trust_base confirm_reruns)
    = Some (Ok (Found (k - 1) failing ∅ how)).
Proof.
  intros Hw Hk Hrun.
  destruct (hunt_ends width confirm_reruns (measured run) (3 * length (cd_prs c) + 3) 0
    (started width c chosen ran trust_base confirm_reruns) Hw) as [[v|e] Hout].
  { unfold measured. by intros r [|i points]. }
  { apply started_waiting. }
  2: { exfalso. apply hunt_error in Hout as (r & points & Hin). unfold measured in Hin.
       by apply list_elem_of_fmap in Hin as (i & ? & _). }
  rewrite Hout. pose proof (started_justified _ _ _ _ _ _ _ _ _ Hout) as Hj. revert Hj. set (log := runs_made _ _ _ _ _ _). intros Hj.
  assert (Hlog : Logged (measured run) log) by apply runs_made_logged.
  pose proof (passed_below c trust_base run k Hk Hrun log Hlog) as Hpass.
  pose proof (sighted_above c (ran_failed ran) (deterministic_red ran) run k Hk Hrun log Hlog) as Hsight.
  destruct v as [failing how|flaky|hold tests|detail|detail|k' failing flaky how]; simpl in Hj.
  - destruct Hj as (_ & Hc & _). apply confirmed_sighted, Hsight in Hc. lia.
  - destruct Hj as (Hp & _). apply Hpass in Hp. lia.
  - destruct Hj as (x & Hx & _ & _ & Hne & Hh). apply Hlog, measured_answered in Hx as [r ->].
    destruct (Hrun r (length (cd_prs c))) as (_ & Hi & Hf & _). destruct hold; [by destruct Hh; congruence|congruence].
  - destruct Hj as (i & x & Hx & Href & _). apply Hlog, measured_answered in Hx as [r ->].
    destruct (Hrun r i) as (Hr & _). congruence.
  - destruct Hj as (i & x & Hx & _ & Hu). apply Hlog, measured_answered in Hx as [r ->].
    destruct (Hrun r i) as (_ & Hi & _ & Ho). destruct Hu as [Hu|Hu]; [congruence|].
    rewrite Ho in Hu. by destruct (k <=? i).
  - destruct Hj as (Hlt & Hp & _ & Hc & _ & Hflaky & _).
    assert (k' = k - 1) as ->.
    { apply Hpass in Hp. apply confirmed_sighted, Hsight in Hc. lia. }
    assert (flaky = ∅) as ->; [|by eexists _, _].
    apply set_eq. intros t. split; [|by intros ?%not_elem_of_empty].
    intros (i & Hpi & Ht)%Hflaky. apply Hpass in Hpi.
    assert (Hs : sightings c (ran_failed ran) (deterministic_red ran) log i <> []).
    { intros Hs. rewrite Hs in Ht. unfold tests_seen in Ht. simpl in Ht. set_solver. }
    apply Hsight in Hs. lia.
Qed.

(** ** A search to evaluate the definitions on *)

(** A run of one test, finished with the exit code the outcome asks for. *)
Definition demo_run (outcome : Outcome) (exempt : list TestId) : Ran := {|
  ran_results := {| results := {[TestId_step "t" := outcome]}; durations_ms := ∅; logs := ∅;
                    unattributed := false |};
  exit := Some (if bool_decide (outcome = Pass) then 0 else 1)%Z;
  cancelled := false; interrupted := None; handle := None; refused := false;
  ran_flaky_passes := []; ran_infra_blocked := []; suspect := []; ran_rerun_exempt := exempt;
  cannot_execute := None; effective_selection := None; early_red := false |}.

Definition demo_candidate : Candidate :=
  {| cd_prs := [11; 12; 13; 14]%Z; parent := "p"; tip := "d"; prefixes := ["a"; "b"; "c"; "d"] |}.

Definition demo_chosen : Chosen := {| chosen_selection := All; chosen_policy := "all"; extra := ∅ |}.

(** The third change breaks the test. *)
Definition demo_world (round i : nat) : Ran := demo_run (if 3 <=? i then Fail else Pass) [].

(** Each probe fails on its first sighting and passes on the next. *)
Definition moody_world (round : nat) (points : list nat) : list JobResult :=
  (fun i => Ok (0, demo_run (if Nat.even round then Fail else Pass) [])) <$> points.

Example demo_search :
  hunt 1 true (measured demo_world) 15 0
    (started 1 demo_candidate demo_chosen (demo_run Fail []) false true)
  = Some (Ok (Found 2 {[TestId_step "t"]} ∅ "seen twice")).
Proof. vm_compute. reflexivity. Qed.

Lemma demo_breaks : Breaks 3 demo_world.
Proof. intros round i. unfold demo_world. by destruct (3 <=? i). Qed.

Lemma culprit_search_ends_witness :
  exists out,
    hunt 1 true moody_world (3 * length (cd_prs demo_candidate) + 3) 0
      (started 1 demo_candidate demo_chosen (demo_run Fail []) false true) = Some out
    /\ forall e, out = Err e -> exists round points, Err e ∈ moody_world round points.
Proof.
  apply (culprit_search_ends 1 demo_candidate demo_chosen (demo_run Fail []) false true moody_world); [lia|].
  unfold moody_world. by intros round [|i points].
Defined.

(** The search of the demo: the second change passes, the third is seen to fail twice. *)
Lemma named_culprit_justified_witness :
  let start := started 1 demo_candidate demo_chosen (demo_run Fail []) false true in
  fst <$> runs_made 1 true (measured demo_world) 15 0 start = [0; 2; 3; 3] /\
  Justified demo_candidate (ran_failed (demo_run Fail [])) (deterministic_red (demo_run Fail [])) false true
    (runs_made 1 true (measured demo_world) 15 0 start) (Found 2 {[TestId_step "t"]} ∅ "seen twice").
Proof.
  split; [vm_compute; reflexivity|].
  apply (named_culprit_justified 1 demo_candidate demo_chosen (demo_run Fail []) false true
           (measured demo_world) 15 (Found 2 {[TestId_step "t"]} ∅ "seen twice")).
  vm_compute. reflexivity.
Defined.

Lemma consistent_culprit_found_witness :
  exists failing how,
    hunt 2 false (measured demo_world) (3 * length (cd_prs demo_candidate) + 3) 0
      (started 2 demo_candidate demo_chosen (demo_run Fail []) true false)
    = Some (Ok (Found (3 - 1) failing ∅ how)).
Proof.
  apply (consistent_culprit_found 2 demo_candidate demo_chosen (demo_run Fail []) true false demo_world 3);
    [lia|simpl; lia|exact demo_breaks].
Defined.
