(* ===== verification/QueueRecountProps.v ===== *)
(** * merge-queue: recounting pins, what is read back

    A text cut into bytes and entries; that replacing the numbers of entries leaves the
    cut as it is, so that rewriting a pin file changes its numbers and nothing else; and
    what the deltas of a change add up to.  The theorem C19 and its witness. *)
From S2P Require Import Prelude RustStr External QueueTests QueueModel QueueValidate QueueRecount.

(** ** Texts cut into entries *)

Inductive seg := Byte (c : ascii) | Entry (name blanks digits : string).

Definition entry_text (name blanks digits : string) : string :=
  String "(" (String dquote (name +:+ String dquote (String "," (blanks +:+ digits +:+ ")")))).

Definition seg_text (x : seg) : string :=
  match x with Byte c => str1 c | Entry name blanks digits => entry_text name blanks digits end.

Fixpoint render (l : list seg) : string :=
  match l with [] => "" | x :: l => seg_text x +:+ render l end.

(** How [scan] cuts a text. *)
Inductive Cut : string -> list seg -> Prop :=
| cut_nil : Cut "" []
| cut_byte c r l : parse_one (String c r) = None -> Cut r l -> Cut (String c r) (Byte c :: l)
| cut_entry s name blanks digits rest l :
    parse_one s = Some (name, blanks, digits, rest) -> Cut rest l -> Cut s (Entry name blanks digits :: l).

(** *** Reading one entry *)

(** Whether a count can be read, as one pass over the bytes. *)
Fixpoint digs (any : bool) (s : string) : bool :=
  match s with
  | "" => false
  | String c r => if is_digit c then digs true r else any && Ascii.eqb c ")"
  end.

Fixpoint blank_digs (s : string) : bool :=
  match s with
  | "" => false
  | String c r => if is_ascii_whitespace c then blank_digs r else digs false s
  end.

Definition countable (s : string) : bool :=
  match s with String c r => Ascii.eqb c "," && blank_digs r | "" => false end.

Fixpoint closes (s : string) : bool :=
  match s with
  | "" => false
  | String c r =>
      if Ascii.eqb c dquote then countable r
      else if Ascii.eqb c bslash then match r with "" => false | String _ r => closes r end
      else closes r
  end.

Lemma span_while_app p s : (span_while p s).1 +:+ (span_while p s).2 = s.
Proof.
  induction s as [|c s IH]; simpl; [done|]. destruct (p c); [|done].
  destruct (span_while p s) as [a b]. simpl in *. by rewrite str_app_cons, IH.
Qed.

Lemma span_while_all p s : str_forallb p (span_while p s).1 = true.
Proof.
  induction s as [|c s IH]; simpl; [done|]. destruct (p c) eqn:Hc; [|done].
  destruct (span_while p s) as [a b]. simpl in *. by rewrite Hc.
Qed.

Lemma span_while_stop p a c r : str_forallb p a = true -> p c = false ->
  span_while p (a +:+ String c r) = (a, String c r).
Proof.
  induction a as [|x a IH]; simpl; [by intros _ ->|]. intros [Hx Ha]%andb_true_iff Hc.
  by rewrite Hx, IH.
Qed.

Lemma digs_span any s : digs any s =
  (any || negb (str_is_empty (span_while is_digit s).1))
  && match (span_while is_digit s).2 with String c _ => Ascii.eqb c ")" | "" => false end.
Proof.
  revert any. induction s as [|c s IH]; intros any; simpl; [by rewrite andb_false_r|].
  destruct (is_digit c) eqn:Hc; simpl; [|by rewrite orb_false_r].
  rewrite IH. destruct (span_while is_digit s) as [a b]. simpl. by rewrite orb_true_r.
Qed.

Lemma blank_digs_span s : blank_digs s = digs false (span_while is_ascii_whitespace s).2.
Proof.
  induction s as [|c s IH]; [done|]. cbn [blank_digs span_while].
  destruct (is_ascii_whitespace c); [|done]. rewrite IH. by destruct (span_while is_ascii_whitespace s).
Qed.

Lemma strip_char c s : strip_prefix (str1 c) s =
  match s with String d r => if Ascii.eqb d c then Some r else None | "" => None end.
Proof.
  destruct s as [|d r]; [done|]. simpl. unfold str1. simpl.
  destruct (Ascii.eqb_spec d c), (Ascii.eqb_spec c d); congruence || by destruct r.
Qed.

Lemma countable_spec s : countable s = match read_count s with Some _ => true | None => false end.
Proof.
  unfold read_count. change "," with (str1 ","). rewrite strip_char. destruct s as [|c s]; [done|]. cbn [countable].
  destruct (Ascii.eqb c ","); [|done]. cbn [mbind option_bind andb]. rewrite blank_digs_span, digs_span.
  destruct (span_while is_ascii_whitespace s) as [a t]. cbn [fst snd].
  destruct (span_while is_digit t) as [d u]. cbn [fst snd].
  destruct (str_is_empty d); [done|]. destruct u as [|c' u]; [done|]. cbn [strip_prefix negb orb andb mbind option_bind].
  by destruct (Ascii.eqb_spec c' ")"), (Ascii.eqb_spec ")" c'); try congruence.
Qed.

Lemma read_name_spec s : match read_name s with
  | Some (name, t) => s = name +:+ String dquote t /\ (forall u, read_name (name +:+ String dquote u) = Some (name, u))
                      /\ closes s = countable t
  | None => closes s = false
  end.
Proof.
  remember (String.length s) as n eqn:Hn. revert s Hn.
  induction (Nat.lt_wf_0 n) as [n _ IH]. intros [|c s] Hn; [done|]. cbn [read_name closes].
  destruct (Ascii.eqb_spec c dquote) as [->|Hq]; [by split_and!|].
  destruct (Ascii.eqb_spec c bslash) as [->|Hb].
  - destruct s as [|e s]; [done|]. specialize (IH (String.length s)).
    specialize (IH ltac:(subst n; simpl; lia) s eq_refl).
    destruct (read_name s) as [[name t]|]; cbn [mbind option_bind]; [|done].
    destruct IH as (-> & Hu & Hc). split_and!; [done| |done]. intros u.
    change (read_name (String bslash (String e (name +:+ String dquote u))) = Some (String bslash (String e name), u)).
    cbn [read_name]. by rewrite Hu.
  - specialize (IH (String.length s) ltac:(subst n; simpl; lia) s eq_refl).
    destruct (read_name s) as [[name t]|]; cbn [mbind option_bind]; [|done].
    destruct IH as (-> & Hu & Hc). split_and!; [done| |done]. intros u.
    change (read_name (String c (name +:+ String dquote u)) = Some (String c name, u)).
    cbn [read_name]. rewrite Hu. destruct (Ascii.eqb_spec c dquote), (Ascii.eqb_spec c bslash); done.
Qed.

(** Blanks and a number, as an entry has them. *)
Definition Count (blanks digits : string) : Prop :=
  str_forallb is_ascii_whitespace blanks = true /\ str_forallb is_digit digits = true /\ str_is_empty digits = false.

Lemma digit_not_blank c : is_digit c = true -> is_ascii_whitespace c = false.
Proof. by destruct c as [[] [] [] [] [] [] [] []]. Qed.

Lemma read_count_entry blanks digits rest : Count blanks digits ->
  read_count (String "," (blanks +:+ digits +:+ String ")" rest)) = Some (blanks, digits, rest).
Proof.
  intros (Hb & Hd & He). unfold read_count. cbn [strip_prefix].
  rewrite (proj2 (Ascii.eqb_eq "," ",")) by done. cbn [mbind option_bind].
  destruct digits as [|d ds]; [done|]. pose proof Hd as Hd'. cbn [str_forallb] in Hd'.
  apply andb_true_iff in Hd' as [Hdc _].
  change (String d ds +:+ String ")" rest) with (String d (ds +:+ String ")" rest)).
  rewrite (span_while_stop is_ascii_whitespace blanks d) by (done || by apply digit_not_blank).
  cbn [fst snd].
  change (String d (ds +:+ String ")" rest)) with (String d ds +:+ String ")" rest).
  rewrite (span_while_stop is_digit (String d ds) ")") by done. done.
Qed.

Lemma read_count_Some t blanks digits rest : read_count t = Some (blanks, digits, rest) ->
  t = String "," (blanks +:+ digits +:+ String ")" rest) /\ Count blanks digits.
Proof.
  unfold read_count. change "," with (str1 ","). rewrite strip_char. destruct t as [|c t]; [done|].
  destruct (Ascii.eqb_spec c ",") as [->|]; [|done]. cbn [mbind option_bind].
  pose proof (span_while_app is_ascii_whitespace t) as H1. pose proof (span_while_all is_ascii_whitespace t) as H2.
  destruct (span_while is_ascii_whitespace t) as [a t1]. cbn [fst snd] in *.
  pose proof (span_while_app is_digit t1) as H3. pose proof (span_while_all is_digit t1) as H4.
  destruct (span_while is_digit t1) as [d t2]. cbn [fst snd] in *.
  destruct (str_is_empty d) eqn:He; [done|]. change ")" with (str1 ")"). rewrite strip_char.
  destruct t2 as [|c t2]; [done|]. destruct (Ascii.eqb_spec c ")") as [->|]; [|done]. cbn [mbind option_bind].
  intros [= <- <- <-]. subst t1 t. done.
Qed.

Lemma parse_one_open s : parse_one s = match s with
  | String "(" (String c r) => if Ascii.eqb c dquote then '(name, t) ← read_name r;
      '(blanks, digits, rest) ← read_count t; Some (name, blanks, digits, rest) else None
  | _ => None
  end.
Proof.
  unfold parse_one. destruct s as [|p [|c r]]; cbn [strip_prefix str1].
  - done.
  - destruct (Ascii.eqb "(" p); by destruct p as [[] [] [] [] [] [] [] []].
  - destruct (Ascii.eqb_spec c dquote) as [->|Hc].
    + rewrite Ascii.eqb_refl. destruct (Ascii.eqb_spec "(" p) as [<-|Hp]; [done|].
      by destruct p as [[] [] [] [] [] [] [] []].
    + destruct (Ascii.eqb_spec dquote c); [congruence|].
      destruct (Ascii.eqb_spec "(" p) as [<-|Hp]; [done|]. by destruct p as [[] [] [] [] [] [] [] []].
Qed.

Lemma parse_one_Some s name blanks digits rest : parse_one s = Some (name, blanks, digits, rest) ->
  s = entry_text name blanks digits +:+ rest /\ Count blanks digits
  /\ forall digits' rest', Count blanks digits' ->
       parse_one (entry_text name blanks digits' +:+ rest') = Some (name, blanks, digits', rest').
Proof.
  unfold parse_one. destruct (strip_prefix _ s) as [r|] eqn:Hs; [|done]. apply strip_prefix_Some in Hs as ->.
  cbn [mbind option_bind]. pose proof (read_name_spec r) as Hn. destruct (read_name r) as [[n t]|]; [|done].
  destruct Hn as (-> & Hu & _). cbn [mbind option_bind].
  destruct (read_count t) as [[[b d] rest0]|] eqn:Hc; [|done]. apply read_count_Some in Hc as [-> Hc].
  cbn [mbind option_bind]. intros [= <- <- <- <-].
  assert (Htext : forall d rest, entry_text n b d +:+ rest
            = String "(" (str1 dquote) +:+ (n +:+ String dquote (String "," (b +:+ d +:+ String ")" rest)))).
  { intros d' rest'. unfold entry_text, str1.
    rewrite !str_app_cons, str_app_assoc, !str_app_cons, !str_app_assoc. done. }
  split_and!; [by rewrite Htext|done|]. intros d' rest' Hc'. rewrite Htext.
  rewrite (proj2 (strip_prefix_Some _ _ (n +:+ String dquote (String "," (b +:+ d' +:+ String ")" rest'))))) by done.
  cbn [mbind option_bind]. rewrite Hu. cbn [mbind option_bind]. by rewrite read_count_entry.
Qed.

Lemma parse_one_None c r : parse_one (String c r) = None <->
  (c = "("%char -> forall t, r = String dquote t -> closes t = false).
Proof.
  rewrite parse_one_open. destruct r as [|q t].
  - split; [intros _ _ t [=]|]. intros _. by destruct c as [[] [] [] [] [] [] [] []].
  - assert (Ht : ('(name, u) ← read_name t; '(blanks, digits, rest) ← read_count u;
                 Some (name, blanks, digits, rest)) = None <-> closes t = false).
    { pose proof (read_name_spec t) as Hn. destruct (read_name t) as [[n u]|]; [|done].
      destruct Hn as (_ & _ & ->). cbn [mbind option_bind]. rewrite countable_spec.
      by destruct (read_count u) as [[[b d] rest]|]. }
    destruct (Ascii.eqb_spec c "(") as [->|Hc].
    + destruct (Ascii.eqb_spec q dquote) as [->|Hq]; [|split; [congruence|done]].
      rewrite Ht. split; [by intros H _ t' [= <-]|]. intros H. by apply H.
    + split; [done|]. intros _. by destruct c as [[] [] [] [] [] [] [] []].
Qed.

(** What stands between the quotes of a name: no quote that no backslash precedes, and no
    backslash at the end. *)
Inductive Quoted : string -> Prop :=
| quoted_end : Quoted ""
| quoted_char c s : c <> dquote -> c <> bslash -> Quoted s -> Quoted (String c s)
| quoted_pair c s : Quoted s -> Quoted (String bslash (String c s)).

Lemma read_name_quoted s : match read_name s with Some (name, _) => Quoted name | None => True end.
Proof.
  remember (String.length s) as n eqn:Hn. revert s Hn.
  induction (Nat.lt_wf_0 n) as [n _ IH]. intros [|c s] Hn; [done|]. cbn [read_name].
  destruct (Ascii.eqb_spec c dquote) as [->|Hq]; [constructor|].
  destruct (Ascii.eqb_spec c bslash) as [->|Hb].
  - destruct s as [|e s]; [done|].
    specialize (IH (String.length s) ltac:(subst n; simpl; lia) s eq_refl).
    destruct (read_name s) as [[name t]|]; cbn [mbind option_bind]; [by constructor|done].
  - specialize (IH (String.length s) ltac:(subst n; simpl; lia) s eq_refl).
    destruct (read_name s) as [[name t]|]; cbn [mbind option_bind]; [by constructor|done].
Qed.

Lemma read_quoted name t : Quoted name -> read_name (name +:+ String dquote t) = Some (name, t).
Proof.
  induction 1 as [|c s Hq Hb _ IH|c s _ IH].
  - done.
  - change (read_name (String c (s +:+ String dquote t)) = Some (String c s, t)). cbn [read_name].
    destruct (Ascii.eqb_spec c dquote), (Ascii.eqb_spec c bslash); try done. by rewrite IH.
  - change (read_name (String bslash (String c (s +:+ String dquote t))) = Some (String bslash (String c s), t)).
    cbn [read_name]. by rewrite IH.
Qed.

(** An entry is read exactly where one stands. *)
Lemma parse_one_exact s name blanks digits rest :
  parse_one s = Some (name, blanks, digits, rest) <->
  s = entry_text name blanks digits +:+ rest /\ Quoted name /\ Count blanks digits.
Proof.
  split.
  - intros Hp. pose proof (parse_one_Some _ _ _ _ _ Hp) as (Hs & Hc & _). split_and!; [done| |done].
    unfold parse_one in Hp. destruct (strip_prefix _ s) as [r|]; [|done]. cbn [mbind option_bind] in Hp.
    pose proof (read_name_quoted r) as Hq. destruct (read_name r) as [[n t]|]; [|done]. cbn [mbind option_bind] in Hp.
    destruct (read_count t) as [[[b d] rest0]|]; [|done]. cbn [mbind option_bind] in Hp. by injection Hp as <- _ _ _.
  - intros (-> & Hq & Hc).
    assert (Htext : entry_text name blanks digits +:+ rest
      = String "(" (str1 dquote) +:+ (name +:+ String dquote (String "," (blanks +:+ digits +:+ String ")" rest)))).
    { unfold entry_text, str1. rewrite !str_app_cons, str_app_assoc, !str_app_cons, !str_app_assoc. done. }
    rewrite Htext. unfold parse_one.
    rewrite (proj2 (strip_prefix_Some _ _ (name +:+ String dquote (String "," (blanks +:+ digits +:+ String ")" rest))))) by done.
    cbn [mbind option_bind]. rewrite read_quoted by done. cbn [mbind option_bind]. by rewrite read_count_entry.
Qed.

(** *** Other numbers in the same entries *)

Inductive Same : seg -> seg -> Prop :=
| same_byte c : Same (Byte c) (Byte c)
| same_entry name blanks digits digits' : Count blanks digits' ->
    Same (Entry name blanks digits) (Entry name blanks digits').

Lemma entry_text_app name blanks digits rest : exists t,
  entry_text name blanks digits +:+ rest = String "(" (String dquote (name +:+ String dquote t)).
Proof.
  eexists. unfold entry_text. rewrite !str_app_cons, str_app_assoc, !str_app_cons. reflexivity.
Qed.

Lemma countable_quote x t t' : countable (x +:+ String dquote t) = countable (x +:+ String dquote t').
Proof.
  assert (Hd : forall any y, digs any (y +:+ String dquote t) = digs any (y +:+ String dquote t')).
  { intros any y. revert any. induction y as [|c y IH]; intros any; [done|].
    change (digs any (String c (y +:+ String dquote t)) = digs any (String c (y +:+ String dquote t'))).
    cbn [digs]. by rewrite IH. }
  assert (Hb : forall y, blank_digs (y +:+ String dquote t) = blank_digs (y +:+ String dquote t')).
  { induction y as [|c y IH]; [done|].
    change (blank_digs (String c (y +:+ String dquote t)) = blank_digs (String c (y +:+ String dquote t'))).
    cbn [blank_digs]. rewrite IH. destruct (is_ascii_whitespace c); [done|]. exact (Hd false (String c y)). }
  destruct x as [|c x]; [done|].
  change (countable (String c (x +:+ String dquote t)) = countable (String c (x +:+ String dquote t'))).
  cbn [countable]. by rewrite Hb.
Qed.

Lemma cut_render s l : Cut s l -> s = render l.
Proof.
  induction 1 as [|c r l _ _ ->|s n b d rest l Hp _ ->]; [done..|].
  by apply parse_one_Some in Hp as [-> _].
Qed.

(** Two texts cut alike: the same bytes, and in the entries perhaps other numbers. *)
Lemma digs_same l l' any : Forall2 Same l l' -> digs any (render l) = digs any (render l').
Proof.
  intros H. revert any. induction H as [|? ? l l' [c|n b d d' _] _ IH]; intros any; cbn [render seg_text]; [done| |].
  - change (digs any (String c (render l)) = digs any (String c (render l'))). cbn [digs]. by rewrite !IH.
  - by destruct (entry_text_app n b d (render l)) as [? ->], (entry_text_app n b d' (render l')) as [? ->].
Qed.

Lemma blank_digs_same l l' : Forall2 Same l l' -> blank_digs (render l) = blank_digs (render l').
Proof.
  induction 1 as [|? ? l l' [c|n b d d' _] H IH]; cbn [render seg_text]; [done| |].
  - change (blank_digs (String c (render l)) = blank_digs (String c (render l'))). cbn [blank_digs].
    rewrite IH. destruct (is_ascii_whitespace c); [done|]. cbn [digs]. by rewrite !(digs_same l l').
  - by destruct (entry_text_app n b d (render l)) as [? ->], (entry_text_app n b d' (render l')) as [? ->].
Qed.

Lemma countable_same l l' : Forall2 Same l l' -> countable (render l) = countable (render l').
Proof.
  intros [|? ? m m' [c|n b d d' _] H]; cbn [render seg_text]; [done| |].
  - change (countable (String c (render m)) = countable (String c (render m'))). cbn [countable].
    by rewrite (blank_digs_same m m').
  - by destruct (entry_text_app n b d (render m)) as [? ->], (entry_text_app n b d' (render m')) as [? ->].
Qed.

(** Inside an entry, once its name has begun, the next quote decides. *)
Lemma closes_entry name blanks digits digits' m m' :
  closes (entry_text name blanks digits +:+ render m) = closes (entry_text name blanks digits' +:+ render m')
  /\ forall t t', entry_text name blanks digits +:+ render m = String "(" t ->
       entry_text name blanks digits' +:+ render m' = String "(" t' -> closes t = closes t'.
Proof.
  destruct (entry_text_app name blanks digits (render m)) as [t ->],
    (entry_text_app name blanks digits' (render m')) as [t' ->].
  assert (H : closes (String dquote (name +:+ String dquote t)) = closes (String dquote (name +:+ String dquote t'))).
  { cbn [closes]. rewrite Ascii.eqb_refl. apply countable_quote. }
  split; [exact H|]. by intros ? ? [= <-] [= <-].
Qed.

Lemma closes_same l l' : Forall2 Same l l' -> closes (render l) = closes (render l').
Proof.
  remember (length l) as n eqn:Hn. revert l l' Hn. induction (Nat.lt_wf_0 n) as [n _ IH].
  intros l l' Hn Hs. revert Hn.
  destruct Hs as [|? ? m m' [c|name b d d' _] H]; intros Hn; cbn [render seg_text]; [done| |apply closes_entry].
  change (closes (String c (render m)) = closes (String c (render m'))). cbn [closes].
  rewrite (countable_same m m') by done. simpl in Hn.
  destruct (Ascii.eqb c dquote); [done|]. destruct (Ascii.eqb c bslash).
  - revert Hn. destruct H as [|? ? k k' [e|name b d d' _] H]; intros Hn; cbn [render seg_text]; [done| |].
    + change (closes (render k) = closes (render k')). eapply (IH (length k)); [simpl in Hn; lia|done..].
    + pose proof (proj2 (closes_entry name b d d' k k')) as He.
      destruct (entry_text_app name b d (render k)) as [? Ht], (entry_text_app name b d' (render k')) as [? Ht'].
      rewrite Ht, Ht' in *. by apply He.
  - by eapply (IH (length m)); [lia|done|].
Qed.

(** The cut of a text does not depend on the numbers of its entries. *)
Lemma cut_same s l l' : Cut s l -> Forall2 Same l l' -> Cut (render l') l'.
Proof.
  intros Hc. revert l'. induction Hc as [|c r l Hp Hc IH|s n b d rest l Hp Hc IH]; intros k Hs.
  - apply Forall2_nil_inv_l in Hs as ->. constructor.
  - apply Forall2_cons_inv_l in Hs as (x & l' & Hx & Hs & ->). inversion Hx; subst. cbn [render seg_text].
    apply (cut_byte c (render l')); [|by apply IH]. rewrite parse_one_None in Hp |- *.
    intros -> t Ht. specialize (Hp eq_refl). destruct Hc as [|q r l Hp' Hc|s n b d rest l Hp' Hc].
    + apply Forall2_nil_inv_l in Hs as ->. done.
    + apply Forall2_cons_inv_l in Hs as (x & l2 & Hx2 & Hs & ->). inversion Hx2; subst.
      cbn [render seg_text] in Ht. change (String q (render l2) = String dquote t) in Ht.
      injection Ht as -> <-. specialize (Hp r eq_refl). apply cut_render in Hc as ->.
      by rewrite <- (closes_same l l2).
    + apply Forall2_cons_inv_l in Hs as (x & l2 & Hx2 & Hs & ->). inversion Hx2; subst.
      cbn [render seg_text] in Ht. by destruct (entry_text_app n b digits' (render l2)) as [? He]; rewrite He in Ht.
  - apply Forall2_cons_inv_l in Hs as (x & l' & Hx & Hs & ->). inversion Hx; subst. cbn [render seg_text].
    apply parse_one_Some in Hp as (_ & _ & Hp). eapply cut_entry; [by apply Hp|]. by apply IH.
Qed.

Lemma cut_exists s : exists l, Cut s l.
Proof.
  remember (String.length s) as n eqn:Hn. revert s Hn. induction (Nat.lt_wf_0 n) as [n _ IH]. intros [|c r] Hn.
  { exists []. constructor. }
  destruct (parse_one (String c r)) as [[[[name b] d] rest]|] eqn:Hp.
  - pose proof Hp as (Hs & _)%parse_one_Some. assert (String.length rest < n).
    { rewrite Hn, Hs. rewrite str_length_app. unfold entry_text. simpl. lia. }
    destruct (IH (String.length rest) ltac:(done) rest eq_refl) as [l Hl]. eexists. by eapply cut_entry.
  - destruct (IH (String.length r) ltac:(subst n; simpl; lia) r eq_refl) as [l Hl]. eexists. by apply cut_byte.
Qed.

(** ** The scan finds the entries *)

Fixpoint entries (i : nat) (l : list seg) : list (Pin * (nat * nat)) :=
  match l with
  | [] => []
  | Byte _ :: l => entries (S i) l
  | Entry name blanks digits :: l =>
      let num_at := i + 2 + String.length name + 2 + String.length blanks in
      let num_end := num_at + String.length digits in
      ({| pin_name := name; pin_value := default 0%Z (parse_u64 digits) |}, (num_at, num_end))
        :: entries (S num_end) l
  end.

Lemma scan_cut s l fuel i : Cut s l -> String.length s <= fuel -> scan fuel i s = entries i l.
Proof.
  intros Hc. revert fuel i. induction Hc as [|c r l Hp Hc IH|s n b d rest l Hp Hc IH]; intros fuel i Hf.
  - by destruct fuel.
  - destruct fuel as [|fuel]; [simpl in Hf; lia|]. cbn [scan]. rewrite Hp. cbn [entries]. apply IH. simpl in Hf. lia.
  - pose proof Hp as (Hs & _)%parse_one_Some.
    assert (String.length s = String.length (entry_text n b d) + String.length rest) as Hl
      by (rewrite Hs; by rewrite str_length_app).
    unfold entry_text in Hl. simpl in Hl. destruct fuel as [|fuel]; [lia|].
    destruct s as [|c r]; [simpl in Hl; lia|]. cbn [scan]. rewrite Hp. cbn [entries]. f_equal. apply IH. simpl in *. lia.
Qed.

Lemma parse_pins_cut text l : Cut text l ->
  parse_pins text = {| pins := (entries 0 l).*1; spans := (entries 0 l).*2 |}.
Proof. intros Hc. unfold parse_pins. by rewrite (scan_cut text l) by done. Qed.

Lemma entries_names l l' i j : Forall2 Same l l' -> pin_name <$> (entries i l).*1 = pin_name <$> (entries j l').*1.
Proof.
  intros H. revert i j. induction H as [|? ? l l' [c|n b d d' _] H IH]; intros i j; cbn [entries]; [done|apply IH|].
  csimpl. f_equal. apply IH.
Qed.

(** ** Putting numbers in their places *)

(** The texts [new] put in the places of the numbers, [None] to keep one. *)
Fixpoint put (new : list (option string)) (l : list seg) : list seg :=
  match l with
  | [] => []
  | Byte c :: l => Byte c :: put new l
  | Entry name blanks digits :: l =>
      match new with
      | [] => Entry name blanks digits :: l
      | x :: new => Entry name blanks (default digits x) :: put new l
      end
  end.

Definition replace_at (x : option string * (nat * nat)) (out : string) : string :=
  match x.1 with Some digits => replace_range x.2 digits out | None => out end.

Lemma str_take_app n a b : n = String.length a -> str_take n (a +:+ b) = a.
Proof. intros ->. induction a as [|c a IH]; [by destruct b|]. exact (f_equal (String c) IH). Qed.

Lemma str_drop_app n a b : n = String.length a -> str_drop n (a +:+ b) = b.
Proof. intros ->. induction a as [|c a IH]; [by destruct b|]. exact IH. Qed.

(** Replacing from the last place to the first puts each number in its own place. *)
Lemma replace_put pre l new :
  foldr replace_at (pre +:+ render l) (zip new (entries (String.length pre) l).*2) = pre +:+ render (put new l).
Proof.
  revert pre new. induction l as [|[c|name blanks digits] l IH]; intros pre new.
  - by destruct new.
  - cbn [entries put render seg_text]. specialize (IH (pre +:+ str1 c) new).
    rewrite str_length_app in IH. simpl in IH. rewrite Nat.add_1_r, !str_app_assoc in IH. exact IH.
  - destruct new as [|x new]; [done|]. cbn [entries put render seg_text]. csimpl.
    specialize (IH (pre +:+ entry_text name blanks digits) new). rewrite str_length_app, !str_app_assoc in IH.
    assert (Hlen : S (String.length pre + 2 + String.length name + 2 + String.length blanks + String.length digits)
              = String.length pre + String.length (entry_text name blanks digits)).
    { unfold entry_text. simpl. rewrite str_length_app. simpl. rewrite !str_length_app. simpl. lia. }
    rewrite Hlen, IH. clear. destruct x as [digits'|]; [|done]. unfold replace_at, replace_range. cbn [fst snd default].
    set (front := pre +:+ String "(" (String dquote (name +:+ String dquote (String "," blanks)))).
    assert (Hfront : forall d, pre +:+ (entry_text name blanks d +:+ render (put new l))
              = front +:+ (d +:+ (String ")" (render (put new l))))).
    { intros d. unfold front, entry_text. rewrite !str_app_assoc, !str_app_cons, !str_app_assoc, !str_app_cons,
        !str_app_assoc. done. }
    assert (Hf : String.length front = String.length pre + 2 + String.length name + 2 + String.length blanks).
    { unfold front. rewrite str_length_app. simpl. rewrite str_length_app. simpl. lia. }
    rewrite !Hfront. rewrite str_take_app by lia. f_equal. f_equal.
    rewrite <- str_app_assoc. apply str_drop_app. rewrite str_length_app. lia.
Qed.

Lemma put_same new l : Cut (render l) l -> (forall d, Some d ∈ new -> Count "" d) -> Forall2 Same l (put new l).
Proof.
  intros Hc Hnew. remember (render l) as s eqn:Hs. clear Hs. revert new Hnew.
  induction Hc as [|c r l Hp Hc IH|s n b d rest l Hp Hc IH]; intros new Hnew; cbn [put]; [done| |].
  - constructor; [constructor|by apply IH].
  - apply parse_one_Some in Hp as (_ & Hcount & _).
    assert (Hall : Forall2 Same l l).
    { specialize (IH [] ltac:(by intros ? ?%not_elem_of_nil)).
      assert (Hn : forall l, put [] l = l) by (induction l0 as [|[] ? IHl]; simpl; by rewrite ?IHl).
      by rewrite Hn in IH. }
    destruct new as [|x new]; [by constructor; [constructor|]|]. constructor.
    + constructor. destruct x as [d'|]; [|done]. destruct (Hnew d') as (_ & Hd & He); [by left|].
      destruct Hcount as (Hb & _). done.
    + apply IH. intros d' Hd'. apply Hnew. by right.
Qed.

(** ** Rewriting *)

(** A text without the numbers of its entries. *)
Definition numbers_removed (text : string) : string :=
  foldr (fun span out => replace_range span "" out) text (spans (parse_pins text)).

Definition in_u64 (v : gmap Key Z) : Prop := forall k x, v !! k = Some x -> (0 <= x < 2 ^ 64)%Z.

Definition number_of (v : gmap Key Z) (k : Key) : option string := pretty <$> v !! k.

Lemma pretty_count x : (0 <= x)%Z -> Count "" (pretty x).
Proof. intros (Hd & _ & He)%pretty_nonneg. done. Qed.

Lemma parse_u64_pretty x : (0 <= x < 2 ^ 64)%Z -> parse_u64 (pretty x) = Some x.
Proof.
  intros Hx. destruct (pretty_nonneg x) as (Hd & Hv & He); [lia|]. unfold parse_u64.
  assert (Hp : strip_prefix "+" (pretty x) = None).
  { destruct (pretty x) as [|c t]; [done|]. cbn [str_forallb] in Hd. apply andb_true_iff in Hd as [Hc _].
    change "+" with (str1 "+"). rewrite strip_char. destruct (Ascii.eqb_spec c "+") as [->|]; done. }
  rewrite Hp. cbn [default]. rewrite He, Hv. cbn [mbind option_bind]. rewrite decide_True; [done|lia].
Qed.

Lemma foldr_zip_keys v ks sp text :
  foldr (fun x out => match v !! x.1 with Some value => replace_range x.2 (pretty value) out | None => out end)
    text (zip ks sp)
  = foldr replace_at text (zip (number_of v <$> ks) sp).
Proof.
  revert sp. induction ks as [|k ks IH]; intros [|x sp]; [done..|]. csimpl. rewrite IH. unfold replace_at. simpl.
  unfold number_of. by destruct (v !! k).
Qed.

Lemma rewrite_pins_put text v l : Cut text l ->
  rewrite_pins text v = render (put (number_of v <$> keys (entries 0 l).*1) l).
Proof.
  intros Hc. unfold rewrite_pins. rewrite (parse_pins_cut text l) by done. cbn [pins spans].
  rewrite foldr_zip_keys. pose proof (replace_put "" l (number_of v <$> keys (entries 0 l).*1)) as Hr.
  rewrite (cut_render text l) by done. exact Hr.
Qed.

Lemma numbers_removed_put text l : Cut text l ->
  numbers_removed text = render (put ((fun _ => Some "") <$> entries 0 l) l).
Proof.
  intros Hc. unfold numbers_removed. rewrite (parse_pins_cut text l) by done. cbn [spans].
  pose proof (replace_put "" l ((fun _ => Some "") <$> entries 0 l)) as Hr. rewrite (cut_render text l) by done.
  etransitivity; [|exact Hr]. change ("" +:+ render l) with (render l). simpl String.length.
  generalize (render l). generalize (entries 0 l). clear. intros es s.
  induction es as [|e es IH]; [done|]. csimpl. by rewrite IH.
Qed.

Fixpoint entry_count (l : list seg) : nat :=
  match l with [] => 0 | Byte _ :: l => entry_count l | Entry _ _ _ :: l => S (entry_count l) end.

Lemma entries_length i l : length (entries i l) = entry_count l.
Proof. revert i. induction l as [|[c|n b d] l IH]; intros i; simpl; by rewrite ?IH. Qed.

Lemma put_put l new new' : length new = entry_count l -> length new' = entry_count l ->
  (forall x, x ∈ new' -> is_Some x) -> put new' (put new l) = put new' l.
Proof.
  revert new new'. induction l as [|[c|n b d] l IH]; intros new new' H1 H2 Hsome; [done| |].
  - simpl in *. f_equal. by apply IH.
  - destruct new as [|x new]; [done|]. destruct new' as [|y new']; [done|]. cbn [put].
    destruct (Hsome y) as [z ->]; [by left|]. f_equal. simpl in *. apply IH; [lia|lia|].
    intros u Hu. apply Hsome. by right.
Qed.

Lemma entry_count_put new l : entry_count (put new l) = entry_count l.
Proof.
  revert new. induction l as [|[c|n b d] l IH]; intros new; simpl; [done|apply IH|].
  destruct new; simpl; [done|]. by rewrite IH.
Qed.

Lemma put_values v l ks i j : in_u64 v -> length ks = entry_count l ->
  pin_value <$> (entries j (put (number_of v <$> ks) l)).*1
  = zip_with (fun k old => default old (v !! k)) ks (pin_value <$> (entries i l).*1).
Proof.
  intros Hv. revert ks i j. induction l as [|[c|n b d] l IH]; intros ks i j Hk; cbn [put entries].
  - by destruct ks.
  - by apply IH.
  - destruct ks as [|k ks]; [done|]. csimpl. simpl in Hk. f_equal; [|apply IH; lia].
    unfold number_of. destruct (v !! k) as [x|] eqn:Hx; [|done]. simpl. by rewrite (parse_u64_pretty x (Hv k x Hx)).
Qed.

Lemma keys_from_names seen l l' : pin_name <$> l = pin_name <$> l' -> keys_from seen l = keys_from seen l'.
Proof.
  revert seen l'. induction l as [|p l IH]; intros seen [|p' l']; csimpl; [done..|]. intros [= Hp Hl].
  cbn [keys_from]. by rewrite Hp, (IH _ l').
Qed.

Lemma keys_length l : length (keys l) = length l.
Proof.
  unfold keys. generalize (∅ : gmap string nat). induction l as [|p l IH]; intros seen; [done|].
  cbn [keys_from length]. by rewrite IH.
Qed.

(** What a rewritten text reads as. *)
Lemma rewrite_pins_spec text v : in_u64 v ->
  let P := pins (parse_pins text) in
  let P' := pins (parse_pins (rewrite_pins text v)) in
  pin_name <$> P' = pin_name <$> P
  /\ pin_value <$> P' = zip_with (fun k old => default old (v !! k)) (keys P) (pin_value <$> P)
  /\ numbers_removed (rewrite_pins text v) = numbers_removed text.
Proof.
  intros Hv. destruct (cut_exists text) as [l Hl]. rewrite (rewrite_pins_put text v l Hl).
  set (new := number_of v <$> keys (entries 0 l).*1).
  assert (Hsame : Forall2 Same l (put new l)).
  { apply put_same; [by rewrite <- (cut_render text l)|]. intros d (k & Hk & _)%list_elem_of_fmap.
    unfold number_of in Hk. destruct (v !! k) as [x|] eqn:Hx; [|done]. simpl in Hk. simplify_eq/=.
    apply pretty_count. by apply (Hv k x) in Hx as [? _]. }
  assert (Hnew : length new = entry_count l).
  { unfold new. by rewrite length_fmap, keys_length, length_fmap, entries_length. }
  pose proof (cut_same text l (put new l) Hl Hsame) as Hl'.
  rewrite (parse_pins_cut text l Hl), (parse_pins_cut _ _ Hl'). cbn [pins]. split_and!.
  - symmetry. by apply entries_names.
  - apply put_values; [done|]. by rewrite keys_length, length_fmap, entries_length.
  - rewrite (numbers_removed_put text l Hl), (numbers_removed_put _ _ Hl'). f_equal.
    assert (Hr : forall i k, (fun _ => Some "") <$> entries i k = replicate (entry_count k) (Some "")).
    { intros i k. rewrite <- (entries_length i k). generalize (entries i k). intros es.
      induction es as [|e es IH]; [done|]. csimpl. by rewrite IH. }
    rewrite !Hr, entry_count_put. apply put_put; [done|by rewrite length_replicate|].
    intros x [-> _]%elem_of_replicate. done.
Qed.

Lemma map_collect_zip_with (g : Key -> Z -> Z) (ks : list Key) (vs : list Z) k :
  map_collect (zip ks (zip_with g ks vs)) !! k = g k <$> (map_collect (zip ks vs) : gmap Key Z) !! k.
Proof.
  unfold map_collect.
  assert (H : forall m m' : gmap Key Z, m' !! k = g k <$> m !! k ->
    foldl (fun m p => <[p.1 := p.2]> m) m' (zip ks (zip_with g ks vs)) !! k
    = g k <$> foldl (fun m p => <[p.1 := p.2]> m) m (zip ks vs) !! k); [|by apply H; rewrite !lookup_empty].
  revert vs. induction ks as [|x ks IH]; intros [|y vs] m m' Hm; csimpl; [done..|]. apply IH.
  destruct (decide (x = k)) as [->|]; [by rewrite !lookup_insert_eq|by rewrite !lookup_insert_ne].
Qed.

Lemma values_rewritten text v k : in_u64 v ->
  values (Some (rewrite_pins text v)) !! k = (fun old => default old (v !! k)) <$> values (Some text) !! k.
Proof.
  intros Hv. destruct (rewrite_pins_spec text v Hv) as (Hn & Hz & _). unfold values, by_key.
  rewrite Hz. unfold keys at 1. rewrite (keys_from_names _ _ _ Hn). apply (map_collect_zip_with (fun k old => default old (v !! k))).
Qed.

(** ** What deltas add up to *)

(** The counts of the occurrences of a name, in file order. *)
Definition counts (name : string) (l : list Pin) : list Z :=
  pin_value <$> List.filter (fun pin => (pin_name pin =? name)%string) l.

(** Collecting the pins of [l] after [seen ! name] occurrences of a name. *)
Definition collect_from (seen : gmap string nat) (l : list Pin) (m : gmap Key Z) : gmap Key Z :=
  foldl (fun m p => <[p.1 := p.2]> m) m (zip (keys_from seen l) (pin_value <$> l)).

Lemma collect_from_behind l seen m name i : i < default 0 (seen !! name) ->
  collect_from seen l m !! (name, i) = m !! (name, i).
Proof.
  unfold collect_from. revert seen m. induction l as [|q l IH]; intros seen m Hi; [done|].
  csimpl. cbn [keys_from zip foldl]. rewrite IH.
  - apply lookup_insert_ne. intros [= Hq Hj]. subst name i. simpl in Hi. lia.
  - destruct (decide (pin_name q = name)) as [Hq|Hq].
    + subst name. rewrite lookup_insert_eq. simpl. lia.
    + by rewrite lookup_insert_ne.
Qed.

Lemma collect_from_lookup l seen m name j :
  collect_from seen l m !! (name, default 0 (seen !! name) + j)
  = match counts name l !! j with Some x => Some x | None => m !! (name, default 0 (seen !! name) + j) end.
Proof.
  revert seen m j. induction l as [|p l IH]; intros seen m j; [done|].
  set (seen' := <[pin_name p := S (default 0 (seen !! pin_name p))]> seen).
  set (m' := <[(pin_name p, default 0 (seen !! pin_name p)) := pin_value p]> m).
  change (collect_from seen (p :: l) m) with (collect_from seen' l m').
  specialize (IH seen' m'). unfold counts. cbn [List.filter].
  destruct (String.eqb_spec (pin_name p) name) as [Hn|Hn].
  - subst name. assert (Hs : default 0 (seen' !! pin_name p) = S (default 0 (seen !! pin_name p))).
    { unfold seen'. by rewrite lookup_insert_eq. }
    destruct j as [|j].
    + rewrite Nat.add_0_r, collect_from_behind by lia. unfold m'. by rewrite lookup_insert_eq.
    + specialize (IH j). rewrite Hs, Nat.add_succ_l in IH. rewrite Nat.add_succ_r, IH. csimpl. unfold counts.
      destruct (_ !! j); [done|]. unfold m'. apply lookup_insert_ne. intros [= Hi]. lia.
  - assert (Hs : seen' !! name = seen !! name) by (unfold seen'; by rewrite lookup_insert_ne).
    specialize (IH j). rewrite Hs in IH. rewrite IH. unfold counts. destruct (_ !! j); [done|].
    unfold m'. apply lookup_insert_ne. congruence.
Qed.

Lemma by_key_lookup l name i : by_key l !! (name, i) = counts name l !! i.
Proof.
  pose proof (collect_from_lookup l ∅ ∅ name i) as H. rewrite !lookup_empty in H. simpl in H.
  etransitivity; [exact H|]. by case_match.
Qed.

Lemma count_of_counts name l : count_of name l = length (counts name l).
Proof. unfold count_of, counts. by rewrite length_fmap. Qed.

Lemma occurrences_counts name l : occurrences (by_key l) name (count_of name l) = counts name l.
Proof.
  apply list_eq. intros i. unfold occurrences. rewrite list_lookup_fmap, count_of_counts.
  destruct (decide (i < length (counts name l))) as [Hi|Hi].
  - rewrite lookup_seq_lt by done. simpl. rewrite by_key_lookup.
    by destruct (lookup_lt_is_Some_2 _ _ Hi) as [x ->].
  - rewrite lookup_seq_ge by lia. simpl. symmetry. apply lookup_ge_None. lia.
Qed.

Lemma i64_wrap_eq a b : (a mod 2 ^ 64 = b mod 2 ^ 64)%Z -> i64_wrap a = i64_wrap b.
Proof.
  intros H. unfold i64_wrap. f_equal.
  rewrite <- (Z.add_mod_idemp_l a), <- (Z.add_mod_idemp_l b) by lia. by rewrite H.
Qed.

Lemma i64_wrap_mod a : (i64_wrap a mod 2 ^ 64 = a mod 2 ^ 64)%Z.
Proof.
  unfold i64_wrap. rewrite Zminus_mod_idemp_l. f_equal. lia.
Qed.

Lemma i64_wrap_add a b : i64_wrap (i64_wrap a + b) = i64_wrap (a + b).
Proof.
  apply i64_wrap_eq. rewrite <- (Z.add_mod_idemp_l (i64_wrap a)) by lia. rewrite i64_wrap_mod.
  by rewrite Z.add_mod_idemp_l by lia.
Qed.

Definition add_one (x : option Z) (d : option Z) : option Z :=
  match d with Some d => Some (i64_wrap (default 0%Z x + d)) | None => x end.

Lemma add_delta_lookup m delta k : add_delta m delta !! k = add_one (m !! k) (delta !! k).
Proof.
  unfold add_delta.
  assert (H : forall (l : list (Key * Z)) (m : gmap Key Z), NoDup l.*1 ->
    foldl (fun m x => <[x.1 := i64_wrap (default 0%Z (m !! x.1) + x.2)]> m) m l !! k
    = add_one (m !! k) ((list_to_map l : gmap Key Z) !! k)).
  { clear m delta. induction l as [|[k' x] l IH]; intros m Hnd; [done|]. csimpl in *.
    apply NoDup_cons in Hnd as [Hk Hnd]. rewrite IH by done. destruct (decide (k' = k)) as [->|Hne].
    - rewrite lookup_insert_eq, lookup_insert_eq, not_elem_of_list_to_map_1 by done. done.
    - by rewrite !lookup_insert_ne. }
  rewrite H; [f_equal|apply btree_keys_NoDup].
  destruct (delta !! k) as [x|] eqn:Hx.
  - apply elem_of_list_to_map_1; [apply btree_keys_NoDup|]. by apply elem_of_btree_iter.
  - apply not_elem_of_list_to_map_1. intros ([k' x] & -> & Hin)%list_elem_of_fmap.
    apply elem_of_btree_iter in Hin. simpl in Hx. congruence.
Qed.

Lemma add_delta_comm m d d' : add_delta (add_delta m d) d' = add_delta (add_delta m d') d.
Proof.
  apply map_eq. intros k. rewrite !add_delta_lookup. destruct (m !! k), (d !! k), (d' !! k); simpl; try done;
    by rewrite !i64_wrap_add, <- !Z.add_assoc, (Z.add_comm z0) || by rewrite !i64_wrap_add, !Z.add_0_l, Z.add_comm.
Qed.

Lemma candidate_values_perm l ds ds' : ds ≡ₚ ds' -> candidate_values l ds = candidate_values l ds'.
Proof.
  intros H. unfold candidate_values. f_equal. generalize (as_i64 <$> by_key l). induction H; intros m; simpl; auto.
  - by rewrite add_delta_comm.
  - by rewrite IHPermutation1.
Qed.

(** *** A change on its own *)

Definition difference (x y : Z) : Z := i64_wrap (as_i64 y - as_i64 x).

Definition changed_step (name : string) (deltas : gmap Key Z) (x : nat * (Z * Z)) : gmap Key Z :=
  if (difference x.2.1 x.2.2 =? 0)%Z then deltas else <[(name, x.1) := difference x.2.1 x.2.2]> deltas.

Definition introduced_step (name : string) (deltas : gmap Key Z) (x : nat * Z) : gmap Key Z :=
  <[(name, x.1) := as_i64 x.2]> deltas.

(** A fold that may write occurrence [a] of one name at its [a]-th step, and nothing else. *)
Section numbered.
Context {A : Type} (step : gmap Key Z -> nat * A -> gmap Key Z) (name : string).
Context (step_other : forall m a x k, k <> (name, a) -> step m (a, x) !! k = m !! k).

Lemma numbered_before l a m name' i : i < a ->
  foldl step m (zip (seq a (length l)) l) !! (name', i) = m !! (name', i).
Proof.
  revert a m. induction l as [|x l IH]; intros a m Hi; [done|].
  change (foldl step (step m (a, x)) (zip (seq (S a) (length l)) l) !! (name', i) = m !! (name', i)).
  rewrite IH by lia. apply step_other. intros [= _ Hj]. lia.
Qed.

Lemma numbered_lookup l a m name' i :
  exists m', m' !! (name', a + i) = m !! (name', a + i) /\
    foldl step m (zip (seq a (length l)) l) !! (name', a + i)
    = match l !! i with Some x => step m' (a + i, x) !! (name', a + i) | None => m !! (name', a + i) end.
Proof.
  revert a i m. induction l as [|x l IH]; intros a i m; [by exists m|].
  change (exists m', m' !! (name', a + i) = m !! (name', a + i) /\
    foldl step (step m (a, x)) (zip (seq (S a) (length l)) l) !! (name', a + i)
    = match (x :: l) !! i with Some x => step m' (a + i, x) !! (name', a + i) | None => m !! (name', a + i) end).
  destruct i as [|i].
  - exists m. split; [done|]. rewrite Nat.add_0_r, numbered_before by lia. done.
  - destruct (IH (S a) i (step m (a, x))) as (m' & Hm & Hf). rewrite Nat.add_succ_r. rewrite Nat.add_succ_l in *.
    assert (Hx : step m (a, x) !! (name', S (a + i)) = m !! (name', S (a + i))).
    { apply step_other. intros [= _ Hj]. lia. }
    rewrite Hx in *. by exists m'.
Qed.
End numbered.

Lemma changed_step_other name m a x k : k <> (name, a) -> changed_step name m (a, x) !! k = m !! k.
Proof. intros Hk. unfold changed_step. case_match; [done|]. by rewrite lookup_insert_ne. Qed.

Lemma introduced_step_other name m a x k : k <> (name, a) -> introduced_step name m (a, x) !! k = m !! k.
Proof. intros Hk. unfold introduced_step. by rewrite lookup_insert_ne. Qed.

Lemma changed_deltas_lookup name mb head acc name' i : length mb = length head ->
  changed_deltas name mb head acc !! (name', i)
  = match mb !! i, head !! i with
    | Some x, Some y =>
        if bool_decide (name' = name) && negb (difference x y =? 0)%Z then Some (difference x y) else acc !! (name', i)
    | _, _ => acc !! (name', i)
    end.
Proof.
  intros Hl. assert (changed_deltas name mb head acc
    = foldl (changed_step name) acc (zip (seq 0 (length (zip mb head))) (zip mb head))) as ->.
  { unfold changed_deltas. rewrite length_zip_with, <- Hl, Nat.min_id. generalize (zip (seq 0 (length mb)) (zip mb head)).
    clear. intros l. revert acc. induction l as [|[a [x y]] l IH]; intros acc; [done|]. apply IH. }
  destruct (numbered_lookup (changed_step name) name (changed_step_other name) (zip mb head) 0 acc name' i)
    as (m & Hm & Hf). simpl in Hm, Hf. rewrite Hf.
  destruct (zip mb head !! i) as [[x y]|] eqn:Hz.
  - apply lookup_zip_with_Some in Hz as (? & ? & [= <- <-] & -> & ->). unfold changed_step. cbn [fst snd].
    destruct (difference x y =? 0)%Z; [by rewrite andb_false_r|]. rewrite andb_true_r. case_bool_decide as Hn.
    + subst. by rewrite lookup_insert_eq.
    + rewrite lookup_insert_ne; congruence.
  - apply lookup_zip_with_None in Hz as [-> | ->]; [done|]. by case_match.
Qed.

Lemma introduced_deltas_lookup name head acc name' i :
  introduced_deltas name head acc !! (name', i)
  = match head !! i with
    | Some y => if bool_decide (name' = name) then Some (as_i64 y) else acc !! (name', i)
    | None => acc !! (name', i)
    end.
Proof.
  destruct (numbered_lookup (introduced_step name) name (introduced_step_other name) head 0 acc name' i)
    as (m & Hm & Hf). simpl in Hm, Hf.
  change (introduced_deltas name head acc) with (foldl (introduced_step name) acc (zip (seq 0 (length head)) head)).
  rewrite Hf. destruct (head !! i) as [y|]; [|done]. unfold introduced_step. simpl. case_bool_decide as Hn.
  + subst. by rewrite lookup_insert_eq.
  + rewrite lookup_insert_ne; congruence.
Qed.

(** The counts of a file that an [i64] can hold. *)
Definition small (l : list Pin) : Prop := forall pin, pin ∈ l -> (0 <= pin_value pin <= i64_max)%Z.

Lemma small_counts name l i x : small l -> counts name l !! i = Some x -> (0 <= x <= i64_max)%Z.
Proof.
  intros Hs Hx%list_elem_of_lookup_2. unfold counts in Hx. apply list_elem_of_fmap in Hx as (pin & -> & Hin).
  rewrite list_elem_of_In, filter_In, <- list_elem_of_In in Hin. apply Hs, Hin.
Qed.

(** What became of a count: nothing, a difference, or a count of its own where there was none. *)
Definition displaced (x y : option Z) : option Z :=
  match x, y with
  | Some x, Some y => if decide (x = y) then None else Some (y - x)%Z
  | None, y => y
  | Some _, None => None
  end.

(** A change that alters a pin must find it as often in all three files, or nowhere before. *)
Definition Mismatch (B mb hd : list Pin) (name : string) : Prop :=
  counts name mb <> counts name hd
  /\ ~ (length (counts name B) = length (counts name mb) /\ length (counts name mb) = length (counts name hd))
  /\ ~ (counts name B = [] /\ counts name mb = []).

Lemma moved_difference x y : (0 <= x <= i64_max)%Z -> (0 <= y <= i64_max)%Z ->
  displaced (Some x) (Some y) = if (difference x y =? 0)%Z then None else Some (difference x y).
Proof.
  intros Hx Hy. unfold difference, as_i64. rewrite (i64_wrap_id x), (i64_wrap_id y), (i64_wrap_id (y - x))
    by (unfold in_i64, i64_min, i64_max in *; lia).
  simpl. destruct (Z.eqb_spec (y - x) 0), (decide (x = y)); done || lia.
Qed.

Lemma moved_same l i : displaced ((l : list Z) !! i) (l !! i) = None.
Proof. destruct (l !! i); simpl; [by rewrite decide_True|done]. Qed.

Lemma as_i64_small z : (0 <= z <= i64_max)%Z -> as_i64 z = z.
Proof. intros Hz. unfold as_i64. apply i64_wrap_id. unfold in_i64, i64_min, i64_max in *. lia. Qed.

Lemma name_delta_spec `{StrDebug} B mb hd name acc : small mb -> small hd -> (forall i, acc !! (name, i) = None) ->
  match name_delta B mb hd name acc with
  | Ok acc' => ~ Mismatch B mb hd name
      /\ (forall i, acc' !! (name, i) = displaced (counts name mb !! i) (counts name hd !! i))
      /\ forall name' i, name' <> name -> acc' !! (name', i) = acc !! (name', i)
  | Err _ => Mismatch B mb hd name
  end.
Proof.
  intros Hm Hh Hacc. unfold name_delta, Mismatch. rewrite !occurrences_counts, !count_of_counts.
  destruct (_ && bool_decide _) eqn:H1.
  { rewrite andb_true_iff, bool_decide_eq_true in H1. destruct H1 as [_ He]. rewrite He. split_and!; [naive_solver| |done].
    intros i. by rewrite Hacc, moved_same. }
  assert (Hne : counts name mb <> counts name hd).
  { intros He. by rewrite He, Nat.eqb_refl, bool_decide_true in H1. }
  destruct (_ && (length (counts name mb) =? length (counts name hd))) eqn:H2.
  { rewrite andb_true_iff, !Nat.eqb_eq in H2. split_and!; [naive_solver| |]; intros; rewrite changed_deltas_lookup by lia.
    - rewrite bool_decide_true by done. cbn [andb]. destruct (counts name mb !! i) as [x|] eqn:Hx.
      + destruct (lookup_lt_is_Some_2 (counts name hd) i) as [y Hy]; [rewrite <- (proj2 H2); by eapply lookup_lt_Some|].
        rewrite Hy, Hacc, moved_difference
          by (exact (small_counts name mb i x Hm Hx) || exact (small_counts name hd i y Hh Hy)).
        by destruct (difference x y =? 0)%Z.
      + apply lookup_ge_None in Hx. rewrite Hacc. by rewrite (lookup_ge_None_2 (counts name hd)) by lia.
    - rewrite bool_decide_false by done. cbn [andb]. by repeat case_match. }
  rewrite andb_false_iff, !Nat.eqb_neq in H2.
  clear H1. destruct (_ && _) eqn:H3.
  - rewrite andb_true_iff, !Nat.eqb_eq in H3. destruct H3 as [HB%nil_length_inv Hz%nil_length_inv].
    split_and!; [naive_solver| |]; intros; rewrite introduced_deltas_lookup.
    + rewrite bool_decide_true by done. rewrite Hz, lookup_nil. destruct (counts name hd !! i) as [y|] eqn:Hy; [|done].
      simpl. by rewrite as_i64_small by exact (small_counts name hd i y Hh Hy).
    + rewrite bool_decide_false by done. by case_match.
  - rewrite andb_false_iff, !Nat.eqb_neq in H3. split_and!; [done|lia|].
    intros [HB HM]. rewrite HB, HM in H3. simpl in H3. lia.
Qed.

Lemma all_deltas_spec `{StrDebug} B mb hd names acc : small mb -> small hd -> NoDup names ->
  (forall name i, name ∈ names -> acc !! (name, i) = None) ->
  match all_deltas B mb hd names acc with
  | Ok d => (forall name, name ∈ names -> ~ Mismatch B mb hd name)
      /\ (forall name i, name ∈ names -> d !! (name, i) = displaced (counts name mb !! i) (counts name hd !! i))
      /\ forall name i, name ∉ names -> d !! (name, i) = acc !! (name, i)
  | Err _ => exists name, Mismatch B mb hd name
  end.
Proof.
  intros Hm Hh. revert acc. induction names as [|name names IH]; intros acc Hnd Hacc; cbn [all_deltas].
  { split_and!; [by intros ? ?%not_elem_of_nil|by intros ? ? ?%not_elem_of_nil|done]. }
  apply NoDup_cons in Hnd as [Hn Hnd].
  pose proof (name_delta_spec B mb hd name acc Hm Hh (fun i => Hacc name i ltac:(by left))) as Hd.
  destruct (name_delta _ _ _ _ _) as [acc'|e]; [|by exists name]. destruct Hd as (Hok & Hname & Hother).
  assert (Hacc' : forall name' i, name' ∈ names -> acc' !! (name', i) = None).
  { intros name' i Hin. rewrite Hother by (by intros ->). apply Hacc. by right. }
  specialize (IH acc' Hnd Hacc'). destruct (all_deltas _ _ _ _ _) as [d|e]; [|done]. destruct IH as (H0 & H1 & H2).
  split_and!.
  - intros name' [->|Hin]%elem_of_cons; [done|by apply H0].
  - intros name' i [->|Hin]%elem_of_cons; [by rewrite H2|by apply H1].
  - intros name' i Hni. apply not_elem_of_cons in Hni as [Hne Hni]. by rewrite H2, Hother.
Qed.

Lemma pin_names_spec l : NoDup (pin_names l) /\ forall name, name ∈ pin_names l <-> name ∈ pin_name <$> l.
Proof.
  unfold pin_names.
  assert (H : forall acc, NoDup acc ->
    let names := foldl (fun names pin => if bool_decide (pin_name pin ∈ names) then names
                                         else names ++ [pin_name pin]) acc l in
    NoDup names /\ forall name, name ∈ names <-> name ∈ acc \/ name ∈ pin_name <$> l).
  { induction l as [|p l IH]; intros acc Hacc; csimpl.
    - split; [done|]. intros name. split; [auto|]. by intros [|?%not_elem_of_nil].
    - case_bool_decide as Hp.
      + destruct (IH acc Hacc) as [H1 H2]. split; [done|]. intros name. rewrite H2, elem_of_cons.
        split; [intuition|]. intros [|[->|]]; auto.
      + destruct (IH (acc ++ [pin_name p])) as [H1 H2].
        { apply NoDup_app. split_and!; [done| |apply NoDup_singleton]. by intros x Hx ->%list_elem_of_singleton. }
        split; [done|]. intros name. rewrite H2, elem_of_app, list_elem_of_singleton, elem_of_cons. tauto. }
  destruct (H [] (NoDup_nil_2)) as [H1 H2]. split; [done|]. intros name. rewrite H2.
  split; [by intros [?%not_elem_of_nil|]|auto].
Qed.

Lemma counts_absent name l : name ∉ pin_name <$> l -> counts name l = [].
Proof.
  induction l as [|p l IH]; [done|]. rewrite fmap_cons, not_elem_of_cons. intros [Hn Hl]. unfold counts. cbn [List.filter].
  destruct (String.eqb_spec (pin_name p) name); [congruence|]. by apply IH.
Qed.

(** What a change adds is what it moved since the merge base, whatever the base has. *)
Lemma change_deltas_spec `{StrDebug} base mb head :
  let B := pins (parse_pins base) in let M := pins (parse_pins mb) in let Hd := pins (parse_pins head) in
  small M -> small Hd ->
  match change_deltas (Some base) (Some mb) (Some head) with
  | Ok d => (forall name, ~ Mismatch B M Hd name)
      /\ forall name i, d !! (name, i) = displaced (counts name M !! i) (counts name Hd !! i)
  | Err _ => exists name, Mismatch B M Hd name
  end.
Proof.
  intros B M Hd HM HH. unfold change_deltas. cbn [default].
  change (Datatypes.id head) with head. change (Datatypes.id mb) with mb.
  destruct (String.eqb_spec head mb) as [->|_].
  { split; [by intros name []|]. intros name i. by rewrite moved_same, lookup_empty. }
  fold B M Hd. destruct (pin_names_spec (B ++ M ++ Hd)) as [Hnd Hin]. set (names := pin_names _) in *.
  assert (Hnone : forall name, name ∉ names -> counts name M = [] /\ counts name Hd = []).
  { intros name Hn. rewrite Hin, !fmap_app, !elem_of_app in Hn. split; apply counts_absent; tauto. }
  pose proof (all_deltas_spec B M Hd names ∅ HM HH Hnd ltac:(intros; by rewrite lookup_empty)) as Hd'.
  destruct (all_deltas _ _ _ _ _) as [d|e]; [|done]. destruct Hd' as (H0 & H1 & H2). split.
  - intros name. destruct (decide (name ∈ names)) as [|Hn]; [by apply H0|].
    apply Hnone in Hn as [HM' HH']. unfold Mismatch. rewrite HM', HH'. naive_solver.
  - intros name i. destruct (decide (name ∈ names)) as [|Hn]; [by apply H1|].
    rewrite H2, lookup_empty by done. by apply Hnone in Hn as [-> ->].
Qed.

(** A count with the deltas of a batch added to it, as an integer. *)
Definition total (count : option Z) (deltas : list (gmap Key Z)) (k : Key) : option Z :=
  foldl (fun sum d => match d !! k with Some x => Some (default 0 sum + x)%Z | None => sum end) count deltas.

Lemma candidate_values_total l deltas name i :
  candidate_values l deltas !! (name, i)
  = (fun z => Z.max 0 (i64_wrap z)) <$> total (counts name l !! i) deltas (name, i).
Proof.
  unfold candidate_values. rewrite lookup_fmap.
  assert (H : forall (m : gmap Key Z) count k, m !! k = i64_wrap <$> count ->
    foldl add_delta m deltas !! k = i64_wrap <$> total count deltas k).
  { induction deltas as [|d deltas IH]; intros m count k Hm; [done|]. cbn [foldl].
    unfold total. cbn [foldl]. apply IH. rewrite add_delta_lookup, Hm. unfold add_one.
    destruct (d !! k) as [x|]; [|done]. simpl. f_equal. destruct count as [z|]; simpl; [apply i64_wrap_add|done]. }
  rewrite (H _ (counts name l !! i)) by by rewrite lookup_fmap, by_key_lookup.
  by destruct (total _ _ _).
Qed.

(** A change measured from the base it lands on brings the counts of its head. *)
Corollary change_alone `{StrDebug} base head d :
  small (pins (parse_pins base)) -> small (pins (parse_pins head)) ->
  change_deltas (Some base) (Some base) (Some head) = Ok d ->
  candidate_values (pins (parse_pins base)) [d] = values (Some head).
Proof.
  intros HB Hh Hd. pose proof (change_deltas_spec base base head HB Hh) as Hs. rewrite Hd in Hs.
  destruct Hs as [Hok Hm]. apply map_eq. intros [name i]. unfold values. rewrite candidate_values_total, by_key_lookup.
  unfold total. cbn [foldl]. rewrite Hm. specialize (Hok name). unfold Mismatch in Hok.
  destruct (counts name (pins (parse_pins base)) !! i) as [x|] eqn:Hx,
    (counts name (pins (parse_pins head)) !! i) as [y|] eqn:Hy; simpl.
  - pose proof (small_counts _ _ _ _ HB Hx). pose proof (small_counts _ _ _ _ Hh Hy).
    destruct (decide (x = y)) as [->|]; simpl; f_equal;
      rewrite i64_wrap_id by (unfold in_i64, i64_min, i64_max in *; lia); lia.
  - exfalso. apply Hok. split_and!; [congruence| |by intros [He _]; rewrite He in Hx].
    intros [_ Hl]. apply lookup_lt_Some in Hx. apply lookup_ge_None in Hy. lia.
  - pose proof (small_counts _ _ _ _ Hh Hy). f_equal.
    rewrite i64_wrap_id by (unfold in_i64, i64_min, i64_max in *; lia). lia.
  - done.
Qed.

(** A decrease is honoured only as it was declared, for exactly its pin and amount. *)
Theorem check_decreases_exact `{StrDebug} base running mb reference head declared unreadable delta honoured :
  check_decreases base running mb reference head declared unreadable delta = Ok honoured ->
  forall key d, delta !! key = Some d -> (d < 0)%Z ->
    exists decrease, declaration_of key declared = Some decrease /\ decrease ∈ honoured /\ amount decrease = (- d)%Z.
Proof.
  unfold check_decreases. intros Hc key d Hd%elem_of_btree_iter Hneg. revert Hc Hd.
  generalize (@nil Decrease). generalize (btree_iter delta).
  assert (Hkeep : forall l honoured0 r, check_all base running mb reference head declared unreadable l honoured0 = Ok r ->
            forall x, x ∈ honoured0 -> x ∈ r).
  { induction l as [|[k z] l IH]; intros honoured0 r; cbn [check_all]; [by intros [= <-]|].
    destruct (0 <=? z)%Z; [apply IH|]. destruct (check_decrease _ _ _ _ _ _ _ _ _) as [x|]; [|done].
    intros Hr y Hy. apply (IH _ _ Hr). apply elem_of_app. by left. }
  induction l as [|[k z] l IH]; intros acc Hc; [by intros ?%not_elem_of_nil|].
  intros [[= <- <-]|Hin]%elem_of_cons; cbn [check_all] in Hc.
  - destruct (Z.leb_spec 0 d); [lia|]. unfold check_decrease in Hc.
    destruct (declaration_of key declared) as [x|] eqn:Hx; [|done].
    destruct (Z.eqb_spec (amount x) (Z.abs d)) as [Ha|]; [|done]. exists x. split_and!; [done| |lia].
    apply (Hkeep _ _ _ Hc). apply elem_of_app. right. by left.
  - destruct (0 <=? z)%Z; [by eapply IH|]. destruct (check_decrease _ _ _ _ _ _ _ _ _); [by eapply IH|done].
Qed.

(** C19: Recounting is exact.  The pins of a text are its entries from left to right, each a
    quoted name, blanks and a number.  Rewriting them with any counts a [u64] holds
    gives a file that reads as those counts, where there are any, and as before elsewhere,
    with the same names, and that differs in its numbers only.  A change adds, for every
    occurrence of a name, what it moved between its merge base and its head, and a pin it
    introduces with its count, if the counts of both are below [2 ^ 63]; it is refused exactly
    when it alters a pin that the base, the merge base and the head do not have equally often,
    unless the base and the merge base have it not at all.  The counts of a batch are those of
    the base with all of this added as [i64]s, none below zero, in whatever order. *)
Theorem recount_exact :
  (forall text, exists l, Cut text l /\ parse_pins text = {| pins := (entries 0 l).*1; spans := (entries 0 l).*2 |}) /\
  (forall s name blanks digits rest,
     parse_one s = Some (name, blanks, digits, rest) <->
     s = entry_text name blanks digits +:+ rest /\ Quoted name /\ Count blanks digits) /\
  (forall text v, in_u64 v ->
     pin_name <$> pins (parse_pins (rewrite_pins text v)) = pin_name <$> pins (parse_pins text) /\
     (forall name i, counts name (pins (parse_pins (rewrite_pins text v))) !! i
                = (fun old => default old (v !! (name, i))) <$> counts name (pins (parse_pins text)) !! i) /\
     numbers_removed (rewrite_pins text v) = numbers_removed text) /\
  (forall `{StrDebug} base mb head,
     let B := pins (parse_pins base) in let M := pins (parse_pins mb) in let Hd := pins (parse_pins head) in
     small M -> small Hd ->
     match change_deltas (Some base) (Some mb) (Some head) with
     | Ok d => (forall name, ~ Mismatch B M Hd name)
         /\ forall name i, d !! (name, i) = displaced (counts name M !! i) (counts name Hd !! i)
     | Err _ => exists name, Mismatch B M Hd name
     end) /\
  (forall l deltas name i, candidate_values l deltas !! (name, i)
     = (fun z => Z.max 0 (i64_wrap z)) <$> total (counts name l !! i) deltas (name, i)) /\
  (forall l deltas deltas', deltas ≡ₚ deltas' -> candidate_values l deltas = candidate_values l deltas').
Proof.
  split_and!.
  - intros text. destruct (cut_exists text) as [l Hl]. exists l. split; [done|by apply parse_pins_cut].
  - apply parse_one_exact.
  - intros text v Hv. destruct (rewrite_pins_spec text v Hv) as (Hn & _ & Hr).
    split_and!; [done| |done]. intros name i. rewrite <- !by_key_lookup. by apply values_rewritten.
  - intros. by apply change_deltas_spec.
  - apply candidate_values_total.
  - apply candidate_values_perm.
Qed.

(** The demonstration file with one count changed and a pin introduced. *)
Definition demo_head : string :=
  "(" +:+ quoted "unit" +:+ ", 12), (" +:+ quoted "slow" +:+ ",1), (" +:+ quoted "unit" +:+ ", 4)("
  +:+ quoted "new" +:+ ",7)".

Example demo_deltas :
  @change_deltas plain_debug (Some demo_pins) (Some demo_pins) (Some demo_head)
  = Ok {[("slow", 0) := (-2)%Z; ("new", 0) := 7%Z]}.
Proof. vm_compute. reflexivity. Qed.

Lemma demo_small : small (pins (parse_pins demo_pins)) /\ small (pins (parse_pins demo_head)).
Proof.
  split; intros pin Hp; vm_compute in Hp;
    repeat (apply elem_of_cons in Hp as [->|Hp]; [split; vm_compute; discriminate|]); by apply not_elem_of_nil in Hp.
Qed.

(** A base whose count of the pin has moved on since the change was cut. *)
Definition demo_base : string :=
  "(" +:+ quoted "unit" +:+ ", 20), (" +:+ quoted "slow" +:+ ",9), (" +:+ quoted "unit" +:+ ", 4)".

Lemma recount_exact_witness :
  match @change_deltas plain_debug (Some demo_base) (Some demo_pins) (Some demo_head) with
  | Ok d => d !! ("slow", 0) = displaced (Some 3%Z) (Some 1%Z) /\ d !! ("slow", 0) = Some (-2)%Z
  | Err _ => False
  end.
Proof.
  pose proof (proj1 (proj2 (proj2 (proj2 recount_exact))) plain_debug demo_base demo_pins demo_head
    (proj1 demo_small) (proj2 demo_small)) as H.
  remember (@change_deltas plain_debug (Some demo_base) (Some demo_pins) (Some demo_head)) as r eqn:Hr.
  destruct r as [d|e]; [|vm_compute in Hr; discriminate]. split; [exact (proj2 H "slow" 0)|].
  rewrite (proj2 H "slow" 0). vm_compute. reflexivity.
Defined.
