(* ===== verification/QueueProps.v ===== *)
(** * merge-queue: the theorems about plans and verdicts

    What a landing plan lands, what it holds and why, and how it cuts what it lands
    into batches; and, after facts about results, what a green verdict means. *)
From S2P Require Import Prelude RustStr External QueueTests QueueModel QueuePlan QueueValidate QueueFacts QueueLand.

(** ** Results *)

Lemma elem_of_btree_values `{RustOrd K, Countable K} {A} (m : gmap K A) x :
  x ∈ btree_values m <-> exists k, m !! k = Some x.
Proof.
  unfold btree_values. rewrite list_elem_of_fmap. split.
  - intros ([k y] & -> & Hk%elem_of_btree_iter). by exists k.
  - intros [k Hk]. exists (k, x). by rewrite elem_of_btree_iter.
Qed.

Lemma elem_of_tests_with p rs t :
  t ∈ tests_with p rs <-> exists o, results rs !! t = Some o /\ p o = true.
Proof.
  unfold tests_with. rewrite elem_of_list_to_set, list_elem_of_fmap. split.
  - intros ([t' o] & -> & [Ht Hp]%elem_of_filter_b). apply elem_of_btree_iter in Ht. by exists o.
  - intros (o & Ht & Hp). exists (t, o). by rewrite elem_of_filter_b, elem_of_btree_iter.
Qed.

Lemma all_good_spec rs :
  all_good rs = true <-> forall t o, results rs !! t = Some o -> is_bad o = false.
Proof.
  unfold all_good. rewrite forallb_elem. setoid_rewrite elem_of_btree_values.
  setoid_rewrite negb_true_iff. naive_solver.
Qed.

Lemma all_good_failures rs : all_good rs = true -> attributed_failures rs = ∅.
Proof.
  intros Hg. apply set_eq. intros t. split; [|set_solver].
  intros (o & Ht & Ho)%elem_of_tests_with. rewrite all_good_spec in Hg. specialize (Hg t o Ht).
  by destruct o.
Qed.

(** The selected test has an outcome of its own, or, a whole step, that of a case. *)
Definition reported (rs : TestResults) (t : TestId) : Prop :=
  exists t' o, results rs !! t' = Some o /\ (t' = t \/ (case t = None /\ step t' = step t)).

Lemma reported_mono rs rs' t : results rs ⊆ results rs' -> reported rs t -> reported rs' t.
Proof. intros Hs (t' & o & Ho & Ht). exists t', o. split; [by eapply lookup_weaken|done]. Qed.

Lemma require_test_spec rs t :
  results rs ⊆ results (require_test rs t) /\ reported (require_test rs t) t.
Proof.
  unfold require_test, reported. destruct (_ || _) eqn:Hr.
  - split; [done|]. apply orb_true_iff in Hr as [Ht|Hs].
    + apply bool_decide_eq_true in Ht as [o Ho]. exists t, o. auto.
    + apply existsb_elem in Hs as (seen & [o Ho]%elem_of_btree_keys & Hs).
      apply andb_true_iff in Hs as [Hst%String.eqb_eq Hc%bool_decide_eq_true].
      exists seen, o. auto.
  - apply orb_false_iff in Hr as [Ht%bool_decide_eq_false _]. cbn. split.
    + apply insert_subseteq. by apply eq_None_not_Some.
    + exists t, Missing. rewrite lookup_insert_eq. auto.
Qed.

Lemma require_test_adds rs t :
  require_test rs t = rs \/ results (require_test rs t) !! t = Some Missing.
Proof. unfold require_test. case_match; [by left|right]. apply lookup_insert_eq. Qed.

Lemma require_all rs l :
  results rs ⊆ results (foldl require_test rs l) /\
  forall t, t ∈ l -> reported (foldl require_test rs l) t.
Proof.
  revert rs. induction l as [|x l IH]; intros rs; cbn [foldl]; [split; [done|set_solver]|].
  destruct (require_test_spec rs x) as [Hs Hx]. destruct (IH (require_test rs x)) as [Hs' Hl].
  split; [by etrans|]. intros t [->|Ht]%elem_of_cons; [by eapply reported_mono|by apply Hl].
Qed.

(** Where [require] leaves no outcome that blocks, every selected test had been reported. *)
Lemma require_all_good rs l : all_good (foldl require_test rs l) = true ->
  foldl require_test rs l = rs /\ forall t, t ∈ l -> reported rs t.
Proof.
  revert rs. induction l as [|x l IH]; intros rs; cbn [foldl]; [split; [done|set_solver]|]. intros Hg.
  assert (Hx : require_test rs x = rs /\ reported rs x).
  { destruct (require_test_spec rs x) as [_ Hrep], (require_all (require_test rs x) l) as [Hs _].
    destruct (require_test_adds rs x) as [Heq|Hmissing]; [by rewrite Heq in *|].
    by rewrite all_good_spec in Hg; specialize (Hg x Missing (lookup_weaken _ _ _ _ Hmissing Hs)). }
  destruct Hx as [Hx Hrep]. rewrite Hx in *. destruct (IH rs Hg) as [He Hl]. split; [done|].
  by intros t [->|Ht]%elem_of_cons; [|apply Hl].
Qed.

Lemma require_test_reported rs t : reported rs t -> require_test rs t = rs.
Proof.
  intros (t' & o & Ho & Ht). unfold require_test. case_match eqn:Hr; [done|exfalso].
  apply orb_false_iff in Hr as [Hn%bool_decide_eq_false Hs]. destruct Ht as [->|[Hc Heq]]; [by apply Hn|].
  apply not_true_iff_false in Hs. apply Hs, existsb_elem. exists t'.
  rewrite elem_of_btree_keys, bool_decide_true, Heq, String.eqb_refl by done. by rewrite Ho.
Qed.

Lemma require_good rs s : all_good (require rs s) = true <->
  all_good rs = true /\ forall tests t, listed s = Some tests -> t ∈ tests -> reported rs t.
Proof.
  unfold require. destruct (listed s) as [tests|]; [|naive_solver].
  assert (Hin : forall t, t ∈ btree_elems tests <-> t ∈ tests) by (intros; apply elem_of_btree_elems).
  setoid_rewrite <-Hin || idtac. split.
  - intros Hg. destruct (require_all_good _ _ Hg) as [He Hl]. rewrite He in Hg.
    split; [done|]. intros ? t [= <-] Ht. by apply Hl, Hin.
  - intros [Hg Hl]. assert (He : foldl require_test rs (btree_elems tests) = rs); [|by rewrite He].
    assert (Hl' : forall t, t ∈ btree_elems tests -> reported rs t) by (intros t Ht%Hin; by eapply Hl).
    clear Hl Hin. induction (btree_elems tests) as [|x l IH]; [done|]. cbn [foldl].
    rewrite require_test_reported by (apply Hl'; by left). apply IH. intros t Ht. apply Hl'. by right.
Qed.

Lemma require_good_id rs s : all_good (require rs s) = true -> require rs s = rs.
Proof. unfold require. destruct (listed s); [|done]. by intros [He _]%require_all_good. Qed.

(** The outcomes that do not block. *)
Lemma not_bad o : is_bad o = false <-> o = Pass \/ o = Skip.
Proof. destruct o; cbn; naive_solver. Qed.

(** *** Rows *)

Section rows.
Context (row_from_json : string -> result string ResultLine) `{StrDebug}.

(** A row says that a test had an outcome. *)
Definition Says (line : string) (t : TestId) (o : Outcome) : Prop :=
  exists row, row_from_json line = Ok row /\ TestId_parse (row_id row) = Ok t
    /\ Outcome_parse (row_outcome row) = Some o.

Lemma Says_once line t o t' o' : Says line t o -> Says line t' o' -> t = t' /\ o = o'.
Proof. intros (row & Hr & Ht & Ho) (row' & Hr' & Ht' & Ho'). split; congruence. Qed.

(** The rows of the results file: its lines that are not blank. *)
Definition is_row (text : option string) (line : string) : Prop :=
  line ∈ default [] (str_lines <$> text) /\ str_trim line <> "".

(** What is recorded of the rows read so far, when all of them could be read. *)
Definition RowsRead (l : list (nat * string)) (st : Rows) : Prop :=
  (forall n line, (n, line) ∈ l -> str_trim line <> "" ->
     exists t o worst, Says line t o /\ results (rows_results st) !! t = Some worst
       /\ Outcome_index o <= Outcome_index worst)
  /\ forall t o, results (rows_results st) !! t = Some o ->
       exists n line, (n, line) ∈ l /\ str_trim line <> "" /\ Says line t o.

Lemma worse_index old new :
  Outcome_index old <= Outcome_index (worse old new) /\ Outcome_index new <= Outcome_index (worse old new)
  /\ (worse old new = old \/ worse old new = new).
Proof. unfold worse. case_decide; split_and!; auto; lia. Qed.

Lemma row_step_kept path st n line : bad_row (row_step row_from_json path st (n, line)) = None -> bad_row st = None.
Proof.
  unfold row_step, bad. destruct (str_is_empty _); [done|].
  repeat case_match; cbn; try done; intros; by destruct (bad_row st).
Qed.

Lemma rows_read path l st0 : bad_row (foldl (row_step row_from_json path) st0 l) = None ->
  results (rows_results st0) = ∅ -> RowsRead l (foldl (row_step row_from_json path) st0 l).
Proof.
  intros Hbad Hst0. induction l as [|[n line] l IH] using rev_ind.
  { split; [by intros ? ? ?%elem_of_nil|]. intros t o. cbn. by rewrite Hst0, lookup_empty. }
  rewrite foldl_app in *. cbn [foldl] in *. set (st := foldl _ st0 l) in *.
  pose proof (row_step_kept _ _ _ _ Hbad) as Hst. destruct (IH Hst) as [Hall Hres].
  unfold row_step in *. destruct (str_trim line) as [|c cs] eqn:Htrim; cbn [str_is_empty] in *.
  { split.
    - intros n' line' [Hin|[= -> ->]%list_elem_of_singleton]%elem_of_app Hne; [by eapply Hall|congruence].
    - intros t o Ho. destruct (Hres t o Ho) as (n' & line' & Hin & Hs). exists n', line'.
      split; [apply elem_of_app; by left|done]. }
  destruct (row_from_json line) as [row|e] eqn:Hrow; [|by cbn in Hbad; destruct (bad_row st)].
  destruct (Outcome_parse (row_outcome row)) as [o|] eqn:Ho; [|by cbn in Hbad; destruct (bad_row st)].
  destruct (TestId_parse (row_id row)) as [t|e] eqn:Ht; [|by cbn in Hbad; destruct (bad_row st)].
  assert (Hsays : Says line t o) by by exists row.
  set (new := worse (default o (results (rows_results st) !! t)) o).
  assert (Hlook : forall t', results (record (rows_results st)
      {| id := t; outcome := o; duration_ms := row_duration_ms row; log := row_log row |}) !! t'
    = if decide (t' = t) then Some new else results (rows_results st) !! t').
  { intros t'. cbn. rewrite lookup_insert. by repeat case_decide. }
  split; cbn [rows_results].
  - intros n' line' [Hin|[= -> ->]%list_elem_of_singleton]%elem_of_app Hne.
    + destruct (Hall n' line' Hin Hne) as (t' & o' & worst & Hs & Hw & Hi). exists t', o'. rewrite Hlook.
      destruct (decide (t' = t)) as [Heq|Heq]; [|by exists worst]. subst t'. exists new. split_and!; [done|done|].
      unfold new. rewrite Hw. cbn. pose proof (worse_index worst o) as (H1 & _). lia.
    + exists t, o, new. rewrite Hlook, decide_True by done. split_and!; [done|done|]. apply worse_index.
  - intros t' o'. rewrite Hlook. destruct (decide (t' = t)) as [Heq|Heq].
    + subst t'. intros [= <-]. unfold new.
      destruct (worse_index (default o (results (rows_results st) !! t)) o) as (_ & _ & [-> | ->]).
      * destruct (results (rows_results st) !! t) as [old|] eqn:Hold; cbn.
        -- destruct (Hres t old Hold) as (n' & line' & Hin & Hs). exists n', line'.
           split; [apply elem_of_app; by left|done].
        -- exists n, line. rewrite Htrim. split_and!; [apply elem_of_app; right; by left|done|done].
      * exists n, line. rewrite Htrim. split_and!; [apply elem_of_app; right; by left|done|done].
    + intros Hold. destruct (Hres t' o' Hold) as (n' & line' & Hin & Hs). exists n', line'.
      split; [apply elem_of_app; by left|done].
Qed.

Lemma read_rows_spec path text : bad_row (read_rows row_from_json path text) = None ->
  let rs := rows_results (read_rows row_from_json path text) in
  (forall line, is_row text line -> exists t o worst, Says line t o /\ results rs !! t = Some worst
     /\ Outcome_index o <= Outcome_index worst)
  /\ forall t o, results rs !! t = Some o -> exists line, is_row text line /\ Says line t o.
Proof.
  intros Hbad. cbv zeta. unfold read_rows in *. destruct (rows_read _ _ _ Hbad eq_refl) as [H1 H2].
  assert (Hin : forall line, line ∈ default [] (str_lines <$> text) <->
    exists n, (n, line) ∈ imap (fun n line => (S n, line)) (default [] (str_lines <$> text))).
  { intros line. setoid_rewrite elem_of_lookup_imap. split.
    - intros [n Hn]%list_elem_of_lookup. by exists (S n), n, line.
    - intros (m & n & line' & [= _ <-] & Hn). by eapply list_elem_of_lookup_2. }
  split.
  - intros line [[n Hn]%Hin Hne]. by apply (H1 n).
  - intros t o Ho. destruct (H2 t o Ho) as (n & line & Hn & Hne & Hs). exists line. split; [|done].
    split; [apply Hin; by exists n|done].
Qed.

Lemma readable_rows path l st0 :
  (forall n line, (n, line) ∈ l -> str_trim line <> "" -> exists t o, Says line t o) ->
  bad_row (foldl (row_step row_from_json path) st0 l) = bad_row st0.
Proof.
  intros Hall. induction l as [|[n line] l IH] using rev_ind; [done|]. rewrite foldl_snoc.
  rewrite <-IH by (intros m line' Hin; apply (Hall m); set_solver).
  specialize (Hall n line ltac:(set_solver)). unfold row_step.
  destruct (str_trim line) as [|c cs]; [done|]. destruct Hall as (t & o & row & Hr & Ht & Ho); [done|].
  by rewrite Hr, Ho, Ht.
Qed.

Lemma rows_readable path text :
  bad_row (read_rows row_from_json path text) = None <->
  forall line, is_row text line -> exists t o, Says line t o.
Proof.
  split.
  - intros Hbad line Hrow. destruct (read_rows_spec path text Hbad) as [Hall _].
    destruct (Hall line Hrow) as (t & o & _ & Hs & _). by exists t, o.
  - intros Hall. unfold read_rows. rewrite readable_rows; [done|].
    intros n line (m & line' & [= -> ->] & Hm)%elem_of_lookup_imap Hne. apply Hall. split; [|done].
    by eapply list_elem_of_lookup_2.
Qed.

Lemma rows_empty path text : bad_row (read_rows row_from_json path text) = None ->
  results (rows_results (read_rows row_from_json path text)) = ∅ <-> forall line, ~ is_row text line.
Proof.
  intros Hbad. destruct (read_rows_spec path text Hbad) as [Hall Hsaid]. split.
  - intros He line (t & _ & worst & _ & Hw & _)%Hall. by rewrite He, lookup_empty in Hw.
  - intros Hno. apply map_empty. intros t. apply eq_None_not_Some. intros (o & (line & Hrow & _)%Hsaid).
    by apply (Hno line).
Qed.

(** What the combined outcomes of readable rows say that do not block. *)
Lemma rows_good path text : bad_row (read_rows row_from_json path text) = None ->
  all_good (rows_results (read_rows row_from_json path text)) = true <->
  forall line, is_row text line -> exists t o, Says line t o
    /\ (o = Pass \/ o = Skip \/ (o = Fail /\ exists line', is_row text line' /\ Says line' t Skip)).
Proof.
  intros Hbad. destruct (read_rows_spec path text Hbad) as [Hall Hsaid]. rewrite all_good_spec. split.
  - intros Hg line Hrow. destruct (Hall line Hrow) as (t & o & worst & Hs & Hw & Hle). exists t, o.
    split; [done|]. specialize (Hg t worst Hw). apply not_bad in Hg. destruct Hg as [-> | ->].
    + left. destruct o; cbn in Hle; by try lia.
    + destruct o; cbn in Hle; try lia; [by left| |right; by left]. right; right. split; [done|].
      by apply Hsaid.
  - intros Hrows t worst Hw. destruct (Hsaid t worst Hw) as (line & Hrow & Hs).
    destruct (Hrows line Hrow) as (t' & o & Hs' & Ho). destruct (Says_once _ _ _ _ _ Hs Hs') as [<- <-].
    apply not_bad. destruct Ho as [->|[->|(-> & line' & Hrow' & Hs2)]]; [by left|by right|].
    destruct (Hall line' Hrow') as (t2 & o2 & w2 & Hs3 & Hw2 & Hle).
    destruct (Says_once _ _ _ _ _ Hs2 Hs3) as [<- <-]. rewrite Hw in Hw2. injection Hw2 as <-. cbn in Hle. lia.
Qed.
End rows.

Lemma inherit_silent l rs o : (forall t x, results rs !! t = Some x -> x = o) ->
  let rs' := foldl (fun rs t => record rs {| id := t; outcome := o; duration_ms := None; log := None |}) rs l in
  (forall t x, results rs' !! t = Some x -> x = o) /\ (forall t, t ∈ l -> is_Some (results rs' !! t))
  /\ (forall t, is_Some (results rs !! t) -> is_Some (results rs' !! t))
  /\ unattributed rs' = unattributed rs.
Proof.
  revert rs. induction l as [|t l IH]; intros rs Hrs; cbn [foldl]; [split_and!; by try intros ? ?%elem_of_nil|].
  set (rs1 := record rs _).
  assert (Hl : forall t', results rs1 !! t' = if decide (t' = t) then Some o else results rs !! t').
  { intros t'. unfold rs1. cbn. rewrite lookup_insert.
    destruct (decide (t' = t)) as [H1|H1]; [subst t'; rewrite decide_True by done|by rewrite decide_False by congruence].
    f_equal. destruct (results rs !! t) as [x|] eqn:Hx; cbn; [rewrite (Hrs t x Hx)|]; unfold worse; by case_decide. }
  destruct (IH rs1) as (H1 & H2 & H3 & H4).
  { intros t' x. rewrite Hl. case_decide; [by intros [= <-]|apply Hrs]. }
  split_and!; [done| | |done].
  - intros t' [->|Ht]%elem_of_cons; [|by apply H2]. apply H3. rewrite Hl, decide_True by done. by eexists.
  - intros t' Ht. apply H3. rewrite Hl. by case_decide.
Qed.

(** ** Runs *)

Lemma green_spec r :
  green r = true <->
  cancelled r = false /\ refused r = false /\ exit r = Some 0%Z /\ all_good (ran_results r) = true.
Proof.
  unfold green, exited. rewrite !andb_true_iff, !negb_true_iff, bool_decide_eq_true. tauto.
Qed.

(** A runner that exits zero and could be started is not a refusal. *)
Lemma started_zero command path fin text failures :
  fin_exit fin = Some 0%Z -> fin_cancelled fin = false ->
  (cannot_execute_reason command path fin text failures = None <-> spawn_error fin = None)
  /\ is_refusal (Some 0%Z) text failures = false.
Proof.
  intros He Hc. unfold cannot_execute_reason. rewrite He, Hc. by destruct (spawn_error fin).
Qed.

Section verdicts.
Context (secs_to_ms : string -> option Z) (row_from_json : string -> result string ResultLine) `{StrDebug}.

(** What the runner reported: in rows or, where there are none, in the lines of its log. *)
Definition heard (i : RunInput) : TestResults :=
  let rows := rows_results (read_rows row_from_json (in_results_path i) (results_text i)) in
  if bool_decide (results rows = ∅) then parse_step_lines secs_to_ms (in_log_text i) else rows.

Lemma command_ran_green i :
  let r := (command_ran secs_to_ms row_from_json i).1 in
  let rs := require (inherit_exit i (heard i)) (in_selection i) in
  (green r = true <->
     fin_early_red (finished i) = false /\ fin_exit (finished i) = Some 0%Z
     /\ fin_cancelled (finished i) = false /\ spawn_error (finished i) = None
     /\ bad_row (read_rows row_from_json (in_results_path i) (results_text i)) = None /\ all_good rs = true)
  /\ (green r = true -> ran_results r = rs).
Proof.
  cbv zeta. unfold command_ran, heard. set (rows := read_rows _ _ _).
  set (rs0 := if bool_decide _ && bool_decide _ then _ else _).
  set (said := if bool_decide _ then _ else _).
  set (failures := negb (bool_decide (attributed_failures rs0 = ∅))).
  destruct (fin_early_red (finished i)) eqn:Hearly.
  { split; [split; [|by intros [? _]]|]; by intros (_ & _ & He & _)%green_spec. }
  set (rs := require (inherit_exit i rs0) (in_selection i)). cbv zeta.
  assert (Hheard : bad_row rows = None -> rs0 = said).
  { intros Hb. unfold rs0, said. rewrite (bool_decide_true (bad_row rows = None)) by done. by rewrite andb_true_r. }
  rewrite green_spec. cbn [cancelled refused exit ran_results].
  destruct (fin_cancelled (finished i)) eqn:Hcan; [split; [split; [by intros [? _]|by intros (_ & _ & ? & _)]|by intros [? _]]|].
  destruct (decide (fin_exit (finished i) = Some 0%Z)) as [He|He]; [|split; [split|]; naive_solver].
  destruct (started_zero (in_command i) (in_path i) (finished i) (in_log_text i) failures He Hcan) as [Hsp Href].
  rewrite He, Href. change (red_exit (Some 0%Z)) with false.
  unfold is_empty_red. change (red_exit (Some 0%Z)) with false. cbn [orb negb andb].
  rewrite !andb_false_r, !orb_false_r, andb_true_r. cbn [negb].
  destruct (cannot_execute_reason _ _ _ _ _) as [c|] eqn:Hc; cbn [is_Some].
  { rewrite bool_decide_true by by eexists. split; [split; [by intros (_ & ? & _)|]|by intros (_ & ? & _)].
    intros (_ & _ & _ & Hs & _). by apply Hsp in Hs. }
  rewrite (bool_decide_false (is_Some None)) by by intros []. cbn [orb negb andb].
  destruct (bad_row rows) as [d|] eqn:Hb.
  { rewrite bool_decide_true by by eexists. split; [split; [by intros (_ & ? & _)|]|by intros (_ & ? & _)].
    by intros (_ & _ & _ & _ & ? & _). }
  rewrite bool_decide_false by by intros []. unfold rs. rewrite (Hheard eq_refl). cbn [orb negb andb].
  rewrite ?andb_false_r.
  assert (spawn_error (finished i) = None) by by apply Hsp. split; [naive_solver|done].
Qed.
End verdicts.

(** ** A queue to evaluate the definitions on *)

Definition demo_item (n : Z) (deps : list Z) (first : bool) : Item :=
  {| pr := n; head_ref := "b"; head := "h" +:+ pretty n; priority := 100;
     submitted_at := "2026-01-01T00:00:00Z"; submitted_by := ""; notify := ""; shepherd := "";
     notify_mode := None;
     notify_delivery := {| nd_key := ""; nd_attempts := 0; nd_delivered := false; nd_last_error := "" |};
     title := ""; after := deps; solo := false; prioritized := first; exact_ := false;
     requires := []; claim := None; source := ""; close_pending := false;
     validation_refusals := 0; suspect_reruns := 0; next_retry_at := ""; last_refusal := "";
     flaky_nodes := []; flaky_hold_until := ""; hold_verdict := ""; held_candidate := None;
     accepted := None; escalated := ""; deciding_report := ""; deciding_failed := [];
     status := Queued; landed_as := ""; history := [] |}.

(** Four changes: 4, a priority change, follows 3; 2 conflicts with 1; 5 waits for a
    change that is not in the queue. *)
Definition demo_items : list Item :=
  [demo_item 1 [] false; demo_item 2 [] false; demo_item 3 [] false; demo_item 4 [3%Z] true;
   demo_item 5 [9%Z] false].

Definition demo_probe : Probe := {|
  heads := map_collect ((fun i => (pr i, Some (head i))) <$> demo_items);
  touched := ∅; base_conflicts := ∅;
  probe_conflicts := [{| a := 1; b := 2; conflict_paths := ["x"] |}];
  ancestry := []; external := ∅; ranges := ∅; marks := ∅; prior := [] |}.

Definition demo_options : PlanOptions := {|
  max_batch := 2; priority_config := {| label := ""; ci_paths := [] |}; peripheral_max_batch := 0 |}.

Definition demo_plan : Plan :=
  @make_plan plain_debug demo_items "main" "0" demo_probe demo_options "t" "t".

Example demo_plan_lands :
  (prs <$> batches demo_plan, note <$> batches demo_plan)
  = ([[3%Z]; [4%Z]; [1%Z]], [""; "priority"; ""]) /\
  (held_pr <$> held demo_plan) = [2%Z; 5%Z] /\
  (with_ <$> held demo_plan) = [[1%Z]; [9%Z]] /\
  dependencies demo_plan = [(3%Z, 4%Z)].
Proof. split_and!; by_eval. Qed.

(** ** The plan *)

(** C23: A plan is safe, for items of distinct numbers and external holds each filed
    under its own change: every queued change is landed or held, not both, once; the
    recorded dependencies are exactly the pairs of queued changes of which the one
    names the other or has its head built on the other's; and a landed change is
    itself fit to land (its head unmoved and clean on the base, not escalated,
    awaiting a ruling, deferred or held from outside, and without the commits of an
    ejected or withdrawn change), comes after every queued change it names or is
    built on, names nothing that has neither landed nor lands before it, and
    conflicts with no other landed change. *)
Theorem planned_changes_safe `{StrDebug} all_items base base_sha probe options at_ created :
  NoDup (pr <$> all_items) ->
  (forall p h, external probe !! p = Some h -> held_pr h = p) ->
  let plan := make_plan all_items base base_sha probe options at_ created in
  NoDup (landed plan ++ (held_pr <$> held plan)) /\
  (forall p, p ∈ landed plan ++ (held_pr <$> held plan) <->
     exists i, i ∈ all_items /\ status i = Queued /\ pr i = p) /\
  (forall d p, (d, p) ∈ dependencies plan <-> must_follow all_items probe d p) /\
  forall l1 p l2, landed plan = l1 ++ p :: l2 ->
    (forall d, must_follow all_items probe d p -> d ∈ l1) /\
    (forall q, q ∈ landed plan -> p <> q -> ~ in_conflict probe p q) /\
    exists i, i ∈ all_items /\ status i = Queued /\ pr i = p /\ landable all_items at_ probe i /\
      forall d, d ∈ after i ->
        (exists j, j ∈ all_items /\ pr j = d /\ status j = Landed) \/ d ∈ l1.
Proof.
  intros Hnd Hext. cbv zeta.
  destruct (plan_planned all_items base base_sha probe options at_ created Hnd Hext) as [held' Hp].
  fold (the_plan all_items base base_sha probe options at_ created).
  split; [by eapply decided_once|]. split; [by eapply decided_once|].
  split; [intros d p; by eapply plan_dependency_spec|]. intros l1 p l2 Heq. split_and!.
  - intros d Hd. by eapply landed_after, plan_dependency_spec.
  - intros q. eapply landed_no_conflict; [done..|]. rewrite Heq. set_solver.
  - destruct (landed_fit _ _ _ _ _ _ _ Hnd Hext held' Hp _ _ _ Heq) as (i & [Hi Hs]%elem_of_queued & ? & ? & ?).
    by exists i.
Qed.

Lemma planned_changes_safe_witness :
  landed demo_plan = [3%Z; 4%Z] ++ [1%Z] /\
  must_follow demo_items demo_probe 3 4 /\ ~ in_conflict demo_probe 1 3.
Proof.
  split; [by_eval|].
  assert (Hnd : NoDup (pr <$> demo_items)) by by_eval.
  pose proof (@planned_changes_safe plain_debug demo_items "main" "0" demo_probe demo_options "t" "t" Hnd
    ltac:(done)) as (_ & _ & Hdep & Hl).
  assert (Hd : landed demo_plan = [3%Z; 4%Z] ++ 1%Z :: []) by by_eval.
  split; [apply Hdep; by_eval|]. apply (Hl _ _ _ Hd); [by_eval|done].
Defined.

(** C24: A plan is complete, for items of distinct numbers and external holds each
    filed under its own change: a queued change lands exactly when it is fit by
    itself, every change it names has landed or is queued, all the queued changes it
    names or is built on land, and no landed change conflicts with it; so nothing
    more could have landed, also where dependencies form a cycle.  A fit change that
    is held says why: it lists exactly the queued changes it must follow that do not
    land, or, where all of those land, some landed changes it conflicts with. *)
Theorem planned_changes_exact `{StrDebug} all_items base base_sha probe options at_ created :
  NoDup (pr <$> all_items) ->
  (forall p h, external probe !! p = Some h -> held_pr h = p) ->
  let plan := make_plan all_items base base_sha probe options at_ created in
  forall i, i ∈ all_items -> status i = Queued ->
    (pr i ∈ landed plan <->
       fit all_items probe at_ i /\
       (forall d, must_follow all_items probe d (pr i) -> d ∈ landed plan) /\
       (forall q, q ∈ landed plan -> pr i <> q -> ~ in_conflict probe (pr i) q)) /\
    (forall h, fit all_items probe at_ i -> h ∈ held plan -> held_pr h = pr i ->
       with_ h <> [] /\
       ((kind h = "waiting-on-dependency" /\
         forall d, d ∈ with_ h <-> must_follow all_items probe d (pr i) /\ d ∉ landed plan) \/
        (kind h = "conflicts-with-queued" /\
         (forall d, must_follow all_items probe d (pr i) -> d ∈ landed plan) /\
         forall q, q ∈ with_ h -> q ∈ landed plan /\ in_conflict probe (pr i) q))).
Proof.
  intros Hnd Hext. cbv zeta. intros i Hi Hs.
  assert (Hq : i ∈ queued all_items) by by apply elem_of_queued.
  destruct (plan_planned all_items base base_sha probe options at_ created Hnd Hext) as [held' Hp].
  fold (the_plan all_items base base_sha probe options at_ created).
  setoid_rewrite <-(plan_dependency_spec _ _ _ _ _ _ _ Hnd held' Hp).
  split; [by eapply landed_iff|]. intros h Hfit Hh Hpr. by eapply held_reason.
Qed.

Lemma demo_fit : fit demo_items demo_probe "t" (demo_item 2 [] false).
Proof.
  split; [|by intros d ?%elem_of_nil]. split; cbn; try done; by left.
Qed.

Lemma planned_changes_exact_witness :
  let h := clash_hold 2 [(1%Z, ["x"])] in
  h ∈ held demo_plan /\ forall q, q ∈ with_ h -> q ∈ landed demo_plan /\ in_conflict demo_probe 2 q.
Proof.
  assert (Hnd : NoDup (pr <$> demo_items)) by by_eval. cbv zeta. set (h := clash_hold _ _).
  assert (Hi : demo_item 2 [] false ∈ demo_items) by (unfold demo_items; set_solver).
  assert (Hin : h ∈ held demo_plan) by by_eval.
  pose proof (@planned_changes_exact plain_debug demo_items "main" "0" demo_probe demo_options "t" "t" Hnd
    ltac:(done) (demo_item 2 [] false) Hi eq_refl) as [_ Hh].
  destruct (Hh h demo_fit Hin eq_refl) as [_ [[Hk _]|(_ & _ & Hq)]]; [done|]. by split.
Defined.

(** ** The batches *)

(** The batches cut what lands, in order and without loss, into batches numbered
    from 0, none empty: a solo, exact or priority change has a batch of its own,
    marked as such, and the others are grouped with changes of their kind only,
    peripheral or binary-touching, at most as many as the kind allows, and with
    fewer only where the next batch is of another sort. *)
Theorem batches_exact `{StrDebug} all_items base base_sha probe options at_ created :
  NoDup (pr <$> all_items) ->
  (forall p h, external probe !! p = Some h -> held_pr h = p) ->
  let plan := make_plan all_items base base_sha probe options at_ created in
  let by_pr := items_by_pr all_items in
  let wide := Nat.max (max_batch options) 1 in
  let wider := Nat.max (peripheral_max_batch options) wide in
  (forall n b, batches plan !! n = Some b -> index b = n /\ prs b <> [] /\
     (solitary by_pr b \/
      exists kind, Forall (shares by_pr probe kind) (prs b) /\
        length (prs b) <= (if kind then wider else wide))) /\
  (forall n b b' kind, batches plan !! n = Some b -> batches plan !! S n = Some b' ->
     Forall (shares by_pr probe kind) (prs b) -> Forall (shares by_pr probe kind) (prs b') ->
     length (prs b) = (if kind then wider else wide)) /\
  sum_list (length ∘ prs <$> batches plan) + length (held plan) = length (queued all_items).
Proof.
  intros Hnd Hext. cbv zeta.
  destruct (plan_planned all_items base base_sha probe options at_ created Hnd Hext) as [held' Hp].
  pose proof Hp as (_ & _ & _ & Hconcat & Hok & Hg). unfold the_plan in *. split_and!.
  - intros n b Hb. destruct (Hok n b Hb) as (Hi & Hne & Hkind). done.
  - intros n b b' kind Hb Hb' Hs Hs'. apply (Hg n b b' kind Hb Hb').
    + apply shares_group; [by apply (Hok n)|done].
    + apply shares_group; [by apply (Hok (S n))|done].
  - rewrite <-length_concat_sum. fold (landed (make_plan all_items base base_sha probe options at_ created)).
    rewrite <-(length_fmap held_pr), <-length_app, <-(length_fmap pr (queued all_items)).
    edestruct decided_once as [Hd1 Hd2]; [done|done|exact Hp|]. unfold the_plan in *.
    apply Permutation_length, NoDup_Permutation; [done| |].
    + by apply NoDup_fmap_filter.
    + intros p. rewrite Hd2, list_elem_of_fmap. split.
      * intros (i & Hi & Hs & <-). exists i. by rewrite elem_of_queued.
      * intros (i & -> & [Hi Hs]%elem_of_queued). by exists i.
Qed.

Lemma batches_exact_witness :
  sum_list (length ∘ prs <$> batches demo_plan) + length (held demo_plan) = 5.
Proof.
  assert (Hnd : NoDup (pr <$> demo_items)) by by_eval.
  apply (@batches_exact plain_debug demo_items "main" "0" demo_probe demo_options "t" "t" Hnd
    ltac:(done)).
Defined.

(** ** Verdicts *)

(** A runner that reports one test twice: failed, then skipped. *)
Definition twice_rows (line : string) : result string ResultLine :=
  Ok {| row_id := "t"; row_outcome := line; row_duration_ms := None; row_log := None; row_shape := None |}.

Definition twice_input : RunInput := {|
  in_selection := Selection_of [TestId_step "t"]; empty_red_could_not_run := false;
  in_results_path := "results.jsonl"; results_text := Some ("fail" +:+ str1 nl +:+ "skip");
  in_log_text := ""; in_handle := None; in_command := "sh"; in_path := "";
  finished := {| fin_exit := Some 0%Z; fin_cancelled := false; fin_early_red := false;
                 fin_early_verdict := None; fin_interrupted := None; spawn_error := None |} |}.

(** A runner that reports nothing. *)
Definition silent_input : RunInput := {|
  in_selection := in_selection twice_input; empty_red_could_not_run := false;
  in_results_path := "results.jsonl"; results_text := None;
  in_log_text := ""; in_handle := None; in_command := "sh"; in_path := "";
  finished := finished twice_input |}.

(** What a green run rests on: each row can be read and says that a test passed or was
    skipped, or that it failed while another row says that it was skipped; every
    selected test is named by a row; and where there is no row at all, the same holds
    of the verdict lines of the log, if there are any. *)
Definition green_evidence (secs_to_ms : string -> option Z) (row_from_json : string -> result string ResultLine)
    `{StrDebug} (i : RunInput) : Prop :=
  let row := is_row (results_text i) in
  let said := Says row_from_json in
  let selected t := exists tests, in_selection i = Tests tests /\ t ∈ tests in
  let logged := parse_step_lines secs_to_ms (in_log_text i) in
  (forall line, row line -> exists t o, said line t o
     /\ (o = Pass \/ o = Skip \/ (o = Fail /\ exists line', row line' /\ said line' t Skip)))
  /\ ((exists line, row line) -> forall t, selected t ->
        exists line t' o, row line /\ said line t' o /\ (t' = t \/ (case t = None /\ step t' = step t)))
  /\ ((forall line, ~ row line) ->
        (forall t o, results logged !! t = Some o -> o = Pass \/ o = Skip)
        /\ (results logged <> ∅ -> forall t, selected t -> reported logged t)).

Lemma silent_results secs_to_ms row_from_json `{StrDebug} i :
  bad_row (read_rows row_from_json (in_results_path i) (results_text i)) = None ->
  fin_exit (finished i) = Some 0%Z -> (forall line, ~ is_row (results_text i) line) ->
  results (parse_step_lines secs_to_ms (in_log_text i)) = ∅ ->
  let rs := inherit_exit i (heard secs_to_ms row_from_json i) in
  unattributed rs = true /\
  (forall t o, results rs !! t = Some o -> o = Pass) /\
  forall tests t, in_selection i = Tests tests -> t ∈ tests -> results rs !! t = Some Pass.
Proof.
  intros Hb He Hno Hlog. cbv zeta. unfold heard, inherit_exit.
  rewrite (bool_decide_true (results (rows_results _) = ∅)) by by apply rows_empty.
  rewrite bool_decide_true, He by done.
  change (if exited (Some 0%Z) 0 then Pass else Error) with Pass.
  destruct (inherit_silent (default [] (btree_elems <$> listed (in_selection i)))
    (mark_unattributed (parse_step_lines secs_to_ms (in_log_text i))) Pass) as (Hp & Hin & _ & Hu).
  { intros t x. cbn. by rewrite Hlog, lookup_empty. }
  split; [by rewrite Hu|]. split; [done|]. intros tests t Hsel Ht.
  destruct (Hin t) as [o Ho]; [|by rewrite Ho, (Hp _ _ Ho)].
  rewrite Hsel. cbn. by apply elem_of_btree_elems.
Qed.

(** The evidence in terms of what was recorded. *)
Lemma evidence_spec secs_to_ms row_from_json `{StrDebug} i :
  fin_exit (finished i) = Some 0%Z ->
  (bad_row (read_rows row_from_json (in_results_path i) (results_text i)) = None
   /\ all_good (require (inherit_exit i (heard secs_to_ms row_from_json i)) (in_selection i)) = true)
  <-> green_evidence secs_to_ms row_from_json i.
Proof.
  intros He. unfold green_evidence. cbv zeta. set (rows := read_rows _ _ _). rewrite require_good.
  assert (Hlisted : forall tests, listed (in_selection i) = Some tests <-> in_selection i = Tests tests).
  { intros tests. destruct (in_selection i); cbn; naive_solver. }
  destruct (decide (bad_row rows = None)) as [Hb|Hb].
  2:{ split; [naive_solver|]. intros (Hrows & _). exfalso. apply Hb, rows_readable. naive_solver. }
  pose proof (rows_good _ _ _ Hb) as Hrg. pose proof (rows_empty _ _ _ Hb) as Hre. fold rows in Hrg, Hre.
  unfold heard. fold rows. case_bool_decide as Hemp.
  - pose proof (proj1 Hre Hemp) as Hno. unfold inherit_exit. case_bool_decide as Hlog.
    + split; [|].
      * intros _. split_and!; [naive_solver..|]. intros _. split; [|done].
        intros t o. by rewrite Hlog, lookup_empty.
      * intros _.
        destruct (silent_results secs_to_ms row_from_json i Hb He Hno Hlog) as (_ & Hp & Hin). cbv zeta in *.
        unfold heard, inherit_exit in Hp, Hin. fold rows in Hp, Hin.
        rewrite (bool_decide_true _ Hemp), (bool_decide_true _ Hlog) in Hp, Hin. split; [done|]. split.
        -- apply all_good_spec. intros t o Ho. by rewrite (Hp t o Ho).
        -- intros tests t Hsel Ht. apply Hlisted in Hsel. exists t, Pass. split; [by eapply Hin|by left].
    + rewrite all_good_spec. setoid_rewrite not_bad. setoid_rewrite Hlisted. naive_solver.
  - assert (Hrow : exists line, is_row (results_text i) line).
    { destruct (map_choose _ Hemp) as (t & o & Ho). destruct (read_rows_spec _ _ _ Hb) as [_ Hsaid].
      destruct (Hsaid t o Ho) as (line & ? & _). by exists line. }
    unfold inherit_exit. rewrite (bool_decide_false (results (rows_results rows) = ∅)) by done.
    rewrite Hrg. setoid_rewrite Hlisted.
    assert (Hrep : forall t, reported (rows_results rows) t <->
      exists line t' o, is_row (results_text i) line /\ Says row_from_json line t' o
        /\ (t' = t \/ (case t = None /\ step t' = step t))).
    { destruct (read_rows_spec _ _ _ Hb) as [Hall Hsaid]. intros t. unfold reported. split.
      - intros (t' & o & Ho & Ht). destruct (Hsaid _ _ Ho) as (line & ? & ?). by exists line, t', o.
      - intros (line & t' & o & Hl & Hs & Ht). destruct (Hall line Hl) as (t2 & o2 & w & Hs2 & Hw & _).
        destruct (Says_once _ _ _ _ _ _ Hs Hs2) as [<- <-]. by exists t', w. }
    setoid_rewrite Hrep. naive_solver.
Qed.

(** C25: A command validation is green exactly when the runner was started, ended by
    itself with exit status zero, was neither cancelled nor stopped early, and left the
    evidence of [green_evidence]: readable rows of which none says an error or a missing test,
    and a failure only of a test another row calls skipped (outcomes of one test are
    combined in the order of the variants, where a skip is worse than a failure), and
    a row for every selected test or, for a whole step, one of its cases.  A runner
    that writes no row is judged by the verdict lines of its log; and one that reports
    nothing at all is green as well: every selected test inherits the exit status, and
    the results are marked unattributed. *)
Theorem green_verdict_means :
  (forall secs_to_ms row_from_json `(StrDebug) i,
     let r := (command_ran secs_to_ms row_from_json i).1 in
     let logged := parse_step_lines secs_to_ms (in_log_text i) in
     (green r = true <->
        fin_early_red (finished i) = false /\ fin_exit (finished i) = Some 0%Z
        /\ fin_cancelled (finished i) = false /\ spawn_error (finished i) = None
        /\ green_evidence secs_to_ms row_from_json i) /\
     (green r = true -> (forall line, ~ is_row (results_text i) line) -> results logged = ∅ ->
        unattributed (ran_results r) = true
        /\ forall tests t, in_selection i = Tests tests -> t ∈ tests -> results (ran_results r) !! t = Some Pass)) /\
  (forall secs_to_ms `(StrDebug),
     green (command_ran secs_to_ms twice_rows twice_input).1 = true /\
     green (command_ran secs_to_ms twice_rows silent_input).1 = true).
Proof.
  split; [|by intros; split; vm_compute]. intros secs_to_ms row_from_json ? i. cbv zeta.
  destruct (command_ran_green secs_to_ms row_from_json i) as [Hg Hrs]. cbv zeta in *. split.
  - rewrite Hg. pose proof (evidence_spec secs_to_ms row_from_json i). tauto.
  - intros Hgreen Hno Hlog. pose proof Hgreen as (_ & He & _ & _ & Hb & Hall)%Hg. rewrite (Hrs Hgreen).
    rewrite (require_good_id _ _ Hall). by edestruct silent_results as (? & _ & ?).
Qed.

Lemma green_verdict_means_witness :
  let r := (@command_ran (fun _ => None) twice_rows plain_debug silent_input).1 in
  unattributed (ran_results r) = true /\ results (ran_results r) !! TestId_step "t" = Some Pass.
Proof.
  cbv zeta. destruct green_verdict_means as [Hv Hruns].
  destruct (Hv (fun _ => None) twice_rows plain_debug silent_input) as [_ Hsilent].
  destruct (Hruns (fun _ => None) plain_debug) as [_ Hgreen].
  destruct (Hsilent Hgreen) as [Hu Hp]; [by intros line [?%elem_of_nil _]|done|].
  split; [exact Hu|]. apply (Hp {[TestId_step "t"]}); [by_eval|by apply elem_of_singleton].
Defined.
