(* ===== verification/AgentStore.v ===== *)
(** * agent-queue: the files of a queue and the calls on them
    ([rs/agent-queue/src/fsio.rs], [error.rs])

    A queue is the set of its directories and a map from paths to contents.  Every
    call on it is one tick of a clock, at which the process may die or the call may
    fail, and before which another process may have left a tombstone: [cancel] takes
    no lock to write one.  So a run of an operation is a run up to any crash.  The
    ghost [log] says what was queued, taken and typed. *)
From S2P Require Import Prelude RustStr External.

(** ** Paths, errors, state *)

Inductive Directory := INBOX | INFLIGHT | PROCESSED | FAILED | INBOX_V2 | CANCEL | CANCELLED.

#[global] Instance Directory_eq_dec : EqDecision Directory.
Proof. solve_decision. Defined.

Definition Directory_code (d : Directory) : nat :=
  match d with
  | INBOX => 0 | INFLIGHT => 1 | PROCESSED => 2 | FAILED => 3
  | INBOX_V2 => 4 | CANCEL => 5 | CANCELLED => 6
  end.

#[global] Instance Directory_countable : Countable Directory.
Proof.
  refine (inj_countable' Directory_code (fun n => nth n
    [INBOX; INFLIGHT; PROCESSED; FAILED; INBOX_V2; CANCEL; CANCELLED] INBOX) _).
  by intros [].
Defined.

(** A file: the directory it is in and its name. *)
Abbreviation Path := (Directory * string)%type.

Inductive ErrorKind := Io | Unsafe | Invalid | Duplicate | WaitCancelled | Process.

#[global] Instance ErrorKind_eq_dec : EqDecision ErrorKind.
Proof. solve_decision. Defined.

(** An error carries what the source formats into its message. *)
Inductive Error :=
| IoError (action : string) (path : Path)
| IoDirectory (action : string) (directory : option Directory)
| JsonInvalid (path : Path)
| WouldReplace (destination : Path)
| DuplicateId (identifier : string)
| MessageIdInvalid
| NotAfterInvalid (identifier : string)
| ItemInvalid (identifier : string)
| DifferentId (path : Path)
| MultiplePhases (identifier : string)
| Unreadable (path : Path) (error : Error)
| NotAnObject (path : Path)
| TextEmpty (path : Path)
| IdNotAString (path : Path)
| AttemptsInvalid (path : Path) (key : string)
| NotJsonName (path : Path)
| NoTextField.

Definition error_kind (e : Error) : ErrorKind :=
  match e with
  | IoError _ _ | IoDirectory _ _ => Io
  | WouldReplace _ | DuplicateId _ => Duplicate
  | _ => Invalid
  end.

(** What the model remembers of a queue's history. *)
Inductive event :=
| Queued (name : string)
(** Moved from a pending lane to [inflight/]; was there a tombstone then? *)
| Taken (name : string) (tombstone : bool)
(** Handed to the terminal: had an earlier delivery left it on the screen, did input
    begin, and was it reported back as not delivered and safe to type again? *)
| Typing (name : string) (stranded started returned : bool).

Section store.
Context `{JsonNumber}.

(** A file is what [read_json] makes of it; [None] is a file it cannot read. *)
Abbreviation content := (option value).

Record Queue := {
  root : bool;
  dirs : gset Directory;
  files : gmap Path content;
  clock : nat;
  log : list event
}.

Definition no_queue : Queue := {| root := false; dirs := ∅; files := ∅; clock := 0; log := [] |}.

(** What a run meets, by the clock. *)
Class World := {
  dies : nat -> bool;
  io_fails : nat -> bool;
  stat_fails : nat -> bool;
  lock_busy : nat -> bool;
  tombstones : nat -> list (string * content);
  unix_seconds : nat -> number;
  now_millis : nat -> Z;
  (** [Display] of an error, for the sidecar of a quarantined item. *)
  error_text : Error -> string;
  (** [Display] of a JSON value: its text. *)
  value_text : value -> string;
}.

(** ** Operations: a state, and a result, an error or the death of the process *)

Inductive outcome (A : Type) :=
| Done (a : A)
| Fails (e : Error)
| Died.
Arguments Done {A} a.
Arguments Fails {A} e.
Arguments Died {A}.

Definition Op (A : Type) : Type := Queue -> Queue * outcome A.

#[global] Instance op_ret : MRet Op := fun A a q => (q, Done a).
#[global] Instance op_bind : MBind Op := fun A B f m q =>
  match m q with
  | (q, Done a) => f a q
  | (q, Fails e) => (q, Fails e)
  | (q, Died) => (q, Died)
  end.

Definition fail {A} (e : Error) : Op A := fun q => (q, Fails e).
Definition die {A} : Op A := fun q => (q, Died).
Definition gets {A} (f : Queue -> A) : Op A := fun q => (q, Done (f q)).
Definition modify (f : Queue -> Queue) : Op () := fun q => (f q, Done ()).

(** The [Result] of a call, for code that looks at it. *)
Definition attempt {A} (m : Op A) : Op (result Error A) := fun q =>
  match m q with
  | (q, Done a) => (q, Done (Ok a))
  | (q, Fails e) => (q, Done (Err e))
  | (q, Died) => (q, Died)
  end.

Definition from_result {A} (r : result Error A) : Op A :=
  match r with Ok a => mret a | Err e => fail e end.

(** [for x in l { ... }], collecting nothing, and with an accumulator. *)
Fixpoint for_each {A} (l : list A) (f : A -> Op ()) : Op () :=
  match l with [] => mret () | x :: l => f x;; for_each l f end.
Fixpoint fold_op {A B} (f : B -> A -> Op B) (l : list A) (b : B) : Op B :=
  match l with [] => mret b | x :: l => b ← f b x; fold_op f l b end.

(** ** One call *)

Definition set_files (f : gmap Path content -> gmap Path content) (q : Queue) : Queue :=
  {| root := root q; dirs := dirs q; files := f (files q); clock := clock q; log := log q |}.
Definition add_dir (d : Directory) (q : Queue) : Queue :=
  {| root := root q; dirs := {[d]} ∪ dirs q; files := files q; clock := clock q; log := log q |}.
Definition set_root (q : Queue) : Queue :=
  {| root := true; dirs := dirs q; files := files q; clock := clock q; log := log q |}.
Definition record_event (e : event) (q : Queue) : Queue :=
  {| root := root q; dirs := dirs q; files := files q; clock := clock q; log := e :: log q |}.

(** Another process writes [cancel/<name>], which never replaces. *)
Definition arrive (q : Queue) (t : string * content) : Queue :=
  if root q then
    add_dir CANCEL (set_files (fun fs =>
      match fs !! (CANCEL, t.1) with Some _ => fs | None => <[(CANCEL, t.1) := t.2]> fs end) q)
  else q.

Context `{World}.

Definition tick (q : Queue) : Queue :=
  foldl arrive {| root := root q; dirs := dirs q; files := files q; clock := S (clock q); log := log q |}
    (tombstones (clock q)).

(** A call that may fail as [fails] says. *)
Definition call_with (fails : nat -> bool) (e : Error) : Op () := fun q =>
  if dies (clock q) then (tick q, Died)
  else if fails (clock q) then (tick q, Fails e) else (tick q, Done ()).

Definition call (action : string) (path : Path) : Op () := call_with io_fails (IoError action path).
Definition call_on (action : string) (d : option Directory) : Op () :=
  call_with io_fails (IoDirectory action d).

(** ** Files *)

Definition file_exists (path : Path) (q : Queue) : bool :=
  match files q !! path with Some _ => true | None => false end.

(** [fs::symlink_metadata], whose error other than [NotFound] is returned *)
Definition stat (action : string) (path : Path) : Op bool :=
  call_with stat_fails (IoError action path);; gets (file_exists path).
(** and with [is_ok()], which takes any error for absence. *)
Definition stat_is_ok (path : Path) : Op bool :=
  r ← attempt (stat "" path); mret (match r with Ok b => b | Err _ => false end).
Definition stat_directory (d : Directory) : Op bool :=
  r ← attempt (call_with stat_fails (IoDirectory "" (Some d)));
  gets (fun q => is_ok r && bool_decide (d ∈ dirs q)).
Definition stat_root : Op bool :=
  r ← attempt (call_with stat_fails (IoDirectory "" None)); gets (fun q => is_ok r && root q).

Definition sync_directory (d : Directory) : Op () :=
  call_on "sync durable queue directory" (Some d).

(** [read_json] *)
Definition read_json (path : Path) : Op value :=
  call "read JSON" path;;
  c ← gets (fun q => files q !! path);
  match c with
  | Some (Some v) => mret v
  | Some None => fail (JsonInvalid path)
  | None => fail (IoError "read JSON" path)
  end.

(** [fs::rename] onto [path] of a temporary written in the same directory: a missing
    directory fails the write. *)
Definition put (path : Path) (v : value) : Op () :=
  present ← gets (fun q => bool_decide (path.1 ∈ dirs q));
  if present : bool then modify (set_files (<[path := Some v]>))
  else fail (IoError "write durable JSON" path).

(** [atomic_json] *)
Definition atomic_json (path : Path) (v : value) : Op () :=
  call "write durable JSON" path;;
  call "write durable JSON" path;;
  put path v;;
  call "write durable JSON" path.

Definition is_lane (d : Directory) : bool :=
  match d with INBOX | INBOX_V2 => true | _ => false end.

(** [fs::hard_link] of the temporary: [false] is [AlreadyExists]. *)
Definition link (path : Path) (v : value) : Op bool :=
  exists_ ← gets (file_exists path);
  if exists_ : bool then mret false else
  put path v;;
  (if is_lane path.1 then modify (record_event (Queued path.2)) else mret ());;
  mret true.

(** [atomic_json_create]: [false] is [AlreadyExists]. *)
Definition atomic_json_create (path : Path) (v : value) : Op bool :=
  call "create durable JSON" path;;
  call "create durable JSON" path;;
  created ← link path v;
  if created : bool then
    call "create durable JSON" path;; call "create durable JSON" path;; mret true
  else mret false.

(** [fs::rename] *)
Definition moved (source destination : Path) (c : content) (q : Queue) : Queue :=
  let q' := set_files (fun fs => <[destination := c]> (delete source fs)) q in
  if is_lane source.1 && bool_decide (destination.1 = INFLIGHT) then
    record_event (Taken source.2 (file_exists (CANCEL, source.2) q)) q'
  else q'.

Definition rename (source destination : Path) : Op () :=
  call "transition durable queue artifact" source;;
  c ← gets (fun q => if bool_decide (destination.1 ∈ dirs q) then files q !! source else None);
  match c with
  | Some c => modify (moved source destination c)
  | None => fail (IoError "transition durable queue artifact" source)
  end.

Definition transition (source destination : Path) : Op () :=
  exists_ ← stat "inspect durable queue destination" destination;
  if exists_ : bool then fail (WouldReplace destination) else
  rename source destination;;
  sync_directory destination.1;;
  if decide (source.1 = destination.1) then mret () else sync_directory source.1.

(** [fs::remove_file] *)
Definition remove_file (action : string) (path : Path) : Op () :=
  call action path;;
  exists_ ← gets (file_exists path);
  if exists_ : bool then modify (set_files (delete path)) else fail (IoError action path).

(** [create_private_directory] and [repair_private_directory] of a directory of the queue: its
    owner and mode are not modelled. *)
Definition create_private_directory (d : Directory) : Op () :=
  call_on "create" (Some d);; modify (add_dir d).

(** The names in a directory, in order. *)
Definition names_in (d : Directory) (q : Queue) : list string :=
  btree_elems (set_map snd (filter (fun p : Path => p.1 = d) (dom (files q))) : gset string).
End store.

Arguments Done {A} a.
Arguments Fails {A} e.
Arguments Died {A}.
