(* ===== verification/AgentQueue.v ===== *)
(** * agent-queue: the operations on a queue ([rs/agent-queue/src/queue.rs])

    Enqueue with its duplicate check, where an item is, withdrawal, cancellation,
    queue order, and the recovery of items left in [inflight/]. *)
From S2P Require Import Prelude RustStr External AgentStore.

Definition MESSAGE_ID_MAX : nat := 255.
Definition NOT_AFTER : string := "not_after".

Inductive MessageState := Pending | Inflight | Processed | Failed | Cancelled.

#[global] Instance MessageState_eq_dec : EqDecision MessageState.
Proof. solve_decision. Defined.

(** ** The directories *)

Definition all_directories : list Directory := [INBOX; INFLIGHT; PROCESSED; FAILED].
Definition lane_directories : list Directory := [INBOX_V2; CANCEL; CANCELLED].
Definition states : list (Directory * MessageState) :=
  [(INBOX, Pending); (INBOX_V2, Pending); (INFLIGHT, Inflight); (PROCESSED, Processed);
   (FAILED, Failed); (CANCELLED, Cancelled)].

Inductive Lane := Inbox | InboxV2.

(** ** Identifiers *)

Definition id_byte (c : ascii) : bool := is_alnum c || (c =? ".")%char || (c =? "_")%char || (c =? "-")%char.

Definition valid_message_id (identifier : string) : bool :=
  match identifier with
  | "" => false
  | String c _ => is_alnum c
  end && str_forallb id_byte identifier && (String.length identifier <=? MESSAGE_ID_MAX).

Definition validate_message_id (identifier : string) : result Error () :=
  if valid_message_id identifier then Ok () else Err MessageIdInvalid.

(** [format!("{nanoseconds:020}-{pid}")] *)
Fixpoint zeros (n : nat) : string := match n with O => "" | S n => String "0" (zeros n) end.
Definition generated_message_id (nanoseconds pid : N) : string :=
  let digits := pretty nanoseconds in
  zeros (20 - String.length digits) +:+ digits +:+ "-" +:+ pretty pid.

Definition file_name (identifier : string) : string := identifier +:+ ".json".

Definition message_id_from_path (path : Path) : result Error string :=
  match strip_suffix ".json" path.2 with
  | Some identifier => Ok identifier
  | None => Err (NotJsonName path)
  end.

Section queue.
Context `{JsonNumber, !JsonFloat, !World}.

Definition seconds_now : Op value := gets (fun q => Number (unix_seconds (clock q))).

(** ** Preparing the directories *)

Definition prepare_lane (d : Directory) : Op () :=
  existed ← stat_directory d;
  create_private_directory d;;
  if existed : bool then mret () else call_on "sync" None.

Definition prepare : Op () :=
  root_existed ← stat_root;
  call_on "create" None;; modify set_root;;
  (if root_existed : bool then mret () else call_on "sync" None);;
  for_each all_directories create_private_directory;;
  for_each lane_directories (fun d =>
    exists_ ← stat_directory d; if exists_ : bool then call_on "repair" (Some d) else mret ());;
  call_on "sync" None.

Definition validate_existing_queue : Op () := call_on "inspect queue directory" None.
Definition directory_identity : Op () := call_on "inspect queue directory" None.

(** [lock_delivery]: with a waiter that never waits, a lock another process holds is an error. *)
Definition lock_delivery (waits : bool) : Op () :=
  call_on "lock" None;;
  busy ← gets (fun q => lock_busy (clock q));
  if negb waits && busy then fail (IoDirectory "lock" None) else mret ().

(** ** Reading an item *)

Definition load_message (path : Path) : Op object :=
  read ← attempt (read_json path);
  match read with
  | Err e => fail (Unreadable path e)
  | Ok v =>
      match as_object v with
      | None => fail (NotAnObject path)
      | Some document =>
          if match obj_get document "text" ≫= as_str with None => true | Some t => str_is_empty t end
          then fail (TextEmpty path)
          else if match obj_get document "id" with
                  | Some (VString _) | None => false | Some _ => true end
          then fail (IdNotAString path)
          else mret document
      end
  end.

Definition delivery_attempts (document : object) (path : Path) : result Error Z :=
  let '(key, v) :=
    match obj_get document "delivery_attempts" with
    | Some v => ("delivery_attempts", Some v)
    | None => ("tui_delivery_attempts", obj_get document "tui_delivery_attempts")
    end in
  match v with
  | None => Ok 0%Z
  | Some v => match as_u64 v with Some n => Ok n | None => Err (AttemptsInvalid path key) end
  end.

(** ** Enqueue *)

Definition lane_fields_ok (lane : Lane) (document : value) : bool :=
  match lane, value_get document NOT_AFTER with
  | _, None | _, Some Null => true
  | Inbox, Some _ => false
  | InboxV2, Some v => match as_u64 v with Some _ => true | None => false end
  end.

Definition item_ok (identifier : string) (document : value) : bool :=
  match value_get document "text" ≫= as_str with None => false | Some t => negb (str_is_empty t) end &&
  match value_get document "id" with
  | None => true
  | Some v => bool_decide (as_str v = Some identifier)
  end.

Definition lane_directory (lane : Lane) : Directory :=
  match lane with Inbox => INBOX | InboxV2 => INBOX_V2 end.

(** [states().iter().any(|(directory, _)| symlink_metadata(..).is_ok())] *)
Fixpoint any_phase_has (ds : list Directory) (name : string) : Op bool :=
  match ds with
  | [] => mret false
  | d :: ds => found ← stat_is_ok (d, name); if found : bool then mret true else any_phase_has ds name
  end.

Definition enqueue_into (lane : Lane) (message_id : option string) (generated : string)
    (serialize : bool) (document : string -> value) : Op string :=
  prepare;;
  let identifier := default generated message_id in
  from_result (validate_message_id identifier);;
  let name := file_name identifier in
  (match lane with Inbox => mret () | InboxV2 => prepare_lane INBOX_V2 end);;
  (if serialize then directory_identity;; lock_delivery true else mret ());;
  found ← any_phase_has states.*1 name;
  if found : bool then fail (DuplicateId identifier) else
  let document := document identifier in
  if negb (lane_fields_ok lane document) then fail (NotAfterInvalid identifier) else
  if negb (item_ok identifier document) then fail (ItemInvalid identifier) else
  created ← atomic_json_create (lane_directory lane, name) document;
  if created : bool then mret identifier else fail (DuplicateId identifier).

Definition enqueue := enqueue_into Inbox.

Definition plain_item (identifier text : string) (queued_at : number) : value :=
  Object [("text", VString text); ("id", VString identifier); ("queued_at", Number queued_at);
          ("delivery_attempts", Number (number_of_u64 0))].

(** ** Where an item is *)

Definition has_own_id (document : object) (message_id : string) : bool :=
  bool_decide (obj_get document "id" ≫= as_str = Some message_id).

Fixpoint locate (message_id : string) (ds : list (Directory * MessageState))
    (observed : option MessageState) : Op (option MessageState) :=
  match ds with
  | [] => mret observed
  | (d, state) :: ds =>
      let path := (d, file_name message_id) in
      exists_ ← stat "inspect queue message" path;
      if exists_ : bool then
        document ← load_message path;
        if negb (has_own_id document message_id) then fail (DifferentId path) else
        match observed with
        | Some _ => fail (MultiplePhases message_id)
        | None => locate message_id ds (Some state)
        end
      else locate message_id ds observed
  end.

Definition message_state (message_id : string) : Op (option MessageState) :=
  from_result (validate_message_id message_id);;
  exists_ ← stat_root;
  if exists_ : bool then validate_existing_queue;; locate message_id states None else mret None.

(** ** Listing *)

(** [json_paths] *)
Definition json_paths (d : Directory) : Op (list Path) :=
  call_on "list durable queue directory" (Some d);;
  present ← gets (fun q => bool_decide (d ∈ dirs q));
  if present : bool then
    gets (fun q => pair d <$> List.filter (fun name => ends_with name ".json") (names_in d q))
  else fail (IoDirectory "list durable queue directory" (Some d)).

Definition identifiers (d : Directory) : Op (list string) :=
  paths ← json_paths d; from_result (collect_results message_id_from_path paths).

Definition identifiers_if_directory (d : Directory) : Op (list string) :=
  call_with stat_fails (IoDirectory "inspect queue state directory" (Some d));;
  present ← gets (fun q => bool_decide (d ∈ dirs q));
  if present : bool then identifiers d else mret [].

Definition pending_identifiers : Op (list string) :=
  exists_ ← stat_root;
  if exists_ : bool then
    validate_existing_queue;;
    inbox ← identifiers_if_directory INBOX;
    inbox_v2 ← identifiers_if_directory INBOX_V2;
    mret (sort_by_key id (inbox ++ inbox_v2))
  else mret [].

(** *** Queue order *)

Definition queued_at_of (read : result Error value) : option f64 :=
  f64_one_zero <$> (result_ok read ≫= fun document =>
    value_get document "queued_at" ≫= fun v =>
    match v with Number n => number_as_f64 n | _ => None end).

Abbreviation entry := (option f64 * (string * nat) * Path)%type.

Fixpoint order_entries (lane : nat) (paths : list Path) : Op (list entry) :=
  match paths with
  | [] => mret []
  | path :: paths =>
      read ← attempt (read_json path);
      rest ← order_entries lane paths;
      mret ((queued_at_of read, (path.2, lane), path) :: rest)
  end.

Fixpoint lane_entries (lane : nat) (ds : list Directory) : Op (list entry) :=
  match ds with
  | [] => mret []
  | d :: ds =>
      paths ← json_paths d;
      entries ← order_entries lane paths;
      rest ← lane_entries (S lane) ds;
      mret (entries ++ rest)
  end.

Definition in_queue_order (ds : list Directory) : Op (list Path) :=
  entries ← lane_entries 0 ds; mret (snd <$> sort_by_key fst entries).

Definition inbox_in_queue_order : Op (list Path) := in_queue_order [INBOX].

Definition pending_in_queue_order : Op (list Path) :=
  exists_ ← stat_directory INBOX_V2;
  if exists_ : bool then
    call_on "validate queue lane directory" (Some INBOX_V2);; in_queue_order [INBOX; INBOX_V2]
  else in_queue_order [INBOX].
End queue.
