(* ===== verification/AgentMoves.v ===== *)
(** * agent-queue: withdrawal, recovery and cancellation ([rs/agent-queue/src/queue.rs])

    The operations that move an item between the directories of a queue. *)
From S2P Require Import Prelude RustStr External AgentStore AgentQueue.

Inductive CancelOutcome :=
| SetAside | StillPending | Unknown | MaybeTyping | TooLate | AlreadyCancelled.

#[global] Instance CancelOutcome_eq_dec : EqDecision CancelOutcome.
Proof. solve_decision. Defined.

Section moves.
Context `{JsonNumber, !JsonFloat, !World}.

Definition remove_keys (keys : list string) (document : object) : object :=
  foldl (fun document key => obj_remove key document) document keys.

(** ** [withdraw] *)

Fixpoint pending_path (name : string) (ds : list Directory) : Op (option Path) :=
  match ds with
  | [] => mret None
  | d :: ds =>
      exists_ ← stat "inspect queue message" (d, name);
      if exists_ : bool then mret (Some (d, name)) else pending_path name ds
  end.

Definition withdraw (message_id : string) : Op bool :=
  from_result (validate_message_id message_id);;
  exists_ ← stat_root;
  if exists_ : bool then
    validate_existing_queue;;
    directory_identity;; lock_delivery true;;
    found ← pending_path (file_name message_id) [INBOX; INBOX_V2];
    match found with
    | None => mret false
    | Some path =>
        document ← load_message path;
        if negb (has_own_id document message_id) then fail (DifferentId path) else
        remove_file "withdraw queued message" path;;
        sync_directory path.1;;
        mret true
    end
  else mret false.

(** ** Quarantine *)

Definition QuarantineSidecar (artifact outcome error : string) (failed_at : value) : value :=
  Object [("artifact", VString artifact);
          ("outcome", VString (if (outcome =? "invalid_message")%string
                               then "invalid_message" else "possibly_submitted"));
          ("error", VString error); ("failed_at", failed_at)].

Definition sidecar_name (name : string) : string := name +:+ ".error".

Definition failed_metadata (failed_path : Path) (outcome error : string) : Op () :=
  failed_at ← seconds_now;
  atomic_json (failed_path.1, sidecar_name failed_path.2)
    (QuarantineSidecar failed_path.2 outcome error failed_at).

Definition quarantine_raw (path : Path) (outcome error : string) : Op string :=
  let destination := (FAILED, path.2) in
  transition path destination;;
  failed_metadata destination outcome error;;
  from_result (message_id_from_path path).

(** ** Items left in [inflight/] *)

(** The lane an item came from, as a tracking drainer records it. *)
Definition origin_lane (document : object) : option Directory :=
  match obj_get document "inflight_from" ≫= as_str with
  | Some "inbox" => Some INBOX
  | Some "inbox.v2" => Some INBOX_V2
  | _ => None
  end.

Definition is_tracked (document : object) : bool :=
  match obj_get document "paste_tracking" with Some (VBool true) => true | _ => false end.

(** An error recorded before anything was typed, with no attempt counted. *)
Definition never_typed_error (document : object) : bool :=
  bool_decide (default 0%Z (obj_get document "delivery_attempts" ≫= as_u64) = 0%Z) &&
  match obj_get document "delivery_error" ≫= as_str with
  | Some e => contains e "nothing was typed" || contains e "does not show a recognisable"
  | None => false
  end.

Definition repended (document : object) : object :=
  obj_insert "delivery_state" (VString "pending")
    (remove_keys ["possibly_submitted"; "inflight_at"; "paste_tracking"; "inflight_from"] document).

Definition repend_never_typed (path : Path) : Op bool :=
  loaded ← attempt (load_message path);
  match loaded with
  | Err _ => mret false
  | Ok document =>
      let never := never_typed_error document in
      if negb never && (negb (is_tracked document) || has_key document "paste_started_at")
      then mret false else
      let document := if never then obj_remove "paste_started_at" document else document in
      match origin_lane document with
      | None => mret false
      | Some lane =>
          present ← stat_directory lane;
          if present : bool then
            atomic_json path (Object (repended document));;
            transition path (lane, path.2);;
            mret true
          else mret false
      end
  end.

Definition stranded (document : object) (now : value) : object :=
  let document :=
    if has_key document "stranded_at" then document
    else obj_insert "stranded_at" (default now (obj_get document "paste_started_at")) document in
  obj_remove "paste_started_at" (repended document).

Definition repend_stranded (path : Path) : Op (list string) :=
  loaded ← attempt (load_message path);
  match loaded with
  | Err _ => mret []
  | Ok document =>
      if negb (is_tracked document) || negb (has_key document "paste_started_at")
      then mret [] else
      match origin_lane document with
      | None => mret []
      | Some lane =>
          present ← stat_directory lane;
          if present : bool then
            now ← seconds_now;
            atomic_json path (Object (stranded document now));;
            identifier ← from_result (message_id_from_path path);
            transition path (lane, path.2);;
            mret [identifier]
          else mret []
      end
  end.

Definition repend_stranded_inflight : Op (list string) :=
  paths ← json_paths INFLIGHT;
  fold_op (fun repended path => ids ← repend_stranded path; mret (repended ++ ids)) paths [].

Definition RECOVERED : string :=
  "recovered an inflight prompt after process restart; refusing automatic resubmission".

Definition recover_item (path : Path) : Op (list string) :=
  untyped ← repend_never_typed path;
  if untyped : bool then mret [] else
  transition path (FAILED, path.2);;
  failed_metadata (FAILED, path.2) "possibly_submitted" RECOVERED;;
  identifier ← from_result (message_id_from_path path);
  mret [identifier].

Definition recover_inflight : Op (list string) :=
  paths ← json_paths INFLIGHT;
  fold_op (fun recovered path => ids ← recover_item path; mret (recovered ++ ids)) paths [].

(** ** Setting items aside *)

Definition set_aside_reason (message_id : string) (document : object)
  : Op (option (string * string)) :=
  let tombstone := (CANCEL, file_name message_id) in
  exists_ ← stat_is_ok tombstone;
  if exists_ : bool then
    read ← attempt (read_json tombstone);
    mret (Some ("cancelled", default "" (result_ok read ≫= fun v => value_get v "reason" ≫= as_str)))
  else
    now ← gets (fun q => now_millis (clock q));
    mret match obj_get document NOT_AFTER with
         | None | Some Null => None
         | Some not_after =>
             match as_u64 not_after with
             | Some deadline =>
                 if bool_decide (now < deadline)%Z then None
                 else Some ("expired", "not_after " +:+ pretty deadline +:+ " passed at " +:+ pretty now)
             | None => Some ("expired", "invalid not_after " +:+ value_text not_after)
             end
         end.

Definition set_aside_document (document : object) (reason detail : string) (now : value) : object :=
  obj_insert "cancelled_at" now (obj_insert "cancel_detail" (VString detail)
    (obj_insert "cancel_reason" (VString reason) (obj_insert "delivery_state" (VString "cancelled")
      (remove_keys ["possibly_submitted"; "inflight_at"; "paste_tracking"; "inflight_from";
                    "paste_started_at"] document)))).

Definition set_aside (path : Path) (document : object) (reason detail : string) : Op string :=
  prepare_lane CANCELLED;;
  now ← seconds_now;
  atomic_json path (Object (set_aside_document document reason detail now));;
  transition path (CANCELLED, path.2);;
  identifier ← from_result (message_id_from_path path);
  (if (reason =? "cancelled")%string then
     removed ← attempt (remove_file "" (CANCEL, file_name identifier));
     if is_ok removed then sync_directory CANCEL else mret ()
   else mret ());;
  mret identifier.

(** ** [cancel] *)

Fixpoint settled_state (attempts : nat) (message_id : string) : Op (option MessageState) :=
  looked ← attempt (message_state message_id);
  match looked, attempts with
  | Ok state, _ => mret state
  | Err e, S attempts =>
      if decide (error_kind e = Invalid) then settled_state attempts message_id else fail e
  | Err e, O => fail e
  end.

Definition Tombstone (id reason : string) (cancelled_at : value) : value :=
  Object [("id", VString id); ("reason", VString reason); ("cancelled_at", cancelled_at)].

Fixpoint set_aside_pending (name reason : string) (ds : list Directory) : Op bool :=
  match ds with
  | [] => mret false
  | d :: ds =>
      exists_ ← stat_is_ok (d, name);
      if exists_ : bool then
        document ← load_message (d, name);
        set_aside (d, name) document "cancelled" reason;;
        mret true
      else set_aside_pending name reason ds
  end.

Definition report (state : option MessageState) : CancelOutcome :=
  match state with
  | Some Pending => StillPending
  | Some Inflight => MaybeTyping
  | Some (Processed | Failed) => TooLate
  | Some Cancelled => AlreadyCancelled
  | None => Unknown
  end.

Definition cancel (message_id reason : string) : Op CancelOutcome :=
  from_result (validate_message_id message_id);;
  prepare;;
  state ← settled_state 5 message_id;
  match state with
  | Some Cancelled => mret AlreadyCancelled
  | Some (Processed | Failed) => mret TooLate
  | _ =>
      prepare_lane CANCEL;;
      now ← seconds_now;
      atomic_json_create (CANCEL, file_name message_id) (Tombstone message_id reason now);;
      directory_identity;;
      locked ← attempt (lock_delivery false);
      done_ ← (if is_ok locked then set_aside_pending (file_name message_id) reason [INBOX; INBOX_V2]
               else mret false);
      if done_ : bool then mret SetAside else
      state ← settled_state 5 message_id;
      mret (report state)
  end.
End moves.
