(* ===== verification/AgentDrain.v ===== *)
(** * agentctl: draining a queue ([rs/agentctl/src/agent.rs], [drain_with_runtime_binding])

    One drain of a queue into a terminal, with the recovery it starts with, for the
    default of one message per prompt.  The terminal is what the drain is given: when
    a wait ends, how a delivery goes. *)
From S2P Require Import Prelude RustStr External AgentStore AgentQueue AgentMoves.

(** ** Prompts *)

Definition HEADER_SEPARATOR : string := " · ".

Record Header := { sender : string; route : string; fields : list (string * string) }.

Fixpoint split_str (fuel : nat) (sep s : string) : list string :=
  match fuel, split_once_str sep s with
  | S fuel, Some (part, rest) => part :: split_str fuel sep rest
  | _, _ => [s]
  end.

(** [is_sender_label] *)
Definition is_sender_label (label : string) : bool :=
  negb (str_is_empty label) &&
  forallb (fun word => negb (str_is_empty word) &&
    negb (existsb (fun c => char_is_whitespace c || (c =? "·")%string || (c =? "]")%string) (chars word)))
    (split_byte " " label) &&
  negb (contains label " via ").

Definition header_key_byte (c : ascii) : bool := is_lower c || (c =? "-")%char.

Definition header_field (part : string) : option (string * string) :=
  '(key, value) ← split_once_str ": " part;
  if str_is_empty key || negb (str_forallb header_key_byte key) || str_is_empty (str_trim value)
     || contains value "·" then None else Some (key, value).

(** [sender_header::parse] *)
Definition parse_header (line : string) : option Header :=
  inner ← strip_prefix "[from " line ≫= strip_suffix "]";
  if contains inner "]" || str_contains_byte nl inner then None else
  match split_str (String.length inner) HEADER_SEPARATOR inner with
  | [] => None
  | first :: parts =>
      '(sender, route) ← split_once_str " via " first;
      if negb (is_sender_label sender) || str_is_empty (str_trim route) || contains route "·"
      then None else
      fields ← mapM header_field parts;
      Some {| sender := sender; route := route; fields := fields |}
  end.

Definition is_lower_hex (c : ascii) : bool :=
  is_digit c || ((97 <=? N_of_ascii c)%N && (N_of_ascii c <=? 102)%N).
Definition valid_key (value : string) : bool :=
  (String.length value =? 64) && str_forallb is_lower_hex value.
Definition request_key_of_message (message_id : string) : option string :=
  key ← strip_prefix "chat-" message_id; if valid_key key then Some key else None.

Definition MAX_ARGUMENT_CHARS : nat := 2000.
Definition char_is_control (ch : string) : bool :=
  let n := char_code ch in in_codes 0 31 n || in_codes 127 159 n.

(** [goal_command::argument] *)
Definition goal_argument (text : string) : option string :=
  rest ← strip_prefix "/goal" (str_trim text);
  if negb (starts_with rest " " || starts_with rest (str1 "009")) then None else
  let argument := str_trim rest in
  if negb (str_is_empty argument) && (length (chars argument) <=? MAX_ARGUMENT_CHARS)
     && negb (existsb char_is_control (chars argument)) then Some argument else None.

Definition STRANDED_PROMPT_KIND : string := "stranded_prompt".
Definition is_stranded_prompt (detail : string) : bool := contains detail (STRANDED_PROMPT_KIND +:+ ":").
Definition LATE_PASTE_LOST : string := "late_paste_lost".
Definition is_late_paste_lost (detail : string) : bool := starts_with detail (LATE_PASTE_LOST +:+ ":").
Definition COMPOSER_UNREADABLE_KIND : string := "composer_unreadable".
Definition is_composer_unreadable (detail : string) : bool := starts_with detail COMPOSER_UNREADABLE_KIND.
Definition DIGEST_ID_PREFIX : string := "failed-digest-".

Definition MAX_LOST_PASTE_PASSES : Z := 3.
Definition MAX_MISROUTES : nat := 2.
(** The length of [COMPOSER_RETRY_DELAYS]. *)
Definition COMPOSER_RETRIES : nat := 3.

Definition u64_succ_sat (n : Z) : Z := Z.min (2 ^ 64 - 1) (n + 1).

(** ** What a drain is given, keeps and returns *)

Inductive Delivered :=
| Confirmed (verified : bool) (evidence : option string) (queued : bool)
| NotStaged (detail : string)
| Misrouted (detail : string).

Record Undelivered := { error_detail : string; probable_misroute : bool }.

(** How one delivery goes: whether input began, the placeholder a paste was drawn as, and
    the report, if the process lives to see it. *)
Record Delivery := {
  input_started : bool;
  paste_label : option string;
  reported : option (result Undelivered Delivered)
}.

(** Whether a report says that the prompt may be typed again. *)
Definition gives_back (report : option (result Undelivered Delivered)) : bool :=
  match report with
  | Some (Ok (NotStaged detail)) => negb (is_stranded_prompt detail || is_late_paste_lost detail)
  | Some (Ok (Misrouted _)) => true
  | _ => false
  end.

Class Terminal := {
  past_deadline : nat -> bool;
  (** [pace_burst] *)
  pace : nat -> result string (option string);
  (** the readiness wait, told whether the text may be typed into a working pane *)
  readiness : nat -> bool -> result string ();
  (** [submit_with_runtime] and the wait for its confirmation, told of a stranded retry *)
  deliver : nat -> string -> bool -> Delivery;
  runtime_cancelled : nat -> bool;
  fits_deadline : nat -> nat -> bool;
  (** [prompt_time::retime] *)
  retime : nat -> string -> string -> string -> option string;
  deadline_seconds : string
}.

Record DrainOptions := {
  max_attempts : Z;
  max_items : option nat;
  priority_only : option string
}.

Record Progress := {
  delivered : list string;
  quarantined : list string;
  cancelled : list string;
  typed : nat;
  blocked : option string;
  burst_delivered_seen : nat;
  burst_confirmed : bool
}.

Definition add_delivered (id : string) (p : Progress) : Progress :=
  {| delivered := delivered p ++ [id]; quarantined := quarantined p; cancelled := cancelled p;
     typed := typed p; blocked := blocked p; burst_delivered_seen := burst_delivered_seen p;
     burst_confirmed := burst_confirmed p |}.
Definition add_quarantined (id : string) (p : Progress) : Progress :=
  {| delivered := delivered p; quarantined := quarantined p ++ [id]; cancelled := cancelled p;
     typed := typed p; blocked := blocked p; burst_delivered_seen := burst_delivered_seen p;
     burst_confirmed := burst_confirmed p |}.
Definition add_cancelled (id : string) (p : Progress) : Progress :=
  {| delivered := delivered p; quarantined := quarantined p; cancelled := cancelled p ++ [id];
     typed := typed p; blocked := blocked p; burst_delivered_seen := burst_delivered_seen p;
     burst_confirmed := burst_confirmed p |}.
Definition count_typed (counted : bool) (p : Progress) : Progress :=
  {| delivered := delivered p; quarantined := quarantined p; cancelled := cancelled p;
     typed := if counted then typed p else S (typed p); blocked := blocked p;
     burst_delivered_seen := burst_delivered_seen p; burst_confirmed := burst_confirmed p |}.
Definition block (detail : string) (p : Progress) : Progress :=
  {| delivered := delivered p; quarantined := quarantined p; cancelled := cancelled p;
     typed := typed p; blocked := Some detail; burst_delivered_seen := burst_delivered_seen p;
     burst_confirmed := burst_confirmed p |}.
Definition set_burst (seen : nat) (confirmed : bool) (p : Progress) : Progress :=
  {| delivered := delivered p; quarantined := quarantined p; cancelled := cancelled p;
     typed := typed p; blocked := blocked p; burst_delivered_seen := seen;
     burst_confirmed := confirmed |}.

(** [continue 'message], [break 'message], [continue 'retry]. *)
Inductive flow := NextMessage | StopDrain | TryAgain (unreadable_retries : nat) | OutOfFuel.

Inductive QueueOutcome := QDelivered | QPending | QPossiblySubmitted.

Record QueueResult := {
  result_delivered : list string;
  result_quarantined : list string;
  result_pending : list string;
  result_cancelled : list string;
  result_blocked : option string;
  result_outcome : QueueOutcome
}.

Section drain.
Context `{JsonNumber, !JsonFloat, !World, !Terminal}.

(** ** The texts of a prompt *)

Definition message_text (document : object) : option string := obj_get document "text" ≫= as_str.

Definition first_line (text : string) : string := default "" (head (str_lines text)).

(** [owner_prompt] *)
Definition owner_prompt (identifier : string) (document : object) : bool :=
  let request id := match request_key_of_message id with Some _ => true | None => false end in
  request identifier ||
  match obj_get document "id" ≫= as_str with Some id => request id | None => false end ||
  match message_text document with
  | Some text =>
      match parse_header (first_line text) with
      | Some header => starts_with (sender header) "human@"
      | None => false
      end
  | None => false
  end.

Definition is_plain (document : object) : bool :=
  match message_text document with
  | Some text => negb (starts_with (trim_start_matches char_is_whitespace text) "/")
  | None => false
  end.

(** [typed_text] *)
Definition typed_text (document : object) (now : nat) : result Error string :=
  match message_text document with
  | None => Err NoTextField
  | Some text =>
      Ok (default text (sent_at ← obj_get document "sent_at" ≫= as_str;
                        opening ← obj_get document "opening" ≫= as_str;
                        retime now text sent_at opening))
  end.

(** ** The order of a drain *)

Definition is_owner (path : Path) : Op bool :=
  match message_id_from_path path with
  | Err _ => mret false
  | Ok identifier =>
      loaded ← attempt (load_message path);
      mret (match loaded with
            | Ok document => owner_prompt identifier document && is_plain document
            | Err _ => false
            end)
  end.

Fixpoint partition_op (f : Path -> Op bool) (l : list Path) : Op (list Path * list Path) :=
  match l with
  | [] => mret ([], [])
  | x :: l =>
      b ← f x;
      r ← partition_op f l;
      mret (if b : bool then (x :: r.1, r.2) else (r.1, x :: r.2))
  end.

Definition owner_first (paths : list Path) : Op (list Path) :=
  r ← partition_op is_owner paths; mret (r.1 ++ r.2).

(** ** One delivery *)

Definition strip_paste_stamps (document : object) : object :=
  remove_keys ["paste_tracking"; "inflight_from"; "paste_started_at"] document.

Definition note_stranded (document : object) (typed : string) (now : value) : object :=
  let document := if has_key document "stranded_at" then document
                  else obj_insert "stranded_at" now document in
  let passes := u64_succ_sat (default 0%Z (obj_get document "stranded_passes" ≫= as_u64)) in
  obj_insert "typed_as" (VString typed)
    (obj_insert "stranded_passes" (Number (number_of_u64 passes)) document).

Definition blocked_document (document : object) (detail : string) (now : value) : object :=
  obj_insert "delivery_blocked_at" now (obj_insert "delivery_error" (VString detail)
    (obj_insert "delivery_state" (VString "pending") document)).

Definition lane_name (d : Directory) : string :=
  match d with INBOX_V2 => "inbox.v2" | _ => "inbox" end.

(** The document of the at-most-once barrier. *)
Definition barrier_document (document : object) (lane : Directory) (now : value) : object :=
  obj_remove "paste_started_at" (obj_insert "inflight_from" (VString (lane_name lane))
    (obj_insert "paste_tracking" (VBool true) (obj_insert "inflight_at" now
      (obj_insert "delivery_state" (VString "inflight")
        (obj_insert "possibly_submitted" (VBool true) document))))).

Definition note_typed (document : object) (typed : string) : object :=
  if has_key document "stranded_at" then document
  else if bool_decide (message_text document = Some typed) then obj_remove "typed_as" document
  else obj_insert "typed_as" (VString typed) document.

(** [deliver_one] under [PasteTrackingRuntime], whose [input_started] stamps the item
    and ignores a failure to. *)
Definition deliver_one (path : Path) (document : object) (typed : string)
  : Op (option string * result Undelivered Delivered) :=
  let is_stranded := has_key document "stranded_at" in
  delivery ← gets (fun q => deliver (clock q) typed is_stranded);
  (if input_started delivery && negb (has_key document "paste_started_at") then
     now ← seconds_now;
     attempt (atomic_json path (Object (obj_insert "paste_started_at" now document)));;
     mret ()
   else mret ());;
  modify (record_event (Typing path.2 is_stranded (input_started delivery)
                          (gives_back (reported delivery))));;
  match reported delivery with
  | Some report => mret (paste_label delivery, report)
  | None => die
  end.

(** [failed/] with its sidecar *)
Definition quarantine (inflight : Path) (document : object) (detail : string) : Op () :=
  atomic_json inflight (Object document);;
  transition inflight (FAILED, inflight.2);;
  failed_metadata (FAILED, inflight.2) "possibly_submitted" detail.

Definition attempted (document : object) (attempts : Z) (detail : string) : object :=
  let n := Number (number_of_u64 (u64_succ_sat attempts)) in
  obj_insert "delivery_error" (VString detail)
    (obj_insert "tui_delivery_attempts" n (obj_insert "delivery_attempts" n document)).

Definition misroutes_of (document : object) : list value :=
  default [] (obj_get document "misroutes" ≫= as_array).

Definition not_staged_document (document : object) (typed detail : string) (now : value) : object :=
  let was_stranded := has_key document "stranded_at" in
  let document := obj_remove "possibly_submitted" document in
  if is_stranded_prompt detail || is_late_paste_lost detail then note_stranded document typed now
  else if was_stranded then document else obj_remove "typed_as" document.

Definition lost_too_often (document : object) (detail : string) : bool :=
  is_late_paste_lost detail &&
  bool_decide (MAX_LOST_PASTE_PASSES <= default 0 (obj_get document "stranded_passes" ≫= as_u64))%Z.

Definition after_not_staged (options : DrainOptions) (path : Path) (document : object)
    (identifier typed detail : string) (retries : nat) (p : Progress) : Op (flow * Progress) :=
  let inflight := (INFLIGHT, path.2) in
  now ← seconds_now;
  let document := not_staged_document document typed detail now in
  if lost_too_often document detail then
    failed_at ← seconds_now;
    quarantine inflight
      (strip_paste_stamps (obj_insert "delivery_failed_at" failed_at
        (obj_insert "delivery_error" (VString detail)
          (obj_insert "possibly_submitted" (VBool true) document)))) detail;;
    mret (NextMessage, add_quarantined identifier p)
  else
    let document :=
      remove_keys ["inflight_at"; "paste_tracking"; "inflight_from"; "paste_started_at"] document in
    blocked_at ← seconds_now;
    atomic_json inflight (Object (blocked_document document detail blocked_at));;
    transition inflight path;;
    if is_late_paste_lost detail then mret (NextMessage, block detail p) else
    stopping ← gets (fun q => runtime_cancelled (clock q));
    fits ← gets (fun q => fits_deadline (clock q) retries);
    if is_composer_unreadable detail && (retries <? COMPOSER_RETRIES)
       && bool_decide (Z.of_nat (retries + 1) < max_attempts options)%Z && negb stopping && fits
    then mret (TryAgain (S retries), p)
    else mret (StopDrain, block detail p).

Definition misroute (detail : string) (at_ : value) : value :=
  Object [("at", at_); ("error", VString detail)].

Definition after_misroute (path : Path) (document : object) (attempts : Z)
    (identifier detail : string) (retries : nat) (p : Progress) : Op (flow * Progress) :=
  let inflight := (INFLIGHT, path.2) in
  now ← seconds_now;
  let misroutes := misroutes_of document ++ [misroute detail now] in
  let document := obj_insert "misroutes" (Array misroutes) document in
  if MAX_MISROUTES <=? length misroutes then
    failed_at ← seconds_now;
    quarantine inflight
      (strip_paste_stamps (obj_insert "delivery_failed_at" failed_at
        (obj_insert "probable_misroute" (VBool true) (attempted document attempts detail)))) detail;;
    mret (NextMessage, add_quarantined identifier p)
  else
    let document := remove_keys ["possibly_submitted"; "typed_as"; "inflight_at"; "paste_tracking";
                                 "inflight_from"; "paste_started_at"] document in
    atomic_json inflight (Object (obj_insert "delivery_error" (VString detail)
      (obj_insert "delivery_state" (VString "pending") document)));;
    transition inflight path;;
    mret (TryAgain retries, p).

Definition confirmed_document (document : object) (evidence : option string) (queued : bool)
    (now : value) : object :=
  let document := strip_paste_stamps document in
  let is_goal := match message_text document ≫= goal_argument with Some _ => true | None => false end in
  let document := match evidence with
                  | Some e => if is_goal then obj_insert "goal_answer" (VString e) document else document
                  | None => document
                  end in
  obj_insert "confirmed_at" now
    (obj_insert "delivery_state" (VString (if queued then "queued" else "processed")) document).

Definition after_confirmed (path : Path) (document : object) (evidence : option string) (queued : bool)
    (identifier : string) (p : Progress) : Op (flow * Progress) :=
  let inflight := (INFLIGHT, path.2) in
  now ← seconds_now;
  atomic_json inflight (Object (confirmed_document document evidence queued now));;
  transition inflight (PROCESSED, path.2);;
  mret (NextMessage, add_delivered identifier p).

Definition after_undelivered (path : Path) (document : object) (attempts : Z) (u : Undelivered)
    (identifier : string) (p : Progress) : Op (flow * Progress) :=
  let document := obj_insert "possibly_submitted" (VBool true)
                    (attempted document attempts (error_detail u)) in
  let document := if probable_misroute u then obj_insert "probable_misroute" (VBool true) document
                  else document in
  failed_at ← seconds_now;
  quarantine (INFLIGHT, path.2)
    (strip_paste_stamps (obj_insert "delivery_failed_at" failed_at document)) (error_detail u);;
  mret (NextMessage, add_quarantined identifier p).

Definition labelled (document : object) (label : option string)
    (report : result Undelivered Delivered) : object :=
  match report, label with
  | Ok (NotStaged _ | Misrouted _), _ | _, None => document
  | _, Some label => obj_insert "paste_label" (VString label) document
  end.

Definition settle (options : DrainOptions) (path : Path) (document : object) (attempts : Z)
    (identifier typed : string) (retries : nat) (p : Progress)
    (report : result Undelivered Delivered) : Op (flow * Progress) :=
  match report with
  | Ok (NotStaged detail) => after_not_staged options path document identifier typed detail retries p
  | Ok (Misrouted detail) => after_misroute path document attempts identifier detail retries p
  | Ok (Confirmed _ evidence queued) => after_confirmed path document evidence queued identifier p
  | Err u => after_undelivered path document attempts u identifier p
  end.

(** Move the item behind the barrier, look once more for a tombstone, and type it. *)
Definition take_and_type (options : DrainOptions) (path : Path) (document : object) (attempts : Z)
    (identifier filename_id : string) (counted : bool) (retries : nat) (p : Progress)
  : Op (flow * Progress) :=
  let inflight := (INFLIGHT, path.2) in
  transition path inflight;;
  reason ← set_aside_reason filename_id document;
  match reason with
  | Some (reason, detail) =>
      id ← set_aside inflight document reason detail; mret (NextMessage, add_cancelled id p)
  | None =>
      let p := count_typed counted p in
      now ← seconds_now;
      let document := barrier_document document path.1 now in
      at_ ← gets clock;
      typed ← from_result
        match (if has_key document "stranded_at" then obj_get document "typed_as" ≫= as_str else None) with
        | Some text => Ok text
        | None => typed_text document at_
        end;
      let document := note_typed document typed in
      atomic_json inflight (Object document);;
      delivery ← deliver_one inflight document typed;
      settle options path (labelled document delivery.1 delivery.2) attempts identifier typed retries p
        delivery.2
  end.

Definition DEADLINE_PASSED : string :=
  "the drain's " +:+ deadline_seconds +:+ "s deadline passed; the rest stay pending".

Definition attempts_exhausted (identifier : string) (attempts limit : Z) : string :=
  "message " +:+ identifier +:+ " reached the maximum delivery-attempt count (" +:+ pretty attempts
  +:+ " >= " +:+ pretty limit +:+ "); retained pending".

Definition readiness_detail (late : bool) (error : string) : string :=
  if late then
    "the send deadline passed while waiting for the pane to become ready; the prompt stays pending, safe to send again (agentctl send --deadline, or send_deadline_seconds in the registry's settings.json; default 600 s): "
    +:+ error
  else error.

(** Leave the item pending with [detail] on it and stop the drain. *)
Definition hold (path : Path) (document : object) (detail : string) (p : Progress)
  : Op (flow * Progress) :=
  now ← seconds_now;
  atomic_json path (Object (blocked_document document detail now));;
  mret (StopDrain, block detail p).

(** One turn of the ['retry] loop. *)
Definition try_item (options : DrainOptions) (path : Path) (first_try counted : bool) (retries : nat)
    (p : Progress) : Op (flow * Progress) :=
  late ← gets (fun q => past_deadline (clock q));
  if negb first_try && late then mret (StopDrain, block DEADLINE_PASSED p) else
  loaded ← attempt (document ← load_message path;
                    attempts ← from_result (delivery_attempts document path);
                    mret (document, attempts));
  match loaded with
  | Err e =>
      id ← quarantine_raw path "invalid_message" (error_text e);
      mret (NextMessage, add_quarantined id p)
  | Ok (document, attempts) =>
      filename_id ← from_result (message_id_from_path path);
      let identifier := default filename_id (obj_get document "id" ≫= as_str) in
      reason ← set_aside_reason filename_id document;
      match reason with
      | Some (reason, detail) =>
          id ← set_aside path document reason detail; mret (NextMessage, add_cancelled id p)
      | None =>
          if bool_decide (max_attempts options <= attempts)%Z then
            hold path document (attempts_exhausted identifier attempts (max_attempts options)) p
          else
            ready ← gets (fun q => readiness (clock q) (is_plain document));
            late ← gets (fun q => past_deadline (clock q));
            match ready with
            | Err error => hold path document (readiness_detail late error) p
            | Ok _ => take_and_type options path document attempts identifier filename_id counted
                        retries p
            end
      end
  end.

(** The ['retry] loop: only a turn that typed is tried again. *)
Fixpoint retry (fuel : nat) (options : DrainOptions) (path : Path) (again : bool) (retries : nat)
    (p : Progress) : Op (flow * Progress) :=
  match fuel with
  | O => mret (OutOfFuel, p)
  | S fuel =>
      r ← try_item options path (negb again) again retries p;
      match r.1 with
      | TryAgain retries => retry fuel options path true retries r.2
      | _ => mret r
      end
  end.

(** A prompt is typed again after at most [COMPOSER_RETRIES] unreadable composers and
    [MAX_MISROUTES] misroutes. *)
Definition retry_fuel : nat := S (COMPOSER_RETRIES + MAX_MISROUTES).

(** ** The drain *)

(** Burst pacing: after a confirmed delivery, wait until the next may be typed. *)
Definition pace_next (p : Progress) : Op (result string Progress) :=
  let p := if burst_delivered_seen p <? length (delivered p)
           then set_burst (length (delivered p)) true p else p in
  if burst_confirmed p then
    paced ← gets (fun q => pace (clock q));
    mret match paced with
         | Ok None => Ok (set_burst (burst_delivered_seen p) false p)
         | Ok (Some report) => Err report
         | Err error => Err ("burst pacing failed before the next delivery: " +:+ error)
         end
  else mret (Ok p).

Definition limit_reached (n : nat) : string :=
  "the drain typed its limit of " +:+ pretty n +:+ " prompt(s); the rest stay pending".

(** The ['message] loop. *)
Fixpoint drain_items (options : DrainOptions) (paths : list Path) (p : Progress) : Op Progress :=
  match paths with
  | [] => mret p
  | path :: paths =>
      paced ← pace_next p;
      match paced with
      | Err report => mret (block report p)
      | Ok p =>
          if match max_items options with Some limit => limit <=? typed p | None => false end
          then mret (block (limit_reached (typed p)) p) else
          late ← gets (fun q => past_deadline (clock q));
          if late : bool then mret (block DEADLINE_PASSED p) else
          r ← retry retry_fuel options path false 0 p;
          match r.1 with
          | NextMessage => drain_items options paths r.2
          | _ => mret r.2
          end
      end
  end.

(** Recovered digests go on to [cancelled/]; failures to move them are ignored. *)
Fixpoint retire_digests (ids : list string) : Op (list string * list string) :=
  match ids with
  | [] => mret ([], [])
  | id :: ids =>
      if starts_with id DIGEST_ID_PREFIX then
        let name := file_name id in
        attempt (prepare_lane CANCELLED);;
        attempt (rename (FAILED, name) (CANCELLED, name));;
        attempt (rename (FAILED, sidecar_name name) (CANCELLED, sidecar_name name));;
        r ← retire_digests ids;
        mret (r.1, id :: r.2)
      else
        r ← retire_digests ids; mret (id :: r.1, r.2)
  end.

Definition drain_paths (options : DrainOptions) : Op (list Path) :=
  paths ← pending_in_queue_order;
  match priority_only options with
  | Some identifier =>
      mret (List.filter (fun path =>
        bool_decide (result_ok (message_id_from_path path) = Some identifier)) paths)
  | None => owner_first paths
  end.

(** [bind_queue_with_runtime]: the check of the target binding itself is not modelled. *)
Definition bind_queue : Op () := prepare;; call_on "bind queue" None.

Definition initial_progress (quarantined cancelled : list string) : Progress :=
  {| delivered := []; quarantined := quarantined; cancelled := cancelled; typed := 0;
     blocked := None; burst_delivered_seen := 0; burst_confirmed := false |}.

Definition drain_outcome (p : Progress) : QueueOutcome :=
  match blocked p, quarantined p with
  | Some _, _ => QPending
  | None, [] => QDelivered
  | None, _ => QPossiblySubmitted
  end.

Definition drain (options : DrainOptions) : Op QueueResult :=
  bind_queue;;
  call_on "lock" None;;
  repend_stranded_inflight;;
  recovered ← recover_inflight;
  r ← retire_digests recovered;
  paths ← drain_paths options;
  p ← drain_items options paths (initial_progress r.1 r.2);
  inbox ← identifiers INBOX;
  inbox_v2 ← identifiers_if_directory INBOX_V2;
  mret {| result_delivered := delivered p; result_quarantined := quarantined p;
          result_pending := inbox ++ inbox_v2; result_cancelled := cancelled p;
          result_blocked := blocked p; result_outcome := drain_outcome p |}.
End drain.
