(* ===== verification/AgentInvariant.v ===== *)
(** * agent-queue: what a queue keeps through every run

    First a weakest precondition for operations with three ends (a result, an error, the
    death of the process), what a tick of the clock leaves alone, and the rules of the
    calls.

    Then the invariant: an item is in one phase, it is never lost and its text never
    changes, and what may have been typed is out of reach of every path that types.
    The first two hold whenever a look at a path tells the truth; the last when no
    call fails, which still leaves every crash.  Then the rules of the moves. *)
From S2P Require Import Prelude RustStr External AgentStore AgentQueue AgentMoves.

Section logic.
Context `{JsonNumber, !World}.

(** The run of [m] from [q] ends in [Q], or with an error in [E], or stops in [C]. *)
Definition wp {A} (m : Op A) (Q : A -> Queue -> Prop) (E C : Queue -> Prop) (q : Queue) : Prop :=
  match m q with
  | (q', Done a) => Q a q'
  | (q', Fails _) => E q'
  | (q', Died) => C q'
  end.

Lemma wp_mono {A} (m : Op A) (Q Q' : A -> Queue -> Prop) (E E' C C' : Queue -> Prop) q :
  wp m Q E C q ->
  (forall a q', Q a q' -> Q' a q') -> (forall q', E q' -> E' q') -> (forall q', C q' -> C' q') ->
  wp m Q' E' C' q.
Proof. unfold wp. destruct (m q) as [q' [a|e|]]; auto. Qed.

Lemma wp_bind {A B} (m : Op A) (f : A -> Op B) Q E C q :
  wp m (fun a q' => wp (f a) Q E C q') E C q -> wp (m ≫= f) Q E C q.
Proof. unfold wp, mbind, op_bind. by destruct (m q) as [q' [a|e|]]. Qed.

Lemma wp_ret {A} (a : A) (Q : A -> Queue -> Prop) E C q : Q a q -> wp (mret a) Q E C q.
Proof. done. Qed.

Lemma wp_gets {A} (f : Queue -> A) (Q : A -> Queue -> Prop) E C q :
  Q (f q) q -> wp (gets f) Q E C q.
Proof. done. Qed.

Lemma wp_modify f (Q : () -> Queue -> Prop) E C q : Q () (f q) -> wp (modify f) Q E C q.
Proof. done. Qed.

Lemma wp_attempt {A} (m : Op A) (Q : result Error A -> Queue -> Prop) E C q :
  wp m (fun a => Q (Ok a)) (fun q' => forall e, Q (Err e) q') C q -> wp (attempt m) Q E C q.
Proof. unfold wp, attempt. by destruct (m q) as [q' [a|e|]]; auto. Qed.

Lemma wp_from_result {A} (r : result Error A) (Q : A -> Queue -> Prop) (E C : Queue -> Prop) q :
  (forall a, r = Ok a -> Q a q) -> (forall e, r = Err e -> E q) -> wp (from_result r) Q E C q.
Proof. destruct r; unfold wp; cbn; eauto. Qed.

Lemma wp_for_each {A} (P : Queue -> Prop) (f : A -> Op ()) l (E C : Queue -> Prop) q :
  P q -> (forall x q, x ∈ l -> P q -> wp (f x) (fun _ => P) E C q) ->
  wp (for_each l f) (fun _ => P) E C q.
Proof.
  revert q. induction l as [|x l IH]; intros q HP Hf; cbn; [done|].
  apply wp_bind. eapply wp_mono; [apply Hf; [left|done]| |done|done].
  intros [] q' HP'. apply IH; [done|]. intros y q'' Hy. apply Hf. by right.
Qed.

Lemma wp_fold_op {A B} (P : list A -> Queue -> Prop) (f : B -> A -> Op B) l b (E C : Queue -> Prop) q :
  P l q ->
  (forall x l b q, P (x :: l) q -> wp (f b x) (fun _ => P l) E C q) ->
  wp (fold_op f l b) (fun _ => P []) E C q.
Proof.
  intros HP Hf. revert b q HP. induction l as [|x l IH]; intros b q HP; cbn; [done|].
  apply wp_bind. eapply wp_mono; [by apply Hf| |done|done]. intros b' q' HP'. by apply IH.
Qed.

(** ** What a tick leaves alone *)

(** Everything but [cancel/], where files only appear; and the directories may grow. *)
Record frame (q q' : Queue) : Prop := {
  frame_files path : path.1 <> CANCEL -> files q' !! path = files q !! path;
  frame_tombstone name : file_exists (CANCEL, name) q = true -> file_exists (CANCEL, name) q' = true;
  frame_log : log q' = log q;
  frame_dirs : dirs q ⊆ dirs q'
}.

(** and the directories stay too. *)
Record drift (q q' : Queue) : Prop := {
  drift_frame : frame q q';
  drift_dirs d : d <> CANCEL -> d ∈ dirs q' <-> d ∈ dirs q;
}.

#[global] Instance frame_preorder : PreOrder frame.
Proof.
  split; [by split|]. intros q1 q2 q3 [H1 H2 H3 H4] [H5 H6 H7 H8]. split.
  - intros p Hp. by rewrite H5, H1.
  - auto.
  - by rewrite H7.
  - by etrans.
Qed.

#[global] Instance drift_preorder : PreOrder drift.
Proof.
  split; [by split|]. intros q1 q2 q3 [H1 H2] [H3 H4]. split; [by etrans|].
  intros d Hd. by rewrite H4, H2.
Qed.

Lemma drift_arrive q t : drift q (arrive q t).
Proof.
  unfold arrive. destruct (root q); [|done]. split; [split|].
  - intros [d f] Hp. cbn in *. destruct (files q !! (CANCEL, t.1)); [done|].
    rewrite lookup_insert_ne; [done|]. by intros [= <-].
  - intros name. unfold file_exists. cbn.
    destruct (files q !! (CANCEL, t.1)) eqn:Ht; [done|].
    destruct (decide (t.1 = name)) as [<-|Hne]; [by rewrite Ht|].
    by rewrite lookup_insert_ne by congruence.
  - done.
  - intros d Hd. cbn. by apply elem_of_union_r.
  - intros d Hd. cbn. rewrite elem_of_union, elem_of_singleton. tauto.
Qed.

Lemma drift_tick q : drift q (tick q).
Proof.
  unfold tick. set (q0 := {| root := root q |}). assert (drift q q0) as Hq0 by by split.
  revert Hq0. generalize (tombstones (clock q)) as l, q0 as q'. intros l.
  induction l as [|t l IH]; intros q' Hq'; cbn; [done|].
  apply IH. etrans; [done|apply drift_arrive].
Qed.

Lemma frame_set_root q : frame q (set_root q).
Proof. by split. Qed.
Lemma frame_add_dir q d : frame q (add_dir d q).
Proof. split; [done..|]. intros d' Hd. cbn. by apply elem_of_union_r. Qed.

(** ** Calls *)

Lemma wp_call_with (fails : nat -> bool) e (Q : () -> Queue -> Prop) (E C : Queue -> Prop) q :
  (forall q', drift q q' -> Q () q') ->
  (forall q', fails (clock q) = true -> drift q q' -> E q') ->
  (forall q', drift q q' -> C q') ->
  wp (call_with fails e) Q E C q.
Proof.
  intros HQ HE HC. unfold wp, call_with. pose proof (drift_tick q).
  destruct (dies (clock q)); [by apply HC|]. destruct (fails (clock q)) eqn:Hf; auto.
Qed.
End logic.

(** ** The history of an item *)

(** Since it was queued, was the item typed by a delivery that did not give it back? *)
Fixpoint maybe_typed (name : string) (l : list event) : bool :=
  match l with
  | [] => false
  | Queued name' :: l => if (name =? name')%string then false else maybe_typed name l
  | Taken _ _ :: l => maybe_typed name l
  | Typing name' stranded started returned :: l =>
      ((name =? name')%string && negb stranded && started && negb returned) || maybe_typed name l
  end.

(** Was there a tombstone when the item was last taken? *)
Fixpoint last_taken (name : string) (l : list event) : option bool :=
  match l with
  | [] => None
  | Taken name' tombstone :: l => if (name =? name')%string then Some tombstone else last_taken name l
  | _ :: l => last_taken name l
  end.

(** Nothing is typed that was cancelled while pending, and nothing is typed afresh that
    may have been typed before. *)
Fixpoint history_ok (l : list event) : Prop :=
  match l with
  | [] => True
  | e :: l =>
      match e with
      | Typing name stranded started _ =>
          last_taken name l = Some false /\
          (stranded = false -> started = true -> maybe_typed name l = false)
      | _ => True
      end /\ history_ok l
  end.

Definition is_item (name : string) : bool := ends_with name ".json".

(** What a proof assumes of a run: when [steady], no look at a path fails; when [quiet],
    no call fails at all. *)
Class Assumed `{JsonNumber, !World} := {
  steady : Prop;
  quiet : Prop;
  steady_stat : steady -> forall n, stat_fails n = false;
  quiet_steady : quiet -> steady;
  quiet_io : quiet -> forall n, io_fails n = false
}.

Section invariant.
Context `{JsonNumber, !World, !Assumed}.

Definition text_of (c : option value) : option string := c ≫= fun v => value_get v "text" ≫= as_str.

(** Items that no delivery types: one left stranded only gets Enter; one in [inflight/]
    is out of reach of recovery without its lane, or known to have been started. *)
Definition unreplayable (document : object) : Prop :=
  has_key document "stranded_at" = true \/ origin_lane document = None \/
  (is_tracked document = true /\ has_key document "paste_started_at" = true).

Definition held_back (d : Directory) (c : option value) : Prop :=
  forall document, c = Some (Object document) ->
  match d with
  | INBOX | INBOX_V2 => has_key document "stranded_at" = true
  | INFLIGHT => unreplayable document
  | _ => True
  end.

Definition one_phase (q : Queue) : Prop :=
  forall name d1 d2, is_item name = true -> d1 <> CANCEL -> d2 <> CANCEL ->
  is_Some (files q !! (d1, name)) -> is_Some (files q !! (d2, name)) -> d1 = d2.

(** The texts of the items to keep. *)
Variable kept : gmap string (option string).
Hypothesis kept_items : forall name, is_Some (kept !! name) -> is_item name = true.

Definition nothing_lost (q : Queue) : Prop :=
  forall name t, kept !! name = Some t ->
  exists d c, d <> CANCEL /\ files q !! (d, name) = Some c /\ text_of c = t.

Definition typed_held_back (q : Queue) : Prop :=
  forall name d c, is_item name = true -> d <> CANCEL -> files q !! (d, name) = Some c ->
  maybe_typed name (log q) = true -> held_back d c.

Record invariant (q : Queue) : Prop := {
  inv_dirs path : path.1 <> CANCEL -> is_Some (files q !! path) -> path.1 ∈ dirs q;
  inv_phase : steady -> one_phase q;
  inv_kept : steady -> nothing_lost q;
  inv_held : quiet -> typed_held_back q;
  inv_history : quiet -> history_ok (log q)
}.

Lemma inv_frame q q' : frame q q' -> invariant q -> invariant q'.
Proof.
  intros [Hfiles _ Hlog Hdirs] [P5 P1 P2 P3 P4]. split.
  - intros path Hp. rewrite Hfiles by done. intros Hs. by apply Hdirs, P5.
  - intros Hs name d1 d2 ? ??. rewrite !Hfiles by done. by apply P1.
  - intros Hs name t Hk. destruct (P2 Hs name t Hk) as (d & c & ? & Hc & ?).
    exists d, c. by rewrite Hfiles.
  - intros Hq name d c ??. rewrite Hfiles, Hlog by done. by apply P3.
  - rewrite Hlog. done.
Qed.

(** *** Changing a file *)

Lemma inv_tombstones q f :
  (forall fs path, path.1 <> CANCEL -> f fs !! path = fs !! path) ->
  invariant q -> invariant (set_files f q).
Proof.
  intros Hf [P5 P1 P2 P3 P4]. split; cbn; try done.
  - intros path Hp. rewrite Hf by done. by apply P5.
  - intros Hs name d1 d2 ???. cbn. rewrite !Hf by done. by apply P1.
  - intros Hs name t Hk. destruct (P2 Hs name t Hk) as (d & c & ? & Hc & ?).
    exists d, c. cbn. by rewrite Hf.
  - intros Hq name d c ??. cbn. rewrite Hf by done. by apply P3.
Qed.

Lemma inv_sidecar q d name c :
  is_item name = false -> d ∈ dirs q -> invariant q -> invariant (set_files (<[(d, name) := c]>) q).
Proof.
  intros Hn Hd [P5 P1 P2 P3 P4].
  assert (forall d' name', is_item name' = true ->
    <[(d, name) := c]> (files q) !! (d', name') = files q !! (d', name')) as Hsame.
  { intros d' name' Hi. apply lookup_insert_ne. intros [= -> ->]. by rewrite Hi in Hn. }
  split; cbn; try done.
  - intros path Hp. rewrite lookup_insert_is_Some'. intros [<-|Hs]; [done|by apply P5].
  - intros Hs name' d1 d2 ???. cbn. rewrite !Hsame by done. by apply P1.
  - intros Hs name' t Hk. destruct (P2 Hs name' t Hk) as (d' & c' & ? & Hc & ?).
    exists d', c'. cbn. rewrite Hsame; [done|]. apply kept_items. by eexists.
  - intros Hq name' d' c' ??. cbn. rewrite Hsame by done. by apply P3.
Qed.

Lemma inv_rewrite q d name c c' :
  files q !! (d, name) = Some c -> d <> CANCEL -> text_of c' = text_of c ->
  (quiet -> maybe_typed name (log q) = true -> held_back d c') ->
  invariant q -> invariant (set_files (<[(d, name) := c']>) q).
Proof.
  intros Hc Hd Htext Hheld [P5 P1 P2 P3 P4].
  assert (forall p, is_Some (<[(d, name) := c']> (files q) !! p) <-> is_Some (files q !! p)) as Hsame.
  { intros p. destruct (decide (p = (d, name))) as [->|Hne].
    - rewrite lookup_insert_eq, Hc. split; by eexists.
    - by rewrite lookup_insert_ne. }
  split; cbn; try done.
  - intros path Hp. rewrite Hsame. by apply P5.
  - intros Hs name' d1 d2 ???. cbn. rewrite !Hsame. by apply P1.
  - intros Hs name' t Hk. destruct (P2 Hs name' t Hk) as (d' & c'' & ? & Hc' & ?).
    destruct (decide ((d', name') = (d, name))) as [[= -> ->]|Hne].
    + exists d, c'. cbn. rewrite lookup_insert_eq. split_and!; try done. congruence.
    + exists d', c''. cbn. by rewrite lookup_insert_ne.
  - intros Hq name' d' c'' ??. cbn. destruct (decide ((d', name') = (d, name))) as [[= -> ->]|Hne].
    + rewrite lookup_insert_eq. intros [= <-]. by apply Hheld.
    + rewrite lookup_insert_ne by done. by apply P3.
Qed.

(** *** Moving a file *)

Lemma maybe_typed_moved name q source destination c :
  maybe_typed name (log (moved source destination c q)) = maybe_typed name (log q).
Proof. unfold moved. by destruct (_ && _). Qed.

Lemma files_moved q source destination c :
  files (moved source destination c q) = <[destination := c]> (delete source (files q)).
Proof. unfold moved. by destruct (_ && _). Qed.

Lemma dirs_moved q source destination c : dirs (moved source destination c q) = dirs q.
Proof. unfold moved. by destruct (_ && _). Qed.

Lemma history_moved q source destination c :
  history_ok (log q) -> history_ok (log (moved source destination c q)).
Proof. unfold moved. by destruct (_ && _). Qed.

Lemma inv_moved q d d' name c :
  files q !! (d, name) = Some c -> d <> CANCEL -> d' <> CANCEL -> d <> d' -> d' ∈ dirs q ->
  (quiet -> is_item name = true -> maybe_typed name (log q) = true -> held_back d' c) ->
  invariant q -> invariant (moved (d, name) (d', name) c q).
Proof.
  intros Hc Hd Hd' Hne Hin Hheld [P5 P1 P2 P3 P4].
  assert (forall d1 name1, is_item name1 = true -> d1 <> CANCEL -> one_phase q ->
    is_Some (<[(d', name) := c]> (delete (d, name) (files q)) !! (d1, name1)) ->
    name1 = name /\ d1 = d' \/ name1 <> name /\ is_Some (files q !! (d1, name1))) as Hcases.
  { intros d1 name1 Hi Hd1 Hone Hsome. destruct (decide (name1 = name)) as [->|]; [left|right].
    - split; [done|]. destruct (decide (d1 = d')) as [|Hne1]; [done|].
      rewrite lookup_insert_ne in Hsome by congruence.
      apply lookup_delete_is_Some in Hsome as [Hne2 Hsome].
      destruct Hne2. f_equal. by apply (Hone name d d1).
    - by rewrite lookup_insert_ne, lookup_delete_ne in Hsome by congruence. }
  split.
  - intros path Hp. rewrite files_moved, dirs_moved, lookup_insert_is_Some'.
    intros [<-|[_ Hs]%lookup_delete_is_Some]; [done|by apply P5].
  - intros Hs name1 d1 d2 Hi Hd1 Hd2. rewrite files_moved. intros Hs1 Hs2.
    apply Hcases in Hs1 as [[-> ->]|[? Hs1]], Hs2 as [[? ->]|[? Hs2]]; auto; try done.
    by apply (P1 Hs name1).
  - intros Hs name1 t Hk. destruct (P2 Hs name1 t Hk) as (d1 & c1 & ? & Hc1 & ?).
    destruct (decide (name1 = name)) as [->|Hnn].
    + exists d', c. rewrite files_moved, lookup_insert_eq. split_and!; try done.
      assert (d1 = d) as ->; [|congruence].
      apply (P1 Hs name); try done; try by eexists. apply kept_items. by eexists.
    + exists d1, c1. by rewrite files_moved, lookup_insert_ne, lookup_delete_ne by congruence.
  - intros Hq name1 d1 c1 Hi Hd1. rewrite files_moved, maybe_typed_moved. intros Hc1 Hty.
    destruct (Hcases d1 name1 Hi Hd1 (P1 (quiet_steady Hq)) (mk_is_Some _ _ Hc1)) as [[-> ->]|[? _]].
    + rewrite lookup_insert_eq in Hc1. injection Hc1 as <-. by apply Hheld.
    + rewrite lookup_insert_ne, lookup_delete_ne in Hc1 by congruence. by eapply P3.
  - intros Hq. by apply history_moved, P4.
Qed.
End invariant.
