(* ===== verification/AgentWalk.v ===== *)
(** * agent-queue: the rules of the calls and of the moves

    Operations that only look, or only create directories, stay [within] a relation;
    operations that move files keep the invariant wherever they stop.  What the calls that
    look return, and the rules of the calls that write and move, from which the
    operations' proofs are composed. *)
From S2P Require Import Prelude RustStr External AgentStore AgentQueue AgentMoves AgentInvariant.

Create HintDb within discriminated.

Section within.
Context `{JsonNumber, !World}.

(** However [m] ends, its state is [R]-related to the one it began in. *)
Definition within (R : Queue -> Queue -> Prop) {A} (m : Op A) : Prop :=
  forall q, wp m (fun _ q' => R q q') (R q) (R q) q.

Context (R : Queue -> Queue -> Prop) `{!PreOrder R}.

Lemma within_ret {A} (a : A) : within R (mret a).
Proof. intros q. unfold wp. cbn. done. Qed.
Lemma within_gets {A} (f : Queue -> A) : within R (gets f).
Proof. intros q. unfold wp. cbn. done. Qed.
Lemma within_fail {A} e : within R (@fail _ A e).
Proof. intros q. unfold wp. cbn. done. Qed.
Lemma within_from_result {A} (r : result Error A) : within R (from_result r).
Proof. destruct r; [apply within_ret|apply within_fail]. Qed.

Lemma within_bind {A B} (m : Op A) (f : A -> Op B) :
  within R m -> (forall a, within R (f a)) -> within R (m ≫= f).
Proof.
  intros Hm Hf q. apply wp_bind. eapply wp_mono; [apply Hm| |done|done].
  intros a q' Hq. eapply wp_mono; [apply Hf|..]; cbn; intros; (etrans; [apply Hq|done]).
Qed.

Lemma within_attempt {A} (m : Op A) : within R m -> within R (attempt m).
Proof. intros Hm q. apply wp_attempt. eapply wp_mono; [apply Hm|..]; done. Qed.

Lemma within_for_each {A} (f : A -> Op ()) l : (forall x, within R (f x)) -> within R (for_each l f).
Proof.
  intros Hf. induction l; cbn; [apply within_ret|]. by apply within_bind.
Qed.

Hypothesis drift_R : forall q q', drift q q' -> R q q'.

Lemma within_call_with fails e : within R (call_with fails e).
Proof. intros q. apply wp_call_with; auto. Qed.
End within.

#[export] Hint Resolve within_ret within_gets within_fail within_from_result within_attempt
  within_for_each : within.
#[export] Hint Extern 1 (PreOrder _) => apply _ : within.
#[export] Hint Extern 1 (forall q q', drift q q' -> drift q q') => trivial : within.
#[export] Hint Extern 1 (forall q q', drift q q' -> frame q q') => exact drift_frame : within.
#[export] Hint Extern 1 (within _ (call_with _ _)) => apply within_call_with : within.
#[export] Hint Extern 1 (within _ (call _ _)) => apply within_call_with : within.
#[export] Hint Extern 1 (within _ (call_on _ _)) => apply within_call_with : within.

(** Take an operation apart. *)
Ltac solve_within :=
  repeat first
    [ progress intros
    | solve [eauto 3 with within]
    | lazymatch goal with
      | |- within _ (_ ≫= _) => apply within_bind; [apply _| |]
      | |- within _ (attempt _) => apply within_attempt
      | |- within _ (match ?x with _ => _ end) => destruct x
      end ].

Section looks.
Context `{JsonNumber, !JsonFloat, !World}.

Lemma within_drift_frame {A} (m : Op A) : within drift m -> within frame m.
Proof. intros Hm q. eapply wp_mono; [apply Hm|..]; cbn; intros; by apply drift_frame. Qed.

Lemma stat_within action path : within drift (stat action path).
Proof. unfold stat. solve_within. Qed.
Lemma stat_is_ok_within path : within drift (stat_is_ok path).
Proof. pose proof stat_within. unfold stat_is_ok. solve_within. Qed.
Lemma stat_directory_within d : within drift (stat_directory d).
Proof. unfold stat_directory. solve_within. Qed.
Lemma stat_root_within : within drift stat_root.
Proof. unfold stat_root. solve_within. Qed.
Lemma read_json_within path : within drift (read_json path).
Proof. unfold read_json. solve_within. Qed.
End looks.

#[export] Hint Resolve stat_within stat_is_ok_within stat_directory_within stat_root_within
  read_json_within : within.

Section looks2.
Context `{JsonNumber, !JsonFloat, !World}.

Lemma load_message_within path : within drift (load_message path).
Proof. unfold load_message. solve_within. Qed.
Lemma json_paths_within d : within drift (json_paths d).
Proof. unfold json_paths. solve_within. Qed.
Lemma lock_delivery_within waits : within drift (lock_delivery waits).
Proof. unfold lock_delivery. solve_within. Qed.
Lemma seconds_now_within : within drift seconds_now.
Proof. unfold seconds_now. solve_within. Qed.
Lemma any_phase_has_within ds name : within drift (any_phase_has ds name).
Proof. induction ds; cbn; solve_within. Qed.
End looks2.

#[export] Hint Resolve load_message_within json_paths_within lock_delivery_within
  seconds_now_within any_phase_has_within : within.

Section looks3.
Context `{JsonNumber, !JsonFloat, !World}.

Lemma locate_within message_id ds observed : within drift (locate message_id ds observed).
Proof. revert observed. induction ds as [|[d s] ds IH]; intros observed; cbn; solve_within. Qed.
Lemma message_state_within message_id : within drift (message_state message_id).
Proof. pose proof locate_within. unfold message_state, validate_existing_queue. solve_within. Qed.
Lemma settled_state_within attempts message_id : within drift (settled_state attempts message_id).
Proof.
  pose proof message_state_within. induction attempts; cbn; solve_within.
Qed.
Lemma identifiers_within d : within drift (identifiers d).
Proof. unfold identifiers. solve_within. Qed.
Lemma identifiers_if_directory_within d : within drift (identifiers_if_directory d).
Proof. pose proof identifiers_within. unfold identifiers_if_directory. solve_within. Qed.
Lemma order_entries_within lane paths : within drift (order_entries lane paths).
Proof. induction paths; cbn; solve_within. Qed.
Lemma lane_entries_within lane ds : within drift (lane_entries lane ds).
Proof.
  pose proof order_entries_within. revert lane. induction ds; intros lane; cbn; solve_within.
Qed.
Lemma pending_in_queue_order_within : within drift pending_in_queue_order.
Proof. pose proof lane_entries_within. unfold pending_in_queue_order, in_queue_order. solve_within. Qed.
Lemma pending_path_within name ds : within drift (pending_path name ds).
Proof. induction ds; cbn; solve_within. Qed.
Lemma set_aside_reason_within message_id document : within drift (set_aside_reason message_id document).
Proof. unfold set_aside_reason. solve_within. Qed.

(** *** Directories *)

Lemma create_private_directory_within d : within frame (create_private_directory d).
Proof.
  unfold create_private_directory. apply within_bind; [apply _|auto with within|].
  intros [] q. apply frame_add_dir.
Qed.
Lemma prepare_lane_within d : within frame (prepare_lane d).
Proof.
  pose proof create_private_directory_within.
  pose proof (within_drift_frame _ (stat_directory_within d)). unfold prepare_lane. solve_within.
Qed.
Lemma prepare_within : within frame prepare.
Proof.
  pose proof create_private_directory_within.
  pose proof (within_drift_frame _ stat_root_within).
  pose proof (fun d => within_drift_frame _ (stat_directory_within d)).
  assert (within frame (modify set_root)) by (intros q; apply frame_set_root).
  unfold prepare. solve_within; apply within_for_each; try apply _; solve_within.
Qed.
End looks3.

#[export] Hint Resolve message_state_within settled_state_within identifiers_within
  identifiers_if_directory_within pending_in_queue_order_within pending_path_within
  set_aside_reason_within prepare_lane_within prepare_within : within.

(** ** Names *)

Lemma is_item_file_name identifier : is_item (file_name identifier) = true.
Proof.
  unfold is_item, ends_with. destruct (strip_suffix _ _) eqn:Hs; [done|].
  assert (strip_suffix ".json" (file_name identifier) = Some identifier) as ?
    by (by apply strip_suffix_Some). congruence.
Qed.

Lemma message_id_file_name path identifier :
  message_id_from_path path = Ok identifier -> path.2 = file_name identifier.
Proof.
  unfold message_id_from_path. destruct (strip_suffix _ _) eqn:Hs; [|done].
  intros [= <-]. by apply strip_suffix_Some.
Qed.

Lemma is_item_sidecar name : is_item (sidecar_name name) = false.
Proof.
  unfold is_item, ends_with. destruct (strip_suffix _ _) as [r|] eqn:Hs; [|done].
  apply strip_suffix_Some in Hs. apply (f_equal str_last) in Hs.
  unfold sidecar_name in Hs. by rewrite !str_last_app in Hs.
Qed.

Section facts.
Context `{JsonNumber, !JsonFloat, !World, !Assumed}.

(** ** What a look returns *)

Lemma wp_within {A} (m : Op A) (Q : A -> Queue -> Prop) (E C : Queue -> Prop) R q :
  within R m -> (forall a q', R q q' -> Q a q') -> (forall q', R q q' -> E q') ->
  (forall q', R q q' -> C q') -> wp m Q E C q.
Proof. intros Hm ???. eapply wp_mono; [apply Hm|..]; auto. Qed.

(** [m] changes nothing but what a tick changes, and returns what [P] says. *)
Definition looks {A} (P : A -> Queue -> Prop) (m : Op A) : Prop :=
  forall q, wp m (fun a q' => drift q q' /\ P a q) (drift q) (drift q) q.

Lemma looks_conj {A} (P P' : A -> Queue -> Prop) m :
  looks P m -> looks P' m -> looks (fun a q => P a q /\ P' a q) m.
Proof.
  intros Hm1 Hm2 q. pose proof (Hm1 q) as Hq1. pose proof (Hm2 q) as Hq2. unfold wp in Hq1, Hq2 |- *.
  destruct (m q) as [q' [a|e|]]; tauto.
Qed.

Lemma read_json_looks path :
  path.1 <> CANCEL -> looks (fun v q => files q !! path = Some (Some v)) (read_json path).
Proof.
  intros Hp q. unfold read_json. apply wp_bind.
  eapply (wp_within _ _ _ _ drift); [by apply within_call_with| |done..].
  intros [] q' Hq'. apply wp_bind, wp_gets.
  rewrite (frame_files _ _ (drift_frame _ _ Hq')) by done.
  destruct (files q !! path) as [[v|]|]; unfold wp; cbn; auto.
Qed.

Lemma load_message_looks path :
  path.1 <> CANCEL ->
  looks (fun document q => files q !! path = Some (Some (Object document))) (load_message path).
Proof.
  intros Hp q. unfold load_message. apply wp_bind, wp_attempt.
  eapply wp_mono; [by apply read_json_looks| | |done].
  - intros v q' [Hq' Hv]. destruct (as_object v) as [document|] eqn:Hv'; [|exact Hq'].
    destruct v; try done. injection Hv' as ->.
    repeat case_match; first [exact Hq' | done].
  - intros q' Hq' e. exact Hq'.
Qed.

(** What [load_message] requires of an object. *)
Definition readable (document : object) : bool :=
  match obj_get document "text" ≫= as_str with None => false | Some t => negb (str_is_empty t) end &&
  match obj_get document "id" with None | Some (VString _) => true | Some _ => false end.

(** Under [quiet], what cannot be loaded is no readable item. *)
Lemma load_message_unreadable path q :
  path.1 <> CANCEL ->
  wp (load_message path) (fun document q' => drift q q' /\ files q !! path = Some (Some (Object document)) /\
      readable document = true)
    (fun q' => drift q q' /\ (quiet -> forall document,
       files q !! path = Some (Some (Object document)) -> readable document = false))
    (drift q) q.
Proof.
  intros Hp. unfold load_message. apply wp_bind, wp_attempt. unfold read_json. apply wp_bind.
  apply wp_call_with; [| |done].
  - intros q' Hq'. apply wp_bind, wp_gets.
    rewrite (frame_files _ _ (drift_frame _ _ Hq')) by done.
    destruct (files q !! path) as [[v|]|]; unfold wp; cbn; [|split; [done|]; intros _ document [=]..].
    destruct v as [| | | | |kvs]; cbn [as_object];
      try (cbn; split; [exact Hq'|]; intros _ document Hv; discriminate Hv).
    destruct (obj_get kvs "text" ≫= as_str) as [t|] eqn:Ht; [destruct (str_is_empty t) eqn:He|].
    2:{ assert (readable kvs = match obj_get kvs "id" with
                               | None | Some (VString _) => true | Some _ => false end) as Hr.
        { unfold readable. by rewrite Ht, He. }
        destruct (obj_get kvs "id") as [[]|] eqn:Hid; cbn; (split; [exact Hq'|]);
          first [done | by intros _ document [= <-]]. }
    all: cbn; split; [done|]; intros _ document [= <-]; unfold readable; by rewrite Ht, ?He.
  - intros q' Hf Hq' e. unfold wp. cbn. split; [done|]. intros Hio. by rewrite (quiet_io Hio) in Hf.
Qed.

Lemma stat_directory_looks d :
  d <> CANCEL ->
  looks (fun b q => (b = true -> d ∈ dirs q) /\ (steady -> d ∈ dirs q -> b = true)) (stat_directory d).
Proof.
  intros Hd q. unfold stat_directory. apply wp_bind, wp_attempt.
  apply wp_call_with; [| |done].
  - intros q' Hq'. apply wp_gets. split; [done|]. cbn.
    pose proof (drift_dirs _ _ Hq' d Hd). split.
    + intros Hb%bool_decide_eq_true. tauto.
    + intros _ Hin. apply bool_decide_eq_true. tauto.
  - intros q' Hf Hq' e. apply wp_gets. split; [done|]. split; [done|].
    intros Hs. by rewrite (steady_stat Hs) in Hf.
Qed.

Lemma json_paths_looks d :
  d <> CANCEL ->
  looks (fun l q => l = pair d <$> List.filter is_item (names_in d q)) (json_paths d).
Proof.
  intros Hd q. unfold json_paths. apply wp_bind.
  eapply (wp_within _ _ _ _ drift); [by apply within_call_with| |done..].
  intros [] q' Hq'. apply wp_bind, wp_gets. case_bool_decide; [|exact Hq'].
  apply wp_gets. split; [done|]. f_equal. f_equal.
  unfold names_in. f_equal. apply leibniz_equiv. intros name.
  rewrite !elem_of_map. setoid_rewrite elem_of_filter. setoid_rewrite elem_of_dom.
  split; intros (p & -> & Hp1 & Hp2); exists p; (split; [done|]; split; [done|]).
  - rewrite <- (frame_files _ _ (drift_frame _ _ Hq')); [done|congruence].
  - rewrite (frame_files _ _ (drift_frame _ _ Hq')); [done|congruence].
Qed.

Lemma elem_of_json_paths d q path :
  path ∈ pair d <$> List.filter is_item (names_in d q) <->
  path.1 = d /\ is_item path.2 = true /\ is_Some (files q !! path).
Proof.
  destruct path as [d' name]. rewrite list_elem_of_fmap. setoid_rewrite elem_of_filter_b.
  unfold names_in. setoid_rewrite elem_of_btree_elems. setoid_rewrite elem_of_map.
  setoid_rewrite elem_of_filter. setoid_rewrite elem_of_dom. cbn. split.
  - intros (n & [= -> ->] & ([d0 n0] & -> & Hd & Hs) & Hi). cbn in *. by subst.
  - intros (-> & Hi & Hs). exists name. split; [done|]. split; [|done]. by exists (d, name).
Qed.

Lemma set_aside_reason_looks message_id document :
  looks (fun r q => steady -> r = None -> file_exists (CANCEL, file_name message_id) q = false)
    (set_aside_reason message_id document).
Proof.
  intros q. unfold set_aside_reason, stat_is_ok, stat. apply wp_bind, wp_bind, wp_attempt, wp_bind.
  apply wp_call_with; [| |done].
  - intros q' Hq'. apply wp_gets, wp_ret. destruct (file_exists _ q') eqn:He.
    + apply wp_bind, wp_attempt. eapply wp_within; [apply read_json_within|..]; cbv beta.
      * intros v q'' Hq''. apply wp_ret. split; [by etrans|done].
      * intros q'' Hq'' e. apply wp_ret. split; [by etrans|done].
      * intros q'' Hq''. by etrans.
    + apply wp_bind, wp_gets, wp_ret. split; [done|]. intros _ _.
      destruct (file_exists _ q) eqn:He'; [|done].
      by rewrite (frame_tombstone _ _ (drift_frame _ _ Hq') _ He') in He.
  - intros q' Hf Hq' e. apply wp_ret. cbv beta iota. apply wp_bind, wp_gets, wp_ret.
    split; [done|]. intros Hs. by rewrite (steady_stat Hs) in Hf.
Qed.
End facts.

(** ** What a call that writes leaves *)

Section rules.
Context `{JsonNumber, !JsonFloat, !World, !Assumed} (kept : gmap string (option string)).
Hypothesis kept_items : forall name, is_Some (kept !! name) -> is_item name = true.

Abbreviation inv := (invariant kept).

Lemma inv_drift q q' : drift q q' -> inv q -> inv q'.
Proof. intros Hd. apply inv_frame. apply Hd. Qed.

(** [m] keeps the invariant wherever it stops, and its result is in [Q]. *)
Definition walk {A} (m : Op A) (Q : A -> Queue -> Prop) (q : Queue) : Prop := wp m Q inv inv q.

Lemma walk_mono {A} (m : Op A) (Q Q' : A -> Queue -> Prop) q :
  walk m Q q -> (forall a q', Q a q' -> Q' a q') -> walk m Q' q.
Proof. intros Hm HQ. by eapply wp_mono. Qed.

Lemma walk_bind {A B} (m : Op A) (f : A -> Op B) Q q :
  walk m (fun a q' => walk (f a) Q q') q -> walk (m ≫= f) Q q.
Proof. apply wp_bind. Qed.

Lemma walk_ret {A} (a : A) (Q : A -> Queue -> Prop) q : Q a q -> walk (mret a) Q q.
Proof. done. Qed.

Lemma walk_gets {A} (f : Queue -> A) (Q : A -> Queue -> Prop) q : Q (f q) q -> walk (gets f) Q q.
Proof. done. Qed.

Lemma walk_fail {A} e (Q : A -> Queue -> Prop) q : inv q -> walk (fail e) Q q.
Proof. done. Qed.

Lemma walk_from_result {A} (r : result Error A) (Q : A -> Queue -> Prop) q :
  inv q -> (forall a, r = Ok a -> Q a q) -> walk (from_result r) Q q.
Proof. intros. by apply wp_from_result. Qed.

(** A call whose error is looked at: nothing is known of the state but the invariant. *)
Lemma walk_attempt {A} (m : Op A) (Q : result Error A -> Queue -> Prop) q :
  walk m (fun a => Q (Ok a)) q -> (forall e q', inv q' -> Q (Err e) q') -> walk (attempt m) Q q.
Proof. intros Hm He. apply wp_attempt. eapply wp_mono; [exact Hm|..]; auto. Qed.

Lemma walk_within {A} (m : Op A) (Q : A -> Queue -> Prop) q :
  within frame m -> inv q -> (forall a q', frame q q' -> inv q' -> Q a q') -> walk m Q q.
Proof.
  intros Hm Hq HQ. eapply wp_mono; [apply Hm|..]; cbn.
  - intros a q' Hf. apply HQ; [done|]. by eapply inv_frame.
  - intros q' Hf. by eapply inv_frame.
  - intros q' Hf. by eapply inv_frame.
Qed.

Lemma walk_drift {A} (m : Op A) (Q : A -> Queue -> Prop) q :
  within drift m -> inv q -> (forall a q', drift q q' -> inv q' -> Q a q') -> walk m Q q.
Proof.
  intros Hm Hq HQ. eapply wp_mono; [apply Hm|..]; cbn.
  - intros a q' Hf. apply HQ; [done|]. by eapply inv_drift.
  - intros q' Hf. by eapply inv_drift.
  - intros q' Hf. by eapply inv_drift.
Qed.

Lemma walk_looks {A} (P : A -> Queue -> Prop) (m : Op A) (Q : A -> Queue -> Prop) q :
  looks P m -> inv q -> (forall a q', drift q q' -> inv q' -> P a q -> Q a q') -> walk m Q q.
Proof.
  intros Hm Hq HQ. eapply wp_mono; [apply Hm|..]; cbn.
  - intros a q' [Hf HP]. apply HQ; [done| |done]. by eapply inv_drift.
  - intros q' Hf. by eapply inv_drift.
  - intros q' Hf. by eapply inv_drift.
Qed.

(** A look whose error is looked at changes nothing either. *)
Lemma walk_attempt_looks {A} (P : A -> Queue -> Prop) (m : Op A)
    (Q : result Error A -> Queue -> Prop) q :
  looks P m -> inv q -> (forall a q', drift q q' -> inv q' -> P a q -> Q (Ok a) q') ->
  (forall e q', drift q q' -> inv q' -> Q (Err e) q') -> walk (attempt m) Q q.
Proof.
  intros Hm Hq HQ He. apply wp_attempt. eapply wp_mono; [apply Hm|..]; cbn.
  - intros a q' [Hf HP]. apply HQ; [done| |done]. by eapply inv_drift.
  - intros q' Hf e. apply He; [done|]. by eapply inv_drift.
  - intros q' Hf. by eapply inv_drift.
Qed.

Lemma walk_attempt_load path (Q : result Error object -> Queue -> Prop) q :
  path.1 <> CANCEL -> inv q ->
  (forall document q', drift q q' -> inv q' -> files q !! path = Some (Some (Object document)) ->
    readable document = true -> Q (Ok document) q') ->
  (forall e q', drift q q' -> inv q' -> (quiet -> forall document,
     files q !! path = Some (Some (Object document)) -> readable document = false) -> Q (Err e) q') ->
  walk (attempt (load_message path)) Q q.
Proof.
  intros Hp Hq HQ He. apply wp_attempt. eapply wp_mono; [by apply load_message_unreadable|..]; cbn.
  - intros a q' (Hf & Ha & Hr). apply HQ; try done. by eapply inv_drift.
  - intros q' [Hf Ha] e. apply He; [done| |done]. by eapply inv_drift.
  - intros q' Hf. by eapply inv_drift.
Qed.

(** *** Writing *)

Lemma drift_set_insert q q' path v :
  path.1 <> CANCEL -> drift q q' ->
  drift (set_files (<[path := v]>) q) (set_files (<[path := v]>) q').
Proof.
  intros Hp [[Hfiles Htomb Hlog Hdirs] Hd]. split; [|exact Hd]. split; cbn; [| |done..].
  - intros p Hp'. destruct (decide (p = path)) as [->|].
    + by rewrite !lookup_insert_eq.
    + rewrite !lookup_insert_ne by done. by apply Hfiles.
  - intros name. unfold file_exists. cbn. rewrite !lookup_insert_ne by by intros ->.
    apply Htomb.
Qed.

(** [atomic_json]: its error too leaves the old or the new content; under [quiet] there is
    none where the directory exists. *)
Lemma wp_atomic_json path v (Q : () -> Queue -> Prop) (E : Queue -> Prop) q :
  inv q -> path.1 <> CANCEL ->
  (forall q1, drift q q1 -> inv q1 -> path.1 ∈ dirs q1 -> inv (set_files (<[path := Some v]>) q1)) ->
  (forall q', drift (set_files (<[path := Some v]>) q) q' -> inv q' -> Q () q') ->
  (forall q', inv q' -> drift q q' \/ drift (set_files (<[path := Some v]>) q) q' ->
    (quiet -> path.1 ∈ dirs q -> False) -> E q') ->
  wp (atomic_json path v) Q E inv q.
Proof.
  intros Hq Hp Hput HQ HE. unfold atomic_json.
  apply wp_bind, wp_call_with; [| |intros q' Hd; by apply (inv_drift _ _ Hd)].
  2:{ intros q' Hf Hd. apply HE; [by apply (inv_drift _ _ Hd)|by left|].
      intros Hio. by rewrite (quiet_io Hio) in Hf. }
  intros q1 Hd1. assert (inv q1) as Hq1 by by apply (inv_drift _ _ Hd1).
  apply wp_bind, wp_call_with; [| |intros q' Hd; by apply (inv_drift _ _ Hd)].
  2:{ intros q' Hf Hd. apply HE; [by apply (inv_drift _ _ Hd)|left; by etrans|].
      intros Hio. by rewrite (quiet_io Hio) in Hf. }
  intros q2 Hd2. assert (drift q q2) as Hf2 by by etrans.
  assert (inv q2) as Hq2 by by apply (inv_drift _ _ Hd2).
  apply wp_bind. unfold put. apply wp_bind, wp_gets. case_bool_decide as Hin.
  2:{ unfold wp. cbn. apply HE; [done|by left|]. intros _ Hd.
      by apply Hin, (frame_dirs _ _ (drift_frame _ _ Hf2)). }
  apply wp_modify. assert (inv (set_files (<[path := Some v]>) q2)) as Hq3 by by apply Hput.
  assert (forall q', drift (set_files (<[path := Some v]>) q2) q' ->
    drift (set_files (<[path := Some v]>) q) q') as Hset.
  { intros q' Hd'. etrans; [by apply drift_set_insert|done]. }
  apply wp_call_with.
  - intros q' Hd'. apply HQ; [by apply Hset|by apply (inv_drift _ _ Hd')].
  - intros q' Hf Hd'. apply HE; [by apply (inv_drift _ _ Hd')|right; by apply Hset|].
    intros Hio. by rewrite (quiet_io Hio) in Hf.
  - intros q' Hd'. by apply (inv_drift _ _ Hd').
Qed.

(** The rewriting of an item, which keeps its text. *)
Lemma wp_rewrite d name c v (Q : () -> Queue -> Prop) (E : Queue -> Prop) q :
  inv q -> d <> CANCEL -> files q !! (d, name) = Some c -> text_of (Some v) = text_of c ->
  (quiet -> maybe_typed name (log q) = true -> held_back d (Some v)) ->
  (forall q', drift (set_files (<[(d, name) := Some v]>) q) q' -> inv q' -> Q () q') ->
  (forall q', inv q' -> ~ quiet ->
    drift q q' \/ drift (set_files (<[(d, name) := Some v]>) q) q' -> E q') ->
  wp (atomic_json (d, name) v) Q E inv q.
Proof.
  intros Hq Hd Hc Ht Hh HQ HE. apply wp_atomic_json; try done.
  - intros q1 Hf Hq1 _. eapply inv_rewrite; try done.
    + by rewrite (frame_files _ _ (drift_frame _ _ Hf)).
    + by rewrite (frame_log _ _ (drift_frame _ _ Hf)).
  - intros q' Hq' Hor Hno. apply HE; [done| |done]. intros Hqu. apply Hno; [done|].
    by apply (inv_dirs _ _ Hq); [|eexists].
Qed.

Lemma walk_rewrite d name c v (Q : () -> Queue -> Prop) q :
  inv q -> d <> CANCEL -> files q !! (d, name) = Some c -> text_of (Some v) = text_of c ->
  (quiet -> maybe_typed name (log q) = true -> held_back d (Some v)) ->
  (forall q', drift (set_files (<[(d, name) := Some v]>) q) q' -> inv q' -> Q () q') ->
  walk (atomic_json (d, name) v) Q q.
Proof. intros. by eapply wp_rewrite. Qed.

Lemma walk_sidecar path outcome error (Q : () -> Queue -> Prop) q :
  inv q -> path.1 <> CANCEL ->
  (forall v q', drift (set_files (<[(path.1, sidecar_name path.2) := Some v]>) q) q' -> inv q' -> Q () q') ->
  walk (failed_metadata path outcome error) Q q.
Proof.
  intros Hq Hp HQ. unfold failed_metadata, seconds_now. apply walk_bind, walk_gets.
  apply wp_atomic_json; try done.
  - intros q1 _ Hq1 Hin. apply inv_sidecar; try done. apply is_item_sidecar.
  - intros q'. apply HQ.
Qed.

(** *** Moving *)

Lemma walk_rename d d' name (Q : () -> Queue -> Prop) q :
  inv q -> d <> CANCEL -> d' <> CANCEL -> d <> d' ->
  (forall c, files q !! (d, name) = Some c -> quiet -> is_item name = true ->
    maybe_typed name (log q) = true -> held_back d' c) ->
  (forall c q', drift q q' -> files q !! (d, name) = Some c ->
    inv (moved (d, name) (d', name) c q') -> Q () (moved (d, name) (d', name) c q')) ->
  walk (rename (d, name) (d', name)) Q q.
Proof.
  intros Hq Hd Hd' Hne Hh HQ. unfold rename. apply walk_bind.
  apply walk_drift; [by apply within_call_with|done|]. intros [] q1 Hq1 Hinv1.
  apply walk_bind, walk_gets. cbn. case_bool_decide as Hin; [|by apply walk_fail].
  rewrite (frame_files _ _ (drift_frame _ _ Hq1)) by done.
  destruct (files q !! (d, name)) as [c|] eqn:Hc; [|by apply walk_fail].
  apply HQ; [done|done|]. apply inv_moved; try done.
  - by rewrite (frame_files _ _ (drift_frame _ _ Hq1)).
  - rewrite (frame_log _ _ (drift_frame _ _ Hq1)). by apply Hh.
Qed.

Lemma walk_transition d d' name (Q : () -> Queue -> Prop) q :
  inv q -> d <> CANCEL -> d' <> CANCEL -> d <> d' ->
  (forall c, files q !! (d, name) = Some c -> quiet -> is_item name = true ->
    maybe_typed name (log q) = true -> held_back d' c) ->
  (forall c q1 q', drift q q1 -> files q !! (d, name) = Some c ->
    drift (moved (d, name) (d', name) c q1) q' -> inv q' -> Q () q') ->
  walk (transition (d, name) (d', name)) Q q.
Proof.
  intros Hq Hd Hd' Hne Hh HQ. unfold transition. apply walk_bind.
  apply walk_drift; [apply stat_within|done|]. intros [] q1 Hq1 Hinv1; [by apply walk_fail|].
  apply walk_bind, walk_rename; try done.
  { intros c. rewrite (frame_files _ _ (drift_frame _ _ Hq1)), (frame_log _ _ (drift_frame _ _ Hq1)) by done.
    apply Hh. }
  intros c q2 Hq2. rewrite (frame_files _ _ (drift_frame _ _ Hq1)) by done. intros Hc Hinv2.
  apply walk_bind, walk_drift; [by apply within_call_with|done|]. intros [] q3 Hq3 Hinv3.
  rewrite decide_False by done.
  apply walk_drift; [by apply within_call_with|done|]. intros [] q4 Hq4 Hinv4.
  apply (HQ c q2); try done; by etrans.
Qed.

(** Rewriting an item, moving it, and going on. *)
Lemma walk_rewrite_move {A} d d' name c v (k : Op A) (Q : A -> Queue -> Prop) q :
  inv q -> d <> CANCEL -> d' <> CANCEL -> d <> d' ->
  files q !! (d, name) = Some c -> text_of (Some v) = text_of c ->
  (quiet -> maybe_typed name (log q) = true -> held_back d (Some v) /\ held_back d' (Some v)) ->
  (forall q1 q', drift (set_files (<[(d, name) := Some v]>) q) q1 ->
    drift (moved (d, name) (d', name) (Some v) q1) q' -> inv q' -> walk k Q q') ->
  walk (atomic_json (d, name) v;; transition (d, name) (d', name);; k) Q q.
Proof.
  intros Hq Hd Hd' Hne Hc Ht Hh HQ. apply walk_bind.
  eapply walk_rewrite; try done. { intros. by apply Hh. } intros q1 Hq1 Hinv1.
  assert (files q1 !! (d, name) = Some (Some v)) as Hv.
  { rewrite (frame_files _ _ (drift_frame _ _ Hq1)) by done. apply lookup_insert_eq. }
  apply walk_bind, walk_transition; try done.
  - intros c1 Hc1. rewrite Hv in Hc1. injection Hc1 as <-. rewrite (frame_log _ _ (drift_frame _ _ Hq1)).
    intros. by apply Hh.
  - intros c1 q2 q3 Hq2 Hc1. rewrite Hv in Hc1. injection Hc1 as <-. apply HQ. by etrans.
Qed.

Lemma walk_fold_op {A B} (P : list A -> Queue -> Prop) (f : B -> A -> Op B) l b
    (Q : B -> Queue -> Prop) q :
  P l q -> (forall x l b q, P (x :: l) q -> walk (f b x) (fun _ => P l) q) ->
  (forall b q', P [] q' -> Q b q') -> walk (fold_op f l b) Q q.
Proof. intros HP Hf HQ. eapply wp_mono; [by apply wp_fold_op|..]; auto. Qed.
End rules.
