(* ===== verification/AgentSafeOps.v ===== *)
(** * agent-queue: the operations keep the invariant

    The recovery of [inflight/] and what may be logged next, then withdrawal, enqueue and
    cancellation. *)
From S2P Require Import Prelude RustStr External AgentStore AgentQueue AgentMoves AgentInvariant AgentWalk.

(** ** What the edits of a document keep *)

Section edits.
Context `{JsonNumber, !JsonFloat, !World}.

Lemma text_of_object document : text_of (Some (Object document)) = obj_get document "text" ≫= as_str.
Proof. done. Qed.

Lemma has_key_get document key : has_key document key = true <-> is_Some (obj_get document key).
Proof.
  unfold has_key. destruct (obj_get document key); split; try done; by eexists.
Qed.

(** What an edit does to the parts of a document that the invariant reads. *)
Definition keeps_item (document document' : object) : Prop :=
  obj_get document' "text" = obj_get document "text" /\
  (has_key document "stranded_at" = true -> has_key document' "stranded_at" = true).

Definition no_origin (document : object) : Prop := origin_lane document = None.

Lemma remove_keys_get keys document key :
  obj_get (remove_keys keys document) key =
  if existsb (fun k => (k =? key)%string) keys then None else obj_get document key.
Proof.
  unfold remove_keys. revert document. induction keys as [|k keys IH]; intros document; cbn; [done|].
  rewrite IH, obj_get_remove. destruct (k =? key)%string; [|done]. by destruct (existsb _ keys).
Qed.

Lemma repended_keeps document : keeps_item document (repended document).
Proof.
  unfold keeps_item, repended, has_key. rewrite !obj_get_insert, !remove_keys_get. done.
Qed.
Lemma repended_no_origin document : no_origin (repended document).
Proof. unfold no_origin, origin_lane, repended. by rewrite obj_get_insert, remove_keys_get. Qed.

Lemma set_aside_keeps document reason detail now :
  keeps_item document (set_aside_document document reason detail now).
Proof.
  unfold keeps_item, set_aside_document, has_key. by rewrite !obj_get_insert, !remove_keys_get.
Qed.
Lemma set_aside_no_origin document reason detail now :
  no_origin (set_aside_document document reason detail now).
Proof.
  unfold no_origin, origin_lane, set_aside_document. by rewrite !obj_get_insert, remove_keys_get.
Qed.

Lemma stranded_keeps document now :
  obj_get (stranded document now) "text" = obj_get document "text" /\
  has_key (stranded document now) "stranded_at" = true.
Proof.
  unfold stranded. split.
  - rewrite obj_get_remove. cbn [String.eqb Ascii.eqb Bool.eqb].
    rewrite (proj1 (repended_keeps _)). destruct (has_key document "stranded_at"); [done|].
    by rewrite obj_get_insert.
  - apply has_key_get. rewrite obj_get_remove. cbn [String.eqb Ascii.eqb Bool.eqb].
    apply has_key_get, repended_keeps. destruct (has_key document "stranded_at") eqn:Hs; [done|].
    apply has_key_get. rewrite obj_get_insert. by eexists.
Qed.

(** An edited item is held back where its original was. *)
Lemma held_back_edit d document document' :
  keeps_item document document' -> (d = INFLIGHT -> no_origin document') ->
  held_back d (Some (Object document)) -> held_back d (Some (Object document')).
Proof.
  intros [_ Hs] Ho Hh doc [= <-]. specialize (Hh document eq_refl). destruct d; auto.
  right. left. by apply Ho.
Qed.
End edits.

(** ** The moves *)

Section moves.
Context `{JsonNumber, !JsonFloat, !World, !Assumed} (kept : gmap string (option string)).
Hypothesis kept_items : forall name, is_Some (kept !! name) -> is_item name = true.

Abbreviation inv := (invariant kept).
Abbreviation walk := (walk kept).

Lemma inv_held_back q d name c :
  inv q -> is_item name = true -> d <> CANCEL -> files q !! (d, name) = Some c ->
  quiet -> maybe_typed name (log q) = true -> held_back d c.
Proof. intros Hq ?????. by eapply (inv_held _ _ Hq). Qed.

(** Setting an untyped item aside, from wherever it is. *)
Lemma walk_set_aside d name document reason detail q :
  inv q -> is_item name = true -> d <> CANCEL -> d <> CANCELLED ->
  files q !! (d, name) = Some (Some (Object document)) ->
  walk (set_aside (d, name) document reason detail) (fun _ => inv) q.
Proof.
  intros Hq Hi Hd Hd' Hf. unfold set_aside, seconds_now.
  apply walk_bind, walk_within; [apply prepare_lane_within|done|]. intros [] q1 Hq1 Hinv1.
  rewrite <- (frame_files _ _ Hq1) in Hf by done.
  apply walk_bind, walk_gets. eapply walk_rewrite_move; try done.
  - rewrite !text_of_object. f_equal. apply set_aside_keeps.
  - intros Hqu Hm. split; [|done]. eapply held_back_edit; [apply set_aside_keeps| |].
    + intros _. apply set_aside_no_origin.
    + by apply (inv_held_back q1 d name).
  - intros q2 q3 _ _ Hinv3. apply walk_bind, walk_from_result; [done|]. intros id _.
    apply walk_bind. destruct (_ =? _)%string; [|by do 2 apply walk_ret].
    apply walk_bind, walk_attempt; [|intros e q' Hq'; by do 2 apply walk_ret].
    unfold remove_file. apply walk_bind, walk_drift; [by apply within_call_with|done|].
    intros [] q4 _ Hinv4. apply walk_bind, walk_gets. destruct (file_exists _ q4); [|done].
    assert (inv (set_files (delete (CANCEL, file_name id)) q4)) as Hinv5.
    { apply inv_tombstones; [|done]. intros fs p Hp. apply lookup_delete_ne. by intros <-. }
    apply wp_modify. apply walk_drift; [by apply within_call_with|done|]. intros [] q5 _ Hinv5'.
    by apply walk_ret.
Qed.

Lemma walk_quarantine_raw d name outcome error q :
  inv q -> d <> CANCEL -> d <> FAILED -> walk (quarantine_raw (d, name) outcome error) (fun _ => inv) q.
Proof.
  intros Hq Hd Hd'. unfold quarantine_raw. apply walk_bind, walk_transition; try done.
  intros c q1 q2 _ _ _ Hinv2. apply walk_bind, walk_sidecar; try done.
  intros v q3 _ Hinv3. by apply walk_from_result.
Qed.

(** *** Items left in [inflight/] *)

(** After stranded items were returned: what recovery could still return was not typed. *)
Definition settled (name : string) (q : Queue) : Prop :=
  quiet -> maybe_typed name (log q) = true ->
  forall document, files q !! (INFLIGHT, name) = Some (Some (Object document)) ->
  readable document = true -> has_key document "stranded_at" = true \/
  forall lane, origin_lane document = Some lane -> lane ∉ dirs q.

Lemma origin_lane_pending document lane :
  origin_lane document = Some lane -> lane = INBOX \/ lane = INBOX_V2.
Proof. unfold origin_lane. intros Hl. repeat case_match; naive_solver. Qed.

(** The part of a state that [settled] reads. *)
Record same_for (name : string) (q q' : Queue) : Prop := {
  same_file : files q' !! (INFLIGHT, name) = files q !! (INFLIGHT, name);
  same_typed : maybe_typed name (log q') = maybe_typed name (log q);
  same_dirs d : d <> CANCEL -> d ∈ dirs q' <-> d ∈ dirs q
}.

#[local] Instance same_for_preorder name : PreOrder (same_for name).
Proof.
  split; [by split|]. intros q1 q2 q3 [Hf1 Ht1 Hd1] [Hf2 Ht2 Hd2]. split; try by etrans.
  intros d Hd. by rewrite Hd2, Hd1.
Qed.

Lemma same_for_drift name q q' : drift q q' -> same_for name q q'.
Proof.
  intros [Hf Hd]. split; [|by rewrite (frame_log _ _ Hf)|done].
  by apply (frame_files _ _ Hf).
Qed.

Lemma same_for_insert name d name' v q :
  name' <> name -> same_for name q (set_files (<[(d, name') := v]>) q).
Proof. intros Hn. split; [|done..]. apply lookup_insert_ne. congruence. Qed.

Lemma same_for_moved name d d' name' c q :
  name' <> name -> same_for name q (moved (d, name') (d', name') c q).
Proof.
  intros Hn. split.
  - by rewrite files_moved, lookup_insert_ne, lookup_delete_ne by congruence.
  - apply maybe_typed_moved.
  - intros ??. by rewrite dirs_moved.
Qed.

Lemma settled_same name q q' : same_for name q q' -> settled name q -> settled name q'.
Proof.
  intros [Hf Ht Hd] Hs Hqu Hm document. rewrite Hf, Ht in *. intros Hdoc Hr.
  destruct (Hs Hqu Hm document Hdoc Hr) as [|Hl]; [by left|right].
  intros lane Hlane. destruct (origin_lane_pending _ _ Hlane) as [-> | ->];
    rewrite Hd by done; by apply Hl.
Qed.

Lemma settled_absent name q : files q !! (INFLIGHT, name) = None -> settled name q.
Proof. intros Hf _ _ document. by rewrite Hf. Qed.

(** *** Returning stranded items *)

(** The write and the move of a stranded item. *)
Lemma walk_strand name lane document now q :
  inv q -> is_item name = true -> origin_lane document = Some lane ->
  files q !! (INFLIGHT, name) = Some (Some (Object document)) ->
  walk (atomic_json (INFLIGHT, name) (Object (stranded document now));;
        identifier ← from_result (message_id_from_path (INFLIGHT, name));
        transition (INFLIGHT, name) (lane, name);; mret [identifier])
    (fun _ q' => inv q' /\ settled name q' /\ forall name', name <> name' -> same_for name' q q') q.
Proof.
  intros Hq Hi Hlane Hf.
  assert (lane <> CANCEL /\ lane <> INFLIGHT) as [Hlc Hli].
  { by destruct (origin_lane_pending _ _ Hlane) as [-> | ->]. }
  destruct (stranded_keeps document now) as [Hst1 Hst2].
  apply walk_bind. eapply walk_rewrite; try done.
  { rewrite !text_of_object. by f_equal. }
  { intros _ _ doc [= <-]. by left. }
  intros q3 Hd3 Hinv3. apply walk_bind, walk_from_result; [done|]. intros id _.
  assert (files q3 !! (INFLIGHT, name) = Some (Some (Object (stranded document now)))) as Hf3.
  { rewrite (frame_files _ _ (drift_frame _ _ Hd3)) by done. apply lookup_insert_eq. }
  apply walk_bind, walk_transition; try done.
  { intros c Hc. rewrite Hf3 in Hc. injection Hc as <-. intros _ _ _ doc [= <-].
    by destruct (origin_lane_pending _ _ Hlane) as [-> | ->]. }
  intros c q4 q5 Hd4 Hc Hd5 Hinv5. apply walk_ret. split_and!; [done| |].
  - apply settled_absent. rewrite (frame_files _ _ (drift_frame _ _ Hd5)) by done.
    by rewrite files_moved, lookup_insert_ne, lookup_delete_eq by congruence.
  - intros name' Hn. etrans; [by apply (same_for_insert name' INFLIGHT name)|].
    etrans; [by apply same_for_drift, Hd3|]. etrans; [by apply same_for_drift, Hd4|].
    etrans; [by apply (same_for_moved name' INFLIGHT lane name)|]. by apply same_for_drift.
Qed.

Lemma walk_repend_stranded name q :
  inv q -> is_item name = true ->
  walk (repend_stranded (INFLIGHT, name)) (fun _ q' =>
    inv q' /\ settled name q' /\ forall name', name <> name' -> same_for name' q q') q.
Proof.
  intros Hq Hi. unfold repend_stranded, seconds_now. apply walk_bind.
  assert (forall q', drift q q' -> inv q' -> settled name q ->
    inv q' /\ settled name q' /\ forall name', name <> name' -> same_for name' q q') as Hstay.
  { intros q' Hd Hinv Hs. split_and!; [done| |by intros; apply same_for_drift].
    eapply settled_same; [by apply same_for_drift|done]. }
  apply walk_attempt_load; try done.
  2:{ intros e q' Hd Hinv He. apply walk_ret, Hstay; try done.
      intros Hqu _ document Hf Hr. by rewrite (He Hqu _ Hf) in Hr. }
  intros document q1 Hd1 Hinv1 Hf _.
  destruct (negb (is_tracked document) || negb (has_key document "paste_started_at")) eqn:Htr.
  { apply walk_ret, Hstay; try done. intros Hqu Hm document' Hf' _. simplify_eq/=.
    assert (unreplayable document) as [Hs|[Ho|[Hu1 Hu2]]].
    { by apply (inv_held_back q INFLIGHT name (Some (Object document))). }
    - by left.
    - right. intros lane. by rewrite Ho.
    - by rewrite Hu1, Hu2 in Htr. }
  destruct (origin_lane document) as [lane|] eqn:Hlane.
  2:{ apply walk_ret, Hstay; try done. intros Hqu Hm document' Hf' _. simplify_eq/=.
      right. intros lane. by rewrite Hlane. }
  assert (lane <> CANCEL) as Hlc by by destruct (origin_lane_pending _ _ Hlane) as [-> | ->].
  apply walk_bind. eapply walk_looks; [by apply stat_directory_looks|done|].
  intros [] q2 Hd2 Hinv2 [_ Hb].
  2:{ apply walk_ret, Hstay; [by etrans|done|]. intros Hqu Hm document' Hf' _. simplify_eq/=.
      right. intros lane'. rewrite Hlane. intros [= <-] Hin.
      apply (drift_dirs _ _ Hd1) in Hin; [|done]. by specialize (Hb (quiet_steady Hqu) Hin). }
  assert (drift q q2) as Hdq by by etrans.
  apply walk_bind, walk_gets. cbn [snd]. eapply walk_mono; [apply walk_strand; try done|].
  { by rewrite (frame_files _ _ (drift_frame _ _ Hdq)). }
  intros ids q3 (Hinv3 & Hs & Hothers). split_and!; [done..|].
  intros name' Hn. etrans; [by apply same_for_drift, Hdq|]. by apply Hothers.
Qed.

(** *** Recovering the rest *)

(** After an item left [inflight/], only others matter. *)
Definition cleared (name : string) (q q' : Queue) : Prop :=
  files q' !! (INFLIGHT, name) = None /\ forall name', name <> name' -> same_for name' q q'.

Lemma cleared_moved name d' c q q1 q' :
  d' <> INFLIGHT -> drift q q1 -> drift (moved (INFLIGHT, name) (d', name) c q1) q' -> cleared name q q'.
Proof.
  intros Hd Hq1 Hq'. split.
  - rewrite (frame_files _ _ (drift_frame _ _ Hq')) by done.
    by rewrite files_moved, lookup_insert_ne, lookup_delete_eq by congruence.
  - intros name' Hn. etrans; [by apply same_for_drift|].
    etrans; [by apply (same_for_moved name' INFLIGHT d' name)|]. by apply same_for_drift.
Qed.

Lemma cleared_trans name q q1 q2 :
  (forall name', name <> name' -> same_for name' q q1) -> cleared name q1 q2 -> cleared name q q2.
Proof. intros Hs [Hf Hc]. split; [done|]. intros name' Hn. etrans; [by apply Hs|by apply Hc]. Qed.

(** [repend_never_typed] returns only what was not typed; otherwise it leaves the queue as it is. *)
Lemma walk_repend_never_typed name q :
  inv q -> is_item name = true -> settled name q ->
  walk (repend_never_typed (INFLIGHT, name)) (fun b q' =>
    inv q' /\ if b then cleared name q q' else drift q q') q.
Proof.
  intros Hq Hi Hs. unfold repend_never_typed. apply walk_bind.
  apply walk_attempt_load; try done.
  intros document q1 Hd1 Hinv1 Hf Hr.
  destruct (_ && _); [by apply walk_ret|].
  set (document' := if never_typed_error document then obj_remove "paste_started_at" document else document).
  assert (obj_get document' "text" = obj_get document "text" /\
    origin_lane document' = origin_lane document /\
    has_key document' "stranded_at" = has_key document "stranded_at") as (Ht & Ho & Hst).
  { unfold document', origin_lane, has_key. destruct (never_typed_error document); [|done].
    by rewrite !obj_get_remove. }
  rewrite Ho. destruct (origin_lane document) as [lane|] eqn:Hlane; [|by apply walk_ret].
  assert (lane <> CANCEL /\ lane <> INFLIGHT) as [Hlc Hli].
  { by destruct (origin_lane_pending _ _ Hlane) as [-> | ->]. }
  apply walk_bind. eapply walk_looks; [by apply stat_directory_looks|done|].
  intros [] q2 Hd2 Hinv2 [Hb _]; [|apply walk_ret; split; [done|by etrans]].
  assert (drift q q2) as Hdq by by etrans.
  assert (files q2 !! (INFLIGHT, name) = Some (Some (Object document))) as Hf2.
  { by rewrite (frame_files _ _ (drift_frame _ _ Hdq)). }
  destruct (repended_keeps document') as [Hk1 Hk2].
  eapply walk_rewrite_move; try done.
  { rewrite !text_of_object. f_equal. congruence. }
  { intros Hqu Hm. split; intros doc [= <-]; [right; left; apply repended_no_origin|].
    rewrite (frame_log _ _ (drift_frame _ _ Hdq)) in Hm.
    assert (has_key document "stranded_at" = true) as Hdoc.
    { destruct (Hs Hqu Hm document Hf Hr) as [|Hl]; [done|]. destruct (Hl lane Hlane).
      apply (drift_dirs _ _ Hd1); [done|]. by apply Hb. }
    destruct (origin_lane_pending _ _ Hlane) as [-> | ->]; apply Hk2; congruence. }
  intros q3 q4 Hd3 Hd4 Hinv4. apply walk_ret. split; [done|].
  apply (cleared_trans _ _ q3); [|by apply (cleared_moved name lane (Some (Object (repended document'))) q3 q3)].
  intros name' Hn. etrans; [by apply same_for_drift|].
  etrans; [by apply (same_for_insert name' INFLIGHT name)|by apply same_for_drift].
Qed.

Lemma walk_recover_item name q :
  inv q -> is_item name = true -> settled name q ->
  walk (recover_item (INFLIGHT, name)) (fun _ q' => inv q' /\ cleared name q q') q.
Proof.
  intros Hq Hi Hs. unfold recover_item. apply walk_bind.
  eapply walk_mono; [by apply walk_repend_never_typed|]. intros [] q1 [Hinv1 Hc1]; [by apply walk_ret|].
  cbn [snd]. apply walk_bind, walk_transition; try done.
  intros c q2 q3 Hd2 _ Hd3 Hinv3. apply walk_bind, walk_sidecar; try done.
  intros v q4 Hd4 Hinv4. apply walk_bind, walk_from_result; [done|]. intros id _.
  apply walk_ret. split; [done|].
  assert (cleared name q q3) as [Hf Hsame].
  { apply (cleared_trans _ _ q1); [intros; by apply same_for_drift|].
    by apply (cleared_moved name FAILED c q1 q2). }
  split.
  - rewrite (frame_files _ _ (drift_frame _ _ Hd4)) by done. cbn. by rewrite lookup_insert_ne.
  - intros name' Hn. etrans; [by apply Hsame|]. etrans; [|by apply same_for_drift].
    split; [by apply lookup_insert_ne|done..].
Qed.

Lemma settled_cleared name name' q q' : cleared name q q' -> settled name' q -> settled name' q'.
Proof.
  intros [Hf Hc] Hs. destruct (decide (name = name')) as [<-|Hn]; [by apply settled_absent|].
  eapply settled_same; [by apply Hc|done].
Qed.

(** *** The recovery of a drain *)

Definition to_settle (rest : list Path) (q : Queue) : Prop :=
  inv q /\ (forall path, path ∈ rest -> path.1 = INFLIGHT /\ is_item path.2 = true) /\
  forall name, is_item name = true -> (INFLIGHT, name) ∈ rest \/ settled name q.

Lemma walk_repend_stranded_inflight q :
  inv q -> walk repend_stranded_inflight (fun _ q' =>
    inv q' /\ forall name, is_item name = true -> settled name q') q.
Proof.
  intros Hq. unfold repend_stranded_inflight. apply walk_bind.
  eapply walk_looks; [by apply json_paths_looks|done|]. intros paths q1 Hd1 Hinv1 ->.
  apply (walk_fold_op kept to_settle).
  - split; [done|]. setoid_rewrite elem_of_json_paths. split; [by intros path (? & ? & _)|].
    intros name Hi. destruct (files q !! (INFLIGHT, name)) eqn:Hf; [left; by split_and!|right].
    apply settled_absent. by rewrite (frame_files _ _ (drift_frame _ _ Hd1)).
  - intros [d name] rest b q2 (Hinv2 & Hrest & Hset).
    destruct (Hrest (d, name)) as [Hd Hi]; [by left|]. cbn in Hd, Hi. subst d.
    apply walk_bind. eapply walk_mono; [by apply walk_repend_stranded|].
    intros ids q3 (Hinv3 & Hname & Hothers). apply walk_ret. split; [done|].
    split; [intros; apply Hrest; by right|]. intros name' Hi'.
    destruct (decide (name = name')) as [<-|Hn]; [by right|].
    destruct (Hset name' Hi') as [Hin|Hs].
    + left. apply elem_of_cons in Hin as [[= ->]|]; done.
    + right. eapply settled_same; [by apply Hothers|done].
  - intros b q' (Hinv' & _ & Hset). split; [done|]. intros name Hi.
    destruct (Hset name Hi) as [Hin|]; [|done]. by apply not_elem_of_nil in Hin.
Qed.

Definition to_recover (rest : list Path) (q : Queue) : Prop :=
  inv q /\ forall path, path ∈ rest -> path.1 = INFLIGHT /\ is_item path.2 = true /\ settled path.2 q.

Lemma walk_recover_inflight q :
  inv q -> (forall name, is_item name = true -> settled name q) ->
  walk recover_inflight (fun _ => inv) q.
Proof.
  intros Hq Hset. unfold recover_inflight. apply walk_bind.
  eapply walk_looks; [by apply json_paths_looks|done|]. intros paths q1 Hd1 Hinv1 ->.
  apply (walk_fold_op kept to_recover).
  - split; [done|]. setoid_rewrite elem_of_json_paths. intros [d name] (? & ? & _).
    split_and!; [done..|]. eapply settled_same; [by apply same_for_drift|]. by apply Hset.
  - intros [d name] rest b q2 (Hinv2 & Hrest).
    destruct (Hrest (d, name)) as (Hd & Hi & Hs); [by left|]. cbn in Hd, Hi, Hs. subst d.
    apply walk_bind. eapply walk_mono; [by apply walk_recover_item|].
    intros ids q3 (Hinv3 & Hc). apply walk_ret. split; [done|]. intros path Hin.
    destruct (Hrest path) as (? & ? & ?); [by right|]. split_and!; [done..|].
    by eapply settled_cleared.
  - by intros b q' [? _].
Qed.
End moves.

Section operations.
Context `{JsonNumber, !JsonFloat, !World, !Assumed} (kept : gmap string (option string)).
Hypothesis kept_items : forall name, is_Some (kept !! name) -> is_item name = true.

Abbreviation inv := (invariant kept).
Abbreviation walk := (walk kept).

(** ** [withdraw] *)

Lemma inv_removed d name q :
  kept !! name = None -> inv q -> inv (set_files (delete (d, name)) q).
Proof.
  intros Hk [Hdirs Hone Hlost Hheld Hhist]. split; cbn; try done.
  - intros path Hp Hs. apply lookup_delete_is_Some in Hs as [_ Hs]. by apply Hdirs.
  - intros Hs name' d1 d2 Hi Hd1 Hd2 Hs1 Hs2.
    cbn in Hs1, Hs2. apply lookup_delete_is_Some in Hs1 as [_ Hs1], Hs2 as [_ Hs2]. by apply (Hone Hs name').
  - intros Hs name' t Hk'. destruct (Hlost Hs name' t Hk') as (d' & c & Hd & Hc & Ht).
    exists d', c. cbn. rewrite lookup_delete_ne; [done|]. intros [= -> ->]. congruence.
  - intros Hqu name' d' c Hi Hd Hc. cbn in Hc. apply lookup_delete_Some in Hc as [_ Hc]. by apply Hheld.
Qed.

Lemma walk_pending_path name ds (Q : option Path -> Queue -> Prop) q :
  inv q -> (forall r q', inv q' -> (forall path, r = Some path -> path.2 = name) -> Q r q') ->
  walk (pending_path name ds) Q q.
Proof.
  intros Hq HQ. revert q Hq. induction ds as [|d ds IH]; intros q Hq; cbn; [by apply HQ|].
  apply walk_bind, walk_drift; [apply stat_within|done|]. intros [] q1 _ Hq1; [|by apply IH].
  apply walk_ret, HQ; [done|]. by intros path [= <-].
Qed.

Lemma walk_withdraw message_id q :
  kept !! file_name message_id = None -> inv q -> walk (withdraw message_id) (fun _ => inv) q.
Proof.
  intros Hk Hq. unfold withdraw, validate_existing_queue, directory_identity.
  apply walk_bind, walk_from_result; [done|]. intros _ _.
  apply walk_bind, walk_drift; [apply stat_root_within|done|]. intros [] q1 _ Hq1; [|by apply walk_ret].
  apply walk_bind, walk_drift; [by apply within_call_with|done|]. intros [] q2 _ Hq2.
  apply walk_bind, walk_drift; [by apply within_call_with|done|]. intros [] q3 _ Hq3.
  apply walk_bind, walk_drift; [apply lock_delivery_within|done|]. intros [] q4 _ Hq4.
  apply walk_bind, walk_pending_path; [done|].
  intros [[d name]|] q5 Hq5 Hname; [|by apply walk_ret].
  apply walk_bind, walk_drift; [apply load_message_within|done|]. intros document q6 _ Hq6.
  destruct (negb _); [by apply walk_fail|].
  unfold remove_file. apply walk_bind, walk_bind, walk_drift; [by apply within_call_with|done|].
  intros [] q7 _ Hq7. apply walk_bind, walk_gets. destruct (file_exists _ q7); [|by apply walk_fail].
  apply wp_modify. specialize (Hname _ eq_refl). cbn in Hname. subst name.
  apply walk_bind, walk_drift; [by apply within_call_with|by apply inv_removed|]. intros [] q8 _ Hq8.
  by apply walk_ret.
Qed.

(** ** [enqueue_into] *)

Lemma stat_is_ok_looks path :
  path.1 <> CANCEL ->
  looks (fun b q => (b = true -> is_Some (files q !! path)) /\
                    (steady -> b = false -> files q !! path = None)) (stat_is_ok path).
Proof.
  intros Hp q. unfold stat_is_ok, stat. apply wp_bind, wp_attempt, wp_bind.
  apply wp_call_with; [| |done].
  - intros q' Hq'. apply wp_gets, wp_ret. split; [done|]. unfold file_exists.
    rewrite (frame_files _ _ (drift_frame _ _ Hq')) by done.
    by destruct (files q !! path); split.
  - intros q' Hf Hq' e. apply wp_ret. split; [done|]. split; [done|].
    intros Hs. by rewrite (steady_stat Hs) in Hf.
Qed.

Lemma any_phase_has_looks ds name :
  CANCEL ∉ ds ->
  looks (fun b q => steady -> b = false -> forall d, d ∈ ds -> files q !! (d, name) = None)
    (any_phase_has ds name).
Proof.
  induction ds as [|d ds IH]; intros Hds q; cbn [any_phase_has].
  { apply wp_ret. split; [done|]. intros _ _ d Hd. by apply not_elem_of_nil in Hd. }
  apply not_elem_of_cons in Hds as [Hd Hds]. apply wp_bind.
  eapply wp_mono; [apply (stat_is_ok_looks (d, name)); cbn; congruence| |done|done].
  intros [] q1 [Hd1 [_ Hn]]; [by apply wp_ret|].
  eapply wp_mono; [by apply IH|..]; cbn.
  - intros b q2 [Hd2 Hb]. split; [by etrans|]. intros Hs Hbf d' [->|Hin]%elem_of_cons; [by apply Hn|].
    rewrite <- (frame_files _ _ (drift_frame _ _ Hd1)); [by apply Hb|]. cbn. by intros ->.
  - intros q2 Hd2. by etrans.
  - intros q2 Hd2. by etrans.
Qed.

Lemma elem_of_phases d : d <> CANCEL -> d ∈ states.*1.
Proof. destruct d; intros Hd; try done; cbn; repeat (left || right). Qed.

(** A new item, under a name that no phase has. *)
Lemma inv_queued d name v q :
  d <> CANCEL -> d ∈ dirs q -> (steady -> forall d', d' <> CANCEL -> files q !! (d', name) = None) ->
  inv q -> inv (record_event (Queued name) (set_files (<[(d, name) := Some v]>) q)).
Proof.
  intros Hd Hin Hnone [Hdirs Hone Hlost Hheld Hhist]. split; cbn.
  - intros path Hp. rewrite lookup_insert_is_Some'. intros [<-|Hs]; [done|by apply Hdirs].
  - intros Hs name' d1 d2 Hi Hd1 Hd2. cbn. rewrite !lookup_insert_is_Some'.
    intros [[= <- <-]|Hs1] [[= <-]|Hs2]; auto.
    + rewrite Hnone in Hs2 by done. by destruct Hs2.
    + subst. rewrite Hnone in Hs1 by done. by destruct Hs1.
    + by apply (Hone Hs name').
  - intros Hs name' t Hk. destruct (Hlost Hs name' t Hk) as (d' & c & Hd' & Hc & Ht).
    exists d', c. cbn. rewrite lookup_insert_ne; [done|]. intros [= -> ->].
    rewrite Hnone in Hc; done.
  - intros Hqu name' d' c Hi Hd' Hc. cbn. destruct (name' =? name)%string eqn:Hn; [done|].
    apply String.eqb_neq in Hn. cbn in Hc. rewrite lookup_insert_ne in Hc by congruence. by apply Hheld.
  - intros Hqu. split; [done|by apply Hhist].
Qed.

Lemma walk_create path v (Q : bool -> Queue -> Prop) q :
  inv q -> (forall b q', inv q' -> Q b q') ->
  (forall q1, drift q q1 -> inv q1 -> path.1 ∈ dirs q1 -> files q1 !! path = None ->
    inv (let q2 := set_files (<[path := Some v]>) q1 in
         if is_lane path.1 then record_event (Queued path.2) q2 else q2)) ->
  walk (atomic_json_create path v) Q q.
Proof.
  intros Hq HQ Hput. unfold atomic_json_create.
  apply walk_bind, walk_drift; [by apply within_call_with|done|]. intros [] q1 Hd1 Hq1.
  apply walk_bind, walk_drift; [by apply within_call_with|done|]. intros [] q2 Hd2 Hq2.
  specialize (Hput q2 ltac:(by etrans) Hq2).
  apply walk_bind. unfold link, put, file_exists. apply walk_bind, walk_gets.
  destruct (files q2 !! path) eqn:Hf; [apply walk_ret, HQ, Hq2|].
  apply walk_bind, walk_bind, walk_gets. case_bool_decide as Hin; [|by apply walk_fail].
  specialize (Hput Hin eq_refl). apply wp_modify, walk_bind.
  destruct (is_lane path.1); [apply wp_modify|apply walk_ret]; apply walk_ret;
    (apply walk_bind, walk_drift; [by apply within_call_with|done|]); intros [] q3 _ Hq3;
    (apply walk_bind, walk_drift; [by apply within_call_with|done|]); intros [] q4 _ Hq4;
    by apply walk_ret, HQ.
Qed.

Lemma walk_enqueue lane message_id generated document q :
  inv q -> walk (enqueue_into lane message_id generated true document) (fun _ => inv) q.
Proof.
  intros Hq. unfold enqueue_into, directory_identity.
  apply walk_bind, walk_within; [apply prepare_within|done|]. intros [] q1 _ Hq1.
  apply walk_bind, walk_from_result; [done|]. intros [] _. set (id := default generated message_id).
  apply walk_bind.
  assert (walk (match lane with Inbox => mret () | InboxV2 => prepare_lane INBOX_V2 end) (fun _ => inv) q1)
    as Hlane.
  { destruct lane; [by apply walk_ret|]. by apply walk_within; [apply prepare_lane_within| |]. }
  eapply walk_mono; [exact Hlane|]. intros [] q2 Hq2.
  apply walk_bind, walk_bind, walk_drift; [by apply within_call_with|done|]. intros [] q3 _ Hq3.
  apply walk_drift; [apply lock_delivery_within|done|]. intros [] q4 _ Hq4.
  apply walk_bind. eapply walk_looks; [apply any_phase_has_looks; by apply (bool_decide_unpack _)|done|].
  intros found q5 Hd5 Hq5 Hnone. destruct found; [by apply walk_fail|].
  destruct (negb (lane_fields_ok _ _)); [by apply walk_fail|].
  destruct (negb (item_ok _ _)); [by apply walk_fail|].
  apply walk_bind, walk_create; [done| |].
  - intros [] q6 Hq6; [by apply walk_ret|by apply walk_fail].
  - intros q6 Hd6 Hq6 Hin _. replace (is_lane _) with true by by destruct lane.
    apply inv_queued; try done; [by destruct lane|].
    intros Hs d' Hd'. assert (drift q4 q6) as Hd by by etrans.
    rewrite (frame_files _ _ (drift_frame _ _ Hd)) by done.
    apply Hnone; [done..|]. by apply elem_of_phases.
Qed.

(** ** [cancel] *)

Lemma walk_set_aside_pending name reason ds q :
  inv q -> is_item name = true -> (forall d, d ∈ ds -> d <> CANCEL /\ d <> CANCELLED) ->
  walk (set_aside_pending name reason ds) (fun _ => inv) q.
Proof.
  intros Hq Hi. revert q Hq. induction ds as [|d ds IH]; intros q Hq Hds; cbn; [by apply walk_ret|].
  apply walk_bind, walk_drift; [apply stat_is_ok_within|done|].
  intros [] q1 _ Hq1; [|by apply IH; [|intros; apply Hds; right]].
  destruct (Hds d) as [Hd Hd']; [by left|].
  apply walk_bind. eapply walk_looks; [by apply load_message_looks|done|].
  intros document q2 Hd2 Hq2 Hf. apply walk_bind. eapply walk_mono; [apply walk_set_aside; try done|].
  - by rewrite (frame_files _ _ (drift_frame _ _ Hd2)).
  - intros id q3 Hq3. by apply walk_ret.
Qed.

Lemma walk_cancel message_id reason q : inv q -> walk (cancel message_id reason) (fun _ => inv) q.
Proof.
  intros Hq. unfold cancel, seconds_now, directory_identity.
  apply walk_bind, walk_from_result; [done|]. intros [] _.
  apply walk_bind, walk_within; [apply prepare_within|done|]. intros [] q1 _ Hq1.
  apply walk_bind, walk_drift; [apply settled_state_within|done|]. intros state q2 _ Hq2.
  destruct (match state with Some (Processed | Failed | Cancelled) => true | _ => false end) eqn:Hst.
  { by destruct state as [[]|]; try done; apply walk_ret. }
  assert (walk (prepare_lane CANCEL;;
      now ← gets (fun q => Number (unix_seconds (clock q)));
      atomic_json_create (CANCEL, file_name message_id) (Tombstone message_id reason now);;
      call_on "inspect queue directory" None;;
      locked ← attempt (lock_delivery false);
      done_ ← (if is_ok locked then set_aside_pending (file_name message_id) reason [INBOX; INBOX_V2]
               else mret false);
      if done_ : bool then mret SetAside else
      state ← settled_state 5 message_id;
      mret (report state)) (fun _ => inv) q2) as Hgo; [|by destruct state as [[]|]].
  apply walk_bind, walk_within; [apply prepare_lane_within|done|]. intros [] q3 _ Hq3.
  apply walk_bind, walk_gets, walk_bind, walk_create; [done| |].
  2:{ intros q4 _ Hq4 _ _. cbn. apply inv_tombstones; [|done].
      intros fs p Hp. apply lookup_insert_ne. by intros <-. }
  intros b q4 Hq4. apply walk_bind, walk_drift; [by apply within_call_with|done|]. intros [] q5 _ Hq5.
  apply walk_bind, walk_attempt; [apply walk_drift; [apply lock_delivery_within|done|]|];
    [intros [] q6 _ Hq6|intros e q6 Hq6]; apply walk_bind; cbn [is_ok].
  - eapply walk_mono; [apply walk_set_aside_pending; [done|apply is_item_file_name|]|].
    { by intros d [->|[->|[]%elem_of_nil]%elem_of_cons]%elem_of_cons. }
    intros [] q7 Hq7; [by apply walk_ret|].
    apply walk_bind, walk_drift; [apply settled_state_within|done|]. intros s q8 _ Hq8. by apply walk_ret.
  - apply walk_ret, walk_bind, walk_drift; [apply settled_state_within|done|].
    intros s q8 _ Hq8. by apply walk_ret.
Qed.
End operations.
