(* ===== verification/AgentDrainLoop.v ===== *)
(** * agentctl: a drain keeps the invariant, and its retry loop ends

    What the drain's documents keep, a delivery from the barrier to its report, the ways
    it is settled, and the whole drain. *)
From S2P Require Import Prelude RustStr External AgentStore AgentQueue AgentMoves AgentDrain AgentInvariant AgentWalk AgentSafeOps.

(** Look a key up through the edits of a document. *)
Ltac edits :=
  repeat first [rewrite obj_get_insert | rewrite remove_keys_get | rewrite obj_get_remove];
  cbn [existsb orb String.eqb Ascii.eqb Bool.eqb].

Section documents.
Context `{JsonNumber, !JsonFloat, !World, !Terminal}.

Definition is_stranded (document : object) : bool := has_key document "stranded_at".

(** The keys the proofs follow. *)
Record same_item (document document' : object) : Prop := {
  same_text : obj_get document' "text" = obj_get document "text";
  same_stranded : is_stranded document' = is_stranded document;
  same_misroutes : misroutes_of document' = misroutes_of document
}.

#[global] Instance same_item_preorder : PreOrder same_item.
Proof.
  split; [by split|]. intros d1 d2 d3 [T1 S1 M1] [T2 S2 M2]. split; congruence.
Qed.

Lemma barrier_same document lane now : same_item document (barrier_document document lane now).
Proof. split; unfold is_stranded, has_key, misroutes_of, barrier_document; by edits. Qed.

Lemma note_typed_same document typed : same_item document (note_typed document typed).
Proof.
  unfold note_typed. destruct (has_key document "stranded_at") eqn:Hs; [done|].
  case_bool_decide; split; unfold is_stranded, has_key, misroutes_of; by edits.
Qed.

Lemma labelled_same document label report : same_item document (labelled document label report).
Proof.
  unfold labelled. destruct report as [[]|], label; try done;
    split; unfold is_stranded, has_key, misroutes_of; by edits.
Qed.

Lemma started_same document now : same_item document (obj_insert "paste_started_at" now document).
Proof. split; unfold is_stranded, has_key, misroutes_of; by edits. Qed.

Lemma blocked_same document detail now : same_item document (blocked_document document detail now).
Proof. split; unfold is_stranded, has_key, misroutes_of, blocked_document; by edits. Qed.

(** The document of the barrier is tracked, and not started. *)
Lemma note_typed_tracked document lane now typed :
  is_tracked (note_typed (barrier_document document lane now) typed) = true /\
  has_key (note_typed (barrier_document document lane now) typed) "paste_started_at" = false.
Proof.
  set (b := barrier_document document lane now).
  assert (obj_get b "paste_tracking" = Some (VBool true) /\ obj_get b "paste_started_at" = None) as [Ht Hp].
  { unfold b, barrier_document. by edits. }
  unfold note_typed. destruct (has_key b "stranded_at"); [|case_bool_decide];
    unfold is_tracked, has_key; edits; by rewrite Ht, Hp.
Qed.

(** What is typed afresh was not stranded before; what is not given back is from then on. *)
Lemma not_staged_keeps document typed detail now :
  let document' := not_staged_document document typed detail now in
  obj_get document' "text" = obj_get document "text" /\
  misroutes_of document' = misroutes_of document /\
  (is_stranded document = true \/ is_stranded_prompt detail || is_late_paste_lost detail = true ->
   is_stranded document' = true).
Proof.
  cbn. unfold not_staged_document. destruct (is_stranded_prompt detail || is_late_paste_lost detail).
  - unfold note_stranded, is_stranded, misroutes_of. split_and!.
    + edits. destruct (has_key _ _); by edits.
    + edits. destruct (has_key _ _); by edits.
    + intros _. apply has_key_get. edits. destruct (has_key _ _) eqn:Hs; [by apply has_key_get|].
      edits. by eexists.
  - destruct (has_key document "stranded_at") eqn:Hs;
      unfold is_stranded, has_key in *; unfold misroutes_of; edits; split_and!; try done;
      intros [?|?]; try done; congruence.
Qed.
End documents.

Section delivery.
Context `{JsonNumber, !JsonFloat, !World, !Terminal, !Assumed} (kept : gmap string (option string)).
Hypothesis kept_items : forall name, is_Some (kept !! name) -> is_item name = true.

Abbreviation inv := (invariant kept).
Abbreviation walk := (walk kept).

(** ** Typing *)

Definition in_flight (name : string) (document : object) (q : Queue) : Prop :=
  files q !! (INFLIGHT, name) = Some (Some (Object document)).

Lemma in_flight_drift name document q q' : drift q q' -> in_flight name document q -> in_flight name document q'.
Proof. intros Hd. unfold in_flight. by rewrite (frame_files _ _ (drift_frame _ _ Hd)). Qed.

Lemma in_flight_set name document q q' :
  drift (set_files (<[(INFLIGHT, name) := Some (Object document)]>) q) q' -> in_flight name document q'.
Proof. intros Hd. eapply in_flight_drift; [exact Hd|]. apply lookup_insert_eq. Qed.

(** The ghost event of a delivery. *)
Lemma inv_typing name document stranded started returned q :
  inv q -> is_item name = true -> in_flight name document q ->
  (quiet -> last_taken name (log q) = Some false) ->
  (quiet -> stranded = false -> started = true -> maybe_typed name (log q) = false) ->
  (quiet -> stranded = false -> started = true -> unreplayable document) ->
  inv (record_event (Typing name stranded started returned) q).
Proof.
  intros [Hdirs Hone Hlost Hheld Hhist] Hi Hf Htaken Hfresh Hun. split; cbn; try done.
  - intros Hqu name' d c Hi' Hd Hc. cbn.
    destruct (_ && negb returned) eqn:Hty; [|by apply Hheld]. intros _.
    apply andb_true_iff in Hty as [[[Hn Hst]%andb_true_iff Hsta]%andb_true_iff _].
    apply String.eqb_eq in Hn as ->. apply negb_true_iff in Hst.
    assert (d = INFLIGHT) as ->.
    { apply (Hone (quiet_steady Hqu) name); try done; by eexists. }
    cbn in Hc. unfold in_flight in Hf. rewrite Hf in Hc. injection Hc as <-.
    intros doc [= <-]. by apply Hun.
  - intros Hqu. split_and!; [by apply Htaken|by apply Hfresh|by apply Hhist].
Qed.

(** What is known between a delivery and its settlement. *)
Record delivered_as (name : string) (document : object)
    (report : option (result Undelivered Delivered)) (q : Queue) : Prop := {
  now_inv : inv q;
  now_file : exists on_disk, in_flight name on_disk q /\ obj_get on_disk "text" = obj_get document "text";
  now_typed : quiet -> maybe_typed name (log q) = true ->
              is_stranded document = true \/ gives_back report = false
}.

Lemma walk_deliver_one name document typed q :
  inv q -> is_item name = true -> in_flight name document q ->
  is_tracked document = true -> has_key document "paste_started_at" = false ->
  (quiet -> last_taken name (log q) = Some false) ->
  (quiet -> maybe_typed name (log q) = true -> is_stranded document = true) ->
  walk (deliver_one (INFLIGHT, name) document typed) (fun r q' =>
    delivered_as name document (Some r.2) q') q.
Proof.
  intros Hq Hi Hf Htr Hns Htaken Hty. unfold deliver_one, seconds_now. fold (is_stranded document).
  apply walk_bind, walk_gets. set (d := deliver (clock q) typed (is_stranded document)).
  rewrite Hns, andb_true_r.
  assert (forall q' on_disk, inv q' -> in_flight name on_disk q' ->
    obj_get on_disk "text" = obj_get document "text" -> log q' = log q ->
    (quiet -> input_started d = true -> unreplayable on_disk) ->
    walk (modify (record_event (Typing name (is_stranded document) (input_started d)
                                  (gives_back (reported d))));;
          match reported d with Some report => mret (paste_label d, report) | None => die end)
      (fun r q' => delivered_as name document (Some r.2) q') q') as Hgo.
  { intros q' on_disk Hinv Hf' Ht Hl Hun. apply wp_bind, wp_modify.
    assert (inv (record_event (Typing name (is_stranded document) (input_started d)
                   (gives_back (reported d))) q')) as Hinv'.
    { apply (inv_typing _ on_disk); auto; rewrite Hl; auto.
      intros Hqu Hs _. apply not_true_is_false. intros Hm. by rewrite (Hty Hqu Hm) in Hs. }
    destruct (reported d) as [report|]; [|done]. apply walk_ret. split; [done|by exists on_disk|].
    intros Hqu. cbn. rewrite Hl. intros [Hm|Hm]%orb_true_iff; [|left; by apply Hty].
    apply andb_true_iff in Hm as [_ Hm]. right. by apply negb_true_iff in Hm. }
  apply walk_bind. destruct (input_started d) eqn:Hst; [|apply walk_ret; by eapply Hgo].
  apply walk_bind, walk_gets. set (now := Number (unix_seconds (clock q))).
  destruct (started_same document now) as [Ht _ _].
  apply walk_bind. apply wp_attempt. eapply wp_rewrite; try done.
  - rewrite !text_of_object. by f_equal.
  - intros _ _ doc [= <-]. right. right. unfold is_tracked, has_key in *.
    rewrite !obj_get_insert. done.
  - intros q1 Hd1 Hq1. apply walk_ret. eapply (Hgo _ (obj_insert "paste_started_at" now document)); try done.
    + by eapply in_flight_set.
    + by rewrite (frame_log _ _ (drift_frame _ _ Hd1)).
    + intros _ _. right. right. unfold is_tracked, has_key in *. by rewrite !obj_get_insert.
  - intros q1 Hq1 Hnq [Hd1|Hd1] e; apply walk_ret.
    + eapply (Hgo _ document); try done; [by eapply in_flight_drift|].
      by rewrite (frame_log _ _ (drift_frame _ _ Hd1)).
    + eapply (Hgo _ (obj_insert "paste_started_at" now document)); try done.
      * by eapply in_flight_set.
      * by rewrite (frame_log _ _ (drift_frame _ _ Hd1)).
Qed.

Lemma delivered_as_same name document document' report q :
  same_item document document' -> delivered_as name document report q -> delivered_as name document' report q.
Proof.
  intros [Ht Hs _] [Hinv (on_disk & Hf & Ht') Hty]. split; [done| |by rewrite Hs].
  exists on_disk. split; [done|]. congruence.
Qed.

(** ** Settling *)

Lemma walk_quarantine name document on_disk detail q :
  inv q -> in_flight name on_disk q -> obj_get on_disk "text" = obj_get document "text" ->
  origin_lane document = None ->
  walk (quarantine (INFLIGHT, name) document detail) (fun _ => inv) q.
Proof.
  intros Hq Hf Ht Ho. unfold quarantine. cbn [snd]. eapply walk_rewrite_move; try done.
  - rewrite !text_of_object. by f_equal.
  - intros _ _. split; [|done]. intros doc [= <-]. right. by left.
  - intros q1 q2 _ _ Hq2. by apply walk_sidecar.
Qed.

Lemma strip_keeps document :
  obj_get (strip_paste_stamps document) "text" = obj_get document "text" /\
  origin_lane (strip_paste_stamps document) = None.
Proof. unfold strip_paste_stamps, origin_lane. by rewrite !remove_keys_get. Qed.

Definition misroutes_at (path : Path) (q : Queue) : nat :=
  match files q !! path with Some (Some (Object document)) => length (misroutes_of document) | _ => 0 end.

(** A turn that is tried again used up a retry or a misroute. *)
Definition turn_ok (retries misroutes : nat) (path : Path) (f : flow) (q : Queue) : Prop :=
  match f with
  | TryAgain retries' =>
      (COMPOSER_RETRIES - retries') + (MAX_MISROUTES - misroutes_at path q)
      < (COMPOSER_RETRIES - retries) + (MAX_MISROUTES - misroutes)
  | OutOfFuel => False
  | _ => True
  end.

Definition pending_lane (d : Directory) : Prop := d = INBOX \/ d = INBOX_V2.

(** Back to its lane, with a document that is stranded if anything was typed. *)
Lemma walk_return {A} lane name document on_disk (k : Op A) (Q : A -> Queue -> Prop) q :
  pending_lane lane -> inv q -> in_flight name on_disk q ->
  obj_get document "text" = obj_get on_disk "text" ->
  (quiet -> maybe_typed name (log q) = true -> is_stranded document = true) ->
  (forall q', inv q' -> misroutes_at (lane, name) q' = length (misroutes_of document) -> walk k Q q') ->
  walk (atomic_json (INFLIGHT, name) (Object document);; transition (INFLIGHT, name) (lane, name);; k) Q q.
Proof.
  intros Hl Hq Hf Ht Hs Hk. eapply walk_rewrite_move; try done; try by destruct Hl as [-> | ->].
  - rewrite !text_of_object. by f_equal.
  - intros Hqu Hm. specialize (Hs Hqu Hm).
    split; intros doc [= <-]; [by left|]. by destruct Hl as [-> | ->].
  - intros q1 q2 _ Hd2 Hq2. apply Hk; [done|]. unfold misroutes_at.
    rewrite (frame_files _ _ (drift_frame _ _ Hd2)) by by destruct Hl as [-> | ->].
    by rewrite files_moved, lookup_insert_eq.
Qed.

Section settled_one.
Context (lane : Directory) (name : string) (document : object) (retries : nat) (q : Queue).
Hypothesis Hlane : pending_lane lane.

Abbreviation done_one := (fun r q' =>
  inv q' /\ turn_ok retries (length (misroutes_of document)) (lane, name) r.1 q').

Lemma walk_after_not_staged options identifier typed detail p :
  delivered_as name document (Some (Ok (NotStaged detail))) q ->
  walk (after_not_staged options (lane, name) document identifier typed detail retries p) done_one q.
Proof.
  intros [Hq (on_disk & Hf & Ht) Hty]. unfold after_not_staged, seconds_now. cbn [snd].
  apply walk_bind, walk_gets. set (now := Number (unix_seconds (clock q))).
  destruct (not_staged_keeps document typed detail now) as (Ht' & Hm' & Hs').
  set (document' := not_staged_document document typed detail now) in *.
  destruct (lost_too_often document' detail).
  { apply walk_bind, walk_gets, walk_bind.
    eapply walk_mono; [eapply walk_quarantine; [done|exact Hf|..]|].
    - rewrite (proj1 (strip_keeps _)). edits. congruence.
    - apply strip_keeps.
    - intros [] q1 Hq1. apply walk_ret. by split. }
  apply walk_bind, walk_gets. eapply walk_return; [done|done|exact Hf|..].
  - unfold blocked_document. edits. by rewrite Ht', Ht.
  - intros Hqu Hm. unfold is_stranded, has_key, blocked_document. edits.
    apply has_key_get. apply has_key_get. fold (is_stranded document'). apply Hs'.
    destruct (Hty Hqu Hm) as [|Hg]; [by left|right]. cbn in Hg. by apply negb_false_iff in Hg.
  - intros q1 Hq1 Hm. destruct (is_late_paste_lost detail); [by apply walk_ret|].
    apply walk_bind, walk_gets, walk_bind, walk_gets.
    destruct (_ && _ && _ && _ && _) eqn:Hagain; apply walk_ret; (split; [done|]); [|done].
    cbn. rewrite Hm. unfold misroutes_of at 1, blocked_document. edits. fold (misroutes_of document').
    rewrite Hm'. apply andb_true_iff in Hagain as [[[[_ Hr]%andb_true_iff _]%andb_true_iff _]%andb_true_iff _].
    apply Nat.ltb_lt in Hr. unfold COMPOSER_RETRIES in *. lia.
Qed.

Lemma walk_after_misroute attempts identifier detail p :
  delivered_as name document (Some (Ok (Misrouted detail))) q ->
  walk (after_misroute (lane, name) document attempts identifier detail retries p) done_one q.
Proof.
  intros [Hq (on_disk & Hf & Ht) Hty]. unfold after_misroute, seconds_now. cbn [snd].
  apply walk_bind, walk_gets. set (misroutes := misroutes_of document ++ _).
  assert (length misroutes = S (length (misroutes_of document))) as Hlen.
  { unfold misroutes. rewrite length_app. cbn. lia. }
  destruct (MAX_MISROUTES <=? length misroutes) eqn:Hmax.
  { apply walk_bind, walk_gets, walk_bind.
    eapply walk_mono; [eapply walk_quarantine; [done|exact Hf|..]|].
    - rewrite (proj1 (strip_keeps _)). unfold attempted. edits. congruence.
    - apply strip_keeps.
    - intros [] q1 Hq1. apply walk_ret. by split. }
  apply Nat.leb_gt in Hmax. eapply walk_return; [done|done|exact Hf|..].
  - edits. congruence.
  - intros Hqu Hm. unfold is_stranded, has_key. edits. fold (has_key document "stranded_at").
    by destruct (Hty Hqu Hm) as [?|[=]].
  - intros q1 Hq1 Hm. apply walk_ret. split; [done|]. cbn [fst turn_ok]. rewrite Hm.
    unfold misroutes_of at 1. edits.
    change (COMPOSER_RETRIES - retries + (MAX_MISROUTES - length misroutes)
            < COMPOSER_RETRIES - retries + (MAX_MISROUTES - length (misroutes_of document))).
    lia.
Qed.

Lemma walk_after_confirmed evidence queued identifier verified p :
  delivered_as name document (Some (Ok (Confirmed verified evidence queued))) q ->
  walk (after_confirmed (lane, name) document evidence queued identifier p) done_one q.
Proof.
  intros [Hq (on_disk & Hf & Ht) Hty]. unfold after_confirmed, seconds_now. cbn [snd].
  apply walk_bind, walk_gets. set (now := Number (unix_seconds (clock q))).
  assert (obj_get (confirmed_document document evidence queued now) "text" = obj_get document "text" /\
    origin_lane (confirmed_document document evidence queued now) = None) as [Ht' Ho].
  { unfold confirmed_document, origin_lane. destruct evidence as [e|]; edits;
      [destruct (match _ with Some _ => true | None => false end)|];
      edits; unfold strip_paste_stamps; by edits. }
  eapply walk_rewrite_move; [done..|exact Hf| | |].
  - rewrite !text_of_object. congruence.
  - intros _ _. split; [|done]. intros doc [= <-]. right. by left.
  - intros q1 q2 _ _ Hq2. apply walk_ret. by split.
Qed.

Lemma walk_after_undelivered attempts u identifier p :
  delivered_as name document (Some (Err u)) q ->
  walk (after_undelivered (lane, name) document attempts u identifier p) done_one q.
Proof.
  intros [Hq (on_disk & Hf & Ht) Hty]. unfold after_undelivered, seconds_now. cbn [snd].
  apply walk_bind, walk_gets, walk_bind.
  eapply walk_mono; [eapply walk_quarantine; [done|exact Hf|..]|].
  - rewrite (proj1 (strip_keeps _)). unfold attempted. edits.
    destruct (probable_misroute u); edits; congruence.
  - apply strip_keeps.
  - intros [] q1 Hq1. apply walk_ret. by split.
Qed.
End settled_one.

Lemma walk_settle options lane name document attempts identifier typed retries p report q :
  pending_lane lane -> delivered_as name document (Some report) q ->
  walk (settle options (lane, name) document attempts identifier typed retries p report) (fun r q' =>
    inv q' /\ turn_ok retries (length (misroutes_of document)) (lane, name) r.1 q') q.
Proof.
  intros Hl Hd. destruct report as [[verified evidence queued|detail|detail]|u]; cbn [settle].
  - by eapply walk_after_confirmed.
  - by apply walk_after_not_staged.
  - by apply walk_after_misroute.
  - by apply walk_after_undelivered.
Qed.

(** ** From the barrier to the settlement *)

(** From the barrier on, for an item that was just taken and has no tombstone. *)
Lemma walk_type options lane name document attempts identifier retries p q :
  pending_lane lane -> is_item name = true -> inv q -> in_flight name document q ->
  (quiet -> last_taken name (log q) = Some false) ->
  (quiet -> maybe_typed name (log q) = true -> is_stranded document = true) ->
  walk (now ← gets (fun q => Number (unix_seconds (clock q)));
        let document := barrier_document document lane now in
        at_ ← gets clock;
        typed ← from_result
          match (if has_key document "stranded_at" then obj_get document "typed_as" ≫= as_str else None) with
          | Some text => Ok text
          | None => typed_text document at_
          end;
        let document := note_typed document typed in
        atomic_json (INFLIGHT, name) (Object document);;
        delivery ← deliver_one (INFLIGHT, name) document typed;
        settle options (lane, name) (labelled document delivery.1 delivery.2) attempts identifier typed
          retries p delivery.2)
    (fun r q' => inv q' /\ turn_ok retries (length (misroutes_of document)) (lane, name) r.1 q') q.
Proof.
  intros Hl Hi Hq Hf Htaken Hst.
  apply walk_bind, walk_gets. set (now := Number (unix_seconds (clock q))).
  apply walk_bind, walk_gets, walk_bind, walk_from_result; [done|]. intros typed _.
  destruct (note_typed_tracked document lane now typed) as [Htr Hns].
  set (document' := note_typed (barrier_document document lane now) typed) in *.
  assert (same_item document document') as Hsame.
  { etrans; [apply barrier_same|apply note_typed_same]. }
  apply walk_bind. eapply walk_rewrite; [done..|exact Hf| | |].
  { rewrite !text_of_object. f_equal. by apply same_text. }
  { intros Hqu Hm doc [= <-]. left. fold (is_stranded document'). rewrite (same_stranded _ _ Hsame).
    by apply Hst. }
  intros q1 Hd1 Hq1.
  assert (log q1 = log q) as Hlog by (by rewrite (frame_log _ _ (drift_frame _ _ Hd1))).
  apply walk_bind. eapply walk_mono; [apply walk_deliver_one; try done|].
  - by eapply in_flight_set.
  - by rewrite Hlog.
  - by rewrite Hlog, (same_stranded _ _ Hsame).
  - intros [label report] q2 Hd2. cbn [fst snd] in *.
    rewrite <- (same_misroutes _ _ Hsame), <- (same_misroutes _ _ (labelled_same document' label report)).
    apply walk_settle; [done|]. eapply delivered_as_same; [apply labelled_same|done].
Qed.

Lemma walk_take_and_type options lane name document attempts identifier filename_id counted retries p q :
  pending_lane lane -> name = file_name filename_id -> inv q ->
  files q !! (lane, name) = Some (Some (Object document)) ->
  walk (take_and_type options (lane, name) document attempts identifier filename_id counted retries p)
    (fun r q' => inv q' /\ turn_ok retries (length (misroutes_of document)) (lane, name) r.1 q') q.
Proof.
  intros Hl Hname Hq Hf. assert (is_item name = true) as Hi by (subst; apply is_item_file_name).
  assert (lane <> CANCEL /\ lane <> INFLIGHT /\ lane <> CANCELLED /\ is_lane lane = true)
    as (Hlc & Hli & Hld & Hla) by by destruct Hl as [-> | ->].
  assert (quiet -> maybe_typed name (log q) = true -> is_stranded document = true) as Hst.
  { intros Hqu Hm. pose proof (inv_held _ _ Hq Hqu name lane _ Hi Hlc Hf Hm document eq_refl) as Hh.
    by destruct Hl as [-> | ->]. }
  unfold take_and_type, seconds_now. cbn [fst snd]. apply walk_bind, walk_transition; try done.
  { intros c Hc Hqu _ Hm. rewrite Hf in Hc. injection Hc as <-. intros doc [= <-]. left. by apply Hst. }
  intros c q1 q2 Hd1 Hc Hd2 Hq2. rewrite Hf in Hc. injection Hc as <-.
  assert (in_flight name document q2) as Hf2.
  { unfold in_flight. rewrite (frame_files _ _ (drift_frame _ _ Hd2)) by done.
    by rewrite files_moved, lookup_insert_eq. }
  assert (quiet -> maybe_typed name (log q2) = true -> is_stranded document = true) as Hst2.
  { rewrite (frame_log _ _ (drift_frame _ _ Hd2)), maybe_typed_moved.
    by rewrite (frame_log _ _ (drift_frame _ _ Hd1)). }
  assert (last_taken name (log q2) = Some (file_exists (CANCEL, name) q1)) as Htaken.
  { rewrite (frame_log _ _ (drift_frame _ _ Hd2)). unfold moved. cbn [fst snd]. rewrite Hla.
    rewrite (bool_decide_true (INFLIGHT = INFLIGHT)) by done. cbn. by rewrite String.eqb_refl. }
  assert (file_exists (CANCEL, name) q1 = true -> file_exists (CANCEL, name) q2 = true) as Htomb.
  { intros He. apply (frame_tombstone _ _ (drift_frame _ _ Hd2)). unfold file_exists in *.
    rewrite files_moved, lookup_insert_ne, lookup_delete_ne by congruence. done. }
  apply walk_bind. eapply walk_looks; [apply set_aside_reason_looks|done|].
  intros [[reason detail]|] q3 Hd3 Hq3 Hnone.
  { apply walk_bind. eapply walk_mono; [apply walk_set_aside; try done; by eapply in_flight_drift|].
    intros id q4 Hq4. by apply walk_ret. }
  assert (quiet -> last_taken name (log q3) = Some false) as Htaken3.
  { intros Hqu. rewrite (frame_log _ _ (drift_frame _ _ Hd3)), Htaken. f_equal.
    apply not_true_is_false. intros He. specialize (Htomb He). subst name.
    by rewrite (Hnone (quiet_steady Hqu) eq_refl) in Htomb. }
  apply walk_type; try done; [by eapply in_flight_drift|].
  intros Hqu. rewrite (frame_log _ _ (drift_frame _ _ Hd3)). by apply Hst2.
Qed.
End delivery.

Section yields.
Context `{JsonNumber, !JsonFloat, !World, !Terminal}.

(** ** What a result is, whatever the state *)

Definition yields {A} (P : A -> Prop) (m : Op A) : Prop :=
  forall q, wp m (fun a _ => P a) (fun _ => True) (fun _ => True) q.

Lemma yields_ret {A} (P : A -> Prop) a : P a -> yields P (mret a).
Proof. by intros HP q. Qed.

Lemma yields_bind {A B} (P : A -> Prop) (P' : B -> Prop) (m : Op A) (f : A -> Op B) :
  yields P m -> (forall a, P a -> yields P' (f a)) -> yields P' (m ≫= f).
Proof.
  intros Hm Hf q. apply wp_bind. eapply wp_mono; [apply Hm| |done|done].
  intros a q' Ha. by apply Hf.
Qed.

Lemma yields_any {A} (m : Op A) : yields (fun _ => True) m.
Proof. intros q. unfold wp. by destruct (m q) as [? []]. Qed.

Definition pending_item (path : Path) : Prop := pending_lane path.1 /\ is_item path.2 = true.

Lemma json_paths_yields d :
  yields (fun l => forall path, path ∈ l -> path.1 = d /\ is_item path.2 = true) (json_paths d).
Proof.
  intros q. unfold json_paths. apply wp_bind.
  eapply wp_mono; [apply yields_any|..]; [|done..]. intros [] q1 _. apply wp_bind, wp_gets.
  case_bool_decide; [|done]. apply wp_gets. intros path Hin.
  apply elem_of_json_paths in Hin as (? & ? & _). done.
Qed.

Lemma order_entries_yields lane paths : yields (fun es => es.*2 = paths) (order_entries lane paths).
Proof.
  induction paths as [|path paths IH]; cbn [order_entries]; [by apply yields_ret|].
  eapply yields_bind; [apply yields_any|]. intros read _. eapply yields_bind; [exact IH|].
  intros rest <-. by apply yields_ret.
Qed.

Lemma lane_entries_yields lane ds :
  Forall pending_lane ds ->
  yields (fun es => forall path, path ∈ es.*2 -> pending_item path) (lane_entries lane ds).
Proof.
  revert lane. induction ds as [|d ds IH]; intros lane Hds; cbn [lane_entries].
  { apply yields_ret. by intros path ?%not_elem_of_nil. }
  apply Forall_cons in Hds as [Hd Hds].
  eapply yields_bind; [apply json_paths_yields|]. intros paths Hpaths.
  eapply yields_bind; [apply order_entries_yields|]. intros es Hes.
  eapply yields_bind; [by apply IH|]. intros rest Hrest.
  apply yields_ret. intros path. rewrite fmap_app, elem_of_app, Hes. intros [Hin|Hin]; [|by apply Hrest].
  destruct (Hpaths path Hin) as [<- ?]. done.
Qed.

Lemma in_queue_order_yields ds :
  Forall pending_lane ds -> yields (fun l => forall path, path ∈ l -> pending_item path) (in_queue_order ds).
Proof.
  intros Hds. unfold in_queue_order. eapply yields_bind; [by apply lane_entries_yields|]. intros es Hes.
  apply yields_ret. intros path Hin. apply Hes.
  by rewrite sort_by_key_perm in Hin.
Qed.

Lemma pending_in_queue_order_yields :
  yields (fun l => forall path, path ∈ l -> pending_item path) pending_in_queue_order.
Proof.
  unfold pending_in_queue_order. eapply yields_bind; [apply yields_any|]. intros [] _.
  - eapply yields_bind; [apply yields_any|]. intros _ _. apply in_queue_order_yields.
    by repeat constructor.
  - apply in_queue_order_yields. by repeat constructor.
Qed.

Lemma partition_op_yields f (l : list Path) :
  yields (fun r => r.1 ++ r.2 ≡ₚ l) (partition_op f l).
Proof.
  induction l as [|x l IH]; cbn [partition_op]; [by apply yields_ret|].
  eapply yields_bind; [apply yields_any|]. intros b _. eapply yields_bind; [exact IH|].
  intros [r1 r2] Hr. apply yields_ret. cbn in Hr. destruct b; cbn; rewrite <- Hr; [done|].
  by rewrite Permutation_middle.
Qed.

Lemma drain_paths_yields options :
  yields (fun l => forall path, path ∈ l -> pending_item path) (drain_paths options).
Proof.
  unfold drain_paths, owner_first. eapply yields_bind; [apply pending_in_queue_order_yields|]. intros paths Hpaths.
  destruct (priority_only options).
  - apply yields_ret. intros path [Hin _]%elem_of_filter_b. by apply Hpaths.
  - eapply yields_bind; [apply partition_op_yields|]. intros r Hr. apply yields_ret.
    intros path Hin. apply Hpaths. by rewrite Hr in Hin.
Qed.

Lemma partition_op_within f (l : list Path) :
  (forall path, within drift (f path)) -> within drift (partition_op f l).
Proof. intros Hf. induction l; cbn; solve_within. Qed.

Lemma drain_paths_within options : within drift (drain_paths options).
Proof.
  assert (forall path, within drift (is_owner path)) as Ho.
  { intros path. unfold is_owner. solve_within. }
  pose proof (fun l => partition_op_within is_owner l Ho) as Hp.
  unfold drain_paths, owner_first. solve_within.
Qed.
End yields.

Section loop.
Context `{JsonNumber, !JsonFloat, !World, !Terminal, !Assumed} (kept : gmap string (option string)).
Hypothesis kept_items : forall name, is_Some (kept !! name) -> is_item name = true.

Abbreviation inv := (invariant kept).
Abbreviation walk := (walk kept).

Lemma walk_yields {A} (P : A -> Prop) (m : Op A) (Q : A -> Queue -> Prop) q :
  within drift m -> yields P m -> inv q ->
  (forall a q', drift q q' -> inv q' -> P a -> Q a q') -> walk m Q q.
Proof.
  intros Hm HP Hq HQ. specialize (Hm q). specialize (HP q). unfold wp, AgentWalk.walk in *.
  unfold wp. destruct (m q) as [q' [a|e|]].
  - apply HQ; [done|by eapply inv_drift|done].
  - by eapply inv_drift.
  - by eapply inv_drift.
Qed.

(** ** One prompt *)

Lemma misroutes_at_drift path q q' :
  path.1 <> CANCEL -> drift q q' -> misroutes_at path q' = misroutes_at path q.
Proof. intros Hp Hd. unfold misroutes_at. by rewrite (frame_files _ _ (drift_frame _ _ Hd)). Qed.

Lemma walk_hold lane name document detail p q :
  pending_lane lane -> inv q -> files q !! (lane, name) = Some (Some (Object document)) ->
  is_item name = true -> walk (hold (lane, name) document detail p) (fun r q' => inv q' /\ r.1 = StopDrain) q.
Proof.
  intros Hl Hq Hf Hi. unfold hold, seconds_now. apply walk_bind, walk_gets, walk_bind.
  destruct (blocked_same document detail (Number (unix_seconds (clock q)))) as [Ht Hs _].
  assert (lane <> CANCEL) as Hlc by by destruct Hl as [-> | ->].
  eapply walk_rewrite; [done..|exact Hf| | |].
  - rewrite !text_of_object. by f_equal.
  - intros Hqu Hm. pose proof (inv_held _ _ Hq Hqu name lane _ Hi Hlc Hf Hm document eq_refl) as Hh.
    intros doc [= <-]. fold (is_stranded (blocked_document document detail (Number (unix_seconds (clock q))))).
    rewrite Hs. by destruct Hl as [-> | ->].
  - intros q' _ Hq'. by apply walk_ret.
Qed.

Lemma walk_try_item options path first_try counted retries p q :
  pending_item path -> inv q ->
  walk (try_item options path first_try counted retries p) (fun r q' =>
    inv q' /\ turn_ok retries (misroutes_at path q) path r.1 q') q.
Proof.
  destruct path as [lane name]. intros [Hl Hi] Hq. cbn in Hl, Hi.
  assert (lane <> CANCEL /\ lane <> CANCELLED /\ lane <> FAILED) as (Hlc & Hld & Hlf)
    by by destruct Hl as [-> | ->].
  unfold try_item. apply walk_bind, walk_gets. destruct (negb first_try && _); [by apply walk_ret|].
  apply walk_bind. eapply walk_attempt_looks; [|done|..].
  { assert (looks (fun da q => files q !! (lane, name) = Some (Some (Object da.1)))
      (document ← load_message (lane, name); attempts ← from_result (delivery_attempts document (lane, name));
       mret (document, attempts))) as Hload; [|exact Hload].
    intros q0. apply wp_bind. eapply wp_mono; [by apply load_message_looks| |done|done].
    intros document q1 [Hd Hf]. apply wp_bind, wp_from_result; [|done]. intros a _. by apply wp_ret. }
  2:{ intros e q1 _ Hq1. apply walk_bind. eapply walk_mono; [by apply walk_quarantine_raw|].
      intros id q2 Hq2. by apply walk_ret. }
  intros [document attempts] q1 Hd1 Hq1 Hf. cbn [fst] in Hf.
  assert (misroutes_at (lane, name) q = length (misroutes_of document)) as ->.
  { unfold misroutes_at. by rewrite Hf. }
  apply walk_bind, walk_from_result; [done|]. intros filename_id Hname%message_id_file_name.
  apply walk_bind. eapply walk_drift; [apply set_aside_reason_within|done|].
  intros reason q2 Hd2 Hq2.
  assert (files q2 !! (lane, name) = Some (Some (Object document))) as Hf2.
  { assert (drift q q2) as Hdq by by etrans. by rewrite (frame_files _ _ (drift_frame _ _ Hdq)). }
  destruct reason as [[reason detail]|].
  { apply walk_bind. eapply walk_mono; [by apply walk_set_aside|]. intros id q3 Hq3. by apply walk_ret. }
  assert (forall detail, walk (hold (lane, name) document detail p) (fun r q' =>
    inv q' /\ turn_ok retries (length (misroutes_of document)) (lane, name) r.1 q') q2) as Hhold.
  { intros detail. eapply walk_mono; [by apply walk_hold|]. by intros r q3 [Hq3 ->]. }
  case_bool_decide; [apply Hhold|].
  apply walk_bind, walk_gets, walk_bind, walk_gets. destruct (readiness _ _); [|apply Hhold].
  by apply walk_take_and_type.
Qed.

(** The fuel of [retry] is enough: it never runs out. *)
Lemma walk_retry fuel options path again retries p q :
  pending_item path -> inv q ->
  (COMPOSER_RETRIES - retries) + (MAX_MISROUTES - misroutes_at path q) < fuel ->
  walk (retry fuel options path again retries p) (fun r q' =>
    inv q' /\ r.1 <> OutOfFuel /\ forall n, r.1 <> TryAgain n) q.
Proof.
  intros Hp. revert again retries p q. induction fuel as [|fuel IH]; intros again retries p q Hq Hfuel; [lia|].
  cbn [retry]. apply walk_bind. eapply walk_mono; [by apply walk_try_item|].
  intros [[| |retries'|] p'] q' [Hq' Hturn]; cbn [fst snd] in *; try by apply walk_ret.
  apply IH; [done|]. cbn [turn_ok] in Hturn. lia.
Qed.

Lemma walk_drain_items options paths p q :
  (forall path, path ∈ paths -> pending_item path) -> inv q ->
  walk (drain_items options paths p) (fun _ => inv) q.
Proof.
  revert p q. induction paths as [|path paths IH]; intros p q Hpaths Hq; cbn [drain_items]; [by apply walk_ret|].
  apply walk_bind. unfold pace_next.
  set (p1 := if burst_delivered_seen p <? _ then _ else p).
  assert (forall r q', inv q' -> walk (match r : result string Progress with
      | Err report => mret (block report p)
      | Ok p =>
          if match max_items options with Some limit => limit <=? typed p | None => false end
          then mret (block (limit_reached (typed p)) p) else
          late ← gets (fun q => past_deadline (clock q));
          if late : bool then mret (block DEADLINE_PASSED p) else
          r ← retry retry_fuel options path false 0 p;
          match r.1 with NextMessage => drain_items options paths r.2 | _ => mret r.2 end
      end) (fun _ => inv) q') as Hgo.
  { intros [p2|report] q' Hq'; [|by apply walk_ret]. destruct (match max_items options with Some _ => _ | None => _ end).
    { by apply walk_ret. }
    apply walk_bind, walk_gets. destruct (past_deadline _); [by apply walk_ret|].
    apply walk_bind. eapply walk_mono; [apply walk_retry; [apply Hpaths; left|done|]|].
    { unfold retry_fuel. lia. }
    intros r q2 (Hq2 & _ & _). destruct r.1; try by apply walk_ret.
    apply IH; [|done]. intros path' Hin. apply Hpaths. by right. }
  eapply walk_mono; [|intros r q'; exact (Hgo r q')].
  destruct (burst_confirmed p1); [by apply walk_bind, walk_gets, walk_ret|by apply walk_ret].
Qed.

(** ** The drain *)

Lemma walk_retire_digests ids q : inv q -> walk (retire_digests ids) (fun _ => inv) q.
Proof.
  revert q. induction ids as [|id ids IH]; intros q Hq; cbn [retire_digests]; [by apply walk_ret|].
  destruct (starts_with id DIGEST_ID_PREFIX).
  2:{ apply walk_bind. eapply walk_mono; [by apply IH|]. intros r q' Hq'. by apply walk_ret. }
  apply walk_bind, walk_attempt; [apply walk_within; [apply prepare_lane_within|done|]|]; [intros [] q1 _ Hq1|intros e q1 Hq1].
  all: apply walk_bind, walk_attempt; [apply walk_rename; try done|]; [intros c q2 _ _ Hq2|intros e2 q2 Hq2].
  all: apply walk_bind, walk_attempt; [apply walk_rename; try done|]; [intros c' q3 _ _ Hq3|intros e3 q3 Hq3].
  all: apply walk_bind; (eapply walk_mono; [by apply IH|]); intros r q' Hq'; by apply walk_ret.
Qed.

Lemma walk_drain options q : inv q -> walk (drain options) (fun _ => inv) q.
Proof.
  intros Hq. unfold drain, bind_queue.
  apply walk_bind, walk_bind, walk_within; [apply prepare_within|done|]. intros [] q1 _ Hq1.
  apply walk_drift; [by apply within_call_with|done|]. intros [] q2 _ Hq2.
  apply walk_bind, walk_drift; [by apply within_call_with|done|]. intros [] q3 _ Hq3.
  apply walk_bind. eapply walk_mono; [by apply walk_repend_stranded_inflight|].
  intros repended q4 [Hq4 Hset]. apply walk_bind. eapply walk_mono; [by apply walk_recover_inflight|].
  intros recovered q5 Hq5. apply walk_bind. eapply walk_mono; [by apply walk_retire_digests|].
  intros r q6 Hq6. apply walk_bind.
  eapply walk_yields; [apply drain_paths_within|apply drain_paths_yields|done|].
  intros paths q7 _ Hq7 Hpaths. apply walk_bind. eapply walk_mono; [by apply walk_drain_items|].
  intros p q8 Hq8. apply walk_bind, walk_drift; [apply identifiers_within|done|]. intros inbox q9 _ Hq9.
  apply walk_bind, walk_drift; [apply identifiers_if_directory_within|done|]. intros inbox2 q10 _ Hq10.
  by apply walk_ret.
Qed.
End loop.
