(* ===== verification/AgentEnqueue.v ===== *)
(** * agent-queue: what enqueueing does when nothing fails

    Total runs, and the specification of [enqueue_into]. *)
From S2P Require Import Prelude RustStr External AgentStore AgentQueue AgentMoves AgentInvariant AgentWalk AgentSafeOps.

Section enqueue.
Context `{JsonNumber, !JsonFloat, !World}.

Definition flawless : Prop :=
  (forall n, dies n = false) /\ (forall n, io_fails n = false) /\ forall n, stat_fails n = false.
Hypothesis Hflawless : flawless.

(** The run of [m] from [q] returns, and what it returns is in [Q]. *)
Definition sure {A} (m : Op A) (Q : A -> Queue -> Prop) (q : Queue) : Prop :=
  exists q' a, m q = (q', Done a) /\ Q a q'.

Lemma sure_ret {A} (a : A) (Q : A -> Queue -> Prop) q : Q a q -> sure (mret a) Q q.
Proof. intros HQ. by exists q, a. Qed.
Lemma sure_gets {A} (f : Queue -> A) (Q : A -> Queue -> Prop) q : Q (f q) q -> sure (gets f) Q q.
Proof. intros HQ. by exists q, (f q). Qed.
Lemma sure_modify f (Q : () -> Queue -> Prop) q : Q () (f q) -> sure (modify f) Q q.
Proof. intros HQ. by exists (f q), (). Qed.

Lemma sure_bind {A B} (m : Op A) (f : A -> Op B) Q q :
  sure m (fun a q' => sure (f a) Q q') q -> sure (m ≫= f) Q q.
Proof.
  intros (q1 & a & Hm & q2 & b & Hf & HQ). exists q2, b. split; [|done].
  unfold mbind, op_bind. by rewrite Hm.
Qed.

Lemma sure_attempt {A} (m : Op A) (Q : result Error A -> Queue -> Prop) q :
  sure m (fun a => Q (Ok a)) q -> sure (attempt m) Q q.
Proof. intros (q1 & a & Hm & HQ). exists q1, (Ok a). unfold attempt. by rewrite Hm. Qed.

Lemma sure_attempt_fail {A} e (Q : result Error A -> Queue -> Prop) q :
  Q (Err e) q -> sure (attempt (fail e)) Q q.
Proof. intros HQ. by exists q, (Err e). Qed.

Lemma sure_attempt_fail_bind {A B} e (f : A -> Op B) (Q : result Error B -> Queue -> Prop) q :
  Q (Err e) q -> sure (attempt (fail e ≫= f)) Q q.
Proof. intros HQ. by exists q, (Err e). Qed.

Lemma sure_attempt_bind {A B} (m : Op A) (f : A -> Op B) Q q :
  sure m (fun a q' => sure (attempt (f a)) Q q') q -> sure (attempt (m ≫= f)) Q q.
Proof.
  intros (q1 & a & Hm & q2 & b & Hf & HQ). exists q2, b. split; [|done].
  unfold attempt, mbind, op_bind in *. by rewrite Hm.
Qed.

Lemma sure_mono {A} (m : Op A) (Q Q' : A -> Queue -> Prop) q :
  sure m Q q -> (forall a q', Q a q' -> Q' a q') -> sure m Q' q.
Proof. intros (q1 & a & Hm & HQ) HQ'. exists q1, a. auto. Qed.

Lemma sure_call_with fails e (Q : () -> Queue -> Prop) q :
  (forall n, fails n = false) -> (forall q', drift q q' -> Q () q') -> sure (call_with fails e) Q q.
Proof.
  intros Hf HQ. exists (tick q), (). split; [|apply HQ, drift_tick]. unfold call_with.
  destruct Hflawless as (Hd & _). by rewrite Hd, Hf.
Qed.

Lemma sure_call action path (Q : () -> Queue -> Prop) q :
  (forall q', drift q q' -> Q () q') -> sure (call action path) Q q.
Proof. apply sure_call_with, Hflawless. Qed.
Lemma sure_call_on action d (Q : () -> Queue -> Prop) q :
  (forall q', drift q q' -> Q () q') -> sure (call_on action d) Q q.
Proof. apply sure_call_with, Hflawless. Qed.

Lemma sure_stat_is_ok path (Q : bool -> Queue -> Prop) q :
  (forall q', drift q q' -> Q (file_exists path q') q') -> sure (stat_is_ok path) Q q.
Proof.
  intros HQ. unfold stat_is_ok, stat. apply sure_bind, sure_attempt, sure_bind, sure_call_with.
  { apply Hflawless. }
  intros q' Hd. apply sure_gets, sure_ret. by apply HQ.
Qed.

(** The directories of [l] are made, and nothing else happens. *)
Record grown (l : list Directory) (q q' : Queue) : Prop := {
  grown_frame : frame q q';
  grown_dirs d : d <> CANCEL -> d ∈ dirs q' <-> d ∈ dirs q \/ d ∈ l
}.

Lemma drift_grown q q' : drift q q' -> grown [] q q'.
Proof.
  intros Hd. split; [apply Hd|]. intros d Hc. rewrite (drift_dirs _ _ Hd) by done.
  rewrite elem_of_nil. tauto.
Qed.

Lemma grown_app l1 l2 q1 q2 q3 : grown l1 q1 q2 -> grown l2 q2 q3 -> grown (l1 ++ l2) q1 q3.
Proof.
  intros [Hf1 Hd1] [Hf2 Hd2]. split; [by etrans|]. intros d Hc.
  rewrite Hd2, Hd1, elem_of_app by done. tauto.
Qed.

Lemma grown_drift l q1 q2 q3 : grown l q1 q2 -> drift q2 q3 -> grown l q1 q3.
Proof. intros Hg Hd%drift_grown. rewrite <- (app_nil_r l). by eapply grown_app. Qed.
Lemma drift_then l q1 q2 q3 : drift q1 q2 -> grown l q2 q3 -> grown l q1 q3.
Proof. intros Hd%drift_grown Hg. by apply (grown_app [] l _ q2). Qed.

Lemma sure_create_directory d (Q : () -> Queue -> Prop) q :
  (forall q', grown [d] q q' -> Q () q') -> sure (create_private_directory d) Q q.
Proof.
  intros HQ. apply sure_bind, sure_call_on. intros q' Hd. apply sure_modify, HQ.
  apply (drift_then _ _ q'); [done|]. split; [apply frame_add_dir|]. intros d' _. cbn.
  rewrite elem_of_union, elem_of_singleton, list_elem_of_singleton. tauto.
Qed.

Lemma sure_create_directories l q :
  sure (for_each l create_private_directory) (fun _ q' => grown l q q') q.
Proof.
  revert q. induction l as [|d l IH]; intros q; cbn [for_each]; [by apply sure_ret, drift_grown|].
  apply sure_bind, sure_create_directory. intros q1 Hq1.
  eapply sure_mono; [apply IH|]. intros [] q2 Hq2. by apply (grown_app [d] l _ q1).
Qed.

Lemma sure_stat_directory d (Q : bool -> Queue -> Prop) q :
  (forall b q', drift q q' -> Q b q') -> sure (stat_directory d) Q q.
Proof.
  intros HQ. apply sure_bind, sure_attempt, sure_call_with; [apply Hflawless|].
  intros q' Hd. apply sure_gets. by apply HQ.
Qed.

Lemma sure_prepare_lane d (Q : () -> Queue -> Prop) q :
  (forall q', grown [d] q q' -> Q () q') -> sure (prepare_lane d) Q q.
Proof.
  intros HQ. apply sure_bind, sure_stat_directory. intros existed q1 Hd1.
  apply sure_bind, sure_create_directory. intros q2 Hq2.
  assert (grown [d] q q2) as Hq by by eapply drift_then.
  destruct existed; [by apply sure_ret, HQ|]. apply sure_call_on. intros q3 Hd3. by eapply HQ, grown_drift.
Qed.

Lemma sure_repairs l q :
  sure (for_each l (fun d => exists_ ← stat_directory d;
    if exists_ : bool then call_on "repair" (Some d) else mret ())) (fun _ q' => drift q q') q.
Proof.
  revert q. induction l as [|d l IH]; intros q; cbn [for_each]; [by apply sure_ret|].
  apply sure_bind, sure_bind, sure_stat_directory. intros b q1 Hq1.
  assert (sure (if b : bool then call_on "repair" (Some d) else mret ()) (fun _ q' => drift q q') q1) as Hb.
  { destruct b; [|by apply sure_ret]. apply sure_call_on. intros. by etrans. }
  eapply sure_mono; [exact Hb|]. intros [] q2 Hq2. eapply sure_mono; [apply IH|].
  intros [] q3 Hq3. by etrans.
Qed.

Lemma sure_prepare (Q : () -> Queue -> Prop) q :
  (forall q', grown all_directories q q' -> Q () q') -> sure prepare Q q.
Proof.
  intros HQ. unfold prepare, stat_root.
  apply sure_bind, sure_bind, sure_attempt, sure_call_with; [apply Hflawless|]. intros q1 Hq1.
  apply sure_gets, sure_bind, sure_call_on. intros q2 Hq2. apply sure_bind, sure_modify, sure_bind.
  assert (drift q (set_root q2)) as Hf2.
  { etrans; [exact Hq1|]. etrans; [exact Hq2|]. split; [apply frame_set_root|done]. }
  cbn [is_ok andb].
  assert (sure (if root q1 then mret () else call_on "sync" None) (fun _ q' => drift q q') (set_root q2)) as Hs.
  { destruct (root q1); [by apply sure_ret|]. apply sure_call_on. intros q3 Hq3. by etrans. }
  eapply sure_mono; [exact Hs|]. intros [] q3 Hq3.
  apply sure_bind. eapply sure_mono; [apply sure_create_directories|]. intros [] q4 Hq4.
  apply sure_bind. eapply sure_mono; [apply sure_repairs|]. intros [] q5 Hq5.
  apply sure_call_on. intros q6 Hq6. apply HQ. eapply drift_then; [exact Hq3|].
  eapply grown_drift; [exact Hq4|]. by etrans.
Qed.

(** ** The specification *)

(** Why an item is refused, if it is. *)
Definition refusal (lane : Lane) (identifier : string) (document : value) (q : Queue) : option Error :=
  if negb (valid_message_id identifier) then Some MessageIdInvalid
  else if existsb (fun d => file_exists (d, file_name identifier) q) states.*1
  then Some (DuplicateId identifier)
  else if negb (lane_fields_ok lane document) then Some (NotAfterInvalid identifier)
  else if negb (item_ok identifier document) then Some (ItemInvalid identifier)
  else None.

Lemma sure_any_phase_has ds name (Q : bool -> Queue -> Prop) q :
  CANCEL ∉ ds ->
  (forall q', drift q q' -> Q (existsb (fun d => file_exists (d, name) q) ds) q') ->
  sure (any_phase_has ds name) Q q.
Proof.
  revert q. induction ds as [|d ds IH]; intros q Hds HQ; cbn [any_phase_has]; [by apply sure_ret, HQ|].
  apply not_elem_of_cons in Hds as [Hd Hds]. apply sure_bind, sure_stat_is_ok. intros q1 Hq1.
  assert (forall d', d' <> CANCEL -> file_exists (d', name) q1 = file_exists (d', name) q) as Hsame.
  { intros d' Hd'. unfold file_exists. by rewrite (frame_files _ _ (drift_frame _ _ Hq1)). }
  cbn [existsb] in HQ. rewrite Hsame by done. destruct (file_exists (d, name) q); cbn [orb] in HQ.
  { by apply sure_ret, HQ. }
  apply IH; [done|]. intros q2 Hq2.
  assert (existsb (fun d => file_exists (d, name) q1) ds = existsb (fun d => file_exists (d, name) q) ds) as ->.
  { clear IH HQ. induction ds as [|d' ds IH]; [done|]. cbn [existsb].
    apply not_elem_of_cons in Hds as [Hd' Hds]. by rewrite Hsame, IH. }
  apply HQ. by etrans.
Qed.

Lemma sure_link path v (Q : bool -> Queue -> Prop) q :
  files q !! path = None -> path.1 ∈ dirs q -> is_lane path.1 = true ->
  Q true (record_event (Queued path.2) (set_files (<[path := Some v]>) q)) -> sure (link path v) Q q.
Proof.
  intros Hn Hin Hl HQ. unfold link, put, file_exists. apply sure_bind, sure_gets. rewrite Hn.
  apply sure_bind, sure_bind, sure_gets. rewrite bool_decide_true by done.
  apply sure_modify, sure_bind. rewrite Hl. by apply sure_modify, sure_ret.
Qed.

Lemma sure_create path v (Q : bool -> Queue -> Prop) q :
  files q !! path = None -> path.1 ∈ dirs q -> path.1 <> CANCEL -> is_lane path.1 = true ->
  (forall q', (forall p, p.1 <> CANCEL -> files q' !! p = <[path := Some v]> (files q) !! p) ->
     log q' = Queued path.2 :: log q -> (forall d, d <> CANCEL -> d ∈ dirs q' <-> d ∈ dirs q) -> Q true q') ->
  sure (atomic_json_create path v) Q q.
Proof.
  intros Hn Hin Hp Hl HQ. unfold atomic_json_create.
  apply sure_bind, sure_call. intros q1 Hd1. apply sure_bind, sure_call. intros q2 Hd2.
  assert (drift q q2) as Hd by by etrans. apply sure_bind, sure_link; [| |done|].
  - by rewrite (frame_files _ _ (drift_frame _ _ Hd)).
  - by apply (frame_dirs _ _ (drift_frame _ _ Hd)).
  - apply sure_bind, sure_call. intros q3 Hd3. apply sure_bind, sure_call. intros q4 Hd4.
    assert (drift (record_event (Queued path.2) (set_files <[path:=Some v]> q2)) q4) as Hd' by by etrans.
    apply sure_ret, HQ.
    + intros p Hpc. rewrite (frame_files _ _ (drift_frame _ _ Hd')) by done. cbn.
      destruct (decide (p = path)) as [->|Hne]; [by rewrite !lookup_insert_eq|].
      rewrite !lookup_insert_ne by done. by apply (frame_files _ _ (drift_frame _ _ Hd)).
    + rewrite (frame_log _ _ (drift_frame _ _ Hd')). cbn. by rewrite (frame_log _ _ (drift_frame _ _ Hd)).
    + intros d Hc. rewrite (drift_dirs _ _ Hd') by done. by apply (drift_dirs _ _ Hd).
Qed.

(** The directories an enqueue makes that are not there. *)
Definition lane_made (lane : Lane) : list Directory :=
  match lane with Inbox => [] | InboxV2 => [INBOX_V2] end.
Definition made (lane : Lane) (identifier : string) : list Directory :=
  all_directories ++ if valid_message_id identifier then lane_made lane else [].

(** What [enqueue_into] leaves: the new item, its entry in the history, and directories. *)
Definition enqueued (lane : Lane) (identifier : string) (document : value) (r : result Error string)
    (q q' : Queue) : Prop :=
  (forall d, d <> CANCEL -> d ∈ dirs q' <-> d ∈ dirs q \/ d ∈ made lane identifier) /\
  match refusal lane identifier document q with
  | Some e => r = Err e /\ log q' = log q /\
      forall path, path.1 <> CANCEL -> files q' !! path = files q !! path
  | None => r = Ok identifier /\ log q' = Queued (file_name identifier) :: log q /\
      forall path, path.1 <> CANCEL ->
        files q' !! path = <[(lane_directory lane, file_name identifier) := Some document]> (files q) !! path
  end.

Lemma existsb_states_frame name q q' :
  frame q q' -> existsb (fun d => file_exists (d, name) q') states.*1 =
                existsb (fun d => file_exists (d, name) q) states.*1.
Proof. intros Hf. cbn. unfold file_exists. by rewrite !(frame_files _ _ Hf). Qed.

Lemma sure_lane lane q :
  sure (match lane with Inbox => mret () | InboxV2 => prepare_lane INBOX_V2 end)
    (fun _ q' => grown (lane_made lane) q q') q.
Proof. destruct lane; [by apply sure_ret, drift_grown|by apply sure_prepare_lane]. Qed.

Lemma grown_refused l q q' (P : Prop) : grown l q q' -> P ->
  (forall d, d <> CANCEL -> d ∈ dirs q' <-> d ∈ dirs q \/ d ∈ l) /\ P /\ log q' = log q /\
  forall path, path.1 <> CANCEL -> files q' !! path = files q !! path.
Proof. intros [Hf Hd] HP. split_and!; [done|done|apply Hf|apply Hf]. Qed.

Lemma sure_lock (serialize : bool) q :
  sure (if serialize then directory_identity;; lock_delivery true else mret ()) (fun _ q' => drift q q') q.
Proof.
  destruct serialize; [|by apply sure_ret]. unfold directory_identity, lock_delivery.
  apply sure_bind, sure_call_on. intros q1 Hd1. apply sure_bind, sure_call_on. intros q2 Hd2.
  apply sure_bind, sure_gets. cbn [negb andb]. apply sure_ret. by etrans.
Qed.

Lemma sure_enqueue lane message_id generated serialize document q :
  let identifier := default generated message_id in
  sure (attempt (enqueue_into lane message_id generated serialize document))
    (fun r q' => enqueued lane identifier (document identifier) r q q') q.
Proof.
  intros identifier. unfold enqueue_into, enqueued, refusal. fold identifier.
  apply sure_attempt_bind, sure_prepare. intros q1 Hf1. unfold validate_message_id, made.
  destruct (valid_message_id identifier); cbn [from_result negb].
  2:{ apply sure_attempt_fail_bind. rewrite app_nil_r. by apply grown_refused. }
  apply sure_attempt_bind, sure_ret, sure_attempt_bind.
  eapply sure_mono; [by apply sure_lane|]. intros [] q2 Hf2. pose proof (grown_app _ _ _ _ _ Hf1 Hf2) as Hg.
  apply sure_attempt_bind. eapply sure_mono; [apply sure_lock|]. intros [] q3 Hd3.
  apply (grown_drift _ _ _ _ Hg) in Hd3 as Hg3.
  apply sure_attempt_bind, sure_any_phase_has; [by apply (bool_decide_unpack _)|]. intros q4 Hd4.
  rewrite (existsb_states_frame _ _ _ (grown_frame _ _ _ Hg3)).
  apply (grown_drift _ _ _ _ Hg3) in Hd4 as Hg4.
  assert (lane_directory lane ∈ dirs q4) as Hin4.
  { apply (grown_dirs _ _ _ Hg4); [by destruct lane|]. right. destruct lane; by_eval. }
  destruct (existsb _ states.*1) eqn:Hex; [by apply sure_attempt_fail, grown_refused|].
  destruct (negb (lane_fields_ok lane (document identifier))); [by apply sure_attempt_fail, grown_refused|].
  destruct (negb (item_ok identifier (document identifier))); [by apply sure_attempt_fail, grown_refused|].
  pose proof (grown_frame _ _ _ Hg4) as Hf4.
  apply sure_attempt_bind, sure_create; try done; try by destruct lane.
  - rewrite (frame_files _ _ Hf4) by by destruct lane.
    destruct (files q !! _) eqn:Hf; [|done]. rewrite <- not_true_iff_false in Hex. destruct Hex.
    apply existsb_exists. exists (lane_directory lane).
    split; [by destruct lane; cbn; auto|]. unfold file_exists. by rewrite Hf.
  - intros q5 Hq5 Hlog Hdirs. apply sure_attempt, sure_ret. split_and!; [|done| |].
    + intros d Hc. rewrite Hdirs by done. by apply (grown_dirs _ _ _ Hg4).
    + by rewrite Hlog, (frame_log _ _ Hf4).
    + intros path Hp. rewrite Hq5 by done.
      destruct (decide (path = (lane_directory lane, file_name identifier))) as [->|Hne];
        [by rewrite !lookup_insert_eq|].
      rewrite !lookup_insert_ne by done. by apply (frame_files _ _ Hf4).
Qed.

(** ** The same, as what a caller must provide *)

(** A message identifier: 1 to 255 letters, digits, dots, underscores or hyphens, the
    first of them a letter or digit. *)
Definition id_char (c : ascii) : Prop :=
  is_alnum c = true \/ c = "."%char \/ c = "_"%char \/ c = "-"%char.
Definition identifier_ok (identifier : string) : Prop :=
  (exists c rest, identifier = String c rest /\ is_alnum c = true) /\
  Forall id_char (String.list_ascii_of_string identifier) /\ String.length identifier <= 255.

(** No phase has the identifier. *)
Definition unused (identifier : string) (q : Queue) : Prop :=
  forall d, d <> CANCEL -> files q !! (d, identifier +:+ ".json") = None.

(** A deadline, if there is one, is a [u64], and only in [inbox.v2]. *)
Definition deadline_ok (lane : Lane) (document : value) : Prop :=
  forall v, value_get document "not_after" = Some v ->
    v = Null \/ lane = InboxV2 /\ is_Some (as_u64 v).

(** The document has a text, and no identifier but its own. *)
Definition document_ok (identifier : string) (document : value) : Prop :=
  (exists text, value_get document "text" = Some (VString text) /\ text <> "") /\
  (forall v, value_get document "id" = Some v -> v = VString identifier).

Inductive answer (lane : Lane) (identifier : string) (document : value) (q : Queue)
  : result Error string -> Prop :=
| invalid_identifier :
    ~ identifier_ok identifier -> answer lane identifier document q (Err MessageIdInvalid)
| duplicate_identifier :
    identifier_ok identifier -> ~ unused identifier q ->
    answer lane identifier document q (Err (DuplicateId identifier))
| invalid_deadline :
    identifier_ok identifier -> unused identifier q -> ~ deadline_ok lane document ->
    answer lane identifier document q (Err (NotAfterInvalid identifier))
| invalid_document :
    identifier_ok identifier -> unused identifier q -> deadline_ok lane document ->
    ~ document_ok identifier document ->
    answer lane identifier document q (Err (ItemInvalid identifier))
| accepted :
    identifier_ok identifier -> unused identifier q -> deadline_ok lane document ->
    document_ok identifier document -> answer lane identifier document q (Ok identifier).

Lemma str_forallb_Forall (f : ascii -> bool) s :
  str_forallb f s = true <-> Forall (fun c => f c = true) (String.list_ascii_of_string s).
Proof.
  induction s as [|c s IH]; cbn; [by split|].
  by rewrite andb_true_iff, Forall_cons, IH.
Qed.

Lemma id_byte_spec c : id_byte c = true <-> id_char c.
Proof. unfold id_byte, id_char. rewrite !orb_true_iff, !Ascii.eqb_eq. tauto. Qed.

Lemma valid_message_id_spec identifier :
  valid_message_id identifier = true <-> identifier_ok identifier.
Proof.
  assert (match identifier with "" => false | String c _ => is_alnum c end = true <->
    exists c rest, identifier = String c rest /\ is_alnum c = true) as Hfirst.
  { destruct identifier as [|c rest]; [split; [done|by intros (? & ? & ? & _)]|].
    split; [by exists c, rest|]. by intros (? & ? & [= <- <-] & ?). }
  unfold valid_message_id, identifier_ok, MESSAGE_ID_MAX.
  rewrite !andb_true_iff, Nat.leb_le, str_forallb_Forall, (Forall_iff _ _ _ id_byte_spec). tauto.
Qed.

Lemma unused_spec identifier q :
  existsb (fun d => file_exists (d, file_name identifier) q) states.*1 = false <-> unused identifier q.
Proof.
  unfold unused, file_exists, file_name. rewrite <- not_true_iff_false, existsb_exists. split.
  - intros Hn d Hd. destruct (files q !! _) eqn:Hf; [|done]. destruct Hn. exists d. rewrite Hf.
    split; [|done]. destruct d; cbn; tauto.
  - intros Hu (d & Hd & He). rewrite Hu in He; [done|]. intros ->. cbn in Hd.
    repeat destruct Hd as [[=]|Hd]. done.
Qed.

Lemma lane_fields_spec lane document :
  lane_fields_ok lane document = true <-> deadline_ok lane document.
Proof.
  unfold lane_fields_ok, deadline_ok, NOT_AFTER. destruct (value_get document "not_after") as [v|].
  2:{ split; [done|]. by destruct lane. }
  split.
  - intros Hok v' [= <-]. assert (v = Null \/ v <> Null) as [Hv|Hv] by (destruct v; by (left + right)); [by left|]. right.
    destruct lane; [by destruct v|]. split; [done|].
    destruct (as_u64 v); [by eexists|by destruct v].
  - intros Hok. destruct (Hok v eq_refl) as [->|[-> [n Hn]]]; [by destruct lane|].
    rewrite Hn. by destruct v.
Qed.

Lemma item_spec identifier document :
  item_ok identifier document = true <-> document_ok identifier document.
Proof.
  unfold item_ok, document_ok. rewrite andb_true_iff. apply Morphisms_Prop.and_iff_morphism.
  - destruct (value_get document "text") as [v|]; cbn; [|split; [done|by intros (? & ? & _)]].
    destruct v as [| | |t| |]; cbn; try (split; [done|by intros (? & [=] & _)]).
    destruct t as [|c t]; cbn.
    + split; [done|]. by intros (? & [= <-] & []).
    + split; [|done]. intros _. by eexists.
  - destruct (value_get document "id") as [v|]; [|by split].
    rewrite bool_decide_eq_true. split.
    + intros Hv v' [= <-]. destruct v; try done. by injection Hv as ->.
    + intros Hv. by rewrite (Hv v eq_refl).
Qed.

Lemma refusal_answer lane identifier document q :
  answer lane identifier document q
    match refusal lane identifier document q with Some e => Err e | None => Ok identifier end.
Proof.
  unfold refusal.
  destruct (valid_message_id identifier) eqn:Hi; cbn [negb].
  2:{ apply invalid_identifier. rewrite <- valid_message_id_spec. by rewrite Hi. }
  apply valid_message_id_spec in Hi.
  destruct (existsb _ states.*1) eqn:Hu.
  { apply duplicate_identifier; [done|]. rewrite <- unused_spec. by rewrite Hu. }
  apply unused_spec in Hu.
  destruct (lane_fields_ok lane document) eqn:Hd; cbn [negb].
  2:{ apply invalid_deadline; [done|done|]. rewrite <- lane_fields_spec. by rewrite Hd. }
  apply lane_fields_spec in Hd.
  destruct (item_ok identifier document) eqn:Ht; cbn [negb].
  - apply item_spec in Ht. by apply accepted.
  - apply invalid_document; try done. rewrite <- item_spec. by rewrite Ht.
Qed.

(** Where the items of a lane are. *)
Definition lane_path (lane : Lane) (name : string) : Path :=
  match lane with Inbox => (INBOX, name) | InboxV2 => (INBOX_V2, name) end.

(** The directories of a queue, besides those of features it may not use. *)
Lemma made_spec lane identifier d :
  d ∈ made lane identifier <->
  d = INBOX \/ d = INFLIGHT \/ d = PROCESSED \/ d = FAILED
  \/ (d = INBOX_V2 /\ lane = InboxV2 /\ identifier_ok identifier).
Proof.
  unfold made, all_directories. rewrite <- valid_message_id_spec, elem_of_app, !elem_of_cons, elem_of_nil.
  destruct (valid_message_id identifier), lane; cbn [lane_made]; rewrite ?list_elem_of_singleton, ?elem_of_nil; naive_solver.
Qed.

Lemma sure_enqueue_answer lane message_id generated serialize document q :
  let identifier := default generated message_id in
  let name := identifier +:+ ".json" in
  sure (attempt (enqueue_into lane message_id generated serialize document))
    (fun r q' => answer lane identifier (document identifier) q r /\
      (forall path, path.1 <> CANCEL -> files q' !! path =
         match r with
         | Ok _ => <[lane_path lane name := Some (document identifier)]> (files q) !! path
         | Err _ => files q !! path
         end) /\
      log q' = match r with Ok _ => Queued name :: log q | Err _ => log q end /\
      forall d, d <> CANCEL -> d ∈ dirs q' <-> d ∈ dirs q
        \/ d = INBOX \/ d = INFLIGHT \/ d = PROCESSED \/ d = FAILED
        \/ (d = INBOX_V2 /\ lane = InboxV2 /\ identifier_ok identifier)) q.
Proof.
  intros identifier name. eapply sure_mono; [apply sure_enqueue|]. fold identifier.
  intros r q' [Hdirs Hr]. pose proof (refusal_answer lane identifier (document identifier) q) as Ha.
  setoid_rewrite <- made_spec. destruct (refusal _ _ _ _) as [e|]; destruct Hr as (-> & Hlog & Hf); [done|].
  by destruct lane.
Qed.
End enqueue.
