(* ===== verification/AgentProps.v ===== *)
(** * agent-queue: the properties

    First the histories of a queue: sequences of operations, each run by some process in
    some world, from a directory that does not exist yet.  A process may die in any call
    of any operation; the next operation finds what it left.

    Then the theorems, over every history of enqueues, withdrawals, cancellations and
    drains. *)
From S2P Require Import Prelude RustStr External AgentStore AgentQueue AgentMoves AgentDrain AgentInvariant AgentWalk AgentSafeOps AgentDrainLoop AgentEnqueue.

Section history.
Context `{JsonNumber, !JsonFloat}.

Inductive operation :=
| Enqueue (lane : Lane) (message_id : option string) (generated : string) (document : string -> value)
| Withdraw (message_id : string)
| Cancel (message_id reason : string)
| Drain (options : DrainOptions).

Definition perform `{!World, !Terminal} (op : operation) : Op () :=
  match op with
  | Enqueue lane message_id generated document =>
      enqueue_into lane message_id generated true document;; mret ()
  | Withdraw message_id => withdraw message_id;; mret ()
  | Cancel message_id reason => cancel message_id reason;; mret ()
  | Drain options => drain options;; mret ()
  end.

Inductive step (good : World -> Prop) (allowed : operation -> Prop) : relation Queue :=
| step_perform (W : World) (T : Terminal) op q :
    good W -> allowed op -> step good allowed q (perform op q).1.

(** Every look at a path tells the truth; and besides, no call fails. *)
Definition truthful (W : World) : Prop := forall n, stat_fails n = false.
Definition reliable (W : World) : Prop := truthful W /\ forall n, io_fails n = false.

Definition any_operation (op : operation) : Prop := True.

Definition assume_truthful (W : World) : Assumed.
Proof. refine {| steady := truthful W; quiet := False |}; [exact (fun H => H)|done..]. Defined.

Definition assume_reliable (W : World) : Assumed.
Proof.
  refine {| steady := truthful W; quiet := reliable W |}; [exact (fun H => H)|by intros []..].
Defined.

(** What holds between operations. *)
Record sound (kept : gmap string (option string)) (q : Queue) : Prop := {
  sound_dirs path : path.1 <> CANCEL -> is_Some (files q !! path) -> path.1 ∈ dirs q;
  sound_phase : one_phase q;
  sound_kept : nothing_lost kept q
}.

Record sound_typed (q : Queue) : Prop := {
  sound_held : typed_held_back q;
  sound_history : history_ok (log q)
}.

Definition withdraws (op : operation) (name : string) : Prop :=
  match op with Withdraw message_id => file_name message_id = name | _ => False end.

(** One operation, under whatever is assumed. *)
Lemma perform_keeps kept `{!World, !Terminal, !Assumed} op q :
  (forall name, is_Some (kept !! name) -> is_item name = true /\ ~ withdraws op name) ->
  invariant kept q -> invariant kept (perform op q).1.
Proof.
  intros Hk Hq. assert (forall name, is_Some (kept !! name) -> is_item name = true) as Hi.
  { intros name Hn. by apply Hk. }
  assert (forall {A} (m : Op A), walk kept m (fun _ => invariant kept) q ->
    invariant kept ((m;; mret ()) q).1) as Hwalk.
  { intros A m Hm. unfold walk, wp, mbind, op_bind in *. by destruct (m q) as [q' []]. }
  destruct op as [lane id generated document|id|id reason|options]; apply Hwalk.
  - by apply walk_enqueue.
  - apply walk_withdraw; [|done]. destruct (kept !! file_name id) eqn:Hn; [|done].
    destruct (Hk (file_name id)) as [_ Hw]; [by eexists|]. by destruct Hw.
  - by apply walk_cancel.
  - by apply walk_drain.
Qed.

Lemma step_sound kept allowed q q' :
  (forall name, is_Some (kept !! name) -> is_item name = true) ->
  (forall op name, allowed op -> is_Some (kept !! name) -> ~ withdraws op name) ->
  step truthful allowed q q' -> sound kept q -> sound kept q'.
Proof.
  intros Hi Ha [W T op q0 Hgood Hop] [Hdirs Hone Hkept].
  assert (@invariant _ W (assume_truthful W) kept q0) as Hinv by by split.
  destruct (@perform_keeps kept W T (assume_truthful W) op q0) as [Hd' Ho' Hk' _ _]; [|done|].
  { intros name Hn. split; [by apply Hi|by eapply Ha]. }
  split; [done|by apply Ho'|by apply Hk'].
Qed.

Lemma steps_sound kept allowed q q' :
  (forall name, is_Some (kept !! name) -> is_item name = true) ->
  (forall op name, allowed op -> is_Some (kept !! name) -> ~ withdraws op name) ->
  rtc (step truthful allowed) q q' -> sound kept q -> sound kept q'.
Proof. intros Hi Ha. induction 1; [done|]. intros Hq. by eauto using step_sound. Qed.

Lemma step_typed allowed q q' :
  step reliable allowed q q' -> sound ∅ q /\ sound_typed q -> sound ∅ q' /\ sound_typed q'.
Proof.
  intros [W T op q0 Hgood Hop] [[Hdirs Hone Hkept] [Hheld Hhist]].
  assert (@invariant _ W (assume_reliable W) ∅ q0) as Hinv by by split.
  destruct (@perform_keeps ∅ W T (assume_reliable W) op q0) as [Hd' Ho' Hk' Hh' Hl']; [|done|].
  { intros name Hn. by rewrite lookup_empty in Hn; destruct Hn. }
  split; split; [done|by apply Ho', Hgood|by apply Hk', Hgood|by apply Hh'|by apply Hl'].
Qed.

Lemma steps_typed allowed q q' :
  rtc (step reliable allowed) q q' -> sound ∅ q /\ sound_typed q -> sound ∅ q' /\ sound_typed q'.
Proof. induction 1; [done|]. intros Hq. by eauto using step_typed. Qed.

Lemma no_queue_sound : sound ∅ no_queue /\ sound_typed no_queue.
Proof.
  split; split; cbn; try done.
  - intros path _ Hs. by rewrite lookup_empty in Hs; destruct Hs.
  - intros name d1 d2 _ _ _ Hs. cbn in Hs. by rewrite lookup_empty in Hs; destruct Hs.
Qed.

Lemma step_mono (good good' : World -> Prop) (allowed allowed' : operation -> Prop) q q' :
  (forall W, good W -> good' W) -> (forall op, allowed op -> allowed' op) ->
  rtc (step good allowed) q q' -> rtc (step good' allowed') q q'.
Proof.
  intros Hg Ha. apply rtc_subrel. intros x y [W T op z HW Hop]. constructor; auto.
Qed.
End history.

Section properties.
Context `{JsonNumber, !JsonFloat}.

(** ** What a history says *)

Lemma history_ok_app l1 l2 : history_ok (l1 ++ l2) -> history_ok l2.
Proof. induction l1 as [|e l1 IH]; [done|]. intros [_ Hl]. by apply IH. Qed.

Lemma maybe_typed_app name l1 returned l2 :
  Queued name ∉ l1 -> returned = false ->
  maybe_typed name (l1 ++ Typing name false true returned :: l2) = true.
Proof.
  intros Hq ->. induction l1 as [|e l1 IH].
  - cbn. by rewrite String.eqb_refl.
  - apply not_elem_of_cons in Hq as [Hne Hq]. specialize (IH Hq).
    destruct e as [name'| |]; cbn [app maybe_typed]; [| done |].
    + destruct (name =? name')%string eqn:Hn; [|done]. apply String.eqb_eq in Hn. congruence.
    + by rewrite IH, orb_true_r.
Qed.

Lemma last_taken_false name l :
  last_taken name l = Some false ->
  exists l1 l2, l = l1 ++ Taken name false :: l2 /\ forall tombstone, Taken name tombstone ∉ l1.
Proof.
  induction l as [|e l IH]; [done|]. intros Hl.
  assert ((forall tombstone, Taken name tombstone <> e) -> last_taken name l = Some false ->
    exists l1 l2, e :: l = l1 ++ Taken name false :: l2 /\
      forall tombstone, Taken name tombstone ∉ l1) as Hstep.
  { intros Hne Hl'. destruct (IH Hl') as (l1 & l2 & -> & Hnone). exists (e :: l1), l2.
    split; [done|]. intros tombstone [Heq|Hin]%elem_of_cons; [by destruct (Hne tombstone)|].
    by destruct (Hnone tombstone). }
  destruct e as [name'|name' b|name' st started ret]; cbn in Hl; try by apply Hstep.
  destruct (name =? name')%string eqn:Hn.
  - apply String.eqb_eq in Hn as <-. injection Hl as ->. exists [], l. split; [done|].
    intros tombstone. apply not_elem_of_nil.
  - apply Hstep; [|done]. intros tombstone [= <- _]. by rewrite String.eqb_refl in Hn.
Qed.

Lemma reachable_sound good allowed q :
  (forall W, good W -> truthful W) -> rtc (step good allowed) no_queue q -> sound ∅ q.
Proof.
  intros Hg Hq. assert (rtc (step truthful any_operation) no_queue q) as Hq'.
  { eapply step_mono; [exact Hg| |exact Hq]. done. }
  eapply steps_sound; [| |exact Hq'|apply no_queue_sound].
  - intros n Hn. by rewrite lookup_empty in Hn; destruct Hn.
  - intros op n _ Hn. by rewrite lookup_empty in Hn; destruct Hn.
Qed.

(** C26: A message identifier is in at most one phase: whatever is enqueued, withdrawn,
    cancelled and drained, wherever processes die and calls fail, no item is ever
    found in two of the queue's phase directories.  The one assumption is that looking
    at a path does not fail: see [duplicate_after_failed_look]. *)
Theorem one_identifier_one_phase q name d1 d2 :
  rtc (step truthful any_operation) no_queue q ->
  is_item name = true -> d1 <> CANCEL -> d2 <> CANCEL ->
  is_Some (files q !! (d1, name)) -> is_Some (files q !! (d2, name)) -> d1 = d2.
Proof.
  intros Hq. apply (sound_phase ∅). by apply (reachable_sound truthful any_operation).
Qed.

(** C27: A prompt is never lost, where every look at a path tells whether it is there:
    an item that is in some phase stays in some phase, with the text it was queued with,
    through every later operation but its own withdrawal, wherever processes die and
    other calls fail.  That no look fails is needed: see
    [overwritten_after_failed_look]. *)
Theorem prompts_never_lost q q' name d c :
  rtc (step truthful any_operation) no_queue q ->
  is_item name = true -> d <> CANCEL -> files q !! (d, name) = Some c ->
  rtc (step truthful (fun op => ~ withdraws op name)) q q' ->
  exists d' c', d' <> CANCEL /\ files q' !! (d', name) = Some c' /\ text_of c' = text_of c.
Proof.
  intros Hq Hi Hd Hc Hsteps.
  assert (sound ∅ q) as [Hdirs Hone _] by by apply (reachable_sound truthful any_operation).
  assert (forall n, is_Some (({[name := text_of c]} : gmap _ _) !! n) -> n = name) as Hkey.
  { intros n [t Ht%lookup_singleton_Some]. by destruct Ht. }
  assert (sound {[name := text_of c]} q') as [_ _ Hkept].
  { eapply steps_sound; [| |exact Hsteps|].
    - by intros n ->%Hkey.
    - by intros op n Hop ->%Hkey.
    - split; [done|done|]. intros n t [<- <-]%lookup_singleton_Some. by exists d, c. }
  apply Hkept. apply lookup_singleton_eq.
Qed.

(** C28: A prompt is typed at most once: where no call fails, but processes may die in
    any call, a prompt that was typed is typed afresh only after the terminal gave it
    back, or after it was queued again.  After a death its item is only ever offered as
    stranded, which presses Enter.  That no call fails is needed: see
    [typed_twice_after_failed_stamp]. *)
Theorem typed_at_most_once q name later between earlier returned returned' :
  rtc (step reliable any_operation) no_queue q ->
  log q = later ++ Typing name false true returned' :: between ++ Typing name false true returned :: earlier ->
  Queued name ∉ between -> returned = true.
Proof.
  intros Hq Hl Hn. destruct (steps_typed _ _ _ Hq no_queue_sound) as [_ [_ Hok]].
  rewrite Hl in Hok. apply history_ok_app in Hok as [[_ Hfresh] _].
  specialize (Hfresh eq_refl eq_refl). destruct returned; [done|].
  by rewrite maybe_typed_app in Hfresh.
Qed.

(** C29: A cancelled prompt is never typed: where no call fails, whatever is handed to
    the terminal had no tombstone when it was last taken from its lane, although
    tombstones are written without any lock, at any moment of a drain. *)
Theorem cancelled_never_typed q name later earlier stranded started returned :
  rtc (step reliable any_operation) no_queue q ->
  log q = later ++ Typing name stranded started returned :: earlier ->
  exists l1 l2, earlier = l1 ++ Taken name false :: l2 /\
    forall tombstone, Taken name tombstone ∉ l1.
Proof.
  intros Hq Hl. destruct (steps_typed _ _ _ Hq no_queue_sound) as [_ [_ Hok]].
  rewrite Hl in Hok. apply history_ok_app in Hok as [[Htaken _] _]. by apply last_taken_false.
Qed.

(** C30: Enqueueing, when nothing fails: an invalid identifier, one that some phase
    has, a deadline that is no [u64] or not in [inbox.v2], and a document without a
    text or with another identifier are refused, in this order; any other document is
    written to its lane and recorded as queued.  No other file changes (but tombstones
    that others write meanwhile), and none at all when it is refused; refused or not,
    the queue's own four directories are there afterwards, and, unless the identifier
    is invalid, [inbox.v2] if that is the lane asked for. *)
Theorem enqueue_exact `{!World} lane message_id generated serialize document q :
  flawless ->
  let identifier := default generated message_id in
  let name := identifier +:+ ".json" in
  exists q' r, attempt (enqueue_into lane message_id generated serialize document) q = (q', Done r) /\
    answer lane identifier (document identifier) q r /\
    (forall path, path.1 <> CANCEL -> files q' !! path =
       match r with
       | Ok _ => <[lane_path lane name := Some (document identifier)]> (files q) !! path
       | Err _ => files q !! path
       end) /\
    log q' = match r with Ok _ => Queued name :: log q | Err _ => log q end /\
    forall d, d <> CANCEL -> d ∈ dirs q' <-> d ∈ dirs q
      \/ d = INBOX \/ d = INFLIGHT \/ d = PROCESSED \/ d = FAILED
      \/ (d = INBOX_V2 /\ lane = InboxV2 /\ identifier_ok identifier).
Proof. intros Hf. by apply sure_enqueue_answer. Qed.

(** The retry loop of a drain ends: its fuel is never used up. *)
Theorem retry_ends `{!World, !Terminal} kept options path p q :
  (forall name, is_Some (kept !! name) -> is_item name = true) ->
  @invariant _ _ (assume_truthful _) kept q -> pending_item path ->
  forall q' r, retry retry_fuel options path false 0 p q = (q', Done r) -> r.1 <> OutOfFuel.
Proof.
  intros Hk Hinv Hp q' r Hr.
  pose proof (@walk_retry _ _ _ _ (assume_truthful _) kept Hk retry_fuel options path false 0 p q Hp Hinv)
    as Hw.
  assert (COMPOSER_RETRIES - 0 + (MAX_MISROUTES - misroutes_at path q) < retry_fuel) as Hfuel.
  { unfold retry_fuel. lia. }
  specialize (Hw Hfuel). unfold walk, wp in Hw. rewrite Hr in Hw. by destruct Hw as (_ & ? & _).
Qed.
End properties.

(** ** Histories to run *)

#[local] Existing Instance integer_number.

(** A world in which the calls at the ticks [io] fail, and the looks at the ticks [look]. *)
Definition demo_world (io look : list nat) : World := {|
  dies _ := false; io_fails n := bool_decide (n ∈ io); stat_fails n := bool_decide (n ∈ look);
  lock_busy _ := false; tombstones _ := []; unix_seconds n := Z.of_nat n; now_millis n := Z.of_nat n;
  error_text _ := "error"; value_text _ := "value"
|}.

(** A terminal that is ready, and reports the same of every delivery. *)
Definition demo_terminal (report : option (result Undelivered Delivered)) : Terminal := {|
  past_deadline _ := false; pace _ := Ok None; readiness _ _ := Ok ();
  deliver _ _ _ := {| input_started := true; paste_label := None; reported := report |};
  runtime_cancelled _ := false; fits_deadline _ _ := true; retime _ _ _ _ := None;
  deadline_seconds := "1"
|}.

Definition confirms : Terminal := demo_terminal (Some (Ok (Confirmed true None false))).
Definition gives_it_back : Terminal := demo_terminal (Some (Ok (NotStaged "the pane is busy"))).
Definition dies_typing : Terminal := demo_terminal None.

Definition demo_item (id : string) : value := Object [("id", VString id); ("text", VString "hello")].
Definition demo_options : DrainOptions := {| max_attempts := 3; max_items := None; priority_only := None |}.
Definition demo_enqueue (lane : Lane) : operation := Enqueue lane (Some "a") "g" demo_item.

Definition run (W : World) (T : Terminal) (op : operation) (q : Queue) : Queue :=
  (@perform _ _ W T op q).1.

Definition one_item : Queue := run (demo_world [] []) confirms (demo_enqueue Inbox) no_queue.
Definition given_back : Queue := run (demo_world [] []) gives_it_back (Drain demo_options) one_item.
Definition delivered_once : Queue := run (demo_world [] []) confirms (Drain demo_options) given_back.

Lemma demo_truthful io : truthful (demo_world io []).
Proof. by intros n. Qed.
Lemma demo_reliable : reliable (demo_world [] []).
Proof. split; by intros n. Qed.

Lemma demo_step (good : World -> Prop) (allowed : operation -> Prop) W T op q q' :
  good W -> allowed op -> rtc (step good allowed) q q' -> rtc (step good allowed) q (run W T op q').
Proof. intros HW Hop Hq. eapply rtc_r; [exact Hq|]. by constructor. Qed.

Lemma delivered_once_reachable : rtc (step reliable any_operation) no_queue delivered_once.
Proof.
  apply demo_step; [exact demo_reliable|done|]. apply demo_step; [exact demo_reliable|done|].
  apply demo_step; [exact demo_reliable|done|]. apply rtc_refl.
Qed.

Lemma delivered_once_truthful : rtc (step truthful any_operation) no_queue delivered_once.
Proof.
  apply (step_mono reliable truthful any_operation); [by intros W []|done|].
  apply delivered_once_reachable.
Qed.

Lemma one_item_reachable : rtc (step truthful any_operation) no_queue one_item.
Proof. apply demo_step; [exact (demo_truthful [])|done|apply rtc_refl]. Qed.

Lemma one_identifier_one_phase_witness :
  is_Some (files delivered_once !! (PROCESSED, "a.json")) /\
  forall d, d <> CANCEL -> is_Some (files delivered_once !! (d, "a.json")) -> PROCESSED = d.
Proof.
  assert (is_Some (files delivered_once !! (PROCESSED, "a.json"))) as Hp by by_eval.
  split; [exact Hp|]. intros d Hd Hs.
  by apply (one_identifier_one_phase delivered_once "a.json" PROCESSED d delivered_once_truthful).
Defined.

Lemma prompts_never_lost_witness :
  exists d' c', d' <> CANCEL /\ files delivered_once !! (d', "a.json") = Some c' /\
    text_of c' = Some "hello".
Proof.
  assert (files one_item !! (INBOX, "a.json") = Some (Some (demo_item "a"))) as Hc by reflexivity.
  assert (rtc (step truthful (fun op => ~ withdraws op "a.json")) one_item delivered_once) as Hsteps.
  { apply demo_step; [exact (demo_truthful [])|by intros []|].
    apply demo_step; [exact (demo_truthful [])|by intros []|apply rtc_refl]. }
  destruct (prompts_never_lost one_item delivered_once "a.json" INBOX _ one_item_reachable eq_refl
    ltac:(discriminate) Hc Hsteps) as (d' & c' & Hd' & Hf & Ht).
  exists d', c'. split; [exact Hd'|]. split; [exact Hf|]. rewrite Ht. reflexivity.
Defined.

Lemma typed_at_most_once_witness :
  log delivered_once = [Typing "a.json" false true false; Taken "a.json" false;
                        Typing "a.json" false true true; Taken "a.json" false; Queued "a.json"] /\
  true = true.
Proof.
  assert (log delivered_once = [Typing "a.json" false true false; Taken "a.json" false;
    Typing "a.json" false true true; Taken "a.json" false; Queued "a.json"]) as Hl by (vm_compute; reflexivity).
  split; [exact Hl|].
  apply (typed_at_most_once delivered_once "a.json" [] [Taken "a.json" false]
    [Taken "a.json" false; Queued "a.json"] true false delivered_once_reachable Hl).
  intros [Heq|[]%elem_of_nil]%elem_of_cons. discriminate Heq.
Defined.

Lemma cancelled_never_typed_witness :
  exists l1 l2, [Taken "a.json" false; Typing "a.json" false true true; Taken "a.json" false;
                 Queued "a.json"] = l1 ++ Taken "a.json" false :: l2 /\
    forall tombstone, Taken "a.json" tombstone ∉ l1.
Proof.
  apply (cancelled_never_typed delivered_once "a.json" [] _ false true false delivered_once_reachable).
  vm_compute. reflexivity.
Defined.

Lemma enqueue_exact_witness :
  let W := demo_world [] [] in
  exists q' r, attempt (enqueue_into InboxV2 (Some "a") "g" true demo_item) one_item = (q', Done r) /\
    r = Err (DuplicateId "a") /\
    (forall path, path.1 <> CANCEL -> files q' !! path = files one_item !! path) /\
    INBOX_V2 ∉ dirs one_item /\ INBOX_V2 ∈ dirs q'.
Proof.
  intros W.
  destruct (@enqueue_exact _ W InboxV2 (Some "a") "g" true demo_item one_item) as (q' & r & Hr & Ha & Hf & _ & Hdirs).
  { split_and!; by intros n. }
  exists q', r. split; [exact Hr|].
  assert (files one_item !! (INBOX, "a.json") = Some (Some (demo_item "a"))) as Hc by reflexivity.
  assert (identifier_ok "a") as Hi by (by apply valid_message_id_spec).
  assert (r = Err (DuplicateId "a")) as ->; [|split; [reflexivity|split; [exact Hf|]]].
  2:{ split; [by_eval|]. apply (Hdirs INBOX_V2); [discriminate|]. do 5 right. split_and!; [done..|exact Hi]. }
  destruct Ha as [Hn|_ _|_ Hu|_ Hu|_ Hu]; [by destruct Hn|reflexivity| | |];
    specialize (Hu INBOX ltac:(discriminate)); change (default "g" (Some "a") +:+ ".json") with "a.json" in Hu;
    rewrite Hu in Hc; discriminate Hc.
Defined.

(** ** What the assumptions are for *)

(** The stamp that says typing began is written without looking at the result, and the
    prompt is typed all the same: after a failed write and the death of the drain, the
    next drain takes the item for one that was never typed, and types it again. *)
Definition unstamped : Queue := run (demo_world [51] []) dies_typing (Drain demo_options) one_item.
Definition typed_twice : Queue := run (demo_world [] []) confirms (Drain demo_options) unstamped.

Lemma typed_twice_after_failed_stamp :
  rtc (step truthful any_operation) no_queue typed_twice /\
  log typed_twice = [Typing "a.json" false true false; Taken "a.json" false;
                     Typing "a.json" false true false; Taken "a.json" false; Queued "a.json"].
Proof.
  split; [|vm_compute; reflexivity].
  apply demo_step; [exact (demo_truthful [])|done|]. apply demo_step; [exact (demo_truthful [51])|done|].
  exact one_item_reachable.
Qed.

(** The duplicate check takes a path it could not look at for one that is not there. *)
Definition duplicated : Queue := run (demo_world [] [38]) confirms (demo_enqueue InboxV2) one_item.

Lemma duplicate_after_failed_look :
  is_Some (files duplicated !! (INBOX, "a.json")) /\ is_Some (files duplicated !! (INBOX_V2, "a.json")).
Proof. split; by_eval. Qed.

(** Nor is a prompt safe there: the identifier of a digest that was typed, recovered and
    retired to [cancelled/] is queued again when the look there fails; and when the looks
    at its lane fail after it was typed, the second is retired over the first. *)
Definition digest (lane : Lane) (text : string) : operation :=
  Enqueue lane (Some "failed-digest-a") "g" (fun id => Object [("id", VString id); ("text", VString text)]).
Definition retired_once : Queue :=
  run (demo_world [] [68]) dies_typing (Drain demo_options)
    (run (demo_world [] []) dies_typing (Drain demo_options)
       (run (demo_world [] []) confirms (digest Inbox "hello") no_queue)).
Definition retired_over : Queue :=
  run (demo_world [] [164]) dies_typing (Drain demo_options)
    (run (demo_world [] []) dies_typing (Drain demo_options)
       (run (demo_world [] [108]) confirms (digest InboxV2 "other") retired_once)).

Lemma overwritten_after_failed_look :
  text_of <$> files retired_once !! (CANCELLED, "failed-digest-a.json") = Some (Some "hello") /\
  (fun kv => (kv.1, text_of kv.2)) <$> map_to_list (files retired_over)
  = [((CANCELLED, "failed-digest-a.json.error"), None); ((CANCELLED, "failed-digest-a.json"), Some "other")].
Proof. split; vm_compute; reflexivity. Qed.
