(* ===== verification/DagModel.v ===== *)
(** * dagrun: the vocabulary of a graph ([rs/dagrun/src/model.rs])

    Steps, their resources and results, and the configuration of a run.  A
    [BTreeMap] or [HashMap] is a [gmap], a [BTreeSet] or [HashSet] a [gset]; an [f64]
    is a binary64 number of the Standard Library's [SpecFloat]. *)
From S2P Require Import Prelude RustStr.
From Stdlib Require SpecFloat.

Abbreviation f64 := SpecFloat.spec_float.

(** ** Constants *)

Definition DEFAULT_STEP_TIMEOUT : Z := 1800.
Definition WALL_CPU_BACKSTOP_FACTOR : Z := 3.
Definition DEFAULT_SMALL_MEM_CAP_BYTES : Z := 1024 ^ 3.
Definition DEFAULT_SMALL_CPU_COUNT : Z := 1.
Definition DEFAULT_SMALL_CPU_TIMEOUT : Z := 10.
Definition DEFAULT_JOBS_FLAG : string := "-j".
Definition JOBS_ENV_ENV : string := "DAGRUN_JOBS_ENV".
Definition DAGRUN_EXTRA_ARGS_ENV : string := "DAGRUN_EXTRA_ARGS".

(** ** Enumerations *)

Inductive StepClass := CpuBound | LatencyBound | Light.

Inductive CmdType :=
| UnknownCmd | Make | CargoBuild | CargoTest | CargoNextest | GenericDashJCommand | GenericWithFlag.

Inductive IntentionalSkipReason := EmptyManifestBucket.

Inductive WriteDomainGuarantee :=
| ArtifactBarrierDependent | ImmutableArtifactBarrier | ExplicitlyIsolated | ArtifactProducer.

#[global] Instance StepClass_eq_dec : EqDecision StepClass.
Proof. solve_decision. Defined.
#[global] Instance CmdType_eq_dec : EqDecision CmdType.
Proof. solve_decision. Defined.
#[global] Instance WriteDomainGuarantee_eq_dec : EqDecision WriteDomainGuarantee.
Proof. solve_decision. Defined.

Definition StepClass_value (c : StepClass) : string :=
  match c with CpuBound => "cpu-bound" | LatencyBound => "latency-bound" | Light => "light" end.

Definition StepClass_from_value (text : string) : option StepClass :=
  if (text =? "cpu-bound")%string then Some CpuBound
  else if (text =? "latency-bound")%string then Some LatencyBound
  else if (text =? "light")%string then Some Light else None.

Definition CmdType_value (c : CmdType) : string :=
  match c with
  | UnknownCmd => "unknown" | Make => "make" | CargoBuild => "cargo-build" | CargoTest => "cargo-test"
  | CargoNextest => "cargo-nextest" | GenericDashJCommand => "generic-dash-j-command"
  | GenericWithFlag => "generic-with-flag"
  end.

Definition CmdType_from_value (text : string) : option CmdType :=
  if (text =? "unknown")%string then Some UnknownCmd
  else if (text =? "make")%string then Some Make
  else if (text =? "cargo-build")%string then Some CargoBuild
  else if (text =? "cargo-test")%string then Some CargoTest
  else if (text =? "cargo-nextest")%string then Some CargoNextest
  else if (text =? "generic-dash-j-command")%string then Some GenericDashJCommand
  else if (text =? "generic-with-flag")%string then Some GenericWithFlag else None.

Definition IntentionalSkipReason_value (r : IntentionalSkipReason) : string := "empty-manifest-bucket".

Definition IntentionalSkipReason_from_value (text : string) : option IntentionalSkipReason :=
  if (text =? "empty-manifest-bucket")%string then Some EmptyManifestBucket else None.

Definition WriteDomainGuarantee_value (g : WriteDomainGuarantee) : string :=
  match g with
  | ArtifactBarrierDependent => "artifact-barrier-dependent"
  | ImmutableArtifactBarrier => "immutable-artifact-barrier"
  | ExplicitlyIsolated => "explicitly-isolated"
  | ArtifactProducer => "artifact-producer"
  end.

Definition WriteDomainGuarantee_from_value (text : string) : option WriteDomainGuarantee :=
  if (text =? "artifact-barrier-dependent")%string then Some ArtifactBarrierDependent
  else if (text =? "immutable-artifact-barrier")%string then Some ImmutableArtifactBarrier
  else if (text =? "explicitly-isolated")%string then Some ExplicitlyIsolated
  else if (text =? "artifact-producer")%string then Some ArtifactProducer else None.

(** ** Steps *)

Record WriteDomainPolicy := { require_explicit : bool; allowed_domains : gset string }.

Record ResourceHint := {
  resources : gmap string Z;
  est_duration_s : f64;
  rss_baseline_bytes : option Z;
  rss_baseline_inner_jobs : option Z;
  hard_mem_max_bytes : option Z;
  classification : StepClass;
  preferred_inner_jobs_hint : option Z;
  measured_effective_cores : option f64;
  measured_cpu_utilization : option f64
}.

Record DagManifest := {
  m_lane : string; m_category : string;
  m_test : option string; m_mode : option string; m_backend : option string
}.

Record StructuredTestResultsManifest := { sr_schema : N; sr_owner : string }.

Inductive ResultManifest :=
| ManifestCell (m : DagManifest)
| StructuredTestResults (m : StructuredTestResultsManifest).

Record PublishedArtifact := { artifact_name : string; artifact_path : option string }.
Record ArtifactDep := { dep_step : string; dep_artifact : string }.

Record Step := {
  group : string;
  job : string;
  desc : string;
  description : string;
  labels : list string;
  cmd : string;
  cmdtype : CmdType;
  manifest : option DagManifest;
  integration_test_binaries : option (list string);
  result_manifests : option (list ResultManifest);
  deps : list string;
  env : gmap string string;
  hint : ResourceHint;
  networkonly : bool;
  engine_only : bool;
  delegated_children : bool;
  timeout : Z;
  cpu_timeout : Z;
  priority : Z;
  jobs_flag : option string;
  jobs_env : option string;
  skip_reason : option IntentionalSkipReason;
  write_domains : option (list string);
  write_domain_guarantee : option WriteDomainGuarantee;
  explains : list string;
  fail_fast_family : option string;
  publishes : list PublishedArtifact;
  artifact_deps : list ArtifactDep
}.

Definition tag (step : Step) : string := group step +:+ "." +:+ job step.

Definition dependency_tags (step : Step) : list string :=
  deps step ++ (dep_step <$> artifact_deps step).

Definition explains_a_failure_in (step : Step) (failed : gset string) : bool :=
  existsb (fun t => bool_decide (t ∈ failed)) (explains step).

(** *** Which step owns a result *)

Definition selects (selector wanted : option string) : bool :=
  match selector with None => true | Some _ => bool_decide (wanted = selector) end.

Definition matches_exact_result (m result : DagManifest) : bool :=
  (m_lane m =? m_lane result)%string && (m_category m =? m_category result)%string
  && selects (m_test m) (m_test result) && selects (m_mode m) (m_mode result)
  && selects (m_backend m) (m_backend result).

Definition absent (s : option string) : bool :=
  match s with None => true | Some s => str_is_empty s end.

Definition exact_identity (m : DagManifest) : result string string :=
  let missing :=
    (if str_is_empty (m_lane m) then ["lane"] else []) ++
    (if str_is_empty (m_category m) then ["category"] else []) ++
    (if absent (m_test m) then ["test"] else []) ++
    (if absent (m_mode m) then ["mode"] else []) ++
    (if absent (m_backend m) then ["backend"] else []) in
  match missing with
  | [] => Ok (m_lane m +:+ "/" +:+ m_category m +:+ "/" +:+ default "" (m_test m) +:+ "/"
              +:+ default "" (m_mode m) +:+ "/" +:+ default "" (m_backend m))
  | _ => Err ("result manifest is not an exact identity: missing " +:+ join ", " missing)
  end.

Definition effective_result_manifests (step : Step) : list DagManifest :=
  match result_manifests step with
  | Some ms => omap (fun m => match m with ManifestCell m => Some m | _ => None end) ms
  | None => option_list (manifest step)
  end.

Definition result_manifest_owner (steps : list Step) (result : DagManifest)
  : Prelude.result string Step :=
  identity ← exact_identity result;
  let owners := List.filter (fun step =>
    existsb (fun selector => matches_exact_result selector result) (effective_result_manifests step)) steps in
  match owners with
  | [] => Err ("result manifest " +:+ identity +:+ " has no owning step in the selected DAG")
  | [owner] => Ok owner
  | _ => Err ("result manifest " +:+ identity +:+ " has multiple owning steps in the selected DAG: "
              +:+ join ", " (tag <$> owners))
  end.

(** [RETAINED_RESULTS_SCHEMA] to [SKIPPED_RESULTS_SCHEMA] of test_results.rs. *)
Definition RETAINED_RESULTS_SCHEMA : N := 2.
Definition CURRENT_SCHEMA : N := 2.
Definition CLASSIFIED_RESULTS_SCHEMA : N := 3.
Definition DIAGNOSTIC_RESULTS_SCHEMA : N := 4.
Definition SKIPPED_RESULTS_SCHEMA : N := 5.

Definition structured_test_results_manifest (step : Step)
  : result string (option StructuredTestResultsManifest) :=
  let structured := omap (fun m => match m with StructuredTestResults m => Some m | _ => None end)
                         (default [] (result_manifests step)) in
  match structured with
  | [] => Ok None
  | _ :: _ :: _ => Err ("step " +:+ tag step +:+ ": declares structured test results more than once")
  | [m] =>
      if negb (bool_decide (sr_schema m ∈ [RETAINED_RESULTS_SCHEMA; CURRENT_SCHEMA;
                 CLASSIFIED_RESULTS_SCHEMA; DIAGNOSTIC_RESULTS_SCHEMA; SKIPPED_RESULTS_SCHEMA]))
      then Err ("step " +:+ tag step +:+ ": structured test-result schema " +:+ pretty (sr_schema m)
        +:+ " is unsupported; expected default schema " +:+ pretty CURRENT_SCHEMA
        +:+ ", classified schema " +:+ pretty CLASSIFIED_RESULTS_SCHEMA
        +:+ ", diagnostic schema " +:+ pretty DIAGNOSTIC_RESULTS_SCHEMA
        +:+ " or skipped schema " +:+ pretty SKIPPED_RESULTS_SCHEMA)
      else if negb (sr_owner m =? tag step)%string
      then Err ("step " +:+ tag step +:+ ": structured test-result owner '" +:+ sr_owner m
        +:+ "' must equal the containing step tag")
      else Ok (Some m)
  end.

(** ** A configuration *)

Record DagConfig := {
  steps : list Step;
  dag_description : string;
  resource_caps : gmap string Z;
  mem_cap_factor : f64;
  mem_cap_floor_bytes : Z;
  outer_mem_safety_factor : f64;
  default_step_timeout : Z;
  default_jobs_flag : string;
  default_jobs_env : string;
  default_step_mem_cap_bytes : option Z;
  default_step_cpu_count : option Z;
  default_step_cpu_timeout : Z;
  cpu_timeout_multiplier : f64;
  cpu_timeout_platform : string;
  write_domain_policy : WriteDomainPolicy
}.

Definition by_tag (steps : list Step) : gmap string Step :=
  map_collect ((fun step => (tag step, step)) <$> steps).

Definition with_steps (cfg : DagConfig) (steps : list Step) : DagConfig := {|
  steps := steps; dag_description := dag_description cfg; resource_caps := resource_caps cfg;
  mem_cap_factor := mem_cap_factor cfg; mem_cap_floor_bytes := mem_cap_floor_bytes cfg;
  outer_mem_safety_factor := outer_mem_safety_factor cfg;
  default_step_timeout := default_step_timeout cfg; default_jobs_flag := default_jobs_flag cfg;
  default_jobs_env := default_jobs_env cfg;
  default_step_mem_cap_bytes := default_step_mem_cap_bytes cfg;
  default_step_cpu_count := default_step_cpu_count cfg;
  default_step_cpu_timeout := default_step_cpu_timeout cfg;
  cpu_timeout_multiplier := cpu_timeout_multiplier cfg;
  cpu_timeout_platform := cpu_timeout_platform cfg; write_domain_policy := write_domain_policy cfg
|}.

(** ** Widths and budgets *)

Definition step_classification (step : Step) : StepClass :=
  if negb (bool_decide (classification (hint step) = Light)) then classification (hint step)
  else match resources (hint step) !! "browser" with Some _ => LatencyBound | None => Light end.

Definition positive (v : option Z) : option Z := v ≫= fun v => if decide (0 < v)%Z then Some v else None.

Definition preferred_inner_jobs (step : Step) (experiment_override : option Z) : option Z :=
  positive (match experiment_override with Some v => Some v | None => preferred_inner_jobs_hint (hint step) end).

Definition effective_cpu_count (step : Step) (default_cpu_count : option Z) : option Z :=
  match preferred_inner_jobs step None with Some v => Some v | None => positive default_cpu_count end.

Definition canonical_cpu_timeout (step : Step) (default_cpu_timeout : Z) : Z :=
  if decide (0 < cpu_timeout step)%Z then cpu_timeout step else default_cpu_timeout.

Definition prec : Z := 53.
Definition emax : Z := 1024.
(** [DEFAULT_CPU_TIMEOUT_MULTIPLIER] *)
Definition f64_one : f64 := SpecFloat.SFone prec emax.
(** [n as f64] *)
Definition f64_of_i64 (n : Z) : f64 := SpecFloat.binary_normalize prec emax n 0 false.

(** [x.round() as i64]: half away from zero, saturating; NaN is 0. *)
Definition f64_round_i64 (x : f64) : Z :=
  match x with
  | SpecFloat.S754_zero _ | SpecFloat.S754_nan => 0
  | SpecFloat.S754_infinity s => if s then i64_min else i64_max
  | SpecFloat.S754_finite s m e =>
      let magnitude := if decide (0 <= e)%Z then (Z.pos m * 2 ^ e)%Z
                       else ((2 * Z.pos m + 2 ^ (- e)) / 2 ^ (1 - e))%Z in
      i64_clamp (if s then - magnitude else magnitude)
  end.

Definition scale_cpu_timeout (canonical : Z) (multiplier : f64) : Z :=
  if decide (canonical <= 0)%Z then 0
  else if SpecFloat.SFeqb multiplier f64_one then canonical
  else Z.max (f64_round_i64 (SpecFloat.SFmul prec emax (f64_of_i64 canonical) multiplier)) 1.

Definition effective_cpu_timeout (step : Step) (default_cpu_timeout : Z) (multiplier : f64) : Z :=
  scale_cpu_timeout (canonical_cpu_timeout step default_cpu_timeout) multiplier.

(** The product overflows an [i64] where the scaled budget is a third of its range. *)
Definition resolved_wall_timeout (step : Step) (default_step_timeout : Z) (multiplier : f64) : Z :=
  if decide (0 < timeout step)%Z then timeout step
  else if decide (0 < default_step_timeout)%Z then default_step_timeout
  else if decide (0 < cpu_timeout step)%Z
  then Z.max (i64_wrap (WALL_CPU_BACKSTOP_FACTOR * scale_cpu_timeout (cpu_timeout step) multiplier))
             DEFAULT_STEP_TIMEOUT
  else DEFAULT_STEP_TIMEOUT.

(** ** Steps by tag *)

Lemma by_tag_lookup (l : list Step) t step : by_tag l !! t = Some step -> step ∈ l /\ tag step = t.
Proof.
  intros Hl%map_collect_Some. apply list_elem_of_fmap in Hl as (s & [= -> ->] & Hs). done.
Qed.

Lemma by_tag_dom (l : list Step) t : is_Some (by_tag l !! t) <-> t ∈ tag <$> l.
Proof.
  rewrite <- elem_of_dom. unfold by_tag. rewrite map_collect_dom, elem_of_list_to_set.
  by rewrite <- list_fmap_compose.
Qed.

Lemma by_tag_exact (l : list Step) t step :
  NoDup (tag <$> l) -> by_tag l !! t = Some step <-> step ∈ l /\ tag step = t.
Proof.
  intros Hnd. split; [apply by_tag_lookup|]. intros [Hin <-]. apply map_collect_NoDup.
  - by rewrite <- list_fmap_compose.
  - apply list_elem_of_fmap. by exists step.
Qed.
