(* ===== verification/DagOutcome.v ===== *)
(** * dagrun: results of steps ([rs/dagrun/src/model.rs], [test_results.rs])

    Test results, why a step failed, the terminal outcome of a step and the result of
    a run. *)
From S2P Require Import Prelude RustStr DagModel.

(** ** Test results *)

Inductive TestAttemptOutcome :=
| AttemptPassed | AttemptFailed | CpuTimeout | WallTimeout | AttemptCancelled
| InfrastructureError | NoResult | AttemptSkipped.

Definition TestAttemptOutcome_value (o : TestAttemptOutcome) : string :=
  match o with
  | AttemptPassed => "passed" | AttemptFailed => "failed" | CpuTimeout => "cpu_timeout"
  | WallTimeout => "wall_timeout" | AttemptCancelled => "cancelled"
  | InfrastructureError => "infrastructure_error" | NoResult => "no_result"
  | AttemptSkipped => "skipped"
  end.

Record TestAttemptResult := {
  attempt : N; attempt_outcome : TestAttemptOutcome; attempt_detail : option string
}.

Record TestResult := {
  test_id : string;
  test_passed : bool;
  attempts : N;
  attempt_results : option (list TestAttemptResult);
  diagnostic : option string;
  test_skip_reason : option string
}.

Definition is_none {A} (o : option A) : bool := match o with None => true | Some _ => false end.

Definition is_blocking_failure (r : TestResult) : bool :=
  negb (test_passed r) && is_none (diagnostic r) && is_none (test_skip_reason r).
Definition is_diagnostic_failure (r : TestResult) : bool :=
  negb (test_passed r) && negb (is_none (diagnostic r)).
Definition is_skipped (r : TestResult) : bool := negb (is_none (test_skip_reason r)).

Inductive TestResultsErrorKind := Missing | ReadIo | InvalidReport.

Record CapturedTestResults := {
  executed : option N; filtered : option N; results : option (list TestResult)
}.

Definition test_results_report_failure (counts : CapturedTestResults) : bool :=
  match results counts with Some rs => existsb is_blocking_failure rs | None => false end.

Definition structured_test_failure_reason (counts : CapturedTestResults) (returncode : option Z)
    (timed_out cpu_timed_out : bool) (oom : Z) (was_aborted : bool) : option string :=
  if negb (bool_decide (returncode = Some 0%Z)) || timed_out || cpu_timed_out
     || negb (bool_decide (oom = 0%Z)) || was_aborted then None else
  rs ← results counts;
  r ← List.find is_blocking_failure rs;
  Some match attempt_results r ≫= last with
       | None => "STRUCTURED TEST FAILURE: " +:+ test_id r
       | Some a => "STRUCTURED TEST FAILURE: " +:+ test_id r +:+ " attempt " +:+ pretty (attempt a)
                   +:+ " " +:+ TestAttemptOutcome_value (attempt_outcome a) +:+ ": "
                   +:+ default "typed cause unavailable" (attempt_detail a)
       end.

(** ** Why a step failed *)

Section reason.
(** [Display] of an [f64] *)
Context (f64_display : f64 -> string).

Definition format_multiplier (value : f64) : string :=
  let s := f64_display value in default s (strip_suffix ".0" s).

Definition cpu_timeout_policy_suffix (canonical : Z) (multiplier : f64) (platform : string) : string :=
  if SpecFloat.SFeqb multiplier f64_one || bool_decide (canonical <= 0)%Z then "" else
  let label := if str_is_empty platform then "" else " " +:+ platform in
  " (canonical " +:+ pretty canonical +:+ "s x" +:+ format_multiplier multiplier +:+ label +:+ ")".

Definition signal_name (sig : Z) : string :=
  match sig with
  | 1 => "SIGHUP" | 2 => "SIGINT" | 3 => "SIGQUIT" | 4 => "SIGILL" | 5 => "SIGTRAP"
  | 6 => "SIGABRT" | 7 => "SIGBUS" | 8 => "SIGFPE" | 9 => "SIGKILL" | 10 => "SIGUSR1"
  | 11 => "SIGSEGV" | 12 => "SIGUSR2" | 13 => "SIGPIPE" | 14 => "SIGALRM" | 15 => "SIGTERM"
  | 17 => "SIGCHLD" | 18 => "SIGCONT" | 19 => "SIGSTOP" | 20 => "SIGTSTP" | 21 => "SIGTTIN"
  | 22 => "SIGTTOU" | 24 => "SIGXCPU" | 25 => "SIGXFSZ" | 26 => "SIGVTALRM" | 27 => "SIGPROF"
  | 28 => "SIGWINCH" | 29 => "SIGIO" | 31 => "SIGSYS"
  | _ => "signal " +:+ pretty sig
  end%Z.

Definition step_failure_reason (returncode : option Z) (oomed : bool) (oom_kills : Z)
    (timed_out : bool) (timeout : Z) (pids_guard_tripped : bool) (pids_guard_reason : option string)
    (detail_write_failure : list string) (cpu_timed_out : bool) (cpu_timeout canonical : Z)
    (multiplier : f64) (platform : string) : string :=
  if oomed then
    if decide (oom_kills = 0)%Z
    then "MEMORY CAP EXHAUSTED (kernel reported OOM at inner MemoryMax; no local oom_kill counter)"
    else "OOM-KILLED (hit inner MemoryMax; " +:+ pretty oom_kills +:+ " oom_kill event(s))"
  else if cpu_timed_out then
    "CPU-TIMEOUT >" +:+ pretty cpu_timeout +:+ "s cpu"
    +:+ cpu_timeout_policy_suffix canonical multiplier platform
  else if timed_out then "TIMEOUT >" +:+ pretty timeout +:+ "s"
  else if pids_guard_tripped then "PIDS GUARD (" +:+ default "" pids_guard_reason +:+ ")"
  else match detail_write_failure with
  | first :: _ => "DETAIL CAPTURE FAILED (" +:+ first +:+ ")"
  | [] =>
      match returncode with
      | Some rc =>
          if decide (rc < 0)%Z
          then "received " +:+ signal_name (- rc)
               +:+ " with no validate timeout, pids guard, or child-cgroup OOM recorded"
          else "exit " +:+ pretty rc
      | None => "exit None"
      end
  end.

(** ** Outcomes *)

Record StepOutcome := {
  o_tag : string;
  ok : bool;
  duration_s : f64;
  summary : string;
  executed_tests : option N;
  filtered_tests : option N;
  test_results : option (list TestResult);
  test_results_error : option string;
  test_results_error_kind : option TestResultsErrorKind;
  returncode : option Z;
  oomed : bool;
  oom_kills : Z;
  timed_out : bool;
  cpu_timed_out : bool;
  reason : string;
  aborted : bool
}.

Definition ABORTED_BY_RUN_BUDGET_REASON : string :=
  "ABORTED (cut short by the OUTER run budget, not by a failure of its own or of a peer)".
Definition ABORTED_BY_PEER_FAILURE_REASON : string :=
  "ABORTED (eager-exit after another step failed; --keep-going would continue independent work)".

Definition passed (tag : string) (duration_s : f64) (summary : string) (returncode : option Z)
    (executed filtered : option N) : StepOutcome := {|
  o_tag := tag; ok := true; duration_s := duration_s; summary := summary;
  executed_tests := executed; filtered_tests := filtered; test_results := None;
  test_results_error := None; test_results_error_kind := None; returncode := returncode;
  oomed := false; oom_kills := 0; timed_out := false; cpu_timed_out := false;
  reason := ""; aborted := false
|}.

Definition failed_outcome (tag : string) (duration_s : f64) (summary : string) (returncode : option Z)
    (oomed : bool) (oom_kills : Z) (timed_out : bool) (timeout : Z) (cpu_timed_out : bool)
    (cpu_timeout canonical : Z) (multiplier : f64) (platform : string) (aborted : bool)
    (executed filtered : option N) : StepOutcome := {|
  o_tag := tag; ok := false; duration_s := duration_s; summary := summary;
  executed_tests := executed; filtered_tests := filtered; test_results := None;
  test_results_error := None; test_results_error_kind := None; returncode := returncode;
  oomed := oomed; oom_kills := oom_kills; timed_out := timed_out; cpu_timed_out := cpu_timed_out;
  reason := step_failure_reason returncode oomed oom_kills timed_out timeout false None []
              cpu_timed_out cpu_timeout canonical multiplier platform;
  aborted := aborted
|}.

Definition aborted_outcome (tag : string) (duration_s : f64) (summary : string)
    (returncode : option Z) (executed filtered : option N) (cut_by_run_budget : bool) : StepOutcome := {|
  o_tag := tag; ok := false; duration_s := duration_s; summary := summary;
  executed_tests := executed; filtered_tests := filtered; test_results := None;
  test_results_error := None; test_results_error_kind := None; returncode := returncode;
  oomed := false; oom_kills := 0; timed_out := false; cpu_timed_out := false;
  reason := if cut_by_run_budget then ABORTED_BY_RUN_BUDGET_REASON else ABORTED_BY_PEER_FAILURE_REASON;
  aborted := true
|}.

(** The fields of an outcome that a supervisor changes after building it. *)
Definition with_verdict (ok' : bool) (reason' : string) (o : StepOutcome) : StepOutcome := {|
  o_tag := o_tag o; ok := ok'; duration_s := duration_s o; summary := summary o;
  executed_tests := executed_tests o; filtered_tests := filtered_tests o;
  test_results := test_results o; test_results_error := test_results_error o;
  test_results_error_kind := test_results_error_kind o; returncode := returncode o;
  oomed := oomed o; oom_kills := oom_kills o; timed_out := timed_out o;
  cpu_timed_out := cpu_timed_out o; reason := reason'; aborted := aborted o
|}.
Definition with_results_error (error : option string) (kind : option TestResultsErrorKind)
    (o : StepOutcome) : StepOutcome := {|
  o_tag := o_tag o; ok := ok o; duration_s := duration_s o; summary := summary o;
  executed_tests := executed_tests o; filtered_tests := filtered_tests o;
  test_results := test_results o; test_results_error := error; test_results_error_kind := kind;
  returncode := returncode o; oomed := oomed o; oom_kills := oom_kills o;
  timed_out := timed_out o; cpu_timed_out := cpu_timed_out o; reason := reason o;
  aborted := aborted o
|}.
Definition with_test_results (rs : option (list TestResult)) (o : StepOutcome) : StepOutcome := {|
  o_tag := o_tag o; ok := ok o; duration_s := duration_s o; summary := summary o;
  executed_tests := executed_tests o; filtered_tests := filtered_tests o; test_results := rs;
  test_results_error := test_results_error o; test_results_error_kind := test_results_error_kind o;
  returncode := returncode o; oomed := oomed o; oom_kills := oom_kills o;
  timed_out := timed_out o; cpu_timed_out := cpu_timed_out o; reason := reason o;
  aborted := aborted o
|}.

Record RunResult := {
  run_ok : bool;
  outcomes : list StepOutcome;
  skipped_tags : list string;
  not_launched : list string;
  run_intentional_skips : list (string * IntentionalSkipReason);
  run_runtime_skips : list (string * string);
  result_timed_out : bool;
  result_cpu_timed_out : bool;
  result_accounting_failed : bool;
  result_max_concurrent : nat
}.
End reason.
