(* ===== verification/DagSearch.v ===== *)
(** * dagrun: the search for cycles ([rs/dagrun/src/model.rs], [io.rs])

    [graph_structure_violations] and [refuse_unusable_explains] look for cycles with the
    same iterative three-colour search over different edges.  This file holds the search,
    over any successor function, and what it computes: every list it reports is a cycle,
    and where it reports none there is none. *)
From S2P Require Import Prelude.

Inductive Colour := White | Grey | Black.

#[global] Instance Colour_eq_dec : EqDecision Colour.
Proof. solve_decision. Defined.

(** The search from one root: a stack of steps to enter and to leave, the path of steps
    entered and not left, the colours, and the cycles reported. *)
Record Search := {
  stack : list (string * bool);
  path : list string;
  colour : gmap string Colour;
  cycles : list (list string)
}.

Definition colour_of (c : gmap string Colour) (t : string) : Colour := default White (c !! t).

(** [path[position..]] *)
Fixpoint from_first (t : string) (l : list string) : option (list string) :=
  match l with
  | [] => None
  | x :: rest => if (x =? t)%string then Some l else from_first t rest
  end.

Definition blacken (c : gmap string Colour) (l : list string) : gmap string Colour :=
  foldl (fun c t => <[t := Black]> c) c l.

Section search.
Context (succ : string -> list string) (nodes : list string).

Definition enter (t : string) (rest : list (string * bool)) (s : Search) : Search :=
  let c := <[t := Grey]> (colour s) in
  let pushed := List.filter (fun d => negb (bool_decide (colour_of c d = Black))) (succ t) in
  {| stack := rev ((fun d => (d, false)) <$> pushed) ++ (t, true) :: rest;
     path := path s ++ [t]; colour := c; cycles := cycles s |}.

(** One turn of the loop, on the entry popped from the stack. *)
Definition search_step (t : string) (leaving : bool) (rest : list (string * bool)) (s : Search) : Search :=
  if leaving
  then {| stack := rest; path := removelast (path s); colour := <[t := Black]> (colour s);
          cycles := cycles s |}
  else match colour_of (colour s) t with
  | Black => {| stack := rest; path := path s; colour := colour s; cycles := cycles s |}
  | Grey =>
      let found := default (path s) (from_first t (path s)) ++ [t] in
      {| stack := []; path := path s; colour := blacken (colour s) (path s); cycles := cycles s ++ [found] |}
  | White => enter t rest s
  end.

Fixpoint search_loop (fuel : nat) (s : Search) : Search :=
  match fuel, stack s with
  | 0, _ | _, [] => s
  | S fuel, (t, leaving) :: rest => search_loop fuel (search_step t leaving rest s)
  end.

(** Every turn pops; a step is entered once, and pushes itself and what it leads to. *)
Definition search_fuel : nat := S (foldr (fun t n => S (length (succ t)) + n) 0 nodes).

Definition search_root (found : gmap string Colour * list (list string)) (root : string)
  : gmap string Colour * list (list string) :=
  let '(c, cs) := found in
  if bool_decide (colour_of c root = White) then
    let s := search_loop search_fuel {| stack := [(root, false)]; path := []; colour := c; cycles := cs |} in
    (colour s, cycles s)
  else found.

Definition all_white : gmap string Colour := list_to_map ((fun t => (t, White)) <$> nodes).

(** Of every root one cycle at most. *)
Definition find_cycles : list (list string) := (foldl search_root (all_white, []) nodes).2.

(** The search that stops at the first one. *)
Fixpoint first_cycle_from (roots : list string) (c : gmap string Colour) : option (list string) :=
  match roots with
  | [] => None
  | root :: roots =>
      match search_root (c, []) root with
      | (_, cycle :: _) => Some cycle
      | (c, []) => first_cycle_from roots c
      end
  end.

Definition first_cycle : option (list string) := first_cycle_from nodes all_white.

(** ** Cycles *)

Definition edge (t d : string) : Prop := d ∈ succ t.

Fixpoint walk (l : list string) : Prop :=
  match l with
  | a :: (b :: _) as rest => edge a b /\ walk rest
  | _ => True
  end.

(** A walk that ends where it begins, as the messages show it. *)
Definition cyclic (l : list string) : Prop := exists t mid, l = t :: mid ++ [t] /\ walk l.

Definition acyclic : Prop := forall t, ~ tc edge t t.

Lemma walk_app_r l1 l2 : walk (l1 ++ l2) -> walk l2.
Proof.
  induction l1 as [|a l1 IH]; [done|]. simpl. destruct (l1 ++ l2) as [|b l] eqn:Hl; [|naive_solver].
  by apply app_eq_nil in Hl as [_ ->].
Qed.

Lemma walk_snoc l a b : walk (l ++ [a]) -> edge a b -> walk ((l ++ [a]) ++ [b]).
Proof.
  intros Hw Hab. induction l as [|x l IH]; [by split|].
  destruct l as [|y l]; simpl in *; [naive_solver|]. destruct Hw as [? Hw]. split; [done|]. by apply IH.
Qed.

Lemma walk_tc a l b : walk (a :: l ++ [b]) -> tc edge a b.
Proof.
  revert a. induction l as [|x l IH]; intros a; simpl.
  - intros [? _]. by apply tc_once.
  - intros [Hax Hw]. eapply tc_l; [exact Hax|by apply IH].
Qed.

Lemma cyclic_tc l : cyclic l -> exists t, tc edge t t.
Proof. intros (t & mid & -> & Hw). exists t. by eapply walk_tc. Qed.

Lemma from_first_elem t l :
  t ∈ l -> exists l1 l2, from_first t l = Some (t :: l2) /\ l = l1 ++ t :: l2.
Proof.
  induction l as [|x l IH]; intros Hin; [by apply elem_of_nil in Hin|]. simpl.
  destruct (x =? t)%string eqn:Hx.
  - apply String.eqb_eq in Hx as ->. by exists [], l.
  - apply String.eqb_neq in Hx. apply elem_of_cons in Hin as [->|Hin]; [done|].
    destruct (IH Hin) as (l1 & l2 & -> & ->). by exists (x :: l1), l2.
Qed.

(** ** Colours *)

Definition visited (c : gmap string Colour) (t : string) : Prop := colour_of c t <> White.

Lemma colour_insert c t k x : colour_of (<[t := k]> c) x = if decide (t = x) then k else colour_of c x.
Proof. unfold colour_of. rewrite lookup_insert. by case_decide. Qed.

Lemma colour_blacken l c x : colour_of (blacken c l) x = if decide (x ∈ l) then Black else colour_of c x.
Proof.
  revert c. induction l as [|t l IH]; intros c.
  { rewrite decide_False; [done|]. apply not_elem_of_nil. }
  change (blacken c (t :: l)) with (blacken (<[t := Black]> c) l). rewrite IH, colour_insert.
  pose proof (elem_of_cons l x t) as He. repeat case_decide; naive_solver.
Qed.

Lemma search_step_visits t leaving rest s :
  visited (colour (search_step t leaving rest s)) t
  /\ forall x, visited (colour s) x -> visited (colour (search_step t leaving rest s)) x.
Proof.
  unfold search_step, visited. destruct leaving; simpl.
  { setoid_rewrite colour_insert. rewrite decide_True by done. split; [done|]. intros x; by case_decide. }
  destruct (colour_of (colour s) t) eqn:Ht; simpl.
  - setoid_rewrite colour_insert. rewrite decide_True by done. split; [done|]. intros x; by case_decide.
  - setoid_rewrite colour_blacken. split; [case_decide; congruence|]. intros x; by case_decide.
  - split; [congruence|done].
Qed.

(** ** Enough turns *)

Definition left_in (l : list string) (c : gmap string Colour) : nat :=
  foldr (fun t n => (if decide (colour_of c t = White) then S (length (succ t)) else 0) + n) 0 l.

Lemma left_in_bound c : left_in nodes c < search_fuel.
Proof.
  unfold search_fuel. induction nodes as [|t l IH]; simpl in *; [lia|]. case_decide; lia.
Qed.

Lemma left_in_le l c c' : (forall t, visited c t -> visited c' t) -> left_in l c' <= left_in l c.
Proof.
  intros Hv. induction l as [|t l IH]; simpl in *; [lia|].
  specialize (Hv t). unfold visited in Hv. repeat case_decide; try lia. tauto.
Qed.

Lemma left_in_enter l c c' t :
  (forall x, visited c x -> visited c' x) -> t ∈ l -> colour_of c t = White -> visited c' t ->
  left_in l c' + S (length (succ t)) <= left_in l c.
Proof.
  intros Hv Hin Ht Ht'. induction l as [|x l IH]; [by apply elem_of_nil in Hin|].
  pose proof (left_in_le l c c' Hv) as Hl. simpl in *. apply elem_of_cons in Hin as [<-|Hin].
  - unfold visited in Ht'. rewrite (decide_True (P := colour_of c t = White)), decide_False by done. lia.
  - specialize (IH Hin). specialize (Hv x). unfold visited in Hv. repeat case_decide; try lia. tauto.
Qed.

(** ** What holds of a search under way *)

(** The steps entered and not left, the last one first. *)
Fixpoint open_steps (st : list (string * bool)) : list string :=
  match st with
  | [] => []
  | (t, true) :: rest => t :: open_steps rest
  | (_, false) :: rest => open_steps rest
  end.

(** An entry was pushed by the step entered last before it. *)
Fixpoint linked (st : list (string * bool)) : Prop :=
  match st with
  | [] => True
  | (t, _) :: rest => (forall p, head (open_steps rest) = Some p -> edge p t) /\ linked rest
  end.

Record Shape (s : Search) : Prop := {
  shape_path : stack s <> [] -> path s = rev (open_steps (stack s));
  shape_grey t : colour_of (colour s) t = Grey <-> t ∈ open_steps (stack s);
  shape_nodup : NoDup (open_steps (stack s));
  shape_linked : linked (stack s);
  shape_nodes t b : (t, b) ∈ stack s -> t ∈ nodes
}.

(** A step left: so are those it leads to, and no cycle goes through it. *)
Definition settled (c : gmap string Colour) : Prop :=
  forall t, colour_of c t = Black ->
    (forall d, edge t d -> colour_of c d = Black) /\ ~ tc edge t t.

(** What an open step leads to has been left, or is above it on the stack. *)
Fixpoint covered (c : gmap string Colour) (above : gset string) (st : list (string * bool)) : Prop :=
  match st with
  | [] => True
  | (t, leaving) :: rest =>
      (leaving = true -> forall d, edge t d -> colour_of c d = Black \/ d ∈ above)
      /\ covered c ({[t]} ∪ above) rest
  end.

Record SearchInv (s : Search) : Prop := {
  inv_shape : Shape s;
  inv_cyclic : Forall cyclic (cycles s);
  inv_complete : cycles s = [] -> settled (colour s) /\ covered (colour s) ∅ (stack s)
}.

Lemma covered_mono c c' (above above' : gset string) st :
  (forall t, colour_of c t = Black -> colour_of c' t = Black) ->
  (forall t, t ∈ above -> t ∈ above' \/ colour_of c' t = Black) ->
  covered c above st -> covered c' above' st.
Proof.
  intros Hc. revert above above'. induction st as [|[t leaving] rest IH]; intros above above' Ha; simpl; [done|].
  intros [Hd Hr]. split.
  - intros Hl d He. destruct (Hd Hl d He) as [?|Hin]; [by left; apply Hc|]. destruct (Ha d Hin); auto.
  - eapply IH; [|exact Hr]. intros x [?%elem_of_singleton|Hx]%elem_of_union; [set_solver|].
    destruct (Ha x Hx); set_solver.
Qed.

Lemma linked_walk st : linked st -> walk (rev (open_steps st)).
Proof.
  induction st as [|[t []] rest IH]; simpl; [done| |by intros [_ ?]; apply IH].
  intros [He Hl]. specialize (IH Hl). destruct (open_steps rest) as [|p l]; [done|].
  simpl in *. apply walk_snoc; [done|]. by apply He.
Qed.

Lemma settled_closed c t d : settled c -> colour_of c t = Black -> rtc edge t d -> colour_of c d = Black.
Proof. intros Hs Ht Hr. induction Hr as [|t x d He Hr IH]; [done|]. apply IH. by apply (Hs t). Qed.

(** Leaving a step all of whose successors were left closes no cycle. *)
Lemma settled_leave c t :
  settled c -> colour_of c t <> Black -> (forall d, edge t d -> colour_of c d = Black) ->
  settled (<[t := Black]> c).
Proof.
  intros Hs Ht Hd x. rewrite colour_insert. case_decide as Hx.
  - subst x. intros _. split.
    + intros d He. rewrite colour_insert. case_decide; [done|]. by apply Hd.
    + intros Hc. apply Ht. inversion Hc as [? ? He|? y ? He Hr]; subst; [by apply Hd|].
      eapply settled_closed; [exact Hs|by apply Hd|by apply tc_rtc].
  - intros Hb. destruct (Hs x Hb) as [Hcl Hcyc]. split; [|done].
    intros d He. rewrite colour_insert. case_decide; [done|]. by apply Hcl.
Qed.

(** ** One turn *)

Definition to_enter (l : list string) : list (string * bool) := (fun d => (d, false)) <$> l.

Lemma open_steps_push l st : open_steps (to_enter l ++ st) = open_steps st.
Proof. by induction l. Qed.

Lemma linked_push t l rest :
  (forall d, d ∈ l -> edge t d) -> linked ((t, true) :: rest) -> linked (to_enter l ++ (t, true) :: rest).
Proof.
  intros Hl Hr. induction l as [|d l IH]; [done|].
  change (linked ((d, false) :: (to_enter l ++ (t, true) :: rest))). split.
  - rewrite open_steps_push. intros p [= <-]. apply Hl. by left.
  - apply IH. intros x Hx. apply Hl. by right.
Qed.

Lemma covered_push c above l st :
  covered c (list_to_set l ∪ above) st -> covered c above (to_enter l ++ st).
Proof.
  revert above. induction l as [|d l IH]; intros above Hc.
  - eapply covered_mono; [done| |exact Hc]. intros x Hx. left. set_solver.
  - change (covered c above ((d, false) :: (to_enter l ++ st))). split; [done|]. apply IH.
    eapply covered_mono; [done| |exact Hc]. intros x Hx. left. set_solver.
Qed.

Lemma settled_ext c c' :
  (forall t, colour_of c' t = Black <-> colour_of c t = Black) -> settled c -> settled c'.
Proof.
  intros Heq Hs t Ht%Heq. destruct (Hs t Ht) as [Hd Hc]. split; [|done]. intros d He. by apply Heq, Hd.
Qed.

Definition pushed (t : string) (c : gmap string Colour) : list string :=
  rev (List.filter (fun d => negb (bool_decide (colour_of (<[t := Grey]> c) d = Black))) (succ t)).

Lemma elem_of_pushed t c d : d ∈ pushed t c <-> edge t d /\ colour_of (<[t := Grey]> c) d <> Black.
Proof.
  unfold pushed, edge. rewrite elem_of_rev, elem_of_filter_b. case_bool_decide; naive_solver.
Qed.

Lemma enter_stack t rest s : stack (enter t rest s) = to_enter (pushed t (colour s)) ++ (t, true) :: rest.
Proof. unfold enter, to_enter, pushed. simpl. f_equal. symmetry. apply map_rev. Qed.

Context (closed : forall t d, t ∈ nodes -> edge t d -> d ∈ nodes).

Lemma inv_leave t rest s :
  stack s = (t, true) :: rest -> SearchInv s -> SearchInv (search_step t true rest s).
Proof.
  intros Hst [[Hp Hg Hnd Hl Hn] Hcyc Hcom]. rewrite Hst in *. simpl in *.
  apply NoDup_cons in Hnd as [Hnt Hnd]. split; [split|done|]; simpl.
  - intros _. rewrite Hp by done. simpl. by rewrite removelast_last.
  - intros x. rewrite colour_insert. case_decide as Hx.
    + subst x. split; [done|]. tauto.
    + rewrite Hg, elem_of_cons. split; [intros [->|?]; done|by right].
  - done.
  - apply Hl.
  - intros x b Hx. eapply Hn. right. exact Hx.
  - intros Hc0. destruct (Hcom Hc0) as [Hs [Hd Hr]]. split.
    + apply settled_leave; [done| |].
      * intros Hb. assert (colour_of (colour s) t = Grey) as Hgr by (apply Hg; left). congruence.
      * intros d He. destruct (Hd eq_refl d He) as [?|Hin]; [done|]. by apply not_elem_of_empty in Hin.
    + eapply covered_mono; [| |exact Hr].
      * intros x Hx. rewrite colour_insert. by case_decide.
      * intros x Hx. right. rewrite colour_insert. case_decide; [done|]. set_solver.
Qed.

Lemma inv_cycle t rest s :
  stack s = (t, false) :: rest -> colour_of (colour s) t = Grey -> SearchInv s ->
  SearchInv (search_step t false rest s).
Proof.
  intros Hst Ht [[Hp Hg Hnd Hl Hn] Hcyc Hcom]. unfold search_step. rewrite Ht. rewrite Hst in *. simpl in *.
  specialize (Hp ltac:(done)). assert (t ∈ path s) as Hin by (rewrite Hp, elem_of_rev; by apply Hg).
  split; [split|..]; simpl; try done.
  - intros x. rewrite colour_blacken, Hp. split; [|by intros ?%not_elem_of_nil].
    case_decide as Hx; [done|]. intros Hgx%Hg. rewrite elem_of_rev in Hx. done.
  - constructor.
  - intros x b Hx. by apply not_elem_of_nil in Hx.
  - apply Forall_app. split; [done|]. apply Forall_singleton.
    destruct (from_first_elem t (path s) Hin) as (l1 & l2 & -> & Hsplit). simpl.
    exists t, l2. split; [done|]. destruct Hl as [Hlast Hl]. apply linked_walk in Hl.
    apply (walk_app_r l1). change (walk (l1 ++ (t :: l2) ++ [t])). rewrite app_assoc, <- Hsplit, Hp.
    destruct (open_steps rest) as [|p l] eqn:Ho; [done|]. simpl in *. apply walk_snoc; [done|]. by apply Hlast.
  - intros [_ H]%app_eq_nil. done.
Qed.

Lemma inv_enter t rest s :
  stack s = (t, false) :: rest -> colour_of (colour s) t = White -> SearchInv s ->
  SearchInv (search_step t false rest s).
Proof.
  intros Hst Ht [[Hp Hg Hnd Hl Hn] Hcyc Hcom]. unfold search_step. rewrite Ht. rewrite Hst in *.
  specialize (Hp ltac:(done)). simpl in Hp, Hg, Hnd, Hl.
  assert (forall x, colour_of (<[t := Grey]> (colour s)) x = Black <-> colour_of (colour s) x = Black) as Hb.
  { intros x. rewrite colour_insert. case_decide as Hx; [|done]. subst x. by rewrite Ht. }
  split; [split| |]; rewrite ?enter_stack, ?open_steps_push.
  - intros _. simpl. by rewrite Hp.
  - intros x. simpl. rewrite colour_insert, elem_of_cons. case_decide as Hx.
    + split; [by left|done].
    + rewrite Hg. split; [by right|]. intros [->|?]; done.
  - simpl. apply NoDup_cons. split; [|done]. intros Hin%Hg. congruence.
  - apply linked_push; [|done]. by intros d [? _]%elem_of_pushed.
  - assert (t ∈ nodes) as Htn by (eapply Hn; left). intros x b [Hx|Hx]%elem_of_app.
    + unfold to_enter in Hx. apply list_elem_of_fmap in Hx as (d & [= -> ->] & Hd).
      apply elem_of_pushed in Hd as [He _]. by eapply closed.
    + apply elem_of_cons in Hx as [[= -> ->]|Hx]; [done|]. eapply Hn. right. exact Hx.
  - done.
  - intros Hc0. destruct (Hcom Hc0) as [Hs [_ Hr]]. split; [by eapply settled_ext|].
    apply covered_push. simpl. split.
    + intros _ d He. destruct (decide (colour_of (<[t := Grey]> (colour s)) d = Black)) as [|Hn']; [by left|].
      right. apply elem_of_union. left. apply elem_of_list_to_set, elem_of_pushed. by split.
    + eapply covered_mono; [| |exact Hr]; [by intros x ?%Hb|]. intros x Hx. left. set_solver.
Qed.

Lemma search_step_inv t leaving rest s :
  stack s = (t, leaving) :: rest -> SearchInv s -> SearchInv (search_step t leaving rest s).
Proof.
  intros Hst Hi. destruct leaving; [by apply inv_leave|].
  destruct (colour_of (colour s) t) eqn:Ht; [by apply inv_enter|by apply inv_cycle|].
  unfold search_step. rewrite Ht. destruct Hi as [[Hp Hg Hnd Hl Hn] Hcyc Hcom]. rewrite Hst in *.
  split; [split|..]; simpl in *; try done.
  - intros _. by apply Hp.
  - apply Hl.
  - intros x b Hx. eapply Hn. right. exact Hx.
  - intros Hc0. destruct (Hcom Hc0) as [Hs [_ Hr]]. split; [done|].
    eapply covered_mono; [done| |exact Hr]. intros x [->%elem_of_singleton|?]%elem_of_union; auto.
Qed.

(** ** The loop and the roots *)

Lemma search_step_measure t leaving rest s :
  stack s = (t, leaving) :: rest -> SearchInv s ->
  let s' := search_step t leaving rest s in
  length (stack s') + left_in nodes (colour s') < length (stack s) + left_in nodes (colour s).
Proof.
  intros Hst Hi. destruct (search_step_visits t leaving rest s) as [Hvt Hv].
  pose proof (left_in_le nodes _ _ Hv) as Hle. rewrite Hst. revert Hvt Hv Hle.
  unfold search_step. destruct leaving; simpl; [lia|].
  destruct (colour_of (colour s) t) eqn:Ht; simpl; [|lia|lia]. intros Hvt Hv _.
  assert (t ∈ nodes) as Hin by (eapply (shape_nodes _ (inv_shape _ Hi)); rewrite Hst; left).
  pose proof (left_in_enter nodes _ _ t Hv Hin Ht Hvt) as Hw. simpl in Hw.
  rewrite length_app, length_rev, length_fmap. simpl.
  pose proof (filter_length_le (fun d => negb (bool_decide (colour_of (<[t:=Grey]> (colour s)) d = Black))) (succ t)).
  lia.
Qed.

Lemma search_loop_ends fuel s :
  SearchInv s -> length (stack s) + left_in nodes (colour s) <= fuel ->
  SearchInv (search_loop fuel s) /\ stack (search_loop fuel s) = []
  /\ (forall x, visited (colour s) x -> visited (colour (search_loop fuel s)) x)
  /\ (forall t b rest, stack s = (t, b) :: rest -> visited (colour (search_loop fuel s)) t)
  /\ (cycles (search_loop fuel s) = [] -> cycles s = []).
Proof.
  revert s. induction fuel as [|fuel IH]; intros s Hi Hf; simpl.
  { destruct (stack s) eqn:Hst; [done|]. simpl in Hf. lia. }
  destruct (stack s) as [|[t leaving] rest] eqn:Hst; [done|].
  pose proof (search_step_measure t leaving rest s Hst Hi) as Hm. simpl in Hm. rewrite Hst in Hm.
  destruct (search_step_visits t leaving rest s) as [Hvt Hv].
  destruct (IH (search_step t leaving rest s)) as (Hi' & He & Hv' & _ & Hc); [by apply search_step_inv|simpl in *; lia|].
  split; [done|]. split; [done|]. split; [by auto|]. split; [intros ? ? ? [= <- _ _]; by auto|].
  intros H0%Hc. revert H0. unfold search_step. destruct leaving; [done|].
  destruct (colour_of (colour s) t); simpl; [done| |done]. by intros [? _]%app_eq_nil.
Qed.

(** Between two roots. *)
Record Between (found : gmap string Colour * list (list string)) : Prop := {
  between_grey t : colour_of found.1 t <> Grey;
  between_cyclic : Forall cyclic found.2;
  between_settled : found.2 = [] -> settled found.1
}.

Lemma search_root_between found root :
  root ∈ nodes -> Between found ->
  Between (search_root found root) /\ visited (search_root found root).1 root
  /\ (forall x, visited found.1 x -> visited (search_root found root).1 x)
  /\ ((search_root found root).2 = [] -> found.2 = []).
Proof.
  intros Hroot [Hg Hcyc Hset]. destruct found as [c cs]. unfold search_root.
  case_bool_decide as Hw; [|by split; [split|]]. cbn [fst snd] in *.
  set (s0 := {| stack := [(root, false)]; path := []; colour := c; cycles := cs |}).
  assert (SearchInv s0) as Hi0.
  { split; [split| |]; simpl; [done| | | | |done|].
    - intros t. split; [by intros ?%Hg|by intros ?%not_elem_of_nil].
    - constructor.
    - done.
    - by intros t b [= -> _]%list_elem_of_singleton.
    - intros H0. by split; [apply Hset|]. }
  destruct (search_loop_ends search_fuel s0 Hi0) as (Hi & He & Hv & Hr & Hc).
  { pose proof (left_in_bound c). simpl. lia. }
  split; [split|split; [|by split]].
  - intros t Ht%(shape_grey _ (inv_shape _ Hi)). rewrite He in Ht. by apply not_elem_of_nil in Ht.
  - apply Hi.
  - intros H0. by apply (inv_complete _ Hi).
  - by eapply Hr.
Qed.

Lemma roots_between roots found :
  roots ⊆ nodes -> Between found ->
  Between (foldl search_root found roots)
  /\ (forall x, visited found.1 x \/ x ∈ roots -> visited (foldl search_root found roots).1 x).
Proof.
  revert found. induction roots as [|r roots IH]; intros found Hsub Hb; simpl.
  { split; [done|]. intros x [?|?%not_elem_of_nil]; done. }
  destruct (search_root_between found r) as (Hb' & Hr & Hv & _); [apply Hsub; left|done|].
  destruct (IH (search_root found r)) as (Hb'' & Hv'); [|done|].
  { intros x Hx. apply Hsub. by right. }
  split; [done|]. intros x [Hx|[->|Hx]%elem_of_cons]; apply Hv'; auto.
Qed.

Lemma all_white_between : Between (all_white, []).
Proof.
  assert (forall t, colour_of all_white t = White) as Hw.
  { intros t. unfold colour_of, all_white. clear closed. induction nodes as [|x l IH]; [done|].
    cbn [fmap list_fmap list_to_map foldr]. simpl. rewrite lookup_insert. case_decide; [done|apply IH]. }
  split; simpl.
  - intros t. by rewrite Hw.
  - constructor.
  - intros _ t. by rewrite Hw.
Qed.

Lemma settled_acyclic c :
  (forall t d, edge t d -> t ∈ nodes) -> Between (c, []) -> (forall t, t ∈ nodes -> visited c t) -> acyclic.
Proof.
  intros Hout [Hg _ Hs] Hv t Hc. specialize (Hs eq_refl).
  assert (t ∈ nodes) as Hin by (inversion Hc; subst; by eapply Hout).
  specialize (Hv t Hin). specialize (Hg t). simpl in *.
  apply (Hs t); [|done]. unfold visited in Hv. destruct (colour_of c t); done.
Qed.

(** What is reported is a cycle. *)
Lemma find_cycles_cyclic : Forall cyclic find_cycles.
Proof. apply (roots_between nodes (all_white, [])); [done|apply all_white_between]. Qed.

(** None is reported exactly where there is none. *)
Lemma find_cycles_complete : (forall t d, edge t d -> t ∈ nodes) -> find_cycles = [] <-> acyclic.
Proof.
  intros Hout. destruct (roots_between nodes (all_white, []) ltac:(done) all_white_between) as [Hb Hv].
  split.
  - unfold find_cycles. intros Hn. destruct (foldl search_root (all_white, []) nodes) as [c cs].
    simpl in Hn. subst cs. eapply settled_acyclic; [done|exact Hb|]. intros t Ht. apply Hv. by right.
  - intros Ha. pose proof find_cycles_cyclic as Hc. destruct find_cycles as [|l ls]; [done|].
    apply Forall_cons in Hc as [[t Ht]%cyclic_tc _]. by destruct (Ha t).
Qed.

Lemma first_cycle_from_spec roots c :
  roots ⊆ nodes -> Between (c, []) ->
  match first_cycle_from roots c with
  | Some l => cyclic l
  | None => exists c', Between (c', []) /\ forall x, visited c x \/ x ∈ roots -> visited c' x
  end.
Proof.
  revert c. induction roots as [|r roots IH]; intros c Hsub Hb.
  { exists c. split; [done|]. intros x [?|?%not_elem_of_nil]; done. }
  destruct (search_root_between (c, []) r) as (Hb' & Hr & Hv & _); [apply Hsub; left|done|].
  cbn [first_cycle_from]. destruct (search_root (c, []) r) as [c' [|l ls]].
  - assert (roots ⊆ nodes) as Hsub' by (intros x Hx; apply Hsub; by right).
    specialize (IH c' Hsub' Hb'). destruct (first_cycle_from roots c'); [done|].
    destruct IH as (c2 & Hb2 & Hv2). exists c2. split; [done|].
    intros x [Hx|[->|Hx]%elem_of_cons]; apply Hv2; auto.
  - by destruct Hb' as [_ [? _]%Forall_cons _].
Qed.

Lemma first_cycle_exact :
  (forall t d, edge t d -> t ∈ nodes) ->
  match first_cycle with Some l => cyclic l | None => acyclic end.
Proof.
  intros Hout. pose proof (first_cycle_from_spec nodes all_white ltac:(done) all_white_between) as Hf.
  unfold first_cycle. destruct (first_cycle_from nodes all_white); [done|].
  destruct Hf as (c & Hb & Hv). eapply settled_acyclic; [done..|]. auto.
Qed.
End search.
