(* ===== verification/DagChecks.v ===== *)
(** * dagrun: what is refused before anything runs ([rs/dagrun/src/model.rs],
    [scheduler.rs], [io.rs])

    The checks of a finished configuration: the shape of the graph, what a diagnostic may
    explain, demands on undeclared resources, the write-domain policy, dependencies on
    steps that are intentionally skipped, and step budgets against the budget of the run. *)
From S2P Require Import Prelude RustStr DagSearch DagModel.

(** ** Cycles *)

(** The steps [t] waits for that the graph declares. *)
Definition resolved_deps (m : gmap string Step) (t : string) : list string :=
  match m !! t with
  | None => []
  | Some step => List.filter (fun d => bool_decide (is_Some (m !! d)))
                             (btree_elems (list_to_set (dependency_tags step)))
  end.

Definition dependency_cycles (m : gmap string Step) : list (list string) :=
  find_cycles (resolved_deps m) (btree_keys m).

Definition cycle_text (cycle : list string) : string := "dependency cycle: " +:+ join " -> " cycle.

(** The steps a diagnostic explains, in order; one named twice is pushed twice. *)
Definition explained (m : gmap string Step) (t : string) : list string :=
  match m !! t with None => [] | Some step => sort_by_key id (explains step) end.

Definition explains_problems (m : gmap string Step) (steps : list Step) : list string :=
  sort_dedup (
    step ← steps; target ← explains step;
    if (target =? tag step)%string
    then ["step " +:+ tag step +:+ ": explains itself; a step cannot diagnose its own failure"]
    else if bool_decide (is_Some (m !! target)) then []
    else ["step " +:+ tag step +:+ ": explains unknown node '" +:+ target +:+ "'"]).

Definition explains_cycle_text (cycle : list string) : string :=
  "explains cycle: " +:+ join " -> " cycle
  +:+ ". Each step in the cycle would exempt the next from eager-exit, so the whole cycle becomes uncancellable and eager-exit silently stops applying to it. `explains` must describe a one-way 'diagnoses' relation.".

Definition refuse_unusable_explains (steps : list Step) : result string unit :=
  let m := by_tag steps in
  match explains_problems m steps with
  | (_ :: _) as problems => Err (join "; " problems)
  | [] => match first_cycle (explained m) (btree_keys m) with
          | Some cycle => Err (explains_cycle_text cycle)
          | None => Ok tt
          end
  end.

(** ** The checks *)

Definition tag_counts (steps : list Step) : gmap string nat :=
  foldl (fun counts step => <[tag step := S (default 0 (counts !! tag step))]> counts) ∅ steps.

Definition duplicate_tags (steps : list Step) : list string :=
  '(t, n) ← btree_iter (tag_counts steps);
  if 1 <? n
  then ["duplicate step tag '" +:+ t +:+ "': declared " +:+ pretty n
        +:+ " times, but a tag names exactly one step -- only ONE of them would ever run and the rest would vanish silently"]
  else [].

Definition missing_deps (m : gmap string Step) (step : Step) : list string :=
  btree_elems (list_to_set (List.filter (fun d => negb (bool_decide (is_Some (m !! d)))) (deps step))).

Definition missing_dep_violations (m : gmap string Step) (steps : list Step) : list string :=
  step ← steps; d ← missing_deps m step;
  ["step " +:+ tag step +:+ ": depends on '" +:+ d +:+ "', which no step declares"].

Definition demand_violations (cfg : DagConfig) : list string :=
  step ← steps cfg;
  match skip_reason step with
  | Some _ => []
  | None =>
      '(r, n) ← btree_iter (resources (hint step));
      match resource_caps cfg !! r with
      | Some cap =>
          if decide (0 < cap /\ cap < n)%Z
          then ["step " +:+ tag step +:+ ": demands " +:+ r +:+ "=" +:+ pretty n
                +:+ " but resource_caps declares " +:+ r +:+ "=" +:+ pretty cap
                +:+ ", so it can never be admitted"]
          else []
      | None => []
      end
  end.

Definition structured_violations (steps : list Step) : list string :=
  step ← steps;
  match structured_test_results_manifest step with Err e => [e] | Ok _ => [] end.

Definition artifact_name_invalid (name : string) : bool :=
  str_is_empty name || contains name "/" || contains name (str1 bslash)
  || (name =? ".")%string || (name =? "..")%string.

Fixpoint publish_violations (step : Step) (seen : gset string) (l : list PublishedArtifact) : list string :=
  match l with
  | [] => []
  | a :: rest =>
      let name := artifact_name a in
      (if artifact_name_invalid name
       then ["step " +:+ tag step +:+ ": artifact name '" +:+ name
             +:+ "' is invalid (must be non-empty and contain no path separator)"]
       else []) ++
      (if bool_decide (name ∈ seen)
       then ["step " +:+ tag step +:+ ": publishes artifact '" +:+ name +:+ "' more than once"]
       else []) ++
      publish_violations step ({[name]} ∪ seen) rest
  end.

Definition artifact_dep_violations (m : gmap string Step) (steps : list Step) : list string :=
  step ← steps; d ← artifact_deps step;
  match m !! dep_step d with
  | None => ["step " +:+ tag step +:+ ": artifact dependency names step '" +:+ dep_step d
             +:+ "', which no step declares"]
  | Some producer =>
      if existsb (fun a => (artifact_name a =? dep_artifact d)%string) (publishes producer) then []
      else ["step " +:+ tag step +:+ ": artifact dependency names artifact '" +:+ dep_artifact d
            +:+ "' of step '" +:+ dep_step d +:+ "', which that step does not publish"]
  end.

Definition graph_structure_violations (cfg : DagConfig) : list string :=
  match duplicate_tags (steps cfg) with
  | (_ :: _) as duplicates => duplicates
  | [] =>
      let m := by_tag (steps cfg) in
      missing_dep_violations m (steps cfg) ++ (cycle_text <$> dependency_cycles m)
      ++ demand_violations cfg ++ structured_violations (steps cfg)
      ++ (step ← steps cfg; publish_violations step ∅ (publishes step))
      ++ artifact_dep_violations m (steps cfg)
  end.

Definition undeclared_resource_demands (cfg : DagConfig) : list string :=
  sort_dedup (
    step ← steps cfg;
    match skip_reason step with
    | Some _ => []
    | None => '(r, n) ← btree_iter (resources (hint step));
              if decide (0 < n)%Z
              then match resource_caps cfg !! r with
                   | None => [tag step +:+ ": " +:+ r] | Some _ => [] end
              else []
    end).

(** The check of the loader: a dependency on an intentionally skipped step. *)
Definition intentional_tags (steps : list Step) : gset string :=
  list_to_set (tag <$> List.filter (fun s => match skip_reason s with Some _ => true | None => false end) steps).

Definition skipped_dep_error (steps : list Step) : option string :=
  step ← List.find (fun step => existsb (fun d => bool_decide (d ∈ intentional_tags steps)) (deps step)) steps;
  Some ("step " +:+ tag step +:+ ": dependency on intentionally skipped node(s) "
        +:+ join ", " (List.filter (fun d => bool_decide (d ∈ intentional_tags steps)) (deps step))
        +:+ " is undefined").

(** *** Write domains *)

(** Whether a barrier is among the transitive dependencies: a worklist over declared steps. *)
Definition is_barrier (step : Step) : bool :=
  bool_decide (write_domain_guarantee step = Some ImmutableArtifactBarrier).

Fixpoint barrier_loop (fuel : nat) (m : gmap string Step) (pending : list string) (seen : gset string) : bool :=
  match fuel, pending with
  | 0, _ | _, [] => false
  | S fuel, t :: rest =>
      if decide (t ∈ seen) then barrier_loop fuel m rest seen else
      match m !! t with
      | None => barrier_loop fuel m rest ({[t]} ∪ seen)
      | Some ancestor =>
          if is_barrier ancestor then true
          else barrier_loop fuel m (rev (deps ancestor) ++ rest) ({[t]} ∪ seen)
      end
  end.

Definition barrier_fuel (m : gmap string Step) (step : Step) : nat :=
  S (length (deps step) + foldr (fun s n => length (deps s) + n) 0 (btree_values m)).

(** [pending.pop] takes the last dependency first. *)
Definition behind_barrier (m : gmap string Step) (step : Step) : bool :=
  barrier_loop (barrier_fuel m step) m (rev (deps step)) ∅.

Fixpoint duplicates_of (seen : gset string) (l : list string) : list string :=
  match l with
  | [] => []
  | x :: rest => if decide (x ∈ seen) then x :: duplicates_of seen rest
                 else duplicates_of ({[x]} ∪ seen) rest
  end.

Definition domain_violations (policy : WriteDomainPolicy) (m : gmap string Step) (step : Step) : list string :=
  let t := tag step in
  match write_domains step with
  | None =>
      (if require_explicit policy
       then [t +:+ ": missing write_domains (use [] for no protected domains)"] else []) ++
      match write_domain_guarantee step with
      | Some _ => [t +:+ ": write_domain_guarantee requires write_domains"] | None => [] end
  | Some domains =>
      match sort_dedup (duplicates_of ∅ domains) with
      | [] => [] | ds => [t +:+ ": duplicate write_domains: " +:+ join ", " ds] end ++
      match sort_dedup (List.filter (fun d => negb (bool_decide (d ∈ allowed_domains policy))) domains) with
      | [] => [] | us => [t +:+ ": unknown write_domains: " +:+ join ", " us] end ++
      match domains, write_domain_guarantee step with
      | _ :: _, None => [t +:+ ": nonempty write_domains require write_domain_guarantee"]
      | [], Some _ => [t +:+ ": write_domains=[] cannot claim a write guarantee"]
      | _, _ => []
      end ++
      (if bool_decide (write_domain_guarantee step = Some ArtifactBarrierDependent)
          && negb (behind_barrier m step)
       then [t +:+ ": artifact-barrier-dependent but no transitive dependency is an immutable-artifact-barrier"]
       else [])
  end.

Definition write_domain_violations (cfg : DagConfig) : list string :=
  let policy := write_domain_policy cfg in
  if negb (require_explicit policy) && bool_decide (allowed_domains policy = ∅) then []
  else steps cfg ≫= domain_violations policy (by_tag (steps cfg)).

(** *** Budgets *)

Definition steps_violating_run_timeout (cfg : DagConfig) (run_timeout_s : Z) : list (string * Z) :=
  if decide (run_timeout_s <= 0)%Z then [] else
  sort_by_key id (List.filter (fun tb : string * Z => (run_timeout_s <=? tb.2)%Z)
    ((fun s => (tag s, resolved_wall_timeout s (default_step_timeout cfg) (cpu_timeout_multiplier cfg)))
     <$> steps cfg)).
