(* ===== verification/DagGraph.v ===== *)
(** * dagrun: which graphs are accepted

    A specification of a well-formed graph, and that [graph_structure_violations] finds
    nothing exactly in those; which declarations of diagnostics are accepted. *)
From S2P Require Import Prelude RustStr DagSearch DagModel DagChecks.
From Stdlib Require Import String.

(** ** The specification *)

(** [t] is declared to wait for [d], for its end or for one of its artifacts. *)
Definition waits_for (steps : list Step) (t d : string) : Prop :=
  exists step, step ∈ steps /\ tag step = t
    /\ (d ∈ deps step \/ exists a, a ∈ artifact_deps step /\ dep_step a = d).

(** A step declares structured results once, of a known schema and as their owner, or not
    at all. *)
Record manifest_ok (step : Step) : Prop := {
  manifest_once ms l1 m1 l2 m2 l3 : result_manifests step = Some ms ->
    ms <> l1 ++ StructuredTestResults m1 :: l2 ++ StructuredTestResults m2 :: l3;
  manifest_schema ms m : result_manifests step = Some ms -> StructuredTestResults m ∈ ms ->
    (2 <= sr_schema m <= 5)%N;
  manifest_owner ms m : result_manifests step = Some ms -> StructuredTestResults m ∈ ms ->
    sr_owner m = tag step
}.

Definition valid_artifact_name (name : string) : Prop :=
  name <> "" /\ name <> "." /\ name <> ".." /\ contains name "/" = false /\ contains name (str1 bslash) = false.

Record WellFormed (cfg : DagConfig) : Prop := {
  wf_tags : NoDup (tag <$> steps cfg);
  wf_deps step d : step ∈ steps cfg -> d ∈ deps step -> d ∈ tag <$> steps cfg;
  wf_acyclic t : ~ tc (waits_for (steps cfg)) t t;
  wf_demands step r n cap :
    step ∈ steps cfg -> skip_reason step = None ->
    resources (hint step) !! r = Some n -> resource_caps cfg !! r = Some cap ->
    (0 < cap)%Z -> (n <= cap)%Z;
  wf_manifests step : step ∈ steps cfg -> manifest_ok step;
  wf_artifacts_unique step : step ∈ steps cfg -> NoDup (artifact_name <$> publishes step);
  wf_artifact_names step a : step ∈ steps cfg -> a ∈ publishes step -> valid_artifact_name (artifact_name a);
  wf_artifact_deps step d :
    step ∈ steps cfg -> d ∈ artifact_deps step ->
    exists producer, producer ∈ steps cfg /\ tag producer = dep_step d
                     /\ dep_artifact d ∈ artifact_name <$> publishes producer
}.

(** ** The lists of violations *)

Lemma bind_nil {A B} (f : A -> list B) (l : list A) : l ≫= f = [] <-> forall x, x ∈ l -> f x = [].
Proof.
  induction l as [|x l IH].
  { split; [by intros _ x ?%not_elem_of_nil|done]. }
  change ((x :: l) ≫= f) with (f x ++ (l ≫= f)). split.
  - intros [Hx Hl]%app_eq_nil y [->|Hy]%elem_of_cons; [done|]. by apply IH.
  - intros Hall. rewrite (Hall x) by left. apply IH. intros y Hy. apply Hall. by right.
Qed.

Lemma if_nil {A} (b : bool) (x : A) : (if b then [x] else []) = [] <-> b = false.
Proof. by destruct b. Qed.

Lemma app_nil_iff {A} (l k : list A) : l ++ k = [] <-> l = [] /\ k = [].
Proof. split; [apply app_eq_nil|by intros [-> ->]]. Qed.

Lemma tag_counts_spec (l : list Step) t :
  default 0 (tag_counts l !! t) = count_occ string_dec (tag <$> l) t.
Proof.
  unfold tag_counts. induction l as [|step l IH] using rev_ind; [done|].
  rewrite foldl_app, fmap_app, count_occ_app, <- IH. simpl. rewrite lookup_insert.
  destruct (string_dec (tag step) t) as [->|Hne]; [rewrite decide_True by done; simpl; lia|].
  rewrite decide_False by done. lia.
Qed.

Lemma duplicate_tags_nil l : duplicate_tags l = [] <-> NoDup (tag <$> l).
Proof.
  unfold duplicate_tags. rewrite bind_nil. rewrite NoDup_ListNoDup, (NoDup_count_occ string_dec). split.
  - intros Hn t. rewrite <- tag_counts_spec. destruct (tag_counts l !! t) as [n|] eqn:Ht; simpl; [|lia].
    specialize (Hn (t, n) ltac:(by apply elem_of_btree_iter)). simpl in Hn.
    destruct (1 <? n) eqn:Hlt; [done|]. apply Nat.ltb_ge in Hlt. lia.
  - intros Hc [t n] Ht%elem_of_btree_iter. specialize (Hc t). rewrite <- tag_counts_spec, Ht in Hc. simpl in Hc.
    by destruct (Nat.ltb_spec 1 n); [lia|].
Qed.

Lemma missing_dep_violations_nil m l :
  missing_dep_violations m l = [] <-> forall step d, step ∈ l -> d ∈ deps step -> is_Some (m !! d).
Proof.
  unfold missing_dep_violations. rewrite bind_nil. split.
  - intros Hn step d Hs Hd. specialize (Hn step Hs). rewrite bind_nil in Hn.
    destruct (decide (is_Some (m !! d))) as [|Hm]; [done|]. discriminate (Hn d). unfold missing_deps.
    rewrite elem_of_btree_elems, elem_of_list_to_set, elem_of_filter_b.
    split; [done|]. by rewrite bool_decide_false.
  - intros Hall step Hs. apply bind_nil. intros d Hd. unfold missing_deps in Hd.
    rewrite elem_of_btree_elems, elem_of_list_to_set, elem_of_filter_b in Hd. destruct Hd as [Hd Hm].
    rewrite bool_decide_true in Hm by (by eapply Hall). done.
Qed.

Lemma demand_violations_nil cfg :
  demand_violations cfg = [] <->
  forall step r n cap, step ∈ steps cfg -> skip_reason step = None ->
    resources (hint step) !! r = Some n -> resource_caps cfg !! r = Some cap -> (0 < cap)%Z -> (n <= cap)%Z.
Proof.
  unfold demand_violations. rewrite bind_nil. split.
  - intros Hn step r n cap Hs Hk Hr Hc Hp. specialize (Hn step Hs). simpl in Hn. rewrite Hk, bind_nil in Hn.
    specialize (Hn (r, n) ltac:(by apply elem_of_btree_iter)). simpl in Hn. rewrite Hc in Hn.
    case_decide; [done|]. lia.
  - intros Hall step Hs. destruct (skip_reason step) eqn:Hk; [done|]. apply bind_nil.
    intros [r n] Hr%elem_of_btree_iter. destruct (resource_caps cfg !! r) as [cap|] eqn:Hc; [|done].
    case_decide as Hd; [|done]. specialize (Hall step r n cap Hs Hk Hr Hc). lia.
Qed.

Definition structured_of (m : ResultManifest) : option StructuredTestResultsManifest :=
  match m with StructuredTestResults m => Some m | _ => None end.

Lemma structured_of_Some m x : structured_of m = Some x <-> m = StructuredTestResults x.
Proof. destruct m; naive_solver. Qed.

Lemma omap_two {A B} (f : A -> option B) l b1 b2 bs : omap f l = b1 :: b2 :: bs ->
  exists l1 x1 l2 x2 l3, l = l1 ++ x1 :: l2 ++ x2 :: l3 /\ f x1 = Some b1 /\ f x2 = Some b2.
Proof.
  intros Hl. assert (Hone : forall l b bs, omap f l = b :: bs ->
    exists l1 x l2, l = l1 ++ x :: l2 /\ f x = Some b /\ omap f l2 = bs).
  { clear. intros l. induction l as [|x l IH]; intros b bs; cbn; [done|].
    destruct (f x) as [y|] eqn:Hx; [intros [= <- <-]; by exists [], x, l|].
    intros (l1 & x' & l2 & -> & ? & ?)%IH. by exists (x :: l1), x', l2. }
  apply Hone in Hl as (l1 & x1 & rest & -> & H1 & (l2 & x2 & l3 & -> & H2 & _)%Hone).
  by exists l1, x1, l2, x2, l3.
Qed.

Lemma manifest_exact step : is_ok (structured_test_results_manifest step) = true <-> manifest_ok step.
Proof.
  unfold structured_test_results_manifest. fold structured_of.
  set (ms := default [] (result_manifests step)).
  assert (Hin : forall m, m ∈ omap structured_of ms <->
    exists ms', result_manifests step = Some ms' /\ StructuredTestResults m ∈ ms').
  { intros m. rewrite list_elem_of_omap. setoid_rewrite structured_of_Some. unfold ms.
    destruct (result_manifests step); cbn; [naive_solver|]. setoid_rewrite elem_of_nil. naive_solver. }
  destruct (omap structured_of ms) as [|m [|m' rest]] eqn:Hs.
  - split; [|done]. intros _. setoid_rewrite elem_of_nil in Hin. split; [|naive_solver..].
    intros ms' l1 m1 l2 m2 l3 Hms ->. apply (Hin m1). exists (l1 ++ StructuredTestResults m1 :: l2 ++ StructuredTestResults m2 :: l3).
    split; [done|]. apply elem_of_app. right. left.
  - setoid_rewrite list_elem_of_singleton in Hin.
    assert (Hschema : (sr_schema m ∈ [RETAINED_RESULTS_SCHEMA; CURRENT_SCHEMA; CLASSIFIED_RESULTS_SCHEMA;
      DIAGNOSTIC_RESULTS_SCHEMA; SKIPPED_RESULTS_SCHEMA]) <-> (2 <= sr_schema m <= 5)%N).
    { rewrite !elem_of_cons, elem_of_nil. unfold RETAINED_RESULTS_SCHEMA, CURRENT_SCHEMA,
        CLASSIFIED_RESULTS_SCHEMA, DIAGNOSTIC_RESULTS_SCHEMA, SKIPPED_RESULTS_SCHEMA. lia. }
    assert (Hok : is_ok (if negb (bool_decide (sr_schema m ∈ [RETAINED_RESULTS_SCHEMA; CURRENT_SCHEMA;
        CLASSIFIED_RESULTS_SCHEMA; DIAGNOSTIC_RESULTS_SCHEMA; SKIPPED_RESULTS_SCHEMA]))
      then Err "" else if negb (sr_owner m =? tag step)%string then Err "" else Ok (Some m)) = true
      <-> (2 <= sr_schema m <= 5)%N /\ sr_owner m = tag step).
    { rewrite <- Hschema. case_bool_decide; cbn; [|naive_solver].
      destruct (String.eqb_spec (sr_owner m) (tag step)); cbn; naive_solver. }
    etrans; [etrans; [|exact Hok]|].
    { case_bool_decide; cbn; [|done]. by destruct (sr_owner m =? tag step)%string. }
    split.
    + intros [Hsc Ho]. split; [|intros ms' m' Hms Hm; assert (m' = m) as -> by (apply Hin; by exists ms'); done..].
      intros ms' l1 m1 l2 m2 l3 Hms ->. unfold ms in Hs. rewrite Hms in Hs. cbn [default from_option id] in Hs.
      apply (f_equal (@Datatypes.length _)) in Hs. rewrite omap_app in Hs. cbn in Hs. rewrite omap_app in Hs. cbn in Hs.
      rewrite !length_app in Hs. cbn in Hs. rewrite length_app in Hs. cbn in Hs. lia.
    + intros [_ Hsc Ho]. destruct (proj1 (Hin m) eq_refl) as (ms' & Hms & Hm). split; [by eapply Hsc|by eapply Ho].
  - split; [done|]. intros [Hno _ _]. exfalso.
    destruct (omap_two _ _ _ _ _ Hs) as (l1 & x1 & l2 & x2 & l3 & Hl & H1%structured_of_Some & H2%structured_of_Some).
    subst x1 x2. unfold ms in Hl. destruct (result_manifests step) as [ms'|] eqn:Hms; cbn in Hl;
      [by eapply Hno|by destruct l1].
Qed.

Lemma structured_violations_nil l :
  structured_violations l = [] <->
  forall step, step ∈ l -> manifest_ok step.
Proof.
  unfold structured_violations. rewrite bind_nil. setoid_rewrite <- manifest_exact.
  split; intros Hn step Hs; specialize (Hn step Hs); by destruct (structured_test_results_manifest step).
Qed.

Lemma artifact_name_invalid_spec name : artifact_name_invalid name = false <-> valid_artifact_name name.
Proof.
  unfold artifact_name_invalid, valid_artifact_name. rewrite !orb_false_iff, !String.eqb_neq.
  assert (str_is_empty name = false <-> name <> "") as -> by (by destruct name). tauto.
Qed.

Lemma publish_violations_nil step seen l :
  publish_violations step seen l = [] <->
  (forall a, a ∈ l -> valid_artifact_name (artifact_name a) /\ artifact_name a ∉ seen)
  /\ NoDup (artifact_name <$> l).
Proof.
  revert seen. induction l as [|a l IH]; intros seen; simpl.
  { split; [|done]. intros _. split; [by intros a ?%not_elem_of_nil|constructor]. }
  rewrite !app_nil_iff, !if_nil, artifact_name_invalid_spec, bool_decide_eq_false, IH, NoDup_cons.
  rewrite list_elem_of_fmap. split.
  - intros (Hv & Ha & Hl & Hnd). split; [|split; [|done]].
    + intros b [->|Hb]%elem_of_cons; [done|]. destruct (Hl b Hb). set_solver.
    + intros (b & Heq & Hb). destruct (Hl b Hb) as [_ Hn]. rewrite <- Heq in Hn. set_solver.
  - intros (Hl & Hna & Hnd). destruct (Hl a) as [Hv Ha]; [left|]. split; [done|]. split; [done|].
    split; [|done]. intros b Hb. destruct (Hl b) as [Hvb Hnb]; [by right|]. split; [done|].
    intros [Heq%elem_of_singleton|?]%elem_of_union; [|done]. apply Hna. by exists b.
Qed.

Lemma artifact_dep_violations_nil m l :
  artifact_dep_violations m l = [] <->
  forall step d, step ∈ l -> d ∈ artifact_deps step ->
    exists producer, m !! dep_step d = Some producer /\ dep_artifact d ∈ artifact_name <$> publishes producer.
Proof.
  unfold artifact_dep_violations. rewrite bind_nil. split.
  - intros Hn step d Hs Hd. specialize (Hn step Hs). rewrite bind_nil in Hn. specialize (Hn d Hd). simpl in Hn.
    destruct (m !! dep_step d) as [producer|]; [|done]. exists producer. split; [done|].
    destruct (existsb _ _) eqn:He; [|done]. apply existsb_elem in He as (a & Ha & Heq).
    apply String.eqb_eq in Heq as <-. by apply list_elem_of_fmap_2.
  - intros Hall step Hs. apply bind_nil. intros d Hd. destruct (Hall step d Hs Hd) as (producer & -> & Ha).
    apply list_elem_of_fmap in Ha as (a & Heq & Ha).
    rewrite (proj2 (existsb_elem _ _)); [done|]. exists a. split; [done|]. by apply String.eqb_eq.
Qed.

(** ** Cycles of the graph *)

Lemma tc_incl {A} (R R' : relation A) x y : (forall a b, R a b -> R' a b) -> tc R x y -> tc R' x y.
Proof. intros Hsub. induction 1; [by apply tc_once, Hsub|]. eapply tc_l; [by apply Hsub|done]. Qed.

Lemma resolved_edge m t d :
  edge (resolved_deps m) t d <->
  exists step, m !! t = Some step /\ d ∈ dependency_tags step /\ is_Some (m !! d).
Proof.
  unfold edge, resolved_deps. destruct (m !! t) as [step|]; [|split; [by intros ?%not_elem_of_nil|naive_solver]].
  rewrite elem_of_filter_b, elem_of_btree_elems, elem_of_list_to_set, bool_decide_eq_true. naive_solver.
Qed.

Lemma dependency_cycles_exact m :
  Forall (cyclic (resolved_deps m)) (dependency_cycles m)
  /\ (dependency_cycles m = [] <-> acyclic (resolved_deps m)).
Proof.
  assert (forall t d, edge (resolved_deps m) t d -> t ∈ btree_keys m /\ d ∈ btree_keys m) as Hin.
  { intros t d (step & Ht & _ & Hd)%resolved_edge. rewrite !elem_of_btree_keys, Ht. by split. }
  split; [apply find_cycles_cyclic|apply find_cycles_complete]; 
    intros; by edestruct Hin.
Qed.

Lemma elem_of_dependency_tags step d :
  d ∈ dependency_tags step <-> d ∈ deps step \/ exists a, a ∈ artifact_deps step /\ dep_step a = d.
Proof. unfold dependency_tags. rewrite elem_of_app, list_elem_of_fmap. naive_solver. Qed.

Section declared.
Context (l : list Step) (Hnd : NoDup (tag <$> l)).
Context (Hdecl : forall step d, step ∈ l -> d ∈ dependency_tags step -> is_Some (by_tag l !! d)).

Lemma resolved_waits_for t d : edge (resolved_deps (by_tag l)) t d <-> waits_for l t d.
Proof.
  rewrite resolved_edge. unfold waits_for. setoid_rewrite <- elem_of_dependency_tags. split.
  - intros (step & Ht & Hd & _). apply by_tag_exact in Ht as [? ?]; [|done]. by exists step.
  - intros (step & Hs & Ht & Hd). exists step. split; [by apply by_tag_exact|]. split; [done|by eapply Hdecl].
Qed.

Lemma no_cycles_exact : dependency_cycles (by_tag l) = [] <-> forall t, ~ tc (waits_for l) t t.
Proof.
  rewrite (proj2 (dependency_cycles_exact (by_tag l))). unfold acyclic.
  split; intros Ha t Ht; apply (Ha t); (eapply tc_incl; [|exact Ht]); intros; by apply resolved_waits_for.
Qed.
End declared.

Lemma structure_violations_nil cfg :
  graph_structure_violations cfg = [] <->
  NoDup (tag <$> steps cfg)
  /\ missing_dep_violations (by_tag (steps cfg)) (steps cfg) = []
  /\ dependency_cycles (by_tag (steps cfg)) = []
  /\ demand_violations cfg = [] /\ structured_violations (steps cfg) = []
  /\ (forall step, step ∈ steps cfg -> publish_violations step ∅ (publishes step) = [])
  /\ artifact_dep_violations (by_tag (steps cfg)) (steps cfg) = [].
Proof.
  unfold graph_structure_violations. rewrite <- duplicate_tags_nil, <- bind_nil.
  destruct (duplicate_tags (steps cfg)) as [|x l]; [|split; [intros H; discriminate H|intros [H _]; discriminate H]].
  rewrite !app_nil_iff.
  assert (cycle_text <$> dependency_cycles (by_tag (steps cfg)) = [] <-> dependency_cycles (by_tag (steps cfg)) = []) as ->
    by (by destruct (dependency_cycles _)).
  tauto.
Qed.

(** Nothing is refused exactly in the well-formed graphs. *)
Lemma well_formed_exact cfg : graph_structure_violations cfg = [] <-> WellFormed cfg.
Proof.
  rewrite structure_violations_nil, missing_dep_violations_nil, demand_violations_nil,
    structured_violations_nil, artifact_dep_violations_nil.
  setoid_rewrite publish_violations_nil. split.
  - intros (Hnd & Hmiss & Hcyc & Hdem & Hman & Hpub & Hart).
    assert (forall step d, step ∈ steps cfg -> d ∈ dependency_tags step -> is_Some (by_tag (steps cfg) !! d)) as Hdecl.
    { intros step d Hs [Hd|(a & Ha & <-)]%elem_of_dependency_tags; [by eapply Hmiss|].
      destruct (Hart step a Hs Ha) as (producer & -> & _). done. }
    split; try done.
    + intros step d Hs Hd. apply by_tag_dom. by eapply Hmiss.
    + by apply no_cycles_exact.
    + intros step Hs. apply Hpub. done.
    + intros step a Hs Ha. destruct (Hpub step Hs) as [Hv _]. by apply Hv.
    + intros step d Hs Hd. destruct (Hart step d Hs Hd) as (producer & Hp & Ha).
      apply by_tag_exact in Hp as [? ?]; [|done]. by exists producer.
  - intros [Hnd Hdeps Hcyc Hdem Hman Huniq Hname Hart].
    assert (forall step d, step ∈ steps cfg -> d ∈ artifact_deps step -> exists producer,
      by_tag (steps cfg) !! dep_step d = Some producer /\ dep_artifact d ∈ artifact_name <$> publishes producer) as Hart'.
    { intros step d Hs Hd. destruct (Hart step d Hs Hd) as (producer & Hp & Ht & Ha). exists producer.
      split; [|done]. by apply by_tag_exact. }
    split; [done|]. split; [intros step d Hs Hd; apply by_tag_dom; by eapply Hdeps|].
    split; [|split; [done|split; [done|split; [|done]]]].
    + apply no_cycles_exact; [done| |done].
      intros step d Hs [Hd|(a & Ha & <-)]%elem_of_dependency_tags; [apply by_tag_dom; by eapply Hdeps|].
      destruct (Hart' step a Hs Ha) as (producer & -> & _). done.
    + intros step Hs. split; [|by apply Huniq]. intros a Ha. split; [by eapply Hname|apply not_elem_of_empty].
Qed.

(** ** What a diagnostic may explain *)

Lemma explained_edge m t d : edge (explained m) t d <-> exists step, m !! t = Some step /\ d ∈ explains step.
Proof.
  unfold edge, explained. destruct (m !! t) as [step|]; [|split; [by intros ?%not_elem_of_nil|naive_solver]].
  rewrite elem_of_sort_by_key. naive_solver.
Qed.

Definition explains_rel (l : list Step) (t d : string) : Prop :=
  exists step, step ∈ l /\ tag step = t /\ d ∈ explains step.

Lemma sort_dedup_nil (l : list string) : sort_dedup l = [] <-> l = [].
Proof.
  split; [|by intros ->]. intros Hl. destruct l as [|x l]; [done|].
  assert (x ∈ sort_dedup (x :: l)) as Hx by (apply elem_of_sort_dedup; left).
  rewrite Hl in Hx. by apply not_elem_of_nil in Hx.
Qed.

Lemma explains_problems_nil m l :
  explains_problems m l = [] <->
  forall step d, step ∈ l -> d ∈ explains step -> d <> tag step /\ is_Some (m !! d).
Proof.
  unfold explains_problems. rewrite sort_dedup_nil, bind_nil. setoid_rewrite bind_nil. split.
  - intros Hn step d Hs Hd. specialize (Hn step Hs d Hd). simpl in Hn.
    destruct (d =? tag step)%string eqn:He; [done|]. case_bool_decide; [|done].
    split; [by apply String.eqb_neq|done].
  - intros Hall step Hs d Hd. destruct (Hall step d Hs Hd) as [Hne Hm].
    apply String.eqb_neq in Hne. simpl. by rewrite Hne, bool_decide_true.
Qed.

(** The declarations accepted: of declared steps, and one-way. *)
Lemma explains_exact l :
  NoDup (tag <$> l) ->
  refuse_unusable_explains l = Ok tt <->
  (forall step d, step ∈ l -> d ∈ explains step -> d ∈ tag <$> l)
  /\ forall t, ~ tc (explains_rel l) t t.
Proof.
  intros Hnd. unfold refuse_unusable_explains.
  assert (forall t d, edge (explained (by_tag l)) t d <-> explains_rel l t d) as Hedge.
  { intros t d. rewrite explained_edge. unfold explains_rel. setoid_rewrite by_tag_exact; [|done]. naive_solver. }
  destruct (explains_problems (by_tag l) l) as [|x ps] eqn:Hp0;
    [pose proof (proj1 (explains_problems_nil _ _) Hp0) as Hp|rename Hp0 into Hp].
  2: { split; [done|]. intros [Hdecl Hac]. exfalso.
       assert (explains_problems (by_tag l) l = []) as Hp'; [|by rewrite Hp' in Hp].
       apply explains_problems_nil. intros step d Hs Hd. split; [|by apply by_tag_dom, (Hdecl step)].
       intros ->. apply (Hac (tag step)), tc_once. by exists step. }
  assert (forall step d, step ∈ l -> d ∈ explains step -> d ∈ tag <$> l) as Hdecl.
  { intros step d Hs Hd. apply by_tag_dom. by apply (Hp step). }
  pose proof (first_cycle_exact (explained (by_tag l)) (btree_keys (by_tag l))) as Hf.
  assert (forall t d, edge (explained (by_tag l)) t d -> t ∈ btree_keys (by_tag l) /\ d ∈ btree_keys (by_tag l)) as Hin.
  { intros t d (step & Hs & <- & Hd)%Hedge. rewrite !elem_of_btree_keys, !by_tag_dom.
    split; [by apply list_elem_of_fmap_2|by eapply Hdecl]. }
  specialize (Hf ltac:(intros; by edestruct Hin) ltac:(intros; by edestruct Hin)).
  destruct (first_cycle _ _) as [c|].
  - split; [done|]. intros [_ Hac]. apply cyclic_tc in Hf as [t Ht]. exfalso. apply (Hac t).
    eapply tc_incl; [|exact Ht]. intros a b. apply Hedge.
  - split; [|done]. intros _. split; [done|]. intros t Ht. apply (Hf t).
    eapply tc_incl; [|exact Ht]. intros a b. apply Hedge.
Qed.
