(* ===== verification/DagSchedule.v ===== *)
(** * dagrun: the scheduler's shared state and its operations ([rs/dagrun/src/scheduler.rs])

    [Shared] is what the scheduler's one lock guards; every definition on it below is what
    one critical section, or a function called inside one, does to it.  A [HashMap] is a
    [gmap] and a [HashSet] a [gset].  [history] is no field of the code: it records, latest
    first, what the critical sections made visible to the rest of the world. *)
From S2P Require Import Prelude RustStr External DagModel DagOutcome.

(** ** Shared state *)

(** The first cancellation decision for a step. *)
Inductive AbortCause := PeerFailure | RunBudget | RunCpuAccountingLost.

#[global] Instance AbortCause_eq_dec : EqDecision AbortCause.
Proof. solve_decision. Defined.

Definition AbortCause_reason (cause : AbortCause) : string :=
  match cause with
  | PeerFailure => ABORTED_BY_PEER_FAILURE_REASON
  | RunBudget => ABORTED_BY_RUN_BUDGET_REASON
  | RunCpuAccountingLost =>
      "ABORTED (required whole-run CPU accounting was lost; CPU budget exhaustion was not established)"
  end.

(** What a capacity lookup found, and one refused condition. *)
Inductive Observed := Absent | Present (value : string).

Definition Observed_display (o : Observed) : string :=
  match o with Absent => "<absent>" | Present v => v end.

Record Refusal := { site : string; required : string; observed : Observed; context : list string }.

Definition Refusal_display (r : Refusal) : string :=
  site r +:+ ": requires " +:+ required r +:+ ", but got " +:+ Observed_display (observed r)
  +:+ match context r with [] => "" | c => " (declared: " +:+ join ", " c +:+ ")" end.

(** A process group to kill: step, process id, ownership nonce. *)
Definition victim : Type := string * N * option string.

Inductive happening :=
| Launched (t : string)                  (** the step was admitted *)
| Published (t : string) (verdict : bool) (** its terminal outcome entered [done] *)
| Discarded (t producer : string)        (** its passing outcome was taken back *)
| Signalled (t artifact : string)        (** its ready signal was observed *)
| Reaped (cut : list victim)             (** process groups were killed *)
| Starved (stuck : list string) (refusals : list Refusal).
                                         (** a terminal starve was reported *)

Record Shared := mkShared {
  done : gmap string StepOutcome;
  running : gset string;
  running_pids : gmap string N;
  aborted_by : gmap string AbortCause;
  resource_avail : gmap string Z;
  failed : bool;
  stop : bool;
  running_nonces : gmap string string;
  explains_index : gmap string (list string);
  fail_fast_family_index : gmap string string;
  failed_families : gset string;
  run_timed_out : bool;
  run_cpu_timed_out : bool;
  run_cpu_accounting_failed : bool;
  active_processes : nat;
  max_concurrent_steps : nat;
  counted_processes : gset string;
  retired : gset string;
  artifact_signalled : gset (string * string);
  artifact_warned : gset (string * string);
  history : list happening
}.

(** Assignments to one field, or to fields that the code assigns together. *)
Definition on_done (f : gmap string StepOutcome -> gmap string StepOutcome) (sh : Shared) : Shared :=
  mkShared (f (done sh)) (running sh) (running_pids sh) (aborted_by sh) (resource_avail sh) (failed
    sh) (stop sh) (running_nonces sh) (explains_index sh) (fail_fast_family_index sh)
    (failed_families sh) (run_timed_out sh) (run_cpu_timed_out sh) (run_cpu_accounting_failed sh)
    (active_processes sh) (max_concurrent_steps sh) (counted_processes sh) (retired sh)
    (artifact_signalled sh) (artifact_warned sh) (history sh).
Definition on_running (f : gset string -> gset string) (sh : Shared) : Shared :=
  mkShared (done sh) (f (running sh)) (running_pids sh) (aborted_by sh) (resource_avail sh) (failed
    sh) (stop sh) (running_nonces sh) (explains_index sh) (fail_fast_family_index sh)
    (failed_families sh) (run_timed_out sh) (run_cpu_timed_out sh) (run_cpu_accounting_failed sh)
    (active_processes sh) (max_concurrent_steps sh) (counted_processes sh) (retired sh)
    (artifact_signalled sh) (artifact_warned sh) (history sh).
Definition on_running_pids (f : gmap string N -> gmap string N) (sh : Shared) : Shared :=
  mkShared (done sh) (running sh) (f (running_pids sh)) (aborted_by sh) (resource_avail sh) (failed
    sh) (stop sh) (running_nonces sh) (explains_index sh) (fail_fast_family_index sh)
    (failed_families sh) (run_timed_out sh) (run_cpu_timed_out sh) (run_cpu_accounting_failed sh)
    (active_processes sh) (max_concurrent_steps sh) (counted_processes sh) (retired sh)
    (artifact_signalled sh) (artifact_warned sh) (history sh).
Definition on_aborted_by (f : gmap string AbortCause -> gmap string AbortCause) (sh : Shared) : Shared :=
  mkShared (done sh) (running sh) (running_pids sh) (f (aborted_by sh)) (resource_avail sh) (failed
    sh) (stop sh) (running_nonces sh) (explains_index sh) (fail_fast_family_index sh)
    (failed_families sh) (run_timed_out sh) (run_cpu_timed_out sh) (run_cpu_accounting_failed sh)
    (active_processes sh) (max_concurrent_steps sh) (counted_processes sh) (retired sh)
    (artifact_signalled sh) (artifact_warned sh) (history sh).
Definition on_resource_avail (f : gmap string Z -> gmap string Z) (sh : Shared) : Shared :=
  mkShared (done sh) (running sh) (running_pids sh) (aborted_by sh) (f (resource_avail sh)) (failed
    sh) (stop sh) (running_nonces sh) (explains_index sh) (fail_fast_family_index sh)
    (failed_families sh) (run_timed_out sh) (run_cpu_timed_out sh) (run_cpu_accounting_failed sh)
    (active_processes sh) (max_concurrent_steps sh) (counted_processes sh) (retired sh)
    (artifact_signalled sh) (artifact_warned sh) (history sh).
Definition on_running_nonces (f : gmap string string -> gmap string string) (sh : Shared) : Shared :=
  mkShared (done sh) (running sh) (running_pids sh) (aborted_by sh) (resource_avail sh) (failed sh)
    (stop sh) (f (running_nonces sh)) (explains_index sh) (fail_fast_family_index sh)
    (failed_families sh) (run_timed_out sh) (run_cpu_timed_out sh) (run_cpu_accounting_failed sh)
    (active_processes sh) (max_concurrent_steps sh) (counted_processes sh) (retired sh)
    (artifact_signalled sh) (artifact_warned sh) (history sh).
Definition on_failed_families (f : gset string -> gset string) (sh : Shared) : Shared :=
  mkShared (done sh) (running sh) (running_pids sh) (aborted_by sh) (resource_avail sh) (failed sh)
    (stop sh) (running_nonces sh) (explains_index sh) (fail_fast_family_index sh) (f
    (failed_families sh)) (run_timed_out sh) (run_cpu_timed_out sh) (run_cpu_accounting_failed sh)
    (active_processes sh) (max_concurrent_steps sh) (counted_processes sh) (retired sh)
    (artifact_signalled sh) (artifact_warned sh) (history sh).
Definition on_retired (f : gset string -> gset string) (sh : Shared) : Shared :=
  mkShared (done sh) (running sh) (running_pids sh) (aborted_by sh) (resource_avail sh) (failed sh)
    (stop sh) (running_nonces sh) (explains_index sh) (fail_fast_family_index sh) (failed_families
    sh) (run_timed_out sh) (run_cpu_timed_out sh) (run_cpu_accounting_failed sh) (active_processes
    sh) (max_concurrent_steps sh) (counted_processes sh) (f (retired sh)) (artifact_signalled sh)
    (artifact_warned sh) (history sh).
Definition on_artifact_signalled (f : gset (string * string) -> gset (string * string)) (sh : Shared) : Shared :=
  mkShared (done sh) (running sh) (running_pids sh) (aborted_by sh) (resource_avail sh) (failed sh)
    (stop sh) (running_nonces sh) (explains_index sh) (fail_fast_family_index sh) (failed_families
    sh) (run_timed_out sh) (run_cpu_timed_out sh) (run_cpu_accounting_failed sh) (active_processes
    sh) (max_concurrent_steps sh) (counted_processes sh) (retired sh) (f (artifact_signalled sh))
    (artifact_warned sh) (history sh).
Definition on_artifact_warned (f : gset (string * string) -> gset (string * string)) (sh : Shared) : Shared :=
  mkShared (done sh) (running sh) (running_pids sh) (aborted_by sh) (resource_avail sh) (failed sh)
    (stop sh) (running_nonces sh) (explains_index sh) (fail_fast_family_index sh) (failed_families
    sh) (run_timed_out sh) (run_cpu_timed_out sh) (run_cpu_accounting_failed sh) (active_processes
    sh) (max_concurrent_steps sh) (counted_processes sh) (retired sh) (artifact_signalled sh) (f
    (artifact_warned sh)) (history sh).
Definition set_failed (sh : Shared) : Shared :=
  mkShared (done sh) (running sh) (running_pids sh) (aborted_by sh) (resource_avail sh) true (stop
    sh) (running_nonces sh) (explains_index sh) (fail_fast_family_index sh) (failed_families sh)
    (run_timed_out sh) (run_cpu_timed_out sh) (run_cpu_accounting_failed sh) (active_processes sh)
    (max_concurrent_steps sh) (counted_processes sh) (retired sh) (artifact_signalled sh)
    (artifact_warned sh) (history sh).
Definition set_stop (sh : Shared) : Shared :=
  mkShared (done sh) (running sh) (running_pids sh) (aborted_by sh) (resource_avail sh) (failed sh)
    true (running_nonces sh) (explains_index sh) (fail_fast_family_index sh) (failed_families sh)
    (run_timed_out sh) (run_cpu_timed_out sh) (run_cpu_accounting_failed sh) (active_processes sh)
    (max_concurrent_steps sh) (counted_processes sh) (retired sh) (artifact_signalled sh)
    (artifact_warned sh) (history sh).
Definition on_budget (cpu lost : bool) (sh : Shared) : Shared :=
  mkShared (done sh) (running sh) (running_pids sh) (aborted_by sh) (resource_avail sh) (failed sh)
    (stop sh) (running_nonces sh) (explains_index sh) (fail_fast_family_index sh) (failed_families
    sh) true cpu lost (active_processes sh) (max_concurrent_steps sh) (counted_processes sh)
    (retired sh) (artifact_signalled sh) (artifact_warned sh) (history sh).
Definition count_process (t : string) (sh : Shared) : Shared :=
  mkShared (done sh) (running sh) (running_pids sh) (aborted_by sh) (resource_avail sh) (failed sh)
    (stop sh) (running_nonces sh) (explains_index sh) (fail_fast_family_index sh) (failed_families
    sh) (run_timed_out sh) (run_cpu_timed_out sh) (run_cpu_accounting_failed sh) (S
    (active_processes sh)) (Nat.max (max_concurrent_steps sh) (S (active_processes sh))) ({[t]} ∪
    counted_processes sh) (retired sh) (artifact_signalled sh) (artifact_warned sh) (history sh).
Definition discount_process (t : string) (sh : Shared) : Shared :=
  mkShared (done sh) (running sh) (running_pids sh) (aborted_by sh) (resource_avail sh) (failed sh)
    (stop sh) (running_nonces sh) (explains_index sh) (fail_fast_family_index sh) (failed_families
    sh) (run_timed_out sh) (run_cpu_timed_out sh) (run_cpu_accounting_failed sh) (Nat.pred
    (active_processes sh)) (max_concurrent_steps sh) (counted_processes sh ∖ {[t]}) (retired sh)
    (artifact_signalled sh) (artifact_warned sh) (history sh).
Definition happen (h : happening) (sh : Shared) : Shared :=
  mkShared (done sh) (running sh) (running_pids sh) (aborted_by sh) (resource_avail sh) (failed sh)
    (stop sh) (running_nonces sh) (explains_index sh) (fail_fast_family_index sh) (failed_families
    sh) (run_timed_out sh) (run_cpu_timed_out sh) (run_cpu_accounting_failed sh) (active_processes
    sh) (max_concurrent_steps sh) (counted_processes sh) (retired sh) (artifact_signalled sh)
    (artifact_warned sh) (h :: history sh).

(** [(producer, artifact)] enters the signalled set; only a new pair is announced. *)
Definition signal (t artifact : string) (sh : Shared) : Shared :=
  if decide ((t, artifact) ∈ artifact_signalled sh) then sh
  else happen (Signalled t artifact) (on_artifact_signalled ({[(t, artifact)]} ∪.) sh).

(** [entry(tag).or_insert(cause)]: the first cause wins. *)
Definition mark_aborted (cause : AbortCause) (sh : Shared) (t : string) : Shared :=
  on_aborted_by (entry_or_insert t cause) sh.

(** [done.insert] with [running.remove], always in one critical section. *)
Definition publish (t : string) (o : StepOutcome) (sh : Shared) : Shared :=
  happen (Published t (ok o)) (on_running (.∖ {[t]}) (on_done <[t := o]> sh)).

(** ** Readiness *)

Definition succeeded (sh : Shared) (t : string) : bool :=
  match done sh !! t with Some o => ok o | None => false end.
Definition is_done (sh : Shared) (t : string) : bool := bool_decide (is_Some (done sh !! t)).
Definition has_failed (sh : Shared) (t : string) : bool :=
  match done sh !! t with Some o => negb (ok o) | None => false end.

Definition deps_ok (sh : Shared) (step : Step) : bool := forallb (succeeded sh) (deps step).
Definition deps_known (sh : Shared) (step : Step) : bool := forallb (is_done sh) (deps step).
Definition artifact_deps_ok (sh : Shared) (step : Step) : bool :=
  forallb (fun d => bool_decide ((dep_step d, dep_artifact d) ∈ artifact_signalled sh))
          (artifact_deps step).

(** ** Resources *)

Definition capacity (avail : gmap string Z) (r : string) : Z := default 0%Z (avail !! r).

Definition res_free (sh : Shared) (step : Step) : bool :=
  forallb (fun '(r, n) => (n <=? capacity (resource_avail sh) r)%Z) (btree_iter (resources (hint step))).

Definition charge (sign : Z) (resources : gmap string Z) (avail : gmap string Z) : gmap string Z :=
  foldl (fun avail '(r, n) => <[r := (capacity avail r + sign * n)%Z]> avail) avail (btree_iter resources).

Definition acquire (sh : Shared) (step : Step) : Shared :=
  on_resource_avail (charge (-1) (resources (hint step))) sh.
Definition release (sh : Shared) (step : Step) : Shared :=
  on_resource_avail (charge 1 (resources (hint step))) sh.

Definition ungrantable_resources `{!StrDebug} (avail : gmap string Z)
    (steps : gmap string Step) (tags : list string) : list Refusal :=
  let declared := sort_by_key id ((fun '(k, v) => k +:+ "=" +:+ pretty v) <$> btree_iter avail) in
  t ← tags;
  match steps !! t with
  | None => []
  | Some step =>
      '(r, n) ← btree_iter (resources (hint step));
      let cap := avail !! r in
      if decide (default 0 cap < n)%Z
      then [{| site := "step " +:+ debug_str t; required := r +:+ "=" +:+ pretty n;
               observed := match cap with None => Absent | Some c => Present (r +:+ "=" +:+ pretty c) end;
               context := declared |}]
      else []
  end.

(** ** Processes *)

Definition uncount_process (sh : Shared) (t : string) : Shared :=
  if decide (t ∈ counted_processes sh) then discount_process t sh else sh.

(** [spawn_and_register_with], where the spawn succeeded: whether the step had been aborted. *)
Definition spawn_and_register (t nonce : string) (pid : N) (sh : Shared) : Shared * bool :=
  let sh := on_running_nonces <[t := nonce]> (on_running_pids <[t := pid]> sh) in
  let sh := count_process t sh in
  (sh, bool_decide (is_Some (aborted_by sh !! t))).

(** [try_wait_and_uncount_with], [exited]: the child's exit was observed. *)
Definition try_wait_and_uncount (t : string) (exited : bool) (sh : Shared) : Shared :=
  if exited then uncount_process sh t else sh.

(** Hands back a step's accounting; the flag says whether this call did. *)
Definition retire (sh : Shared) (step : Step) : Shared * bool :=
  let t := tag step in
  if decide (t ∈ retired sh) then (sh, false) else
  let sh := on_retired ({[t]} ∪.) sh in
  let sh := on_running_nonces (delete t) (on_running_pids (delete t) sh) in
  (release (uncount_process sh t) step, true).

Definition victim_of (sh : Shared) (t : string) (pid : N) : victim := (t, pid, running_nonces sh !! t).

(** The children that [p] selects, as [reap_many] takes them. *)
Definition victims (p : string -> bool) (sh : Shared) : list victim :=
  (fun '(t, pid) => victim_of sh t pid) <$>
    List.filter (fun kv : string * N => p kv.1) (btree_iter (running_pids sh)).

Definition reap_many (cut : list victim) (sh : Shared) : Shared := happen (Reaped cut) sh.

(** ** Failing fast *)

Definition genuinely_failed (sh : Shared) : gset string :=
  dom (filter (fun kv : string * StepOutcome => negb (ok kv.2) && negb (aborted kv.2)) (done sh)).

Definition is_exempt_from_eager_exit (sh : Shared) (t : string) (failed : gset string) : bool :=
  match explains_index sh !! t with
  | Some explains => existsb (fun s => bool_decide (s ∈ failed)) explains
  | None => false
  end.

Definition blocked_by_fail_fast (sh : Shared) (t : string) : bool :=
  stop sh || match fail_fast_family_index sh !! t with
             | Some family => bool_decide (family ∈ failed_families sh)
             | None => false
             end.

Definition fail_scope (failed_tag : string) (sh : Shared) : Shared :=
  match fail_fast_family_index sh !! failed_tag with
  | Some family => on_failed_families ({[family]} ∪.) sh
  | None => set_stop sh
  end.

(** The running steps that a failure cuts short. *)
Definition cut_short (sh : Shared) : gset string :=
  let failed := genuinely_failed sh in
  filter (fun t => blocked_by_fail_fast sh t && negb (is_exempt_from_eager_exit sh t failed)) (running sh).

Definition trip_fail_fast (keep_going : bool) (failed_tag : string) (sh : Shared) : Shared :=
  let sh := set_failed sh in
  if keep_going then sh else
  let sh := fail_scope failed_tag sh in
  let cut := cut_short sh in
  let sh := foldl (mark_aborted PeerFailure) sh (elements cut) in
  reap_many (victims (fun t => bool_decide (t ∈ cut)) sh) sh.

(** A failed producer invalidates what was released on its signal. *)
Definition discard (producer : string) (sh : Shared) (dep : string) : Shared :=
  match done sh !! dep with
  | Some o =>
      if ok o
      then happen (Discarded dep producer) (on_done <[dep := with_verdict false
             ("ARTIFACT PRODUCER FAILED: producer " +:+ producer
              +:+ " failed after signalling; dependent result discarded") o]> sh)
      else sh
  | None => sh
  end.

Definition cancel_dependent (producer : string) (st : Shared * list victim) (dep : string)
  : Shared * list victim :=
  let '(sh, cut) := st in
  let sh := discard producer sh dep in
  if decide (dep ∈ running sh) then
    let sh := mark_aborted PeerFailure sh dep in
    (sh, cut ++ option_list (victim_of sh dep <$> running_pids sh !! dep))
  else (sh, cut).

Definition cancel_artifact_dependents (producer : string) (dependents : list string) (sh : Shared) : Shared :=
  let '(sh, cut) := foldl (cancel_dependent producer) (sh, []) dependents in
  reap_many cut sh.

Definition signalled_artifacts (listing : option (list string)) (step : Step) : gset string :=
  let declared : gset string := list_to_set (artifact_name <$> publishes step) in
  filter (fun name => name ∈ declared) (list_to_set (default [] listing)).

(** ** A supervisor that died *)

Record SupervisorFailure := { sf_reason : string; sf_summary : string; sf_elapsed_s : f64 }.

Definition supervisor_outcome (t : string) (failure : SupervisorFailure) : StepOutcome := {|
  o_tag := t; ok := false; duration_s := sf_elapsed_s failure; summary := sf_summary failure;
  executed_tests := None; filtered_tests := None; test_results := None;
  test_results_error := None; test_results_error_kind := None; returncode := None;
  oomed := false; oom_kills := 0; timed_out := false; cpu_timed_out := false;
  reason := sf_reason failure; aborted := false
|}.

(** The flag says whether this call published the outcome. *)
Definition publish_supervisor_failure (keep_going : bool) (step : Step) (failure : SupervisorFailure)
    (sh : Shared) : Shared * bool :=
  let t := tag step in
  if is_done sh t then (sh, false) else
  let sh := (retire sh step).1 in
  let sh := publish t (supervisor_outcome t failure) sh in
  (trip_fail_fast keep_going t sh, true).

Definition crashed (detail : string) (elapsed_s : f64) : SupervisorFailure := {|
  sf_reason := "SUPERVISOR CRASHED (" +:+ detail +:+ ")"; sf_summary := detail; sf_elapsed_s := elapsed_s
|}.

Definition vanished : SupervisorFailure := {|
  sf_reason := "SUPERVISOR VANISHED (its thread ended without publishing an outcome and without a recorded panic; the step's real result is UNKNOWN)";
  sf_summary := "supervisor thread ended without publishing an outcome";
  sf_elapsed_s := SpecFloat.S754_zero false
|}.
