(* ===== verification/DagRunner.v ===== *)
(** * dagrun: a runner and the decisions of its loop ([rs/dagrun/src/scheduler.rs],
    [resource_caps.rs])

    What a run is set up with ([Runner]), the client of the resource state shared with
    other scheduler processes ([Coordinator]), and the body of the scheduler loop from the
    budget check to the steps it hands to threads.  What one pass of the loop observes of
    the outside world is a [Sight]. *)
From S2P Require Import Prelude RustStr External DagModel DagOutcome DagSchedule.

(** ** The runner *)

Record RunCpuBudget := { timeout_s : Z; started_usage_usec : Z }.

Definition limit_usec (budget : RunCpuBudget) : Z := i64_clamp (timeout_s budget * 1000000).

Record Runner := {
  r_steps : gmap string Step;
  order : list string;
  intentional_skips : list (string * IntentionalSkipReason);
  runtime_skips : list (string * string);
  max_steps : Z;
  keep_going : bool;
  r_default_cpu_timeout : Z;
  r_default_timeout : Z;
  r_multiplier : f64;
  r_platform : string;
  run_timeout_s : option Z;
  run_cpu_budget : option RunCpuBudget;
  artifact_dir : bool;
  artifact_dependents : gmap string (list string)
}.

(** The dispatch order: priority, then estimated duration, both descending and stable. *)
Definition dispatch_cmp (a b : Step) : comparison :=
  match Z.compare (priority b) (priority a) with
  | Eq => default Eq (SpecFloat.SFcompare (est_duration_s (hint b)) (est_duration_s (hint a)))
  | c => c
  end.

Fixpoint insert_dispatch (x : Step) (l : list Step) : list Step :=
  match l with
  | [] => [x]
  | y :: rest => match dispatch_cmp x y with
                 | Gt => y :: insert_dispatch x rest
                 | _ => x :: l
                 end
  end.

Definition dispatch_order (steps : gmap string Step) (configured : list Step) : list string :=
  tag <$> foldr insert_dispatch [] (omap (fun step => steps !! tag step) configured).

Definition depend_on_artifact (dependents : gmap string (list string)) (edge : string * string)
  : gmap string (list string) :=
  let '(producer, dependent) := edge in
  <[producer := default [] (dependents !! producer) ++ [dependent]]> dependents.

(** [Runner::new]; [cfg] is the configuration after [cap_config_max_cpus]. *)
Definition Runner_new (cfg : DagConfig) (max_steps' : Z) (keep_going' : bool)
    (order_override : option (list string)) (run_timeout : option Z) (budget : option RunCpuBudget)
    (runtime : list (string * string)) : Runner := {|
  r_steps := by_tag (steps cfg);
  order := match order_override with
           | Some o => o
           | None => dispatch_order (by_tag (steps cfg)) (steps cfg)
           end;
  intentional_skips := omap (fun step => reason ← skip_reason step; Some (tag step, reason)) (steps cfg);
  runtime_skips := runtime;
  max_steps := Z.max max_steps' 1;
  keep_going := keep_going';
  r_default_cpu_timeout := default_step_cpu_timeout cfg;
  r_default_timeout := default_step_timeout cfg;
  r_multiplier := cpu_timeout_multiplier cfg;
  r_platform := cpu_timeout_platform cfg;
  run_timeout_s := run_timeout;
  run_cpu_budget := budget;
  artifact_dir := existsb (fun step => match publishes step with [] => false | _ => true end) (steps cfg);
  artifact_dependents := foldl depend_on_artifact ∅
    (step ← steps cfg; d ← artifact_deps step; [(dep_step d, tag step)])
|}.

(** The [Shared] that [Runner::new] builds. *)
Definition Shared_new (cfg : DagConfig) : Shared := {|
  done := ∅; running := ∅; running_pids := ∅; aborted_by := ∅;
  resource_avail := resource_caps cfg; failed := false; stop := false; running_nonces := ∅;
  explains_index := explains <$> by_tag (steps cfg);
  fail_fast_family_index := omap fail_fast_family (by_tag (steps cfg));
  failed_families := ∅; run_timed_out := false; run_cpu_timed_out := false;
  run_cpu_accounting_failed := false; active_processes := 0; max_concurrent_steps := 0;
  counted_processes := ∅; retired := ∅; artifact_signalled := ∅; artifact_warned := ∅;
  history := []
|}.

(** ** What a pass observes *)

Record Sight := {
  deadline_passed : bool;
  cpu_usage : option Z;                       (** the outer cgroup's [usage_usec] *)
  listing : string -> option (list string);   (** a producer's ready directory *)
  ledger_create : string -> result string unit;
  ledger_grant : string -> result string bool
}.

(** ** Cross-process resources *)

Record Claim := { demand : Z; claim_capacity : Z }.
Record Coordinator := { capacities : gmap string Z; pending : gmap string (gmap string Claim) }.

Inductive Acquire := Waiting (newly_queued : bool) | Granted.

Section coordinator.
Context `{!StrDebug}.

Definition claim_for (capacities : gmap string Z) (name : string) (demand : Z)
  : result string (string * Claim) :=
  match capacities !! name with
  | None => Err ("resource " +:+ debug_str name +:+ " has demand " +:+ pretty demand
                 +:+ " but no declared resource_caps entry")
  | Some capacity =>
      if decide (demand < 0 \/ capacity <= 0 \/ capacity < demand)%Z
      then Err ("resource " +:+ debug_str name +:+ " has demand " +:+ pretty demand
                +:+ " and capacity " +:+ pretty capacity
                +:+ "; both must be positive and demand must not exceed capacity")
      else Ok (name, {| demand := demand; claim_capacity := capacity |})
  end.

Definition claims_for (demands capacities : gmap string Z) : result string (gmap string Claim) :=
  claims ← collect_results (fun '(name, demand) => claim_for capacities name demand)
    (List.filter (fun kv : string * Z => negb (bool_decide (kv.2 = 0%Z))) (btree_iter demands));
  Ok (map_collect claims).

(** What this run's waiting requests already claim of a resource. *)
Definition waiting_demand (pending : gmap string (gmap string Claim)) (name : string) : Z :=
  foldr Z.add 0%Z (omap (fun claims : gmap string Claim => demand <$> claims !! name)
                        (btree_values pending)).

Definition overbooked (c : Coordinator) (demands : gmap string Z) : bool :=
  existsb (fun '(name, demand) =>
    bool_decide (default 0 (capacities c !! name) < waiting_demand (pending c) name + demand)%Z)
    (btree_iter demands).

Definition with_pending (p : gmap string (gmap string Claim)) (c : Coordinator) : Coordinator :=
  {| capacities := capacities c; pending := p |}.

(** [Reservation::create] checks the claims before it touches the ledger. *)
Definition enqueue_request (c : Coordinator) (create : result string unit) (t : string)
    (demands : gmap string Z) : result string Coordinator :=
  claims ← claims_for demands (capacities c);
  _ ← create;
  Ok (with_pending (<[t := claims]> (pending c)) c).

Definition ask_grant (c : Coordinator) (newly_queued : bool) (grant : result string bool) (t : string)
  : Coordinator * result string Acquire :=
  match grant with
  | Err e => (c, Err e)
  | Ok false => (c, Ok (Waiting newly_queued))
  | Ok true => (with_pending (delete t (pending c)) c, Ok Granted)
  end.

Definition try_acquire (c : Coordinator) (sight : Sight) (t : string) (demands : gmap string Z)
  : Coordinator * result string Acquire :=
  if decide (demands = ∅) then (c, Err "try_acquire called for a step with no resource demand")
  else match pending c !! t with
  | Some _ => ask_grant c false (ledger_grant sight t) t
  | None =>
      if overbooked c demands then (c, Ok (Waiting false))
      else match enqueue_request c (ledger_create sight t) t demands with
           | Err e => (c, Err e)
           | Ok c => ask_grant c true (ledger_grant sight t) t
           end
  end.

Definition has_pending (c : Coordinator) : bool := negb (bool_decide (pending c = ∅)).
Definition clear_pending (c : Coordinator) : Coordinator := with_pending ∅ c.
Definition retain_pending (eligible : gset string) (c : Coordinator) : Coordinator :=
  with_pending (filter (fun kv => kv.1 ∈ eligible) (pending c)) c.

(** ** The pass *)

Section pass.
Context (R : Runner).

Definition runtime_skipped (t : string) : bool :=
  existsb (fun kv : string * string => (kv.1 =? t)%string) (runtime_skips R).

(** *** Steps that can no longer run *)

Definition dep_dead (sh : Shared) (sk : gset string) (d : string) : bool :=
  has_failed sh d || runtime_skipped d || bool_decide (d ∈ sk).
Definition artifact_dead (sh : Shared) (sk : gset string) (d : ArtifactDep) : bool :=
  has_failed sh (dep_step d) || bool_decide (dep_step d ∈ sk).

Definition has_skip_reason (step : Step) : bool :=
  match skip_reason step with Some _ => true | None => false end.

Definition skip_step (sh : Shared) (sk : gset string) (entry : string * Step) : gset string :=
  let '(t, step) := entry in
  if bool_decide (t ∈ sk) || is_done sh t || bool_decide (t ∈ running sh)
     || has_skip_reason step || runtime_skipped t then sk
  else if existsb (dep_dead sh sk) (deps step) then {[t]} ∪ sk
  else if existsb (artifact_dead sh sk) (artifact_deps step) then {[t]} ∪ sk
  else sk.

(** One round over the steps; the rounds go on while one adds a step. *)
Definition skip_round (sh : Shared) (sk : gset string) : gset string :=
  foldl (skip_step sh) sk (map_to_list (r_steps R)).

Fixpoint skip_rounds (fuel : nat) (sh : Shared) (sk : gset string) : gset string :=
  match fuel with
  | 0 => sk
  | S fuel => let sk' := skip_round sh sk in
              if decide (sk' = sk) then sk else skip_rounds fuel sh sk'
  end.

Definition skipped (sh : Shared) : gset string := skip_rounds (S (size (r_steps R))) sh ∅.

(** *** Run budgets *)

Definition wall_breach (sight : Sight) : bool :=
  match run_timeout_s R with Some s => (0 <? s)%Z && deadline_passed sight | None => false end.

Definition cpu_breach (sight : Sight) : bool :=
  match run_cpu_budget R, cpu_usage sight with
  | Some budget, Some current =>
      (started_usage_usec budget <=? current)%Z
      && (limit_usec budget <=? current - started_usage_usec budget)%Z
  | _, _ => false
  end.

Definition cpu_accounting_lost (sight : Sight) : bool :=
  match run_cpu_budget R, cpu_usage sight with
  | None, _ => false
  | Some _, None => true
  | Some budget, Some current => (current <? started_usage_usec budget)%Z
  end.

Definition enforce_budgets (sight : Sight) (sh : Shared) : Shared :=
  if (wall_breach sight || cpu_breach sight || cpu_accounting_lost sight) && negb (run_timed_out sh)
  then
    let sh := on_budget (cpu_breach sight) (cpu_accounting_lost sight) sh in
    let sh := set_stop (set_failed sh) in
    let cut := victims (fun _ => true) sh in
    let cause := if cpu_accounting_lost sight then RunCpuAccountingLost else RunBudget in
    let sh := foldl (mark_aborted cause) sh (elements (running sh)) in
    reap_many cut sh
  else sh.

(** *** Ready signals *)

Definition scan_entry (t : string) (step : Step) (sh : Shared) (name : string) : Shared :=
  if contains name ".tmp" then sh
  else if existsb (fun a => (artifact_name a =? name)%string) (publishes step) then signal t name sh
  else on_artifact_warned ({[(t, name)]} ∪.) sh.

Definition scan_step (sight : Sight) (sh : Shared) (entry : string * Step) : Shared :=
  let '(t, step) := entry in
  match publishes step, listing sight t with
  | _ :: _, Some names => foldl (scan_entry t step) sh names
  | _, _ => sh
  end.

Definition scan_artifacts (sight : Sight) (sh : Shared) : Shared :=
  if artifact_dir R then foldl (scan_step sight) sh (map_to_list (r_steps R)) else sh.

(** *** Who may start *)

Definition failed_now (sh : Shared) : gset string :=
  if stop sh || negb (bool_decide (failed_families sh = ∅)) then genuinely_failed sh else ∅.

Definition startable_after_stop (sh : Shared) (t : string) : bool :=
  negb (blocked_by_fail_fast sh t) || is_exempt_from_eager_exit sh t (failed_now sh).

(** Not done, running or skipped. *)
Definition outstanding (sh : Shared) (sk : gset string) (t : string) (step : Step) : bool :=
  negb (is_done sh t) && negb (bool_decide (t ∈ running sh)) && negb (bool_decide (t ∈ sk))
  && negb (has_skip_reason step).

Definition ready (sh : Shared) (sk : gset string) (t : string) (step : Step) : bool :=
  outstanding sh sk t step && startable_after_stop sh t
  && deps_known sh step && deps_ok sh step && artifact_deps_ok sh step.

Definition on_step (p : string -> Step -> bool) (t : string) : bool :=
  match r_steps R !! t with Some step => p t step | None => false end.

Definition eligible (sh : Shared) (sk : gset string) : gset string :=
  list_to_set (List.filter (on_step (ready sh sk)) (order R)).

Definition pending_diagnostics (sh : Shared) (sk : gset string) : bool :=
  existsb (fun t => blocked_by_fail_fast sh t && on_step (ready sh sk) t) (order R).

Definition blocked_by_family (sh : Shared) (sk : gset string) : gset string :=
  list_to_set (List.filter (on_step (fun t step => outstanding sh sk t step
    && blocked_by_fail_fast sh t && negb (startable_after_stop sh t))) (order R)).

Definition accounted (sh : Shared) (sk : gset string) : nat :=
  size (done sh) + size sk + length (intentional_skips R) + length (runtime_skips R)
  + size (blocked_by_family sh sk).

Definition loop_over (sh : Shared) (sk : gset string) : bool :=
  bool_decide (running sh = ∅) && negb (pending_diagnostics sh sk)
  && (stop sh || (size (r_steps R) <=? accounted sh sk)).

(** *** Admission *)

Record Admission := {
  a_shared : Shared;
  a_coordinator : option Coordinator;
  launchable : list (Step * result string unit)
}.

(** Whether the shared resource state lets the step start: [None] while it waits, an error
    for its supervisor to report. *)
Definition reserve (sight : Sight) (coord : option Coordinator) (t : string) (step : Step)
  : option Coordinator * option (result string unit) :=
  match coord with
  | Some c =>
      if existsb (fun kv : string * Z => (0 <? kv.2)%Z) (btree_iter (resources (hint step))) then
        match try_acquire c sight t (resources (hint step)) with
        | (c, Ok (Waiting _)) => (Some c, None)
        | (c, Ok Granted) => (Some c, Some (Ok tt))
        | (c, Err e) => (Some c, Some (Err e))
        end
      else (Some c, Some (Ok tt))
  | None => (None, Some (Ok tt))
  end.

Definition admit_step (t : string) (step : Step) (reservation : result string unit) (a : Admission) : Admission :=
  let sh := on_running ({[t]} ∪.) (a_shared a) in
  {| a_shared := happen (Launched t) (acquire sh step); a_coordinator := a_coordinator a;
     launchable := launchable a ++ [(step, reservation)] |}.

Definition admissible (sh : Shared) (sk : gset string) (t : string) (step : Step) : bool :=
  ready sh sk t step && negb (runtime_skipped t).

Fixpoint launch_loop (sight : Sight) (sk : gset string) (tags : list string) (a : Admission) : Admission :=
  match tags with
  | [] => a
  | t :: rest =>
      match r_steps R !! t with
      | None => a
      | Some step =>
          let sh := a_shared a in
          if negb (admissible sh sk t step) then launch_loop sight sk rest a
          else if (max_steps R <=? Z.of_nat (size (running sh)))%Z then a
          else if negb (res_free sh step) then launch_loop sight sk rest a
          else
            let '(coord, answer) := reserve sight (a_coordinator a) t step in
            let a := {| a_shared := sh; a_coordinator := coord; launchable := launchable a |} in
            match answer with
            | None => launch_loop sight sk rest a
            | Some reservation => launch_loop sight sk rest (admit_step t step reservation a)
            end
      end
  end.

(** *** The pass *)

Inductive verdict := LoopEnds | LoopPanics | LoopLaunches (l : list (Step * result string unit)).

Definition waiting_on_shared_resource (coord : option Coordinator) : bool :=
  match coord with Some c => has_pending c | None => false end.

Definition starved (sh : Shared) (coord : option Coordinator) (accounted : nat)
    (launchable : list (Step * result string unit)) : bool :=
  match launchable with [] => true | _ => false end
  && bool_decide (running sh = ∅)
  && (0 <? size (r_steps R) - accounted) && negb (waiting_on_shared_resource coord).

(** The steps a terminal starve names. *)
Definition stuck (sh : Shared) (sk blocked : gset string) : list string :=
  sort_by_key id (List.filter (on_step (fun t step =>
    negb (is_done sh t) && negb (bool_decide (t ∈ sk)) && negb (has_skip_reason step)
    && negb (bool_decide (t ∈ blocked)))) (order R)).

Definition abandon_run (sh : Shared) (stuck : list string) : Shared :=
  set_stop (set_failed (happen
    (Starved stuck (ungrantable_resources (resource_avail sh) (r_steps R) stuck)) sh)).

(** One pass from the budget check to the launches.  [self.steps[tag]] panics for a tag of
    the order that no step has. *)
Definition pass (sight : Sight) (sh : Shared) (coord : option Coordinator)
  : Shared * option Coordinator * verdict :=
  let sh := scan_artifacts sight (enforce_budgets sight sh) in
  if negb (forallb (fun t => bool_decide (is_Some (r_steps R !! t))) (order R))
  then (sh, coord, LoopPanics) else
  let sk := skipped sh in
  let coord := retain_pending (eligible sh sk) <$> coord in
  if loop_over sh sk then (sh, clear_pending <$> coord, LoopEnds) else
  let blocked := blocked_by_family sh sk in
  let a := launch_loop sight sk (order R)
             {| a_shared := sh; a_coordinator := coord; launchable := [] |} in
  let known := size (done (a_shared a)) + size sk + length (intentional_skips R)
               + length (runtime_skips R) + size blocked in
  if starved (a_shared a) (a_coordinator a) known (launchable a)
  then (abandon_run (a_shared a) (stuck (a_shared a) sk blocked), a_coordinator a, LoopEnds)
  else (a_shared a, a_coordinator a, LoopLaunches (launchable a)).

End pass.
End coordinator.
