(* ===== verification/DagRun.v ===== *)
(** * dagrun: a run as a system of threads ([rs/dagrun/src/scheduler.rs])

    The main thread of [Runner::run] and one supervisor thread ([run_step] under its guard)
    per launched step, as a state and the events that change it.  A critical section is one
    event; what the operating system answers, and when a thread moves, is the event's own
    data.  [exec] says what an event does, [None] where it cannot happen. *)
From S2P Require Import Prelude RustStr External DagModel DagOutcome DagSchedule DagRunner.

Section run.
Context `{!StrDebug} (f64_display : f64 -> string).

(** ** The last critical section of a supervisor *)

(** What a supervisor knows of its child when it takes the lock for the last time. *)
Record Report := {
  rp_elapsed : f64;
  rp_summary : string;
  rp_returncode : option Z;
  rp_timed_out : bool;
  rp_cpu_timed_out : bool;
  rp_oom_kills : Z;
  rp_actionable_oom_events : Z;
  rp_counts : CapturedTestResults;
  rp_results_error : option (string * TestResultsErrorKind);
  rp_listing : option (list string)
}.

Definition rp_oomed (rp : Report) : bool := (0 <? rp_actionable_oom_events rp)%Z.

(** The local [ok] of [run_step]. *)
Definition child_ok (rp : Report) : bool :=
  bool_decide (rp_returncode rp = Some 0%Z) && negb (rp_timed_out rp) && negb (rp_cpu_timed_out rp)
  && negb (rp_oomed rp) && is_none (rp_results_error rp)
  && negb (test_results_report_failure (rp_counts rp)).

Section supervisor.
Context (R : Runner).

Definition refused_outcome (t error : string) : StepOutcome :=
  failed_outcome f64_display t (SpecFloat.S754_zero false)
    ("resource_caps shared-state refusal: " +:+ error) None false 0 false 0 false 0 0
    (r_multiplier R) (r_platform R) false None None.

Definition cpu_canonical (step : Step) : Z := canonical_cpu_timeout step (r_default_cpu_timeout R).
Definition cpu_budget (step : Step) : Z := scale_cpu_timeout (cpu_canonical step) (r_multiplier R).
Definition wall_budget (step : Step) : Z :=
  resolved_wall_timeout step (r_default_timeout R) (r_multiplier R).

Definition spawn_failed_outcome (step : Step) (error : string) (elapsed : f64) : StepOutcome :=
  failed_outcome f64_display (tag step) elapsed ("spawn failed: " +:+ error) None false 0 false
    (wall_budget step) false (cpu_budget step) (cpu_canonical step)
    (r_multiplier R) (r_platform R) false None None.

(** The outcome before the required results and the ready signals are judged. *)
Definition first_outcome (step : Step) (rp : Report) (cause : option AbortCause) : StepOutcome :=
  let counts := rp_counts rp in
  match cause with
  | Some cause =>
      let o := aborted_outcome (tag step) (rp_elapsed rp) (rp_summary rp) (rp_returncode rp)
                 (executed counts) (filtered counts) (bool_decide (cause = RunBudget)) in
      with_verdict (ok o) (AbortCause_reason cause) o
  | None =>
      if child_ok rp
      then passed (tag step) (rp_elapsed rp) (rp_summary rp) (rp_returncode rp)
             (executed counts) (filtered counts)
      else failed_outcome f64_display (tag step) (rp_elapsed rp) (rp_summary rp) (rp_returncode rp)
             (rp_oomed rp) (rp_oom_kills rp) (rp_timed_out rp) (wall_budget step)
             (rp_cpu_timed_out rp) (cpu_budget step) (cpu_canonical step)
             (r_multiplier R) (r_platform R) false (executed counts) (filtered counts)
  end.

Definition is_some {A} (o : option A) : bool := negb (is_none o).

Definition judge_results (rp : Report) (cause : option AbortCause) (o : StepOutcome) : StepOutcome :=
  with_test_results (results (rp_counts rp))
    match rp_results_error rp with
    | Some (error, kind) =>
        let outer_clean := bool_decide (rp_returncode rp = Some 0%Z) && negb (rp_timed_out rp)
          && negb (rp_cpu_timed_out rp) && negb (rp_oomed rp) && is_none cause in
        with_results_error (Some error) (Some kind)
          (with_verdict false (if outer_clean then "STRUCTURED TEST RESULTS REFUSED: " +:+ error
                               else reason o) o)
    | None =>
        match structured_test_failure_reason (rp_counts rp) (rp_returncode rp) (rp_timed_out rp)
                (rp_cpu_timed_out rp) (rp_actionable_oom_events rp) (is_some cause) with
        | Some why => with_verdict (ok o) why o
        | None => o
        end
    end.

(** The declared artifacts a producer that succeeded has not signalled. *)
Definition missing_signals (step : Step) (found : gset string) : list string :=
  List.filter (fun name => negb (bool_decide (name ∈ found))) (artifact_name <$> publishes step).

Definition publishes_any (step : Step) : bool := match publishes step with [] => false | _ => true end.

(** The outcome after the ready signals are judged, and whether one was missing. *)
Definition judge_signals (step : Step) (rp : Report) (cause : option AbortCause) (o : StepOutcome)
  : StepOutcome * bool :=
  if publishes_any step && is_none cause && artifact_dir R && ok o then
    match missing_signals step (signalled_artifacts (rp_listing rp) step) with
    | [] => (o, false)
    | missing => (with_verdict false ("ARTIFACT NOT SIGNALLED: step " +:+ tag step
                    +:+ " exited 0 without signalling declared artifact(s): "
                    +:+ join ", " missing) o, true)
    end
  else (o, false).

(** The final scan of the producer's ready directory. *)
Definition final_scan (step : Step) (rp : Report) (cause : option AbortCause) (sh : Shared) : Shared :=
  if publishes_any step && is_none cause && artifact_dir R
  then foldl (fun sh name => signal (tag step) name sh) sh
         (btree_elems (signalled_artifacts (rp_listing rp) step))
  else sh.

Definition outcome_of (step : Step) (rp : Report) (cause : option AbortCause) : StepOutcome * bool :=
  judge_signals step rp cause (judge_results rp cause (first_outcome step rp cause)).

Definition finish (step : Step) (rp : Report) (sh : Shared) : Shared :=
  let t := tag step in
  let sh := (retire sh step).1 in
  let cause := aborted_by sh !! t in
  let '(o, missing_signal_failure) := outcome_of step rp cause in
  let sh := publish t o (final_scan step rp cause sh) in
  let sh := if is_none cause && negb (ok o) && publishes_any step
            then cancel_artifact_dependents t (default [] (artifact_dependents R !! t)) sh
            else sh in
  if is_none cause && (negb (child_ok rp) || missing_signal_failure)
  then trip_fail_fast (keep_going R) t sh else sh.

(** A supervisor that never had a child to watch: refused its resources, or the spawn failed. *)
Definition fail_unstarted (step : Step) (o : StepOutcome) (sh : Shared) : Shared :=
  let sh := (retire sh step).1 in
  trip_fail_fast (keep_going R) (tag step) (publish (tag step) o sh).

End supervisor.

(** ** Threads *)

(** Where a supervisor thread stands: its reservation was refused; it has no child yet; it
    watches its child; it panicked after [retire] in its last critical section; it has
    published its outcome and reports it; it has ended. *)
Inductive phase := Refused (error : string) | Starting | Supervising | Unwinding | Reporting | Finished.

#[global] Instance phase_eq_dec : EqDecision phase.
Proof. solve_decision. Defined.

(** Where the main thread stands in its loop. *)
Inductive position :=
| Sweeping | Recovering (vanished : list Step) | Passing
| Launching (l : list (Step * result string unit)) | Joining | Ended | Panicked.

Record System := {
  shared : Shared;
  coordinator : option Coordinator;
  handles : list (Step * phase);
  at_ : position
}.

Inductive event :=
| Main (sight : Sight)                              (** the main thread moves *)
| Refuse (i : nat)                                  (** supervisor [i] reports its refusal *)
| Spawn (i : nat) (pid : N) (nonce : string)        (** it starts its child *)
| SpawnFail (i : nat) (error : string) (elapsed : f64)
| Observe (i : nat) (exited : bool)                 (** it polls its child *)
| Publish (i : nat) (rp : Report)                   (** its last critical section *)
| Unwind (i : nat)                                  (** it panics there, after [retire] *)
| Crash (i : nat) (detail : string) (elapsed : f64) (** its guard catches a panic *)
| ThreadEnds (i : nat).                             (** it ends, with or without an outcome *)

Definition is_finished (ph : phase) : bool := bool_decide (ph = Finished).

Definition sweep (hs : list (Step * phase)) (sh : Shared) : list Step :=
  (List.filter (fun h : Step * phase => is_finished h.2 && negb (is_done sh (tag h.1))) hs).*1.

Definition starting (reservation : result string unit) : phase :=
  match reservation with Ok _ => Starting | Err e => Refused e end.

Definition with_main (σ : System) (sh : Shared) (p : position) : System :=
  {| shared := sh; coordinator := coordinator σ; handles := handles σ; at_ := p |}.

Definition with_thread (σ : System) (sh : Shared) (i : nat) (step : Step) (ph : phase) : System :=
  {| shared := sh; coordinator := coordinator σ; handles := <[i := (step, ph)]> (handles σ); at_ := at_ σ |}.

Section exec.
Context (R : Runner).

Definition main_step (sight : Sight) (σ : System) : option System :=
  let sh := shared σ in
  match at_ σ with
  | Sweeping => Some (with_main σ sh (Recovering (sweep (handles σ) sh)))
  | Recovering [] => Some (with_main σ sh Passing)
  | Recovering (step :: rest) =>
      Some (with_main σ (publish_supervisor_failure (keep_going R) step vanished sh).1 (Recovering rest))
  | Passing =>
      let '(sh, coord, v) := pass R sight sh (coordinator σ) in
      Some {| shared := sh; coordinator := coord; handles := handles σ;
              at_ := match v with
                     | LoopEnds => Joining | LoopPanics => Panicked | LoopLaunches l => Launching l
                     end |}
  | Launching [] => Some (with_main σ sh Sweeping)
  | Launching ((step, reservation) :: rest) =>
      Some {| shared := sh; coordinator := coordinator σ;
              handles := handles σ ++ [(step, starting reservation)]; at_ := Launching rest |}
  | Joining =>
      if forallb (fun h : Step * phase => is_finished h.2) (handles σ)
      then Some {| shared := sh; coordinator := clear_pending <$> coordinator σ;
                   handles := handles σ; at_ := Ended |}
      else None
  | Ended | Panicked => None
  end.

(** A thread that the guard's [catch_unwind] covers and that has not published. *)
Definition is_live (ph : phase) : bool :=
  match ph with Refused _ | Starting | Supervising | Unwinding => true | Reporting | Finished => false end.

Definition thread_step (e : event) (step : Step) (ph : phase) (sh : Shared) : option (Shared * phase) :=
  match e, ph with
  | Refuse _, Refused error =>
      Some (fail_unstarted R step (refused_outcome R (tag step) error) sh, Reporting)
  | Spawn _ pid nonce, Starting =>
      let '(sh, abort_after_spawn) := spawn_and_register (tag step) nonce pid sh in
      Some (if abort_after_spawn then reap_many [(tag step, pid, Some nonce)] sh else sh, Supervising)
  | SpawnFail _ error elapsed, Starting =>
      Some (fail_unstarted R step (spawn_failed_outcome R step error elapsed) sh, Reporting)
  | Observe _ exited, Supervising => Some (try_wait_and_uncount (tag step) exited sh, Supervising)
  | Publish _ rp, Supervising => Some (finish R step rp sh, Reporting)
  | Unwind _, Supervising => Some ((retire sh step).1, Unwinding)
  | Crash _ detail elapsed, ph =>
      if is_finished ph then None
      else Some ((publish_supervisor_failure (keep_going R) step (crashed detail elapsed) sh).1, Reporting)
  | ThreadEnds _, ph => if is_finished ph then None else Some (sh, Finished)
  | _, _ => None
  end.

Definition exec (e : event) (σ : System) : option System :=
  match e with
  | Main sight => main_step sight σ
  | Refuse i | Spawn i _ _ | SpawnFail i _ _ | Observe i _ | Publish i _ | Unwind i
  | Crash i _ _ | ThreadEnds i =>
      '(step, ph) ← handles σ !! i;
      '(sh, ph) ← thread_step e step ph (shared σ);
      Some (with_thread σ sh i step ph)
  end.

Fixpoint exec_all (es : list event) (σ : System) : option System :=
  match es with [] => Some σ | e :: es => exec e σ ≫= exec_all es end.

(** A run: any events that can happen, in any order. *)
Inductive reachable (init : System) : System -> Prop :=
| reach_init : reachable init init
| reach_step σ σ' e : reachable init σ -> exec e σ = Some σ' -> reachable init σ'.

(** [Runner::result], of a run that ended. *)
Definition accounted_tags : gset string :=
  list_to_set ((intentional_skips R).*1 ++ (runtime_skips R).*1).

Definition not_launched_tags (sh : Shared) : list string :=
  sort_by_key id (List.filter (fun t =>
    negb (is_done sh t) && negb (bool_decide (t ∈ skipped R sh))
    && negb (bool_decide (t ∈ accounted_tags))) (order R)).

Definition result (sh : Shared) : RunResult := {|
  run_ok := negb (failed sh) && match not_launched_tags sh with [] => true | _ => false end;
  outcomes := omap (fun t => done sh !! t) (order R);
  skipped_tags := btree_elems (skipped R sh);
  not_launched := not_launched_tags sh;
  run_intentional_skips := intentional_skips R;
  run_runtime_skips := runtime_skips R;
  result_timed_out := run_timed_out sh;
  result_cpu_timed_out := run_cpu_timed_out sh;
  result_accounting_failed := run_cpu_accounting_failed sh;
  result_max_concurrent := max_concurrent_steps sh
|}.
End exec.

(** The system before the first pass. *)
Definition start (cfg : DagConfig) (coord : option Coordinator) : System :=
  {| shared := Shared_new cfg; coordinator := coord; handles := []; at_ := Sweeping |}.
End run.
