(* ===== verification/DagCore.v ===== *)
(** * dagrun: what the lock guards, seen per step

    The part of [Shared] that admission and accounting depend on ([Core]), the elementary
    changes the critical sections make to it, and the invariant that ties it to where each
    step's supervisor stands.  Every operation of the scheduler is, on the core, a sequence
    of these changes. *)
From S2P Require Import Prelude External DagModel DagOutcome DagSchedule DagRunner DagRun.

(** ** The core *)

Record Core := mkCore {
  c_done : gmap string bool;
  c_running : gset string;
  c_retired : gset string;
  c_avail : gmap string Z;
  c_counted : gset string;
  c_active : nat;
  c_peak : nat;
  c_signalled : gset (string * string);
  c_deeds : list happening
}.

(** The happenings that concern admission. *)
Definition is_deed (h : happening) : bool :=
  match h with Reaped _ | Starved _ _ => false | _ => true end.

Definition core (sh : Shared) : Core :=
  mkCore (ok <$> done sh) (running sh) (retired sh) (resource_avail sh) (counted_processes sh)
    (active_processes sh) (max_concurrent_steps sh) (artifact_signalled sh)
    (List.filter is_deed (history sh)).

(** ** Elementary changes *)

Definition core_admit (t : string) (step : Step) (c : Core) : Core :=
  mkCore (c_done c) ({[t]} ∪ c_running c) (c_retired c)
    (charge (-1) (resources (hint step)) (c_avail c)) (c_counted c) (c_active c) (c_peak c)
    (c_signalled c) (Launched t :: c_deeds c).

Definition core_count (t : string) (c : Core) : Core :=
  mkCore (c_done c) (c_running c) (c_retired c) (c_avail c) ({[t]} ∪ c_counted c)
    (S (c_active c)) (Nat.max (c_peak c) (S (c_active c))) (c_signalled c) (c_deeds c).

Definition core_discount (t : string) (c : Core) : Core :=
  if decide (t ∈ c_counted c)
  then mkCore (c_done c) (c_running c) (c_retired c) (c_avail c) (c_counted c ∖ {[t]})
         (Nat.pred (c_active c)) (c_peak c) (c_signalled c) (c_deeds c)
  else c.

Definition core_retire (step : Step) (c : Core) : Core :=
  if decide (tag step ∈ c_retired c) then c else
  let c := core_discount (tag step) c in
  mkCore (c_done c) (c_running c) ({[tag step]} ∪ c_retired c)
    (charge 1 (resources (hint step)) (c_avail c)) (c_counted c) (c_active c) (c_peak c)
    (c_signalled c) (c_deeds c).

Definition core_publish (t : string) (verdict : bool) (c : Core) : Core :=
  mkCore (<[t := verdict]> (c_done c)) (c_running c ∖ {[t]}) (c_retired c) (c_avail c)
    (c_counted c) (c_active c) (c_peak c) (c_signalled c) (Published t verdict :: c_deeds c).

Definition core_discard (producer dep : string) (c : Core) : Core :=
  match c_done c !! dep with
  | Some true => mkCore (<[dep := false]> (c_done c)) (c_running c) (c_retired c) (c_avail c)
                   (c_counted c) (c_active c) (c_peak c) (c_signalled c)
                   (Discarded dep producer :: c_deeds c)
  | _ => c
  end.

Definition core_signal (t artifact : string) (c : Core) : Core :=
  if decide ((t, artifact) ∈ c_signalled c) then c else
  mkCore (c_done c) (c_running c) (c_retired c) (c_avail c) (c_counted c) (c_active c) (c_peak c)
    ({[(t, artifact)]} ∪ c_signalled c) (Signalled t artifact :: c_deeds c).

(** ** The operations are sequences of elementary changes *)

Lemma core_admit_step t step res a :
  core (a_shared (admit_step t step res a)) = core_admit t step (core (a_shared a)).
Proof. reflexivity. Qed.

Lemma core_uncount sh t : core (uncount_process sh t) = core_discount t (core sh).
Proof.
  unfold uncount_process, core_discount. simpl. by destruct (decide (t ∈ counted_processes sh)).
Qed.

Lemma core_spawn t nonce pid sh : core (spawn_and_register t nonce pid sh).1 = core_count t (core sh).
Proof. reflexivity. Qed.

Lemma core_retire_op sh step : core (retire sh step).1 = core_retire step (core sh).
Proof.
  unfold retire, core_retire. simpl. destruct (decide (tag step ∈ retired sh)); [done|].
  unfold uncount_process, core_discount. simpl.
  by destruct (decide (tag step ∈ counted_processes sh)).
Qed.

Lemma core_publish_op t o sh : core (publish t o sh) = core_publish t (ok o) (core sh).
Proof. unfold core, publish. simpl. by rewrite fmap_insert. Qed.

Lemma core_signal_op t name sh : core (signal t name sh) = core_signal t name (core sh).
Proof.
  unfold signal, core_signal. simpl. by destruct (decide ((t, name) ∈ artifact_signalled sh)).
Qed.

Lemma core_mark cause sh ts : core (foldl (mark_aborted cause) sh ts) = core sh.
Proof. revert sh. induction ts as [|t ts IH]; intros sh; [done|]. simpl. by rewrite IH. Qed.

Lemma core_fail_scope t sh : core (fail_scope t sh) = core sh.
Proof. unfold fail_scope. by destruct (fail_fast_family_index sh !! t). Qed.

Lemma core_reap cut sh : core (reap_many cut sh) = core sh.
Proof. reflexivity. Qed.

Lemma core_trip kg t sh : core (trip_fail_fast kg t sh) = core sh.
Proof.
  unfold trip_fail_fast. destruct kg; [done|]. by rewrite core_reap, core_mark, core_fail_scope.
Qed.

Lemma core_discard_op producer sh dep : core (discard producer sh dep) = core_discard producer dep (core sh).
Proof.
  unfold discard, core_discard. simpl. rewrite lookup_fmap.
  destruct (done sh !! dep) as [o|]; [|done]. simpl. destruct (ok o) eqn:E; [|done].
  unfold core. simpl. by rewrite fmap_insert.
Qed.

Lemma core_cancel_dependent producer st dep :
  core (cancel_dependent producer st dep).1 = core_discard producer dep (core st.1).
Proof.
  destruct st as [sh cut]. simpl. rewrite <- core_discard_op.
  by destruct (decide (dep ∈ running (discard producer sh dep))).
Qed.

Lemma core_cancel producer deps sh :
  core (cancel_artifact_dependents producer deps sh)
  = foldl (fun c dep => core_discard producer dep c) (core sh) deps.
Proof.
  unfold cancel_artifact_dependents. destruct (foldl _ _ deps) as [sh' cut] eqn:E.
  rewrite core_reap. change sh' with (sh', cut).1. rewrite <- E. clear.
  change sh with (sh, @nil victim).1 at 2. generalize (sh, @nil victim).
  induction deps as [|d deps IH]; intros st; [done|]. cbn [foldl].
  by rewrite IH, core_cancel_dependent.
Qed.

Lemma core_budgets R sight sh : core (enforce_budgets R sight sh) = core sh.
Proof. unfold enforce_budgets. case_match; [|done]. by rewrite core_reap, core_mark. Qed.

Lemma core_give_up `{!StrDebug} R sh l : core (abandon_run R sh l) = core sh.
Proof. reflexivity. Qed.

(** ** Resources *)

(** What a step asks of a resource. *)
Definition asks (step : Step) (r : string) : Z := capacity (resources (hint step)) r.

Lemma foldl_charge_other sign l avail r :
  r ∉ l.*1 ->
  capacity (foldl (fun avail '(r, n) => <[r := (capacity avail r + sign * n)%Z]> avail) avail l) r
  = capacity avail r.
Proof.
  revert avail. induction l as [|[r' n] l IH]; intros avail; simpl; [done|].
  rewrite not_elem_of_cons. intros [Hne Hl]. rewrite IH by done.
  unfold capacity. by rewrite lookup_insert_ne.
Qed.

(** A charge moves each resource by exactly what is asked of it. *)
Lemma capacity_charge sign m avail r :
  capacity (charge sign m avail) r = (capacity avail r + sign * capacity m r)%Z.
Proof.
  unfold charge. rewrite <- (map_collect_btree_iter m) at 2.
  pose proof (btree_keys_NoDup m) as Hnd. unfold btree_keys in Hnd. revert avail Hnd.
  induction (btree_iter m) as [|[r' n] l IH] using rev_ind; intros avail Hnd.
  { simpl. unfold map_collect, capacity. simpl. rewrite lookup_empty. simpl. lia. }
  rewrite fmap_app in Hnd. apply NoDup_app in Hnd as (Hl & Hdis & _).
  rewrite foldl_snoc, map_collect_snoc. specialize (IH avail Hl).
  unfold capacity in *. destruct (decide (r = r')) as [->|Hne].
  - rewrite !lookup_insert_eq. simpl. fold (capacity avail r').
    rewrite <- (foldl_charge_other sign l avail r'); [done|].
    intros Hin. apply (Hdis r'); [done|]. by left.
  - rewrite !lookup_insert_ne by done. exact IH.
Qed.

Section one_more.
Context `{Countable A}.
Implicit Types (X : gset A).

Lemma size_union_le X Y : size (X ∪ Y) <= size X + size Y.
Proof. rewrite size_union_alt. apply Nat.add_le_mono_l, subseteq_size, subseteq_difference_l. done. Qed.

Lemma size_insert_new x X : x ∉ X -> size ({[x]} ∪ X) = S (size X).
Proof. intros Hx. by rewrite size_union, size_singleton by (by apply disjoint_singleton_l). Qed.

Lemma difference_absent x X : x ∉ X -> X ∖ {[x]} = X.
Proof. intros Hx. set_solver. Qed.

Lemma size_remove x X : x ∈ X -> size (X ∖ {[x]}) = Nat.pred (size X).
Proof.
  intros Hx. rewrite size_difference, size_singleton; [lia|]. by apply singleton_subseteq_l.
Qed.

Lemma union_present x X : x ∈ X -> {[x]} ∪ X = X.
Proof. intros Hx. apply subseteq_union_1_L. by apply singleton_subseteq_l. Qed.

Lemma elem_added x X : x ∈ {[x]} ∪ X.
Proof. set_solver. Qed.

Lemma not_elem_removed x X : x ∉ X ∖ {[x]}.
Proof. set_solver. Qed.

Lemma elem_added_ne y x X : y <> x -> y ∈ {[x]} ∪ X <-> y ∈ X.
Proof. set_solver. Qed.

Lemma elem_removed_ne y x X : y <> x -> y ∈ X ∖ {[x]} <-> y ∈ X.
Proof. set_solver. Qed.

Lemma remove_held x X Y : x ∈ Y -> X ∖ {[x]} ∖ Y = X ∖ Y.
Proof. intros Hx. set_solver. Qed.

Lemma add_unheld x X Y : x ∉ Y -> ({[x]} ∪ X) ∖ Y = {[x]} ∪ X ∖ Y.
Proof. intros Hx. set_solver. Qed.

Lemma remove_one x X Y : X ∖ Y ∖ {[x]} = X ∖ ({[x]} ∪ Y).
Proof. set_solver. Qed.
End one_more.

(** What a set of steps holds of a resource. *)
Definition holds (steps : gmap string Step) (r t : string) : Z :=
  match steps !! t with Some step => asks step r | None => 0 end.
Definition held (steps : gmap string Step) (ts : gset string) (r : string) : Z :=
  foldr Z.add 0%Z (holds steps r <$> elements ts).

Lemma foldr_add_perm (l l' : list Z) : l ≡ₚ l' -> foldr Z.add 0%Z l = foldr Z.add 0%Z l'.
Proof. induction 1; simpl in *; lia. Qed.

Lemma held_insert steps ts r t :
  t ∉ ts -> held steps ({[t]} ∪ ts) r = (holds steps r t + held steps ts r)%Z.
Proof.
  intros Ht. unfold held.
  by rewrite (foldr_add_perm _ (holds steps r <$> (t :: elements ts)))
    by (apply fmap_Permutation, elements_union_singleton; done).
Qed.

Lemma held_remove steps ts r t :
  t ∈ ts -> held steps (ts ∖ {[t]}) r = (held steps ts r - holds steps r t)%Z.
Proof.
  intros Ht. rewrite (union_difference_singleton_L t ts) at 2 by done.
  rewrite held_insert; [lia|]. intros Hin%elem_of_difference. destruct Hin as [_ Hin].
  by apply Hin, elem_of_singleton.
Qed.

Lemma held_nonneg steps ts r :
  (forall t step, steps !! t = Some step -> 0 <= asks step r)%Z -> (0 <= held steps ts r)%Z.
Proof.
  intros Hpos. unfold held. induction (elements ts) as [|t l IH]; [done|].
  rewrite fmap_cons. cbn [foldr]. assert (0 <= holds steps r t)%Z; [|lia].
  unfold holds. destruct (steps !! t) eqn:E; [exact (Hpos _ _ E)|lia].
Qed.

Lemma held_empty steps r : held steps ∅ r = 0%Z.
Proof. reflexivity. Qed.
