(* ===== verification/DagInv.v ===== *)
(** * dagrun: the invariant of a run

    [cell] says, for one step, how the sets behind the lock agree with where its supervisor
    stands; [Inv] adds the accounting of resources and processes and the order of the
    happenings.  Every elementary change keeps it. *)
From S2P Require Import Prelude External DagModel DagOutcome DagSchedule DagRunner DagRun DagCore.

(** Where a launched step stands: handed to no thread yet, or with its thread in a phase. *)
Inductive life := Queued | In (ph : phase).

(** ** Lawful happenings *)

(** The step passed and its result was not taken back. *)
Definition credited (h : list happening) (t : string) : Prop :=
  Published t true ∈ h /\ (forall producer, Discarded t producer ∉ h).

(** A step may be launched once, and only behind what it waits for. *)
Definition may_launch (R : Runner) (h : list happening) (t : string) : Prop :=
  ~ (Launched t ∈ h) /\ runtime_skipped R t = false /\
  (exists step, r_steps R !! t = Some step /\ skip_reason step = None
    /\ (forall d, d ∈ deps step -> credited h d)
    /\ (forall a, a ∈ artifact_deps step -> Signalled (dep_step a) (dep_artifact a) ∈ h)).

Definition lawful_next (R : Runner) (e : happening) (h : list happening) : Prop :=
  match e with
  | Launched t => may_launch R h t
  | Published t _ => Launched t ∈ h /\ (forall v, Published t v ∉ h)
  | Discarded t _ => credited h t
  | _ => True
  end.

Fixpoint lawful (R : Runner) (h : list happening) : Prop :=
  match h with [] => True | e :: h => lawful_next R e h /\ lawful R h end.

Lemma lawful_split R later e earlier : lawful R (later ++ e :: earlier) -> lawful_next R e earlier.
Proof. induction later as [|x later IH]; simpl; [by intros []|]. intros [_ H]. by apply IH. Qed.

Lemma lawful_discarded R h t p : lawful R h -> Discarded t p ∈ h -> Published t true ∈ h.
Proof.
  intros Hl Hin. apply list_elem_of_split in Hin as (later & earlier & ->).
  apply lawful_split in Hl as [Hp _]. apply elem_of_app. right. by right.
Qed.

(** ** One step *)

Definition cell (l : option life) (d : option bool) (run ret cnt : Prop) : Prop :=
  match l with
  | None => d = None /\ ~ run /\ ~ ret /\ ~ cnt
  | Some Queued | Some (In (Refused _)) | Some (In Starting) => d = None /\ run /\ ~ ret /\ ~ cnt
  | Some (In Supervising) => d = None /\ run /\ ~ ret
  | Some (In Unwinding) => d = None /\ run /\ ret /\ ~ cnt
  | Some (In Reporting) => is_Some d /\ ~ run /\ ret /\ ~ cnt
  | Some (In Finished) => (is_Some d /\ ~ run /\ ret /\ ~ cnt) \/ (d = None /\ run /\ (ret -> ~ cnt))
  end.

#[global] Instance cell_proper : Proper (eq ==> eq ==> iff ==> iff ==> iff ==> iff) cell.
Proof.
  intros l ? <- d ? <- run run' Hr ret ret' Ht cnt cnt' Hc. unfold cell. repeat case_match; tauto.
Qed.

Lemma cell_unpublished ph run ret cnt :
  cell (Some (In ph)) None run ret cnt -> run /\ (ret -> ~ cnt).
Proof. destruct ph; simpl; rewrite <- ?not_eq_None_Some; tauto. Qed.

Section inv.
Context (R : Runner) (caps : gmap string Z).

(** A step in the [Step] map is filed under its own tag. *)
Definition well_keyed : Prop := forall t step, r_steps R !! t = Some step -> tag step = t.

Definition demands_nonneg : Prop := forall t step r, r_steps R !! t = Some step -> (0 <= asks step r)%Z.

Definition in_hand (c : Core) : gset string := c_running c ∖ c_retired c.

Record Inv (c : Core) (m : gmap string life) : Prop := {
  i_cell : forall t, cell (m !! t) (c_done c !! t) (t ∈ c_running c) (t ∈ c_retired c) (t ∈ c_counted c);
  i_known : forall t, is_Some (m !! t) -> is_Some (r_steps R !! t);
  i_account : forall r, capacity (c_avail c) r = (capacity caps r - held (r_steps R) (in_hand c) r)%Z;
  i_fits : demands_nonneg -> forall r, (0 <= capacity caps r)%Z -> (0 <= capacity (c_avail c) r)%Z;
  i_active : c_active c = size (c_counted c);
  i_width : (Z.of_nat (size (c_running c)) <= max_steps R)%Z;
  i_peak : (Z.of_nat (c_peak c) <= max_steps R)%Z /\ c_active c <= c_peak c;
  i_launched : forall t, Launched t ∈ c_deeds c <-> is_Some (m !! t);
  i_published : forall t, is_Some (c_done c !! t) <-> exists v, Published t v ∈ c_deeds c;
  i_credit : forall t, c_done c !! t = Some true <-> credited (c_deeds c) t;
  i_signalled : forall x, x ∈ c_signalled c <-> Signalled x.1 x.2 ∈ c_deeds c;
  i_lawful : lawful R (c_deeds c)
}.

Lemma counted_running c m t : Inv c m -> t ∈ c_counted c -> t ∈ c_running c.
Proof.
  intros H Ht. pose proof (i_cell _ _ H t) as Hc. unfold cell in Hc.
  repeat case_match; tauto.
Qed.

(** A step whose thread has not published, and who has not been retired, is in hand. *)
Lemma in_hand_spec c t : t ∈ in_hand c <-> t ∈ c_running c /\ t ∉ c_retired c.
Proof. apply elem_of_difference. Qed.

(** *** Threads that move without the lock *)

Lemma inv_thread c m t l' :
  Inv c m -> is_Some (m !! t) ->
  cell (Some l') (c_done c !! t) (t ∈ c_running c) (t ∈ c_retired c) (t ∈ c_counted c) ->
  Inv c (<[t := l']> m).
Proof.
  intros H [l Ht] Hcell. destruct H. split; try done.
  - intros t'. destruct (decide (t' = t)) as [->|]; [|by rewrite lookup_insert_ne].
    by rewrite lookup_insert_eq.
  - intros t'. destruct (decide (t' = t)) as [->|]; [|by rewrite lookup_insert_ne; auto].
    intros _. apply i_known0. by eexists.
  - intros t'. rewrite i_launched0. destruct (decide (t' = t)) as [->|].
    + rewrite lookup_insert_eq, Ht. split; by eexists.
    + by rewrite lookup_insert_ne.
Qed.

Lemma inv_end c m t ph : Inv c m -> m !! t = Some (In ph) -> Inv c (<[t := In Finished]> m).
Proof.
  intros H Ht. pose proof (i_cell _ _ H t) as Hc. rewrite Ht in Hc.
  apply inv_thread; [done|by eexists|]. destruct ph; simpl in *; tauto.
Qed.

Lemma inv_take c m t res : Inv c m -> m !! t = Some Queued -> Inv c (<[t := In (starting res)]> m).
Proof.
  intros H Ht. pose proof (i_cell _ _ H t) as Hc. rewrite Ht in Hc.
  apply inv_thread; [done|by eexists|]. by destruct res.
Qed.

(** *** Processes *)

Lemma inv_count c m t :
  Inv c m -> m !! t = Some (In Starting) -> Inv (core_count t c) (<[t := In Supervising]> m).
Proof.
  intros H Ht. pose proof (i_cell _ _ H t) as Hc. rewrite Ht in Hc. destruct Hc as (Hd & Hrun & Hret & Hcnt).
  assert (H' : Inv c (<[t := In Supervising]> m)) by (apply inv_thread; [done|by eexists|done]).
  assert (Hsz : size ({[t]} ∪ c_counted c) <= size (c_running c)).
  { apply subseteq_size. intros x [->%elem_of_singleton|Hx]%elem_of_union; [done|]. by eapply counted_running. }
  rewrite size_insert_new in Hsz by done.
  destruct H as [_ _ _ _ Ha _ _ _ _ _ _ _], H'. split; try done; simpl.
  - intros t'. specialize (i_cell0 t'). rewrite elem_of_union, elem_of_singleton.
    destruct (decide (t' = t)) as [->|]; [by rewrite lookup_insert_eq in *|].
    rewrite !lookup_insert_ne in * by done. unfold cell in *. repeat case_match; tauto.
  - rewrite size_insert_new by done. by f_equal.
  - lia.
Qed.

Lemma core_discount_spec t c :
  core_discount t c =
  mkCore (c_done c) (c_running c) (c_retired c) (c_avail c) (c_counted c ∖ {[t]})
    (if decide (t ∈ c_counted c) then Nat.pred (c_active c) else c_active c) (c_peak c)
    (c_signalled c) (c_deeds c).
Proof.
  unfold core_discount. destruct (decide (t ∈ c_counted c)) as [|Hn]; [done|].
  rewrite difference_absent by done. by destruct c.
Qed.

Lemma discount_active c t :
  c_active c = size (c_counted c) ->
  (if decide (t ∈ c_counted c) then Nat.pred (c_active c) else c_active c) = size (c_counted c ∖ {[t]}).
Proof.
  intros ->. destruct (decide (t ∈ c_counted c)); [by rewrite size_remove|by rewrite difference_absent].
Qed.

Lemma discount_le c t :
  (if decide (t ∈ c_counted c) then Nat.pred (c_active c) else c_active c) <= c_active c.
Proof. destruct (decide (t ∈ c_counted c)); lia. Qed.

(** A cell of a step that is no longer counted. *)
Lemma cell_discount l d run ret cnt cnt' :
  cell l d run ret cnt -> (cnt' -> cnt) -> (l = Some (In Supervising) \/ (cnt -> cnt')) ->
  cell l d run ret cnt'.
Proof. unfold cell. intros Hc H1 [->|H2]; repeat case_match; tauto. Qed.

Lemma inv_discount c m t : Inv c m -> m !! t = Some (In Supervising) -> Inv (core_discount t c) m.
Proof.
  intros H Ht. rewrite core_discount_spec. pose proof (discount_le c t). destruct H. split; try done; simpl.
  - intros t'. eapply cell_discount; [apply i_cell0|set_solver|].
    destruct (decide (t' = t)) as [->|]; [by left|right; set_solver].
  - by apply discount_active.
  - lia.
Qed.

(** *** A retired step *)

(** Its supervisor has not published: it is alive, or died before. *)
Definition unpublished (c : Core) (m : gmap string life) (t : string) : Prop :=
  exists ph, m !! t = Some (In ph) /\ c_done c !! t = None.

Lemma unpublished_running c m t :
  Inv c m -> unpublished c m t -> t ∈ c_running c /\ (t ∈ c_retired c -> t ∉ c_counted c).
Proof.
  intros H (ph & Ht & Hd). pose proof (i_cell _ _ H t) as Hc. rewrite Ht, Hd in Hc.
  by apply cell_unpublished in Hc.
Qed.

Lemma inv_retire c m t step :
  Inv c m -> unpublished c m t -> r_steps R !! t = Some step -> tag step = t ->
  Inv (core_retire step c) (<[t := In Unwinding]> m).
Proof.
  intros H Hun Hstep Htag. destruct (unpublished_running _ _ _ H Hun) as [Hrun Hret].
  destruct Hun as (ph & Ht & Hd). unfold core_retire. rewrite Htag.
  destruct (decide (t ∈ c_retired c)) as [Hin|Hout].
  { apply inv_thread; [done|by eexists|]. simpl. tauto. }
  rewrite core_discount_spec. pose proof (discount_le c t). destruct H. split; try done; simpl.
  - intros t'. specialize (i_cell0 t'). destruct (decide (t' = t)) as [->|].
    + rewrite lookup_insert_eq. simpl. pose proof (elem_added t (c_retired c)).
      pose proof (not_elem_removed t (c_counted c)). tauto.
    + by rewrite lookup_insert_ne, elem_added_ne, elem_removed_ne.
  - intros t' Ht'. apply i_known0. destruct (decide (t' = t)) as [->|]; [by eexists|].
    by rewrite lookup_insert_ne in Ht'.
  - intros r. unfold in_hand. simpl. rewrite capacity_charge, i_account0, <- remove_one. fold (in_hand c).
    rewrite held_remove by (by apply in_hand_spec). unfold holds. rewrite Hstep. unfold asks. lia.
  - intros Hpos r Hcap. rewrite capacity_charge. specialize (i_fits0 Hpos r Hcap).
    specialize (Hpos _ _ r Hstep). unfold asks in Hpos. lia.
  - by apply discount_active.
  - lia.
  - intros t'. rewrite i_launched0. destruct (decide (t' = t)) as [->|].
    + rewrite lookup_insert_eq, Ht. split; by eexists.
    + by rewrite lookup_insert_ne.
Qed.
(** *** An outcome *)

Lemma lookup_insert_Some_ne {A} (m : gmap string A) t x t' :
  t' <> t -> is_Some (<[t := x]> m !! t') <-> is_Some (m !! t').
Proof. intros Hne. by rewrite lookup_insert_ne. Qed.

Lemma credited_cons e h t :
  (forall v, e <> Published t v) -> (forall p, e <> Discarded t p) ->
  credited (e :: h) t <-> credited h t.
Proof.
  intros Hp Hd. unfold credited. setoid_rewrite elem_of_cons. split.
  - intros [[He|Hin] Hno]; [by destruct (Hp true)|]. split; [done|]. intros p Hp'. by apply (Hno p); right.
  - intros [Hin Hno]. split; [by right|]. intros p [He|Hp']; [by destruct (Hd p)|by apply (Hno p)].
Qed.

Lemma published_cons e h t :
  (forall v, e <> Published t v) ->
  (exists v, Published t v ∈ e :: h) <-> (exists v, Published t v ∈ h).
Proof.
  intros Hp. split; intros [v Hv]; exists v; [|by right].
  apply elem_of_cons in Hv as [Hv|Hv]; [by destruct (Hp v)|done].
Qed.

Lemma inv_publish c m t v :
  Inv c m -> m !! t = Some (In Unwinding) -> Inv (core_publish t v c) (<[t := In Reporting]> m).
Proof.
  intros H Ht. pose proof (i_cell _ _ H t) as Hc. rewrite Ht in Hc. destruct Hc as (Hd & Hrun & Hret & Hcnt).
  assert (Hnew : forall v, Published t v ∉ c_deeds c).
  { intros v' Hv. assert (is_Some (c_done c !! t)) as [? ?] by (apply (i_published _ _ H); eauto). by simplify_eq. }
  destruct H. split; try done; simpl.
  - intros t'. specialize (i_cell0 t'). destruct (decide (t' = t)) as [->|].
    + rewrite !lookup_insert_eq. simpl. split; [by eexists|].
      pose proof (not_elem_removed t (c_running c)). tauto.
    + by rewrite !lookup_insert_ne, elem_removed_ne.
  - intros t' Ht'. apply i_known0. destruct (decide (t' = t)) as [->|]; [by eexists|].
    by apply lookup_insert_Some_ne in Ht'.
  - intros r. rewrite i_account0. unfold in_hand. simpl. by rewrite remove_held.
  - etrans; [|exact i_width0]. apply inj_le, subseteq_size, subseteq_difference_l. done.
  - intros t'. rewrite elem_of_cons, i_launched0. destruct (decide (t' = t)) as [->|].
    + rewrite lookup_insert_eq, Ht. naive_solver.
    + rewrite lookup_insert_ne by done. naive_solver.
  - intros t'. destruct (decide (t' = t)) as [->|].
    + rewrite lookup_insert_eq. split; [|by eexists]. intros _. exists v. by left.
    + rewrite lookup_insert_ne, i_published0 by done. rewrite published_cons; [done|]. intros v'. by intros [= ->].
  - intros t'. destruct (decide (t' = t)) as [->|].
    + rewrite lookup_insert_eq. split.
      * intros [= ->]. split; [by left|]. intros p [Hp|Hp]%elem_of_cons; [done|].
        by apply (Hnew true), (lawful_discarded R) with p.
      * intros [[Hp|Hp]%elem_of_cons _]; [by simplify_eq|]. by destruct (Hnew true).
    + rewrite lookup_insert_ne, i_credit0, credited_cons; try done. by intros v' [= ->].
  - intros x. rewrite i_signalled0, elem_of_cons. naive_solver.
  - split; [|done]. split; [|done]. apply i_launched0. by eexists.
Qed.

Lemma inv_discard c m producer dep : Inv c m -> Inv (core_discard producer dep c) m.
Proof.
  intros H. unfold core_discard. destruct (c_done c !! dep) as [[]|] eqn:Hd; [|done..].
  assert (Hcr : credited (c_deeds c) dep) by (by apply (i_credit _ _ H)).
  destruct H. split; try done; simpl.
  - intros t'. specialize (i_cell0 t'). destruct (decide (t' = dep)) as [->|].
    + rewrite lookup_insert_eq. rewrite Hd in i_cell0. unfold cell in *.
      repeat case_match; naive_solver.
    + by rewrite lookup_insert_ne.
  - intros t'. rewrite elem_of_cons, i_launched0. naive_solver.
  - intros t'. rewrite published_cons by done. rewrite <- i_published0.
    destruct (decide (t' = dep)) as [->|]; [rewrite lookup_insert_eq, Hd|by rewrite lookup_insert_ne].
    split; by eexists.
  - intros t'. destruct (decide (t' = dep)) as [->|].
    + rewrite lookup_insert_eq. split; [done|]. intros [_ Hno]. destruct (Hno producer). by left.
    + rewrite lookup_insert_ne, i_credit0, credited_cons; try done. by intros p [= ->].
  - intros x. rewrite i_signalled0, elem_of_cons. naive_solver.
Qed.

Lemma inv_discards c m producer deps :
  Inv c m -> Inv (foldl (fun c dep => core_discard producer dep c) c deps) m.
Proof. revert c. induction deps as [|d deps IH]; intros c H; [done|]. by apply IH, inv_discard. Qed.

Lemma inv_signal c m t name : Inv c m -> Inv (core_signal t name c) m.
Proof.
  intros H. unfold core_signal. destruct (decide _) as [|Hn]; [done|].
  destruct H. split; try done; simpl.
  - intros t'. rewrite elem_of_cons, i_launched0. naive_solver.
  - intros t'. by rewrite published_cons, i_published0.
  - intros t'. by rewrite credited_cons, i_credit0.
  - intros [x y]. rewrite elem_of_union, elem_of_singleton, elem_of_cons, i_signalled0. naive_solver.
Qed.

(** *** Admission *)

Lemma inv_admit c m t step :
  Inv c m -> c_done c !! t = None -> t ∉ c_running c ->
  r_steps R !! t = Some step -> may_launch R (c_deeds c) t ->
  (Z.of_nat (size (c_running c)) < max_steps R)%Z ->
  (forall r n, resources (hint step) !! r = Some n -> n <= capacity (c_avail c) r)%Z ->
  Inv (core_admit t step c) (<[t := Queued]> m).
Proof.
  intros H Hd Hrun Hstep Hmay Hwide Hfree.
  assert (Hm : m !! t = None /\ ~ (t ∈ c_retired c) /\ ~ (t ∈ c_counted c)).
  { pose proof (i_cell _ _ H t) as Hc. rewrite Hd in Hc. unfold cell in Hc.
    repeat case_match; rewrite <- ?not_eq_None_Some in Hc; tauto. }
  destruct Hm as (Hm & Hret & Hcnt). destruct H. split; try done; simpl.
  - intros t'. specialize (i_cell0 t'). destruct (decide (t' = t)) as [->|].
    + rewrite lookup_insert_eq. simpl. pose proof (elem_added t (c_running c)). tauto.
    + by rewrite lookup_insert_ne, elem_added_ne.
  - intros t'. destruct (decide (t' = t)) as [->|]; [by eexists|].
    rewrite lookup_insert_Some_ne by done. apply i_known0.
  - intros r. rewrite capacity_charge, i_account0.
    unfold in_hand. simpl. rewrite add_unheld by done. fold (in_hand c). rewrite held_insert by (by intros [? _]%in_hand_spec). unfold holds. rewrite Hstep. unfold asks. lia.
  - intros Hpos r Hcap. rewrite capacity_charge. specialize (i_fits0 Hpos r Hcap).
    unfold capacity at 2. destruct (resources (hint step) !! r) as [n|] eqn:Hr; simpl; [|lia].
    specialize (Hfree _ _ Hr). lia.
  - rewrite size_insert_new by done. lia.
  - intros t'. rewrite elem_of_cons, i_launched0. destruct (decide (t' = t)) as [->|].
    + rewrite lookup_insert_eq. split; [by eexists|by left].
    + rewrite lookup_insert_ne by done. naive_solver.
  - intros t'. by rewrite published_cons, i_published0.
  - intros t'. by rewrite credited_cons, i_credit0.
  - intros x. rewrite i_signalled0, elem_of_cons. naive_solver.
Qed.
End inv.
