(* ===== verification/DagSystem.v ===== *)
(** * dagrun: every event keeps the invariant

    The threads of a system as one map from steps to where they stand ([lives]), the
    invariant of a whole system, and its preservation by the main thread and by every
    supervisor. *)
From S2P Require Import Prelude RustStr External DagModel DagOutcome DagSchedule DagRunner DagRun DagCore DagInv.

(** ** Threads as a map *)

Definition queued (σ : System) : list Step :=
  match at_ σ with Launching l => l.*1 | _ => [] end.

Definition thread_entries (hs : list (Step * phase)) (q : list Step) : list (string * life) :=
  ((fun h : Step * phase => (tag h.1, In h.2)) <$> hs) ++ ((fun s => (tag s, Queued)) <$> q).

Definition lives (hs : list (Step * phase)) (q : list Step) : gmap string life :=
  list_to_map (thread_entries hs q).

Lemma thread_entries_keys hs q : (thread_entries hs q).*1 = (tag <$> hs.*1) ++ (tag <$> q).
Proof. unfold thread_entries. by rewrite fmap_app, <- !list_fmap_compose. Qed.

Lemma list_to_map_alter {A} (l : list (string * A)) i k a a' :
  NoDup l.*1 -> l !! i = Some (k, a) ->
  list_to_map (M := gmap string A) (<[i := (k, a')]> l) = <[k := a']> (list_to_map l).
Proof.
  revert i. induction l as [|[k' b] l IH]; intros [|i] Hnd Hi; simplify_eq/=; try done.
  - by rewrite insert_insert_eq.
  - apply NoDup_cons in Hnd as [Hk Hnd]. rewrite (IH i) by done.
    assert (k <> k'). { intros ->. apply Hk. apply list_elem_of_fmap. exists (k', a). split; [done|]. by eapply list_elem_of_lookup_2. }
    by rewrite insert_insert_ne.
Qed.

Lemma thread_entries_thread hs q i s ph :
  hs !! i = Some (s, ph) -> thread_entries hs q !! i = Some (tag s, In ph).
Proof.
  intros Hi. unfold thread_entries. apply lookup_app_l_Some. by rewrite list_lookup_fmap, Hi.
Qed.

Lemma lives_thread hs q i s ph :
  NoDup (thread_entries hs q).*1 -> hs !! i = Some (s, ph) -> lives hs q !! tag s = Some (In ph).
Proof.
  intros Hnd Hi. apply elem_of_list_to_map; [done|]. eapply list_elem_of_lookup_2, thread_entries_thread, Hi.
Qed.

Lemma lives_move hs q i s ph ph' :
  NoDup (thread_entries hs q).*1 -> hs !! i = Some (s, ph) ->
  (thread_entries (<[i := (s, ph')]> hs) q).*1 = (thread_entries hs q).*1
  /\ lives (<[i := (s, ph')]> hs) q = <[tag s := In ph']> (lives hs q).
Proof.
  intros Hnd Hi. pose proof (thread_entries_thread _ q _ _ _ Hi) as He.
  assert (Heq : thread_entries (<[i := (s, ph')]> hs) q = <[i := (tag s, In ph')]> (thread_entries hs q)).
  { unfold thread_entries. rewrite list_fmap_insert, insert_app_l; [done|].
    rewrite length_fmap. by eapply lookup_lt_Some. }
  unfold lives. rewrite Heq. split; [|by eapply list_to_map_alter].
  rewrite list_fmap_insert. apply list_insert_id. by rewrite list_lookup_fmap, He.
Qed.

Lemma lives_take hs q s ph :
  NoDup (thread_entries hs (s :: q)).*1 ->
  (thread_entries (hs ++ [(s, ph)]) q).*1 = (thread_entries hs (s :: q)).*1
  /\ lives (hs ++ [(s, ph)]) q = <[tag s := In ph]> (lives hs (s :: q)).
Proof.
  intros Hnd.
  assert (Heq : thread_entries (hs ++ [(s, ph)]) q = <[length hs := (tag s, In ph)]> (thread_entries hs (s :: q))).
  { unfold thread_entries. rewrite fmap_app, <- app_assoc. simpl.
    rewrite <- (length_fmap (fun h : Step * phase => (tag h.1, In h.2)) hs) at 1.
    by rewrite insert_app_r_alt, Nat.sub_diag by lia. }
  assert (Hi : thread_entries hs (s :: q) !! length hs = Some (tag s, Queued)).
  { unfold thread_entries. rewrite lookup_app_r; rewrite length_fmap; [|lia]. by rewrite Nat.sub_diag. }
  unfold lives. rewrite Heq. split; [|by eapply list_to_map_alter].
  rewrite list_fmap_insert. apply list_insert_id. by rewrite list_lookup_fmap, Hi.
Qed.

Lemma lives_queue hs q s :
  NoDup (thread_entries hs q).*1 -> lives hs q !! tag s = None ->
  NoDup (thread_entries hs (q ++ [s])).*1 /\ lives hs (q ++ [s]) = <[tag s := Queued]> (lives hs q).
Proof.
  intros Hnd Hnone.
  assert (Heq : thread_entries hs (q ++ [s]) = thread_entries hs q ++ [(tag s, Queued)]).
  { unfold thread_entries. by rewrite fmap_app, app_assoc. }
  apply not_elem_of_list_to_map in Hnone as Hfresh. unfold lives. rewrite Heq. split.
  - rewrite fmap_app. apply NoDup_app. split_and!; [done| |by apply NoDup_singleton].
    intros t Ht Hs. apply list_elem_of_singleton in Hs. by subst.
  - rewrite list_to_map_snoc; done.
Qed.

(** ** Failure is recorded *)

(** Whatever cuts work short, or fails a step, is a failure of the run. *)
Record Fails (sh : Shared) : Prop := {
  fails_done : forall t o, done sh !! t = Some o -> ok o = false -> failed sh = true;
  fails_aborted : forall t, is_Some (aborted_by sh !! t) -> failed sh = true;
  fails_stop : stop sh = true -> failed sh = true;
  fails_families : failed_families sh <> ∅ -> failed sh = true;
  fails_budget : run_timed_out sh = true -> failed sh = true
}.

Lemma Fails_failed sh : failed sh = true -> Fails sh.
Proof. by split. Qed.

(** Same verdicts, aborts, scopes and flags. *)
Definition same_fate (sh sh' : Shared) : Prop :=
  done sh' = done sh /\ aborted_by sh' = aborted_by sh /\ stop sh' = stop sh
  /\ failed_families sh' = failed_families sh /\ run_timed_out sh' = run_timed_out sh
  /\ failed sh' = failed sh.

#[global] Instance same_fate_po : PreOrder same_fate.
Proof.
  split; [by intros sh; repeat split|]. intros x y z (?&?&?&?&?&?) (?&?&?&?&?&?).
  repeat split; congruence.
Qed.

Lemma Fails_same_fate sh sh' : same_fate sh sh' -> Fails sh -> Fails sh'.
Proof. intros (E1 & E2 & E3 & E4 & E5 & E6) []. split; rewrite ?E1, ?E2, ?E3, ?E4, ?E5, ?E6; done. Qed.

Lemma same_fate_failed sh sh' : same_fate sh sh' -> failed sh' = failed sh.
Proof. by intros (_&_&_&_&_&E). Qed.

Lemma fate_uncount sh t : same_fate sh (uncount_process sh t).
Proof. unfold uncount_process. by case_decide. Qed.

Lemma fate_retire sh step : same_fate sh (retire sh step).1.
Proof.
  unfold retire, uncount_process. case_decide; [done|]. simpl. by case_decide.
Qed.

Lemma fate_signal t name sh : same_fate sh (signal t name sh).
Proof. unfold signal. by case_decide. Qed.

Lemma fate_foldl {A} (f : Shared -> A -> Shared) (l : list A) sh :
  (forall sh x, same_fate sh (f sh x)) -> same_fate sh (foldl f sh l).
Proof.
  intros Hf. revert sh. induction l as [|x l IH]; intros sh; [done|]. etrans; [apply Hf|apply IH].
Qed.

Lemma fate_scan R sight sh : same_fate sh (scan_artifacts R sight sh).
Proof.
  unfold scan_artifacts. destruct (artifact_dir R); [|done]. apply fate_foldl. intros sh' [t step].
  unfold scan_step. destruct (publishes step) eqn:E; [done|]. destruct (listing sight t); [|done].
  apply fate_foldl. intros sh'' name. unfold scan_entry. repeat case_match; [done| |done]. apply fate_signal.
Qed.

Lemma failed_mark cause sh ts : failed (foldl (mark_aborted cause) sh ts) = failed sh.
Proof. revert sh. induction ts as [|t ts IH]; intros sh; [done|]. simpl. by rewrite IH. Qed.

(** A failing verdict is always followed by [trip_fail_fast], which records it. *)
Lemma trip_failed kg t sh : failed (trip_fail_fast kg t sh) = true.
Proof.
  unfold trip_fail_fast. destruct kg; [done|]. simpl. rewrite failed_mark.
  unfold fail_scope. by case_match.
Qed.

Lemma Fails_trip kg t sh : Fails (trip_fail_fast kg t sh).
Proof. apply Fails_failed, trip_failed. Qed.

Lemma Fails_publish t o sh : Fails sh -> ok o = true \/ failed sh = true -> Fails (publish t o sh).
Proof.
  intros [] [Ho|Hf]; [|by apply Fails_failed]. split; try done. simpl. intros t' o'.
  destruct (decide (t' = t)) as [->|]; [rewrite lookup_insert_eq; by intros [= <-]; rewrite Ho|].
  rewrite lookup_insert_ne by done. apply fails_done0.
Qed.

Lemma Fails_budgets R sight sh : Fails sh -> Fails (enforce_budgets R sight sh).
Proof.
  intros H. unfold enforce_budgets. case_match; [|done]. apply Fails_failed. simpl.
  by rewrite failed_mark.
Qed.

Lemma Fails_supervisor kg step failure sh :
  Fails sh -> Fails (publish_supervisor_failure kg step failure sh).1.
Proof. intros H. unfold publish_supervisor_failure. case_match; [done|]. simpl. apply Fails_trip. Qed.

Lemma Fails_unstarted R step o sh : Fails (fail_unstarted R step o sh).
Proof. apply Fails_trip. Qed.

(** ** The invariant of a system *)

Section system.
Context {SD : StrDebug} (f64_display : f64 -> string) (R : Runner) (caps : gmap string Z).

Abbreviation Inv := (DagInv.Inv R caps).

Record Sound (σ : System) : Prop := {
  sound_once : NoDup (thread_entries (handles σ) (queued σ)).*1;
  sound_known : forall s, s ∈ (handles σ).*1 ++ queued σ -> r_steps R !! tag s = Some s;
  sound_recovering : forall l s, at_ σ = Recovering l -> s ∈ l -> (s, Finished) ∈ handles σ;
  sound_inv : Inv (core (shared σ)) (lives (handles σ) (queued σ));
  sound_fails : Fails (shared σ)
}.

(** A thread changes the shared state and its own phase. *)
Lemma sound_thread σ i s ph sh ph' :
  Sound σ -> handles σ !! i = Some (s, ph) -> ph <> Finished ->
  (Inv (core (shared σ)) (lives (handles σ) (queued σ)) ->
   lives (handles σ) (queued σ) !! tag s = Some (In ph) ->
   r_steps R !! tag s = Some s ->
   Inv (core sh) (<[tag s := In ph']> (lives (handles σ) (queued σ)))) ->
  Fails sh -> Sound (with_thread σ sh i s ph').
Proof.
  intros H Hi Hph Hinv Hf.
  destruct (lives_move _ (queued σ) _ _ _ ph' (sound_once _ H) Hi) as [Hk Hm].
  assert (Hfst : (<[i := (s, ph')]> (handles σ)).*1 = (handles σ).*1).
  { rewrite list_fmap_insert. apply list_insert_id. by rewrite list_lookup_fmap, Hi. }
  unfold queued in *. split; unfold queued; simpl; rewrite ?Hk, ?Hm, ?Hfst; [apply H|apply H| | |done].
  - intros l x Hl Hx. pose proof (sound_recovering _ H l x Hl Hx) as Hin.
    apply list_elem_of_lookup in Hin as [j Hj]. apply list_elem_of_lookup. exists j.
    rewrite list_lookup_insert_ne; [done|]. intros ->. by simplify_eq.
  - apply Hinv; [apply H|by apply (lives_thread _ _ i), Hi; apply H|].
    apply (sound_known _ H), elem_of_app. left. apply list_elem_of_fmap. exists (s, ph).
    split; [done|]. by eapply list_elem_of_lookup_2.
Qed.

(** A supervisor's death certificate: its step is retired and published as failed. *)
Lemma inv_supervisor_failure kg step failure sh m ph :
  Inv (core sh) m -> m !! tag step = Some (In ph) -> r_steps R !! tag step = Some step ->
  Inv (core (publish_supervisor_failure kg step failure sh).1) (<[tag step := In Reporting]> m)
  \/ (is_Some (done sh !! tag step) /\ (publish_supervisor_failure kg step failure sh).1 = sh).
Proof.
  intros H Ht Hstep. unfold publish_supervisor_failure, is_done.
  case_bool_decide as Hd; [by right|]. left. simpl.
  rewrite core_trip, core_publish_op, core_retire_op. simpl.
  rewrite <- (insert_insert_eq m (tag step) _ (In Unwinding)).
  apply inv_publish; [|by rewrite lookup_insert_eq].
  apply (inv_retire R caps _ _ (tag step)); [done| |done|done].
  exists ph. split; [done|]. simpl. rewrite lookup_fmap. by apply eq_None_not_Some in Hd as ->.
Qed.

Lemma inv_unstarted step o sh m ph :
  Inv (core sh) m -> m !! tag step = Some (In ph) -> is_live ph = true ->
  r_steps R !! tag step = Some step ->
  Inv (core (fail_unstarted R step o sh)) (<[tag step := In Reporting]> m).
Proof.
  intros H Ht Hl Hstep. unfold fail_unstarted. rewrite core_trip, core_publish_op, core_retire_op.
  rewrite <- (insert_insert_eq m (tag step) _ (In Unwinding)).
  apply inv_publish; [|by rewrite lookup_insert_eq].
  apply (inv_retire R caps _ _ (tag step)); [done| |done|done].
  exists ph. split; [done|]. pose proof (i_cell _ _ _ _ H (tag step)) as Hc. rewrite Ht in Hc.
  unfold cell in Hc. repeat case_match; simplify_eq; tauto.
Qed.

Lemma core_final_scan step rp cause sh m :
  Inv (core sh) m -> Inv (core (final_scan R step rp cause sh)) m.
Proof.
  intros H. unfold final_scan. destruct (publishes_any step && _ && _); [|done].
  generalize (btree_elems (signalled_artifacts (rp_listing rp) step)). intros l. revert sh H.
  induction l as [|name l IH]; intros sh H; [done|]. apply IH. rewrite core_signal_op. by apply inv_signal.
Qed.

Lemma inv_finish step rp sh m :
  Inv (core sh) m -> m !! tag step = Some (In Supervising) -> r_steps R !! tag step = Some step ->
  Inv (core (finish f64_display R step rp sh)) (<[tag step := In Reporting]> m).
Proof.
  intros H Ht Hstep. unfold finish. destruct (outcome_of _ _ _ _ _) as [o missing].
  assert (Hp : Inv (core (publish (tag step) o (final_scan R step rp
    (aborted_by (retire sh step).1 !! tag step) (retire sh step).1))) (<[tag step := In Reporting]> m)).
  { rewrite core_publish_op, <- (insert_insert_eq m (tag step) _ (In Unwinding)).
    apply inv_publish; [|by rewrite lookup_insert_eq]. apply core_final_scan. rewrite core_retire_op.
    apply (inv_retire R caps _ _ (tag step)); [done| |done|done].
    exists Supervising. split; [done|]. pose proof (i_cell _ _ _ _ H (tag step)) as Hc.
    rewrite Ht in Hc. apply Hc. }
  destruct (is_none _ && _ && _), (is_none _ && _); rewrite ?core_trip, ?core_cancel; try done; by apply inv_discards.
Qed.

(** A child that did well, and signalled what it publishes, passes. *)
Lemma outcome_passes step rp o :
  outcome_of f64_display R step rp None = (o, false) -> child_ok rp = true -> ok o = true.
Proof.
  unfold outcome_of. intros Ho Hok.
  assert (Hj : ok (judge_results rp None (first_outcome f64_display R step rp None)) = true).
  { unfold first_outcome. rewrite Hok. unfold judge_results.
    destruct (rp_results_error rp) eqn:He; [|by case_match].
    unfold child_ok in Hok. rewrite He in Hok. simpl in Hok. by rewrite andb_false_r in Hok. }
  unfold judge_signals in Ho. repeat case_match; by simplify_eq.
Qed.

Lemma Fails_finish step rp sh : Fails sh -> Fails (finish f64_display R step rp sh).
Proof.
  intros H. unfold finish. set (sh1 := (retire sh step).1).
  assert (H1 : Fails sh1) by (eapply Fails_same_fate; [apply fate_retire|done]).
  set (cause := aborted_by sh1 !! tag step).
  destruct (outcome_of f64_display R step rp cause) as [o missing] eqn:Ho.
  assert (H2 : Fails (final_scan R step rp cause sh1)).
  { eapply Fails_same_fate; [|exact H1]. unfold final_scan. case_match; [|done].
    apply fate_foldl. intros sh' name. apply fate_signal. }
  assert (Hfate : failed (final_scan R step rp cause sh1) = failed sh1).
  { apply same_fate_failed. unfold final_scan. case_match; [|done]. apply fate_foldl. intros; apply fate_signal. }
  destruct (is_none cause && (negb (child_ok rp) || missing)) eqn:Htrip; [apply Fails_trip|].
  destruct cause as [c|] eqn:Hc.
  - simpl. apply Fails_publish; [done|]. right. rewrite Hfate.
    apply (fails_aborted _ H1 (tag step)). fold cause. rewrite Hc. by eexists.
  - simpl in Htrip. apply orb_false_iff in Htrip as [Hok%negb_false_iff ->].
    pose proof (outcome_passes _ _ _ Ho Hok) as Hpass. rewrite Hpass. simpl.
    apply Fails_publish; [done|by left].
Qed.

(** *** A supervisor moves *)

Lemma inv_crash kg step failure sh m ph :
  Inv (core sh) m -> m !! tag step = Some (In ph) -> ph <> Finished -> r_steps R !! tag step = Some step ->
  Inv (core (publish_supervisor_failure kg step failure sh).1) (<[tag step := In Reporting]> m).
Proof.
  intros H Ht Hph Hstep.
  destruct (inv_supervisor_failure kg step failure sh m ph H Ht Hstep) as [Hinv|[Hd ->]]; [done|].
  pose proof (i_cell _ _ _ _ H (tag step)) as Hc. rewrite Ht in Hc. simpl in Hc.
  rewrite lookup_fmap in Hc. destruct Hd as [o Ho]. rewrite Ho in Hc.
  assert (ph = Reporting) as -> by (destruct ph; simpl in Hc; by destruct_and? || done).
  by rewrite insert_id.
Qed.

Lemma inv_unwind step sh m :
  Inv (core sh) m -> m !! tag step = Some (In Supervising) -> r_steps R !! tag step = Some step ->
  Inv (core (retire sh step).1) (<[tag step := In Unwinding]> m).
Proof.
  intros H Ht Hstep. rewrite core_retire_op. apply (inv_retire R caps _ _ (tag step)); [done| |done|done].
  exists Supervising. split; [done|]. pose proof (i_cell _ _ _ _ H (tag step)) as Hc. rewrite Ht in Hc. apply Hc.
Qed.

Lemma inv_observe t exited sh m :
  Inv (core sh) m -> m !! t = Some (In Supervising) ->
  Inv (core (try_wait_and_uncount t exited sh)) (<[t := In Supervising]> m).
Proof.
  intros H Ht. rewrite insert_id by done. unfold try_wait_and_uncount. destruct exited; [|done].
  rewrite core_uncount. by apply inv_discount.
Qed.

Lemma inv_thread_step e s ph sh sh' ph' m :
  Inv (core sh) m -> m !! tag s = Some (In ph) -> r_steps R !! tag s = Some s ->
  thread_step f64_display R e s ph sh = Some (sh', ph') -> Inv (core sh') (<[tag s := In ph']> m).
Proof.
  intros H Ht Hs. destruct e as [| i|i pid nonce|i error elapsed|i exited|i rp|i|i detail elapsed|i]; simpl.
  - done.
  - destruct ph; intros [= <- <-]. by eapply inv_unstarted.
  - destruct ph; intros [= <- <-]. pose proof (inv_count R caps _ _ _ H Ht) as Hc.
    by destruct (bool_decide (is_Some (aborted_by sh !! tag s))).
  - destruct ph; intros [= <- <-]. by eapply inv_unstarted.
  - destruct ph; intros [= <- <-]. by apply inv_observe.
  - destruct ph; intros [= <- <-]. by apply inv_finish.
  - destruct ph; intros [= <- <-]. by apply inv_unwind.
  - destruct (is_finished ph) eqn:Hf; [done|]. intros [= <- <-].
    apply inv_crash with ph; [done..| |done]. by apply bool_decide_eq_false in Hf.
  - destruct (is_finished ph); [done|]. intros [= <- <-]. by eapply inv_end.
Qed.

Lemma Fails_thread_step e s ph sh sh' ph' :
  Fails sh -> thread_step f64_display R e s ph sh = Some (sh', ph') -> Fails sh'.
Proof.
  intros H. destruct e as [| i|i pid nonce|i error elapsed|i exited|i rp|i|i detail elapsed|i]; simpl;
    try (destruct ph; try done).
  all: intros Hstep; simplify_eq/=; try done; try apply Fails_unstarted.
  all: try (by apply Fails_finish); try (by apply Fails_supervisor).
  - eapply Fails_same_fate; [|exact H]. by case_match.
  - eapply Fails_same_fate; [|exact H]. unfold try_wait_and_uncount. destruct exited; [apply fate_uncount|done].
  - eapply Fails_same_fate; [apply fate_retire|done].
Qed.

Lemma sound_thread_step σ i e s ph sh ph' :
  Sound σ -> handles σ !! i = Some (s, ph) ->
  thread_step f64_display R e s ph (shared σ) = Some (sh, ph') -> Sound (with_thread σ sh i s ph').
Proof.
  intros H Hi He. apply sound_thread with ph; [done|done| | |].
  - intros ->. by destruct e.
  - intros Hinv Ht Hstep. by eapply inv_thread_step.
  - eapply Fails_thread_step; [apply H|done].
Qed.

(** *** A pass *)

Lemma inv_scan sight sh m : Inv (core sh) m -> Inv (core (scan_artifacts R sight sh)) m.
Proof.
  intros H. unfold scan_artifacts. destruct (artifact_dir R); [|done].
  revert sh H. induction (map_to_list (r_steps R)) as [|[t step] l IH]; intros sh H; [done|].
  apply IH. unfold scan_step. destruct (publishes step) eqn:E; [done|]. destruct (listing sight t) as [names|]; [|done].
  clear -H. revert sh H. induction names as [|name names IH]; intros sh H; [done|].
  apply IH. unfold scan_entry. destruct (contains name ".tmp"); [done|]. case_match; [|done].
  rewrite core_signal_op. by apply inv_signal.
Qed.

(** What [ready] asks, on the core. *)
Lemma ready_spec sh sk t step :
  ready sh sk t step = true ->
  done sh !! t = None /\ ~ (t ∈ running sh) /\ ~ (t ∈ sk) /\ skip_reason step = None
  /\ startable_after_stop sh t = true
  /\ (forall d, d ∈ deps step -> c_done (core sh) !! d = Some true)
  /\ (forall a, a ∈ artifact_deps step -> (dep_step a, dep_artifact a) ∈ artifact_signalled sh).
Proof.
  unfold ready, outstanding, deps_ok, artifact_deps_ok, is_done, has_skip_reason. rewrite !andb_true_iff, !negb_true_iff.
  rewrite !bool_decide_eq_false, !forallb_elem. intros ((((((?&?)&?)&Hs)&?)&_)&Hd&Ha) || intros (((((((Hdn&?)&?)&Hs)&?)&_)&Hd)&Ha).
  split_and!; try done.
  - by apply eq_None_not_Some.
  - by destruct (skip_reason step).
  - intros d Hin. specialize (Hd d Hin). unfold succeeded in Hd. simpl. rewrite lookup_fmap.
    destruct (done sh !! d); [|done]. simpl. by rewrite Hd.
  - intros a Hin. by apply (Ha a), bool_decide_eq_true in Hin.
Qed.

Lemma res_free_spec sh step r n :
  res_free sh step = true -> resources (hint step) !! r = Some n ->
  (n <= capacity (resource_avail sh) r)%Z.
Proof.
  unfold res_free. rewrite forallb_elem. intros Hf Hr.
  specialize (Hf (r, n)). simpl in Hf. apply Z.leb_le, Hf. by apply elem_of_btree_iter.
Qed.

Lemma admissible_may_launch sh sk t step m :
  Inv (core sh) m -> r_steps R !! t = Some step -> admissible R sh sk t step = true ->
  may_launch R (c_deeds (core sh)) t.
Proof.
  intros H Hstep. unfold admissible. rewrite andb_true_iff, negb_true_iff. intros [Hr Hrt].
  apply ready_spec in Hr as (Hd & Hrun & _ & Hsk & _ & Hdeps & Harts).
  split_and!; [|done|exists step; split_and!; [done|done| |]].
  - rewrite (i_launched _ _ _ _ H). intros [l Hl]. pose proof (i_cell _ _ _ _ H t) as Hc.
    rewrite Hl in Hc. simpl in Hc. rewrite lookup_fmap, Hd in Hc. simpl in Hc.
    unfold cell in Hc. repeat case_match; rewrite <- ?not_eq_None_Some in Hc; tauto.
  - intros d Hin. by apply (i_credit _ _ _ _ H), Hdeps.
  - intros a Hin. by apply (i_signalled _ _ _ _ H (dep_step a, dep_artifact a)), Harts.
Qed.

(** What holds of an admission while the loop runs. *)
Definition sound_admission (hs : list (Step * phase)) (a : Admission) : Prop :=
  NoDup (thread_entries hs (launchable a).*1).*1 /\
  (forall s, s ∈ (launchable a).*1 -> r_steps R !! tag s = Some s) /\
  Inv (core (a_shared a)) (lives hs (launchable a).*1).

Lemma sound_admit hs a t step reservation sk :
  well_keyed R -> sound_admission hs a -> r_steps R !! t = Some step ->
  admissible R (a_shared a) sk t step = true ->
  (Z.of_nat (size (running (a_shared a))) < max_steps R)%Z -> res_free (a_shared a) step = true ->
  sound_admission hs (admit_step t step reservation a).
Proof.
  intros Hkey (Hnd & Hknown & Hinv) Hstep Hadm Hwide Hfree.
  pose proof (Hkey _ _ Hstep) as Htag.
  pose proof (admissible_may_launch _ _ _ _ _ Hinv Hstep Hadm) as Hmay.
  unfold admissible in Hadm. apply andb_true_iff in Hadm as [Hr _].
  apply ready_spec in Hr as (Hd & Hrun & _).
  assert (Hnone : lives hs (launchable a).*1 !! tag step = None).
  { rewrite Htag. destruct Hmay as [Hl _]. rewrite (i_launched _ _ _ _ Hinv) in Hl.
    by apply eq_None_not_Some. }
  destruct (lives_queue _ _ _ Hnd Hnone) as [Hnd' Hm].
  unfold sound_admission. simpl. rewrite fmap_app. simpl. split_and!; [done| |].
  - intros s [Hs|Hs%list_elem_of_singleton]%elem_of_app; [by apply Hknown|]. by subst.
  - rewrite Hm, Htag. apply (inv_admit R caps (core (a_shared a))); try done.
    + simpl. by rewrite lookup_fmap, Hd.
    + intros r n. by apply res_free_spec.
Qed.

Lemma sound_launch_loop sight sk hs tags a :
  well_keyed R -> sound_admission hs a -> sound_admission hs (launch_loop R sight sk tags a).
Proof.
  intros Hkey. revert a. induction tags as [|t tags IH]; intros a Ha; [done|]. simpl.
  destruct (r_steps R !! t) as [step|] eqn:Hstep; [|done].
  destruct (admissible R (a_shared a) sk t step) eqn:Hadm; simpl; [|by apply IH].
  destruct (max_steps R <=? _)%Z eqn:Hwide; [done|].
  destruct (res_free (a_shared a) step) eqn:Hfree; simpl; [|by apply IH].
  destruct (reserve _ _ _ _) as [coord [reservation|]]; apply IH; [|done].
  apply sound_admit with sk; try done. by apply Z.leb_gt in Hwide.
Qed.

Lemma fate_launch_loop sight sk tags a :
  same_fate (a_shared a) (a_shared (launch_loop R sight sk tags a)).
Proof.
  revert a. induction tags as [|t tags IH]; intros a; [done|]. simpl.
  destruct (r_steps R !! t) as [step|]; [|done]. case_match; [by etrans; [|apply IH]|].
  case_match; [done|]. case_match; [by etrans; [|apply IH]|].
  destruct (reserve _ _ _ _) as [coord [reservation|]]; (etrans; [|apply IH]); done.
Qed.

Lemma queued_launching σ l sh coord :
  queued {| shared := sh; coordinator := coord; handles := handles σ; at_ := Launching l |} = l.*1.
Proof. done. Qed.

(** The invariant needs nothing of the position but what is still queued. *)
Lemma sound_move σ σ' :
  Sound σ -> handles σ' = handles σ -> queued σ' = queued σ ->
  (forall l s, at_ σ' = Recovering l -> s ∈ l -> (s, Finished) ∈ handles σ) ->
  Inv (core (shared σ')) (lives (handles σ) (queued σ)) -> Fails (shared σ') -> Sound σ'.
Proof.
  intros H Hh Hq Hr Hi Hf. split; rewrite ?Hh, ?Hq; [apply H|apply H|done|done|done].
Qed.

Lemma pass_spec sight sh coord sh' coord' v :
  pass R sight sh coord = (sh', coord', v) ->
  let sh0 := scan_artifacts R sight (enforce_budgets R sight sh) in
  (core sh' = core sh0 /\ (same_fate sh0 sh' \/ failed sh' = true) /\ (v = LoopPanics \/ v = LoopEnds))
  \/ (exists coord0, let a := launch_loop R sight (skipped R sh0) (order R)
        {| a_shared := sh0; a_coordinator := coord0; launchable := [] |} in
      (sh' = a_shared a /\ v = LoopLaunches (launchable a))
      \/ (core sh' = core (a_shared a) /\ failed sh' = true /\ v = LoopEnds /\ launchable a = [])).
Proof.
  intros Hp sh0. unfold pass in Hp. fold sh0 in Hp.
  destruct (negb _). { simplify_eq. left. split_and!; [done|by left|by left]. }
  destruct (loop_over R sh0 (skipped R sh0)). { simplify_eq. left. split_and!; [done|by left|by right]. }
  right. exists (retain_pending (eligible R sh0 (skipped R sh0)) <$> coord). simpl.
  destruct (starved _ _ _ _ _) eqn:Hs; simplify_eq; [right|by left].
  split_and!; try done. unfold starved in Hs. by destruct (launchable _).
Qed.

Lemma sound_pass σ sight sh coord v :
  well_keyed R -> Sound σ -> at_ σ = Passing -> pass R sight (shared σ) (coordinator σ) = (sh, coord, v) ->
  Sound {| shared := sh; coordinator := coord; handles := handles σ;
           at_ := match v with
                  | LoopEnds => Joining | LoopPanics => Panicked | LoopLaunches l => Launching l
                  end |}.
Proof.
  intros Hkey H Hat Hp. assert (Hq : queued σ = []) by (unfold queued; by rewrite Hat).
  destruct H as [Hnd Hknown _ Hinv Hf]. rewrite Hq in *.
  set (sh0 := scan_artifacts R sight (enforce_budgets R sight (shared σ))).
  assert (Hinv0 : Inv (core sh0) (lives (handles σ) [])) by (apply inv_scan; by rewrite core_budgets).
  assert (Hf0 : Fails sh0) by (eapply Fails_same_fate; [apply fate_scan|by apply Fails_budgets]).
  rewrite app_nil_r in Hknown.
  destruct (pass_spec _ _ _ _ _ _ Hp) as [(Hc & Hfate & Hv)|(coord0 & Hl)].
  { fold sh0 in Hc, Hfate. assert (Fails sh).
    { destruct Hfate; [by eapply Fails_same_fate|by apply Fails_failed]. }
    destruct Hv as [-> | ->]; (split; unfold queued; simpl; rewrite ?app_nil_r, ?Hc; done). }
  fold sh0 in Hl. set (a0 := {| a_shared := sh0; a_coordinator := coord0; launchable := [] |}) in Hl.
  assert (Ha : sound_admission (handles σ) (launch_loop R sight (skipped R sh0) (order R) a0))
    by (apply sound_launch_loop; [done|]; split_and!; simpl; [done|by intros s ?%elem_of_nil|done]).
  pose proof (fate_launch_loop sight (skipped R sh0) (order R) a0) as Hfate.
  simpl in Hl. destruct (launch_loop R sight (skipped R sh0) (order R) a0) as [sh1 coord1 l].
  destruct Ha as (Hnd1 & Hknown1 & Hinv1). simpl in *.
  destruct Hl as [[-> ->]|(Hc & Hfail & -> & ->)].
  - split; unfold queued; simpl; try done; [|by eapply Fails_same_fate].
    intros s [Hs|Hs]%elem_of_app; [by apply Hknown|by apply Hknown1].
  - apply Fails_failed in Hfail. split; unfold queued; simpl; rewrite ?app_nil_r, ?Hc; done.
Qed.

Lemma sound_main_step σ sight σ' :
  well_keyed R -> Sound σ -> main_step R sight σ = Some σ' -> Sound σ'.
Proof.
  intros Hkey H. unfold main_step. destruct (at_ σ) as [|[|s rest]| |[|[s reservation] rest]| | |] eqn:Hat; try done.
  - intros [= <-]. apply (sound_move σ); try done; try apply H. { unfold queued. by rewrite Hat. }
    simpl. intros l s [= <-] Hs. unfold sweep in Hs.
    apply list_elem_of_fmap in Hs as ([s' ph] & -> & Hs%elem_of_filter_b). destruct Hs as [Hin Hs].
    apply andb_true_iff in Hs as [Hph%bool_decide_eq_true _]. simpl in Hph. by subst.
  - intros [= <-]. apply (sound_move σ); try done; try apply H. { unfold queued. by rewrite Hat. }
  - intros [= <-]. assert (Hin : (s, Finished) ∈ handles σ) by (eapply sound_recovering; [done..|by left]).
    assert (Hq : queued σ = []) by (unfold queued; by rewrite Hat).
    apply list_elem_of_lookup in Hin as [i Hi].
    assert (Hs : r_steps R !! tag s = Some s).
    { apply (sound_known _ H), elem_of_app. left. apply list_elem_of_fmap. exists (s, Finished).
      split; [done|]. by eapply list_elem_of_lookup_2. }
    pose proof (lives_thread _ (queued σ) _ _ _ (sound_once _ H) Hi) as Hl.
    apply (sound_move σ); try done.
    + simpl. intros l x [= <-] Hx. eapply sound_recovering; [done..|by right].
    + simpl. destruct (inv_supervisor_failure (keep_going R) s vanished (shared σ) _ _
        (sound_inv _ H) Hl Hs) as [Hinv|[_ ->]]; [|apply H].
      apply (inv_end _ _ _ _ (tag s) Reporting) in Hinv; [|by rewrite lookup_insert_eq].
      by rewrite insert_insert_eq, insert_id in Hinv.
    + by apply Fails_supervisor, H.
  - destruct (pass _ _ _ _) as [[sh coord] v] eqn:Hp. intros [= <-]. by eapply sound_pass.
  - intros [= <-]. apply (sound_move σ); try done; try apply H. { unfold queued. by rewrite Hat. }
  - intros [= <-]. destruct H as [Hnd Hknown _ Hinv Hf]. unfold queued in *. rewrite Hat in *.
    rewrite fmap_cons in *. cbn [fst] in *. destruct (lives_take _ _ _ (starting reservation) Hnd) as [Hk Hm].
    split; unfold queued; simpl; rewrite ?Hk, ?Hm; try done.
    + intros x Hx. apply Hknown. rewrite fmap_app in Hx. simpl in Hx.
      rewrite !elem_of_app, list_elem_of_singleton in Hx. rewrite elem_of_app, elem_of_cons. simpl. tauto.
    + apply inv_take; [done|]. unfold lives. apply elem_of_list_to_map; [done|].
      unfold thread_entries. rewrite fmap_cons, elem_of_app. right. by left.
  - destruct (forallb _ _); [|done]. intros [= <-]. apply (sound_move σ); try done; try apply H.
    unfold queued. by rewrite Hat.
Qed.

(** ** Every reachable system is sound *)

Theorem sound_exec σ e σ' :
  well_keyed R -> Sound σ -> exec f64_display R e σ = Some σ' -> Sound σ'.
Proof.
  intros Hkey H. destruct e as [sight| | | | | | | |]; [by apply sound_main_step|cbn [exec]..];
    (destruct (handles σ !! i) as [[s ph]|] eqn:Hi; [|done]; cbn [mbind option_bind];
     match goal with |- context [thread_step ?f ?R ?e ?s ?ph ?sh] =>
       destruct (thread_step f R e s ph sh) as [[sh' ph']|] eqn:He end; [|done];
     intros [= <-]; by eapply sound_thread_step).
Qed.
End system.
