(* ===== verification/DagSkip.v ===== *)
(** * dagrun: the systems a run can reach, and the steps that can no longer run

    Every reachable system of a configured run is [Sound], and once the loop has ended
    nothing runs.  The fixpoint of [Runner::skipped] is the least set closed under its two
    rules, whatever order its rounds visit the steps in. *)
From S2P Require Import Prelude RustStr External DagModel DagOutcome DagSchedule DagRunner DagRun DagCore DagInv DagSystem.

Section reach.
Context {SD : StrDebug} (f64_display : f64 -> string).

(** ** Nothing is admitted by a supervisor *)

Lemma running_retire sh step : running (retire sh step).1 = running sh.
Proof. unfold retire, uncount_process. case_decide; [done|]. simpl. by case_decide. Qed.

Lemma running_core sh sh' : core sh = core sh' -> running sh = running sh'.
Proof. intros Hc. change (c_running (core sh) = c_running (core sh')). by rewrite Hc. Qed.

Lemma foldl_keeps {B A} (p : Shared -> B) (f : Shared -> A -> Shared) l sh :
  (forall sh x, p (f sh x) = p sh) -> p (foldl f sh l) = p sh.
Proof. intros Hf. revert sh. induction l as [|x l IH]; intros sh; [done|]. simpl. by rewrite IH. Qed.

Lemma running_signal t name sh : running (signal t name sh) = running sh.
Proof. unfold signal. by case_decide. Qed.

Lemma running_scan R sight sh : running (scan_artifacts R sight sh) = running sh.
Proof.
  unfold scan_artifacts. destruct (artifact_dir R); [|done]. apply foldl_keeps. intros sh' [t step].
  unfold scan_step. destruct (publishes step) eqn:E; [done|]. destruct (listing sight t); [|done].
  apply foldl_keeps. intros sh'' name. unfold scan_entry. repeat case_match; [done| |done]. apply running_signal.
Qed.

Lemma running_budgets R sight sh : running (enforce_budgets R sight sh) = running sh.
Proof. apply running_core, core_budgets. Qed.

Lemma running_signals t l sh : running (foldl (fun sh name => signal t name sh) sh l) = running sh.
Proof. apply (foldl_keeps running). intros; apply running_signal. Qed.

Lemma running_discards producer l c :
  c_running (foldl (fun c dep => core_discard producer dep c) c l) = c_running c.
Proof.
  revert c. induction l as [|d l IH]; intros c; [done|]. simpl. rewrite IH.
  unfold core_discard. by repeat case_match.
Qed.

Lemma running_cancel producer deps sh :
  running (cancel_artifact_dependents producer deps sh) = running sh.
Proof.
  change (c_running (core (cancel_artifact_dependents producer deps sh)) = c_running (core sh)).
  by rewrite core_cancel, running_discards.
Qed.

Lemma running_trip kg t sh : running (trip_fail_fast kg t sh) = running sh.
Proof. apply running_core, core_trip. Qed.

Lemma running_supervisor_failure kg step failure sh :
  running (publish_supervisor_failure kg step failure sh).1 ⊆ running sh.
Proof.
  unfold publish_supervisor_failure. case_match; [done|]. cbn [fst]. rewrite running_trip. simpl.
  rewrite running_retire. apply subseteq_difference_l. done.
Qed.

Lemma running_finish R step rp sh : running (finish f64_display R step rp sh) ⊆ running sh.
Proof.
  unfold finish. destruct (outcome_of _ _ _ _ _) as [o missing].
  assert (Hp : running (publish (tag step) o (final_scan R step rp
    (aborted_by (retire sh step).1 !! tag step) (retire sh step).1)) ⊆ running sh).
  { simpl. apply subseteq_difference_l. unfold final_scan. case_match; rewrite ?running_signals, running_retire; done. }
  destruct (is_none _ && _ && _), (is_none _ && _); by rewrite ?running_trip, ?running_cancel.
Qed.

Lemma running_unstarted R step o sh : running (fail_unstarted R step o sh) ⊆ running sh.
Proof.
  unfold fail_unstarted. rewrite running_trip. simpl. rewrite running_retire. by apply subseteq_difference_l.
Qed.

Lemma running_thread_step R e s ph sh sh' ph' :
  thread_step f64_display R e s ph sh = Some (sh', ph') -> running sh' ⊆ running sh.
Proof.
  destruct e as [| i|i pid nonce|i error elapsed|i exited|i rp|i|i detail elapsed|i]; simpl;
    try (destruct ph; try done).
  all: intros Hstep; simplify_eq/=; try done; try apply running_unstarted; try apply running_supervisor_failure.
  - by case_match.
  - unfold try_wait_and_uncount, uncount_process. by repeat case_match.
  - apply running_finish.
  - by rewrite running_retire.
Qed.

(** ** After the loop *)

Definition Over (σ : System) : Prop := at_ σ = Joining \/ at_ σ = Ended -> running (shared σ) = ∅.

Lemma pass_ends R sight sh coord sh' coord' : 
  pass R sight sh coord = (sh', coord', LoopEnds) -> running sh' = ∅.
Proof.
  unfold pass. destruct (negb _); [done|]. destruct (loop_over _ _ _) eqn:Hover.
  - intros [= <- _]. unfold loop_over in Hover. rewrite !andb_true_iff in Hover.
    destruct Hover as [[Hr _] _]. by apply bool_decide_eq_true in Hr.
  - destruct (starved _ _ _ _ _) eqn:Hs; [|done]. intros [= <- _]. simpl.
    unfold starved in Hs. rewrite !andb_true_iff in Hs. destruct Hs as [[[_ Hr] _] _].
    by apply bool_decide_eq_true in Hr.
Qed.

Lemma over_exec R σ e σ' : Over σ -> exec f64_display R e σ = Some σ' -> Over σ'.
Proof.
  intros H. destruct e as [sight| | | | | | | |]; cbn [exec];
    try (destruct (handles σ !! i) as [[s ph]|]; [|done]; cbn [mbind option_bind];
     match goal with |- context [thread_step ?f ?R ?e ?s ?ph ?sh] =>
       destruct (thread_step f R e s ph sh) as [[sh' ph']|] eqn:He end; [|done];
     intros [= <-]; intros Hat; apply running_thread_step in He; simpl in *;
     rewrite (H Hat) in He; by apply (anti_symm (⊆)); [|apply empty_subseteq]).
  unfold main_step. destruct (at_ σ) as [|[|s rest]| |[|[s reservation] rest]| | |] eqn:Hat; try done;
    try (by intros [= <-] [?|?]).
  - destruct (pass _ _ _ _) as [[sh coord] v] eqn:Hp. intros [= <-]. unfold Over. simpl.
    destruct v; [|by intros [?|?]..]. intros _. by eapply pass_ends.
  - destruct (forallb _ _); [|done]. intros [= <-] _. simpl. apply H. by left.
Qed.

(** ** A configured run *)

Section configured.
Context (cfg : DagConfig) (max_steps' : Z) (keep_going' : bool) (order_override : option (list string))
  (run_timeout : option Z) (budget : option RunCpuBudget) (runtime : list (string * string))
  (coord : option Coordinator).

Let R := Runner_new cfg max_steps' keep_going' order_override run_timeout budget runtime.

Lemma Runner_new_keyed : well_keyed R.
Proof. intros t step Hs. by apply by_tag_lookup in Hs as [_ Hs]. Qed.

Lemma start_sound : Sound R (resource_caps cfg) (start cfg coord).
Proof.
  split; simpl; try done; [by apply NoDup_nil_2|by intros s Hs%elem_of_nil| |].
  - split; simpl; try done.
    + by intros t [].
    + intros r. unfold in_hand. simpl. rewrite difference_empty_L, held_empty. lia.
    + change (Z.of_nat (size (∅ : gset string)) <= Z.max max_steps' 1)%Z. rewrite size_empty. lia.
    + lia.
    + intros t. split; [by intros ?%elem_of_nil|by intros []].
    + intros t. split; [by intros []|by intros [v Hv%elem_of_nil]].
    + intros t. split; [done|]. by intros [Hp%elem_of_nil _].
    + intros x. split; [by intros ?%not_elem_of_empty|by intros ?%elem_of_nil].
  - split; simpl; try done. intros t. rewrite lookup_empty. by intros [].
Qed.

Lemma run_sound σ :
  reachable f64_display R (start cfg coord) σ -> Sound R (resource_caps cfg) σ /\ Over σ.
Proof.
  induction 1 as [|σ σ' e _ [IH1 IH2] Hexec].
  - split; [apply start_sound|]. intros [?|?]; done.
  - split; [|by eapply over_exec]. eapply sound_exec; [apply Runner_new_keyed|done|done].
Qed.
End configured.
End reach.

(** *** The specification *)

Section doom.
Context (declared : gmap string Step) (left_out : list (string * string)) (sh : Shared).

(** It ended badly. *)
Definition came_to_nothing (t : string) : Prop := exists o, done sh !! t = Some o /\ ok o = false.
(** The caller left it out. *)
Definition is_left_out (t : string) : Prop := exists reason, (t, reason) ∈ left_out.

(** A step that no thread has taken and no one asked to leave out. *)
Definition waiting_step (t : string) (step : Step) : Prop :=
  declared !! t = Some step /\ done sh !! t = None /\ ~ (t ∈ running sh)
  /\ skip_reason step = None /\ ~ is_left_out t.

(** It waits for a step that failed, that the caller left out, or that is itself doomed; an
    artifact edge does not look at what the caller left out. *)
Inductive doomed : string -> Prop :=
| doomed_cause t step d :
    waiting_step t step -> d ∈ deps step -> came_to_nothing d \/ is_left_out d -> doomed t
| doomed_dep t step d : waiting_step t step -> d ∈ deps step -> doomed d -> doomed t
| doomed_producer t step a :
    waiting_step t step -> a ∈ artifact_deps step -> came_to_nothing (dep_step a) -> doomed t
| doomed_artifact t step a :
    waiting_step t step -> a ∈ artifact_deps step -> doomed (dep_step a) -> doomed t.
End doom.

Section skip.
Context (R : Runner) (sh : Shared).

#[local] Abbreviation waiting_step := (waiting_step (r_steps R) (runtime_skips R) sh).
#[local] Abbreviation doomed := (doomed (r_steps R) (runtime_skips R) sh).

Lemma has_failed_spec t : has_failed sh t = true <-> came_to_nothing sh t.
Proof.
  unfold has_failed, came_to_nothing. destruct (done sh !! t) as [o|]; [|naive_solver].
  rewrite negb_true_iff. naive_solver.
Qed.

Lemma runtime_skipped_spec t : runtime_skipped R t = true <-> is_left_out (runtime_skips R) t.
Proof.
  unfold runtime_skipped, is_left_out. rewrite existsb_elem. split.
  - intros ([t' reason] & Hin & Heq). apply String.eqb_eq in Heq as <-. by exists reason.
  - intros [reason Hin]. exists (t, reason). split; [done|]. apply String.eqb_refl.
Qed.

Lemma skip_guard t step (sk : gset string) :
  r_steps R !! t = Some step ->
  (bool_decide (t ∈ sk) || is_done sh t || bool_decide (t ∈ running sh)
     || has_skip_reason step || runtime_skipped R t) = false ->
  waiting_step t step /\ ~ (t ∈ sk).
Proof.
  intros Hstep. rewrite !orb_false_iff. unfold is_done. rewrite !bool_decide_eq_false.
  intros ((((Hsk&Hd)&Hrun)&Hr)&Hrt). split; [split_and!|]; try done.
  - by apply eq_None_not_Some.
  - unfold has_skip_reason in Hr. by destruct (skip_reason step).
  - by rewrite <- runtime_skipped_spec, Hrt.
Qed.

Lemma skip_step_sound (sk : gset string) t step :
  r_steps R !! t = Some step -> (forall x, x ∈ sk -> doomed x) ->
  forall x, x ∈ skip_step R sh sk (t, step) -> doomed x.
Proof.
  intros Hstep Hsk x. unfold skip_step. destruct (_ || runtime_skipped R t) eqn:Hg; [by apply Hsk|].
  destruct (skip_guard _ _ _ Hstep Hg) as [Hw _].
  destruct (existsb (dep_dead R sh sk) (deps step)) eqn:Hd.
  { intros [->%elem_of_singleton|Hx]%elem_of_union; [|by apply Hsk].
    apply existsb_elem in Hd as (d & Hin & Hd).
    unfold dep_dead in Hd. rewrite !orb_true_iff, bool_decide_eq_true in Hd.
    rewrite has_failed_spec, runtime_skipped_spec in Hd.
    destruct Hd as [Hd|Hd]; [by apply doomed_cause with step d|apply doomed_dep with step d; auto]. }
  destruct (existsb (artifact_dead sh sk) (artifact_deps step)) eqn:Ha; [|by apply Hsk].
  intros [->%elem_of_singleton|Hx]%elem_of_union; [|by apply Hsk].
  apply existsb_elem in Ha as (a & Hin & Ha).
  unfold artifact_dead in Ha. rewrite orb_true_iff, bool_decide_eq_true, has_failed_spec in Ha.
  destruct Ha; [by apply doomed_producer with step a|apply doomed_artifact with step a; auto].
Qed.

Lemma skip_round_sound (sk : gset string) :
  (forall x, x ∈ sk -> doomed x) -> forall x, x ∈ skip_round R sh sk -> doomed x.
Proof.
  unfold skip_round. assert (Hall : forall t step, (t, step) ∈ map_to_list (r_steps R) -> r_steps R !! t = Some step)
    by (intros t step; apply elem_of_map_to_list).
  revert sk Hall. induction (map_to_list (r_steps R)) as [|[t step] l IH]; intros sk Hall Hsk; [done|].
  apply IH; [intros; apply Hall; by right|]. apply skip_step_sound; [apply Hall; by left|done].
Qed.

Lemma skip_step_incl sk entry : sk ⊆ skip_step R sh sk entry.
Proof.
  unfold skip_step. destruct entry as [t step]. repeat case_match; try done; apply union_subseteq_r.
Qed.

Lemma foldl_incl {A} (f : gset string -> A -> gset string) l sk :
  (forall sk x, sk ⊆ f sk x) -> sk ⊆ foldl f sk l.
Proof.
  intros Hf. revert sk. induction l as [|x l IH]; intros sk; [done|]. etrans; [apply Hf|apply IH].
Qed.

Lemma skip_round_incl sk : sk ⊆ skip_round R sh sk.
Proof. apply foldl_incl, skip_step_incl. Qed.

(** An increasing pass that changes nothing changes nothing at any of its entries. *)
Lemma foldl_fixed {A} (f : gset string -> A -> gset string) l sk :
  (forall sk x, sk ⊆ f sk x) -> foldl f sk l = sk -> forall x, x ∈ l -> f sk x = sk.
Proof.
  intros Hf. revert sk. induction l as [|y l IH]; intros sk Hfix x Hx; [by apply elem_of_nil in Hx|].
  simpl in Hfix. assert (Hy : f sk y = sk).
  { apply (anti_symm (⊆)); [|apply Hf]. rewrite <- Hfix at 2. by apply foldl_incl. }
  apply elem_of_cons in Hx as [->|Hx]; [done|]. rewrite Hy in Hfix. by apply IH.
Qed.

Lemma skip_fixed_closed sk :
  skip_round R sh sk = sk -> forall t, doomed t -> t ∈ sk.
Proof.
  intros Hfix.
  assert (Hstep : forall t step, r_steps R !! t = Some step -> skip_step R sh sk (t, step) = sk).
  { intros t step Ht. apply (foldl_fixed _ _ _ skip_step_incl Hfix). by apply elem_of_map_to_list. }
  assert (Hrule : forall t step, waiting_step t step ->
    existsb (dep_dead R sh sk) (deps step) = true \/ existsb (artifact_dead sh sk) (artifact_deps step) = true ->
    t ∈ sk).
  { intros t step (Ht & Hd & Hrun & Hr & Hrt) Hdead. specialize (Hstep t step Ht).
    rewrite <- runtime_skipped_spec, not_true_iff_false in Hrt.
    destruct (decide (t ∈ sk)) as [|Hn]; [done|]. unfold skip_step, is_done, has_skip_reason in Hstep.
    rewrite Hd, Hr, Hrt in Hstep. rewrite !bool_decide_eq_false_2 in Hstep by (try done; by intros []).
    simpl in Hstep. rewrite <- Hstep.
    destruct (existsb (dep_dead R sh sk) (deps step)); [by apply elem_of_union_l, elem_of_singleton|].
    destruct (existsb (artifact_dead sh sk) (artifact_deps step)); [by apply elem_of_union_l, elem_of_singleton|].
    naive_solver. }
  induction 1 as [t step d Hw Hin Hd|t step d Hw Hin _ IH|t step a Hw Hin Ha|t step a Hw Hin _ IH];
    apply (Hrule t step Hw); [left|left|right|right]; apply existsb_elem; eexists; (split; [done|]);
    unfold dep_dead, artifact_dead;
    rewrite !orb_true_iff, ?bool_decide_eq_true, has_failed_spec, ?runtime_skipped_spec; tauto.
Qed.

(** *** The rounds end *)

Lemma skip_step_known sk t step :
  r_steps R !! t = Some step -> sk ⊆ dom (r_steps R) -> skip_step R sh sk (t, step) ⊆ dom (r_steps R).
Proof.
  intros Hstep Hsk. assert (Hadd : {[t]} ∪ sk ⊆ dom (r_steps R)).
  { apply union_subseteq. split; [|done]. apply singleton_subseteq_l, elem_of_dom. by eexists. }
  unfold skip_step. by repeat case_match.
Qed.

Lemma skip_round_known sk : sk ⊆ dom (r_steps R) -> skip_round R sh sk ⊆ dom (r_steps R).
Proof.
  unfold skip_round. assert (Hall : forall t step, (t, step) ∈ map_to_list (r_steps R) -> r_steps R !! t = Some step)
    by (intros t step; apply elem_of_map_to_list).
  revert sk Hall. induction (map_to_list (r_steps R)) as [|[t step] l IH]; intros sk Hall Hsk; [done|].
  apply IH; [intros; apply Hall; by right|]. apply skip_step_known; [apply Hall; by left|done].
Qed.

Lemma skip_rounds_fixed fuel sk :
  sk ⊆ dom (r_steps R) -> size (r_steps R) < size sk + fuel ->
  skip_round R sh (skip_rounds R fuel sh sk) = skip_rounds R fuel sh sk.
Proof.
  revert sk. induction fuel as [|fuel IH]; intros sk Hsk Hfuel; simpl.
  - apply subseteq_size in Hsk. rewrite size_dom in Hsk. lia.
  - destruct (decide (skip_round R sh sk = sk)) as [|Hne]; [done|].
    apply IH; [by apply skip_round_known|].
    destruct (decide (size (skip_round R sh sk) <= size sk)) as [Hle|Hgt]; [|lia].
    destruct Hne. symmetry. apply set_subseteq_size_eq; [apply skip_round_incl|done].
Qed.

Lemma skip_rounds_sound fuel (sk : gset string) :
  (forall t, t ∈ sk -> doomed t) -> forall t, t ∈ skip_rounds R fuel sh sk -> doomed t.
Proof.
  revert sk. induction fuel as [|fuel IH]; intros sk Hsk; simpl; [done|].
  case_decide; [done|]. by apply IH, skip_round_sound.
Qed.

Lemma elem_of_skipped t : t ∈ skipped R sh <-> doomed t.
Proof.
  split.
  - apply skip_rounds_sound. intros x Hx. by apply not_elem_of_empty in Hx.
  - apply skip_fixed_closed, skip_rounds_fixed; [apply empty_subseteq|lia].
Qed.

Lemma skipped_known : skipped R sh ⊆ dom (r_steps R).
Proof.
  intros t Ht%elem_of_skipped. apply elem_of_dom.
  destruct Ht as [t step d Hw|t step d Hw|t step a Hw|t step a Hw]; exists step; apply Hw.
Qed.

Lemma skipped_waiting t : t ∈ skipped R sh -> exists step, waiting_step t step.
Proof. intros Ht%elem_of_skipped. destruct Ht; eauto. Qed.
End skip.
