(* ===== verification/DagFair.v ===== *)
(** * dagrun: progress, and the end of a fair run

    With nothing running, a pass of the loop either admits a step or ends the loop: the
    steps it counts as accounted for are disjoint, so a step that could still start is
    never lost in the count.  A fair run is an infinite sequence of systems in which the
    main thread keeps being scheduled and every supervisor thread ends at some time,
    however it ends; it reaches [Ended], because each step is launched at most once, and
    whenever every thread is gone the next passes launch another one or end the loop. *)
From S2P Require Import Prelude RustStr External DagModel DagOutcome DagSchedule DagRunner DagRun DagCore DagInv DagSystem DagSkip.

(** ** Counting *)

Section count.
Context `{Countable A}.
Implicit Types (X Y U : gset A).

Lemma size_disjoint_add X Y : X ## Y -> size X + size Y = size (X ∪ Y).
Proof. intros Hd. by rewrite size_union. Qed.

Lemma size_without x X U : X ⊆ U -> x ∈ U -> ~ (x ∈ X) -> size X < size U.
Proof.
  intros Hsub Hx Hn. assert (size ({[x]} ∪ X) <= size U).
  { apply subseteq_size, union_subseteq. split; [by apply singleton_subseteq_l|done]. }
  rewrite size_insert_new in *; [lia|done].
Qed.
End count.

(** ** Empty passes *)

Lemma launch_loop_grows {SD : StrDebug} R sight sk tags a :
  launchable a <> [] -> launchable (launch_loop R sight sk tags a) <> [].
Proof.
  revert a. induction tags as [|t tags IH]; intros a Ha; [done|]. simpl.
  destruct (r_steps R !! t); [|done]. repeat case_match; try done; try (by apply IH).
  apply IH. simpl. by destruct (launchable a).
Qed.

Lemma launch_loop_none {SD : StrDebug} R sight sk tags a :
  launchable (launch_loop R sight sk tags a) = [] ->
  a_shared (launch_loop R sight sk tags a) = a_shared a.
Proof.
  revert a. induction tags as [|t tags IH]; intros a; [done|]. simpl.
  destruct (r_steps R !! t) as [step|]; [|done]. case_match; [apply IH|]. case_match; [done|].
  case_match; [apply IH|]. destruct (reserve _ _ _ _) as [coord [res|]]; [|by intros ?; rewrite IH].
  intros Hl. exfalso. eapply launch_loop_grows; [|exact Hl]. simpl. by destruct (launchable a).
Qed.

Lemma launch_loop_coordinator {SD : StrDebug} R sight sk tags a :
  a_coordinator a = None -> a_coordinator (launch_loop R sight sk tags a) = None.
Proof.
  revert a. induction tags as [|t tags IH]; intros a Ha; [done|]. simpl.
  destruct (r_steps R !! t) as [step|]; [|done]. case_match; [by apply IH|]. case_match; [done|].
  case_match; [by apply IH|]. rewrite Ha. simpl. by apply IH.
Qed.

Lemma pass_coordinator {SD : StrDebug} R sight sh sh' coord v :
  pass R sight sh None = (sh', coord, v) -> coord = None.
Proof.
  unfold pass. destruct (negb _); [by intros [= _ <- _]|].
  destruct (loop_over _ _ _); [by intros [= _ <- _]|]. cbn [fmap option_fmap option_map].
  destruct (starved _ _ _ _ _); intros [= _ <- _]; by apply launch_loop_coordinator.
Qed.

Section live.
Context {SD : StrDebug} (f64_display : f64 -> string).
Context (cfg : DagConfig) (max_steps' : Z) (keep_going' : bool) (order_override : option (list string))
  (run_timeout : option Z) (budget : option RunCpuBudget).

(** A run that was asked to leave no step out. *)
Let R := Runner_new cfg max_steps' keep_going' order_override run_timeout budget [].
Let caps := resource_caps cfg.

Context (Htags : NoDup (tag <$> steps cfg)).
Context (Horder : forall t, t ∈ order R -> is_Some (r_steps R !! t)).

Lemma configured_step step : step ∈ steps cfg -> r_steps R !! tag step = Some step.
Proof.
  intros Hin. apply map_collect_NoDup.
  - by rewrite <- list_fmap_compose.
  - apply list_elem_of_fmap. by exists step.
Qed.

Lemma intentional_tag t r :
  (t, r) ∈ intentional_skips R -> exists step, r_steps R !! t = Some step /\ skip_reason step = Some r.
Proof.
  intros (step & Hin & Hs)%list_elem_of_omap. destruct (skip_reason step) as [r'|] eqn:E; simplify_eq/=.
  exists step. split; [by apply configured_step|done].
Qed.

Lemma intentional_NoDup : NoDup (intentional_skips R).*1.
Proof.
  unfold intentional_skips, R, Runner_new. revert Htags. generalize (steps cfg). clear.
  induction l as [|step l IH]; [done|]. rewrite fmap_cons, NoDup_cons. intros [Hn Hl]. simpl.
  destruct (skip_reason step) as [r|]; [|by apply IH]. simpl. apply NoDup_cons. split; [|by apply IH].
  intros ([t' r'] & Ht & (s & Hin & Hs)%list_elem_of_omap)%list_elem_of_fmap. apply Hn.
  destruct (skip_reason s); simplify_eq/=. apply list_elem_of_fmap. by exists s.
Qed.

(** A launched step carries no skip reason. *)
Lemma done_unskipped sh m t :
  Inv R caps (core sh) m -> is_Some (done sh !! t) ->
  exists step, r_steps R !! t = Some step /\ skip_reason step = None.
Proof.
  intros H Hd. assert (Hl : Launched t ∈ c_deeds (core sh)).
  { apply (i_launched _ _ _ _ H). pose proof (i_cell _ _ _ _ H t) as Hc. simpl in Hc. rewrite lookup_fmap in Hc.
    destruct (m !! t); [by eexists|]. destruct Hd as [o Ho]. rewrite Ho in Hc. by destruct Hc. }
  apply list_elem_of_split in Hl as (later & earlier & Hl).
  pose proof (i_lawful _ _ _ _ H) as Hlaw. rewrite Hl in Hlaw.
  apply lawful_split in Hlaw as (_ & _ & step & Hs & Hr & _). by exists step.
Qed.

Definition intentional_set : gset string := list_to_set (intentional_skips R).*1.

Lemma elem_of_intentional_set t : t ∈ intentional_set -> exists step r, r_steps R !! t = Some step /\ skip_reason step = Some r.
Proof.
  intros ([t' r] & -> & Hin)%elem_of_list_to_set%list_elem_of_fmap.
  apply intentional_tag in Hin as (step & ? & ?). eauto.
Qed.

Lemma elem_of_blocked sh sk t :
  t ∈ blocked_by_family R sh sk ->
  exists step, r_steps R !! t = Some step /\ done sh !! t = None /\ ~ (t ∈ sk) /\ skip_reason step = None
    /\ startable_after_stop sh t = false.
Proof.
  unfold blocked_by_family. rewrite elem_of_list_to_set. intros [Ht Hin]%elem_of_filter_b.
  unfold on_step in *. destruct (r_steps R !! t) as [step|] eqn:Hs; [|done].
  unfold outstanding, is_done, has_skip_reason in *. rewrite !andb_true_iff, !negb_true_iff, !bool_decide_eq_false in *.
  destruct (skip_reason step) eqn:Hr; [naive_solver|]. exists step.
  split_and!; try tauto; try done. apply eq_None_not_Some. tauto.
Qed.

Lemma accounted_lt sh m t step :
  Inv R caps (core sh) m -> r_steps R !! t = Some step ->
  done sh !! t = None -> ~ (t ∈ skipped R sh) -> skip_reason step = None ->
  startable_after_stop sh t = true ->
  accounted R sh (skipped R sh) < size (r_steps R).
Proof.
  intros H Hstep Hd Hsk Hr Hstart. unfold accounted.
  replace (size (done sh)) with (size (dom (done sh))) by apply size_dom.
  replace (length (intentional_skips R)) with (size intentional_set)
    by (unfold intentional_set; rewrite size_list_to_set by apply intentional_NoDup; apply length_fmap).
  simpl length. rewrite Nat.add_0_r.
  rewrite size_disjoint_add, size_disjoint_add, size_disjoint_add.
  - rewrite <- size_dom. apply (size_without t).
    + intros x. rewrite !elem_of_union. intros [[[Hx|Hx]|Hx]|Hx].
      * apply elem_of_dom in Hx. destruct (done_unskipped _ _ _ H Hx) as (s & Hs & _). apply elem_of_dom. by eexists.
      * by apply (skipped_known R sh).
      * apply elem_of_intentional_set in Hx as (s & r & Hs & _). apply elem_of_dom. by eexists.
      * apply elem_of_blocked in Hx as (s & Hs & _). apply elem_of_dom. by eexists.
    + apply elem_of_dom. by eexists.
    + rewrite !elem_of_union. intros [[[Hx|Hx]|Hx]|Hx]; [|done| |].
      * apply elem_of_dom in Hx. rewrite Hd in Hx. by destruct Hx.
      * apply elem_of_intentional_set in Hx as (s & r & Hs & Hr'). by simplify_eq.
      * apply elem_of_blocked in Hx as (s & Hs & _ & _ & _ & Hb). by rewrite Hstart in Hb.
  - intros x Hx Hb. apply elem_of_blocked in Hb as (s & Hs & Hnd & Hnsk & Hnr & _).
    rewrite !elem_of_union in Hx. destruct Hx as [[Hx|Hx]|Hx]; [|done|].
    + apply elem_of_dom in Hx. rewrite Hnd in Hx. by destruct Hx.
    + apply elem_of_intentional_set in Hx as (s' & r & Hs' & Hr'). by simplify_eq.
  - intros x Hx (s & r & Hs & Hr')%elem_of_intentional_set. apply elem_of_union in Hx as [Hx|Hx].
    + apply elem_of_dom in Hx. destruct (done_unskipped _ _ _ H Hx) as (s' & Hs' & Hn). by simplify_eq.
    + apply skipped_waiting in Hx as (s' & Hs' & _ & _ & Hn & _). by simplify_eq.
  - intros x Hx (s & Hs & Hn & _)%skipped_waiting. apply elem_of_dom in Hx. rewrite Hn in Hx. by destruct Hx.
Qed.

(** ** A pass makes progress *)

Lemma order_known : forallb (fun t => bool_decide (is_Some (r_steps R !! t))) (order R) = true.
Proof. apply forallb_elem. intros t Ht. by apply bool_decide_eq_true_2, Horder. Qed.

(** With nothing running, a pass that neither ends the loop nor admits a step is impossible. *)
Lemma pass_progress sight sh m sh' coord v :
  Inv R caps (core sh) m -> running sh = ∅ ->
  pass R sight sh None = (sh', coord, v) ->
  coord = None /\ (v = LoopEnds \/ exists x l, v = LoopLaunches (x :: l)).
Proof.
  intros H Hrun. unfold pass. set (sh0 := scan_artifacts R sight (enforce_budgets R sight sh)).
  assert (H0 : Inv R caps (core sh0) m) by (apply inv_scan; by rewrite core_budgets).
  assert (Hrun0 : running sh0 = ∅) by (unfold sh0; by rewrite running_scan, running_budgets).
  rewrite order_known. cbn [negb]. destruct (loop_over R sh0 (skipped R sh0)) eqn:Hover; [intros; simplify_eq; eauto|].
  cbn [fmap option_fmap option_map].
  set (a0 := {| a_shared := sh0; a_coordinator := None; launchable := [] |}).
  set (a := launch_loop R sight (skipped R sh0) (order R) a0).
  assert (Hcoord : a_coordinator a = None) by (by apply launch_loop_coordinator).
  rewrite Hcoord. destruct (launchable a) as [|x l] eqn:Hl.
  2: { unfold starved. simpl. intros; simplify_eq. eauto. }
  assert (Hsame : a_shared a = sh0) by (by apply (launch_loop_none R sight (skipped R sh0) (order R) a0)).
  rewrite Hsame. fold (accounted R sh0 (skipped R sh0)).
  assert (Hlt : accounted R sh0 (skipped R sh0) < size (r_steps R)).
  { unfold loop_over in Hover. rewrite Hrun0, bool_decide_eq_true_2 in Hover by done. simpl in Hover.
    apply andb_false_iff in Hover as [Hp|Hp].
    - apply negb_false_iff in Hp. unfold pending_diagnostics in Hp. apply existsb_elem in Hp as (t & Ht & Hp).
      apply andb_true_iff in Hp as [_ Hp]. unfold on_step in Hp.
      destruct (r_steps R !! t) as [step|] eqn:Hs; [|done].
      apply ready_spec in Hp as (Hd & _ & Hsk & Hr & Hstart & _). by eapply accounted_lt.
    - apply orb_false_iff in Hp as [_ Hp]. by apply Nat.leb_gt in Hp. }
  unfold starved. rewrite Hrun0, bool_decide_eq_true_2 by done. simpl.
  assert (Hpos : (0 <? size (r_steps R) - accounted R sh0 (skipped R sh0)) = true) by (apply Nat.ltb_lt; lia).
  change (by_tag (steps cfg)) with (r_steps R). rewrite Hpos. simpl. intros; simplify_eq. eauto.
Qed.
End live.

Section fair.
Context {SD : StrDebug} (f64_display : f64 -> string).

(** ** Traces *)

Record Trace (R : Runner) (init : System) (σ : nat -> System) (e : nat -> event) : Prop := {
  trace_init : σ 0 = init;
  trace_step : forall n, exec f64_display R (e n) (σ n) = Some (σ (S n))
                         \/ (at_ (σ n) = Ended /\ σ (S n) = σ n)
}.

(** The main thread keeps moving. *)
Definition fair_main (σ : nat -> System) (e : nat -> event) : Prop :=
  forall n, exists m, n <= m /\ ((exists sight, e m = Main sight) \/ at_ (σ m) = Ended).

(** Every supervisor thread ends. *)
Definition fair_threads (σ : nat -> System) : Prop :=
  forall n i, i < length (handles (σ n)) ->
  exists m s, n <= m /\ handles (σ m) !! i = Some (s, Finished).

Definition all_finished (σ : System) : Prop :=
  queued σ = [] /\ forall s ph, (s, ph) ∈ handles σ -> ph = Finished.

(** How many steps have been launched. *)
Definition launched (σ : System) : nat := length (handles σ) + length (queued σ).

(** ** What one event does to the threads *)

Section step.
Context (R : Runner).

Lemma exec_thread e σ σ' :
  exec f64_display R e σ = Some σ' -> (exists sight, e = Main sight /\ main_step R sight σ = Some σ')
  \/ exists i s ph sh ph', handles σ !! i = Some (s, ph) /\ ph <> Finished
       /\ thread_step f64_display R e s ph (shared σ) = Some (sh, ph') /\ σ' = with_thread σ sh i s ph'.
Proof.
  intros He. destruct e as [sight| | | | | | | |]; cbn [exec] in He; [left; eauto|right..];
    (destruct (handles σ !! i) as [[s ph]|] eqn:Hi; [|done]; cbn [mbind option_bind] in He;
     match type of He with context [thread_step ?f ?R ?e ?s ?ph ?sh] =>
       destruct (thread_step f R e s ph sh) as [[sh' ph']|] eqn:Ht end; [|done];
     injection He as <-; eexists i, s, ph, sh', ph'; split_and!; [done| |exact Ht|done]; by intros ->).
Qed.

Lemma main_handles sight σ σ' i s ph :
  main_step R sight σ = Some σ' -> handles σ !! i = Some (s, ph) -> handles σ' !! i = Some (s, ph).
Proof.
  unfold main_step. destruct (at_ σ) as [|[|x rest]| |[|[x reservation] rest]| | |]; try done;
    try (by intros [= <-]).
  - destruct (pass _ _ _ _) as [[sh coord] v]. by intros [= <-].
  - intros [= <-] Hi. simpl. by apply lookup_app_l_Some.
  - destruct (forallb _ _); [|done]. by intros [= <-].
Qed.

(** A thread that has ended stays ended. *)
Lemma finished_kept e σ σ' i s :
  exec f64_display R e σ = Some σ' -> handles σ !! i = Some (s, Finished) ->
  handles σ' !! i = Some (s, Finished).
Proof.
  intros He Hi. apply exec_thread in He as [(sight & -> & He)|(j & s' & ph & sh & ph' & Hj & Hph & _ & ->)].
  - by eapply main_handles.
  - simpl. rewrite list_lookup_insert_ne; [done|]. intros ->. by simplify_eq.
Qed.

Lemma launched_grows e σ σ' : exec f64_display R e σ = Some σ' -> launched σ <= launched σ'.
Proof.
  intros He. apply exec_thread in He as [(sight & -> & He)|(j & s' & ph & sh & ph' & Hj & _ & _ & ->)].
  - unfold launched, queued, main_step in *.
    destruct (at_ σ) as [|[|x rest]| |[|[x reservation] rest]| | |]; simplify_eq/=; try lia.
    + destruct (pass _ _ _ _) as [[sh coord] v]. simplify_eq/=. lia.
    + rewrite length_app. simpl. lia.
    + destruct (forallb _ _); simplify_eq/=. lia.
  - unfold launched, queued. simpl. by rewrite length_insert.
Qed.

(** Away from the main thread, only phases and the shared state move. *)
Lemma exec_not_main e σ σ' :
  exec f64_display R e σ = Some σ' -> (forall sight, e <> Main sight) ->
  at_ σ' = at_ σ /\ coordinator σ' = coordinator σ /\ launched σ' = launched σ.
Proof.
  intros He Hn. apply exec_thread in He as [(sight & -> & _)|(j & s' & ph & sh & ph' & Hj & _ & _ & ->)].
  - by destruct (Hn sight).
  - split_and!; [done..|]. unfold launched, queued. simpl. by rewrite length_insert.
Qed.

(** Once every thread has ended, only the main thread can move. *)
Lemma all_finished_main e σ σ' :
  all_finished σ -> exec f64_display R e σ = Some σ' -> exists sight, main_step R sight σ = Some σ'.
Proof.
  intros [_ Hall] He. apply exec_thread in He as [(sight & -> & He)|(j & s' & ph & sh & ph' & Hj & Hph & _)].
  - by exists sight.
  - destruct Hph. apply (Hall s'). by eapply list_elem_of_lookup_2.
Qed.
End step.

(** ** Recovery publishes every death *)

Lemma supervisor_failure_done kg step failure sh t :
  is_Some (done sh !! t) \/ t = tag step ->
  is_Some (done (publish_supervisor_failure kg step failure sh).1 !! t).
Proof.
  intros Ht. unfold publish_supervisor_failure, is_done. case_bool_decide as Hd.
  { destruct Ht as [Ht| ->]; done. }
  cbn [fst]. enough (is_Some (c_done (core (trip_fail_fast kg (tag step)
    (publish (tag step) (supervisor_outcome (tag step) failure) (retire sh step).1))) !! t)) as Hc.
  { simpl in Hc. by rewrite lookup_fmap, fmap_is_Some in Hc. }
  rewrite core_trip, core_publish_op, core_retire_op. simpl.
  destruct (decide (t = tag step)) as [->|Hne]; [rewrite lookup_insert_eq; by eexists|].
  rewrite lookup_insert_ne by done. destruct Ht as [Ht|]; [|done].
  unfold core_retire, core_discount. repeat case_decide; simpl; by rewrite lookup_fmap, fmap_is_Some.
Qed.

Section ends.
Context (cfg : DagConfig) (max_steps' : Z) (keep_going' : bool) (order_override : option (list string))
  (run_timeout : option Z) (budget : option RunCpuBudget).

Let R := Runner_new cfg max_steps' keep_going' order_override run_timeout budget [].
Let caps := resource_caps cfg.

Context (Htags : NoDup (tag <$> steps cfg)).
Context (Horder : forall t, t ∈ order R -> is_Some (r_steps R !! t)).
Context (σ : nat -> System) (e : nat -> event).
Context (Htrace : Trace R (start cfg None) σ e) (Hmain : fair_main σ e) (Hthreads : fair_threads σ).

Lemma trace_exec n : at_ (σ n) <> Ended -> exec f64_display R (e n) (σ n) = Some (σ (S n)).
Proof. intros Hn. by destruct (trace_step _ _ _ _ Htrace n) as [|[? _]]. Qed.

Lemma trace_sound n : Sound R caps (σ n) /\ Over (σ n).
Proof.
  apply (run_sound f64_display cfg max_steps' keep_going' order_override run_timeout budget [] None).
  induction n as [|n IH].
  - rewrite (trace_init _ _ _ _ Htrace). constructor.
  - destruct (trace_step _ _ _ _ Htrace n) as [Hn|[_ ->]]; [|done]. by eapply reach_step.
Qed.

Lemma trace_launched_le n m : n <= m -> launched (σ n) <= launched (σ m).
Proof.
  induction 1 as [|m _ IH]; [done|]. etrans; [exact IH|].
  destruct (trace_step _ _ _ _ Htrace m) as [Hm|[_ ->]]; [|done]. by eapply launched_grows.
Qed.

Lemma trace_finished_kept n m i s :
  n <= m -> handles (σ n) !! i = Some (s, Finished) -> handles (σ m) !! i = Some (s, Finished).
Proof.
  intros Hle Hi. induction Hle as [|m _ IH]; [done|].
  destruct (trace_step _ _ _ _ Htrace m) as [Hm|[_ ->]]; [|done]. by eapply finished_kept.
Qed.

(** No run launches more steps than it has. *)
Lemma launched_bound n : launched (σ n) <= size (r_steps R).
Proof.
  destruct (trace_sound n) as [H _]. rewrite <- size_dom.
  assert (Hlen : launched (σ n) = length (thread_entries (handles (σ n)) (queued (σ n))).*1).
  { unfold launched, thread_entries. by rewrite length_fmap, length_app, !length_fmap. }
  rewrite Hlen, <- (size_list_to_set (C := gset string)) by apply (sound_once _ _ _ H).
  apply subseteq_size. intros t Ht%elem_of_list_to_set. rewrite thread_entries_keys, <- fmap_app in Ht.
  apply list_elem_of_fmap in Ht as (s & -> & Hs). apply elem_of_dom.
  exists s. by apply (sound_known _ _ _ H).
Qed.

(** ** Waiting *)

Definition later (n : nat) (P : nat -> Prop) : Prop := exists m, n <= m /\ P m.

Lemma later_trans n P Q : later n P -> (forall m, n <= m -> P m -> later m Q) -> later n Q.
Proof. intros (m & Hm & HP) Hq. destruct (Hq m Hm HP) as (k & Hk & HQ). exists k. split; [lia|done]. Qed.

Lemma later_now n (P : nat -> Prop) : P n -> later n P.
Proof. intros HP. by exists n. Qed.

(** The main thread's next move finds it where it stood. *)
Lemma next_main n :
  later n (fun m => at_ (σ m) = Ended \/
    (at_ (σ m) = at_ (σ n) /\ launched (σ m) = launched (σ n)
     /\ exists sight, main_step R sight (σ m) = Some (σ (S m)))).
Proof.
  destruct (Hmain n) as (k & Hk & Hstop). remember (k - n) as d eqn:Hd. revert n Hk Hd.
  induction d as [|d IH]; intros n Hk Hd.
  - assert (k = n) as -> by lia. apply later_now.
    destruct Hstop as [[sight He]|]; [|by left].
    destruct (trace_step _ _ _ _ Htrace n) as [Hn|[? _]]; [|by left]. right. rewrite He in Hn. split_and!; [done..|]. by exists sight.
  - destruct (trace_step _ _ _ _ Htrace n) as [Hn|[? _]]; [|apply later_now; by left].
    pose proof Hn as Hn'. apply exec_thread in Hn' as [(sight & He & Hm)|(i & s & ph & sh & ph' & Hi & Hph & Ht & Hs)].
    { apply later_now. right. split_and!; [done..|]. by exists sight. }
    destruct (IH (S n)) as (m & Hm & Hor); [lia..|]. exists m. split; [lia|].
    destruct Hor as [|(Hat & Hla & Hx)]; [by left|]. right.
    assert (Hkeep : at_ (σ (S n)) = at_ (σ n) /\ launched (σ (S n)) = launched (σ n)).
    { rewrite Hs. split; [done|]. unfold launched, queued. simpl. by rewrite length_insert. }
    destruct Hkeep as [Ha Hb]. rewrite Hat, Hla. by split_and!.
Qed.

(** Every thread of a moment is gone at some later one. *)
Lemma later_finished n :
  later n (fun m => forall i, i < length (handles (σ n)) -> exists s, handles (σ m) !! i = Some (s, Finished)).
Proof.
  enough (Hk : forall k, k <= length (handles (σ n)) ->
    later n (fun m => forall i, i < k -> exists s, handles (σ m) !! i = Some (s, Finished))) by (by apply Hk).
  induction k as [|k IH]; intros Hk; [apply later_now; lia|].
  destruct IH as (m & Hm & Hall); [lia|]. destruct (Hthreads n k) as (m' & s & Hm' & Hs); [lia|].
  exists (Nat.max m m'). split; [lia|]. intros i Hi. destruct (decide (i = k)) as [->|].
  - exists s. eapply trace_finished_kept, Hs. lia.
  - destruct (Hall i) as [s' Hs']; [lia|]. exists s'. eapply trace_finished_kept, Hs'. lia.
Qed.

(** ** When every thread is gone *)

Lemma finished_next n :
  all_finished (σ n) -> at_ (σ n) <> Ended -> exists sight, main_step R sight (σ n) = Some (σ (S n)).
Proof. intros Hall Hn. eapply (all_finished_main R), trace_exec; done. Qed.

Lemma all_finished_move (s s' : System) :
  all_finished s -> handles s' = handles s -> queued s' = [] -> all_finished s'.
Proof. intros [_ Hall] Hh Hq. split; [done|]. by rewrite Hh. Qed.

Definition everyone_done (s : System) : Prop :=
  forall step ph, (step, ph) ∈ handles s -> is_Some (done (shared s) !! tag step).

Lemma recover_all n l :
  all_finished (σ n) -> at_ (σ n) = Recovering l ->
  later n (fun m => all_finished (σ m) /\ at_ (σ m) = Passing /\
    ((forall step ph, (step, ph) ∈ handles (σ n) -> is_Some (done (shared (σ n)) !! tag step) \/ step ∈ l) ->
     everyone_done (σ m))).
Proof.
  revert n. induction l as [|x l IH]; intros n Hall Hat;
    (destruct (finished_next n Hall) as [sight Hs]; [by rewrite Hat|]);
    unfold main_step in Hs; rewrite Hat in Hs; injection Hs as Hs.
  - exists (S n). split; [lia|]. rewrite <- Hs. split_and!; [by apply (all_finished_move (σ n))|done|].
    intros Hd step ph Hin. destruct (Hd _ _ Hin) as [|Hno]; [done|]. by apply elem_of_nil in Hno.
  - destruct (IH (S n)) as (m & Hm & Hall' & Hat' & Hd); [rewrite <- Hs; by apply (all_finished_move (σ n))|by rewrite <- Hs|].
    exists m. split; [lia|]. split_and!; [done|done|]. intros Hcover. apply Hd. rewrite <- Hs. simpl.
    intros step ph Hin. destruct (Hcover _ _ Hin) as [Hdone|Hx].
    + left. apply supervisor_failure_done. by left.
    + apply elem_of_cons in Hx as [->|Hx]; [|by right]. left. apply supervisor_failure_done. by right.
Qed.

Definition advances (n m : nat) : Prop := at_ (σ m) = Ended \/ launched (σ n) < launched (σ m).

Lemma advances_from n n' m : n <= n' -> advances n' m -> advances n m.
Proof. intros Hle [|Hlt]; [by left|right]. pose proof (trace_launched_le _ _ Hle). lia. Qed.

Lemma later_advances n n' : n <= n' -> later n' (advances n') -> later n (advances n).
Proof. intros Hle (m & Hm & Ha). exists m. split; [lia|]. by eapply advances_from. Qed.

(** After the join, the run is over. *)
Lemma joining_ends n : at_ (σ n) = Joining -> later n (fun m => at_ (σ m) = Ended).
Proof.
  intros Hat. destruct (next_main n) as (m & Hm & [He|(Hk & _ & sight & Hs)]); [by exists m|].
  rewrite Hat in Hk. unfold main_step in Hs. rewrite Hk in Hs.
  destruct (forallb _ _); [|done]. injection Hs as Hs. exists (S m). split; [lia|]. by rewrite <- Hs.
Qed.

Lemma trace_coordinator n : coordinator (σ n) = None.
Proof.
  induction n as [|n IH]; [by rewrite (trace_init _ _ _ _ Htrace)|].
  destruct (trace_step _ _ _ _ Htrace n) as [Hn|[_ ->]]; [|done].
  apply exec_thread in Hn as [(sight & _ & Hm)|(i & s & ph & sh & ph' & _ & _ & _ & ->)]; [|done].
  unfold main_step in Hm. destruct (at_ (σ n)) as [|[|x rest]| |[|[x reservation] rest]| | |];
    try done; try (by injection Hm as <-).
  - rewrite IH in Hm. destruct (pass R sight (shared (σ n)) None) as [[sh coord] v] eqn:Hp.
    injection Hm as <-. simpl. by apply pass_coordinator in Hp.
  - destruct (forallb _ _); [|done]. injection Hm as <-. simpl. by rewrite IH.
Qed.

(** Where every step that was launched has its outcome, nothing runs. *)
Lemma everyone_done_idle n : queued (σ n) = [] -> everyone_done (σ n) -> running (shared (σ n)) = ∅.
Proof.
  intros Hq Hd. destruct (trace_sound n) as [H _].
  apply elem_of_equiv_empty_L. intros t Hrun.
  pose proof (i_cell _ _ _ _ (sound_inv _ _ _ H) t) as Hc. simpl in Hc. rewrite lookup_fmap in Hc.
  destruct (lives (handles (σ n)) (queued (σ n)) !! t) as [l|] eqn:Hl; [|by destruct Hc as (_ & ? & _)].
  unfold lives in Hl. apply elem_of_list_to_map in Hl; [|apply H].
  unfold thread_entries in Hl. rewrite Hq in Hl. simpl in Hl. rewrite app_nil_r in Hl.
  apply list_elem_of_fmap in Hl as ([s ph] & [= -> ->] & Hin). destruct (Hd _ _ Hin) as [o Ho].
  simpl in Hc. rewrite Ho in Hc. unfold cell in Hc. simpl in Hc.
  repeat case_match; simplify_eq; naive_solver.
Qed.

Lemma pass_advances n :
  all_finished (σ n) -> at_ (σ n) = Passing -> everyone_done (σ n) -> later n (advances n).
Proof.
  intros Hall Hat Hd. pose proof (everyone_done_idle n (proj1 Hall) Hd) as Hidle.
  destruct (finished_next n Hall) as [sight Hs]; [by rewrite Hat|].
  unfold main_step in Hs. rewrite Hat, trace_coordinator in Hs.
  destruct (pass R sight (shared (σ n)) None) as [[sh coord] v] eqn:Hp. injection Hs as Hs.
  destruct (trace_sound n) as [H _].
  apply (pass_progress cfg _ _ _ _ _ Htags Horder _ _ _ _ _ _ (sound_inv _ _ _ H) Hidle) in Hp
    as [_ [->|(x & l & ->)]].
  - destruct (joining_ends (S n)) as (m & Hm & He); [by rewrite <- Hs|]. exists m. split; [lia|by left].
  - exists (S n). split; [lia|]. right. rewrite <- Hs. unfold launched. destruct Hall as [-> _].
    unfold queued. simpl. lia.
Qed.

Lemma sweep_advances n : all_finished (σ n) -> at_ (σ n) = Sweeping -> later n (advances n).
Proof.
  intros Hall Hat. destruct (finished_next n Hall) as [sight Hs]; [by rewrite Hat|].
  unfold main_step in Hs. rewrite Hat in Hs. injection Hs as Hs.
  assert (Hall' : all_finished (σ (S n))).
  { rewrite <- Hs. split; [done|]. apply (proj2 Hall). }
  destruct (recover_all (S n) (sweep (handles (σ n)) (shared (σ n))) Hall') as (m & Hm & Hf & Hp & Hd);
    [by rewrite <- Hs|].
  apply (later_advances n m); [lia|]. apply pass_advances; [done|done|]. apply Hd. rewrite <- Hs. simpl.
  intros step ph Hin. destruct (is_done (shared (σ n)) (tag step)) eqn:He; [left; by apply bool_decide_eq_true in He|].
  right. apply list_elem_of_fmap. exists (step, ph). split; [done|]. apply elem_of_filter_b.
  split; [done|]. simpl. rewrite He, (proj2 Hall _ _ Hin). done.
Qed.

Lemma settled_advances n : all_finished (σ n) -> later n (advances n).
Proof.
  intros Hall. assert (Hpass : forall k, n <= k -> all_finished (σ k) -> at_ (σ k) = Passing -> later n (advances n)).
  { intros k Hk Hf Hat. apply (later_advances n k Hk).
    destruct (finished_next k Hf) as [sight Hs]; [by rewrite Hat|].
    unfold main_step in Hs. rewrite Hat in Hs. destruct (pass _ _ _ _) as [[sh coord] [| |[|x l]]];
      injection Hs as Hs.
    - destruct (joining_ends (S k)) as (m & Hm & He); [by rewrite <- Hs|]. exists m. split; [lia|by left].
    - destruct (trace_step _ _ _ _ Htrace (S k)) as [Hx|[Hx _]]; rewrite <- Hs in Hx; [|done].
      apply (all_finished_main R) in Hx; [by destruct Hx|]. split; [done|apply Hf].
    - apply (later_advances k (S k)); [lia|].
      assert (Hf' : all_finished (σ (S k))) by (rewrite <- Hs; split; [done|apply Hf]).
      destruct (finished_next (S k) Hf') as [sight' Hs']; [by rewrite <- Hs|].
      unfold main_step in Hs'. rewrite <- Hs in Hs' at 1. simpl in Hs'. injection Hs' as Hs'.
      apply (later_advances (S k) (S (S k))); [lia|]. apply sweep_advances; [|by rewrite <- Hs'].
      rewrite <- Hs'. split; [done|apply Hf'].
    - exists (S k). split; [lia|]. right. rewrite <- Hs. unfold launched. destruct Hf as [-> _].
      unfold queued. simpl. lia. }
  destruct (at_ (σ n)) as [|l| |[|x l]| | |] eqn:Hat.
  - by apply sweep_advances.
  - destruct (recover_all n l Hall Hat) as (m & Hm & Hf & Hp & _). by apply (Hpass m).
  - by apply (Hpass n).
  - destruct (finished_next n Hall) as [sight Hs]; [by rewrite Hat|].
    unfold main_step in Hs. rewrite Hat in Hs. injection Hs as Hs.
    apply (later_advances n (S n)); [lia|]. apply sweep_advances; [|by rewrite <- Hs].
    rewrite <- Hs. split; [done|apply Hall].
  - destruct Hall as [Hq _]. unfold queued in Hq. by rewrite Hat in Hq.
  - destruct (joining_ends n Hat) as (m & Hm & He). exists m. split; [done|by left].
  - apply later_now. by left.
  - destruct (finished_next n Hall) as [sight Hs]; [by rewrite Hat|]. unfold main_step in Hs. by rewrite Hat in Hs.
Qed.

(** The threads that were queued are all started. *)
Lemma later_unqueued n : later n (fun m => at_ (σ m) = Ended \/ queued (σ m) = []).
Proof.
  remember (length (queued (σ n))) as k eqn:Hk. revert n Hk. induction k as [|k IH]; intros n Hk.
  { apply later_now. right. by apply nil_length_inv. }
  unfold queued in Hk. destruct (at_ (σ n)) as [| | |[|[s res] l]| | |] eqn:Hat; try done.
  destruct (next_main n) as (m & Hm & [He|(Hkeep & _ & sight & Hs)]); [exists m; split; [done|by left]|].
  unfold main_step in Hs. rewrite Hkeep, Hat in Hs. injection Hs as Hs.
  destruct (IH (S m)) as (m' & Hm' & Hor); [rewrite <- Hs; by injection Hk|].
  exists m'. split; [lia|done].
Qed.

Theorem fair_run_ends : exists n, at_ (σ n) = Ended.
Proof.
  enough (Hk : forall k n, size (r_steps R) - launched (σ n) <= k -> exists m, at_ (σ m) = Ended)
    by (by apply (Hk (size (r_steps R) - launched (σ 0)) 0)).
  induction k as [k IH] using lt_wf_ind. intros n Hn.
  assert (Hmore : forall m m', n <= m -> advances m m' -> exists x, at_ (σ x) = Ended).
  { intros m m' Hm [He|Hlt]; [by exists m'|]. pose proof (trace_launched_le _ _ Hm).
    pose proof (launched_bound m'). apply (IH (size (r_steps R) - launched (σ m')) ltac:(lia) m'). lia. }
  destruct (later_unqueued n) as (m1 & Hm1 & [He|Hq1]); [by exists m1|].
  destruct (later_finished m1) as (m2 & Hm2 & Hfin).
  pose proof (trace_launched_le _ _ Hm2) as Hle.
  destruct (decide (launched (σ m1) < launched (σ m2))) as [Hlt|Hge]; [apply (Hmore m1 m2); [done|by right]|].
  assert (Hlen : length (handles (σ m1)) <= length (handles (σ m2))).
  { destruct (length (handles (σ m1))) as [|len] eqn:El; [lia|].
    destruct (Hfin len) as [s Hs]; [lia|]. apply lookup_lt_Some in Hs. lia. }
  assert (Hall : all_finished (σ m2)).
  { unfold launched in *. rewrite Hq1 in *. simpl in *. split; [apply nil_length_inv; lia|].
    intros s ph [i Hi]%list_elem_of_lookup. pose proof (lookup_lt_Some _ _ _ Hi).
    destruct (Hfin i) as [s' Hs']; [lia|]. by simplify_eq. }
  destruct (settled_advances m2 Hall) as (m3 & Hm3 & Hadv). apply (Hmore m2 m3); [lia|done].
Qed.
End ends.
End fair.
