(* ===== verification/DagDecisions.v ===== *)
(** * dagrun: what a failure cuts, what a pass admits, what an outcome says

    The effect of [trip_fail_fast], the admissions of a pass and the verdict of a
    supervisor, in terms that do not mention how they are computed. *)
From S2P Require Import Prelude RustStr External DagModel DagOutcome DagSchedule DagRunner DagRun DagCore DagInv DagSystem DagSkip.

(** ** Failing fast *)

(** The step explains a step that failed, and was not merely cancelled. *)
Definition explains_failure (sh : Shared) (x : string) : Prop :=
  exists ex s o, explains_index sh !! x = Some ex /\ s ∈ ex
    /\ done sh !! s = Some o /\ ok o = false /\ aborted o = false.

Lemma elem_of_genuinely_failed sh s :
  s ∈ genuinely_failed sh <-> exists o, done sh !! s = Some o /\ ok o = false /\ aborted o = false.
Proof.
  unfold genuinely_failed. rewrite elem_of_dom. split.
  - intros [o Ho]. apply map_lookup_filter_Some in Ho as [Hd Hp]. exists o.
    apply Is_true_true, andb_true_iff in Hp as [H1%negb_true_iff H2%negb_true_iff]. done.
  - intros (o & Hd & H1 & H2). exists o. apply map_lookup_filter_Some. split; [done|]. simpl. by rewrite H1, H2.
Qed.

Lemma exempt_spec sh x :
  is_exempt_from_eager_exit sh x (genuinely_failed sh) = true <-> explains_failure sh x.
Proof.
  unfold is_exempt_from_eager_exit, explains_failure. destruct (explains_index sh !! x) as [ex|].
  - rewrite existsb_elem. setoid_rewrite bool_decide_eq_true. setoid_rewrite elem_of_genuinely_failed. naive_solver.
  - naive_solver.
Qed.

(** The scope that a failure of [t] shuts: everything, or its family. *)
Definition in_scope (sh : Shared) (t x : string) : Prop :=
  stop sh = true \/ fail_fast_family_index sh !! t = None
  \/ exists f, fail_fast_family_index sh !! x = Some f
       /\ (f ∈ failed_families sh \/ fail_fast_family_index sh !! t = Some f).

(** A running step that the failure of [t] cuts short. *)
Definition cut_by (sh : Shared) (t x : string) : Prop :=
  x ∈ running sh /\ in_scope sh t x /\ ~ explains_failure sh x.

Lemma blocked_scope sh t x :
  blocked_by_fail_fast (fail_scope t (set_failed sh)) x = true <-> in_scope sh t x.
Proof.
  unfold blocked_by_fail_fast, fail_scope, in_scope. simpl.
  destruct (fail_fast_family_index sh !! t) as [g|] eqn:Ht; simpl.
  - destruct (fail_fast_family_index sh !! x) as [f|]; rewrite orb_true_iff, ?bool_decide_eq_true; [|naive_solver].
    rewrite elem_of_union, elem_of_singleton. naive_solver.
  - naive_solver.
Qed.

Lemma elem_of_cut_short sh t x :
  x ∈ cut_short (fail_scope t (set_failed sh)) <-> cut_by sh t x.
Proof.
  unfold cut_short, cut_by. rewrite elem_of_filter, Is_true_true, andb_true_iff, negb_true_iff.
  rewrite blocked_scope, <- not_true_iff_false, exempt_spec.
  assert (He : explains_failure (fail_scope t (set_failed sh)) x <-> explains_failure sh x).
  { unfold fail_scope. simpl. by destruct (fail_fast_family_index sh !! t). }
  assert (Hr : running (fail_scope t (set_failed sh)) = running sh).
  { unfold fail_scope. simpl. by destruct (fail_fast_family_index sh !! t). }
  rewrite He, Hr. tauto.
Qed.

Lemma mark_lookup cause sh t x :
  aborted_by (mark_aborted cause sh t) !! x
  = if decide (x = t) then Some (default cause (aborted_by sh !! t)) else aborted_by sh !! x.
Proof.
  simpl. unfold entry_or_insert. destruct (aborted_by sh !! t) as [c|] eqn:E.
  - case_decide; [by subst|done].
  - case_decide as Hd; [subst; by rewrite lookup_insert_eq|by rewrite lookup_insert_ne].
Qed.

Lemma aborted_marks cause ts sh x :
  aborted_by (foldl (mark_aborted cause) sh ts) !! x
  = match aborted_by sh !! x with
    | Some c => Some c
    | None => if decide (x ∈ ts) then Some cause else None
    end.
Proof.
  revert sh. induction ts as [|t ts IH]; intros sh; cbn [foldl].
  { by destruct (aborted_by sh !! x). }
  rewrite IH, mark_lookup. destruct (decide (x = t)) as [->|Hne].
  - destruct (aborted_by sh !! t) as [c|]; [done|]. simpl.
    destruct (decide (t ∈ t :: ts)) as [|Hn]; [done|]. destruct Hn. by left.
  - destruct (aborted_by sh !! x) as [c|]; [done|].
    destruct (decide (x ∈ ts)) as [Hin|Hn], (decide (x ∈ t :: ts)) as [Hin'|Hn']; try done.
    + destruct Hn'. by right.
    + by apply elem_of_cons in Hin' as [|].
Qed.

(** What marking leaves alone. *)
Lemma marks_keep {B} (p : Shared -> B) cause ts sh :
  (forall sh t, p (mark_aborted cause sh t) = p sh) -> p (foldl (mark_aborted cause) sh ts) = p sh.
Proof. apply foldl_keeps. Qed.

Lemma elem_of_victims p sh x pid n :
  (x, pid, n) ∈ victims p sh <-> running_pids sh !! x = Some pid /\ n = running_nonces sh !! x /\ p x = true.
Proof.
  unfold victims. rewrite list_elem_of_fmap. split.
  - intros ([t q] & Heq & [Hin Hp]%elem_of_filter_b). unfold victim_of in Heq. simplify_eq.
    by apply elem_of_btree_iter in Hin.
  - intros (Hpid & -> & Hp). exists (x, pid). split; [done|]. apply elem_of_filter_b. split; [|done].
    by apply elem_of_btree_iter.
Qed.

(** ** Doom without a failure *)

(** The step waits, directly or not, for one the caller asked to leave out. *)
Inductive behind (declared : gmap string Step) (left_out : list (string * string)) : string -> Prop :=
| behind_skip t step d :
    declared !! t = Some step -> d ∈ deps step -> is_left_out left_out d -> behind declared left_out t
| behind_dep t step d :
    declared !! t = Some step -> d ∈ deps step -> behind declared left_out d -> behind declared left_out t
| behind_artifact t step a :
    declared !! t = Some step -> a ∈ artifact_deps step -> behind declared left_out (dep_step a) ->
    behind declared left_out t.

Lemma no_failure sh t : Fails sh -> failed sh = false -> ~ came_to_nothing sh t.
Proof. intros H Hf (o & Hd & Ho). by rewrite (fails_done _ H t o Hd Ho) in Hf. Qed.

Lemma doomed_behind declared left_out sh t : Fails sh -> failed sh = false ->
  doomed declared left_out sh t -> behind declared left_out t.
Proof.
  intros H Hf. induction 1 as [t step d Hw Hin [Hd|Hd]|t step d Hw Hin _ IH|t step a Hw Hin Hd|t step a Hw Hin _ IH].
  - by apply no_failure in Hd.
  - apply behind_skip with step d; [apply Hw|done..].
  - apply behind_dep with step d; [apply Hw|done..].
  - by apply no_failure in Hd.
  - apply behind_artifact with step a; [apply Hw|done..].
Qed.

(** ** Admission *)

Section admission.
Context {SD : StrDebug} (R : Runner).

Definition launched_tags (l : list (Step * Prelude.result string unit)) : list string := (fun x => tag x.1) <$> l.

(** Admitting a step changes, of what readiness reads, only that it runs. *)
Lemma admissible_admit sk t step res a t' step' :
  admissible R (a_shared (admit_step t step res a)) sk t' step' = true ->
  admissible R (a_shared a) sk t' step' = true /\ t' <> t.
Proof.
  unfold admissible. rewrite !andb_true_iff. intros [Hr Hrt].
  assert (Hne : ~ (t' ∈ running (a_shared (admit_step t step res a)))) by (by apply ready_spec in Hr as (_ & ? & _)).
  simpl in Hne. split; [split; [|done]|intros ->; apply Hne, elem_added].
  assert (Hnot : bool_decide (t' ∈ running (a_shared a)) = false)
    by (apply bool_decide_eq_false; intros Hin; by apply Hne, elem_of_union_r).
  assert (Hnot' : bool_decide (t' ∈ {[t]} ∪ running (a_shared a)) = false) by (by apply bool_decide_eq_false).
  unfold ready, outstanding in *. simpl in Hr. rewrite Hnot' in Hr. rewrite Hnot. exact Hr.
Qed.

Lemma admissible_loop sight sk tags a t step :
  admissible R (a_shared (launch_loop R sight sk tags a)) sk t step = true ->
  admissible R (a_shared a) sk t step = true.
Proof.
  revert a. induction tags as [|t' tags IH]; intros a; [done|]. simpl.
  destruct (r_steps R !! t') as [step'|]; [|done]. case_match; [by apply IH|]. case_match; [done|].
  case_match; [by apply IH|]. destruct (reserve _ _ _ _) as [coord [res|]]; intros Ha%IH; [|done].
  by apply admissible_admit in Ha as [? _].
Qed.

Lemma capacity_loop sight sk tags a r :
  demands_nonneg R -> (capacity (resource_avail (a_shared (launch_loop R sight sk tags a))) r
                       <= capacity (resource_avail (a_shared a)) r)%Z.
Proof.
  intros Hpos. revert a. induction tags as [|t' tags IH]; intros a; [done|]. simpl.
  destruct (r_steps R !! t') as [step'|] eqn:Hs; [|done]. case_match; [apply IH|]. case_match; [done|].
  case_match; [apply IH|]. destruct (reserve _ _ _ _) as [coord [res|]]; (etrans; [apply IH|]); [|done].
  simpl. rewrite capacity_charge. specialize (Hpos _ _ r Hs). unfold asks in Hpos. lia.
Qed.

(** Why a step that could start was not started. *)
Definition held_up (sh : Shared) (step : Step) : Prop :=
  (max_steps R <= Z.of_nat (size (running sh)))%Z
  \/ exists r n, resources (hint step) !! r = Some n /\ (capacity (resource_avail sh) r < n)%Z.

Lemma res_free_false sh step :
  res_free sh step = false ->
  exists r n, resources (hint step) !! r = Some n /\ (capacity (resource_avail sh) r < n)%Z.
Proof.
  unfold res_free. intros Hf. destruct (decide (Exists (fun rn : string * Z =>
    (capacity (resource_avail sh) rn.1 < rn.2)%Z) (btree_iter (resources (hint step))))) as [Hex|Hno].
  - apply Exists_exists in Hex as ([r n] & Hin & Hlt). apply elem_of_btree_iter in Hin. by exists r, n.
  - exfalso. apply not_true_iff_false in Hf. apply Hf, forallb_elem. intros [r n] Hin.
    apply Z.leb_le, Z.nlt_ge. intros Hlt. apply Hno, Exists_exists. by exists (r, n).
Qed.

Lemma loop_work_conserving sight sk tags a t step :
  demands_nonneg R -> a_coordinator a = None ->
  (forall t, t ∈ tags -> is_Some (r_steps R !! t)) ->
  t ∈ tags -> r_steps R !! t = Some step ->
  let a' := launch_loop R sight sk tags a in
  admissible R (a_shared a') sk t step = true -> held_up (a_shared a') step.
Proof.
  intros Hpos Hc Hall Ht Hs. revert a Hc. induction tags as [|t' tags IH]; intros a Hc a'.
  { by apply elem_of_nil in Ht. }
  assert (Htags : forall x, x ∈ tags -> is_Some (r_steps R !! x)) by (intros x Hx; apply Hall; by right).
  subst a'. simpl. destruct (Hall t') as [step' Hs']; [by left|]. rewrite Hs'.
  apply elem_of_cons in Ht as [->|Ht].
  - simplify_eq. destruct (admissible R (a_shared a) sk t' step) eqn:Hadm; simpl.
    2: { intros Hx%admissible_loop. by rewrite Hadm in Hx. }
    destruct (max_steps R <=? _)%Z eqn:Hw; [intros _; left; by apply Z.leb_le|].
    destruct (res_free (a_shared a) step) eqn:Hf; simpl.
    + rewrite Hc. simpl. intros Hx%admissible_loop%admissible_admit. by destruct Hx.
    + intros _. right. destruct (res_free_false _ _ Hf) as (r & n & Hn & Hlt). exists r, n.
      split; [done|]. eapply Z.le_lt_trans; [by apply capacity_loop|done].
  - specialize (IH Htags Ht). case_match; [by apply IH|]. destruct (max_steps R <=? _)%Z eqn:Hw.
    { intros _. left. by apply Z.leb_le. }
    case_match; [by apply IH|]. rewrite Hc. simpl. by apply IH.
Qed.

(** What was admissible when a step was admitted. *)
Lemma loop_launches sight sk tags a step res :
  (step, res) ∈ launchable (launch_loop R sight sk tags a) ->
  (step, res) ∈ launchable a \/
  (exists t, t ∈ tags /\ r_steps R !! t = Some step /\ admissible R (a_shared a) sk t step = true).
Proof.
  revert a. induction tags as [|t' tags IH]; intros a; [by left|]. simpl.
  assert (Hlift : forall a', (forall t s, admissible R (a_shared a') sk t s = true -> admissible R (a_shared a) sk t s = true) ->
    (exists t, t ∈ tags /\ r_steps R !! t = Some step /\ admissible R (a_shared a') sk t step = true) ->
    exists t, t ∈ t' :: tags /\ r_steps R !! t = Some step /\ admissible R (a_shared a) sk t step = true).
  { intros a' Ha (t & Hin & Hs & Hadm). exists t. split_and!; [by right|done|by apply Ha]. }
  destruct (r_steps R !! t') as [step'|] eqn:Hs'; [|by left].
  destruct (admissible R (a_shared a) sk t' step') eqn:Hadm; simpl.
  2: { intros [|Hex]%IH; [by left|]. right. by eapply Hlift. }
  case_match; [by left|]. case_match. { intros [|Hex]%IH; [by left|]. right. by eapply Hlift. }
  destruct (reserve _ _ _ _) as [coord [r|]].
  - intros [Hin|Hex]%IH; [|right; eapply Hlift; [|exact Hex]; intros t s Hx; by apply admissible_admit in Hx as [? _]].
    simpl in Hin. apply elem_of_app in Hin as [|Hin]; [by left|].
    apply list_elem_of_singleton in Hin. simplify_eq. right. exists t'. split_and!; [by left|done|done].
  - intros [|Hex]%IH; [by left|]. right. by eapply Hlift.
Qed.
End admission.

(** ** The verdict of a supervisor *)

Section verdict.
Context (display : f64 -> string) (R : Runner).

(** The child did well: a clean exit, no budget breached, nothing killed for memory, and
    the results it had to report are there; of the tests in them each passed, or is a
    diagnostic, or says why it was skipped. *)
Record did_well (rp : Report) : Prop := {
  well_exit : rp_returncode rp = Some 0%Z;
  well_wall : rp_timed_out rp = false;
  well_cpu : rp_cpu_timed_out rp = false;
  well_memory : (rp_actionable_oom_events rp <= 0)%Z;
  well_report : rp_results_error rp = None;
  well_tests : forall rs r, results (rp_counts rp) = Some rs -> r ∈ rs ->
    test_passed r = true \/ diagnostic r <> None \/ test_skip_reason r <> None
}.

Lemma blocking_spec r :
  is_blocking_failure r = false <-> test_passed r = true \/ diagnostic r <> None \/ test_skip_reason r <> None.
Proof.
  unfold is_blocking_failure.
  destruct (test_passed r), (diagnostic r), (test_skip_reason r); cbn; naive_solver.
Qed.

Lemma child_ok_spec rp : child_ok rp = true <-> did_well rp.
Proof.
  unfold child_ok, rp_oomed, test_results_report_failure. rewrite !andb_true_iff, !negb_true_iff.
  rewrite bool_decide_eq_true, Z.ltb_ge. split.
  - intros [[[[[H1 H2] H3] H4] H5] H6]. split; try done; [by destruct (rp_results_error rp)|].
    intros rs r Hrs Hr. rewrite Hrs in H6. rewrite existsb_false in H6. by apply blocking_spec, H6.
  - intros []. rewrite well_report0. split_and!; try done.
    destruct (results (rp_counts rp)) as [rs|]; [|done]. apply existsb_false. intros r Hr. by eapply blocking_spec, well_tests0.
Qed.

(** Every artifact the step declares is in its ready directory. *)
Definition all_signalled (step : Step) (rp : Report) : Prop :=
  forall a, a ∈ publishes step -> exists names, rp_listing rp = Some names /\ artifact_name a ∈ names.

Lemma missing_signals_nil step rp :
  missing_signals step (signalled_artifacts (rp_listing rp) step) = [] <-> all_signalled step rp.
Proof.
  unfold missing_signals, all_signalled, signalled_artifacts. split.
  - intros Hnil a Ha. destruct (decide (artifact_name a ∈ filter (fun name => name ∈ (list_to_set (artifact_name <$> publishes step) : gset string))
      (list_to_set (default [] (rp_listing rp)) : gset string))) as [Hin|Hno].
    + apply elem_of_filter in Hin as [_ Hin%elem_of_list_to_set]. destruct (rp_listing rp) as [names|]; [by exists names|].
      by apply elem_of_nil in Hin.
    + exfalso. eapply not_elem_of_nil. rewrite <- Hnil. apply elem_of_filter_b. split.
      * apply list_elem_of_fmap. by exists a.
      * by rewrite bool_decide_eq_false_2.
  - intros Hall. apply elem_of_nil_inv. intros name [Hin Hno]%elem_of_filter_b.
    apply negb_true_iff, bool_decide_eq_false in Hno. apply Hno. pose proof Hin as Hin'.
    apply list_elem_of_fmap in Hin' as (a & -> & Ha). destruct (Hall a Ha) as (names & -> & Hn).
    apply elem_of_filter. by rewrite !elem_of_list_to_set.
Qed.

Lemma first_outcome_fate step rp cause :
  let o := judge_results rp cause (first_outcome display R step rp cause) in
  ok o = is_none cause && child_ok rp
  /\ aborted o = is_some cause
  /\ (forall c, cause = Some c -> reason o = AbortCause_reason c).
Proof.
  unfold judge_results, first_outcome. destruct cause as [c|].
  - assert (Hs : structured_test_failure_reason (rp_counts rp) (rp_returncode rp) (rp_timed_out rp)
      (rp_cpu_timed_out rp) (rp_actionable_oom_events rp) true = None).
    { unfold structured_test_failure_reason. by rewrite orb_true_r. }
    unfold is_some. simpl. rewrite Hs. destruct (rp_results_error rp) as [[error kind]|]; simpl;
      rewrite ?andb_false_r; (split_and!; [done|done|by intros ? [= <-]]).
  - destruct (child_ok rp) eqn:Hok; simpl.
    + apply child_ok_spec in Hok as Hw. rewrite (well_report _ Hw). by case_match.
    + destruct (rp_results_error rp) as [[error kind]|]; [done|]. by case_match.
Qed.

Lemma outcome_fate step rp cause o missing :
  outcome_of display R step rp cause = (o, missing) ->
  (ok o = true <-> cause = None /\ did_well rp /\ (artifact_dir R = true -> all_signalled step rp))
  /\ aborted o = is_some cause
  /\ (forall c, cause = Some c -> reason o = AbortCause_reason c)
  /\ (cause = None -> ok o = false -> negb (child_ok rp) || missing = true).
Proof.
  unfold outcome_of. destruct (first_outcome_fate step rp cause) as (Hok & Hab & Hre).
  set (o0 := judge_results rp cause (first_outcome display R step rp cause)) in *.
  unfold judge_signals. intros Ho.
  assert (Hnone : publishes_any step = false -> all_signalled step rp).
  { unfold publishes_any, all_signalled. destruct (publishes step); [|done]. intros _ a Ha. by apply elem_of_nil in Ha. }
  destruct (publishes_any step && is_none cause && artifact_dir R && ok o0) eqn:Hg.
  - rewrite !andb_true_iff in Hg. destruct Hg as [[[_ Hc] Hdir] Ho0]. destruct cause as [c|]; [done|].
    rewrite Hok in Ho0. simpl in Ho0. apply child_ok_spec in Ho0 as Hw.
    destruct (missing_signals step _) as [|x l] eqn:Hm; simplify_eq.
    + apply missing_signals_nil in Hm. split_and!; [|done|done|]; [|by rewrite Hok; simpl; rewrite Ho0].
      rewrite Hok. simpl. by rewrite Ho0.
    + simpl. split_and!; [|done|done|by rewrite orb_true_r]. split; [done|]. intros (_ & _ & Hall).
      specialize (Hall Hdir). apply missing_signals_nil in Hall. by rewrite Hm in Hall.
  - simplify_eq. split_and!; [|done|done|].
    + rewrite Hok, andb_true_iff, child_ok_spec. split.
      * intros [Hc Hw]. destruct cause; [done|]. split_and!; [done|done|]. intros Hdir. apply Hnone.
        apply child_ok_spec in Hw. rewrite Hok, Hdir, Hw in Hg. simpl in Hg. by rewrite !andb_true_r in Hg.
      * intros (-> & Hw & _). done.
    + intros -> Hf. rewrite Hok in Hf. simpl in Hf. by rewrite Hf.
Qed.

Lemma cancel_done producer deps sh t o :
  done sh !! t = Some o -> ok o = false ->
  done (cancel_artifact_dependents producer deps sh) !! t = Some o.
Proof.
  intros Hd Ho. unfold cancel_artifact_dependents. destruct (foldl _ _ deps) as [sh' cut] eqn:E.
  simpl. change sh' with (sh', cut).1. rewrite <- E. clear E sh' cut.
  assert (Hst : done (sh, @nil victim).1 !! t = Some o) by done. revert Hst. generalize (sh, @nil victim).
  induction deps as [|d deps IH]; intros st Hst; [done|]. apply IH. destruct st as [sh' cut]. simpl in *.
  assert (Hdis : done (discard producer sh' d) !! t = Some o).
  { unfold discard. destruct (done sh' !! d) as [o'|] eqn:Hd'; [|done]. destruct (ok o') eqn:Ho'; [|done].
    simpl. rewrite lookup_insert_ne; [done|]. intros ->. congruence. }
  by case_decide.
Qed.

Lemma done_trip kg t sh : done (trip_fail_fast kg t sh) = done sh.
Proof.
  unfold trip_fail_fast. destruct kg; [done|]. simpl. rewrite (foldl_keeps done) by done.
  unfold fail_scope. by case_match.
Qed.
End verdict.
