(* ===== verification/DagComplete.v ===== *)
(** * dagrun: why a run fails, and that an accepted graph runs to the end

    A run is failed only by a step that was published as failed or by a breached budget,
    and a step that passed has signalled all it publishes: both as a relation between the
    shared state before and after an operation ([carries]), which every operation keeps.
    In a graph that the checks accept and in which nothing is blocked on purpose, the loop
    never finds itself with nothing running and nothing to start while steps are left,
    unless something failed. *)
From S2P Require Import Prelude RustStr External DagModel DagOutcome DagSearch DagChecks DagGraph DagSchedule DagRunner DagRun DagCore DagInv DagSystem DagSkip DagFair DagDecisions.

(** A step was published as failed, or a budget of the run was breached. *)
Definition blamed (sh : Shared) : Prop :=
  (exists t, Published t false ∈ history sh) \/ run_timed_out sh = true.

Section cause.
Context {SD : StrDebug} (display : f64 -> string) (R : Runner).

(** Every artifact the step declares has been signalled. *)
Definition delivered (sh : Shared) (t : string) : Prop :=
  forall step a, r_steps R !! t = Some step -> a ∈ publishes step ->
    (t, artifact_name a) ∈ artifact_signalled sh.

Record carries (sh sh' : Shared) : Prop := {
  ca_history h : h ∈ history sh -> h ∈ history sh';
  ca_timed : run_timed_out sh = true -> run_timed_out sh' = true;
  ca_done t : is_Some (done sh !! t) -> is_Some (done sh' !! t);
  ca_failed : failed sh = true -> failed sh' = true;
  ca_signalled : artifact_signalled sh ⊆ artifact_signalled sh';
  ca_cause : failed sh' = true -> failed sh = true \/ blamed sh';
  ca_pass t o : done sh' !! t = Some o -> ok o = true ->
    done sh !! t = Some o \/ delivered sh' t
}.

Lemma blamed_mono sh sh' : carries sh sh' -> blamed sh -> blamed sh'.
Proof.
  intros H [[t Ht]|Ht]; [left; exists t; by apply (ca_history _ _ H)|right; by apply (ca_timed _ _ H)].
Qed.

Lemma delivered_mono sh sh' t : carries sh sh' -> delivered sh t -> delivered sh' t.
Proof. intros H Hd step a Hs Ha. apply (ca_signalled _ _ H). by eapply Hd. Qed.

#[global] Instance carries_po : PreOrder carries.
Proof.
  split; [intros sh; split; auto|]. intros x y z H1 H2. split.
  - intros h Hh. by apply (ca_history _ _ H2), (ca_history _ _ H1).
  - intros Ht. by apply (ca_timed _ _ H2), (ca_timed _ _ H1).
  - intros t Ht. by apply (ca_done _ _ H2), (ca_done _ _ H1).
  - intros Ht. by apply (ca_failed _ _ H2), (ca_failed _ _ H1).
  - etrans; [apply H1|apply H2].
  - intros Hf. destruct (ca_cause _ _ H2 Hf) as [Hy|Hb]; [|by right].
    destruct (ca_cause _ _ H1 Hy) as [Hx|Hb]; [by left|]. right. by eapply blamed_mono.
  - intros t o Hd Ho. destruct (ca_pass _ _ H2 t o Hd Ho) as [Hy|Hdel]; [|by right].
    destruct (ca_pass _ _ H1 t o Hy Ho) as [Hx|Hdel]; [by left|]. right. by eapply delivered_mono.
Qed.

(** An operation that leaves outcomes, flags and budgets alone. *)
Lemma carries_quiet sh sh' :
  done sh' = done sh -> failed sh' = failed sh -> run_timed_out sh' = run_timed_out sh ->
  (forall h, h ∈ history sh -> h ∈ history sh') -> artifact_signalled sh ⊆ artifact_signalled sh' ->
  carries sh sh'.
Proof.
  intros Hd Hf Ht Hh Hs. split; rewrite ?Hd, ?Hf, ?Ht; auto.
Qed.

(** One that the run may be failed by, with cause. *)
Lemma carries_blamed sh sh' :
  done sh' = done sh -> (failed sh = true -> failed sh' = true) ->
  (run_timed_out sh = true -> run_timed_out sh' = true) ->
  (forall h, h ∈ history sh -> h ∈ history sh') -> artifact_signalled sh ⊆ artifact_signalled sh' ->
  failed sh = true \/ blamed sh' -> carries sh sh'.
Proof. intros Hd Hf Ht Hh Hs Hb. split; rewrite ?Hd; auto. Qed.

Lemma carries_foldl {A} (f : Shared -> A -> Shared) (l : list A) sh :
  (forall sh x, carries sh (f sh x)) -> carries sh (foldl f sh l).
Proof.
  intros Hf. revert sh. induction l as [|x l IH]; intros sh; [done|]. etrans; [apply Hf|apply IH].
Qed.

(** ** The operations *)

Lemma carries_retire sh step : carries sh (retire sh step).1.
Proof.
  unfold retire, uncount_process. case_decide; [done|]. simpl. case_decide; by apply carries_quiet.
Qed.

Lemma carries_uncount sh t : carries sh (uncount_process sh t).
Proof. unfold uncount_process. case_decide; [by apply carries_quiet|done]. Qed.

Lemma carries_happen h sh : carries sh (happen h sh).
Proof. apply carries_quiet; try done. intros x Hx. by right. Qed.

Lemma carries_mark cause sh t : carries sh (mark_aborted cause sh t).
Proof. by apply carries_quiet. Qed.

Lemma carries_signal t name sh : carries sh (signal t name sh).
Proof.
  unfold signal. case_decide; [done|]. apply carries_quiet; try done; simpl.
  - intros x Hx. by right.
  - apply union_subseteq_r.
Qed.

Lemma carries_scan sight sh : carries sh (scan_artifacts R sight sh).
Proof.
  unfold scan_artifacts. destruct (artifact_dir R); [|done]. apply carries_foldl. intros sh' [t step].
  unfold scan_step. destruct (publishes step) eqn:E; [done|]. destruct (listing sight t); [|done].
  apply carries_foldl. intros sh'' name. unfold scan_entry. repeat case_match; [done| |by apply carries_quiet].
  apply carries_signal.
Qed.

Lemma carries_final_scan step rp cause sh : carries sh (final_scan R step rp cause sh).
Proof. unfold final_scan. case_match; [|done]. apply carries_foldl. intros; apply carries_signal. Qed.

Lemma carries_publish_failed t o sh :
  ok o = false -> carries sh (publish t o sh) /\ blamed (publish t o sh).
Proof.
  intros Ho. unfold publish. rewrite Ho. split; [|left; exists t; by left]. split; simpl; try done.
  - intros h Hh. by right.
  - intros x Hx. destruct (decide (x = t)) as [->|]; [by rewrite lookup_insert_eq|by rewrite lookup_insert_ne].
  - by left.
  - intros x o' Hd Ho'. left. destruct (decide (x = t)) as [->|]; [|by rewrite lookup_insert_ne in Hd].
    rewrite lookup_insert_eq in Hd. injection Hd as <-. congruence.
Qed.

Lemma carries_trip kg t sh : failed sh = true \/ blamed sh -> carries sh (trip_fail_fast kg t sh).
Proof.
  intros Hb. assert (Hset : carries sh (set_failed sh)) by (by apply carries_blamed).
  unfold trip_fail_fast. destruct kg; [done|]. etrans; [exact Hset|].
  etrans; [|apply carries_happen]. etrans; [|apply carries_foldl; intros; apply carries_mark].
  unfold fail_scope. by case_match; apply carries_quiet.
Qed.

Lemma carries_discard producer sh dep : carries sh (discard producer sh dep).
Proof.
  unfold discard. destruct (done sh !! dep) as [o|] eqn:Hd; [|done]. destruct (ok o) eqn:Ho; [|done].
  split; simpl; try done.
  - intros h Hh. by right.
  - intros x Hx. destruct (decide (x = dep)) as [->|]; [by rewrite lookup_insert_eq|by rewrite lookup_insert_ne].
  - by left.
  - intros x o' Hd' Ho'. left. destruct (decide (x = dep)) as [->|]; [|by rewrite lookup_insert_ne in Hd'].
    rewrite lookup_insert_eq in Hd'. injection Hd' as <-. discriminate Ho'.
Qed.

Lemma carries_cancel producer deps sh : carries sh (cancel_artifact_dependents producer deps sh).
Proof.
  unfold cancel_artifact_dependents. destruct (foldl _ _ deps) as [sh' cut] eqn:E.
  etrans; [|apply carries_happen]. change sh' with (sh', cut).1. rewrite <- E. clear E sh' cut.
  change sh with (sh, @nil victim).1 at 1. generalize (sh, @nil victim).
  induction deps as [|d deps IH]; intros st; [done|]. etrans; [|apply IH]. destruct st as [sh' cut]. simpl.
  case_decide; simpl; [etrans; [apply carries_discard|apply carries_mark]|apply carries_discard].
Qed.

Lemma carries_unstarted step o sh : ok o = false -> carries sh (fail_unstarted R step o sh).
Proof.
  intros Ho. unfold fail_unstarted. etrans; [apply carries_retire|].
  destruct (carries_publish_failed (tag step) o (retire sh step).1 Ho) as [Hc Hb].
  etrans; [exact Hc|]. apply carries_trip. by right.
Qed.

Lemma carries_supervisor_failure kg step failure sh :
  carries sh (publish_supervisor_failure kg step failure sh).1.
Proof.
  unfold publish_supervisor_failure. case_match; [done|]. cbn [fst]. etrans; [apply carries_retire|].
  destruct (carries_publish_failed (tag step) (supervisor_outcome (tag step) failure) (retire sh step).1 eq_refl) as [Hc Hb].
  etrans; [exact Hc|]. apply carries_trip. by right.
Qed.

Lemma carries_budgets sight sh : carries sh (enforce_budgets R sight sh).
Proof.
  unfold enforce_budgets. case_match; [|done].
  etrans; [|apply carries_happen]. etrans; [|apply carries_foldl; intros; apply carries_mark].
  apply carries_blamed; try done. by right; right.
Qed.

(** ** The last critical section of a supervisor *)

Lemma outcome_found step rp cause o missing :
  outcome_of display R step rp cause = (o, missing) -> ok o = true -> missing = false.
Proof. unfold outcome_of, judge_signals. repeat case_match; intros [= <- <-] Hok; by simplify_eq/=. Qed.

Lemma signals_all t l sh name :
  name ∈ l -> (t, name) ∈ artifact_signalled (foldl (fun sh name => signal t name sh) sh l).
Proof.
  assert (Hone : forall sh, (t, name) ∈ artifact_signalled (signal t name sh)).
  { intros sh'. unfold signal. case_decide; [done|]. simpl. by apply elem_of_union_l, elem_of_singleton. }
  revert sh. induction l as [|x l IH]; intros sh Hin; [by apply elem_of_nil in Hin|].
  apply elem_of_cons in Hin as [<-|Hin]; [|by apply IH]. cbn [foldl].
  eapply ca_signalled; [|apply (Hone sh)]. apply carries_foldl. intros; apply carries_signal.
Qed.

(** Artifacts are watched where some step publishes one. *)
Definition watched : Prop :=
  forall t step, r_steps R !! t = Some step -> publishes_any step = true -> artifact_dir R = true.

Lemma final_scan_delivers step rp sh :
  watched -> r_steps R !! tag step = Some step -> (artifact_dir R = true -> all_signalled step rp) ->
  delivered (final_scan R step rp None sh) (tag step).
Proof.
  intros Hw Hs Hall step' a Hs' Ha. rewrite Hs in Hs'. injection Hs' as <-.
  assert (Hany : publishes_any step = true).
  { unfold publishes_any. destruct (publishes step); [by apply elem_of_nil in Ha|done]. }
  pose proof (Hw _ _ Hs Hany) as Hdir. unfold final_scan. rewrite Hany, Hdir. simpl.
  apply signals_all, elem_of_btree_elems. destruct (Hall Hdir a Ha) as (names & Hl & Hn).
  unfold signalled_artifacts. rewrite Hl. apply elem_of_filter. rewrite !elem_of_list_to_set. split; [|done].
  by apply list_elem_of_fmap_2.
Qed.

Lemma carries_publish_passed t o sh :
  ok o = true -> delivered sh t -> carries sh (publish t o sh).
Proof.
  intros Ho Hdel. split; simpl; try done.
  - intros h Hh. by right.
  - intros x Hx. destruct (decide (x = t)) as [->|]; [by rewrite lookup_insert_eq|by rewrite lookup_insert_ne].
  - by left.
  - intros x o' Hd Ho'. destruct (decide (x = t)) as [->|]; [by right|left; by rewrite lookup_insert_ne in Hd].
Qed.

Lemma carries_finish step rp sh :
  watched -> r_steps R !! tag step = Some step -> carries sh (finish display R step rp sh).
Proof.
  intros Hw Hs. unfold finish. set (sh1 := (retire sh step).1).
  etrans; [apply carries_retire|]. fold sh1. set (cause := aborted_by sh1 !! tag step).
  destruct (outcome_of display R step rp cause) as [o missing] eqn:Ho.
  destruct (outcome_fate _ _ _ _ _ _ _ Ho) as (Hok & _). destruct (ok o) eqn:E.
  - rewrite (outcome_found _ _ _ _ _ Ho E). destruct Hok as [(Hc & Hwell & Hall) _]; [done|].
    apply child_ok_spec in Hwell. rewrite Hc, Hwell. simpl.
    etrans; [apply (carries_final_scan step rp None)|]. apply carries_publish_passed; [done|].
    by apply final_scan_delivers.
  - etrans; [apply (carries_final_scan step rp cause)|].
    destruct (carries_publish_failed (tag step) o (final_scan R step rp cause sh1) E) as [Hc Hb].
    etrans; [exact Hc|]. set (sh2 := publish _ _ _) in *.
    assert (Hcancel : forall b : bool, carries sh2 (if b then cancel_artifact_dependents (tag step)
      (default [] (artifact_dependents R !! tag step)) sh2 else sh2)) by (intros []; [apply carries_cancel|done]).
    specialize (Hcancel (is_none cause && negb false && publishes_any step)).
    etrans; [exact Hcancel|]. destruct (is_none cause && (_ || _)); [|done]. apply carries_trip. right. exact (blamed_mono _ _ Hcancel Hb).
Qed.

Lemma carries_thread_step e s ph sh sh' ph' :
  watched -> r_steps R !! tag s = Some s ->
  thread_step display R e s ph sh = Some (sh', ph') -> carries sh sh'.
Proof.
  intros Hw Hs. destruct e as [| i|i pid nonce|i error elapsed|i exited|i rp|i|i detail elapsed|i]; simpl;
    try (destruct ph; try done).
  all: intros Hstep; simplify_eq/=; try done; try (by apply carries_unstarted); try apply carries_supervisor_failure.
  - case_match; apply carries_quiet; try done. intros h Hh. by right.
  - unfold try_wait_and_uncount. destruct exited; [apply carries_uncount|done].
  - by apply carries_finish.
  - apply carries_retire.
Qed.

Lemma carries_launch_loop sight sk tags a :
  carries (a_shared a) (a_shared (launch_loop R sight sk tags a)).
Proof.
  revert a. induction tags as [|t tags IH]; intros a; [done|]. simpl.
  destruct (r_steps R !! t) as [step|]; [|done]. case_match; [by etrans; [|apply IH]|].
  case_match; [done|]. case_match; [by etrans; [|apply IH]|].
  destruct (reserve _ _ _ _) as [coord [reservation|]]; (etrans; [|apply IH]); [|done].
  apply carries_quiet; try done. intros h Hh. by right.
Qed.
End cause.

(** ** Chains *)

Section chains.
Context (R : relation string) (X : gset string).

Lemma chain_in n x :
  (forall x, x ∈ X -> exists y, y ∈ X /\ R x y) -> x ∈ X ->
  exists l, length l = n /\ (forall y, y ∈ x :: l -> y ∈ X) /\ StronglySorted (tc R) (x :: l).
Proof.
  intros Hnext. revert x. induction n as [|n IH]; intros x Hx.
  - exists []. split; [done|]. split; [by intros y ->%list_elem_of_singleton|]. by repeat constructor.
  - destruct (Hnext x Hx) as (y & Hy & Hxy). destruct (IH y Hy) as (l & Hl & Hin & Hs).
    exists (y :: l). split; [simpl; by f_equal|]. split; [by intros z [->|?%Hin]%elem_of_cons|].
    constructor; [done|]. constructor; [by apply tc_once|].
    apply StronglySorted_inv in Hs as [_ Hs]. eapply Forall_impl; [exact Hs|]. intros z Hz. by eapply tc_l.
Qed.

(** In a finite set every chain of an acyclic relation ends. *)
Lemma acyclic_ends :
  (forall t, ~ tc R t t) -> (forall x, x ∈ X -> exists y, y ∈ X /\ R x y) -> forall x, ~ (x ∈ X).
Proof.
  intros Hac Hnext x Hx. destruct (chain_in (size X) x Hnext Hx) as (l & Hl & Hin & Hs).
  assert (Hnd : NoDup (x :: l)).
  { clear -Hs Hac. induction Hs as [|y k Hs IH Hy]; constructor; [|done].
    intros Hk. rewrite Forall_forall in Hy. by apply (Hac y), Hy. }
  assert (Hsub : (list_to_set (x :: l) : gset string) ⊆ X) by (intros y Hy%elem_of_list_to_set; by apply Hin).
  apply subseteq_size in Hsub. rewrite size_list_to_set in Hsub by done. simpl in Hsub. lia.
Qed.
End chains.

(** ** Graphs that can run *)

(** Accepted by the checks; no capacity blocks a step on purpose; and, which no check
    refuses, no artifact is expected of a producer that is intentionally skipped. *)
Record Runnable (cfg : DagConfig) : Prop := {
  rn_graph : graph_structure_violations cfg = [];
  rn_declared : undeclared_resource_demands cfg = [];
  rn_skips : skipped_dep_error (steps cfg) = None;
  rn_caps r cap : resource_caps cfg !! r = Some cap -> (0 < cap)%Z;
  rn_artifacts step d producer :
    step ∈ steps cfg -> d ∈ artifact_deps step -> producer ∈ steps cfg -> tag producer = dep_step d ->
    skip_reason producer = None
}.

Lemma undeclared_nil cfg step r n :
  undeclared_resource_demands cfg = [] -> step ∈ steps cfg -> skip_reason step = None ->
  resources (hint step) !! r = Some n -> (0 < n)%Z -> is_Some (resource_caps cfg !! r).
Proof.
  unfold undeclared_resource_demands. rewrite sort_dedup_nil, bind_nil. intros Hn Hs Hk Hr Hp.
  specialize (Hn step Hs). simpl in Hn. rewrite Hk, bind_nil in Hn.
  specialize (Hn (r, n) ltac:(by apply elem_of_btree_iter)). simpl in Hn.
  rewrite decide_True in Hn by done. by destruct (resource_caps cfg !! r).
Qed.

Lemma skipped_dep_none l step d dep :
  skipped_dep_error l = None -> step ∈ l -> d ∈ deps step -> dep ∈ l -> tag dep = d -> skip_reason dep = None.
Proof.
  unfold skipped_dep_error. intros Hn Hs Hd Hl Ht. destruct (List.find _ l) as [s|] eqn:Hf; [done|].
  eapply find_none in Hf; [|apply list_elem_of_In, Hs]. destruct (skip_reason dep) as [r|] eqn:Hr; [|done].
  exfalso. apply not_true_iff_false in Hf. apply Hf, existsb_elem. exists d. split; [done|].
  apply bool_decide_eq_true. unfold intentional_tags. rewrite elem_of_list_to_set, <- Ht.
  apply list_elem_of_fmap_2, elem_of_filter_b. by rewrite Hr.
Qed.

Section runnable.
Context (cfg : DagConfig) (Hrun : Runnable cfg).

Lemma runnable_well_formed : WellFormed cfg.
Proof. apply well_formed_exact, Hrun. Qed.

Lemma runnable_fits step r n :
  step ∈ steps cfg -> skip_reason step = None -> resources (hint step) !! r = Some n ->
  (n <= capacity (resource_caps cfg) r)%Z.
Proof.
  intros Hs Hk Hr. unfold capacity. destruct (resource_caps cfg !! r) as [cap|] eqn:Hc; simpl.
  - eapply wf_demands; [apply runnable_well_formed|done..|by eapply rn_caps].
  - destruct (decide (0 < n)%Z) as [Hp|]; [|lia].
    destruct (undeclared_nil cfg step r n (rn_declared _ Hrun) Hs Hk Hr Hp). congruence.
Qed.
End runnable.

(** ** A pass *)

(** Why a pass that starts nothing leaves a step that could start. *)
Lemma launch_loop_blocked {SD : StrDebug} R sight sk tags a t step :
  a_coordinator a = None -> (forall t, t ∈ tags -> is_Some (r_steps R !! t)) ->
  launchable (launch_loop R sight sk tags a) = [] ->
  t ∈ tags -> r_steps R !! t = Some step -> admissible R (a_shared a) sk t step = true ->
  held_up R (a_shared a) step.
Proof.
  intros Hc Hall. induction tags as [|t' tags IH]; intros Hl Ht Hs Hadm; [by apply elem_of_nil in Ht|].
  simpl in Hl. destruct (Hall t') as [step' Hs']; [by left|]. rewrite Hs' in Hl.
  assert (Hrest : launchable (launch_loop R sight sk tags a) = [] -> t ∈ tags -> held_up R (a_shared a) step).
  { intros Hl' Ht'. apply IH; try done. intros x Hx. apply Hall. by right. }
  destruct (admissible R (a_shared a) sk t' step') eqn:Hadm'; simpl in Hl.
  2: { apply Hrest; [done|]. apply elem_of_cons in Ht as [->|?]; [|done]. congruence. }
  destruct (max_steps R <=? _)%Z eqn:Hw; [left; by apply Z.leb_le|].
  destruct (res_free (a_shared a) step') eqn:Hf; simpl in Hl.
  - rewrite Hc in Hl. simpl in Hl. exfalso. eapply launch_loop_grows; [|exact Hl]. simpl. by destruct (launchable a).
  - apply elem_of_cons in Ht as [->|Ht]; [|by apply Hrest]. right.
    rewrite Hs in Hs'. injection Hs' as <-. by apply res_free_false.
Qed.

(** ** The dispatch order *)

Lemma elem_of_insert_dispatch x l y : y ∈ insert_dispatch x l <-> y = x \/ y ∈ l.
Proof.
  induction l as [|z l IH]; simpl; [by rewrite list_elem_of_singleton, elem_of_nil; naive_solver|].
  destruct (dispatch_cmp x z); rewrite ?elem_of_cons; [done|done|]. rewrite IH. tauto.
Qed.

Lemma elem_of_dispatched k y : y ∈ foldr insert_dispatch [] k <-> y ∈ k.
Proof. induction k as [|x k IH]; simpl; [done|]. by rewrite elem_of_insert_dispatch, IH, elem_of_cons. Qed.

(** Every declared step has its turn, also under a tag that is declared twice. *)
Lemma in_dispatch_order l t : t ∈ tag <$> l -> t ∈ dispatch_order (by_tag l) l.
Proof.
  intros Hin. apply by_tag_dom in Hin as Hs. destruct Hs as [s Hs].
  apply list_elem_of_fmap in Hin as (step & -> & Hin).
  apply list_elem_of_fmap. exists s. split; [by apply by_tag_lookup in Hs as [_ ?]|].
  apply elem_of_dispatched, list_elem_of_omap. by exists step.
Qed.

Lemma elem_of_dispatch_order l t : NoDup (tag <$> l) -> t ∈ dispatch_order (by_tag l) l <-> t ∈ tag <$> l.
Proof.
  intros Hnd. unfold dispatch_order. rewrite !list_elem_of_fmap.
  assert (Hin : forall y, y ∈ omap (fun step => by_tag l !! tag step) l <-> y ∈ l).
  { intros y. rewrite list_elem_of_omap. split.
    - intros (x & Hx & Hy). by apply by_tag_exact in Hy as [? _].
    - intros Hy. exists y. split; [done|]. by apply by_tag_exact. }
  by setoid_rewrite elem_of_dispatched; setoid_rewrite Hin.
Qed.

Section complete.
Context {SD : StrDebug} (display : f64 -> string).
Context (cfg : DagConfig) (max_steps' : Z) (keep_going' : bool) (run_timeout : option Z) (budget : option RunCpuBudget).
Context (Hrun : Runnable cfg).

Let R := Runner_new cfg max_steps' keep_going' None run_timeout budget [].
Let caps := resource_caps cfg.
Let Hwf := runnable_well_formed cfg Hrun.

Lemma step_exact t step : r_steps R !! t = Some step <-> step ∈ steps cfg /\ tag step = t.
Proof. apply by_tag_exact, Hwf. Qed.

Lemma order_exact t : t ∈ order R <-> is_Some (r_steps R !! t).
Proof. etrans; [apply elem_of_dispatch_order, Hwf|]. symmetry. apply by_tag_dom. Qed.

Lemma watched_R : watched R.
Proof.
  intros t step [Hs _]%step_exact Hp. unfold R, Runner_new. simpl. apply existsb_elem. exists step. done.
Qed.

Lemma not_behind t : ~ behind (r_steps R) (runtime_skips R) t.
Proof. induction 1 as [t step d _ _ [reason Hin%elem_of_nil]| |]; done. Qed.

Lemma none_skipped sh : Fails sh -> failed sh = false -> skipped R sh = ∅.
Proof.
  intros Hf Hno. apply elem_of_equiv_empty_L. intros t Ht%elem_of_skipped.
  by eapply not_behind, doomed_behind.
Qed.

Lemma none_blocked sh t : Fails sh -> failed sh = false -> blocked_by_fail_fast sh t = false.
Proof.
  intros Hf Hno. unfold blocked_by_fail_fast. apply orb_false_iff. split.
  - destruct (stop sh) eqn:E; [|done]. by rewrite (fails_stop _ Hf E) in Hno.
  - destruct (fail_fast_family_index sh !! t) as [f|]; [|done]. apply bool_decide_eq_false. intros Hin.
    assert (Hne : failed_families sh <> ∅) by (intros Heq; rewrite Heq in Hin; by apply not_elem_of_empty in Hin).
    by rewrite (fails_families _ Hf Hne) in Hno.
Qed.

(** A dependency is declared and not skipped by declaration. *)
Lemma dependency_unskipped step d :
  step ∈ steps cfg -> d ∈ dependency_tags step ->
  exists dep, r_steps R !! d = Some dep /\ skip_reason dep = None.
Proof.
  intros Hs [Hd|(a & Ha & <-)]%elem_of_dependency_tags.
  - pose proof (wf_deps _ Hwf _ _ Hs Hd) as Hin. apply list_elem_of_fmap in Hin as (dep & -> & Hdep).
    exists dep. split; [by apply step_exact|]. eapply skipped_dep_none; [apply Hrun|exact Hs|exact Hd|exact Hdep|done].
  - destruct (wf_artifact_deps _ Hwf _ _ Hs Ha) as (producer & Hp & Htp & _).
    exists producer. split; [by apply step_exact|]. eapply rn_artifacts; [exact Hrun|exact Hs|exact Ha|exact Hp|exact Htp].
Qed.

(** What passed has signalled what it publishes. *)
Definition signs (sh : Shared) : Prop :=
  forall t o, done sh !! t = Some o -> ok o = true -> delivered R sh t.

(** Every step is done or was left out by declaration. *)
Definition complete (sh : Shared) : Prop :=
  forall t step, r_steps R !! t = Some step -> is_Some (done sh !! t) \/ skip_reason step <> None.

Section quiet.
Context (sh : Shared) (m : gmap string life) (Hinv : Inv R caps (core sh) m).
Context (Hfails : Fails sh) (Hno : failed sh = false) (Hsigns : signs sh).

Lemma done_passed t : is_Some (done sh !! t) -> succeeded sh t = true /\ delivered R sh t.
Proof.
  intros [o Ho]. assert (Hok : ok o = true).
  { apply not_false_iff_true. intros Hbad. apply (no_failure sh t Hfails Hno). by exists o. }
  unfold succeeded. rewrite Ho. split; [done|]. by eapply Hsigns.
Qed.

(** A step whose predecessors are all done can start. *)
Lemma predecessors_done t step :
  running sh = ∅ -> r_steps R !! t = Some step -> done sh !! t = None -> skip_reason step = None ->
  (forall d, d ∈ dependency_tags step -> is_Some (done sh !! d)) ->
  admissible R sh (skipped R sh) t step = true.
Proof.
  intros Hrunning Hs Hd Hk Hall. apply step_exact in Hs as [Hs Ht].
  assert (Hdep : forall d, d ∈ deps step -> is_Some (done sh !! d)).
  { intros d Hin. apply Hall, elem_of_dependency_tags. by left. }
  unfold admissible, ready, outstanding, is_done, has_skip_reason.
  rewrite Hrunning, (none_skipped sh Hfails Hno), Hd, Hk.
  rewrite !(bool_decide_false (t ∈ ∅)), bool_decide_false by (apply not_elem_of_empty || by intros []).
  simpl. unfold startable_after_stop. rewrite (none_blocked _ _ Hfails Hno). simpl.
  rewrite !andb_true_iff. split; [|done]. unfold deps_known, deps_ok, artifact_deps_ok. rewrite !forallb_elem. split_and!.
  - intros d Hin. by apply bool_decide_eq_true, Hdep.
  - intros d Hin. by apply done_passed, Hdep.
  - intros a Hin. apply bool_decide_eq_true.
    destruct (wf_artifact_deps _ Hwf step a Hs Hin) as (producer & Hp & Htp & Ha).
    apply list_elem_of_fmap in Ha as (x & -> & Hx).
    assert (Hdp : is_Some (done sh !! dep_step a)) by (apply Hall, elem_of_dependency_tags; right; by exists a).
    apply done_passed in Hdp as [_ Hdel]. by apply (Hdel producer); [apply step_exact|].
Qed.

(** With nothing running a demand fits. *)
Lemma idle_not_held step :
  running sh = ∅ -> step ∈ steps cfg -> skip_reason step = None -> ~ held_up R sh step.
Proof.
  intros Hrunning Hs Hk [Hw|(r & n & Hr & Hlt)].
  - rewrite Hrunning, size_empty in Hw. change (max_steps R) with (Z.max max_steps' 1) in Hw. lia.
  - pose proof (i_account _ _ _ _ Hinv r) as Ha. change (c_avail (core sh)) with (resource_avail sh) in Ha.
    assert (Hempty : in_hand (core sh) = ∅).
    { unfold in_hand. simpl. rewrite Hrunning. by rewrite difference_empty_L || set_solver. }
    rewrite Hempty, held_empty in Ha. pose proof (runnable_fits cfg Hrun step r n Hs Hk Hr). unfold caps in Ha. lia.
Qed.

Lemma idle_complete sight :
  running sh = ∅ ->
  launchable (launch_loop R sight (skipped R sh) (order R)
    {| a_shared := sh; a_coordinator := None; launchable := [] |}) = [] ->
  complete sh.
Proof.
  intros Hrunning Hl.
  set (left_over := dom (filter (fun kv : string * Step =>
    negb (is_done sh kv.1) && negb (has_skip_reason kv.2)) (r_steps R))).
  assert (Hleft : forall t, t ∈ left_over <-> exists step,
    r_steps R !! t = Some step /\ done sh !! t = None /\ skip_reason step = None).
  { intros t. unfold left_over. rewrite elem_of_dom. unfold is_Some. setoid_rewrite map_lookup_filter_Some.
    setoid_rewrite Is_true_true. setoid_rewrite andb_true_iff. setoid_rewrite negb_true_iff.
    unfold is_done, has_skip_reason. setoid_rewrite bool_decide_eq_false. simpl.
    split; intros (step & Hs & Hd & Hk); exists step; (split; [done|]); split.
    - by apply eq_None_not_Some.
    - by destruct (skip_reason step).
    - rewrite Hd. by intros [].
    - by rewrite Hk. }
  assert (Hnone : forall t, ~ (t ∈ left_over)).
  { apply (acyclic_ends (waits_for (steps cfg))); [apply Hwf|]. intros t (step & Hs & Hd & Hk)%Hleft.
    destruct (decide (Exists (fun d => d ∈ left_over) (dependency_tags step))) as [Hex|Hex].
    - apply Exists_exists in Hex as (d & Hin & Hd'). exists d. split; [done|].
      apply step_exact in Hs as [Hs <-]. exists step. by rewrite <- elem_of_dependency_tags.
    - exfalso. assert (Hin : step ∈ steps cfg /\ tag step = t) by (by apply step_exact).
      apply (idle_not_held step Hrunning (proj1 Hin) Hk).
      apply (launch_loop_blocked R sight (skipped R sh) (order R)
        {| a_shared := sh; a_coordinator := None; launchable := [] |} t step); try done.
      + intros x. apply order_exact.
      + by apply order_exact; eexists.
      + apply predecessors_done; try done. intros d Hdep.
        destruct (decide (is_Some (done sh !! d))) as [|Hnd]; [done|]. exfalso.
        apply Hex, Exists_exists. exists d. split; [done|]. apply Hleft.
        destruct (dependency_unskipped step d) as (dep & Hs' & Hk'); [by apply Hin|done|].
        exists dep. split; [done|]. split; [by apply eq_None_not_Some|done]. }
  intros t step Hs. destruct (decide (is_Some (done sh !! t))) as [|Hd]; [by left|]. right. intros Hk.
  apply (Hnone t), Hleft. exists step. split; [done|]. split; [by apply eq_None_not_Some|done].
Qed.
End quiet.

(** *** Preserved by the operations *)

Lemma signs_carries sh sh' : carries R sh sh' -> signs sh -> signs sh'.
Proof.
  intros Hc H t o Hd Ho. destruct (ca_pass _ _ _ Hc t o Hd Ho) as [Hd'|]; [|done].
  eapply delivered_mono; [exact Hc|by eapply H].
Qed.

Lemma complete_carries sh sh' : carries R sh sh' -> complete sh -> complete sh'.
Proof. intros Hc H t step Hs. destruct (H t step Hs) as [Hd|]; [left; by eapply ca_done|by right]. Qed.

Lemma complete_size sh :
  complete sh -> size (r_steps R) <= size (done sh) + length (intentional_skips R).
Proof.
  intros Hc. set (skips := list_to_set (intentional_skips R).*1 : gset string).
  assert (Hsub : dom (r_steps R) ⊆ dom (done sh) ∪ skips).
  { intros t [step Hs]%elem_of_dom. apply elem_of_union.
    destruct (Hc t step Hs) as [Hd|Hk]; [left; by apply elem_of_dom|right].
    apply step_exact in Hs as [Hs <-]. destruct (skip_reason step) as [r|] eqn:Hr; [|done].
    apply elem_of_list_to_set, list_elem_of_fmap. exists (tag step, r). split; [done|].
    apply list_elem_of_omap. exists step. by rewrite Hr. }
  apply subseteq_size in Hsub. rewrite size_dom in Hsub. etrans; [exact Hsub|].
  etrans; [apply size_union_le|]. rewrite size_dom.
  assert (size skips <= length (intentional_skips R)); [|lia].
  unfold skips. rewrite <- (length_fmap fst). generalize ((intentional_skips R).*1). intros l.
  induction l as [|x l IH].
  { change (size (∅ : gset string) <= 0). by rewrite size_empty. }
  change (size ({[x]} ∪ list_to_set l : gset string) <= S (length l)).
  etrans; [apply size_union_le|]. rewrite size_singleton. lia.
Qed.

Lemma pass_complete sight sh m sh' coord' v :
  Inv R caps (core sh) m -> Fails sh -> signs sh ->
  pass R sight sh None = (sh', coord', v) ->
  carries R sh sh' /\ (v = LoopEnds -> failed sh' = true \/ complete sh').
Proof.
  intros Hinv Hf Hs. unfold pass. set (sh0 := scan_artifacts R sight (enforce_budgets R sight sh)).
  assert (Hc0 : carries R sh sh0) by (etrans; [apply carries_budgets|apply carries_scan]).
  assert (Hinv0 : Inv R caps (core sh0) m) by (apply inv_scan; by rewrite core_budgets).
  assert (Hf0 : Fails sh0) by (eapply Fails_same_fate; [apply fate_scan|by apply Fails_budgets]).
  assert (Hs0 : signs sh0) by (by eapply signs_carries).
  clearbody sh0. destruct (negb (forallb _ _)); [by intros [= <- _ <-]|].
  destruct (loop_over R sh0 (skipped R sh0)) eqn:Hover.
  { intros [= <- _ <-]. split; [done|]. intros _. destruct (failed sh0) eqn:Hno; [by left|right].
    intros t step Hst. destruct (decide (is_Some (done sh0 !! t))) as [|Hd]; [by left|]. right. intros Hk.
    assert (Hlt : accounted R sh0 (skipped R sh0) < size (r_steps R)).
    { eapply accounted_lt; [apply Hwf|exact Hinv0|exact Hst|by apply eq_None_not_Some| |done|].
      - fold R. rewrite none_skipped by done. apply not_elem_of_empty.
      - unfold startable_after_stop. by rewrite none_blocked. }
    unfold loop_over in Hover. rewrite !andb_true_iff, orb_true_iff, Nat.leb_le in Hover.
    destruct Hover as [_ [Hstop|Hle]]; [|lia]. by rewrite (fails_stop _ Hf0 Hstop) in Hno. }
  cbn [fmap option_fmap option_map]. set (a0 := {| a_shared := sh0; a_coordinator := None; launchable := [] |}).
  set (a := launch_loop R sight (skipped R sh0) (order R) a0).
  assert (Hca : carries R sh0 (a_shared a)) by apply (carries_launch_loop R sight (skipped R sh0) (order R) a0).
  destruct (starved _ _ _ _ _) eqn:Hst; [|by intros [= <- _ <-]; split; [etrans|]].
  intros [= <- _ <-]. split; [|by left].
  assert (Hfailed : failed (a_shared a) = true).
  { unfold starved in Hst. rewrite !andb_true_iff, bool_decide_eq_true, Nat.ltb_lt in Hst.
    destruct Hst as [[[Hl Hidle] Hpos] _]. destruct (launchable a) eqn:El; [|done].
    assert (Hsame : a_shared a = sh0) by (by apply (launch_loop_none R sight (skipped R sh0) (order R) a0)).
    rewrite Hsame in *. destruct (failed sh0) eqn:Hno; [done|]. exfalso.
    pose proof (complete_size sh0 (idle_complete sh0 m Hinv0 Hf0 Hno Hs0 sight Hidle El)). lia. }
  etrans; [exact Hc0|]. etrans; [exact Hca|]. apply carries_blamed; try done; [|by left].
  intros h Hh. by right.
Qed.

(** ** A run *)

Record Smooth (σ : System) : Prop := {
  sm_alone : coordinator σ = None;
  sm_cause : failed (shared σ) = true -> blamed (shared σ);
  sm_signs : signs (shared σ);
  sm_over : at_ σ = Joining \/ at_ σ = Ended -> failed (shared σ) = true \/ complete (shared σ)
}.

Lemma smooth_carries σ σ' :
  Smooth σ -> carries R (shared σ) (shared σ') -> coordinator σ' = None ->
  (at_ σ' = Joining \/ at_ σ' = Ended -> failed (shared σ') = true \/ complete (shared σ')
     \/ at_ σ = Joining \/ at_ σ = Ended) ->
  Smooth σ'.
Proof.
  intros [Ha Hc Hs Ho] Hcar Hal Hov. split; [done| | |].
  - intros Hf. destruct (ca_cause _ _ _ Hcar Hf) as [Hx|]; [|done]. eapply blamed_mono; [exact Hcar|by apply Hc].
  - by eapply signs_carries.
  - intros Hat. destruct (Hov Hat) as [|[|Hat']]; [by left|by right|].
    destruct (Ho Hat') as [Hf|Hcm]; [left; by apply (ca_failed _ _ _ Hcar)|right; by eapply complete_carries].
Qed.

Lemma smooth_exec σ e σ' :
  Sound R caps σ -> Smooth σ -> exec display R e σ = Some σ' -> Smooth σ'.
Proof.
  intros Hsound H. destruct e as [sight| | | | | | | |]; cbn [exec];
    try (destruct (handles σ !! i) as [[s ph]|] eqn:Hi; [|done]; cbn [mbind option_bind];
     match goal with |- context [thread_step ?f ?R ?e ?s ?ph ?sh] =>
       destruct (thread_step f R e s ph sh) as [[sh' ph']|] eqn:He end; [|done];
     intros [= <-]; apply (smooth_carries σ); [done| |apply H|by right; right];
     eapply carries_thread_step; [apply watched_R| |exact He];
     apply (sound_known _ _ _ Hsound), elem_of_app; left; apply list_elem_of_fmap; exists (s, ph);
     split; [done|by eapply list_elem_of_lookup_2]).
  unfold main_step. destruct (at_ σ) as [|[|s rest]| |[|[s reservation] rest]| | |] eqn:Hat; try done.
  - intros [= <-]. apply (smooth_carries σ); [done..|apply H|by intros [?|?]].
  - intros [= <-]. apply (smooth_carries σ); [done..|apply H|by intros [?|?]].
  - intros [= <-]. apply (smooth_carries σ); [done|apply carries_supervisor_failure|apply H|by intros [?|?]].
  - rewrite (sm_alone _ H). destruct (pass _ _ _ _) as [[sh coord] v] eqn:Hp.
    destruct (pass_complete _ _ _ _ _ _ (sound_inv _ _ _ Hsound) (sound_fails _ _ _ Hsound) (sm_signs _ H) Hp) as [Hc Hend].
    intros [= <-]. apply (smooth_carries σ); [done|exact Hc|by eapply pass_coordinator|]. simpl.
    destruct v; [|by intros [?|?]..]. intros _. destruct Hend; auto.
  - intros [= <-]. apply (smooth_carries σ); [done..|apply H|by intros [?|?]].
  - intros [= <-]. apply (smooth_carries σ); [done..|apply H|by intros [?|?]].
  - destruct (forallb _ _); [|done]. intros [= <-].
    apply (smooth_carries σ); [done..|by simpl; rewrite (sm_alone _ H)|]. intros _. auto.
Qed.

Lemma smooth_run σ : reachable display R (start cfg None) σ -> Smooth σ.
Proof.
  induction 1 as [|σ σ' e Hr IH Hexec].
  - split; [done|done| |by intros [?|?]]. intros t o Hd. simpl in Hd. by rewrite lookup_empty in Hd.
  - apply run_sound in Hr as [Hs _]. by eapply smooth_exec.
Qed.

(** A run in which nothing failed and every step is accounted for is a success. *)
Lemma complete_ok sh : failed sh = false -> complete sh -> run_ok (result R sh) = true.
Proof.
  intros Hno Hc. unfold result. cbn [run_ok]. rewrite Hno. simpl.
  assert (Hnil : not_launched_tags R sh = []); [|by rewrite Hnil].
  apply elem_of_nil_inv. intros t. unfold not_launched_tags. rewrite elem_of_sort_by_key, elem_of_filter_b.
  intros [Ht Hn]. rewrite !andb_true_iff, !negb_true_iff in Hn. destruct Hn as [[Hd _] Ha].
  apply order_exact in Ht as [step Hs]. unfold is_done in Hd. apply bool_decide_eq_false in Hd, Ha.
  destruct (Hc t step Hs) as [?|Hk]; [done|]. apply Ha. unfold accounted_tags.
  rewrite elem_of_list_to_set, elem_of_app. left. apply step_exact in Hs as [Hs <-].
  destruct (skip_reason step) as [r|] eqn:Hr; [|done]. apply list_elem_of_fmap. exists (tag step, r).
  split; [done|]. apply list_elem_of_omap. exists step. by rewrite Hr.
Qed.

Lemma complete_passed sh step :
  Fails sh -> failed sh = false -> complete sh -> step ∈ steps cfg ->
  (exists o, done sh !! tag step = Some o /\ ok o = true) \/ skip_reason step <> None.
Proof.
  intros Hf Hno Hc Hs. destruct (Hc (tag step) step) as [[o Ho]|Hk]; [by apply step_exact| |by right].
  left. exists o. split; [done|]. destruct (ok o) eqn:E; [done|]. by rewrite (fails_done _ Hf _ _ Ho E) in Hno.
Qed.
End complete.
