(* ===== verification/DagCases.v ===== *)
(** * dagrun: runs worth knowing

    A small graph: two steps that share one slot, the second behind the first, and the
    schedule of events of a run in which both pass.

    Then runs in which leaving a step out at run time changes what happens to others: a
    run that never ends, a loop that ends with a step it could have started, and a consumer
    that starves where a dependent would be skipped; and a graph that passes every check
    and starves, because it expects an artifact of a step that is skipped by declaration.
    And a step that asks for a negative amount of a resource. *)
From S2P Require Import Prelude RustStr External DagModel DagOutcome DagChecks DagSchedule DagRunner DagRun.

Definition zero : f64 := SpecFloat.S754_zero false.

Definition bare_hint (res : gmap string Z) : ResourceHint := {|
  resources := res; est_duration_s := zero; rss_baseline_bytes := None;
  rss_baseline_inner_jobs := None; hard_mem_max_bytes := None; classification := Light;
  preferred_inner_jobs_hint := None; measured_effective_cores := None;
  measured_cpu_utilization := None
|}.

Definition bare_step (g j : string) (deps : list string) (res : gmap string Z) : Step := {|
  group := g; job := j; desc := ""; description := ""; labels := []; cmd := "true";
  cmdtype := UnknownCmd; manifest := None; integration_test_binaries := None;
  result_manifests := None; deps := deps; env := ∅; hint := bare_hint res; networkonly := false;
  engine_only := false; delegated_children := false; timeout := 0; cpu_timeout := 0; priority := 0;
  jobs_flag := None; jobs_env := None; skip_reason := None; write_domains := None;
  write_domain_guarantee := None; explains := []; fail_fast_family := None; publishes := [];
  artifact_deps := []
|}.

Definition bare_cfg (steps : list Step) (caps : gmap string Z) : DagConfig := {|
  steps := steps; dag_description := ""; resource_caps := caps; mem_cap_factor := f64_one;
  mem_cap_floor_bytes := 0; outer_mem_safety_factor := f64_one; default_step_timeout := 0;
  default_jobs_flag := DEFAULT_JOBS_FLAG; default_jobs_env := ""; default_step_mem_cap_bytes := None;
  default_step_cpu_count := None; default_step_cpu_timeout := DEFAULT_SMALL_CPU_TIMEOUT;
  cpu_timeout_multiplier := f64_one; cpu_timeout_platform := "";
  write_domain_policy := {| require_explicit := false; allowed_domains := ∅ |}
|}.

#[global] Existing Instance plain_debug.

Definition slot : gmap string Z := {["slot" := 1%Z]}.

Definition pair_cfg : DagConfig :=
  bare_cfg [bare_step "ci" "build" [] slot; bare_step "ci" "test" ["ci.build"] slot] slot.

Definition runner_of (cfg : DagConfig) (runtime : list (string * string)) : Runner :=
  Runner_new cfg 4 false None None None runtime.

(** Nothing to see: no deadline, no artifact, no shared state. *)
Definition calm : Sight := {|
  deadline_passed := false; cpu_usage := None; listing := fun _ => None;
  ledger_create := fun _ => Ok tt; ledger_grant := fun _ => Ok true
|}.

Definition exit_report (rc : Z) : Report := {|
  rp_elapsed := zero; rp_summary := ""; rp_returncode := Some rc; rp_timed_out := false;
  rp_cpu_timed_out := false; rp_oom_kills := 0; rp_actionable_oom_events := 0;
  rp_counts := {| executed := None; filtered := None; results := None |};
  rp_results_error := None; rp_listing := None
|}.

Definition plain_display (_ : f64) : string := "1".

(** One round of the loop that starts a single thread. *)
Definition round_one : list event := replicate 5 (Main calm).

(** A supervisor whose child exits with [rc]. *)
Definition supervise (i : nat) (rc : Z) : list event :=
  [Spawn i 100 "nonce"; Observe i true; Publish i (exit_report rc); ThreadEnds i].

Definition both_pass : list event :=
  round_one ++ supervise 0 0 ++ round_one ++ supervise 1 0 ++ replicate 4 (Main calm).

Definition after (cfg : DagConfig) (runtime : list (string * string)) (es : list event) : System :=
  default (start cfg None) (exec_all plain_display (runner_of cfg runtime) es (start cfg None)).

Example both_pass_ends : at_ (after pair_cfg [] both_pass) = Ended.
Proof. vm_compute. reflexivity. Qed.

(** ** Runs by example *)

Lemma exec_all_reachable `{StrDebug} display R init es σ σ' :
  reachable display R init σ -> exec_all display R es σ = Some σ' -> reachable display R init σ'.
Proof.
  revert σ. induction es as [|e es IH]; intros σ Hr; simpl; [by intros [= <-]|].
  destruct (exec display R e σ) as [σ1|] eqn:He; [|done]. simpl. apply IH. by eapply reach_step.
Qed.

Lemma after_reachable cfg runtime es :
  reachable plain_display (runner_of cfg runtime) (start cfg None) (after cfg runtime es).
Proof.
  unfold after. destruct (exec_all _ _ _ _) as [σ|] eqn:He; [|constructor].
  eapply exec_all_reachable; [constructor|exact He].
Qed.

Definition with_ties (ex : list string) (family : option string) (pub : list PublishedArtifact)
    (arts : list ArtifactDep) (s : Step) : Step := {|
  group := group s; job := job s; desc := desc s; description := description s; labels := labels s;
  cmd := cmd s; cmdtype := cmdtype s; manifest := manifest s;
  integration_test_binaries := integration_test_binaries s; result_manifests := result_manifests s;
  deps := deps s; env := env s; hint := hint s; networkonly := networkonly s;
  engine_only := engine_only s; delegated_children := delegated_children s; timeout := timeout s;
  cpu_timeout := cpu_timeout s; priority := priority s; jobs_flag := jobs_flag s;
  jobs_env := jobs_env s; skip_reason := skip_reason s; write_domains := write_domains s;
  write_domain_guarantee := write_domain_guarantee s; explains := ex; fail_fast_family := family;
  publishes := pub; artifact_deps := arts
|}.

Definition step_of (j : string) : Step := bare_step "ci" j [] ∅.

(** ** A diagnostic the caller left out *)

(** [ci.why] explains [ci.check]; the caller skips it; [ci.check] fails. *)
Definition diagnosed : DagConfig :=
  bare_cfg [step_of "check"; with_ties ["ci.check"] None [] [] (step_of "why")] ∅.
Definition without_why : list (string * string) := [("ci.why", "not today")].

Definition stuck_run : System := after diagnosed without_why (round_one ++ supervise 0 1).

(** The four systems its loop goes around, whatever its passes see. *)
Definition lap (k : nat) : System := after diagnosed without_why (round_one ++ supervise 0 1 ++ replicate k (Main calm)).

Lemma lap_step sight :
  exec plain_display (runner_of diagnosed without_why) (Main sight) (lap 0) = Some (lap 1)
  /\ exec plain_display (runner_of diagnosed without_why) (Main sight) (lap 1) = Some (lap 2)
  /\ exec plain_display (runner_of diagnosed without_why) (Main sight) (lap 2) = Some (lap 3)
  /\ exec plain_display (runner_of diagnosed without_why) (Main sight) (lap 3) = Some (lap 0).
Proof. refine (conj _ (conj _ (conj _ _))); vm_compute; reflexivity. Qed.

Definition is_ended (σ : System) : bool := match at_ σ with Ended => true | _ => false end.

Lemma lap_not_over : forallb (fun k => negb (is_ended (lap k))) [0; 1; 2; 3] = true.
Proof. vm_compute. reflexivity. Qed.

(** The run never ends: the pending diagnostic is neither launched nor given up. *)
Theorem skipped_diagnostic_never_ends sights σ :
  exec_all plain_display (runner_of diagnosed without_why) (Main <$> sights) stuck_run = Some σ ->
  at_ σ <> Ended.
Proof.
  change stuck_run with (lap 0). intros Hrun.
  assert (Hgo : forall k, k ∈ [0; 1; 2; 3] ->
    exec_all plain_display (runner_of diagnosed without_why) (Main <$> sights) (lap k) = Some σ ->
    exists k, k ∈ [0; 1; 2; 3] /\ σ = lap k).
  { clear Hrun. induction sights as [|s sights IH]; intros k Hk; cbn [fmap list_fmap exec_all].
    - intros Heq. apply (inj Some) in Heq. exists k. split; [exact Hk|symmetry; exact Heq].
    - destruct (lap_step s) as (E0 & E1 & E2 & E3).
      assert (Hnext : exists k', k' ∈ [0; 1; 2; 3] /\
        exec plain_display (runner_of diagnosed without_why) (Main s) (lap k) = Some (lap k')).
      { rewrite !elem_of_cons in Hk. destruct Hk as [->|[->|[->|[->|Hk%elem_of_nil]]]];
          [exists 1|exists 2|exists 3|exists 0|destruct Hk];
          (split; [rewrite !elem_of_cons; tauto|assumption]). }
      destruct Hnext as (k' & Hk' & Hs). intros Hrun. rewrite Hs in Hrun. exact (IH k' Hk' Hrun). }
  destruct (Hgo 0) as (k & Hk & ->); [by left|exact Hrun|]. pose proof lap_not_over as Hall. rewrite forallb_elem in Hall.
  specialize (Hall k Hk). intros Hend. unfold is_ended in Hall.
  rewrite Hend in Hall. discriminate Hall.
Qed.

(** Every thread of it has ended, and its main thread can always move. *)
Example stuck_run_idle : (fun h : Step * phase => h.2) <$> handles stuck_run = [Finished].
Proof. vm_compute. reflexivity. Qed.

(** ** A family member the caller left out *)

(** [ci.a] fails and shuts its family, whose other member the caller left out; that member
    is accounted for twice, and the loop, one step wide, ends before [ci.c] had its turn. *)
Definition families : DagConfig :=
  bare_cfg [with_ties [] (Some "f") [] [] (step_of "a"); with_ties [] (Some "f") [] [] (step_of "b");
            step_of "c"] ∅.
Definition one_wide (runtime : list (string * string)) : Runner :=
  Runner_new families 1 false None None None runtime.

Definition family_run (runtime : list (string * string)) : System :=
  default (start families None) (exec_all plain_display (one_wide runtime)
    (round_one ++ supervise 0 1 ++ replicate 4 (Main calm)) (start families None)).

Example unrelated_step_lost :
  let σ := family_run [("ci.b", "not today")] in
  (at_ σ, not_launched (result (one_wide [("ci.b", "not today")]) (shared σ))) = (Ended, ["ci.c"]).
Proof. vm_compute. reflexivity. Qed.

(** Without the skip, the unrelated step has its turn. *)
Example unrelated_step_kept : is_done (shared (family_run [])) "ci.c" = false /\ ("ci.c" ∈ running (shared (family_run []))).
Proof. split; [vm_compute; reflexivity|]. apply (bool_decide_unpack _). vm_compute. exact I. Qed.

(** ** A producer the caller left out *)

(** The consumer of an artifact starves, and the run fails, where the dependent of a step
    would be skipped and the run succeed. *)
Definition artifact_of (j : string) : PublishedArtifact := {| artifact_name := j; artifact_path := None |}.
Definition consumer (through_artifact : bool) : DagConfig :=
  bare_cfg
    [with_ties [] None [artifact_of "out"] [] (step_of "p");
     if through_artifact
     then with_ties [] None [] [{| dep_step := "ci.p"; dep_artifact := "out" |}] (step_of "q")
     else bare_step "ci" "q" ["ci.p"] ∅] ∅.

Definition consumer_run (through_artifact : bool) : RunResult :=
  result (runner_of (consumer through_artifact) [("ci.p", "not today")])
    (shared (after (consumer through_artifact) [("ci.p", "not today")] (replicate 4 (Main calm)))).

Example artifact_consumer_starves :
  (run_ok (consumer_run true), skipped_tags (consumer_run true), not_launched (consumer_run true))
  = (false, [], ["ci.q"]).
Proof. vm_compute. reflexivity. Qed.

Example dependent_skipped :
  (run_ok (consumer_run false), skipped_tags (consumer_run false), not_launched (consumer_run false))
  = (true, ["ci.q"], []).
Proof. vm_compute. reflexivity. Qed.

(** ** Left out by declaration *)

Definition declared_skip (s : Step) : Step := {|
  group := group s; job := job s; desc := desc s; description := description s; labels := labels s;
  cmd := cmd s; cmdtype := cmdtype s; manifest := manifest s;
  integration_test_binaries := integration_test_binaries s; result_manifests := result_manifests s;
  deps := deps s; env := env s; hint := hint s; networkonly := networkonly s;
  engine_only := engine_only s; delegated_children := delegated_children s; timeout := timeout s;
  cpu_timeout := cpu_timeout s; priority := priority s; jobs_flag := jobs_flag s;
  jobs_env := jobs_env s; skip_reason := Some EmptyManifestBucket; write_domains := write_domains s;
  write_domain_guarantee := write_domain_guarantee s; explains := explains s;
  fail_fast_family := fail_fast_family s; publishes := publishes s; artifact_deps := artifact_deps s
|}.

(** The loader refuses a dependency on a step that is skipped by declaration, but lets
    one on its artifact through; the consumer starves. *)
Definition declared_consumer (through_artifact : bool) : DagConfig :=
  bare_cfg
    [declared_skip (with_ties [] None [artifact_of "out"] [] (step_of "p"));
     if through_artifact
     then with_ties [] None [] [{| dep_step := "ci.p"; dep_artifact := "out" |}] (step_of "q")
     else bare_step "ci" "q" ["ci.p"] ∅] ∅.

Definition refused (cfg : DagConfig) : bool :=
  negb (match graph_structure_violations cfg, undeclared_resource_demands cfg, skipped_dep_error (steps cfg) with
        | [], [], None => true | _, _, _ => false end).

Example skipped_dependency_refused : refused (declared_consumer false) = true.
Proof. vm_compute. reflexivity. Qed.

Example skipped_producer_accepted :
  (refused (declared_consumer true),
   not_launched (result (runner_of (declared_consumer true) [])
     (shared (after (declared_consumer true) [] (replicate 4 (Main calm)))))) = (false, ["ci.q"]).
Proof. vm_compute. reflexivity. Qed.

(** ** A negative demand *)

(** A step may ask for less than nothing; while it runs, more is free than there is. *)
Definition generous : DagConfig := bare_cfg [bare_step "ci" "a" [] {["slot" := (-1)%Z]}] slot.

Example more_than_there_is :
  graph_structure_violations generous = [] /\ undeclared_resource_demands generous = [] /\
  capacity (resource_avail (shared (after generous [] round_one))) "slot" = 2%Z /\
  capacity (resource_caps generous) "slot" = 1%Z.
Proof. split_and!; vm_compute; reflexivity. Qed.
