(* ===== verification/DagProps.v ===== *)
(** * dagrun: the properties

    What every run of the scheduler keeps, whatever its supervisors do and in whatever
    order, and what each of its decisions comes to. *)
From S2P Require Import Prelude RustStr External DagModel DagOutcome DagSchedule DagRunner DagRun DagCore DagInv DagSystem DagSkip DagFair DagDecisions DagComplete DagCases.

(** ** What a happening rests on *)

Lemma deeds_split l1 x l2 :
  is_deed x = true ->
  List.filter is_deed (l1 ++ x :: l2) = List.filter is_deed l1 ++ x :: List.filter is_deed l2.
Proof. intros Hx. rewrite List.filter_app. simpl. by rewrite Hx. Qed.

Lemma elem_of_deeds x h : x ∈ List.filter is_deed h <-> x ∈ h /\ is_deed x = true.
Proof. apply elem_of_filter_b. Qed.

Lemma credited_deeds h t :
  credited (List.filter is_deed h) t <-> credited h t.
Proof.
  unfold credited. setoid_rewrite elem_of_deeds. split.
  - intros [[Hp _] Hno]. split; [done|]. intros p Hd. by apply (Hno p).
  - intros [Hp Hno]. split; [done|]. intros p [Hd _]. by apply (Hno p).
Qed.

Lemma runtime_skipped_false R t :
  runtime_skipped R t = false -> forall reason, ~ ((t, reason) ∈ runtime_skips R).
Proof.
  intros Hf reason Hin. assert (runtime_skipped R t = true) as Ht; [|by rewrite Hf in Ht].
  apply runtime_skipped_spec. by exists reason.
Qed.

Section properties.
Context `{SD : StrDebug} (display : f64 -> string).
Context (cfg : DagConfig) (max_steps' : Z) (keep_going' : bool) (order_override : option (list string))
  (run_timeout : option Z) (budget : option RunCpuBudget).

Definition run_of (runtime : list (string * string)) : Runner :=
  Runner_new cfg max_steps' keep_going' order_override run_timeout budget runtime.

(** C31: Resources are never over-granted and always handed back: in every state a run
    can reach, whatever supervisors fail to spawn, panic, vanish or finish, each named
    resource has exactly its declared capacity less what the running, unretired steps ask
    of it; where no step asks for a negative amount, one of a capacity that is not negative
    stays between zero and that capacity (see [more_than_there_is]); no more than
    [max_steps] steps, and at least one, may run, and no more processes were ever counted
    at once; and when the run has ended every resource is back at its capacity with no
    process counted. *)
Theorem resources_and_width runtime coord σ :
  let R := run_of runtime in
  let sh := shared σ in
  reachable display R (start cfg coord) σ ->
  (forall r, capacity (resource_avail sh) r
     = capacity (resource_caps cfg) r - held (r_steps R) (running sh ∖ retired sh) r)%Z
  /\ ((forall step r n, step ∈ steps cfg -> resources (hint step) !! r = Some n -> 0 <= n) -> forall r, 0 <= capacity (resource_caps cfg) r ->
        0 <= capacity (resource_avail sh) r <= capacity (resource_caps cfg) r)%Z
  /\ (Z.of_nat (size (running sh)) <= Z.max max_steps' 1)%Z
  /\ active_processes sh = size (counted_processes sh)
  /\ active_processes sh <= max_concurrent_steps sh
  /\ (Z.of_nat (max_concurrent_steps sh) <= Z.max max_steps' 1)%Z
  /\ (at_ σ = Ended -> active_processes sh = 0
        /\ forall r, capacity (resource_avail sh) r = capacity (resource_caps cfg) r).
Proof.
  intros R sh Hr. apply run_sound in Hr as [H Hover]. pose proof (sound_inv _ _ _ H) as Hi.
  pose proof (i_account _ _ _ _ Hi) as Ha. fold sh in Ha, Hi. simpl in Ha.
  split_and!; [done| |apply Hi|apply Hi|apply Hi|apply Hi|].
  - intros Hamounts r Hcap. assert (Hpos : demands_nonneg R).
    { intros t step r' [Hin _]%by_tag_lookup. unfold asks, capacity. specialize (Hamounts step r').
      destruct (resources (hint step) !! r'); [by apply Hamounts|done]. } split; [by apply (i_fits _ _ _ _ Hi)|]. specialize (Ha r). simpl in Ha.
    pose proof (held_nonneg (r_steps R) (in_hand (core sh)) r (fun t step => Hpos t step r)).
    unfold R, run_of in *. simpl in *. lia.
  - intros Hend. assert (Hrun : running sh = ∅) by (apply Hover; by right). split.
    + pose proof (i_active _ _ _ _ Hi) as Hact. simpl in Hact. rewrite Hact.
      apply size_empty_iff. intros t. split; [|by intros ?%not_elem_of_empty].
      intros Ht. change (t ∈ c_counted (core sh)) in Ht. apply (counted_running _ _ _ _ _ Hi) in Ht.
      simpl in Ht. by rewrite Hrun in Ht.
    + intros r. rewrite Ha. unfold in_hand. simpl. rewrite Hrun.
      rewrite (subseteq_empty_difference_L ∅) by apply empty_subseteq. rewrite held_empty. lia.
Qed.

(** C32: A step is launched at most once, and only behind what it waits for: at the moment
    it was launched every dependency had published a passing outcome that had not been
    discarded, every artifact it waits for had been signalled, and it carried neither a
    declared skip reason nor a skip of the caller's; and an outcome is published at most
    once, for a step that was launched. *)
Theorem launched_once_behind_dependencies runtime coord σ later t earlier :
  let R := run_of runtime in
  reachable display R (start cfg coord) σ ->
  (history (shared σ) = later ++ Launched t :: earlier ->
     ~ (Launched t ∈ earlier) /\ (forall reason, ~ ((t, reason) ∈ runtime)) /\
     exists step, r_steps R !! t = Some step /\ skip_reason step = None
       /\ (forall d, d ∈ deps step ->
             Published d true ∈ earlier /\ forall producer, ~ (Discarded d producer ∈ earlier))
       /\ (forall a, a ∈ artifact_deps step -> Signalled (dep_step a) (dep_artifact a) ∈ earlier))
  /\ (forall v, history (shared σ) = later ++ Published t v :: earlier ->
        Launched t ∈ earlier /\ forall v', ~ (Published t v' ∈ earlier)).
Proof.
  intros R Hr. apply run_sound in Hr as [H _].
  pose proof (i_lawful _ _ _ _ (sound_inv _ _ _ H)) as Hl. simpl in Hl. split.
  - intros Hh. rewrite Hh, deeds_split in Hl by done.
    apply lawful_split in Hl as (Hn & Hrt & step & Hs & Hsk & Hd & Ha). split_and!.
    + intros Hin. apply Hn, elem_of_deeds. done.
    + apply (runtime_skipped_false _ _ Hrt).
    + exists step. split_and!; [done|done| |].
      * intros d Hin. by apply credited_deeds, Hd.
      * intros a Hin. by apply Ha, elem_of_deeds in Hin as [? _].
  - intros v Hh. rewrite Hh, deeds_split in Hl by done. apply lawful_split in Hl as (Hin & Hno).
    split; [by apply elem_of_deeds in Hin as [? _]|]. intros v' Hin'. by apply (Hno v'), elem_of_deeds.
Qed.

(** ** The verdict of a run *)



(** C34: A run ends, where tags are unique, an order the caller gives lists declared steps
    only, no step is left out by the caller (see [skipped_diagnostic_never_ends]) and no
    resource state is shared with other processes: every schedule that keeps moving the
    main thread and in which every supervisor thread ends at some time, by finishing,
    panicking or vanishing, brings the run to its end, whatever else is wrong with the
    graph: cycles, dangling dependencies and demands no capacity can grant included. *)
Theorem fair_run_terminates (σ : nat -> System) (e : nat -> event) :
  NoDup (tag <$> steps cfg) ->
  (forall o t, order_override = Some o -> t ∈ o -> t ∈ tag <$> steps cfg) ->
  Trace display (run_of []) (start cfg None) σ e -> fair_main σ e -> fair_threads σ ->
  exists n, at_ (σ n) = Ended.
Proof.
  intros Htags Horder Ht Hm Hth. eapply (fair_run_ends display); try done.
  intros t Hin. apply by_tag_dom. unfold run_of in Hin. simpl in Hin.
  destruct order_override as [o|]; [by eapply Horder|by apply elem_of_dispatch_order].
Qed.

(** A failure cuts exactly its scope: [trip_fail_fast] always records the failure and
    touches no outcome, resource or admission; with [keep_going] it does nothing else.
    Otherwise a step with a fail-fast family shuts its family and one without shuts
    everything; of the running steps in the shut scope, exactly those that do not explain a
    genuine failure become aborted by a peer, where they were not aborted before, and
    exactly the child processes of those are killed. *)
Theorem trip_fail_fast_exact kg t sh :
  let sh' := trip_fail_fast kg t sh in
  failed sh' = true /\ core sh' = core sh /\
  if kg then sh' = set_failed sh
  else
    (stop sh' = true <-> stop sh = true \/ fail_fast_family_index sh !! t = None)
    /\ (forall f, f ∈ failed_families sh' <-> f ∈ failed_families sh \/ fail_fast_family_index sh !! t = Some f)
    /\ (forall x, aborted_by sh' !! x = Some PeerFailure <->
          aborted_by sh !! x = Some PeerFailure \/ (aborted_by sh !! x = None /\ cut_by sh t x))
    /\ (forall x cause, cause <> PeerFailure ->
          aborted_by sh' !! x = Some cause <-> aborted_by sh !! x = Some cause)
    /\ exists cut, history sh' = Reaped cut :: history sh
        /\ forall x pid nonce, (x, pid, nonce) ∈ cut <->
             running_pids sh !! x = Some pid /\ nonce = running_nonces sh !! x /\ cut_by sh t x.
Proof.
  cbn zeta. split; [apply trip_failed|]. split; [apply core_trip|]. destruct kg; [done|].
  unfold trip_fail_fast. set (sh1 := fail_scope t (set_failed sh)).
  assert (Hsame : aborted_by sh1 = aborted_by sh /\ running_pids sh1 = running_pids sh
    /\ running_nonces sh1 = running_nonces sh /\ history sh1 = history sh).
  { unfold sh1, fail_scope. simpl. by destruct (fail_fast_family_index sh !! t). }
  destruct Hsame as (Hab & Hpids & Hnonces & Hh).
  set (ts := elements (cut_short sh1)).
  assert (Hts : forall x, x ∈ ts <-> cut_by sh t x)
    by (intros x; unfold ts; rewrite elem_of_elements; apply elem_of_cut_short).
  assert (Hkeep : forall B (p : Shared -> B), (forall sh t, p (mark_aborted PeerFailure sh t) = p sh) ->
    p (foldl (mark_aborted PeerFailure) sh1 ts) = p sh1) by (intros; by apply foldl_keeps).
  unfold reap_many. simpl. split_and!.
  - rewrite (Hkeep _ stop) by done. unfold sh1, fail_scope. simpl.
    destruct (fail_fast_family_index sh !! t); simpl; naive_solver.
  - intros f. rewrite (Hkeep _ failed_families) by done. unfold sh1, fail_scope. simpl.
    destruct (fail_fast_family_index sh !! t); simpl; [|naive_solver].
    rewrite elem_of_union, elem_of_singleton. naive_solver.
  - intros x. rewrite aborted_marks, Hab. destruct (aborted_by sh !! x) as [c|]; [naive_solver|].
    destruct (decide (x ∈ ts)) as [Hin|Hn]; rewrite <- Hts; naive_solver.
  - intros x cause Hne. rewrite aborted_marks, Hab. destruct (aborted_by sh !! x) as [c|]; [done|].
    case_decide; split; intros; by simplify_eq.
  - eexists. split; [by rewrite (Hkeep _ history), Hh by done|].
    intros x pid nonce. rewrite elem_of_victims, (Hkeep _ running_pids), (Hkeep _ running_nonces) by done.
    rewrite Hpids, Hnonces, bool_decide_eq_true. unfold sh1. by rewrite elem_of_cut_short.
Qed.

(** C36: The steps skipped are exactly those that can no longer run: the fixpoint computes
    the least set of steps, not started, done, declared with a reason to skip them or left
    out by the caller, that have a dependency which failed, was left out by the caller, or
    is in the set, or an artifact producer which failed or is in the set. *)
Theorem skipped_exact runtime sh t :
  t ∈ skipped (run_of runtime) sh <-> doomed (by_tag (steps cfg)) runtime sh t.
Proof. apply elem_of_skipped. Qed.

(** What a pass admits: every step a pass hands to a thread is in the dispatch order,
    is not left out, done, running or skipped, and, where a failure has shut its scope,
    explains a genuine failure; and the pass is work conserving: if no resource state is
    shared and no demand is negative, then of the steps that could still start after it,
    each is held up by the width or by a resource that has less left than it asks. *)
Theorem pass_admits runtime sight sh coord sh' coord' l :
  let R := run_of runtime in
  let sh0 := scan_artifacts R sight (enforce_budgets R sight sh) in
  pass R sight sh coord = (sh', coord', LoopLaunches l) ->
  (forall step res, (step, res) ∈ l -> let t := tag step in
     t ∈ order R /\ r_steps R !! t = Some step /\ skip_reason step = None
     /\ (forall reason, ~ ((t, reason) ∈ runtime))
     /\ done sh0 !! t = None /\ ~ (t ∈ running sh0) /\ ~ doomed (r_steps R) (runtime_skips R) sh0 t
     /\ (blocked_by_fail_fast sh0 t = true -> explains_failure sh0 t))
  /\ (coord = None -> demands_nonneg R -> forall t step,
        t ∈ order R -> r_steps R !! t = Some step ->
        admissible R sh' (skipped R sh0) t step = true -> held_up R sh' step).
Proof.
  intros R sh0 Hp. unfold pass in Hp. fold sh0 in Hp.
  destruct (forallb _ (order R)) eqn:Hknown; [|done]. cbn [negb] in Hp.
  destruct (loop_over R sh0 (skipped R sh0)); [done|].
  set (a0 := {| a_shared := sh0; a_coordinator := retain_pending (eligible R sh0 (skipped R sh0)) <$> coord;
                launchable := [] |}) in Hp.
  destruct (starved _ _ _ _ _); [done|]. injection Hp as Hsh _ Hl. split.
  - intros step res Hin. rewrite <- Hl in Hin.
    apply loop_launches in Hin as [Hin|(t & Ht & Hs & Hadm)]; [by apply elem_of_nil in Hin|].
    pose proof (Runner_new_keyed cfg max_steps' keep_going' order_override run_timeout budget runtime _ _ Hs) as Htag.
    unfold admissible in Hadm. apply andb_true_iff in Hadm as [Hr Hrt%negb_true_iff].
    apply ready_spec in Hr as (Hd & Hrun & Hsk & Hno & Hstart & _). rewrite elem_of_skipped in Hsk. simpl in *.
    rewrite Htag. split_and!; try done; [by apply (runtime_skipped_false R)|].
    intros Hb. unfold startable_after_stop in Hstart. rewrite Hb in Hstart. simpl in Hstart.
    apply exempt_spec. unfold failed_now in Hstart. case_match; [done|].
    unfold is_exempt_from_eager_exit in Hstart. case_match; [|done]. apply existsb_elem in Hstart as (s & _ & Hs').
    by apply bool_decide_eq_true, not_elem_of_empty in Hs'.
  - intros -> Hpos t step Ht Hs. rewrite <- Hsh. apply loop_work_conserving; try done.
    intros x Hx. rewrite forallb_elem in Hknown. by apply Hknown, bool_decide_eq_true in Hx.
Qed.

(** C38: When a step passes: in the last critical section of its supervisor a step's
    outcome is a pass exactly when nothing had aborted it, its child exited with zero within
    its budgets and its memory with a good report, in which each test passed, is a
    diagnostic or says why it was skipped, and, in a graph that publishes artifacts, every
    artifact it declares is in its ready directory; it is marked aborted exactly when
    something had aborted it, with that cause as its reason; and a failure that is its own
    fails the run. *)
Theorem finish_exact runtime step rp sh :
  let R := run_of runtime in
  let sh' := finish display R step rp sh in
  let cause := aborted_by sh !! tag step in
  exists o, done sh' !! tag step = Some o
    /\ (ok o = true <-> cause = None /\ did_well rp /\ ((exists s, s ∈ steps cfg /\ publishes s <> []) -> all_signalled step rp))
    /\ (aborted o = true <-> is_Some cause)
    /\ (forall c, cause = Some c -> reason o = AbortCause_reason c)
    /\ (cause = None -> ok o = false -> failed sh' = true)
    /\ ~ (tag step ∈ running sh').
Proof.
  intros R sh' cause. subst sh'. unfold finish.
  assert (Hcause : aborted_by (retire sh step).1 = aborted_by sh) by apply fate_retire. rewrite Hcause. fold cause.
  destruct (outcome_of display R step rp cause) as [o missing] eqn:Ho.
  destruct (outcome_fate _ _ _ _ _ _ _ Ho) as (Hok & Hab & Hre & Htrip).
  set (sh1 := publish (tag step) o (final_scan R step rp cause (retire sh step).1)).
  assert (Hd : done sh1 !! tag step = Some o) by (unfold sh1; simpl; by rewrite lookup_insert_eq).
  assert (Hrun : ~ (tag step ∈ running sh1)) by (unfold sh1; simpl; apply not_elem_removed).
  set (sh2 := if is_none cause && negb (ok o) && publishes_any step
    then cancel_artifact_dependents (tag step) (default [] (artifact_dependents R !! tag step)) sh1 else sh1).
  assert (H2 : done sh2 !! tag step = Some o /\ ~ (tag step ∈ running sh2)).
  { unfold sh2. destruct (is_none cause && negb (ok o) && publishes_any step) eqn:Hc; [|done].
    rewrite !andb_true_iff, negb_true_iff in Hc. destruct Hc as [[_ Hno] _].
    rewrite running_cancel. split; [by apply cancel_done|done]. }
  exists o. split_and!; try done.
  - case_match; rewrite ?done_trip; apply H2.
  - rewrite Hok. assert (Hdir : artifact_dir R = true <-> exists s, s ∈ steps cfg /\ publishes s <> []); [|by rewrite Hdir].
    unfold R. simpl. rewrite existsb_elem. split; intros (s & Hs & Hp); exists s; by destruct (publishes s).
  - rewrite Hab. unfold is_some. destruct cause; simpl; rewrite is_Some_alt; done.
  - intros -> Hno. simpl. rewrite (Htrip eq_refl Hno). apply trip_failed.
  - case_match; rewrite ?running_trip; apply H2.
Qed.
End properties.

(** ** Witnesses *)

Definition midway : System := after pair_cfg [] (round_one ++ [Spawn 0 100 "nonce"]).

Lemma resources_and_width_witness :
  reachable plain_display (runner_of pair_cfg []) (start pair_cfg None) midway
  /\ capacity (resource_avail (shared midway)) "slot"
     = (capacity (resource_caps pair_cfg) "slot"
        - held (r_steps (runner_of pair_cfg [])) (running (shared midway) ∖ retired (shared midway)) "slot")%Z
  /\ capacity (resource_avail (shared midway)) "slot" = 0%Z.
Proof.
  split; [apply after_reachable|]. split; [|vm_compute; reflexivity].
  pose proof (after_reachable pair_cfg [] (round_one ++ [Spawn 0 100 "nonce"])) as Hr.
  exact (proj1 (resources_and_width plain_display pair_cfg 4 false None None None [] None _ Hr) "slot").
Defined.

Definition completed : System := after pair_cfg [] both_pass.

Lemma launched_once_behind_dependencies_witness :
  history (shared completed)
  = [Published "ci.test" true] ++ Launched "ci.test" :: [Published "ci.build" true; Launched "ci.build"]
  /\ ~ (Launched "ci.test" ∈ [Published "ci.build" true; Launched "ci.build"]).
Proof.
  assert (Hh : history (shared completed)
    = [Published "ci.test" true] ++ Launched "ci.test" :: [Published "ci.build" true; Launched "ci.build"])
    by (vm_compute; reflexivity).
  split; [exact Hh|].
  exact (proj1 (proj1 (launched_once_behind_dependencies plain_display pair_cfg 4 false None None None [] None
    _ _ _ _ (after_reachable pair_cfg [] both_pass)) Hh)).
Defined.


(** A finite schedule that ends, run and then left alone. *)
Definition replay (n : nat) : System := after pair_cfg [] (take n both_pass).
Definition replay_event (n : nat) : event := default (Main calm) (both_pass !! n).

Lemma exec_all_app `{StrDebug} display R es1 es2 σ :
  exec_all display R (es1 ++ es2) σ = exec_all display R es1 σ ≫= exec_all display R es2.
Proof.
  revert σ. induction es1 as [|e es1 IH]; intros σ; [done|]. simpl.
  destruct (exec display R e σ) as [σ1|]; [|done]. apply IH.
Qed.

(** A prefix of a schedule that can be carried out can be carried on. *)
Lemma schedule_step `{StrDebug} display R init es n e :
  is_Some (exec_all display R es init) -> es !! n = Some e ->
  exec display R e (default init (exec_all display R (take n es) init))
  = Some (default init (exec_all display R (take (S n) es) init)).
Proof.
  intros Hall He. rewrite <- (take_drop (S n) es), exec_all_app in Hall.
  rewrite (take_S_r _ _ _ He), exec_all_app in *. cbn [exec_all] in *.
  destruct (exec_all _ _ (take n es) _) as [σ1|]; [|by destruct Hall].
  cbn [mbind option_bind default from_option] in *.
  cbn [id] in *. destruct (exec display R e σ1) as [σ2|]; [done|by destruct Hall].
Qed.

Lemma both_pass_runs :
  is_Some (exec_all plain_display (runner_of pair_cfg []) both_pass (start pair_cfg None)).
Proof. vm_compute. by eexists. Qed.

Lemma replay_step n : n < length both_pass ->
  exec plain_display (runner_of pair_cfg []) (replay_event n) (replay n) = Some (replay (S n)).
Proof.
  intros [e He]%lookup_lt_is_Some. unfold replay_event. rewrite He.
  apply (schedule_step plain_display (runner_of pair_cfg []) (start pair_cfg None) both_pass n e both_pass_runs He).
Qed.

Lemma replay_over n : length both_pass <= n -> replay n = completed.
Proof. intros Hn. unfold replay. by rewrite take_ge. Qed.

Lemma replay_threads n : length (handles (replay n)) <= 2.
Proof.
  destruct (decide (n < length both_pass)) as [Hn|Hn]; [|rewrite replay_over by lia; vm_compute; lia].
  assert (Hall : forallb (fun n => length (handles (replay n)) <=? 2) (seq 0 (length both_pass)) = true)
    by (vm_compute; reflexivity).
  rewrite forallb_elem in Hall. apply Nat.leb_le, Hall, elem_of_seq. lia.
Qed.

Lemma replay_trace : Trace plain_display (runner_of pair_cfg []) (start pair_cfg None) replay replay_event.
Proof.
  split; [reflexivity|]. intros n. destruct (decide (n < length both_pass)) as [Hn|Hn].
  - left. by apply replay_step.
  - right. rewrite !replay_over by lia. split; [vm_compute; reflexivity|done].
Qed.

Lemma fair_run_terminates_witness : exists n, at_ (replay n) = Ended.
Proof.
  apply (fair_run_terminates plain_display pair_cfg 4 false None None None replay replay_event).
  - apply (bool_decide_unpack (NoDup (tag <$> steps pair_cfg))). vm_compute. exact I.
  - intros o t. discriminate.
  - apply replay_trace.
  - intros n. exists (Nat.max n (length both_pass)). split; [lia|]. right.
    rewrite replay_over by lia. vm_compute. reflexivity.
  - intros n i Hi. pose proof (replay_threads n). exists (Nat.max n (length both_pass)).
    rewrite replay_over by lia. destruct i as [|[|i]]; [| |lia]; eexists; (split; [lia|vm_compute; reflexivity]).
Defined.

Lemma pass_admits_witness :
  exists sh coord l, pass (run_of pair_cfg 4 false None None None []) calm (Shared_new pair_cfg) None = (sh, coord, LoopLaunches l)
    /\ length l = 1 /\ forall step res, (step, res) ∈ l -> tag step ∈ order (run_of pair_cfg 4 false None None None []).
Proof.
  assert (Hone : match (pass (run_of pair_cfg 4 false None None None []) calm (Shared_new pair_cfg) None).2 with
                 | LoopLaunches l => length l = 1 | _ => False end) by (vm_compute; reflexivity).
  revert Hone. destruct (pass (run_of pair_cfg 4 false None None None []) calm (Shared_new pair_cfg) None)
    as [[sh coord] [| |l]] eqn:Hp; intros Hone; [destruct Hone|destruct Hone|].
  exists sh, coord, l. split; [reflexivity|]. split; [exact Hone|]. intros step res Hin.
  exact (proj1 (proj1 (pass_admits pair_cfg 4 false None None None [] calm _ None _ _ _ Hp) step res Hin)).
Defined.
