(* ===== verification/DagGraphProps.v ===== *)
(** * dagrun: the properties of the graph checks

    Which graphs the checks accept, and what acceptance is worth to a run. *)
From S2P Require Import Prelude RustStr External DagSearch DagModel DagChecks DagGraph DagOutcome DagSchedule DagRunner DagRun DagSystem DagSkip DagComplete DagCases.

Lemma walk_edges succ l l1 a b l2 : walk succ l -> l = l1 ++ a :: b :: l2 -> edge succ a b.
Proof. intros Hw ->. apply walk_app_r in Hw. by destruct Hw as [He _]. Qed.

(** C39: [graph_structure_violations] finds nothing exactly in a well-formed graph: tags
    are unique, what a step waits for is declared, no step waits for itself through any
    chain of completion and artifact dependencies, no step that is not skipped by
    declaration demands more than a positive capacity, a step declares structured test
    results at most once, with a known schema and itself as their owner, and artifacts have
    usable names, are declared once by a step, each dependency on one by its producer.
    With the check of the loader, that diagnostics explain declared steps and one way only.
    Every cycle that is reported is one: a closed walk along declared dependencies. *)
Theorem graph_accepted_exact cfg :
  (graph_structure_violations cfg = [] <-> WellFormed cfg)
  /\ (graph_structure_violations cfg = [] /\ refuse_unusable_explains (steps cfg) = Ok tt <->
      WellFormed cfg
      /\ (forall step d, step ∈ steps cfg -> d ∈ explains step -> d ∈ tag <$> steps cfg)
      /\ forall t, ~ tc (explains_rel (steps cfg)) t t)
  /\ forall cycle, cycle ∈ dependency_cycles (by_tag (steps cfg)) ->
       (exists t mid, cycle = t :: mid ++ [t])
       /\ forall l1 a b l2, cycle = l1 ++ a :: b :: l2 -> waits_for (steps cfg) a b.
Proof.
  pose proof (well_formed_exact cfg) as Hwf. split; [done|]. split.
  - rewrite Hwf. split; intros [Hw He]; (split; [done|]); apply (explains_exact (steps cfg)); by try apply Hw.
  - destruct (dependency_cycles_exact (by_tag (steps cfg))) as [Hc _]. rewrite Forall_forall in Hc.
    intros cycle Hin. destruct (Hc cycle Hin) as (t & mid & -> & Hw). split; [by exists t, mid|].
    intros l1 a b l2 Hl. eapply walk_edges in Hl; [|exact Hw].
    apply resolved_edge in Hl as (step & Hs & Hb & _). apply by_tag_lookup in Hs as [Hs Ht]. exists step. by rewrite <- elem_of_dependency_tags.
Qed.


(** ** A run of an accepted graph *)




