(* ===== verification/TeamTime.v ===== *)
(** * agent-teams: UTC times ([rs/agent-teams/src/timeutil.rs])

    Civil dates and days, RFC 3339 written and read, durations.  [i64] division rounds
    toward zero; only a duration's product can leave the range, where it wraps. *)
From S2P Require Import Prelude RustStr External.

Section civil.
Local Open Scope Z_scope.

Definition days_from_civil (y m d : Z) : Z :=
  let y := if m <=? 2 then y - 1 else y in
  let era := Z.quot (if 0 <=? y then y else y - 399) 400 in
  let yoe := y - era * 400 in
  let mp := Z.rem (m + 9) 12 in
  let doy := Z.quot (153 * mp + 2) 5 + d - 1 in
  let doe := yoe * 365 + Z.quot yoe 4 - Z.quot yoe 100 + doy in
  era * 146097 + doe - 719468.

Definition civil_from_days (z : Z) : Z * Z * Z :=
  let z := z + 719468 in
  let era := Z.quot (if 0 <=? z then z else z - 146096) 146097 in
  let doe := z - era * 146097 in
  let yoe := Z.quot (doe - Z.quot doe 1460 + Z.quot doe 36524 - Z.quot doe 146096) 365 in
  let y := yoe + era * 400 in
  let doy := doe - (365 * yoe + Z.quot yoe 4 - Z.quot yoe 100) in
  let mp := Z.quot (5 * doy + 2) 153 in
  let d := doy - Z.quot (153 * mp + 2) 5 + 1 in
  let m := if mp <? 10 then mp + 3 else mp - 9 in
  (if m <=? 2 then y + 1 else y, m, d).
End civil.

(** [{:0width}]: the sign counts. *)
Fixpoint zeros (n : nat) : string := match n with 0 => "" | S n => String "0" (zeros n) end.

Definition pad_left (width : nat) (s : string) : string := zeros (width - String.length s) +:+ s.

Definition padded (width : nat) (z : Z) : string :=
  if (z <? 0)%Z then "-" +:+ pad_left (width - 1) (pretty (- z)%Z) else pad_left width (pretty z).

Definition format_rfc3339 (unix : Z) : string :=
  let days := (unix / 86400)%Z in
  let secs := (unix mod 86400)%Z in
  let '(y, m, d) := civil_from_days days in
  padded 4 y +:+ "-" +:+ padded 2 m +:+ "-" +:+ padded 2 d +:+ "T" +:+ padded 2 (Z.quot secs 3600) +:+ ":"
  +:+ padded 2 (Z.quot (Z.rem secs 3600) 60) +:+ ":" +:+ padded 2 (Z.rem secs 60) +:+ "Z".

Definition format_rfc3339_ms (unix_ms : Z) : string :=
  trim_end_matches (String.eqb "Z") (format_rfc3339 (unix_ms / 1000)%Z) +:+ "." +:+ padded 3 (unix_ms mod 1000)%Z
  +:+ "Z".

(** [str::get(from..to)]: [None] beyond the end or inside a character. *)
Definition is_char_boundary (i : nat) (s : string) : bool :=
  (i =? 0) || (i =? String.length s)
  || match String.get i s with Some c => negb (is_continuation c) | None => false end.

Definition str_get (from to : nat) (s : string) : option string :=
  if (from <=? to) && is_char_boundary from s && is_char_boundary to s
  then Some (String.substring from (to - from) s) else None.

Definition byte_is (i : nat) (c : ascii) (s : string) : bool :=
  match String.get i s with Some b => Ascii.eqb b c | None => false end.

Definition num (text : string) (from to : nat) : option Z := t ← str_get from to text; parse_i64 t.

Definition pad_right (s : string) : string := s +:+ zeros (3 - String.length s).

Definition parse_rfc3339_ms (text : string) : option Z :=
  let text := str_trim text in
  if (String.length text <? 20) || negb (ends_with text "Z") then None
  else if negb (byte_is 4 "-" text && byte_is 7 "-" text && byte_is 10 "T" text && byte_is 13 ":" text
                && byte_is 16 ":" text) then None
  else
    y ← num text 0 4; mo ← num text 5 7; d ← num text 8 10;
    let days := days_from_civil y mo d in
    h ← num text 11 13; mi ← num text 14 16; s ← num text 17 19;
    let ms := ((days * 86400 + h * 3600 + mi * 60 + s) * 1000)%Z in
    if byte_is 19 "." text then
      frac ← str_get 20 (String.length text - 1) text;
      t ← str_get 0 3 (pad_right frac);
      f ← parse_i64 t;
      Some (ms + f)%Z
    else Some ms.

(** The digits of a duration and the factor of its unit. *)
Definition duration_parts (text : string) (last : string) : string * Z :=
  let digits := String.substring 0 (String.length text - 1) text in
  if (last =? "s")%string then (digits, 1%Z)
  else if (last =? "m")%string then (digits, 60%Z)
  else if (last =? "h")%string then (digits, 3600%Z)
  else if (last =? "d")%string then (digits, 86400%Z)
  else (text, 1%Z).

Definition parse_duration_seconds (text : string) : option Z :=
  let text := str_trim text in
  last ← last (chars text);
  let '(digits, mult) := duration_parts text last in
  n ← parse_i64 digits;
  Some (i64_wrap (n * mult)).

Example formats : format_rfc3339_ms 1793018096250 = "2026-10-26T12:34:56.250Z".
Proof. vm_compute. reflexivity. Qed.
Example parses : parse_rfc3339_ms " 2026-10-26T12:34:56.25Z" = Some 1793018096250%Z.
Proof. vm_compute. reflexivity. Qed.
Example durations : parse_duration_seconds " 15m" = Some 900%Z /\ parse_duration_seconds "-2h" = Some (-7200)%Z.
Proof. vm_compute. done. Qed.

(** ** Dates and days *)

Section dates.
Local Open Scope Z_scope.

Lemma days_era z : Z.quot (if 0 <=? z then z else z - 146096) 146097 = z / 146097.
Proof. destruct (Z.leb_spec 0 z); Z.to_euclidean_division_equations; lia. Qed.

Lemma years_era y : Z.quot (if 0 <=? y then y else y - 399) 400 = y / 400.
Proof. destruct (Z.leb_spec 0 y); Z.to_euclidean_division_equations; lia. Qed.

Lemma doy_range doe : 0 <= doe <= 146096 ->
  let yoe := (doe - doe / 1460 + doe / 36524 - doe / 146096) / 365 in
  0 <= doe - doe / 1460 + doe / 36524 - doe / 146096 /\ 0 <= yoe <= 399 /\
  0 <= doe - (365 * yoe + yoe / 4 - yoe / 100) <= 365.
Proof. intros H yoe. subst yoe. Z.to_euclidean_division_equations; lia. Qed.

Lemma mp_range doy : 0 <= doy <= 365 ->
  let mp := (5 * doy + 2) / 153 in
  0 <= mp <= 11 /\ 1 <= doy - (153 * mp + 2) / 5 + 1 <= 31.
Proof. intros H mp. subst mp. Z.to_euclidean_division_equations; lia. Qed.

(** The days before a date of the year that begins in March, counted from such a year. *)
Lemma days_from_civil_march y mp d era yoe :
  y = yoe + era * 400 -> 0 <= yoe <= 399 -> 0 <= mp <= 11 ->
  let m := if mp <? 10 then mp + 3 else mp - 9 in
  days_from_civil (if m <=? 2 then y + 1 else y) m d
  = era * 146097 + (yoe * 365 + yoe / 4 - yoe / 100 + ((153 * mp + 2) / 5 + d - 1)) - 719468.
Proof.
  intros -> Hyoe Hmp m. unfold days_from_civil.
  assert (Hm : Z.rem (m + 9) 12 = mp).
  { subst m. destruct (Z.ltb_spec mp 10); Z.to_euclidean_division_equations; lia. }
  rewrite Hm. set (y := if m <=? 2 then _ else _).
  assert (y = yoe + era * 400) as -> by (subst y; destruct (m <=? 2); lia). rewrite years_era. replace ((yoe + era * 400) / 400) with era by (Z.to_euclidean_division_equations; lia).
  replace (yoe + era * 400 - era * 400) with yoe by lia.
  rewrite (Z.quot_div_nonneg yoe 4), (Z.quot_div_nonneg yoe 100), (Z.quot_div_nonneg (153 * mp + 2) 5) by lia. lia.
Qed.

(** The parts of [civil_from_days], with floor division. *)
Lemma civil_parts z : exists era yoe mp d,
  civil_from_days z
  = (let m := if mp <? 10 then mp + 3 else mp - 9 in
     (if m <=? 2 then yoe + era * 400 + 1 else yoe + era * 400, m, d))
  /\ 0 <= yoe <= 399 /\ 0 <= mp <= 11 /\ 1 <= d <= 31
  /\ era * 146097 + (yoe * 365 + yoe / 4 - yoe / 100 + ((153 * mp + 2) / 5 + d - 1)) - 719468 = z.
Proof.
  unfold civil_from_days. rewrite days_era.
  set (era := (z + 719468) / 146097). set (doe := z + 719468 - era * 146097).
  assert (Hdoe : 0 <= doe <= 146096).
  { subst doe era. pose proof (Z.mod_pos_bound (z + 719468) 146097). pose proof (Z.div_mod (z + 719468) 146097). lia. }
  destruct (doy_range doe Hdoe) as (Hpos & Hyoe & Hdoy).
  rewrite (Z.quot_div_nonneg doe 1460), (Z.quot_div_nonneg doe 36524), (Z.quot_div_nonneg doe 146096) by lia.
  rewrite (Z.quot_div_nonneg _ 365) by lia.
  set (yoe := (doe - doe / 1460 + doe / 36524 - doe / 146096) / 365) in *.
  rewrite (Z.quot_div_nonneg yoe 4), (Z.quot_div_nonneg yoe 100) by lia.
  set (doy := doe - (365 * yoe + yoe / 4 - yoe / 100)) in *.
  destruct (mp_range doy Hdoy) as (Hmp & Hd).
  rewrite (Z.quot_div_nonneg (5 * doy + 2) 153) by lia. set (mp := (5 * doy + 2) / 153) in *.
  rewrite (Z.quot_div_nonneg (153 * mp + 2) 5) by lia. set (d := doy - (153 * mp + 2) / 5 + 1) in *.
  exists era, yoe, mp, d. split_and!; [done|lia..]. 
Qed.

(** The date of a day is a date, and the day of that date. *)
Lemma civil_spec z : let '(y, m, d) := civil_from_days z in
  1 <= m <= 12 /\ 1 <= d <= 31 /\ days_from_civil y m d = z
  /\ (-719528 <= z <= 2932896 -> 0 <= y <= 9999).
Proof.
  destruct (civil_parts z) as (era & yoe & mp & d & -> & Hyoe & Hmp & Hd & Hz). cbv zeta.
  set (m := if mp <? 10 then mp + 3 else mp - 9).
  assert (Hm : 1 <= m <= 12 /\ (m <= 2 <-> 10 <= mp)) by (subst m; destruct (Z.ltb_spec mp 10); lia).
  split_and!; [lia..| |].
  - subst m. by rewrite (days_from_civil_march (yoe + era * 400) mp d era yoe).
  - intros Hr. destruct (Z.leb_spec m 2); Z.to_euclidean_division_equations; lia.
Qed.
End dates.

(** ** Texts of plain bytes *)

(** Visible ASCII: one byte, and no white space. *)
Definition plain_byte (c : ascii) : bool := (33 <=? N_of_ascii c)%N && (N_of_ascii c <=? 126)%N.

Definition plain (s : string) : Prop := str_forallb plain_byte s = true.

Lemma plain_app a b : plain (a +:+ b) <-> plain a /\ plain b.
Proof.
  unfold plain. induction a as [|c a IH]; [naive_solver|]. rewrite str_app_cons. cbn [str_forallb].
  rewrite !andb_true_iff, IH. naive_solver.
Qed.

Lemma plain_not_continuation c : plain_byte c = true -> is_continuation c = false.
Proof.
  unfold plain_byte, is_continuation. rewrite andb_true_iff, !N.leb_le. intros [_ Hc].
  destruct (N.leb_spec 128 (N_of_ascii c)); [lia|done].
Qed.

Lemma chars_plain s : plain s -> chars s = str1 <$> String.list_ascii_of_string s.
Proof.
  unfold plain. induction s as [|c s IH]; [done|]. cbn [str_forallb chars String.list_ascii_of_string fmap list_fmap].
  rewrite andb_true_iff. intros [Hc Hs]. specialize (IH Hs). rewrite IH. destruct s as [|d s]; [done|].
  cbn [String.list_ascii_of_string fmap list_fmap starts_in_character]. cbn [str_forallb] in Hs.
  apply andb_true_iff in Hs as [Hd _]. by rewrite plain_not_continuation.
Qed.

Lemma plain_elem s c : plain s -> c ∈ String.list_ascii_of_string s -> plain_byte c = true.
Proof.
  unfold plain. induction s as [|d s IH]; [by intros _ ?%not_elem_of_nil|]. cbn [str_forallb String.list_ascii_of_string].
  rewrite andb_true_iff. intros [Hd Hs] [->|Hc]%elem_of_cons; auto.
Qed.

Lemma plain_byte_not_white c : plain_byte c = true -> char_is_whitespace (str1 c) = false.
Proof. by destruct c as [[] [] [] [] [] [] [] []]. Qed.

Lemma trim_plain s : plain s -> str_trim s = s.
Proof.
  intros Hs. apply trim_matches_none. rewrite chars_plain by done.
  intros x (c & -> & Hc)%list_elem_of_fmap. by apply plain_byte_not_white, (plain_elem s).
Qed.

Lemma ascii_list_app a b : String.list_ascii_of_string (a +:+ b) = String.list_ascii_of_string a ++ String.list_ascii_of_string b.
Proof. induction a as [|c a IH]; [done|]. rewrite str_app_cons. cbn. by rewrite IH. Qed.

(** The final Z is trimmed, where it is the only one. *)
Lemma trim_end_z a : plain a -> "Z"%char ∉ String.list_ascii_of_string a -> trim_end_matches (String.eqb "Z") (a +:+ "Z") = a.
Proof.
  intros Ha Hz. unfold trim_end_matches.
  rewrite chars_plain by (apply plain_app; by split).
  rewrite ascii_list_app, fmap_app, rev_app_distr. cbn [String.list_ascii_of_string fmap list_fmap rev app drop_while].
  change (String.eqb "Z" (str1 "Z")) with true. cbv iota.
  rewrite drop_while_none, rev_involutive.
  - rewrite <- chars_plain by done. apply of_chars_chars.
  - intros x Hx. rewrite list_elem_of_In, <- in_rev, <- list_elem_of_In in Hx.
    apply list_elem_of_fmap in Hx as (c & -> & Hc). apply String.eqb_neq. intros [= <-]. done.
Qed.

Lemma substring_app a b c : String.substring (String.length a) (String.length b) (a +:+ b +:+ c) = b.
Proof.
  induction a as [|d a IH]; [|exact IH]. change ("" +:+ b +:+ c) with (b +:+ c). cbn [String.length].
  induction b as [|d b IH]; [by destruct c|]. exact (f_equal (String d) IH).
Qed.

Lemma get_plain s i : plain s -> i < String.length s -> exists c, String.get i s = Some c /\ plain_byte c = true.
Proof.
  unfold plain. revert i. induction s as [|c s IH]; intros i; [simpl; lia|]. cbn [str_forallb String.length].
  rewrite andb_true_iff. intros [Hc Hs] Hi. destruct i as [|i]; [by exists c|]. apply (IH i); [done|lia].
Qed.

Lemma boundary_plain s i : plain s -> i <= String.length s -> is_char_boundary i s = true.
Proof.
  intros Hs Hi. unfold is_char_boundary. destruct (decide (i = String.length s)) as [->|Hne].
  - by rewrite Nat.eqb_refl, orb_true_r.
  - destruct (get_plain s i Hs) as (c & -> & Hc); [lia|]. by rewrite plain_not_continuation, orb_true_r.
Qed.

Lemma str_get_plain s i j : plain s -> i <= j <= String.length s ->
  str_get i j s = Some (String.substring i (j - i) s).
Proof.
  intros Hs [Hi Hj]. unfold str_get. rewrite (proj2 (Nat.leb_le _ _)) by done.
  by rewrite !boundary_plain by (done || lia).
Qed.

Lemma plain_digits s : str_forallb is_digit s = true -> plain s.
Proof.
  unfold plain. induction s as [|c s IH]; [done|]. cbn [str_forallb]. rewrite !andb_true_iff.
  intros [Hc Hs]. split; [|auto]. unfold is_digit in Hc. unfold plain_byte.
  rewrite !andb_true_iff, !N.leb_le in *. lia.
Qed.

Lemma digits_not_z s : str_forallb is_digit s = true -> "Z"%char ∉ String.list_ascii_of_string s.
Proof.
  induction s as [|c s IH]; [intros _; apply not_elem_of_nil|]. cbn [str_forallb]. rewrite andb_true_iff.
  intros [Hc Hs]. cbn [String.list_ascii_of_string]. rewrite not_elem_of_cons. split; [by intros <-|auto].
Qed.

(** ** Padded numbers *)

Lemma pretty_N_go_length k n s : (n < 10 ^ N.of_nat k)%N -> String.length (pretty_N_go n s) <= k + String.length s.
Proof.
  revert n s. induction k as [|k IH]; intros n s Hn.
  - assert (n = 0)%N as -> by (simpl in Hn; lia). by rewrite pretty_N_go_0.
  - destruct (decide (0 < n)%N) as [Hp|Hp].
    + rewrite pretty_N_go_step by done. etransitivity; [apply IH|simpl; lia].
      apply N.Div0.div_lt_upper_bound. rewrite Nat2N.inj_succ, N.pow_succ_r' in Hn. lia.
    + assert (n = 0)%N as -> by lia. rewrite pretty_N_go_0. lia.
Qed.

Lemma pretty_length k z : 0 < k -> (0 <= z < 10 ^ Z.of_nat k)%Z -> String.length (pretty z) <= k.
Proof.
  intros Hk Hz. destruct z as [|p|p]; [simpl; lia| |lia]. change (pretty (Z.pos p)) with (pretty_N_go (N.pos p) "").
  etransitivity; [apply (pretty_N_go_length k)|simpl; lia].
  apply N2Z.inj_lt. rewrite N2Z.inj_pow, nat_N_Z. apply Hz.
Qed.

Lemma parse_i64_digits s z : str_forallb is_digit s = true -> str_is_empty s = false ->
  digits_value 0 s = Some z -> (0 <= z <= i64_max)%Z -> parse_i64 s = Some z.
Proof.
  intros Hf He Hd Hz. unfold parse_i64. destruct s as [|c t]; [done|].
  cbn [str_forallb] in Hf. apply andb_true_iff in Hf as [Hc _].
  assert (Hsign : forall s, match String c t with
     | String "-" t => ((-1)%Z, t) | String "+" t => (1%Z, t) | _ => s end = s).
  { intros s. destruct c as [[] [] [] [] [] [] [] []]; by vm_compute in Hc || reflexivity. }
  rewrite Hsign, Hd. cbn [mbind option_bind]. rewrite Z.mul_1_l, decide_True; [done|]. unfold i64_min. lia.
Qed.

(** A number with leading zeros, of [k] digits. *)
Lemma padded_spec k z : 0 < k <= 18 -> (0 <= z < 10 ^ Z.of_nat k)%Z ->
  String.length (padded k z) = k /\ str_forallb is_digit (padded k z) = true /\ parse_i64 (padded k z) = Some z.
Proof.
  intros Hk Hz. unfold padded. rewrite (proj2 (Z.ltb_ge _ _)) by lia. unfold pad_left.
  destruct (pretty_nonneg z) as (Hd & Hv & He); [lia|]. pose proof (pretty_length k z ltac:(lia) Hz) as Hl.
  set (n := k - String.length (pretty z)).
  assert (Hzeros : forall n s, str_forallb is_digit s = true -> str_is_empty s = false ->
    String.length (zeros n +:+ s) = n + String.length s /\ str_forallb is_digit (zeros n +:+ s) = true
    /\ str_is_empty (zeros n +:+ s) = false /\ digits_value 0 (zeros n +:+ s) = digits_value 0 s).
  { clear. intros n s Hs He. induction n as [|n (H1 & H2 & H3 & H4)]; [done|].
    change (zeros (S n) +:+ s) with (String "0" (zeros n +:+ s)). split_and!; [by cbn; rewrite H1|exact H2|done|exact H4]. }
  destruct (Hzeros n (pretty z) Hd He) as (H1 & H2 & H3 & H4). split_and!; [lia|done|].
  apply parse_i64_digits; [done|done|by rewrite H4|]. unfold i64_max.
  assert (10 ^ Z.of_nat k <= 10 ^ 18)%Z by (apply Z.pow_le_mono_r; lia). lia.
Qed.

Lemma length_cons s n : String.length s = S n -> exists c t, s = String c t /\ String.length t = n.
Proof. destruct s as [|c t]; [done|]. intros [= <-]. by exists c, t. Qed.

(** ** Reading back what was written *)

Lemma ends_with_app a b : ends_with (a +:+ b) b = true.
Proof.
  unfold ends_with. destruct (strip_suffix b (a +:+ b)) eqn:Hs; [done|].
  by rewrite (proj2 (strip_suffix_Some b (a +:+ b) a) eq_refl) in Hs.
Qed.

Section written.
Local Open Scope Z_scope.

(** The written parts of a time: seven numbers of a fixed width. *)
Lemma parse_written Y M D h m s f (y mo d hh mi ss ms : Z) :
  let number k t z := String.length t = k /\ str_forallb is_digit t = true /\ parse_i64 t = Some z in
  number 4%nat Y y -> number 2%nat M mo -> number 2%nat D d -> number 2%nat h hh -> number 2%nat m mi ->
  number 2%nat s ss ->
  let base := Y +:+ "-" +:+ M +:+ "-" +:+ D +:+ "T" +:+ h +:+ ":" +:+ m +:+ ":" +:+ s in
  let unix := days_from_civil y mo d * 86400 + hh * 3600 + mi * 60 + ss in
  parse_rfc3339_ms (base +:+ "Z") = Some (unix * 1000)
  /\ (number 3%nat f ms -> parse_rfc3339_ms (base +:+ "." +:+ f +:+ "Z") = Some (unix * 1000 + ms)).
Proof.
  intros number (LY & DY & PY) (LM & DM & PM) (LD & DD & PD) (Lh & Dh & Ph) (Lm & Dm & Pm) (Ls & Ds & Ps) base unix.
  assert (Hbase : plain base).
  { subst base. rewrite !plain_app. split_and!; (done || by apply plain_digits). }
  assert (Hmain : forall rest, plain rest -> ends_with (base +:+ rest) "Z" = true ->
    (1 <= String.length rest)%nat ->
    parse_rfc3339_ms (base +:+ rest)
    = if byte_is 0 "." rest then
        frac ← str_get 20 (String.length (base +:+ rest) - 1) (base +:+ rest);
        t ← str_get 0 3 (pad_right frac);
        f ← parse_i64 t;
        Some (unix * 1000 + f)
      else Some (unix * 1000)).
  { intros rest Hrest He Hr. assert (Hp : plain (base +:+ rest)) by by apply plain_app.
    unfold parse_rfc3339_ms. rewrite trim_plain, He by done. subst base unix. clear Hbase DY DM DD Dh Dm Ds.
    destruct rest as [|r rest]; [cbn in Hr; lia|].
    repeat match goal with
    | L : String.length ?t = S _ |- _ => apply length_cons in L as (? & ? & -> & L)
    | L : String.length ?t = O |- _ => destruct t; [clear L|done]
    end.
    cbv [String.append] in Hp |- *. unfold num.
    rewrite !(str_get_plain _ 0 4), !(str_get_plain _ 5 7), !(str_get_plain _ 8 10), !(str_get_plain _ 11 13),
      !(str_get_plain _ 14 16), !(str_get_plain _ 17 19) by (exact Hp || (cbn [String.length]; lia)).
    cbn [String.substring Nat.sub String.append mbind option_bind]. rewrite PY, PM, PD, Ph, Pm, Ps. done. }
  split.
  - rewrite Hmain; [done..|apply ends_with_app|cbn; lia].
  - intros (Lf & Df & Pf). pose proof (plain_digits f Df) as Hf.
    rewrite Hmain; [| |rewrite <- !str_app_assoc; apply ends_with_app|rewrite !str_length_app; cbn; lia].
    2: { rewrite !plain_app. by split_and!. }
    cbv [byte_is String.get String.append]. fold String.append.
    assert (Hl : String.length base = 19%nat) by (subst base; rewrite !str_length_app, LY, LM, LD, Lh, Lm, Ls; done).
    change (String "." (f +:+ "Z")) with ("." +:+ f +:+ "Z").
    change (Ascii.eqb "." ".") with true. cbv iota.
    rewrite !str_length_app, Hl, Lf. cbn [String.length Nat.add Nat.sub].
    rewrite str_get_plain; [|by rewrite !plain_app; split_and!|rewrite !str_length_app, Hl, Lf; cbn; lia].
    rewrite <- (str_app_assoc base "."). replace 20%nat with (String.length (base +:+ ".")) at 1
      by (rewrite str_length_app, Hl; done).
    change (23 - 20)%nat with 3%nat. rewrite <- Lf at 1. rewrite substring_app. cbn [mbind option_bind].
    unfold pad_right. rewrite Lf. change (zeros (3 - 3)) with "". rewrite str_app_nil_r.
    rewrite str_get_plain by (done || lia). rewrite Nat.sub_0_r, <- Lf.
    pose proof (substring_app "" f "") as Hs. rewrite str_app_nil_r in Hs. change ("" +:+ f) with f in Hs.
    change (String.length "") with 0%nat in Hs.
    rewrite Hs. cbn [mbind option_bind]. by rewrite Pf.
Qed.
End written.

(** The fields of an RFC 3339 text hold the years 0 to 9999. *)
Definition writable_ms (unix_ms : Z) : Prop := (-62167219200000 <= unix_ms <= 253402300799999)%Z.

Lemma clock_fields secs : (0 <= secs < 86400)%Z ->
  (0 <= Z.quot secs 3600 < 100 /\ 0 <= Z.quot (Z.rem secs 3600) 60 < 100 /\ 0 <= Z.rem secs 60 < 100
   /\ Z.quot secs 3600 * 3600 + Z.quot (Z.rem secs 3600) 60 * 60 + Z.rem secs 60 = secs)%Z.
Proof.
  intros Hs. pose proof (Z.quot_rem' secs 3600). pose proof (Z.rem_bound_pos secs 3600).
  pose proof (Z.quot_rem' (Z.rem secs 3600) 60). pose proof (Z.rem_bound_pos (Z.rem secs 3600) 60).
  pose proof (Z.quot_rem' secs 60). pose proof (Z.rem_bound_pos secs 60). lia.
Qed.

Lemma rfc3339_fields unix : (-62167219200 <= unix <= 253402300799)%Z ->
  exists Y M D h m s y mo d,
  let number k t z := String.length t = k /\ str_forallb is_digit t = true /\ parse_i64 t = Some z in
  format_rfc3339 unix = (Y +:+ "-" +:+ M +:+ "-" +:+ D +:+ "T" +:+ h +:+ ":" +:+ m +:+ ":" +:+ s) +:+ "Z"
  /\ number 4 Y y /\ number 2 M mo /\ number 2 D d /\ number 2 h (Z.quot (unix mod 86400) 3600)
  /\ number 2 m (Z.quot (Z.rem (unix mod 86400) 3600) 60) /\ number 2 s (Z.rem (unix mod 86400) 60)
  /\ (days_from_civil y mo d * 86400 + Z.quot (unix mod 86400) 3600 * 3600
      + Z.quot (Z.rem (unix mod 86400) 3600) 60 * 60 + Z.rem (unix mod 86400) 60 = unix)%Z.
Proof.
  intros Hu. unfold format_rfc3339. pose proof (civil_spec (unix / 86400)) as Hc.
  destruct (civil_from_days (unix / 86400)) as [[y mo] d]. destruct Hc as (Hm & Hd & Hz & Hy).
  assert (Hdays : (-719528 <= unix / 86400 <= 2932896)%Z)
    by (split; [apply Z.div_le_lower_bound|apply Z.lt_succ_r, Z.div_lt_upper_bound]; lia).
  specialize (Hy Hdays). pose proof (Z.mod_pos_bound unix 86400) as Hmod.
  pose proof (Z.div_mod unix 86400) as Hdm. destruct (clock_fields (unix mod 86400)) as (Hh & Hmi & Hse & Hsum); [lia|].
  set (secs := (unix mod 86400)%Z) in *.
  exists (padded 4 y), (padded 2 mo), (padded 2 d), (padded 2 (Z.quot secs 3600)),
    (padded 2 (Z.quot (Z.rem secs 3600) 60)), (padded 2 (Z.rem secs 60)), y, mo, d.
  cbv zeta. split; [by rewrite !str_app_assoc|].
  pose proof (padded_spec 4 y) as Hy4. pose proof (padded_spec 2) as H2.
  change (10 ^ Z.of_nat 4)%Z with 10000%Z in Hy4. change (10 ^ Z.of_nat 2)%Z with 100%Z in H2.
  split; [apply Hy4; lia|]. do 5 (split; [apply H2; clear Hdm; lia|]).
  rewrite Hz. lia.
Qed.

Lemma rfc3339_seconds_round_trip unix : (-62167219200 <= unix <= 253402300799)%Z ->
  parse_rfc3339_ms (format_rfc3339 unix) = Some (unix * 1000)%Z.
Proof.
  intros Hu. destruct (rfc3339_fields unix Hu) as (Y & M & D & h & m & s & y & mo & d & -> & H1 & H2 & H3 & H4 & H5 & H6 & Hs).
  destruct (parse_written Y M D h m s "" _ _ _ _ _ _ 0 H1 H2 H3 H4 H5 H6) as [-> _]. by rewrite Hs.
Qed.

Lemma rfc3339_ms_round_trip unix_ms : writable_ms unix_ms ->
  parse_rfc3339_ms (format_rfc3339_ms unix_ms) = Some unix_ms.
Proof.
  unfold writable_ms. intros Hu.
  destruct (rfc3339_fields (unix_ms / 1000)) as (Y & M & D & h & m & s & y & mo & d & Hf & H1 & H2 & H3 & H4 & H5 & H6 & Hs);
    [split; [apply Z.div_le_lower_bound|apply Z.lt_succ_r, Z.div_lt_upper_bound]; lia|].
  unfold format_rfc3339_ms. rewrite Hf, trim_end_z.
  - destruct (parse_written Y M D h m s (padded 3 (unix_ms mod 1000)) _ _ _ _ _ _ (unix_ms mod 1000) H1 H2 H3 H4 H5 H6)
      as [_ Hp]. rewrite Hp, Hs; [f_equal; pose proof (Z.div_mod unix_ms 1000); lia|].
    apply padded_spec; [lia|]. change (10 ^ Z.of_nat 3)%Z with 1000%Z. by apply Z.mod_pos_bound.
  - rewrite !plain_app. split_and!; (reflexivity || apply plain_digits; first [apply H1|apply H2|apply H3|apply H4|apply H5|apply H6]).
  - rewrite !ascii_list_app. rewrite !not_elem_of_app. split_and!; (apply digits_not_z; first [apply H1|apply H2|apply H3|apply H4|apply H5|apply H6]) || (apply (bool_decide_unpack _); vm_compute; exact I).
Qed.
