(* ===== verification/TeamLedger.v ===== *)
(** * agent-teams: the receiver ledger ([rs/agent-teams/src/ledger.rs])

    Any number of processes of one host work on a team's ledger: hand-overs, fences,
    retractions, receipts, pruning, hooks.  An operation is a program of calls on the
    ledger's files, its lock, the clock, the process table and the deliverer, so that the
    calls of several processes can interleave and a process can die between two of them. *)
From S2P Require Import Prelude RustStr External AgentQueue TeamTime TeamModel.

Record DataError := { code : string; message : string }.

Inductive Handover := Accepted | Refused (reason : string) | PossiblySubmitted (reason : string).

Record HandoverTarget := {
  target_kind : string;
  queue_dir : option string;
  inbox_dir : option string;
}.

Record AcceptContext := {
  this_host : string;
  declaration : Declaration;
  via : string;
  proof_note : string;
  relayed_by : option string;
  peer_host : string;
  via_chat_relay : bool;
}.

Record AcceptAnswer := {
  outcome : string;
  state : option string;
  detail : string;
  findings : list string;
}.

Definition answer (outcome : string) (state : option string) (detail : string) : AcceptAnswer :=
  {| outcome := outcome; state := state; detail := detail; findings := [] |}.

Definition route_refused (detail : string) : AcceptAnswer := answer "route-refused" None detail.

(** Both are read from the deliverer: a queue's [registry::relocated] path is where it is now. *)
Section programs.
Context `{JsonNumber, !JsonFloat, !Sha2Crate}.

(** ** Calls *)

Inductive call :=
(** The lock of the ledger: [lock_ledger] waits for it; [unlock], or dropping the file. *)
| LockLedger
| UnlockLedger
(** Files of the ledger directory; a file that cannot be read or parsed is absent. *)
| ReadJson (name : string)
| ReadDir
| WriteNewAtomic (name : string) (v : value)
| WriteJsonAtomic (name : string) (v : value)
| RemoveFile (name : string)
(** The host. *)
| NowUnixMs
| ProcessId
| IdentityOf (p : Z)
| BootId
| LiveCoordinator (sender : string)
(** The deliverer of the team. *)
| HandOver (id : string) (envelope : value) (rendered : string)
| Contains (id : string)
| Nudge (id : string)
| UndeliverableReason
(** agent-queue's [cancel], and a tombstone in a hook inbox. *)
| QueueCancel (queue id reason : string)
| InboxCancel (inbox id reason : string)
(** What is written for others: the team's log and its notices. *)
| LogEvent (event : value)
| WriteNotice (id : string) (notice : value)
(** The deliverer's queue: [relocated], [message_state], and a JSON file of a directory. *)
| Relocated (queue : string)
| QueueState (queue id : string)
| QueueJson (queue directory name : string)
(** A hook inbox: its private directories, its files, taking one by a rename. *)
| PrepareInbox (inbox : string)
| InboxNames (inbox : string)
| TakeItem (inbox name : string)
| TakenItem (inbox name : string)
| InboxTombstone (inbox name : string)
| PrintText (text : string).

Abbreviation DataResult A := (result DataError A).

Definition ret_of (c : call) : Set :=
  match c with
  | LockLedger | PrepareInbox _ => DataResult ()
  | ReadJson _ | QueueJson _ _ _ | TakenItem _ _ => option value
  | ReadDir | InboxNames _ => option (list string)
  | WriteNewAtomic _ _ => DataResult bool
  | WriteJsonAtomic _ _ => DataResult ()
  | NowUnixMs | ProcessId => Z
  | IdentityOf _ => option Z
  | BootId | Relocated _ => string
  | LiveCoordinator _ | TakeItem _ _ | InboxTombstone _ _ => bool
  | HandOver _ _ _ => Handover
  | Contains _ => option bool
  | UndeliverableReason => option string
  | QueueState _ _ => option MessageState
  | UnlockLedger | RemoveFile _ | Nudge _ | QueueCancel _ _ _ | InboxCancel _ _ _ | LogEvent _
  | WriteNotice _ _ | PrintText _ => ()
  end.

(** ** Programs *)

Inductive prog (A : Type) :=
| Ret (a : A)
| Next (c : call) (k : ret_of c -> prog A).
Arguments Ret {A} a.
Arguments Next {A} c k.

#[global] Instance prog_ret : MRet prog := fun A a => Ret a.
#[global] Instance prog_bind : MBind prog := fun A B f =>
  fix bind m := match m with Ret a => f a | Next c k => Next c (fun r => bind (k r)) end.

Definition trigger (c : call) : prog (ret_of c) := Next c Ret.

(** [?] *)
Definition bind_ok {A B} (m : prog (DataResult A)) (f : A -> prog (DataResult B)) : prog (DataResult B) :=
  r ← m; match r with Ok a => f a | Err e => mret (Err e) end.

(** and where the error drops the lock. *)
Definition bind_locked {A B} (m : prog (DataResult A)) (f : A -> prog (DataResult B)) : prog (DataResult B) :=
  r ← m; match r with Ok a => f a | Err e => trigger UnlockLedger;; mret (Err e) end.

Notation "x <-? m ; f" := (bind_ok m (fun x => f)) (at level 20, m at level 100, f at level 200, right associativity).
Notation "x <-! m ; f" := (bind_locked m (fun x => f)) (at level 20, m at level 100, f at level 200, right associativity).

(** [for x in l { ... }] *)
Fixpoint for_each {A} (l : list A) (f : A -> prog ()) : prog () :=
  match l with [] => mret () | x :: l => f x;; for_each l f end.
Fixpoint for_each_ok {A} (l : list A) (f : A -> prog (DataResult ())) : prog (DataResult ()) :=
  match l with [] => mret (Ok ()) | x :: l => bind_ok (f x) (fun _ => for_each_ok l f) end.
(** [filter_map], and [filter_map] counting what was kept. *)
Fixpoint filter_map_prog {A B} (f : A -> prog (option B)) (l : list A) : prog (list B) :=
  match l with
  | [] => mret []
  | x :: l => y ← f x; ys ← filter_map_prog f l; mret (match y with Some y => y :: ys | None => ys end)
  end.

(** ** Reading *)

Definition read_entry (id : string) : prog (option value) := trigger (ReadJson (entry_name id)).

Definition list_entries : prog (list value) :=
  names ← trigger ReadDir;
  match names with
  | None => mret []
  | Some names =>
      entries ← filter_map_prog (fun name => trigger (ReadJson name)) (List.filter is_entry_file_name names);
      mret (sort_by_key (fun entry => default "" (str_field entry "id")) entries)
  end.

Definition receipt (id : string) : prog value :=
  entry ← read_entry id;
  mret match entry with
  | Some entry =>
      Object [("known", VBool true); ("id", VString id); ("state", VString (entry_state entry));
              ("detail", json_option (value_get entry "detail")); ("held", json_option (value_get entry "held"));
              ("sender", json_option (value_get entry "sender"));
              ("recorded_at", json_option (value_get entry "recorded_at"))]
  | None => Object [("known", VBool false); ("id", VString id); ("state", VString "unknown")]
  end.

(** ** Pruning *)

Definition remove_entry_files (id : string) : prog () :=
  let base := entry_name id in
  trigger (RemoveFile base);;
  names ← trigger ReadDir;
  match names with
  | None => mret ()
  | Some names => for_each (List.filter (is_backup_of base) names) (fun name => trigger (RemoveFile name))
  end.

Definition prunable (now_ms : Z) (entry : value) : option string :=
  id ← str_field entry "id";
  if existsb (String.eqb (entry_state entry)) PRUNABLE_STATES
     && match retention_horizon_ms entry with Some horizon => (horizon <=? now_ms)%Z | None => false end
  then Some id else None.

Fixpoint prune_entries (now_ms : Z) (entries : list value) (removed : nat) : prog nat :=
  match entries with
  | [] => mret removed
  | entry :: entries =>
      match prunable now_ms entry with
      | Some id => remove_entry_files id;; prune_entries now_ms entries (S removed)
      | None => prune_entries now_ms entries removed
      end
  end.

Definition prune_team (now_ms : Z) : prog (DataResult nat) :=
  _ <-? trigger LockLedger;
  entries ← list_entries;
  removed ← prune_entries now_ms entries 0;
  trigger UnlockLedger;;
  mret (Ok removed).
(** ** Tombstones and supersession *)

Definition write_tombstone (target : HandoverTarget) (id reason : string) : prog () :=
  match queue_dir target, inbox_dir target with
  | Some queue, _ => trigger (QueueCancel queue id reason)
  | None, Some inbox => trigger (InboxCancel inbox id reason)
  | None, None => mret ()
  end.

(** Is [other] an accepted message that the envelope replaces? *)
Definition superseded_by (envelope other : value) : bool :=
  let sender := envelope_sender envelope in
  let from_sender := bool_decide (str_field other "sender" = Some sender) in
  let topic := str_field envelope "topic" in
  let supersedes := omap as_str (default [] (value_get envelope "supersedes" ≫= as_array)) in
  let my_created := default 0%Z (time_field envelope "created_at") in
  let same_topic :=
    match topic with Some _ => bool_decide (str_field other "topic" = topic) | None => false end
    && from_sender && (default 0%Z (time_field other "created_at") <? my_created)%Z in
  let named :=
    from_sender
    && match str_field other "key" with Some key => existsb (fun k => (k =? key)%string) supersedes | None => false end in
  same_topic || named.

Definition supersede_one (target : HandoverTarget) (envelope : value) (name : string) : prog (DataResult ()) :=
  let my_id := default "" (str_field envelope "id") in
  if negb (is_entry_file_name name) then mret (Ok ()) else
  other ← trigger (ReadJson name);
  match other with
  | None => mret (Ok ())
  | Some other =>
      let other_id := default "" (str_field other "id") in
      if (other_id =? my_id)%string || negb (entry_state other =? "accepted")%string then mret (Ok ())
      else if superseded_by envelope other then
        let other := set_key "state" (VString "superseded") other in
        let other := set_key "detail" (VString ("superseded by " +:+ my_id)) other in
        _ <-? trigger (WriteJsonAtomic name other);
        write_tombstone target other_id "superseded";;
        mret (Ok ())
      else mret (Ok ())
  end.

Definition apply_supersede (target : HandoverTarget) (envelope : value) : prog (DataResult ()) :=
  names ← trigger ReadDir;
  match names with
  | None => mret (Ok ())
  | Some names => for_each_ok names (supersede_one target envelope)
  end.

(** The order of [(i64, i64)]. *)
Definition order_lt (a b : Z * Z) : bool := (a.1 <? b.1)%Z || ((a.1 =? b.1)%Z && (a.2 <? b.2)%Z).
Definition order_max (a b : Z * Z) : Z * Z := if order_lt b a then a else b.

(** The [(created_ms, seq)] of an entry taken for delivery on a topic. *)
Definition taken_on_topic (sender topic : string) (v : value) : option (Z * Z) :=
  if existsb (String.eqb (entry_state v)) ["claimed"; "accepted"; "typing"; "presented"; "delivered"]
     && bool_decide (str_field v "sender" = Some sender) && bool_decide (str_field v "topic" = Some topic)
  then Some (default 0%Z (time_field v "created_at"), default 0%Z (value_get v "seq" ≫= as_i64))
  else None.

Definition newest_on_topic (sender topic : string) : prog (option (Z * Z)) :=
  names ← trigger ReadDir;
  match names with
  | None => mret None
  | Some names =>
      entries ← filter_map_prog (fun name => trigger (ReadJson name)) (List.filter is_entry_file_name names);
      mret (foldl (fun newest order => Some (match newest with Some n => order_max n order | None => order end))
              None (omap (taken_on_topic sender topic) entries))
  end.

(** ** Hand-over *)

Definition finish_handover (id : string) (handed : Handover) : prog (DataResult AcceptAnswer) :=
  _ <-? trigger LockLedger;
  entry ← read_entry id;
  match entry with
  | None => trigger UnlockLedger;; mret (Ok (route_refused "ledger entry vanished"))
  | Some entry =>
      if (entry_state entry =? "retracted")%string then
        trigger UnlockLedger;;
        mret (Ok (answer "known" (Some "retracted") "retracted during hand-over"))
      else
        let '(new_state, answer_outcome, detail) :=
          match handed with
          | Accepted => ("accepted", "accepted", "handed to the deliverer")
          | Refused reason => ("refused", "refused", reason)
          | PossiblySubmitted reason => ("possibly_submitted", "known", reason)
          end in
        let entry := set_key "detail" (VString detail) (set_key "state" (VString new_state) entry) in
        now ← trigger NowUnixMs;
        let entry := set_key "recorded_at" (VString (format_rfc3339_ms now)) entry in
        _ <-! trigger (WriteJsonAtomic (entry_name id) entry);
        trigger UnlockLedger;;
        mret (Ok (answer answer_outcome (Some new_state) detail))
  end.

Definition recover_claim (ctx : AcceptContext) (envelope existing : value) : prog (DataResult AcceptAnswer) :=
  let id := default "" (str_field envelope "id") in
  contained ← trigger (Contains id);
  match contained with
  | Some true =>
      let entry := set_key "state" (VString "accepted") existing in
      let entry := set_key "detail" (VString "recovered: found with the deliverer") entry in
      _ <-? trigger (WriteJsonAtomic (entry_name id) entry);
      mret (Ok (answer "accepted" (Some "accepted") "recovered after claim"))
  | Some false =>
      handed ← trigger (HandOver id envelope (render envelope (via ctx) (proof_note ctx)));
      finish_handover id handed
  | None =>
      let entry := set_key "state" (VString "possibly_submitted") existing in
      let entry := set_key "detail" (VString "recovery: deliverer cannot prove absence") entry in
      _ <-? trigger (WriteJsonAtomic (entry_name id) entry);
      mret (Ok (answer "known" (Some "possibly_submitted") "claimed but hand-over unprovable; a human resolves it"))
  end.

(** ** Accept: refusals *)

(** Refusals of the route: nothing is recorded. *)
Definition route_refusal (ctx : AcceptContext) (envelope : value) : option string :=
  let team := team (declaration ctx) in
  match check_envelope envelope with
  | Err reason => Some ("envelope refused: " +:+ reason)
  | Ok _ =>
      let id := default "" (str_field envelope "id") in
      let to_team := default "" (str_field (value_index envelope "to") "team") in
      let to_host := default "" (str_field (value_index envelope "to") "host") in
      if negb (to_host =? this_host ctx)%string then
        Some ("addressed to host " +:+ to_host +:+ ", not " +:+ this_host ctx)
      else if negb (to_team =? team)%string then Some ("addressed to team " +:+ to_team +:+ ", not " +:+ team)
      else
        let sender_ns := sender_namespace (envelope_sender envelope) in
        if negb (starts_with id ("tm-" +:+ sender_ns +:+ "-")) then
          Some "message ID does not belong to its sender"
        else
          match relayed_by ctx with
          | None =>
              let from_host := default "" (str_field (value_index envelope "from") "host") in
              if negb (str_is_empty (peer_host ctx)) && negb (from_host =? peer_host ctx)%string then
                Some ("envelope claims host " +:+ from_host +:+ ", route peer is " +:+ peer_host ctx)
              else None
          | Some hub =>
              if negb (existsb (fun h => (h =? hub)%string) (accepts_relay_from (declaration ctx))) then
                Some ("relay from " +:+ hub +:+ " not accepted by team " +:+ team)
              else None
          end
  end.

(** Has the sender no rule of its own, and is it a coordinator of this host? *)
Definition same_host_coordinator (ctx : AcceptContext) (envelope : value) (sender : string) : prog bool :=
  let from := value_index envelope "from" in
  if negb (existsb (fun rule => (rule_sender rule =? sender)%string) (accepts_from (declaration ctx)))
     && negb (via_chat_relay ctx)
     && bool_decide (str_field from "proof" = Some "harness-ancestry")
     && bool_decide (str_field from "host" = Some (this_host ctx))
  then trigger (LiveCoordinator sender) else mret false.

(** Arrivals from a sender since [window_start]. *)
Definition arrived_since (sender : string) (window_start : Z) (entry : value) : bool :=
  bool_decide (str_field entry "sender" = Some sender)
  && match time_field entry "recorded_at" with Some at_ => (window_start <=? at_)%Z | None => false end.

Definition rate_refusal (ctx : AcceptContext) (sender : string) (now_ms : Z) : prog (option (string * string)) :=
  let limit := per_sender_per_hour (declaration ctx) in
  if (0 <? limit)%Z then
    entries ← list_entries;
    let recent := length (List.filter (arrived_since sender (now_ms - 3600000)%Z) entries) in
    mret (if (limit <=? Z.of_nat recent)%Z then
      Some ("refused", "rate limit: " +:+ pretty (Z.of_nat recent) +:+ " arrivals from " +:+ sender +:+
                       " in the last hour (limit " +:+ pretty limit +:+ ")")
    else None)
  else mret None.

Definition topic_refusal (envelope : value) (sender : string) (created_ms : Z) : prog (option (string * string)) :=
  match str_field envelope "topic" with
  | None => mret None
  | Some topic =>
      newer ← newest_on_topic sender topic;
      mret match newer with
      | Some newer =>
          let seq := default 0%Z (value_get (value_index envelope "from") "seq" ≫= as_i64) in
          if order_lt (created_ms, seq) newer then
            Some ("superseded", "a newer message on topic " +:+ topic +:+ " was already taken for delivery")
          else None
      | None => None
      end
  end.

(** Refusals of the message: the state to record and why. *)
Definition policy_refusal (ctx : AcceptContext) (envelope : value) (now_ms : Z) : prog (option (string * string)) :=
  let d := declaration ctx in
  let sender := envelope_sender envelope in
  let kind := default "info" (str_field envelope "kind") in
  let body := default "" (str_field envelope "body") in
  let not_after_ms := default 0%Z (time_field envelope "not_after") in
  allowed ← (if accepts d sender kind then mret true else same_host_coordinator ctx envelope sender);
  if negb allowed then
    mret (Some ("refused", "sender " +:+ sender +:+ " may not send kind " +:+ kind +:+ " to team " +:+ team d))
  else if max_bytes d <? String.length body then
    mret (Some ("refused", "body of " +:+ pretty (Z.of_nat (String.length body)) +:+ " bytes over the limit " +:+
                           pretty (Z.of_nat (max_bytes d))))
  else if (not_after_ms <=? now_ms)%Z then mret (Some ("expired", "not_after has passed"))
  else
    let created_ms := default now_ms (time_field envelope "created_at") in
    if (i64_wrap (max_ttl_seconds d * 1000) <? not_after_ms - created_ms)%Z then
      mret (Some ("refused", "not_after beyond max_ttl_seconds"))
    else
      rate ← rate_refusal ctx sender now_ms;
      match rate with Some refusal => mret (Some refusal) | None => topic_refusal envelope sender created_ms end.

(** [write_terminal] *)
Definition write_terminal (id entry_state_name : string) (envelope : value) (detail : string)
    : prog (DataResult ()) :=
  now ← trigger NowUnixMs;
  let entry := Object [
    ("id", VString id);
    ("state", VString entry_state_name);
    ("body_sha256", json_option (value_get envelope "body_sha256"));
    ("sender", VString (envelope_sender envelope));
    ("key", json_option (value_get envelope "key"));
    ("not_after", json_option (value_get envelope "not_after"));
    ("created_at", json_option (value_get envelope "created_at"));
    ("recorded_at", VString (format_rfc3339_ms now));
    ("detail", VString detail)] in
  _ <-? trigger (WriteNewAtomic (entry_name id) entry);
  mret (Ok ()).

(** ** Accept: an identifier that is recorded *)

(** A claimer other than this process that lives, as far as the entry and the process table say. *)
Definition claimer_alive (existing : value) : prog bool :=
  match value_get existing "claimer_pid" ≫= as_u64 with
  | None => mret false
  | Some pid =>
      me ← trigger ProcessId;
      if (pid =? me)%Z then mret false else
      live ← trigger (IdentityOf pid);
      mret match live with
      | None => false
      | Some live_ticks =>
          match value_get existing "claimer_ticks" ≫= as_u64 with
          | None => true
          | Some ticks => (ticks =? live_ticks)%Z
          end
      end
  end.

Definition expire_claim (id : string) : prog (DataResult AcceptAnswer) :=
  _ <-? trigger LockLedger;
  entry ← read_entry id;
  let done := trigger UnlockLedger;;
              mret (Ok (answer "refused" (Some "expired") "expired before recovery")) in
  match entry with
  | None => done
  | Some entry =>
      let entry := set_key "detail" (VString "expired before recovery") (set_key "state" (VString "expired") entry) in
      _ <-! trigger (WriteJsonAtomic (entry_name id) entry);
      done
  end.

Definition accept_known (ctx : AcceptContext) (envelope existing : value) (id : string)
    : prog (DataResult AcceptAnswer) :=
  let recorded_state := entry_state existing in
  trigger UnlockLedger;;
  if negb (bool_decide (str_field existing "body_sha256" = str_field envelope "body_sha256")) then
    mret (Ok (answer "conflict" (Some recorded_state) "same ID with a different body"))
  else if (recorded_state =? "claimed")%string then
    alive ← claimer_alive existing;
    if alive : bool then mret (Ok (answer "known" (Some "claimed") "hand-over in progress")) else
    now ← (let not_after_ms := default 0%Z (time_field existing "not_after") in
           if (0 <? not_after_ms)%Z then now ← trigger NowUnixMs; mret (not_after_ms <=? now)%Z else mret false);
    if now : bool then expire_claim id else recover_claim ctx envelope existing
  else
    (if (recorded_state =? "accepted")%string then trigger (Nudge id) else mret ());;
    mret (Ok (answer
      (if (recorded_state =? "refused")%string || (recorded_state =? "fenced")%string then "refused" else "known")
      (Some recorded_state) "already recorded")).

(** ** Accept: a new identifier *)

Definition claim_entry (ctx : AcceptContext) (target : HandoverTarget) (envelope : value) (id : string)
    (pid : Z) (ticks : option Z) (boot_id : string) (now_ms : Z) : value :=
  Object [
    ("id", VString id);
    ("state", VString "claimed");
    ("body_sha256", json_option (value_get envelope "body_sha256"));
    ("sender", VString (envelope_sender envelope));
    ("key", json_option (value_get envelope "key"));
    ("topic", json_option (value_get envelope "topic"));
    ("seq", value_index (value_index envelope "from") "seq");
    ("created_at", json_option (value_get envelope "created_at"));
    ("not_after", json_option (value_get envelope "not_after"));
    ("via", VString (via ctx));
    ("claimer_pid", Number (number_of_u64 pid));
    ("claimer_ticks", json_option ((fun t => Number (number_of_u64 t)) <$> ticks));
    ("claimer_boot_id", VString boot_id);
    ("target", Object [("kind", VString (target_kind target)); ("queue_dir", json_str (queue_dir target));
                       ("inbox_dir", json_str (inbox_dir target))]);
    ("recorded_at", VString (format_rfc3339_ms now_ms));
    ("envelope", envelope)].

Definition undeliverable_notice (ctx : AcceptContext) (envelope : value) (id reason : string) (now_ms : Z) : value :=
  Object [("event", VString "undeliverable-notice"); ("team", VString (team (declaration ctx))); ("id", VString id);
          ("sender", VString (envelope_sender envelope)); ("reason", VString reason);
          ("at", VString (format_rfc3339_ms now_ms))].

(** The claim, under the lock, and the hand-over, after it. *)
Definition claim_and_hand_over (ctx : AcceptContext) (target : HandoverTarget) (envelope : value) (id : string)
    (now_ms : Z) : prog (DataResult AcceptAnswer) :=
  pid ← trigger ProcessId;
  own ← trigger ProcessId;
  ticks ← trigger (IdentityOf own);
  boot_id ← trigger BootId;
  claimed <-! trigger (WriteNewAtomic (entry_name id) (claim_entry ctx target envelope id pid ticks boot_id now_ms));
  trigger UnlockLedger;;
  if negb claimed then
    existing ← read_entry id;
    mret (Ok match existing with
    | Some existing => answer "known" (Some (entry_state existing)) "claimed concurrently"
    | None => route_refused "claim race without an entry"
    end)
  else
    _ <-? apply_supersede target envelope;
    handed ← trigger (HandOver id envelope (render envelope (via ctx) (proof_note ctx)));
    finish_handover id handed.

Definition accept_new (ctx : AcceptContext) (target : HandoverTarget) (envelope : value) (id : string)
    : prog (DataResult AcceptAnswer) :=
  undeliverable ← trigger UndeliverableReason;
  match undeliverable with
  | Some reason =>
      now ← trigger NowUnixMs;
      let notice := undeliverable_notice ctx envelope id reason now in
      trigger (LogEvent notice);;
      trigger (WriteNotice id notice);;
      trigger UnlockLedger;;
      mret (Ok (answer "undeliverable" (Some "deferred") reason))
  | None =>
      now_ms ← trigger NowUnixMs;
      refusal ← policy_refusal ctx envelope now_ms;
      match refusal with
      | Some (state_name, detail) =>
          _ <-! write_terminal id state_name envelope detail;
          trigger UnlockLedger;;
          mret (Ok (answer "refused" (Some state_name) detail))
      | None => claim_and_hand_over ctx target envelope id now_ms
      end
  end.

Definition accept (ctx : AcceptContext) (target : HandoverTarget) (envelope : value)
    : prog (DataResult AcceptAnswer) :=
  now ← trigger NowUnixMs;
  prune_team now;;
  match route_refusal ctx envelope with
  | Some detail => mret (Ok (route_refused detail))
  | None =>
      let id := default "" (str_field envelope "id") in
      _ <-? trigger LockLedger;
      existing ← read_entry id;
      match existing with
      | Some existing => accept_known ctx envelope existing id
      | None => accept_new ctx target envelope id
      end
  end.

(** ** Fences and retractions *)

Definition fence (team id not_after : string) (body_sha256 : option string) : prog (DataResult value) :=
  if negb (valid_team_name team) || negb (valid_message_id id) then
    mret (Ok (Object [("outcome", VString "error"); ("detail", VString "bad team or message ID")]))
  else
  _ <-? trigger LockLedger;
  existing ← read_entry id;
  match existing with
  | Some existing =>
      trigger UnlockLedger;;
      mret (Ok (Object [("outcome", VString "known"); ("state", VString (entry_state existing))]))
  | None =>
      now ← trigger NowUnixMs;
      let entry := Object [
        ("id", VString id);
        ("state", VString "fenced");
        ("body_sha256", json_str body_sha256);
        ("not_after", VString not_after);
        ("recorded_at", VString (format_rfc3339_ms now));
        ("detail", VString "fenced by the sender before trying another contact")] in
      written <-! trigger (WriteNewAtomic (entry_name id) entry);
      trigger UnlockLedger;;
      let fenced := Object [("outcome", VString "fenced"); ("state", VString "fenced")] in
      if written : bool then mret (Ok fenced) else
      existing ← read_entry id;
      mret (Ok match existing with
      | Some existing => Object [("outcome", VString "known"); ("state", VString (entry_state existing))]
      | None => fenced
      end)
  end.

Definition retract (target : HandoverTarget) (id : string) : prog (DataResult value) :=
  _ <-? trigger LockLedger;
  entry ← read_entry id;
  match entry with
  | None => trigger UnlockLedger;; mret (Ok (Object [("outcome", VString "unknown"); ("id", VString id)]))
  | Some entry =>
      if existsb (String.eqb (entry_state entry)) ["accepted"; "claimed"] then
        let entry := set_key "detail" (VString "retracted by the sender")
                       (set_key "state" (VString "retracted") entry) in
        _ <-! trigger (WriteJsonAtomic (entry_name id) entry);
        trigger UnlockLedger;;
        write_tombstone target id "retracted";;
        mret (Ok (Object [("outcome", VString "retracted"); ("state", VString "retracted")]))
      else
        trigger UnlockLedger;;
        mret (Ok (Object [("outcome", VString "too-late"); ("state", VString (entry_state entry))]))
  end.

(** [cmd_resolve]: a human settles an entry. *)
Definition resolve (id : string) (mark_delivered : bool) : prog (DataResult ()) :=
  entry ← read_entry id;
  match entry with
  | None => mret (Err {| code := "unknown"; message := "no ledger entry " +:+ id +:+ " here" |})
  | Some entry =>
      let '(new_state, detail) :=
        if mark_delivered then ("delivered", "marked delivered by a human (resolve)")
        else ("fenced", "fenced by a human (resolve)") in
      let entry := set_key "detail" (VString detail) (set_key "state" (VString new_state) entry) in
      now ← trigger NowUnixMs;
      let entry := set_key "recorded_at" (VString (format_rfc3339_ms now)) entry in
      trigger (WriteJsonAtomic (entry_name id) entry)
  end.

(** ** Folding back what the queue did *)

Definition unlock_with {A} (a : A) : prog A := trigger UnlockLedger;; mret a.

(** The queue an entry was handed to, where its target is one. *)
Definition queue_of (entry : value) : option string :=
  target ← value_get entry "target";
  if bool_decide (str_field target "kind" = Some "agentctl-queue") then str_field target "queue_dir" else None.

(** The state and detail the queue's state stands for. *)
Definition queue_verdict (queue id : string) (queue_state : option MessageState)
    : prog (option (string * string)) :=
  match queue_state with
  | Some Processed => mret (Some ("delivered", "typed into the coordinator's pane (queue item processed)"))
  | Some Cancelled =>
      item ← trigger (QueueJson queue "cancelled" (entry_name id));
      let reason := default "cancelled" (item ≫= fun item => str_field item "cancel_reason") in
      mret (Some (if (reason =? "expired")%string
                  then ("expired", "set aside untyped at drain: past not_after")
                  else ("retracted", "set aside untyped at drain: tombstoned")))
  | Some Failed =>
      sidecar ← trigger (QueueJson queue "failed" (id +:+ ".json.error"));
      let reason := sidecar ≫= fun sidecar => str_field sidecar "error" in
      mret (Some ("possibly_submitted",
        match reason with
        | Some reason =>
            if starts_with reason "archived by revive" then reason
            else "queue quarantined the item as possibly submitted; settle with resolve"
        | None => "queue quarantined the item as possibly submitted; settle with resolve"
        end))
  | _ => mret None
  end.

Definition remove_key (key : string) (v : value) : value :=
  match v with Object kvs => Object (obj_remove key kvs) | _ => v end.

Definition outcome_notice (team id detail : string) (now : Z) : value :=
  Object [("event", VString "delivery-outcome"); ("kind", VString "reply"); ("team", VString team);
          ("id", VString id); ("outcome", VString "possibly_submitted"); ("detail", VString detail);
          ("at", VString (format_rfc3339_ms now))].

Definition fold_queue_state (team id queue : string) (entry : value) (verdict : string * string)
    : prog (option string) :=
  let '(new_state, detail) := verdict in
  let entry := set_key "detail" (VString detail) (set_key "state" (VString new_state) entry) in
  let entry := remove_key "held" entry in
  delivered_at ← (if (new_state =? "delivered")%string
                  then now ← trigger NowUnixMs; mret (VString (format_rfc3339_ms now)) else mret Null);
  let entry := set_key "delivered_at" delivered_at entry in
  written ← trigger (WriteJsonAtomic (entry_name id) entry);
  (if (new_state =? "possibly_submitted")%string then
     now ← trigger NowUnixMs;
     let notice := outcome_notice team id detail now in
     trigger (LogEvent notice);; trigger (WriteNotice id notice)
   else mret ());;
  unlock_with (match written with Ok _ => Some new_state | Err _ => None end).

Definition reconcile_queue_delivery (team id : string) : prog (option string) :=
  locked ← trigger LockLedger;
  match locked with
  | Err _ => mret None
  | Ok _ =>
      entry ← read_entry id;
      match entry with
      | None => unlock_with None
      | Some entry =>
          if negb (entry_state entry =? "accepted")%string then unlock_with None else
          match queue_of entry with
          | None => unlock_with None
          | Some queue =>
              queue ← trigger (Relocated queue);
              queue_state ← trigger (QueueState queue id);
              verdict ← queue_verdict queue id queue_state;
              match verdict with
              | None => unlock_with None
              | Some verdict => fold_queue_state team id queue entry verdict
              end
          end
      end
  end.

Definition held_entry (entry : value) (now reason : string) : value :=
  let since := default now (value_get entry "held" ≫= fun held => str_field held "since") in
  set_key "held" (Object [("since", VString since); ("reason", VString reason); ("checked_at", VString now)])
    (set_key "detail" (VString ("held at the receiver since " +:+ since +:+ ": nothing was typed; " +:+ reason)) entry).

Definition note_held (id reason : string) : prog bool :=
  locked ← trigger LockLedger;
  match locked with
  | Err _ => mret false
  | Ok _ =>
      entry ← read_entry id;
      match entry with
      | None => unlock_with false
      | Some entry =>
          if negb (entry_state entry =? "accepted")%string then unlock_with false else
          match queue_of entry with
          | None => unlock_with false
          | Some queue =>
              queue ← trigger (Relocated queue);
              queue_state ← trigger (QueueState queue id);
              match queue_state with
              | Some Pending =>
                  now ← trigger NowUnixMs;
                  written ← trigger (WriteJsonAtomic (entry_name id) (held_entry entry (format_rfc3339_ms now) reason));
                  unlock_with (is_ok written)
              | _ => unlock_with false
              end
          end
      end
  end.

(** ** The hook ([cmd_hook]), for one team with a hook inbox *)

(** Items shown by an earlier run were taken by the harness. *)
Definition upgrade_presented (entry : value) : prog (DataResult ()) :=
  if (entry_state entry =? "presented")%string then
    let id := default "" (str_field entry "id") in
    trigger (WriteJsonAtomic (entry_name id) (set_key "state" (VString "delivered") entry))
  else mret (Ok ()).

(** An item that was taken is shown unless it is withdrawn, late, or not to be shown. *)
Definition show_item (inbox name : string) (item : value) (ledger : option value) : prog (DataResult ()) :=
  let ledger_state := from_option entry_state "" ledger in
  tombstoned ← trigger (InboxTombstone inbox name);
  expired ← (match time_field item "not_after" with
             | Some ms => now ← trigger NowUnixMs; mret (ms <=? now)%Z
             | None => mret false
             end);
  if tombstoned || expired || negb (existsb (String.eqb ledger_state) ["accepted"; "claimed"]) then mret (Ok ())
  else
    _ <-? (match ledger with
           | Some entry => trigger (WriteJsonAtomic (entry_name name) (set_key "state" (VString "presented") entry))
           | None => mret (Ok ())
           end);
    trigger (PrintText (default "" (str_field item "text")));;
    mret (Ok ()).

Definition present_item (inbox name : string) : prog (DataResult ()) :=
  taken ← trigger (TakeItem inbox name);
  if negb taken then mret (Ok ()) else
  item ← trigger (TakenItem inbox name);
  match item with
  | None => mret (Ok ())
  | Some item => ledger ← read_entry name; show_item inbox name item ledger
  end.

(** [path.extension() == "json"], and the stem. *)
Definition json_stem (name : string) : option string :=
  stem ← strip_suffix ".json" name; if str_is_empty stem then None else Some stem.

Definition hook (inbox : string) : prog (DataResult ()) :=
  entries ← list_entries;
  _ <-? for_each_ok entries upgrade_presented;
  _ <-? trigger (PrepareInbox inbox);
  names ← trigger (InboxNames inbox);
  match names with
  | None => mret (Ok ())
  | Some names => for_each_ok (omap json_stem (sort_by_key id names)) (present_item inbox)
  end.
End programs.
Arguments Ret {_ A} a.
Arguments Next {_ A} c k.
