(* ===== verification/TeamSystem.v ===== *)
(** * agent-teams: processes at work on a ledger

    The semantics of the calls, and any number of processes running operations of
    [TeamLedger]: their calls interleave, a call may fail, a process may die between two
    calls (its lock goes with it), time passes.  The ghost [log], newest first, says when
    an entry was created and by whom, and what the deliverer was asked. *)
From S2P Require Import Prelude RustStr External AgentQueue TeamTime TeamModel TeamLedger.

Inductive event :=
(** [write_new_atomic] created a file with an entry in this state. *)
| Created (name state : string) (slot : nat) (time : Z)
(** The deliverer was given a message; it said that it has none of this identifier. *)
| Handed (id : string) (slot : nat)
| FoundAbsent (id : string) (slot : nat).

Section system.
Context `{JsonNumber, !JsonFloat, !Sha2Crate}.

Record World := {
  files : gmap string value;
  holder : option nat;
  clock : Z;
  log : list event;
}.

(** ** Operations *)

Inductive Request :=
| AcceptRequest (ctx : AcceptContext) (target : HandoverTarget) (envelope : value)
| FenceRequest (team id not_after : string) (body_sha256 : option string)
| RetractRequest (target : HandoverTarget) (id : string)
| ReconcileRequest (team id : string)
| NoteHeldRequest (id reason : string)
| ReceiptRequest (id : string)
| PruneRequest
| ResolveRequest (id : string) (mark_delivered : bool)
| HookRequest (inbox : string).

Inductive Answer :=
| AcceptAns (r : result DataError AcceptAnswer)
| ValueAns (r : result DataError value)
| StateAns (state : option string)
| BoolAns (b : bool)
| CountAns (r : result DataError nat)
| UnitAns (r : result DataError ()).

Definition program (req : Request) : prog Answer :=
  match req with
  | AcceptRequest ctx target envelope => r ← accept ctx target envelope; mret (AcceptAns r)
  | FenceRequest team id not_after body_sha256 => r ← fence team id not_after body_sha256; mret (ValueAns r)
  | RetractRequest target id => r ← retract target id; mret (ValueAns r)
  | ReconcileRequest team id => r ← reconcile_queue_delivery team id; mret (StateAns r)
  | NoteHeldRequest id reason => r ← note_held id reason; mret (BoolAns r)
  | ReceiptRequest id => r ← receipt id; mret (ValueAns (Ok r))
  | PruneRequest => now ← trigger NowUnixMs; r ← prune_team now; mret (CountAns r)
  | ResolveRequest id mark_delivered => r ← resolve id mark_delivered; mret (UnitAns r)
  | HookRequest inbox => r ← hook inbox; mret (UnitAns r)
  end.

(** ** Processes: one operation each, by a slot that is never used again *)

Record Proc := { pid : Z; ticks : Z; code_left : prog Answer }.
Record System := { world : World; procs : gmap nat Proc; next : nat }.

Definition initial (start : Z) : System :=
  {| world := {| files := ∅; holder := None; clock := start; log := [] |}; procs := ∅; next := 0 |}.

(** ** Calls *)

(** What the environment answers a call, where that is open. *)
Inductive reply :=
| RDone
| RError (e : DataError)
(** [write_json_atomic] failed after the backup was made. *)
| RLate (e : DataError)
| RNames (names : option (list string))
| RValue (v : option value)
| RBool (b : bool)
| RContains (b : option bool)
| RString (s : string)
| RReason (s : option string)
| RTicks (t : option Z)
| RHandover (h : Handover)
| RState (s : option MessageState).

Definition set_files (f : gmap string value -> gmap string value) (w : World) : World :=
  {| files := f (files w); holder := holder w; clock := clock w; log := log w |}.
Definition set_holder (h : option nat) (w : World) : World :=
  {| files := files w; holder := h; clock := clock w; log := log w |}.
Definition record_event (e : event) (w : World) : World :=
  {| files := files w; holder := holder w; clock := clock w; log := e :: log w |}.

(** The lock goes with the file, and the file with the process. *)
Definition release (slot : nat) (w : World) : World :=
  if decide (holder w = Some slot) then set_holder None w else w.

Definition with_backup (name : string) (w : World) : World :=
  match files w !! name with
  | Some old => set_files (<[backup_name name (clock w / 1000)%Z := old]>) w
  | None => w
  end.

(** The start ticks of the running process with this identifier. *)
Definition running_ticks (p : Z) (procs : gmap nat Proc) : option Z :=
  snd <$> List.find (fun '(q, _) => (q =? p)%Z) ((fun '(_, pr) => (pid pr, ticks pr)) <$> map_to_list procs).

(** A call of the process in [slot]: its result and the world after it, if the reply is one
    the call can have, and it need not wait. *)
Definition perform (s : System) (slot : nat) (c : call) (r : reply) : option (ret_of c * World) :=
  let w := world s in
  match c as c return option (ret_of c * World) with
  | LockLedger =>
      match r with
      | RError e => Some (Err e, w)
      | _ => if decide (holder w = None) then Some (Ok (), set_holder (Some slot) w) else None
      end
  | UnlockLedger => Some ((), release slot w)
  | ReadJson name => Some (match r with RError _ => None | _ => files w !! name end, w)
  | ReadDir => match r with RNames names => Some (names, w) | _ => None end
  | WriteNewAtomic name v =>
      match r with
      | RError e => Some (Err e, w)
      | _ =>
          match files w !! name with
          | Some _ => Some (Ok false, w)
          | None => Some (Ok true, record_event (Created name (entry_state v) slot (clock w)) (set_files (<[name := v]>) w))
          end
      end
  | WriteJsonAtomic name v =>
      match r with
      | RError e => Some (Err e, w)
      | RLate e => Some (Err e, with_backup name w)
      | _ => Some (Ok (), set_files (<[name := v]>) (with_backup name w))
      end
  | RemoveFile name => Some ((), match r with RError _ => w | _ => set_files (delete name) w end)
  | NowUnixMs => Some (clock w, w)
  | ProcessId => (fun pr => (pid pr, w)) <$> procs s !! slot
  | IdentityOf p =>
      match running_ticks p (procs s) with
      | Some t => Some (Some t, w)
      | None => match r with RTicks o => Some (o, w) | _ => None end
      end
  | BootId => match r with RString b => Some (b, w) | _ => None end
  | LiveCoordinator _ => match r with RBool b => Some (b, w) | _ => None end
  | HandOver id _ _ => match r with RHandover h => Some (h, record_event (Handed id slot) w) | _ => None end
  | Contains id =>
      match r with
      | RContains (Some false) => Some (Some false, record_event (FoundAbsent id slot) w)
      | RContains o => Some (o, w)
      | _ => None
      end
  | Nudge _ => Some ((), w)
  | UndeliverableReason => match r with RReason o => Some (o, w) | _ => None end
  | QueueCancel _ _ _ => Some ((), w)
  | InboxCancel _ _ _ => Some ((), w)
  | LogEvent _ => Some ((), w)
  | WriteNotice _ _ => Some ((), w)
  | Relocated _ => match r with RString q => Some (q, w) | _ => None end
  | QueueState _ _ => match r with RState o => Some (o, w) | _ => None end
  | QueueJson _ _ _ => match r with RValue o => Some (o, w) | _ => None end
  | PrepareInbox _ => match r with RError e => Some (Err e, w) | _ => Some (Ok (), w) end
  | InboxNames _ => match r with RNames names => Some (names, w) | _ => None end
  | TakeItem _ _ => match r with RBool b => Some (b, w) | _ => None end
  | TakenItem _ _ => match r with RValue o => Some (o, w) | _ => None end
  | InboxTombstone _ _ => match r with RBool b => Some (b, w) | _ => None end
  | PrintText _ => Some ((), w)
  end.

(** ** Steps *)

Inductive action :=
| Spawn (pid ticks : Z) (req : Request)
| Run (slot : nat) (r : reply)
| Exit (slot : nat)
| Die (slot : nat)
| Wait (ms : N).

Definition gone_from (slot : nat) (s : System) : System :=
  {| world := release slot (world s); procs := delete slot (procs s); next := next s |}.

(** Process identifiers are [u32]s and start ticks [u64]s; of two running processes no two
    have the same identifier. *)
Definition may_spawn (p t : Z) (s : System) : bool :=
  (0 <=? p)%Z && (p <? 2 ^ 32)%Z && (0 <=? t)%Z && (t <? 2 ^ 64)%Z
  && bool_decide (running_ticks p (procs s) = None).

Definition step (s : System) (a : action) : option System :=
  match a with
  | Spawn p t req =>
      if may_spawn p t s then
        Some {| world := world s;
                procs := <[next s := {| pid := p; ticks := t; code_left := program req |}]> (procs s);
                next := S (next s) |}
      else None
  | Run slot r =>
      pr ← procs s !! slot;
      match code_left pr with
      | Ret _ => None
      | Next c k =>
          '(x, w) ← perform s slot c r;
          Some {| world := w;
                  procs := <[slot := {| pid := pid pr; ticks := ticks pr; code_left := k x |}]> (procs s);
                  next := next s |}
      end
  | Exit slot =>
      pr ← procs s !! slot;
      match code_left pr with Ret _ => Some (gone_from slot s) | Next _ _ => None end
  | Die slot => _ ← procs s !! slot; Some (gone_from slot s)
  | Wait ms =>
      Some {| world := {| files := files (world s); holder := holder (world s);
                          clock := (clock (world s) + Z.of_N ms)%Z; log := log (world s) |};
              procs := procs s; next := next s |}
  end.

Fixpoint run (s : System) (actions : list action) : option System :=
  match actions with [] => Some s | a :: actions => s ← step s a; run s actions end.
End system.
