(* ===== verification/TeamProtocol.v ===== *)
(** * agent-teams: what an operation may rely on and must keep

    For one identifier [X] of which no message or fence expires before [N], and no message
    more than thirty days later: what a process knows about
    [X] between its calls, what each call demands and teaches, a weakest precondition over
    programs, and that every operation keeps to it.  [TeamFacts] shows the demands sound. *)
From S2P Require Import Prelude RustStr External AgentQueue TeamTime TeamModel TeamLedger TeamSystem.

Section entries.
Context `{JsonNumber}.

(** ** Reading what was set *)

Lemma str_field_set key x v key' kvs : v = Object kvs ->
  str_field (set_key key x v) key' = if (key =? key')%string then as_str x else str_field v key'.
Proof.
  intros ->. unfold str_field. cbn [set_key value_get mbind option_bind]. rewrite obj_get_insert.
  by destruct (key =? key')%string.
Qed.

Lemma str_field_object v key s : str_field v key = Some s -> exists kvs, v = Object kvs.
Proof. destruct v; try done. intros _. eauto. Qed.

Lemma set_key_object key x v kvs : v = Object kvs -> exists kvs', set_key key x v = Object kvs'.
Proof. intros ->. cbn. eauto. Qed.

Lemma time_field_set key x v key' kvs : v = Object kvs -> (key =? key')%string = false ->
  time_field (set_key key x v) key' = time_field v key'.
Proof. intros Hv Hk. unfold time_field. by rewrite (str_field_set _ _ _ _ kvs), Hk. Qed.
End entries.

Lemma entry_name_inj id id' : entry_name id = entry_name id' -> id = id'.
Proof.
  unfold entry_name. intros Heq. pose proof (proj2 (strip_suffix_Some ".json" (id +:+ ".json") id) eq_refl) as H1.
  rewrite Heq in H1. rewrite (proj2 (strip_suffix_Some ".json" (id' +:+ ".json") id') eq_refl) in H1. by injection H1.
Qed.

(** Names that are entries' names. *)
Lemma is_entry_file_name_spec name : is_entry_file_name name = true -> exists id, name = entry_name id.
Proof.
  unfold is_entry_file_name. destruct (strip_suffix ".json" name) as [id|] eqn:Hs; [|done].
  intros _. exists id. by apply strip_suffix_Some in Hs.
Qed.

Section protocol.
Context `{JsonNumber, !JsonFloat, !JsonU64Laws, !Sha2Crate}.

(** The identifier, a time before which none of its messages expires, and the process. *)
Variable X : string.
Variable N : Z.
Variable me my_ticks : Z.

Definition horizon : Z := (N + 30 * 86400000)%Z.

(** A time that may bound how long an entry of [X] is kept, and one of a message of [X]. *)
Definition late (expiry : option Z) : Prop := exists e, expiry = Some e /\ (N <= e)%Z.
Definition timely (expiry : option Z) : Prop := exists e, expiry = Some e /\ (N <= e <= horizon)%Z.

(** ** Entries *)

(** An entry names its identifier, and one of [X] does not expire before [N]. *)
Definition good (id : string) (v : value) : Prop :=
  str_field v "id" = Some id /\ (id = X -> late (time_field v "not_after")).
Definition good_at (name : string) (v : value) : Prop := forall id, name = entry_name id -> good id v.

(** The claimer an entry records. *)
Definition claimed_by (p t : Z) (v : value) : Prop :=
  value_get v "claimer_pid" ≫= as_u64 = Some p /\ value_get v "claimer_ticks" ≫= as_u64 = Some t.

Definition is_claim_of_X (name : string) (v : value) : bool :=
  (name =? entry_name X)%string && (entry_state v =? "claimed")%string.

(** What an operation says of when messages of [X] expire. *)
Definition expires_at (req : Request) : Prop :=
  match req with
  | AcceptRequest _ _ envelope =>
      default "" (str_field envelope "id") = X -> timely (time_field envelope "not_after")
  | FenceRequest _ id not_after _ => id = X -> late (parse_rfc3339_ms not_after)
  | _ => True
  end.

(** ** Knowledge *)

Record know := {
  locked : bool;
  (** While the lock is held: if [X] was ever recorded, its entry is there. *)
  fresh : bool;
  (** The clock has passed this. *)
  time : Z;
  (** A claimer of [X] had this identifier and start time. *)
  seen : option (Z * Z);
  (** No claimer of [X] is running, unless this process is one. *)
  gone : bool;
  (** This process claimed [X]; was told that the deliverer has none of it; handed it over. *)
  mine : bool;
  absent : bool;
  handed : bool;
}.

Definition start_know : know :=
  {| locked := false; fresh := false; time := 0; seen := None; gone := false; mine := false; absent := false;
     handed := false |}.

Definition know_lock (b : bool) (k : know) : know :=
  {| locked := b; fresh := false; time := time k; seen := seen k; gone := gone k; mine := mine k;
     absent := absent k; handed := handed k |}.
Definition know_time (t : Z) (k : know) : know :=
  {| locked := locked k; fresh := fresh k || (locked k && (t <? horizon)%Z); time := Z.max (time k) t;
     seen := seen k; gone := gone k; mine := mine k; absent := absent k; handed := handed k |}.
Definition know_seen (pt : Z * Z) (k : know) : know :=
  {| locked := locked k; fresh := fresh k; time := time k; seen := Some pt; gone := gone k; mine := mine k;
     absent := absent k; handed := handed k |}.
Definition know_gone (k : know) : know :=
  {| locked := locked k; fresh := fresh k; time := time k; seen := seen k; gone := true; mine := mine k;
     absent := absent k; handed := handed k |}.
Definition know_mine (k : know) : know :=
  {| locked := locked k; fresh := fresh k; time := time k; seen := seen k; gone := gone k; mine := true;
     absent := absent k; handed := handed k |}.
Definition know_absent (k : know) : know :=
  {| locked := locked k; fresh := fresh k; time := time k; seen := seen k; gone := gone k; mine := mine k;
     absent := true; handed := handed k |}.
Definition know_handed (k : know) : know :=
  {| locked := locked k; fresh := fresh k; time := time k; seen := seen k; gone := gone k; mine := mine k;
     absent := absent k; handed := true |}.

(** What reading a file of this value teaches. *)
Inductive learns (name : string) (v : value) (k : know) : know -> Prop :=
| learns_nothing : is_claim_of_X name v = false -> learns name v k k
| learns_claimer p t : is_claim_of_X name v = true -> claimed_by p t v -> learns name v k (know_seen (p, t) k).

(** ** What a call demands and teaches *)

Definition rule (k : know) (c : call) : (know -> ret_of c -> Prop) -> Prop :=
  match c as c return (know -> ret_of c -> Prop) -> Prop with
  | LockLedger => fun Q => (forall e, Q k (Err e)) /\ Q (know_lock true k) (Ok ())
  | UnlockLedger => fun Q => Q (know_lock false k) ()
  | ReadJson name => fun Q => Q k None /\ (forall v k', good_at name v -> learns name v k k' -> Q k' (Some v))
  | WriteNewAtomic name v => fun Q =>
      good_at name v
      /\ (is_claim_of_X name v = true -> locked k = true /\ fresh k = true /\ claimed_by me my_ticks v)
      /\ (forall e, Q k (Err e)) /\ Q k (Ok false)
      /\ Q (if is_claim_of_X name v then know_mine k else k) (Ok true)
  | WriteJsonAtomic name v => fun Q =>
      good_at name v /\ is_claim_of_X name v = false /\ (forall r, Q k r)
  | RemoveFile name => fun Q =>
      (name = entry_name X -> locked k = true /\ fresh k = false /\ (horizon <= time k)%Z) /\ Q k ()
  | NowUnixMs => fun Q => forall t, (time k <= t)%Z -> Q (know_time t k) t
  | ProcessId => fun Q =>
      Q (match seen k with Some (p, _) => if decide (p = me) then know_gone k else k | None => k end) me
  | IdentityOf p => fun Q => forall o, (p = me -> o = Some my_ticks) ->
      Q (match seen k with
         | Some (q, t) => if decide (p = q /\ o <> Some t) then know_gone k else k
         | None => k end) o
  | HandOver id _ _ => fun Q =>
      (id = X -> handed k = false /\ (mine k || absent k && gone k = true))
      /\ (forall h, Q (if decide (id = X) then know_handed k else k) h)
  | Contains id => fun Q =>
      (id = X -> gone k = true /\ mine k = false)
      /\ (forall o, o <> Some false -> Q k o) /\ Q (if decide (id = X) then know_absent k else k) (Some false)
  | _ => fun Q => forall r, Q k r
  end.

Fixpoint wp {A} (k : know) (p : prog A) (Q : know -> A -> Prop) : Prop :=
  match p with
  | Ret a => Q k a
  | Next c f => rule k c (fun k' r => wp k' (f r) Q)
  end.

Lemma rule_mono k c (Q Q' : know -> ret_of c -> Prop) :
  rule k c Q -> (forall k' r, Q k' r -> Q' k' r) -> rule k c Q'.
Proof. destruct c; cbn; intros; intuition eauto. Qed.

Lemma prog_wp_mono {A} k (p : prog A) (Q Q' : know -> A -> Prop) :
  wp k p Q -> (forall k' a, Q k' a -> Q' k' a) -> wp k p Q'.
Proof.
  intros Hp HQ. revert k Hp. induction p as [a|c f IH]; intros k; cbn [wp]; [apply HQ|].
  intros Hr. eapply rule_mono; [exact Hr|]. cbn. intros k' r. apply IH.
Qed.

Lemma prog_wp_bind {A B} k (p : prog A) (f : A -> prog B) Q :
  wp k p (fun k' a => wp k' (f a) Q) -> wp k (p ≫= f) Q.
Proof.
  revert k. induction p as [a|c g IH]; intros k; [done|]. cbn [wp mbind prog_bind].
  intros Hr. eapply rule_mono; [exact Hr|]. cbn. intros k' r. apply IH.
Qed.

Lemma prog_wp_ret {A} k (a : A) (Q : know -> A -> Prop) : Q k a -> wp k (mret a) Q.
Proof. done. Qed.

Lemma wp_trigger k c Q : rule k c Q -> wp k (trigger c) Q.
Proof. done. Qed.

Lemma wp_call {A} k c (f : ret_of c -> prog A) Q :
  rule k c (fun k' r => wp k' (f r) Q) -> wp k (trigger c ≫= f) Q.
Proof. intros Hr. by apply prog_wp_bind, wp_trigger. Qed.

Lemma wp_bind_ok {A B} k (p : prog (result DataError A)) (f : A -> prog (result DataError B)) Q :
  wp k p (fun k' r => match r with Ok a => wp k' (f a) Q | Err e => Q k' (Err e) end) -> wp k (bind_ok p f) Q.
Proof. intros Hp. apply prog_wp_bind. eapply prog_wp_mono; [exact Hp|]. intros k' [a|e]; done. Qed.

Lemma wp_bind_locked {A B} k (p : prog (result DataError A)) (f : A -> prog (result DataError B)) Q :
  wp k p (fun k' r => match r with Ok a => wp k' (f a) Q | Err e => Q (know_lock false k') (Err e) end) ->
  wp k (bind_locked p f) Q.
Proof. intros Hp. apply prog_wp_bind. eapply prog_wp_mono; [exact Hp|]. intros k' [a|e]; done. Qed.
End protocol.
#[global] Arguments wp : simpl never.
