(* ===== verification/TeamOps.v ===== *)
(** * agent-teams: every operation keeps to the protocol *)
From S2P Require Import Prelude RustStr External AgentQueue TeamTime TeamModel TeamLedger TeamSystem TeamProtocol.

Ltac call := apply wp_call; cbn [TeamProtocol.rule].
Ltac call_ok := apply wp_bind_ok, wp_trigger; cbn [TeamProtocol.rule].
Ltac call_locked := apply wp_bind_locked, wp_trigger; cbn [TeamProtocol.rule].

Section ops.
Context `{JsonNumber, !JsonFloat, !JsonU64Laws, !Sha2Crate}.
Variable X : string.
Variable N : Z.
Variable me my_ticks : Z.
(** No name of another entry's backup is the name of [X]'s entry. *)
Hypothesis HX : contains (entry_name X) ".json." = false.
Hypothesis Hme : (0 <= me < 2 ^ 64)%Z.
Hypothesis Hticks : (0 <= my_ticks < 2 ^ 64)%Z.

Abbreviation wp := (wp X N me my_ticks).
Abbreviation rule := (rule X N me my_ticks).
Abbreviation good := (good X N).
Abbreviation good_at := (good_at X N).
Abbreviation learns := (learns X).
Abbreviation is_claim_of_X := (is_claim_of_X X).

(** What an operation that neither claims nor hands over does to its knowledge. *)
Record after (k k' : know) : Prop := {
  after_mine : mine k' = mine k;
  after_absent : absent k' = absent k;
  after_handed : handed k' = handed k;
  after_time : (time k <= time k')%Z;
  after_gone : gone k = true -> gone k' = true;
}.

(** and one that keeps the lock, or its absence, too. *)
Record calm (k k' : know) : Prop := {
  calm_after : after k k';
  calm_locked : locked k' = locked k;
  calm_fresh : fresh k = true -> fresh k' = true;
}.

(** and one that does not look at the clock. *)
Record still (k k' : know) : Prop := { still_calm : calm k k'; still_fresh : fresh k' = fresh k }.

#[local] Instance after_preorder : PreOrder after.
Proof.
  split; [by split|]. intros a b c [? ? ? ? ?] [? ? ? ? ?]. split; try congruence; auto. by etrans.
Qed.
#[local] Instance calm_preorder : PreOrder calm.
Proof.
  split; [by split|]. intros a b c [? ? ?] [? ? ?]. split; try congruence; auto. by etrans.
Qed.

#[local] Instance still_preorder : PreOrder still.
Proof. split; [by split|]. intros a b c [? ?] [? ?]. split; [by etrans|congruence]. Qed.

Lemma calm_time t k : calm k (know_time N t k).
Proof. split; [split|..]; cbn; try done; [lia|]. by intros ->. Qed.
Lemma calm_seen pt k : calm k (know_seen pt k).
Proof. by split. Qed.
Lemma calm_gone k : calm k (know_gone k).
Proof. by split. Qed.
Lemma still_learns name v k k' : learns name v k k' -> still k k'.
Proof. by destruct 1. Qed.
Lemma after_lock b k : after k (know_lock b k).
Proof. by split. Qed.
Lemma calm_to_after k k' : calm k k' -> after k k'.
Proof. by destruct 1. Qed.

(** ** Reading *)

Lemma wp_read k name Q :
  Q k None -> (forall v k', good_at name v -> learns name v k k' -> still k k' -> Q k' (Some v)) ->
  wp k (trigger (ReadJson name)) Q.
Proof. intros HN HS. cbn. split; [done|]. intros v k' Hv Hl. apply HS; [done..|]. by eapply still_learns. Qed.

Lemma wp_filter_map {A B} (P : B -> Prop) (f : A -> prog (option B)) l k Q :
  (forall x k, x ∈ l -> wp k (f x) (fun k' y => still k k' /\ forall b, y = Some b -> P b)) ->
  (forall k' ys, still k k' -> (forall b, b ∈ ys -> P b) -> Q k' ys) ->
  wp k (filter_map_prog f l) Q.
Proof.
  intros Hf. revert k Q. induction l as [|x l IH]; intros k Q HQ; cbn [filter_map_prog].
  - apply prog_wp_ret, HQ; [done|]. by intros b ?%not_elem_of_nil.
  - apply prog_wp_bind. eapply prog_wp_mono; [apply Hf; left|]. cbn. intros k1 y [Hk1 Hy].
    apply prog_wp_bind. apply IH; [intros; apply Hf; by right|]. intros k2 ys Hk2 Hys. apply prog_wp_ret, HQ; [by etrans|].
    destruct y as [y|]; [|done]. intros b [->|Hb]%elem_of_cons; auto.
Qed.

Lemma wp_read_entries k names Q :
  (forall k' es, still k k' -> (forall e, e ∈ es -> exists id, good id e) -> Q k' es) ->
  wp k (filter_map_prog (fun name => trigger (ReadJson name)) (List.filter is_entry_file_name names)) Q.
Proof.
  intros HQ. apply (wp_filter_map (fun e => exists id, good id e)); [|exact HQ].
  intros name k0 Hname. apply list_elem_of_In, filter_In in Hname as [_ Hname].
  apply is_entry_file_name_spec in Hname as [id ->]. apply wp_read; [by split|].
  intros v k' Hv _ Hk. split; [done|]. intros b [= <-]. exists id. by apply Hv.
Qed.

Lemma wp_list_entries k Q :
  (forall k' es, still k k' -> (forall e, e ∈ es -> exists id, good id e) -> Q k' es) -> wp k list_entries Q.
Proof.
  intros HQ. call. intros [names|].
  - apply prog_wp_bind, wp_read_entries. intros k' es Hk Hes. apply prog_wp_ret, HQ; [done|].
    intros e He. apply Hes. by rewrite sort_by_key_perm in He.
  - apply HQ; [done|]. by intros e ?%not_elem_of_nil.
Qed.

(** ** Pruning *)

Lemma contains_app p a b : contains (a +:+ p +:+ b) p = true.
Proof.
  induction a as [|c a IH].
  - change ("" +:+ p +:+ b) with (p +:+ b). destruct (p +:+ b) eqn:Hpb; cbn [contains];
      rewrite <- Hpb, (proj2 (starts_with_spec _ _)); eauto.
  - rewrite str_app_cons. cbn [contains]. by rewrite IH, orb_true_r.
Qed.

Lemma not_backup id : is_backup_of (entry_name id) (entry_name X) = false.
Proof.
  unfold is_backup_of. destruct (starts_with (entry_name X) (entry_name id +:+ ".")) eqn:Hs; [|done].
  apply starts_with_spec in Hs as [r Hr]. exfalso.
  assert (contains (entry_name X) ".json." = true) as Hc; [|by rewrite HX in Hc].
  rewrite Hr. unfold entry_name. rewrite !str_app_assoc.
  change (".json" +:+ "." +:+ r) with (".json." +:+ r). apply contains_app.
Qed.

Lemma prog_wp_for_each {A} (f : A -> prog ()) l k Q :
  (forall x k, x ∈ l -> wp k (f x) (fun k' _ => still k k')) ->
  (forall k', still k k' -> Q k' ()) -> wp k (for_each l f) Q.
Proof.
  intros Hf. revert k Q. induction l as [|x l IH]; intros k Q HQ; cbn [for_each]; [by apply prog_wp_ret, HQ|].
  apply prog_wp_bind. eapply prog_wp_mono; [apply Hf; left|]. cbn. intros k1 [] Hk1.
  apply IH; [intros; apply Hf; by right|]. intros k2 Hk2. apply HQ. by etrans.
Qed.

Lemma wp_for_each_ok {A} (f : A -> prog (result DataError ())) l k Q :
  (forall x k, x ∈ l -> wp k (f x) (fun k' _ => calm k k')) ->
  (forall k' r, calm k k' -> Q k' r) -> wp k (for_each_ok l f) Q.
Proof.
  intros Hf. revert k Q. induction l as [|x l IH]; intros k Q HQ; cbn [for_each_ok]; [by apply prog_wp_ret, HQ|].
  apply wp_bind_ok. eapply prog_wp_mono; [apply Hf; left|]. cbn. intros k1 [[]|e] Hk1; [|by apply HQ].
  apply IH; [intros; apply Hf; by right|]. intros k2 r Hk2. apply HQ. by etrans.
Qed.

Lemma wp_remove_entry_files id k Q :
  (id = X -> locked k = true /\ fresh k = false /\ (horizon N <= time k)%Z) ->
  (forall k', still k k' -> Q k' ()) -> wp k (remove_entry_files id) Q.
Proof.
  intros Hid HQ. unfold remove_entry_files. call. split; [intros Hn%entry_name_inj; by apply Hid|].
  intros [names|]; [|by apply HQ]. apply prog_wp_for_each; [|exact HQ].
  intros name k0 Hname. apply list_elem_of_In, filter_In in Hname as [_ Hname]. cbn. split; [|done].
  intros ->. by rewrite not_backup in Hname.
Qed.

(** An entry that can be pruned has reached its horizon. *)
Lemma prunable_horizon now v id id' : good id v -> prunable now v = Some id' ->
  id' = id /\ (id = X -> (horizon N <= now)%Z).
Proof.
  intros [Hid Hna]. unfold prunable. rewrite Hid. cbn [mbind option_bind].
  destruct (_ && _) eqn:Hc; [|done]. intros [= <-]. split; [done|]. intros HidX. specialize (Hna HidX).
  apply andb_true_iff in Hc as [_ Hc]. unfold retention_horizon_ms in Hc. unfold time_field in Hna.
  destruct Hna as (e & Hna & He). destruct (str_field v "not_after") as [na|]; [|done].
  cbn [mbind option_bind] in Hna, Hc. rewrite Hna in Hc. cbn in Hc. unfold horizon. lia.
Qed.

Lemma wp_prune_entries now entries removed k Q :
  locked k = true -> fresh k = false -> (now <= time k)%Z -> (forall e, e ∈ entries -> exists id, good id e) ->
  (forall k' n, still k k' -> Q k' n) -> wp k (prune_entries now entries removed) Q.
Proof.
  intros Hl Hf Hnow. revert k removed Q Hl Hf Hnow.
  induction entries as [|e es IH]; intros k removed Q Hl Hf Hnow Hes HQ; cbn [prune_entries]; [by apply prog_wp_ret, HQ|].
  destruct (prunable now e) as [id|] eqn:Hp; [|apply IH; auto; intros; apply Hes; by right].
  destruct (Hes e) as (id' & He); [left|]. destruct (prunable_horizon _ _ _ _ He Hp) as [-> Hhor].
  apply prog_wp_bind, wp_remove_entry_files; [intros Hid; split_and!; [done..|]; specialize (Hhor Hid); lia|].
  intros k1 Hk1. apply IH.
  - by rewrite (calm_locked _ _ (still_calm _ _ Hk1)).
  - by rewrite (still_fresh _ _ Hk1).
  - etrans; [exact Hnow|apply Hk1].
  - intros e' He'. apply Hes. by right.
  - intros k2 n Hk2. apply HQ. by etrans.
Qed.

Lemma wp_prune_team now k Q :
  (now <= time k)%Z -> (forall k' r, after k k' -> Q k' r) -> wp k (prune_team now) Q.
Proof.
  intros Hnow HQ. unfold prune_team. call_ok. split; [by intros; apply HQ|].
  apply prog_wp_bind, wp_list_entries. intros k1 es Hk1 Hes. apply prog_wp_bind, wp_prune_entries; [| | |done|].
  - by rewrite (calm_locked _ _ (still_calm _ _ Hk1)).
  - by rewrite (still_fresh _ _ Hk1).
  - etrans; [exact Hnow|apply Hk1].
  - intros k2 n Hk2. call. apply HQ. etrans; [apply (after_lock true)|]. etrans; [apply Hk1|].
    etrans; [apply Hk2|apply after_lock].
Qed.

(** ** Writing *)

Lemma good_at_name id v : good id v -> good_at (entry_name id) v.
Proof. by intros Hv id' <-%entry_name_inj. Qed.

(** A value with an identifier, whose state is set. *)
Lemma good_set id key x v : (key =? "id")%string = false -> (key =? "not_after")%string = false ->
  good id v -> good id (set_key key x v).
Proof.
  intros Hi Hn [Hid Hna]. destruct (str_field_object _ _ _ Hid) as [kvs Hv]. split.
  - by rewrite (str_field_set _ _ _ _ kvs), Hi.
  - by rewrite (time_field_set _ _ _ _ kvs).
Qed.

Lemma state_set id s v : good id v -> entry_state (set_key "state" (VString s) v) = s.
Proof.
  intros [Hid _]. destruct (str_field_object _ _ _ Hid) as [kvs Hv]. unfold entry_state.
  by rewrite (str_field_set _ _ _ _ kvs).
Qed.

Lemma state_set_other id key x v : (key =? "state")%string = false -> good id v ->
  entry_state (set_key key x v) = entry_state v.
Proof.
  intros Hk [Hid _]. destruct (str_field_object _ _ _ Hid) as [kvs Hv]. unfold entry_state.
  by rewrite (str_field_set _ _ _ _ kvs), Hk.
Qed.

Lemma not_claim name v : entry_state v <> "claimed" -> is_claim_of_X name v = false.
Proof. intros Hv. unfold TeamProtocol.is_claim_of_X. by rewrite (proj2 (String.eqb_neq _ _) Hv), andb_false_r. Qed.

Lemma wp_write id v k Q : good id v -> entry_state v <> "claimed" -> (forall r, Q k r) ->
  wp k (trigger (WriteJsonAtomic (entry_name id) v)) Q.
Proof. intros Hv Hs HQ. apply wp_trigger. split; [by apply good_at_name|]. split; [by apply not_claim|done]. Qed.

Ltac good_entry := repeat (apply good_set; [reflexivity..|]); eassumption.
Ltac state_neq :=
  repeat (erewrite state_set_other; [|reflexivity|good_entry]); erewrite state_set; [done|good_entry].

(** ** Supersession *)

Lemma wp_tombstone target id reason k (Q : know -> () -> Prop) : Q k () -> wp k (write_tombstone target id reason) Q.
Proof.
  intros HQ. unfold write_tombstone. destruct (queue_dir target), (inbox_dir target); try done; by intros [].
Qed.

Lemma wp_supersede_one target envelope name k Q :
  (forall k' r, calm k k' -> Q k' r) -> wp k (supersede_one target envelope name) Q.
Proof.
  intros HQ. unfold supersede_one. destruct (is_entry_file_name name) eqn:Hn; cbn [negb]; [|by apply HQ].
  apply is_entry_file_name_spec in Hn as [id ->]. apply prog_wp_bind, wp_read; [by apply HQ|].
  intros v k1 Hv _ [Hk1 _]. specialize (Hv id eq_refl). destruct (_ || _); [by apply HQ|].
  destruct (superseded_by envelope v); [|by apply HQ]. apply wp_bind_ok, (wp_write id); [good_entry|state_neq|].
  intros [[]|e]; [|by apply HQ]. apply prog_wp_bind, wp_tombstone. by apply HQ.
Qed.

Lemma wp_apply_supersede target envelope k Q :
  (forall k' r, calm k k' -> Q k' r) -> wp k (apply_supersede target envelope) Q.
Proof.
  intros HQ. unfold apply_supersede. call. intros [names|]; [|by apply HQ].
  apply wp_for_each_ok; [|done]. intros name k0 _. by apply wp_supersede_one.
Qed.

(** ** The end of a hand-over *)

Lemma wp_finish_handover id h k : wp k (finish_handover id h) (fun _ _ => True).
Proof.
  unfold finish_handover. call_ok. split; [done|]. apply prog_wp_bind, wp_read; [by call|].
  intros v k1 Hv _ _. specialize (Hv id eq_refl). destruct (_ =? _)%string; [by call|].
  destruct h as [|reason|reason]; call; intros now _; (apply wp_bind_locked, (wp_write id); [good_entry|state_neq|]);
    intros [[]|e]; done.
Qed.

Lemma wp_recover_claim ctx envelope existing k :
  let id := default "" (str_field envelope "id") in
  good id existing -> (id = X -> gone k = true /\ mine k = false /\ handed k = false) ->
  wp k (recover_claim ctx envelope existing) (fun _ _ => True).
Proof.
  intros id Hex Hk. unfold recover_claim. fold id. call. split; [naive_solver|].
  assert (Hwrite : forall s d k a, s <> "claimed" ->
    wp k (bind_ok (trigger (WriteJsonAtomic (entry_name id)
            (set_key "detail" (VString d) (set_key "state" (VString s) existing)))) (fun _ => mret (Ok a)))
       (fun _ (_ : result DataError AcceptAnswer) => True)).
  { intros s d k0 a Hs. apply wp_bind_ok, (wp_write id); [good_entry|state_neq|]. by intros [[]|e]. }
  split; [intros [[]|] Ho; (done || by apply Hwrite)|]. call. split.
  - intros HidX. destruct (Hk HidX) as (Hg & Hm & Hh). rewrite decide_True by done. cbn. rewrite Hg. by rewrite orb_true_r.
  - intros h. apply wp_finish_handover.
Qed.

(** ** Accept, where the identifier is recorded *)

Lemma calm_process k : calm k (match seen k with Some (p, _) => if decide (p = me) then know_gone k else k | None => k end).
Proof. destruct (seen k) as [[p t]|]; [|done]. case_decide; [apply calm_gone|done]. Qed.
Lemma calm_identity p o k :
  calm k (match seen k with Some (q, t) => if decide (p = q /\ o <> Some t) then know_gone k else k | None => k end).
Proof. destruct (seen k) as [[q t]|]; [|done]. case_decide; [apply calm_gone|done]. Qed.

Lemma wp_claimer_alive v k Q :
  (forall k' b, calm k k' -> (forall p t, claimed_by p t v -> seen k = Some (p, t) -> b = false -> gone k' = true) ->
   Q k' b) ->
  wp k (claimer_alive v) Q.
Proof.
  intros HQ. unfold claimer_alive. destruct (value_get v "claimer_pid" ≫= as_u64) as [p|] eqn:Hp.
  2: { apply prog_wp_ret, HQ; [done|]. intros q t [Hq _]. by rewrite Hp in Hq. }
  call. pose proof (calm_process k) as Hcalm.
  destruct (Z.eqb_spec p me) as [->|Hne].
  { apply prog_wp_ret, HQ; [done|]. intros q t [Hq _] Hs _. rewrite Hp in Hq. injection Hq as <-.
    by rewrite Hs, decide_True. }
  set (k1 := match seen k with Some _ => _ | None => _ end) in *.
  assert (Hk1 : forall t, seen k = Some (p, t) -> seen k1 = Some (p, t)).
  { intros t Hs. subst k1. by rewrite Hs, decide_False. }
  clearbody k1. call. intros o _. pose proof (calm_identity p o k1) as Hcalm2.
  apply prog_wp_ret, HQ; [by etrans|]. intros q t [Hq Ht] Hs Hb. rewrite Hp in Hq. injection Hq as <-.
  rewrite (Hk1 _ Hs), decide_True; [done|]. split; [done|]. intros ->. by rewrite Ht, Z.eqb_refl in Hb.
Qed.

Lemma wp_expire_claim id k : wp k (expire_claim id) (fun _ _ => True).
Proof.
  unfold expire_claim. call_ok. split; [done|]. apply prog_wp_bind, wp_read; [by call|].
  intros v k1 Hv _ _. specialize (Hv id eq_refl). apply wp_bind_locked, (wp_write id); [good_entry|state_neq|].
  intros [[]|e]; [by call|done].
Qed.

Lemma wp_accept_known ctx envelope existing k k0 :
  let id := default "" (str_field envelope "id") in
  good id existing -> learns (entry_name id) existing k0 k -> mine k = false -> handed k = false ->
  wp k (accept_known ctx envelope existing id) (fun _ _ => True).
Proof.
  intros id Hex Hl Hm Hh. unfold accept_known. call. destruct (negb _); [done|].
  destruct (entry_state existing =? "claimed")%string eqn:Hs.
  2: { destruct (_ =? "accepted")%string; [by call|done]. }
  apply prog_wp_bind, wp_claimer_alive. intros k1 [] Hk1 Hgone; [done|].
  assert (Hready : id = X -> gone k1 = true /\ mine k1 = false /\ handed k1 = false).
  { intros HidX. destruct Hk1 as [[Hmine _ Hhanded _ _] _ _]. cbn in Hmine, Hhanded. split; [|by split; congruence].
    inversion Hl as [Hc Heq|p t Hc Hp Heq].
    - unfold TeamProtocol.is_claim_of_X in Hc. by rewrite HidX, String.eqb_refl, Hs in Hc.
    - apply (Hgone p t); [done| |done]. by rewrite <- Heq. }
  apply prog_wp_bind. destruct (0 <? _)%Z; [call|].
  - intros now _. apply prog_wp_ret. destruct (_ <=? now)%Z; [apply wp_expire_claim|]. by apply wp_recover_claim.
  - by apply prog_wp_ret, wp_recover_claim.
Qed.

(** ** Accept, where the identifier is new *)

(** The state a refusal records. *)
Definition settles (refusal : option (string * string)) : Prop :=
  match refusal with Some (s, _) => s <> "claimed" | None => True end.

Lemma wp_rate_refusal ctx sender now k Q :
  (forall k' r, calm k k' -> settles r -> Q k' r) -> wp k (rate_refusal ctx sender now) Q.
Proof.
  intros HQ. unfold rate_refusal. destruct (0 <? _)%Z; [|by apply HQ].
  apply prog_wp_bind, wp_list_entries. intros k1 es [Hk1 _] _. apply HQ; [done|]. by destruct (_ <=? _)%Z.
Qed.

Lemma wp_topic_refusal envelope sender created k Q :
  (forall k' r, calm k k' -> settles r -> Q k' r) -> wp k (topic_refusal envelope sender created) Q.
Proof.
  intros HQ. unfold topic_refusal. destruct (str_field envelope "topic") as [topic|]; [|by apply HQ].
  unfold newest_on_topic.
  assert (Hend : forall k' newer, calm k k' ->
    wp k' (mret match newer with
      | Some newer =>
          let seq := default 0%Z (value_get (value_index envelope "from") "seq" ≫= as_i64) in
          if order_lt (created, seq) newer then
            Some ("superseded", "a newer message on topic " +:+ topic +:+ " was already taken for delivery")
          else None
      | None => None
      end) Q).
  { intros k' newer Hk'. apply HQ; [done|]. destruct newer as [newer|]; [|done]. cbv zeta. by destruct (order_lt _ _). }
  apply prog_wp_bind. call. intros [names|]; [|by apply Hend].
  apply prog_wp_bind, wp_read_entries. intros k' es [Hk' _] _. by apply Hend.
Qed.

Lemma wp_policy_refusal ctx envelope now k Q :
  (forall k' r, calm k k' -> settles r ->
   (r = None -> (now < default 0 (time_field envelope "not_after"))%Z) -> Q k' r) ->
  wp k (policy_refusal ctx envelope now) Q.
Proof.
  intros HQ. unfold policy_refusal. apply prog_wp_bind.
  apply (prog_wp_mono _ _ _ _ _ _ (fun k' _ => k' = k)).
  { destruct (accepts _ _ _); [done|]. unfold same_host_coordinator. by destruct (_ && _). }
  intros k' [] ->; cbn [negb]; [|by apply HQ]. destruct (max_bytes _ <? _); [by apply HQ|].
  destruct (Z.leb_spec (default 0%Z (time_field envelope "not_after")) now) as [|Hlt]; [by apply HQ|].
  destruct (_ <? _)%Z; [by apply HQ|]. apply prog_wp_bind, wp_rate_refusal. intros k1 [r|] Hk1 Hr; [by apply HQ|].
  apply wp_topic_refusal. intros k2 r2 Hk2 Hr2. apply HQ; [by etrans|done|done].
Qed.

Lemma good_new id kvs : str_field (Object kvs) "id" = Some id ->
  (id = X -> late N (time_field (Object kvs) "not_after")) -> good id (Object kvs).
Proof. by split. Qed.

Lemma timely_late o : timely N o -> late N o.
Proof. intros (e & He & ? & _). by exists e. Qed.

(** The times of an entry made from an envelope. *)
Lemma time_of_json envelope key : as_str (json_option (value_get envelope key)) = str_field envelope key.
Proof. unfold str_field, json_option. by destruct (value_get envelope key). Qed.

Lemma wp_write_terminal id s envelope d k Q :
  s <> "claimed" -> (id = X -> late N (time_field envelope "not_after")) ->
  (forall k' r, calm k k' -> Q k' r) -> wp k (write_terminal id s envelope d) Q.
Proof.
  intros Hs Hna HQ. unfold write_terminal. call. intros now _. pose proof (calm_time now k) as Hk1.
  apply wp_bind_ok, wp_trigger. set (v := Object _). assert (Hv : good id v).
  { apply good_new; [done|]. intros HidX. unfold time_field, str_field. cbn [value_get obj_get String.eqb Ascii.eqb Bool.eqb mbind option_bind].
    rewrite time_of_json. by apply Hna. }
  cbn [TeamProtocol.rule]. rewrite (not_claim _ v) by exact Hs. split_and!; [by apply good_at_name|done|..]; intros; by apply HQ.
Qed.

Lemma claim_entry_good ctx target envelope id p t boot now :
  (id = X -> late N (time_field envelope "not_after")) -> good id (claim_entry ctx target envelope id p t boot now).
Proof.
  intros Hna. apply good_new; [done|]. intros HidX. unfold time_field, str_field.
  cbn [value_get obj_get String.eqb Ascii.eqb Bool.eqb mbind option_bind]. rewrite time_of_json. by apply Hna.
Qed.

Lemma claim_entry_claimed ctx target envelope id boot now :
  claimed_by me my_ticks (claim_entry ctx target envelope id me (Some my_ticks) boot now).
Proof.
  split; cbn [value_get claim_entry obj_get String.eqb Ascii.eqb Bool.eqb mbind option_bind json_option default from_option fmap
    option_fmap option_map as_u64]; by apply number_as_u64_of.
Qed.

Lemma wp_claim_and_hand_over ctx target envelope id now k :
  locked k = true -> mine k = false -> handed k = false ->
  (id = X -> fresh k = true /\ late N (time_field envelope "not_after")) ->
  wp k (claim_and_hand_over ctx target envelope id now) (fun _ _ => True).
Proof.
  intros Hl Hm Hh HX'. unfold claim_and_hand_over. call. pose proof (calm_process k) as Hc. set (k1 := match seen k with Some _ => _ | None => _ end) in *.
  call. pose proof (calm_process k1) as Hc1. set (k2 := match seen k1 with Some _ => _ | None => _ end) in *.
  call. intros o Ho. pose proof (calm_identity me o k2) as Hc2. rewrite (Ho eq_refl) in *.
  set (k3 := match seen k2 with Some _ => _ | None => _ end) in *.
  assert (calm k k3) as [[Hm3 _ Hh3 _ _] Hl3 Hf3] by (etrans; [exact Hc|]; by etrans).
  clearbody k3. clear Hc Hc1 Hc2 k1 k2. call. intros boot. call_locked.
  set (v := claim_entry _ _ _ _ _ _ _ _). split_and!.
  - apply good_at_name, claim_entry_good. naive_solver.
  - intros Hclaim. apply andb_true_iff in Hclaim as [Hn%String.eqb_eq%entry_name_inj _].
    split_and!; [congruence|apply Hf3; naive_solver|apply claim_entry_claimed].
  - done.
  - call. cbn [negb]. apply prog_wp_bind, wp_read; done.
  - call. cbn [negb]. apply wp_bind_ok, wp_apply_supersede. intros k4 [[]|e] Hk4; [|done].
    call. split; [|intros h; apply wp_finish_handover]. intros ->.
    assert (is_claim_of_X (entry_name X) v = true) as Hv by (unfold TeamProtocol.is_claim_of_X; by rewrite String.eqb_refl).
    rewrite Hv in Hk4. destruct Hk4 as [[Hm4 _ Hh4 _ _] _ _]. cbn in Hm4, Hh4. rewrite Hm4. split; [congruence|done].
Qed.

Lemma wp_accept_new ctx target envelope id k :
  locked k = true -> mine k = false -> handed k = false ->
  (id = X -> timely N (time_field envelope "not_after")) ->
  wp k (accept_new ctx target envelope id) (fun _ _ => True).
Proof.
  intros Hl Hm Hh Hna. unfold accept_new. call. intros [reason|].
  { call. intros now _. call. intros _. call. intros _. by call. }
  call. intros now Hnow. apply prog_wp_bind, wp_policy_refusal. intros k1 r [[Hm1 _ Hh1 _ _] Hl1 Hf1] Hset Hlt.
  cbn in Hm1, Hh1, Hl1, Hf1. destruct r as [[s d]|].
  - apply wp_bind_locked, wp_write_terminal; [exact Hset|intros; by apply timely_late, Hna|]. intros k2 [[]|e] Hk2; [by call|done].
  - apply wp_claim_and_hand_over; [congruence..|]. intros HidX. split; [|by apply timely_late, Hna].
    apply Hf1. rewrite Hl. specialize (Hlt eq_refl). destruct (Hna HidX) as (e & He & Hrange).
    rewrite He in Hlt. cbn in Hlt.
    rewrite (proj2 (Z.ltb_lt now (horizon N))) by lia. by rewrite orb_true_r.
Qed.

Lemma wp_accept ctx target envelope k :
  mine k = false -> handed k = false ->
  (default "" (str_field envelope "id") = X -> timely N (time_field envelope "not_after")) ->
  wp k (accept ctx target envelope) (fun _ _ => True).
Proof.
  intros Hm Hh Hna. unfold accept. call. intros now Hnow. apply prog_wp_bind, wp_prune_team; [cbn; lia|].
  intros k1 _ [Hm1 _ Hh1 _ _]. cbn in Hm1, Hh1. destruct (route_refusal ctx envelope); [done|].
  call_ok. split; [done|]. apply prog_wp_bind, wp_read.
  - apply wp_accept_new; [done|cbn; congruence..|exact Hna].
  - intros v k2 Hv Hl [[[Hm2 _ Hh2 _ _] _ _] _]. cbn in Hm2, Hh2.
    eapply wp_accept_known; [by apply Hv|exact Hl|congruence..].
Qed.

(** ** The other operations *)

Lemma wp_fence team id not_after body k :
  (id = X -> late N (parse_rfc3339_ms not_after)) -> wp k (fence team id not_after body) (fun _ _ => True).
Proof.
  intros Hna. unfold fence. destruct (_ || _); [done|]. call_ok. split; [done|]. apply prog_wp_bind, wp_read; [|intros; by call].
  call. intros now _. call_locked. set (v := Object _).
  assert (good id v) as Hv by by apply good_new.
  rewrite (not_claim _ v) by done. split_and!; [by apply good_at_name|done|done|..]; call; cbn [negb];
    [apply prog_wp_bind, wp_read|]; done.
Qed.

Lemma wp_retract target id k : wp k (retract target id) (fun _ _ => True).
Proof.
  unfold retract. call_ok. split; [done|]. apply prog_wp_bind, wp_read; [by call|]. intros v k1 Hv _ _.
  specialize (Hv id eq_refl). destruct (existsb _ _); [|by call].
  apply wp_bind_locked, (wp_write id); [good_entry|state_neq|]. intros [[]|e]; [|done].
  call. by apply prog_wp_bind, wp_tombstone.
Qed.

Lemma wp_resolve id delivered k : wp k (resolve id delivered) (fun _ _ => True).
Proof.
  unfold resolve. apply prog_wp_bind, wp_read; [done|]. intros v k1 Hv _ _. specialize (Hv id eq_refl).
  destruct delivered; call; intros now _; (apply (wp_write id); [good_entry|state_neq|done]).
Qed.

Lemma wp_queue_verdict queue id queue_state k Q :
  (forall r, settles r -> Q k r) -> wp k (queue_verdict queue id queue_state) Q.
Proof.
  intros HQ. destruct queue_state as [[]|]; cbn [queue_verdict]; try (by apply HQ).
  - call. intros sidecar. by apply HQ.
  - call. intros item. apply HQ. by destruct (_ =? _)%string.
Qed.

Lemma good_remove_held id v : good id v -> good id (remove_key "held" v).
Proof.
  intros [Hid Hna]. destruct (str_field_object _ _ _ Hid) as [kvs ->]. unfold good, TeamProtocol.good, time_field, str_field in *.
  cbn [remove_key value_get] in *. by rewrite !obj_get_remove.
Qed.

Lemma state_remove_held v : entry_state (remove_key "held" v) = entry_state v.
Proof.
  destruct v; try done. unfold entry_state, str_field. cbn [remove_key value_get]. by rewrite obj_get_remove.
Qed.

Lemma wp_fold_queue_state team id queue entry verdict k :
  good id entry -> verdict.1 <> "claimed" ->
  wp k (fold_queue_state team id queue entry verdict) (fun _ _ => True).
Proof.
  intros Hv Hs. destruct verdict as [s d]. cbn in Hs. unfold fold_queue_state. apply prog_wp_bind.
  set (e := remove_key "held" _).
  assert (Hgood : good id e) by (apply good_remove_held; good_entry).
  assert (Hstate : entry_state e = s).
  { subst e. rewrite state_remove_held. erewrite state_set_other; [|reflexivity|good_entry]. by eapply state_set. }
  assert (Hend : forall k at_, wp k
    (written ← trigger (WriteJsonAtomic (entry_name id) (set_key "delivered_at" at_ e));
     (if (s =? "possibly_submitted")%string then
        now ← trigger NowUnixMs;
        let notice := outcome_notice team id d now in trigger (LogEvent notice);; trigger (WriteNotice id notice)
      else mret ());;
     unlock_with (match written with Ok _ => Some s | Err _ => None end)) (fun _ _ => True)).
  { intros k0 at_. apply prog_wp_bind, (wp_write id); [good_entry| |].
    - erewrite state_set_other; [|reflexivity|exact Hgood]. by rewrite Hstate.
    - intros r. apply prog_wp_bind. destruct (_ =? _)%string; [|by apply prog_wp_ret; call].
      call. intros now _. cbv zeta. call. intros _. apply wp_trigger. intros _. by call. }
  destruct (s =? "delivered")%string; [call; intros now _; apply prog_wp_ret|apply prog_wp_ret]; apply Hend.
Qed.

Lemma wp_reconcile team id k : wp k (reconcile_queue_delivery team id) (fun _ _ => True).
Proof.
  unfold reconcile_queue_delivery. call. split; [done|]. apply prog_wp_bind, wp_read; [by call|]. intros v k1 Hv _ _.
  specialize (Hv id eq_refl). destruct (negb _); [by call|]. destruct (queue_of v) as [queue|]; [|by call].
  call. intros moved. call. intros queue_state. apply prog_wp_bind, wp_queue_verdict. intros [verdict|] Hset; [|by call].
  apply wp_fold_queue_state; [done|]. by destruct verdict.
Qed.

Lemma wp_note_held id reason k : wp k (note_held id reason) (fun _ _ => True).
Proof.
  unfold note_held. call. split; [done|]. apply prog_wp_bind, wp_read; [by call|]. intros v k1 Hv _ _.
  specialize (Hv id eq_refl). destruct (entry_state v =? "accepted")%string eqn:Hs; cbn [negb]; [|by call].
  apply String.eqb_eq in Hs. destruct (queue_of v) as [queue|]; [|by call].
  call. intros moved. call. intros [[]|]; try by call. call. intros now _.
  apply prog_wp_bind, (wp_write id); [unfold held_entry; good_entry| |intros r; by call].
  unfold held_entry. erewrite state_set_other; [|reflexivity|good_entry].
  erewrite state_set_other; [|reflexivity|good_entry]. by rewrite Hs.
Qed.

Lemma wp_show_item inbox name item ledger k Q :
  (forall v, ledger = Some v -> good name v) -> (forall k' r, calm k k' -> Q k' r) ->
  wp k (show_item inbox name item ledger) Q.
Proof.
  intros Hv HQ. unfold show_item. call. intros tombstoned. apply prog_wp_bind.
  apply (prog_wp_mono _ _ _ _ _ _ (fun k' _ => calm k k')).
  { destruct (time_field item "not_after"); [|done]. call. intros now _. apply prog_wp_ret, calm_time. }
  intros k1 expired Hk1. destruct (_ || _); [by apply HQ|]. apply wp_bind_ok. destruct ledger as [v|].
  - specialize (Hv v eq_refl). apply (wp_write name); [good_entry|state_neq|]. intros [[]|e]; [|by apply HQ].
    call. intros _. by apply HQ.
  - apply prog_wp_ret. call. intros _. by apply HQ.
Qed.

Lemma wp_present_item inbox name k Q :
  (forall k' r, calm k k' -> Q k' r) -> wp k (present_item inbox name) Q.
Proof.
  intros HQ. unfold present_item. call. intros []; cbn [negb]; [|by apply HQ]. call. intros [item|]; [|by apply HQ].
  apply prog_wp_bind, wp_read.
  - by apply wp_show_item.
  - intros v k1 Hv _ [Hk1 _]. apply wp_show_item; [|intros k2 r Hk2; apply HQ; by etrans].
    intros v' [= <-]. by apply Hv.
Qed.

Lemma wp_hook inbox k : wp k (hook inbox) (fun _ _ => True).
Proof.
  unfold hook. apply prog_wp_bind, wp_list_entries. intros k1 es Hk1 Hes. apply wp_bind_ok, wp_for_each_ok.
  - intros v k2 Hv. destruct (Hes v Hv) as (id & Hgood). unfold upgrade_presented. destruct (_ =? _)%string; [|done].
    rewrite (proj1 Hgood). cbn [default]. apply (wp_write id); [good_entry|state_neq|done].
  - intros k2 [[]|e] Hk2; [|done]. call_ok. intros [[]|e]; [|done]. call. intros [names|]; [|done].
    apply wp_for_each_ok; [|done]. intros name k3 _. by apply wp_present_item.
Qed.

Theorem program_keeps_protocol req : expires_at X N req -> wp start_know (program req) (fun _ _ => True).
Proof.
  intros Hreq. destruct req; cbn [program expires_at] in *.
  - apply prog_wp_bind. eapply prog_wp_mono; [by apply wp_accept|done].
  - apply prog_wp_bind. eapply prog_wp_mono; [by apply wp_fence|done].
  - apply prog_wp_bind. eapply prog_wp_mono; [apply wp_retract|done].
  - apply prog_wp_bind. eapply prog_wp_mono; [apply wp_reconcile|done].
  - apply prog_wp_bind. eapply prog_wp_mono; [apply wp_note_held|done].
  - unfold receipt. apply prog_wp_bind, prog_wp_bind, wp_read; done.
  - call. intros now Hnow. apply prog_wp_bind, wp_prune_team; [cbn; lia|done].
  - apply prog_wp_bind. eapply prog_wp_mono; [apply wp_resolve|done].
  - apply prog_wp_bind. eapply prog_wp_mono; [apply wp_hook|done].
Qed.
End ops.
