(* ===== verification/TeamFacts.v ===== *)
(** * agent-teams: the protocol is sound

    What every state that processes can reach satisfies: the invariant of the ledger and
    its log, and that what a process knows is so, whatever the others do meanwhile. *)
From S2P Require Import Prelude RustStr External AgentQueue TeamTime TeamModel TeamLedger TeamSystem TeamProtocol TeamOps.

(** ** Backups are not entries *)

Lemma str_last_end a s : s <> "" -> str_last (a +:+ s) = str_last s.
Proof. destruct s as [|c s]; [done|]. intros _. apply str_last_app. Qed.

Lemma str_last_digit s : str_forallb is_digit s = true -> s <> "" -> exists c, str_last s = Some c /\ is_digit c = true.
Proof.
  induction s as [|c s IH]; [done|]. cbn [str_forallb]. intros [Hc Hs]%andb_true_iff _.
  destruct s as [|d s]; [by exists c|]. apply IH; [done|done].
Qed.

Lemma backup_not_entry name stamp id : (0 <= stamp)%Z -> backup_name name stamp <> entry_name id.
Proof.
  intros Hs Heq. destruct (pretty_nonneg stamp Hs) as (Hd & _ & He).
  assert (Hne : pretty stamp <> "") by by intros Hp; rewrite Hp in He.
  destruct (str_last_digit _ Hd Hne) as (c & Hc & Hdigit).
  assert (Hl : str_last (backup_name name stamp) = Some c).
  { unfold backup_name. by rewrite <- str_app_assoc, str_last_end. }
  rewrite Heq in Hl. unfold entry_name in Hl. rewrite str_last_end in Hl by done. cbn in Hl. injection Hl as <-. done.
Qed.

Definition slot_of (e : event) : nat :=
  match e with Created _ _ slot _ => slot | Handed _ slot => slot | FoundAbsent _ slot => slot end.

Section facts.
Context `{JsonNumber, !JsonFloat, !JsonU64Laws, !Sha2Crate}.
Variable X : string.
Variable N : Z.
Hypothesis HX : contains (entry_name X) ".json." = false.

Abbreviation horizon := (horizon N).
Abbreviation Claim := (Created (entry_name X) "claimed").

(** ** The log *)

Definition recorded (l : list event) : Prop := exists st i t, Created (entry_name X) st i t ∈ l.

(** What an event of [X] tells of the events before it. *)
Definition explained (l : list event) (e : event) : Prop :=
  match e with
  | Created name st i t => name = entry_name X -> recorded l -> (horizon <= t)%Z /\ st <> "claimed"
  | Handed id i =>
      id = X -> (Handed X i ∉ l)
      /\ ((exists t, Claim i t ∈ l) /\ (forall j, FoundAbsent X j ∉ l) \/ FoundAbsent X i ∈ l)
  | FoundAbsent id i => id = X -> exists i0 t, i0 <> i /\ Claim i0 t ∈ l
  end.

Fixpoint explained_log (l : list event) : Prop :=
  match l with [] => True | e :: l => explained l e /\ explained_log l end.

Lemma claim_recorded l i t : Claim i t ∈ l -> recorded l.
Proof. intros Hl. by exists "claimed", i, t. Qed.

Lemma claim_unique l i t i' t' : explained_log l -> Claim i t ∈ l -> Claim i' t' ∈ l -> i = i'.
Proof.
  induction l as [|e l IH]; [by intros _ ?%not_elem_of_nil|]. intros [He Hl] [<-|Hi]%elem_of_cons [Hi'|Hi']%elem_of_cons.
  - by injection Hi' as <-.
  - cbn in He. by destruct (He eq_refl (claim_recorded _ _ _ Hi')) as [_ []].
  - subst e. cbn in He. by destruct (He eq_refl (claim_recorded _ _ _ Hi)) as [_ []].
  - by apply IH.
Qed.

(** ** The invariant *)

(** The identifiers and start times of the running processes. *)
Definition idents (ps : gmap nat Proc) : gmap nat (Z * Z) := (fun pr => (pid pr, ticks pr)) <$> ps.

Record ledger_inv (w : World) (ids : gmap nat (Z * Z)) (nx : nat) : Prop := {
  inv_files name v : files w !! name = Some v -> good_at X N name v;
  inv_present : recorded (log w) -> is_Some (files w !! entry_name X) \/ (horizon <= clock w)%Z;
  inv_log : explained_log (log w);
  inv_absent j : FoundAbsent X j ∈ log w -> exists i t, Claim i t ∈ log w /\ ids !! i = None;
  inv_claimed v : files w !! entry_name X = Some v -> entry_state v = "claimed" ->
    exists p t i t', claimed_by p t v /\ Claim i t' ∈ log w /\ (forall pt, ids !! i = Some pt -> pt = (p, t));
  inv_slots e : e ∈ log w -> slot_of e < nx;
  inv_ids i pt : ids !! i = Some pt -> i < nx;
  inv_pids i j p t t' : ids !! i = Some (p, t) -> ids !! j = Some (p, t') -> i = j;
  inv_clock : (0 <= clock w)%Z;
}.

(** What the process in slot [i] knows is so. *)
Record knows (w : World) (ids : gmap nat (Z * Z)) (i : nat) (k : know) : Prop := {
  knows_locked : locked k = true -> holder w = Some i;
  knows_fresh : fresh k = true -> locked k = true /\ (recorded (log w) -> is_Some (files w !! entry_name X));
  knows_time : (time k <= clock w)%Z;
  knows_seen p t : seen k = Some (p, t) ->
    exists i0 t', Claim i0 t' ∈ log w /\ (forall pt, ids !! i0 = Some pt -> pt = (p, t));
  knows_gone : gone k = true -> exists i0 t', Claim i0 t' ∈ log w /\ (i0 <> i -> ids !! i0 = None);
  knows_mine : if mine k then exists t, Claim i t ∈ log w else forall t, Claim i t ∉ log w;
  knows_absent : absent k = true -> FoundAbsent X i ∈ log w;
  knows_handed : handed k = false -> Handed X i ∉ log w;
}.

(** What the others may count on while the process in slot [i] does something. *)
Record evolves (i : nat) (w : World) (ids : gmap nat (Z * Z)) (nx : nat) (w' : World) (ids' : gmap nat (Z * Z)) : Prop := {
  ev_log : exists l, log w' = l ++ log w /\ (forall e, e ∈ l -> slot_of e = i)
    /\ (recorded l -> is_Some (files w' !! entry_name X));
  ev_holder j : j <> i -> holder w = Some j -> holder w' = Some j;
  ev_keep : is_Some (files w !! entry_name X) -> holder w <> Some i -> is_Some (files w' !! entry_name X);
  ev_clock : (clock w <= clock w')%Z;
  ev_ids j pt : j < nx -> ids' !! j = Some pt -> ids !! j = Some pt;
}.

Lemma recorded_app l l' : recorded (l ++ l') <-> recorded l \/ recorded l'.
Proof. unfold recorded. setoid_rewrite elem_of_app. naive_solver. Qed.

Lemma knows_stable i j w ids nx w' ids' k :
  ledger_inv w ids nx -> evolves i w ids nx w' ids' -> j <> i -> j < nx -> knows w ids j k -> knows w' ids' j k.
Proof.
  intros Hinv [(l & Hl & Hslot & Hnew) Hholder Hkeep Hclock Hids] Hij Hj [K1 K2 K3 K4 K5 K6 K7 K8].
  assert (Hin : forall e, e ∈ log w -> e ∈ log w') by (intros e He; rewrite Hl; apply elem_of_app; by right).
  assert (Hnot : forall e, slot_of e = j -> e ∉ log w -> e ∉ log w').
  { intros e He Hn. rewrite Hl, elem_of_app. intros [Hel|]; [|done]. apply Hslot in Hel. congruence. }
  split.
  - intros Hk. by apply Hholder, K1.
  - intros Hk. destruct (K2 Hk) as [Hlk Hp]. split; [done|]. rewrite Hl, recorded_app. intros [Hr|Hr]; [by apply Hnew|].
    apply Hkeep; [by apply Hp|]. rewrite (K1 Hlk). congruence.
  - lia.
  - intros p t Hs. destruct (K4 p t Hs) as (i0 & t' & Hc & Hp). exists i0, t'. split; [auto|]. intros pt Hpt.
    apply Hp, Hids; [|done]. exact (inv_slots _ _ _ Hinv _ Hc).
  - intros Hg. destruct (K5 Hg) as (i0 & t' & Hc & Hn). exists i0, t'. split; [auto|]. intros Hne. specialize (Hn Hne).
    destruct (ids' !! i0) as [pt|] eqn:Hpt; [|done]. apply Hids in Hpt; [congruence|].
    exact (inv_slots _ _ _ Hinv _ Hc).
  - destruct (mine k); [destruct K6 as [t Ht]; eauto|]. intros t. by apply Hnot.
  - auto.
  - intros Hh. apply Hnot; auto.
Qed.

Lemma evolves_refl i w ids nx : evolves i w ids nx w ids.
Proof.
  split; [|done..|done|done]. exists []. split_and!; [done|by intros e ?%not_elem_of_nil|].
  intros (st & j & t & []%not_elem_of_nil).
Qed.

Lemma running_ticks_Some p (ps : gmap nat Proc) t : running_ticks p ps = Some t -> exists i, idents ps !! i = Some (p, t).
Proof.
  unfold running_ticks. destruct (List.find _ _) as [[q u]|] eqn:Hf; [|done]. intros [= <-].
  apply find_some in Hf as [Hin Hq]. apply Z.eqb_eq in Hq as ->.
  apply list_elem_of_In, list_elem_of_fmap in Hin as ([i pr] & Heq & Hin). exists i.
  unfold idents. rewrite lookup_fmap. apply elem_of_map_to_list in Hin as ->. cbn. by rewrite Heq.
Qed.

Lemma running_ticks_None p (ps : gmap nat Proc) i t : running_ticks p ps = None -> idents ps !! i <> Some (p, t).
Proof.
  unfold running_ticks, idents. destruct (List.find _ _) eqn:Hf; [done|]. intros _. rewrite lookup_fmap.
  destruct (ps !! i) as [pr|] eqn:Hi; [|done]. cbn. intros [= Hp _].
  assert ((pid pr =? p)%Z = false) as Hno; [|by rewrite Hp, Z.eqb_refl in Hno].
  apply (find_none _ _ Hf (pid pr, ticks pr)).
  apply list_elem_of_In, list_elem_of_fmap. exists (i, pr). split; [done|]. by apply elem_of_map_to_list.
Qed.

(** ** One call *)

(** A call that leaves the world alone keeps the invariant; what is left is what it teaches. *)
Definition sound_call (s : System) (i : nat) (w' : World) (Q : know -> Prop) : Prop :=
  exists k', Q k' /\ knows w' (idents (procs s)) i k' /\ ledger_inv w' (idents (procs s)) (next s)
    /\ evolves i (world s) (idents (procs s)) (next s) w' (idents (procs s)).

Section call.
Variable s : System.
Variable i : nat.
Variable pr : Proc.
Variable k : know.
Hypothesis Hpr : procs s !! i = Some pr.
Hypothesis Hinv : ledger_inv (world s) (idents (procs s)) (next s).
Hypothesis Hk : knows (world s) (idents (procs s)) i k.

Abbreviation w := (world s).
Abbreviation ids := (idents (procs s)).

Lemma ids_i : ids !! i = Some (pid pr, ticks pr).
Proof. unfold idents. by rewrite lookup_fmap, Hpr. Qed.

Lemma sound_same (Q : know -> Prop) k' : Q k' -> knows w ids i k' -> sound_call s i w Q.
Proof. intros HQ Hk'. exists k'. split_and!; [done..|apply evolves_refl]. Qed.

Lemma sound_lock (Q : know -> Prop) :
  holder w = None -> Q (know_lock true k) -> sound_call s i (set_holder (Some i) w) Q.
Proof.
  intros Hh HQ. exists (know_lock true k). destruct Hk as [K1 K2 K3 K4 K5 K6 K7 K8].
  split_and!; [done|by split|by destruct Hinv|]. split; [|by rewrite Hh|done|done|done].
  exists []. split_and!; [done|by intros e ?%not_elem_of_nil|]. intros (st & j & t & []%not_elem_of_nil).
Qed.

Lemma sound_unlock (Q : know -> Prop) : Q (know_lock false k) -> sound_call s i (release i w) Q.
Proof.
  intros HQ. exists (know_lock false k). destruct Hk as [K1 K2 K3 K4 K5 K6 K7 K8].
  unfold release. case_decide as Hh; (split_and!; [done|by split|by destruct Hinv|]); (split; [|..|done|done]).
  2: { intros j Hj. rewrite Hh. congruence. }
  all: try done.
  all: exists []; split_and!; [done|by intros e ?%not_elem_of_nil|]; intros (st & j & t & []%not_elem_of_nil).
Qed.

Lemma is_claim_spec name v : is_claim_of_X X name v = true <-> name = entry_name X /\ entry_state v = "claimed".
Proof. unfold is_claim_of_X. by rewrite andb_true_iff, !String.eqb_eq. Qed.

Lemma slot_live : i < next s.
Proof. exact (inv_ids _ _ _ Hinv i _ ids_i). Qed.

Lemma recorded_cons e l : recorded (e :: l) -> recorded l \/ exists st j t, e = Created (entry_name X) st j t.
Proof. intros (st & j & t & [<-|Hl]%elem_of_cons); [right; eauto|left; by exists st, j, t]. Qed.

Lemma sound_create (Q : know -> Prop) name v :
  files w !! name = None -> good_at X N name v ->
  (is_claim_of_X X name v = true -> fresh k = true /\ claimed_by (pid pr) (ticks pr) v) ->
  Q (if is_claim_of_X X name v then know_mine k else k) ->
  sound_call s i (record_event (Created name (entry_state v) i (clock w)) (set_files (<[name := v]>) w)) Q.
Proof.
  intros Hnone Hgood Hclaim HQ. pose proof slot_live as Hlive. pose proof ids_i as Hids.
  set (e := Created _ _ _ _). set (w' := record_event _ _).
  assert (Hkeep : is_Some (files w !! entry_name X) -> is_Some (files w' !! entry_name X)).
  { cbn. destruct (decide (name = entry_name X)) as [->|Hne]; [by rewrite Hnone; intros []|]. by rewrite lookup_insert_ne. }
  assert (Hnew : (exists st j t, e = Created (entry_name X) st j t) -> is_Some (files w' !! entry_name X)).
  { intros (st & j & t & [= -> _ _ _]). cbn. rewrite lookup_insert_eq. eauto. }
  eexists. split; [exact HQ|]. destruct Hinv as [I1 I2 I3 I4 I5 I6 I7 I8 I9].
  assert (Hfirst : is_claim_of_X X name v = true -> ~ recorded (log w)).
  { intros Hc Hr. destruct (Hclaim Hc) as [Hf _]. apply is_claim_spec in Hc as [-> _].
    destruct (knows_fresh _ _ _ _ Hk Hf) as [_ Hp]. rewrite Hnone in Hp. by destruct (Hp Hr). }
  split_and!.
  - destruct Hk as [K1 K2 K3 K4 K5 K6 K7 K8].
    assert (Hold : knows w' ids i k \/ is_claim_of_X X name v = true).
    { destruct (is_claim_of_X X name v) eqn:Hc; [by right|left]. split; cbn; [done|..|done| | | | |].
      - intros Hf. destruct (K2 Hf) as [Hl Hp]. split; [done|]. intros [Hr|Hr]%recorded_cons; [by apply Hkeep, Hp|by apply Hnew].
      - intros p t Hs. destruct (K4 p t Hs) as (i0 & t' & Hc' & Hp). exists i0, t'. split; [by right|done].
      - intros Hg. destruct (K5 Hg) as (i0 & t' & Hc' & Hp). exists i0, t'. split; [by right|done].
      - destruct (mine k); [destruct K6 as [t Ht]; exists t; by right|].
        intros t [Heq|Hin]%elem_of_cons; [|by apply (K6 t)]. injection Heq as Hn Hs _.
        assert (is_claim_of_X X name v = true) by by apply is_claim_spec. congruence.
      - intros Ha. right. auto.
      - intros Hh [Heq|Hin]%elem_of_cons; [done|]. by apply K8. }
    destruct (is_claim_of_X X name v) eqn:Hc; [|by destruct Hold]. clear Hold. specialize (Hfirst eq_refl).
    apply is_claim_spec in Hc as Hc'. destruct Hc' as [-> Hst]. split; cbn; [done|..|done| | | | |].
    + intros Hf. destruct (K2 Hf) as [Hl _]. split; [done|]. intros _. rewrite lookup_insert_eq. eauto.
    + intros p t Hs. destruct (K4 p t Hs) as (i0 & t' & Hc' & _). by destruct (Hfirst (claim_recorded _ _ _ Hc')).
    + intros Hg. destruct (K5 Hg) as (i0 & t' & Hc' & _). by destruct (Hfirst (claim_recorded _ _ _ Hc')).
    + exists (clock w). unfold e. rewrite Hst. left.
    + intros Ha. right. auto.
    + intros Hh [Heq|Hin]%elem_of_cons; [done|]. by apply K8.
  - split; cbn; [..|done|done|done].
    + intros name' v' [[-> ->]|[Hne Hv']]%lookup_insert_Some; [done|by apply I1].
    + intros [Hr|Hr]%recorded_cons; [|left; by apply Hnew]. destruct (I2 Hr) as [Hp|]; [left; by apply Hkeep|by right].
    + split; [|done]. intros -> Hr. destruct (I2 Hr) as [Hp|]; [rewrite Hnone in Hp; by destruct Hp|]. split; [done|].
      intros Hst. apply Hfirst; [|done]. by apply is_claim_spec.
    + intros j [Heq|Hin]%elem_of_cons; [done|]. destruct (I4 j Hin) as (i0 & t & Hc & Hn). exists i0, t. split; [by right|done].
    + intros v' [[-> ->]|[Hne Hv']]%lookup_insert_Some Hst.
      * destruct Hclaim as [_ Hcl]; [by apply is_claim_spec|]. exists (pid pr), (ticks pr), i, (clock w).
        split; [done|]. unfold e. rewrite Hst. split; [left|]. intros pt Hpt. congruence.
      * destruct (I5 v' Hv' Hst) as (p & t & i0 & t' & Hcl & Hin & Hp). exists p, t, i0, t'. split; [done|]. split; [by right|done].
    + intros e' [->|Hin]%elem_of_cons; [done|by apply I6].
  - split; [|done| |done|done].
    + exists [e]. split; [done|]. split; [by intros e' ->%list_elem_of_singleton|].
      intros [(st & j & t & []%not_elem_of_nil)|Hr]%recorded_cons. by apply Hnew.
    + intros Hp _. by apply Hkeep.
Qed.

(** A change of the files that creates no entry of [X], and removes it only past its horizon. *)
Lemma sound_files (Q : know -> Prop) f :
  (forall name v, f (files w) !! name = Some v -> good_at X N name v) ->
  (is_Some (files w !! entry_name X) -> is_Some (f (files w) !! entry_name X)
   \/ (holder w = Some i /\ fresh k = false /\ (horizon <= clock w)%Z)) ->
  (forall v, f (files w) !! entry_name X = Some v -> entry_state v = "claimed" -> files w !! entry_name X = Some v) ->
  Q k -> sound_call s i (set_files f w) Q.
Proof.
  intros Hgood Hkeep Hclaimed HQ. exists k. split; [done|]. destruct Hk as [K1 K2 K3 K4 K5 K6 K7 K8].
  destruct Hinv as [I1 I2 I3 I4 I5 I6 I7 I8 I9]. split_and!.
  - split; cbn; [done| |done..]. intros Hf. destruct (K2 Hf) as [Hl Hp]. split; [done|]. intros Hr.
    destruct (Hkeep (Hp Hr)) as [|(_ & Hno & _)]; [done|congruence].
  - split; cbn; [done| |done|done| |done..].
    + intros Hr. destruct (I2 Hr) as [Hp|]; [|by right]. destruct (Hkeep Hp) as [|(_ & _ & Hhor)]; [by left|by right].
    + intros v Hv Hs. apply (I5 v); [|done]. by apply Hclaimed.
  - split; cbn; [|done| |done|done].
    + exists []. split_and!; [done|by intros e ?%not_elem_of_nil|]. intros (st & j & t & []%not_elem_of_nil).
    + intros Hp Hh. destruct (Hkeep Hp) as [|(Hh' & _)]; [done|]. by destruct (Hh Hh').
Qed.

Lemma backup_good name old (f : gmap string value) :
  (forall name v, f !! name = Some v -> good_at X N name v) ->
  forall name' v, <[backup_name name (clock w / 1000)%Z := old]> f !! name' = Some v ->
  good_at X N name' v.
Proof.
  intros Hf name' v [[<- _]|[_ Hv]]%lookup_insert_Some; [|by apply Hf]. intros id Hid. exfalso.
  eapply backup_not_entry; [|exact Hid]. apply Z.div_pos; [apply Hinv|lia].
Qed.

Lemma with_backup_files name : exists f, with_backup name w = set_files f w
  /\ (forall name' v, f (files w) !! name' = Some v -> good_at X N name' v)
  /\ (forall id, f (files w) !! entry_name id = files w !! entry_name id).
Proof.
  unfold with_backup. destruct (files w !! name) as [old|] eqn:Hold.
  - eexists. split; [done|]. split.
    + exact (backup_good name old (files w) (inv_files _ _ _ Hinv)).
    + intros id. rewrite lookup_insert_ne; [done|]. apply backup_not_entry, Z.div_pos; [apply Hinv|lia].
  - exists (fun fs => fs). split; [by destruct w|]. split; [apply Hinv|done].
Qed.

Lemma sound_late (Q : know -> Prop) name : Q k -> sound_call s i (with_backup name w) Q.
Proof.
  intros HQ. destruct (with_backup_files name) as (f & -> & Hg & Hf). apply sound_files; [done| | |done].
  - rewrite Hf. by left.
  - intros v. by rewrite Hf.
Qed.

Lemma sound_write (Q : know -> Prop) name v :
  good_at X N name v -> is_claim_of_X X name v = false -> Q k ->
  sound_call s i (set_files (<[name := v]>) (with_backup name w)) Q.
Proof.
  intros Hv Hc HQ. destruct (with_backup_files name) as (f & -> & Hg & Hf).
  change (set_files (<[name := v]>) (set_files f w)) with (set_files (fun fs => <[name := v]> (f fs)) w).
  apply sound_files; [| | |done].
  - intros name' v' [[<- <-]|[_ Hv']]%lookup_insert_Some; [done|by eapply Hg].
  - intros Hp. left. destruct (decide (name = entry_name X)) as [->|Hne]; [rewrite lookup_insert_eq; eauto|].
    by rewrite lookup_insert_ne, Hf.
  - intros v' [[-> ->]|[_ Hv']]%lookup_insert_Some Hs; [|by rewrite <- Hf].
    assert (is_claim_of_X X (entry_name X) v' = true) by by apply is_claim_spec. congruence.
Qed.

Lemma sound_remove (Q : know -> Prop) name :
  (name = entry_name X -> locked k = true /\ fresh k = false /\ (horizon <= time k)%Z) -> Q k ->
  sound_call s i (set_files (delete name) w) Q.
Proof.
  intros Hn HQ. apply sound_files; [| | |done].
  - intros name' v [_ Hv]%lookup_delete_Some. by eapply inv_files.
  - intros Hp. destruct (decide (name = entry_name X)) as [Heq|Hne]; [right|left; by rewrite lookup_delete_ne].
    destruct (Hn Heq) as (Hl & Hf & Ht). split_and!; [by apply (knows_locked _ _ _ _ Hk)|done|].
    pose proof (knows_time _ _ _ _ Hk). lia.
  - by intros v [_ Hv]%lookup_delete_Some.
Qed.

(** Calls that only teach. *)
Lemma sound_time (Q : know -> Prop) : ((time k <= clock w)%Z -> Q (know_time N (clock w) k)) -> sound_call s i w Q.
Proof.
  intros HQ. destruct Hk as [K1 K2 K3 K4 K5 K6 K7 K8]. apply (sound_same Q (know_time N (clock w) k)); [by apply HQ|].
  split; cbn; try done; [|lia]. intros [Hf|[Hl Ht]%andb_true_iff]%orb_true_iff; [auto|]. split; [done|]. intros Hr.
  destruct (inv_present _ _ _ Hinv Hr) as [|Hh]; [done|]. apply Z.ltb_lt in Ht. lia.
Qed.

Lemma knows_seen_set p t :
  (exists i0 t', Claim i0 t' ∈ log w /\ (forall pt, ids !! i0 = Some pt -> pt = (p, t))) -> knows w ids i (know_seen (p, t) k).
Proof. intros Hs. destruct Hk. split; cbn; try done. by intros p' t' [= <- <-]. Qed.

Lemma knows_gone_set : (exists i0 t', Claim i0 t' ∈ log w /\ (i0 <> i -> ids !! i0 = None)) -> knows w ids i (know_gone k).
Proof. intros Hs. by destruct Hk. Qed.

Lemma sound_read (Q : know -> Prop) name v : files w !! name = Some v ->
  (forall k', good_at X N name v -> learns X name v k k' -> Q k') -> sound_call s i w Q.
Proof.
  intros Hv HQ. pose proof (inv_files _ _ _ Hinv _ _ Hv) as Hgood. destruct (is_claim_of_X X name v) eqn:Hc.
  - apply is_claim_spec in Hc as Hc'. destruct Hc' as [-> Hst].
    destruct (inv_claimed _ _ _ Hinv v Hv Hst) as (p & t & i0 & t' & Hcl & Hin & Hp).
    apply (sound_same Q (know_seen (p, t) k)); [|apply knows_seen_set; eauto].
    apply HQ; [done|]. by apply learns_claimer.
  - apply (sound_same Q k); [|done]. apply HQ; [done|]. by apply learns_nothing.
Qed.

(** The claimer that was seen does not run under another slot: its identifier is mine, or
    the process table has it with other start ticks, or not at all. *)
Lemma sound_gone p t : seen k = Some (p, t) ->
  (forall j u, j <> i -> ids !! j = Some (p, u) -> u <> t) -> knows w ids i (know_gone k).
Proof.
  intros Hs Hno. destruct (knows_seen _ _ _ _ Hk p t Hs) as (i0 & t' & Hin & Hp). apply knows_gone_set.
  exists i0, t'. split; [done|]. intros Hne. destruct (ids !! i0) as [pt|] eqn:Hi0; [|done]. exfalso.
  specialize (Hp pt eq_refl) as ->. by apply (Hno i0 t Hne Hi0).
Qed.

Lemma sound_process (Q : know -> Prop) :
  Q (match seen k with Some (p, _) => if decide (p = pid pr) then know_gone k else k | None => k end) ->
  sound_call s i w Q.
Proof.
  intros HQ. eapply sound_same; [exact HQ|]. destruct (seen k) as [[p t]|] eqn:Hs; [|done].
  case_decide as Hp; [|done]. apply (sound_gone p t); [done|]. intros j u Hj Hids. exfalso. apply Hj.
  subst p. eapply (inv_pids _ _ _ Hinv); [exact Hids|exact ids_i].
Qed.

Lemma sound_identity (Q : know -> Prop) p o :
  (forall j u, ids !! j = Some (p, u) -> o = Some u) ->
  Q (match seen k with Some (q, t) => if decide (p = q /\ o <> Some t) then know_gone k else k | None => k end) ->
  sound_call s i w Q.
Proof.
  intros Ho HQ. eapply sound_same; [exact HQ|]. destruct (seen k) as [[q t]|] eqn:Hs; [|done].
  case_decide as Hq; [|done]. destruct Hq as [<- Hne]. apply (sound_gone p t); [done|].
  intros j u _ Hids ->. by apply Hne, (Ho j).
Qed.

(** Calls on the deliverer. *)
Lemma sound_event (Q : know -> Prop) e k' :
  slot_of e = i -> (forall name st j t, e <> Created name st j t) -> explained (log w) e ->
  (forall j, e = FoundAbsent X j -> exists i0 t, Claim i0 t ∈ log w /\ ids !! i0 = None) ->
  knows (record_event e w) ids i k' -> Q k' -> sound_call s i (record_event e w) Q.
Proof.
  intros Hslot Hne He Habs Hk' HQ. exists k'. split; [done|]. split; [done|].
  destruct Hinv as [I1 I2 I3 I4 I5 I6 I7 I8 I9].
  assert (Hrec : recorded (e :: log w) -> recorded (log w)).
  { intros [Hr|(st & j & t & ->)]%recorded_cons; [done|]. by destruct (Hne (entry_name X) st j t). }
  split.
  - split; cbn; [done|auto|done| | | |done..].
    + intros j [Heq|Hin]%elem_of_cons.
      * destruct (Habs j) as (i0 & t & Hc & Hn); [done|]. exists i0, t. split; [by right|done].
      * destruct (I4 j Hin) as (i0 & t & Hc & Hn). exists i0, t. split; [by right|done].
    + intros v Hv Hs. destruct (I5 v Hv Hs) as (p & t & i0 & t' & Hcl & Hin & Hp). exists p, t, i0, t'.
      split; [done|]. split; [by right|done].
    + intros e' [->|Hin]%elem_of_cons; [|by apply I6]. rewrite Hslot. apply slot_live.
  - split; [|done..].
    exists [e]. split; [done|]. split; [by intros e' ->%list_elem_of_singleton|].
    intros (st & j & t & Heq%list_elem_of_singleton). by destruct (Hne (entry_name X) st j t).
Qed.

(** What was known before an event that creates nothing. *)
Lemma knows_event e k' :
  (forall name st j t, e <> Created name st j t) ->
  locked k' = locked k -> fresh k' = fresh k -> time k' = time k -> seen k' = seen k -> gone k' = gone k ->
  mine k' = mine k -> (absent k' = true -> absent k = true \/ e = FoundAbsent X i) ->
  (handed k' = false -> handed k = false /\ e <> Handed X i) -> knows (record_event e w) ids i k'.
Proof.
  intros Hne Hl Hf Ht Hs Hg Hm Ha Hh. destruct Hk as [K1 K2 K3 K4 K5 K6 K7 K8]. split; cbn; rewrite ?Hl, ?Hf, ?Ht, ?Hs, ?Hg, ?Hm.
  - done.
  - intros Hfr. destruct (K2 Hfr) as [Hlk Hp]. split; [done|].
    intros [Hr|(st & j & t & ->)]%recorded_cons; [auto|]. by destruct (Hne (entry_name X) st j t).
  - done.
  - intros p t Hp. destruct (K4 p t Hp) as (i0 & t' & Hin & Hids). exists i0, t'. split; [by right|done].
  - intros Hgo. destruct (K5 Hgo) as (i0 & t' & Hin & Hids). exists i0, t'. split; [by right|done].
  - destruct (mine k); [destruct K6 as [t Hin]; exists t; by right|]. intros t [Heq|Hin]%elem_of_cons; [|by apply (K6 t)].
    by destruct (Hne (entry_name X) "claimed" i t).
  - intros Hab. destruct (Ha Hab) as [| ->]; [right; auto|left].
  - intros Hha. destruct (Hh Hha) as [Hha' Hn]. intros [Heq|Hin]%elem_of_cons; [done|]. by apply K8.
Qed.

Lemma sound_hand (Q : know -> Prop) id :
  (id = X -> handed k = false /\ (mine k || absent k && gone k = true)) ->
  Q (if decide (id = X) then know_handed k else k) -> sound_call s i (record_event (Handed id i) w) Q.
Proof.
  intros Hid HQ. eapply sound_event; [done|done| |done| |exact HQ].
  - intros ->. destruct (Hid eq_refl) as [Hh Hor]. destruct Hk as [K1 K2 K3 K4 K5 K6 K7 K8]. split; [auto|].
    destruct (mine k); [left|right; apply K7; cbn in Hor; by apply andb_true_iff in Hor as [Ha _]].
    split; [done|]. intros j Hj. destruct K6 as [t Ht].
    destruct (inv_absent _ _ _ Hinv j Hj) as (i0 & t0 & Hc & Hn).
    rewrite (claim_unique _ _ _ _ _ (inv_log _ _ _ Hinv) Hc Ht) in Hn. by rewrite ids_i in Hn.
  - apply knows_event; try (by case_decide).
    + intros Ha. left. by case_decide.
    + case_decide as Hx; [done|]. intros Hh. split; [done|]. intros [= <-]. done.
Qed.

Lemma sound_absent (Q : know -> Prop) id :
  (id = X -> gone k = true /\ mine k = false) ->
  Q (if decide (id = X) then know_absent k else k) -> sound_call s i (record_event (FoundAbsent id i) w) Q.
Proof.
  intros Hid HQ.
  assert (Hgone : id = X -> exists i0 t, i0 <> i /\ Claim i0 t ∈ log w /\ ids !! i0 = None).
  { intros HX'. destruct (Hid HX') as [Hg Hm]. destruct (knows_gone _ _ _ _ Hk Hg) as (i0 & t & Hin & Hn).
    pose proof (knows_mine _ _ _ _ Hk) as Hnot. rewrite Hm in Hnot. exists i0, t.
    assert (i0 <> i) by (intros ->; by apply (Hnot t)). auto. }
  eapply sound_event; [done|done| | | |exact HQ].
  - intros HX'. destruct (Hgone HX') as (i0 & t & Hne & Hin & _). eauto.
  - intros j [= -> ->]. destruct (Hgone eq_refl) as (i0 & t & _ & Hin & Hn). eauto.
  - apply knows_event; try (by case_decide).
    case_decide as Hx; [intros _; right; by rewrite Hx|]. intros Ha. by left.
Qed.

Lemma perform_sound c r x w' (Q : know -> ret_of c -> Prop) :
  perform s i c r = Some (x, w') -> rule X N (pid pr) (ticks pr) k c Q -> sound_call s i w' (fun k' => Q k' x).
Proof.
  intros Hp Hr. destruct c; cbn in Hp, Hr, x; try (
    repeat match goal with
    | Hp : match ?t with _ => _ end = Some _ |- _ => destruct t; try discriminate Hp
    end; injection Hp as <- <-; apply (sound_same _ k); [apply Hr|exact Hk]; fail).
  - (* LockLedger *)
    assert (Hok : (if decide (holder w = None) then Some (Ok () : result DataError (), set_holder (Some i) w) else None)
                  = Some (x, w') -> sound_call s i w' (fun k' => Q k' x)).
    { case_decide as Hh; [|done]. intros [= <- <-]. apply sound_lock; [done|apply Hr]. }
    destruct r; try (by apply Hok). injection Hp as <- <-. apply (sound_same _ k); [apply Hr|exact Hk].
  - (* UnlockLedger *)
    injection Hp as <- <-. by apply sound_unlock.
  - (* ReadJson *)
    injection Hp as <- <-. destruct Hr as [Hnone Hsome].
    assert (Hread : sound_call s i w (fun k' => Q k' (files w !! name))).
    { destruct (files w !! name) as [v|] eqn:Hv; [|by apply (sound_same _ k)].
      apply (sound_read _ name v); [exact Hv|]. intros k' Hg Hl. by apply Hsome. }
    destruct r; (exact Hread || by apply (sound_same _ k)).
  - (* WriteNewAtomic *)
    destruct Hr as (Hgood & Hclaim & He & Hf & Ht).
    assert (Hwrite : match files w !! name with
       | Some _ => Some (Ok false, w)
       | None => Some (Ok true, record_event (Created name (entry_state v) i (clock w)) (set_files (<[name := v]>) w))
       end = Some (x, w') -> sound_call s i w' (fun k' => Q k' x)).
    { destruct (files w !! name) eqn:Hn; intros [= <- <-]; [by apply (sound_same _ k)|].
      apply sound_create; [done|done| |exact Ht]. intros Hc. by destruct (Hclaim Hc) as (_ & ? & ?). }
    destruct r; try (by apply Hwrite). injection Hp as <- <-. by apply (sound_same _ k).
  - (* WriteJsonAtomic *)
    destruct Hr as (Hgood & Hc & HQ). destruct r; injection Hp as <- <-;
      first [by apply sound_write|by apply (sound_same _ k)|by apply sound_late].
  - (* RemoveFile *)
    destruct Hr as [Hn HQ].
    destruct r; injection Hp as <- <-; first [by apply (sound_same _ k)|by apply sound_remove].
  - (* NowUnixMs *)
    injection Hp as <- <-. apply sound_time. intros Ht. by apply Hr.
  - (* ProcessId *)
    rewrite Hpr in Hp. cbn in Hp. injection Hp as <- <-. by apply sound_process.
  - (* IdentityOf *)
    destruct (running_ticks p (procs s)) as [t|] eqn:Hrun.
    + injection Hp as <- <-. destruct (running_ticks_Some _ _ _ Hrun) as (j & Hj).
      assert (Hall : forall j' u, ids !! j' = Some (p, u) -> Some t = Some u).
      { intros j' u Hj'. pose proof (inv_pids _ _ _ Hinv _ _ _ _ _ Hj Hj') as ->. congruence. }
      apply (sound_identity _ p (Some t)); [exact Hall|]. apply Hr. intros ->. exact (Hall i _ ids_i).
    + assert (Hno : forall j u, ids !! j <> Some (p, u)) by (intros j u; by apply running_ticks_None).
      destruct r; try discriminate Hp. injection Hp as <- <-.
      apply (sound_identity _ p t); [intros j u Hj; by destruct (Hno j u)|]. apply Hr. intros ->.
      by destruct (Hno i (ticks pr) ids_i).
  - (* HandOver *)
    destruct Hr as [Hid HQ]. destruct r; try discriminate Hp. injection Hp as <- <-. by apply sound_hand.
  - (* Contains *)
    destruct Hr as (Hid & Ho & HQ). destruct r as [| | | | | |[[]|]| | | | |]; try discriminate Hp; injection Hp as <- <-;
      first [by apply sound_absent|by apply (sound_same _ k); [apply Ho|]].
  - (* PrepareInbox *)
    destruct r; injection Hp as <- <-; by apply (sound_same _ k).
Qed.
End call.

(** ** Steps *)

Record system_inv (s : System) : Prop := {
  sys_ledger : ledger_inv (world s) (idents (procs s)) (next s);
  sys_range i pr : procs s !! i = Some pr -> (0 <= pid pr < 2 ^ 64)%Z /\ (0 <= ticks pr < 2 ^ 64)%Z;
  sys_procs i pr : procs s !! i = Some pr -> exists k, knows (world s) (idents (procs s)) i k
    /\ wp X N (pid pr) (ticks pr) k (code_left pr) (fun _ _ => True);
}.

Lemma idents_lookup ps i pr : ps !! i = Some pr -> idents ps !! i = Some (pid pr, ticks pr).
Proof. intros Hi. unfold idents. by rewrite lookup_fmap, Hi. Qed.

(** The processes other than the one that moved. *)
Lemma others_know s i w' ids' j pr :
  system_inv s -> evolves i (world s) (idents (procs s)) (next s) w' ids' ->
  j <> i -> procs s !! j = Some pr ->
  exists k, knows w' ids' j k /\ wp X N (pid pr) (ticks pr) k (code_left pr) (fun _ _ => True).
Proof.
  intros [Hinv _ Hprocs] Hev Hj Hpr. destruct (Hprocs j pr Hpr) as (k & Hk & Hwp). exists k. split; [|done].
  eapply knows_stable; [exact Hinv|exact Hev|done| |done]. eapply inv_ids; [exact Hinv|by apply idents_lookup].
Qed.

Lemma world_same_log i w w' : log w' = log w ->
  exists l, log w' = l ++ log w /\ (forall e, e ∈ l -> slot_of e = i) /\ (recorded l -> is_Some (files w' !! entry_name X)).
Proof.
  intros ->. exists []. split_and!; [done|by intros e ?%not_elem_of_nil|]. intros (st & j & t & []%not_elem_of_nil).
Qed.

Lemma spawn_inv s p t req :
  system_inv s -> may_spawn p t s = true -> expires_at X N req ->
  system_inv {| world := world s;
                procs := <[next s := {| pid := p; ticks := t; code_left := program req |}]> (procs s);
                next := S (next s) |}.
Proof.
  intros Hs Hmay Hreq. pose proof Hs as [Hinv Hrange Hprocs]. unfold may_spawn in Hmay.
  rewrite !andb_true_iff, bool_decide_eq_true, !Z.leb_le, !Z.ltb_lt in Hmay. destruct Hmay as ((((Hp0 & Hp1) & Ht0) & Ht1) & Hrun).
  set (pr := {| pid := p; ticks := t; code_left := program req |}).
  assert (Hids : idents (<[next s := pr]> (procs s)) = <[next s := (p, t)]> (idents (procs s))) by (unfold idents; by rewrite fmap_insert).
  assert (Hfresh : idents (procs s) !! next s = None).
  { destruct (idents (procs s) !! next s) as [pt|] eqn:Hn; [|done]. pose proof (inv_ids _ _ _ Hinv _ _ Hn). lia. }
  assert (Hold : forall i pt, i < next s -> <[next s := (p, t)]> (idents (procs s)) !! i = Some pt -> idents (procs s) !! i = Some pt).
  { intros i pt Hi. by rewrite lookup_insert_ne by lia. }
  assert (Hev : evolves (next s) (world s) (idents (procs s)) (next s) (world s) (<[next s := (p, t)]> (idents (procs s)))).
  { split; [by apply world_same_log|done..|exact Hold]. }
  assert (Hother : forall i q, procs s !! i = Some q -> i <> next s).
  { intros i q Hi ->. apply idents_lookup in Hi. congruence. }
  split; cbn [world procs next].
  - rewrite Hids. destruct Hinv as [I1 I2 I3 I4 I5 I6 I7 I8 I9]. split; [done|done|done| | | | | |done].
    + intros j Hj. destruct (I4 j Hj) as (i & u & Hc & Hn). exists i, u. split; [done|].
      rewrite lookup_insert_ne; [done|]. specialize (I6 _ Hc). cbn in I6. lia.
    + intros v Hv Hst. destruct (I5 v Hv Hst) as (q & u & i & t' & Hcl & Hc & Hids'). exists q, u, i, t'. split_and!; [done..|].
      intros pt Hpt. apply Hids', Hold; [|done]. exact (I6 _ Hc).
    + intros e He. specialize (I6 e He). lia.
    + intros i pt [[<- <-]|[_ Hi]]%lookup_insert_Some; [lia|]. specialize (I7 _ _ Hi). lia.
    + intros i j q u u' Hi Hj. apply lookup_insert_Some in Hi as [[<- [= <- <-]]|[Hi1 Hi]];
        apply lookup_insert_Some in Hj as [[<- Heq]|[Hj1 Hj]]; [done| | |by eapply I8].
      * by destruct (running_ticks_None _ _ j u' Hrun).
      * injection Heq as -> ->. by destruct (running_ticks_None _ _ i u Hrun).
  - intros i q [[<- <-]|[_ Hi]]%lookup_insert_Some; [cbn; lia|by eapply Hrange].
  - intros i q [[<- <-]|[Hne Hi]]%lookup_insert_Some.
    + exists start_know. split; [|apply program_keeps_protocol; [done|cbn; lia..|done]]. rewrite Hids.
      assert (Hnot : forall e, slot_of e = next s -> e ∉ log (world s)).
      { intros e He Hin. pose proof (inv_slots _ _ _ Hinv _ Hin). lia. }
      split; cbn; try done; [apply Hinv|..]; intros; by apply Hnot.
    + apply (others_know s (next s)); [done| |by apply not_eq_sym|done]. by rewrite Hids.
Qed.

Lemma gone_inv s i : system_inv s -> system_inv (gone_from i s).
Proof.
  intros Hs. pose proof Hs as [Hinv Hrange Hprocs]. unfold gone_from.
  assert (Hids : idents (delete i (procs s)) = delete i (idents (procs s))) by (unfold idents; by rewrite fmap_delete).
  assert (Hold : forall j pt, delete i (idents (procs s)) !! j = Some pt -> idents (procs s) !! j = Some pt).
  { by intros j pt [_ Hj]%lookup_delete_Some. }
  assert (Hnone : forall j, idents (procs s) !! j = None -> delete i (idents (procs s)) !! j = None).
  { intros j Hj. apply lookup_delete_None. by right. }
  assert (Hw : files (release i (world s)) = files (world s) /\ log (release i (world s)) = log (world s)
    /\ clock (release i (world s)) = clock (world s)) by (unfold release; by case_decide).
  destruct Hw as (Hf & Hl & Hc).
  split; cbn [world procs next].
  - rewrite Hids. destruct Hinv as [I1 I2 I3 I4 I5 I6 I7 I8 I9]. split; rewrite ?Hf, ?Hl, ?Hc; try done.
    + intros j Hj. destruct (I4 j Hj) as (i0 & u & Hcl & Hn). eauto.
    + intros v Hv Hst. destruct (I5 v Hv Hst) as (q & u & i0 & t' & Hcl & Hin & Hp). exists q, u, i0, t'. split_and!; auto.
    + intros j pt Hj. by eapply I7, Hold.
    + intros j j' q u u' Hj Hj'. by eapply I8; apply Hold.
  - intros j pr [_ Hj]%lookup_delete_Some. by eapply Hrange.
  - intros j pr [Hne Hj]%lookup_delete_Some. apply (others_know s i); [done| |by apply not_eq_sym|done]. rewrite Hids.
    split; [by apply world_same_log|..|rewrite Hc; lia|eauto].
    + intros j' Hj' Hh. unfold release. rewrite Hh, decide_False; [done|]. congruence.
    + by rewrite Hf.
Qed.

Lemma wait_inv s ms :
  system_inv s ->
  system_inv {| world := {| files := files (world s); holder := holder (world s);
                            clock := (clock (world s) + Z.of_N ms)%Z; log := log (world s) |};
                procs := procs s; next := next s |}.
Proof.
  intros Hs. pose proof Hs as [Hinv Hrange Hprocs]. split; cbn [world procs next]; [|done|].
  - destruct Hinv as [I1 I2 I3 I4 I5 I6 I7 I8 I9]. split; cbn; try done; [|lia].
    intros Hr. destruct (I2 Hr) as [|Hh]; [by left|right; lia].
  - intros j pr Hj. destruct (Hprocs j pr Hj) as (k & [K1 K2 K3 K4 K5 K6 K7 K8] & Hwp). exists k. split; [|done].
    split; cbn; try done. lia.
Qed.

Lemma run_inv s i r s' : system_inv s -> step s (Run i r) = Some s' -> system_inv s'.
Proof.
  intros Hs Hstep. pose proof Hs as [Hinv Hrange Hprocs]. cbn in Hstep.
  destruct (procs s !! i) as [pr|] eqn:Hpr; [|done]. cbn in Hstep.
  destruct (Hprocs i pr Hpr) as (k & Hk & Hwp). destruct (code_left pr) as [a|c f] eqn:Hcode; [done|].
  destruct (perform s i c r) as [[x w']|] eqn:Hperf; [|done]. cbn in Hstep. injection Hstep as <-.
  destruct (perform_sound s i pr k Hpr Hinv Hk c r x w' _ Hperf Hwp) as (k' & Hwp' & Hk' & Hinv' & Hev).
  set (pr' := {| pid := pid pr; ticks := ticks pr; code_left := f x |}).
  assert (Hids : idents (<[i := pr']> (procs s)) = idents (procs s)).
  { unfold idents. rewrite fmap_insert. apply insert_id. by rewrite lookup_fmap, Hpr. }
  split; cbn [world procs next].
  - by rewrite Hids.
  - intros j q [[<- <-]|[_ Hj]]%lookup_insert_Some; [exact (Hrange i pr Hpr)|by eapply Hrange].
  - intros j q [[<- <-]|[Hne Hj]]%lookup_insert_Some.
    + exists k'. by rewrite Hids.
    + apply (others_know s i); [done| |by apply not_eq_sym|done]. by rewrite Hids.
Qed.

Definition consistent (a : action) : Prop := match a with Spawn _ _ req => expires_at X N req | _ => True end.

Lemma step_inv s a s' : system_inv s -> consistent a -> step s a = Some s' -> system_inv s'.
Proof.
  intros Hs Ha Hstep. destruct a as [p t req|i r|i|i|ms].
  - cbn in Hstep. destruct (may_spawn p t s) eqn:Hm; [|done]. injection Hstep as <-. by apply spawn_inv.
  - by eapply run_inv.
  - cbn in Hstep. destruct (procs s !! i) as [pr|]; [|done]. cbn in Hstep. destruct (code_left pr); [|done].
    injection Hstep as <-. by apply gone_inv.
  - cbn in Hstep. destruct (procs s !! i) as [pr|]; [|done]. injection Hstep as <-. by apply gone_inv.
  - injection Hstep as <-. by apply wait_inv.
Qed.

Lemma initial_inv start : (0 <= start)%Z -> system_inv (initial start).
Proof.
  intros Hs. split; cbn; [|done|done]. split; cbn; try done.
  - intros (st & j & t & []%not_elem_of_nil).
  - by intros j ?%not_elem_of_nil.
  - by intros e ?%not_elem_of_nil.
Qed.

Theorem reached_inv actions : forall s s', system_inv s -> Forall consistent actions -> run s actions = Some s' -> system_inv s'.
Proof.
  induction actions as [|a actions IH]; intros s s' Hs Hc Hrun; cbn in Hrun; [by injection Hrun as <-|].
  destruct (step s a) as [s1|] eqn:Hstep; [|done]. cbn in Hrun. inversion Hc; subst.
  eapply IH; [|done|exact Hrun]. by eapply step_inv.
Qed.
End facts.
