(* ===== verification/TeamProps.v ===== *)
(** * agent-teams: the theorems about the receiver ledger and the times in it

    And concrete runs: the witnesses, and what interleaved recoveries can do. *)
From S2P Require Import Prelude RustStr External AgentQueue TeamTime TeamModel TeamLedger TeamSystem TeamProtocol TeamOps TeamFacts.

(** ** Runs *)

Section drive.
Context `{JsonNumber, !JsonFloat, !Sha2Crate}.

(** An environment where no call fails, the deliverer never has a message, and takes every
    one it is handed. *)
Definition usual (s : System) (c : call) : reply :=
  match c with
  | ReadDir => RNames (Some (fst <$> map_to_list (files (world s))))
  | BootId => RString "boot"
  | LiveCoordinator _ => RBool false
  | HandOver _ _ _ => RHandover Accepted
  | Contains _ => RContains (Some false)
  | UndeliverableReason => RReason None
  | IdentityOf _ => RTicks None
  | _ => RDone
  end.

(** The actions of the process in [slot], until it has done a call that [last] accepts. *)
Fixpoint drive (fuel : nat) (slot : nat) (last : call -> bool) (s : System) : list action * System :=
  match fuel with
  | 0 => ([], s)
  | S fuel =>
      match procs s !! slot with
      | Some {| code_left := Next c _ |} =>
          let a := Run slot (usual s c) in
          match step s a with
          | Some s' => if last c then ([a], s') else let '(l, s'') := drive fuel slot last s' in (a :: l, s'')
          | None => ([], s)
          end
      | _ => ([], s)
      end
  end.

(** A play: actions as they are, or a process driven on. *)
Inductive move := Act (a : action) | Drive (slot : nat) (last : call -> bool).

Fixpoint play (moves : list move) (s : System) : list action :=
  match moves with
  | [] => []
  | Act a :: moves => a :: match step s a with Some s' => play moves s' | None => [] end
  | Drive slot last :: moves => let '(l, s') := drive 1000 slot last s in l ++ play moves s'
  end.

Definition answer_in (slot : nat) (s : System) : option Answer :=
  pr ← procs s !! slot; match code_left pr with Ret a => Some a | Next _ _ => None end.

Definition state_of (id : string) (s : System) : option string := entry_state <$> files (world s) !! entry_name id.
End drive.

Definition to_end {N : JsonNumber} (c : call) : bool := false.
Definition until_claim {N : JsonNumber} (c : call) : bool := match c with WriteNewAtomic _ _ => true | _ => false end.
Definition until_identity {N : JsonNumber} (c : call) : bool := match c with IdentityOf _ => true | _ => false end.
Definition until_contains {N : JsonNumber} (c : call) : bool := match c with Contains _ => true | _ => false end.

(** One message, that expires two hours after the epoch, and a team that takes it. *)
Module Case.
#[local] Existing Instance integer_number.
#[local] Existing Instance integer_float.
#[local] Existing Instance first_bytes_digest.

Definition id : string := "tm-sim-0123456789abcdef".
Definition envelope : value :=
  build_envelope id "k" "sim" "host-b" 1 "harness-ancestry" "tools" "host-a" "info" None [] false 1000 7200000 None "hello".
Definition tools : Declaration := {|
  team := "tools";
  accepts_from := [{| rule_sender := "sim"; kinds := []; authority := "peer" |}];
  max_bytes := 8192; per_sender_per_hour := 5; max_ttl_seconds := 604800; accepts_relay_from := []
|}.
Definition context : AcceptContext := {|
  this_host := "host-a"; declaration := tools; via := "local"; proof_note := "proved";
  relayed_by := None; peer_host := "host-b"; via_chat_relay := false
|}.
Definition target : HandoverTarget := {| target_kind := "agentctl-queue"; queue_dir := Some "/q"; inbox_dir := None |}.
Definition arrival : Request := AcceptRequest context target envelope.

(** The claimer dies with the claim made; a retry recovers it; the message is retracted,
    pruned 31 days later, and its identifier fenced. *)
Definition recovered : list action := Eval vm_compute in
  play [Act (Spawn 10 100 arrival); Drive 0 until_claim; Act (Die 0); Act (Wait 5000);
        Act (Spawn 11 200 arrival); Drive 1 to_end; Act (Exit 1)] (initial 5000).
Definition fenced_again : list action := Eval vm_compute in
  play (((fun a => Act a) <$> recovered) ++
        [Act (Spawn 12 300 (RetractRequest target id)); Drive 2 to_end; Act (Exit 2); Act (Wait 2678400000);
         Act (Spawn 13 400 PruneRequest); Drive 3 to_end; Act (Exit 3);
         Act (Spawn 14 500 (FenceRequest "tools" id "1970-01-01T02:00:00Z" None)); Drive 4 to_end; Act (Exit 4)]) (initial 5000).
(** The fence comes first, for the seven days [cmd_fence] asks for by default. *)
Definition week : string := format_rfc3339_ms (5000 + 604800000).
Definition fenced_first : list action := Eval vm_compute in
  play [Act (Spawn 10 100 (FenceRequest "tools" id week None)); Drive 0 to_end;
        Act (Exit 0); Act (Spawn 11 200 arrival); Drive 1 to_end] (initial 5000).
(** The identifier is fenced for a week and the fence pruned after 37 days; its message,
    made then and expiring after 39, arrives for the first time. *)
Definition late_envelope : value :=
  build_envelope id "k" "sim" "host-b" 1 "harness-ancestry" "tools" "host-a" "info" None [] false
    (38 * 86400000) (39 * 86400000) None "hello".
Definition fence_forgotten : list action := Eval vm_compute in
  play [Act (Spawn 10 100 (FenceRequest "tools" id week None)); Drive 0 to_end; Act (Exit 0);
        Act (Wait (Z.to_N (38 * 86400000))); Act (Spawn 11 200 (AcceptRequest context target late_envelope));
        Drive 1 to_end] (initial 5000).
(** The claimer dies, and two retries recover its claim at the same time. *)
Definition recovered_twice : list action := Eval vm_compute in
  play [Act (Spawn 10 100 arrival); Drive 0 until_claim; Act (Die 0);
        Act (Spawn 11 200 arrival); Drive 1 until_contains; Act (Spawn 12 300 arrival); Drive 2 until_contains;
        Drive 1 to_end; Act (Exit 1); Drive 2 to_end; Act (Exit 2)] (initial 5000).
(** The message is retracted while a retry recovers its claim. *)
Definition retracted_meanwhile : list action := Eval vm_compute in
  play [Act (Spawn 10 100 arrival); Drive 0 until_claim; Act (Die 0);
        Act (Spawn 11 200 arrival); Drive 1 until_identity; Act (Run 1 RDone);
        Act (Spawn 12 300 (RetractRequest target id)); Drive 2 to_end;
        Act (Run 1 (RContains (Some true))); Drive 1 to_end; Act (Exit 1)] (initial 5000).

Definition after (actions : list action) : System := default (initial 0) (run (initial 5000) actions).
Definition after_recovered : System := Eval vm_compute in after recovered.
Definition after_fenced_again : System := Eval vm_compute in after fenced_again.
Definition after_fenced_first : System := Eval vm_compute in after fenced_first.
End Case.

(** ** Any schedule of any processes *)

Lemma elem_split {A} (e : A) l : e ∈ l -> exists later earlier, l = later ++ e :: earlier.
Proof. apply list_elem_of_split. Qed.

Lemma elem_later {A} (e d : A) l1 l2 : e ∈ l2 -> e ∈ l1 ++ d :: l2.
Proof. intros He. apply elem_of_app. right. by right. Qed.

Section ledger.
Context `{JsonNumber, !JsonFloat, !JsonU64Laws, !Sha2Crate}.
Variable X : string.
Variable N start : Z.
Variable actions : list action.
Variable s : System.
(** No name of another identifier's backup is the name of [X]'s entry; the messages of [X]
    expire at [N] or within thirty days after, and none of its fences before [N]. *)
Hypothesis own_backups : contains (entry_name X) ".json." = false.
Hypothesis after_epoch : (0 <= start)%Z.
Hypothesis expiries : Forall (consistent X N) actions.
Hypothesis reached : run (initial start) actions = Some s.

Lemma log_ok : explained_log X N (log (world s)).
Proof.
  pose proof (reached_inv X N own_backups actions _ s (initial_inv X N start after_epoch) expiries reached) as Hinv.
  exact (inv_log _ _ _ _ _ (sys_ledger _ _ _ Hinv)).
Qed.

Lemma log_explained later e earlier : log (world s) = later ++ e :: earlier -> explained X N earlier e.
Proof.
  intros Hlog. pose proof log_ok as Hl. rewrite Hlog in Hl. clear Hlog.
  induction later as [|e' later IH]; [apply Hl|]. by apply IH, Hl.
Qed.

Lemma log_explained_two l1 e1 l2 e2 l3 : log (world s) = l1 ++ e1 :: l2 ++ e2 :: l3 -> explained X N l3 e2.
Proof.
  intros Hlog. apply (log_explained (l1 ++ e1 :: l2)). by rewrite <- app_assoc.
Qed.

(** A hand-over comes after a claim. *)
Lemma handed_claimed later j earlier : log (world s) = later ++ Handed X j :: earlier ->
  exists i t, Created (entry_name X) "claimed" i t ∈ earlier.
Proof.
  intros Hlog. destruct (log_explained _ _ _ Hlog eq_refl) as [_ [[[t Ht] _]|Hab]]; [by exists j, t|].
  destruct (elem_split _ _ Hab) as (l1 & l2 & ->).
  destruct (log_explained_two _ _ _ _ _ Hlog eq_refl) as (i & t & _ & Hc). exists i, t. by apply elem_later.
Qed.

(** C9: An identifier is recorded once, as long as all its messages and fences name an
    expiry, none before a time [N] and no message's later than thirty days after [N]
    (and the file name of its entry could not be that of another's backup, the clock starts
    at the epoch or later, and no two running processes share an identifier).  Then, whatever processes accept, fence, retract,
    reconcile, resolve, prune and hook, in any interleaving, wherever they die and calls
    fail, after an entry for it was created no process claims it, and none creates
    another entry until thirty days after [N]; so one that was fenced, or refused, before
    it was claimed is never handed over. *)
Theorem recorded_once :
  (forall later st i t earlier,
     log (world s) = later ++ Created (entry_name X) st i t :: earlier ->
     (exists st' i' t', Created (entry_name X) st' i' t' ∈ earlier) ->
     (N + 30 * 86400000 <= t)%Z /\ st <> "claimed")
  /\ (forall st i t j,
     Created (entry_name X) st i t ∈ log (world s) -> st <> "claimed" -> (t < N + 30 * 86400000)%Z ->
     Handed X j ∉ log (world s)).
Proof.
  split.
  - intros later st i t earlier Hlog Hrec. by apply (log_explained _ _ _ Hlog).
  - intros st i t j Hin Hst Ht Hj. destruct (elem_split _ _ Hj) as (later & earlier & Hlog).
    destruct (handed_claimed _ _ _ Hlog) as (i0 & t0 & Hc).
    pose proof (elem_later _ (Handed X j) later _ Hc) as Hcl. rewrite <- Hlog in Hcl.
    destruct (elem_split _ _ Hin) as (l1 & l2 & Hl). rewrite Hl in Hcl.
    apply elem_of_app in Hcl as [Hcl|[Heq|Hcl]%elem_of_cons]; [|congruence|].
    + destruct (elem_split _ _ Hcl) as (l3 & l4 & ->). rewrite <- app_assoc in Hl.
      destruct (log_explained _ _ _ Hl eq_refl) as [_ []]; [|done]. exists st, i, t. apply elem_of_app. right. left.
    + destruct (log_explained _ _ _ Hl eq_refl) as [Hhor _]; [by exists "claimed", i0, t0|]. unfold horizon in Hhor. lia.
Qed.

(** C35: A message is handed to the deliverer again only when that is safe, under the
    conditions of C9 on the expiries of its identifier (so not for one that is sent again
    more than thirty days after an earlier message of it expired): every hand-over of an
    identifier comes after a claim, each process hands it over at most once, and it is
    either the claimer's, before anyone was told that the deliverer has no such message, or
    that of a process that was itself told so; so where the deliverer never says so, it is
    handed over at most once. *)
Theorem handed_over_when_safe :
  (forall later j earlier, log (world s) = later ++ Handed X j :: earlier ->
     (Handed X j ∉ earlier)
     /\ (exists i t, Created (entry_name X) "claimed" i t ∈ earlier)
     /\ ((exists t, Created (entry_name X) "claimed" j t ∈ earlier) /\ (forall i, FoundAbsent X i ∉ earlier)
         \/ FoundAbsent X j ∈ earlier))
  /\ ((forall i, FoundAbsent X i ∉ log (world s)) ->
      forall later j earlier, log (world s) = later ++ Handed X j :: earlier -> forall i, Handed X i ∉ earlier).
Proof.
  split.
  - intros later j earlier Hlog. destruct (log_explained _ _ _ Hlog eq_refl) as [Hno Hwhy].
    split; [done|]. split; [by eapply handed_claimed|done].
  - intros Hnone later j earlier Hlog i Hi.
    assert (Hmine : forall j earlier later, log (world s) = later ++ Handed X j :: earlier ->
      Handed X j ∉ earlier /\ exists t, Created (entry_name X) "claimed" j t ∈ log (world s)).
    { intros j' e' l' Hl. destruct (log_explained _ _ _ Hl eq_refl) as [Hno [[[t Ht] _]|Hab]]; split; try done.
      - exists t. rewrite Hl. by apply elem_later.
      - destruct (Hnone j'). rewrite Hl. by apply elem_later. }
    destruct (Hmine _ _ _ Hlog) as [Hno [t Ht]]. destruct (elem_split _ _ Hi) as (l1 & l2 & ->).
    destruct (Hmine i l2 (later ++ Handed X j :: l1)) as [_ [t' Ht']]; [by rewrite Hlog, <- app_assoc|].
    rewrite (claim_unique X N _ _ _ _ _ log_ok Ht' Ht) in Hi, Hno. by apply Hno.
Qed.
End ledger.

(** C37: Times are read back: what [format_rfc3339_ms] writes of a time in the years 0 to
    9999, [parse_rfc3339_ms] reads as that time, and what [format_rfc3339] writes of a whole
    second as that second. *)
Theorem rfc3339_round_trip unix_ms :
  (-62167219200000 <= unix_ms <= 253402300799999)%Z ->
  parse_rfc3339_ms (format_rfc3339_ms unix_ms) = Some unix_ms
  /\ parse_rfc3339_ms (format_rfc3339 (unix_ms / 1000)) = Some (unix_ms / 1000 * 1000)%Z.
Proof.
  intros Hms. split; [by apply rfc3339_ms_round_trip|]. apply rfc3339_seconds_round_trip.
  split; [apply Z.div_le_lower_bound|apply Z.lt_succ_r, Z.div_lt_upper_bound]; lia.
Qed.

(** ** Witnesses *)

Section witnesses.
#[local] Existing Instance integer_number.
#[local] Existing Instance integer_float.
#[local] Existing Instance integer_u64_laws.
#[local] Existing Instance first_bytes_digest.

Lemma recovered_reached : run (initial 5000) Case.recovered = Some Case.after_recovered.
Proof. reflexivity. Qed.
Lemma fenced_again_reached : run (initial 5000) Case.fenced_again = Some Case.after_fenced_again.
Proof. reflexivity. Qed.
Lemma fenced_first_reached : run (initial 5000) Case.fenced_first = Some Case.after_fenced_first.
Proof. reflexivity. Qed.

Ltac on_time := repeat constructor; intros _; eexists; (split; [vm_compute; reflexivity|]); unfold horizon; lia.

Lemma recovered_consistent : Forall (consistent Case.id 7200000) Case.recovered.
Proof. on_time. Qed.
Lemma fenced_again_consistent : Forall (consistent Case.id 7200000) Case.fenced_again.
Proof. on_time. Qed.
Lemma fenced_first_consistent : Forall (consistent Case.id 7200000) Case.fenced_first.
Proof. on_time. Qed.

(** The claim was handed over and pruned, and the identifier fenced, late; one fenced early
    is not handed over. *)
Lemma recorded_once_witness :
  (log (world Case.after_fenced_again)
   = [Created (entry_name Case.id) "fenced" 4 2678410000; Handed Case.id 1; FoundAbsent Case.id 1;
      Created (entry_name Case.id) "claimed" 0 5000]
   /\ (7200000 + 30 * 86400000 <= 2678410000)%Z)
  /\ (Created (entry_name Case.id) "fenced" 0 5000 ∈ log (world Case.after_fenced_first)
      /\ Handed Case.id 1 ∉ log (world Case.after_fenced_first)).
Proof.
  split.
  - split; [reflexivity|].
    apply (proj1 (recorded_once Case.id 7200000 5000 _ _ eq_refl ltac:(lia) fenced_again_consistent fenced_again_reached)
             [] "fenced" 4 2678410000%Z
             [Handed Case.id 1; FoundAbsent Case.id 1; Created (entry_name Case.id) "claimed" 0 5000%Z] eq_refl).
    exists "claimed", 0, 5000%Z. right. right. left.
  - assert (Hin : Created (entry_name Case.id) "fenced" 0 5000%Z ∈ log (world Case.after_fenced_first)) by left.
    split; [exact Hin|].
    apply (proj2 (recorded_once Case.id 7200000 5000 _ _ eq_refl ltac:(lia) fenced_first_consistent fenced_first_reached)
             "fenced" 0 5000%Z 1 Hin); [discriminate|lia].
Defined.

(** The claim of a process that died is handed over by the one that was told it is absent. *)
Lemma handed_over_when_safe_witness :
  log (world Case.after_recovered)
  = [Handed Case.id 1; FoundAbsent Case.id 1; Created (entry_name Case.id) "claimed" 0 5000]
  /\ Handed Case.id 1 ∉ [FoundAbsent Case.id 1; Created (entry_name Case.id) "claimed" 0 5000].
Proof.
  split; [reflexivity|].
  exact (proj1 (proj1 (handed_over_when_safe Case.id 7200000 5000 _ _ eq_refl ltac:(lia) recovered_consistent recovered_reached)
    [] 1 [FoundAbsent Case.id 1; Created (entry_name Case.id) "claimed" 0 5000%Z] eq_refl)).
Defined.

Lemma rfc3339_round_trip_witness :
  format_rfc3339_ms 1793018096250 = "2026-10-26T12:34:56.250Z"
  /\ parse_rfc3339_ms (format_rfc3339_ms 1793018096250) = Some 1793018096250%Z.
Proof. split; [vm_compute; reflexivity|]. apply (rfc3339_round_trip 1793018096250). lia. Defined.

(** ** What interleaved operations can do *)

(** Two retries can recover one claim at the same time: both are told that the message is
    absent, and both hand it over. *)
Example two_recoveries :
  (fun s => log (world s)) <$> run (initial 5000) Case.recovered_twice
  = Some [Handed Case.id 2; Handed Case.id 1; FoundAbsent Case.id 2; FoundAbsent Case.id 1;
          Created (entry_name Case.id) "claimed" 0 5000%Z].
Proof. reflexivity. Qed.

(** A retraction that was answered can be lost to a recovery, which writes the entry it read
    before, without the lock. *)
Example retraction_lost :
  (fun s => (answer_in 2 s, state_of Case.id s)) <$> run (initial 5000) Case.retracted_meanwhile
  = Some (Some (ValueAns (Ok (Object [("outcome", VString "retracted"); ("state", VString "retracted")]))),
          Some "accepted").
Proof. reflexivity. Qed.

(** A fence lasts until thirty days after the expiry it names; a message that expires later
    than that is handed over in spite of it. *)
Example fence_lapses :
  (fun s => log (world s)) <$> run (initial 5000) Case.fence_forgotten
  = Some [Handed Case.id 1; Created (entry_name Case.id) "claimed" 1 (5000 + 38 * 86400000)%Z;
          Created (entry_name Case.id) "fenced" 0 5000%Z].
Proof. reflexivity. Qed.

(** A fence without a body hash makes the message a conflict, not a refusal. *)
Example fence_conflicts :
  answer_in 1 <$> run (initial 5000) Case.fenced_first
  = Some (Some (AcceptAns (Ok (answer "conflict" (Some "fenced") "same ID with a different body")))).
Proof. reflexivity. Qed.
End witnesses.
