(* ===== verification/TickModel.v ===== *)
(** * tick-hub: text, reminders and boundaries
    ([rs/tick-hub/src/text.rs], [emit.rs], [model.rs], [protocols.rs])

    The line-oriented text helpers and the lines of the protocol; then reminders and the
    cadences they name.  Rust's [IndexMap] is an association list in insertion order. *)
From S2P Require Import Prelude RustStr.

(** ** Text ([text.rs]) *)

(** [character.is_whitespace() || ('\u{1c}'..='\u{1f}').contains(&character)] *)
Definition is_whitespace (ch : string) : bool :=
  char_is_whitespace ch || in_codes 28 31 (char_code ch).

Definition trim (v : string) : string := trim_matches is_whitespace v.

(** [char::is_control]: Unicode's Cc. *)
Definition char_is_control (ch : string) : bool :=
  in_codes 0 31 (char_code ch) || in_codes 127 159 (char_code ch).

Definition hex_digit (n : N) : ascii :=
  ascii_of_N (if (n <? 10)%N then 48 + n else 87 + n)%N.

(** [{scalar:0width$x}] for a scalar of at most [width] digits. *)
Fixpoint hex (width : nat) (n : N) : string :=
  match width with
  | 0 => ""
  | S width => hex width (n / 16) +:+ str1 (hex_digit (n mod 16))
  end.

Definition escape_char (quote : ascii) (ch : string) : string :=
  if (ch =? str1 bslash)%string then str1 bslash +:+ str1 bslash
  else if (ch =? str1 nl)%string then str1 bslash +:+ "n"
  else if (ch =? str1 "013")%string then str1 bslash +:+ "r"
  else if (ch =? str1 "009")%string then str1 bslash +:+ "t"
  else if (ch =? str1 quote)%string then str1 bslash +:+ ch
  else if char_is_control ch || (negb (ch =? " ")%string && char_is_whitespace ch) then
    let scalar := char_code ch in
    if (scalar <=? 255)%N then str1 bslash +:+ "x" +:+ hex 2 scalar
    else if (scalar <=? 65535)%N then str1 bslash +:+ "u" +:+ hex 4 scalar
    else str1 bslash +:+ "U" +:+ hex 8 scalar
  else ch.

Definition string_repr (v : string) : string :=
  let quote := if str_contains_byte "'" v && negb (str_contains_byte dquote v)
               then dquote else "'"%char in
  str1 quote +:+ of_chars (escape_char quote <$> chars v) +:+ str1 quote.

Definition is_line_boundary (ch : string) : bool :=
  let n := char_code ch in
  in_codes 10 13 n || in_codes 28 30 n || (n =? 133)%N || (n =? 8232)%N || (n =? 8233)%N.

Definition split_lines (v : string) : list string := split is_line_boundary v.

(** ** [IndexMap<String, A>] *)

Section index_map.
Context {A : Type}.

Fixpoint im_get (m : list (string * A)) (k : string) : option A :=
  match m with
  | [] => None
  | (k', a) :: m' => if (k' =? k)%string then Some a else im_get m' k
  end.

(** [insert]: in place when the key is present, at the end otherwise. *)
Fixpoint im_insert (m : list (string * A)) (k : string) (a : A) : list (string * A) :=
  match m with
  | [] => [(k, a)]
  | (k', a') :: m' => if (k' =? k)%string then (k', a) :: m' else (k', a') :: im_insert m' k a
  end.

Definition im_contains (m : list (string * A)) (k : string) : bool :=
  match im_get m k with Some _ => true | None => false end.
End index_map.

Abbreviation index_map := (list (string * string)).

(** ** Line formats ([emit.rs]) *)

Definition HEALTH_STATUS_OK : string := "ok".
Definition HEALTH_STATUS_STALE : string := "stale".
Definition HEALTH_STATUS_MISSING : string := "missing".

(** [value.replace('\\', "\\\\").replace('"', "\\\"")] *)
Definition escape_quoted (v : string) : string :=
  replace (str1 dquote) (str1 bslash +:+ str1 dquote)
    (replace (str1 bslash) (str1 bslash +:+ str1 bslash) v).

Definition quote (v : string) : string := str1 dquote +:+ escape_quoted v +:+ str1 dquote.

Definition needs_quote (v : string) : bool :=
  str_is_empty v || existsb is_whitespace (chars v)
  || str_contains_byte dquote v || str_contains_byte bslash v.

Definition fmt_value (v : string) : string := if needs_quote v then quote v else v.

Definition format_action (skill : string) (fields : index_map) (title : string) : string :=
  let parts := ("ACTION: " +:+ skill)
                 :: ((fun kv => kv.1 +:+ "=" +:+ fmt_value kv.2) <$> fields) in
  join " " (if str_is_empty title then parts else parts ++ ["title=" +:+ quote title]).

Definition format_tick_header (name schedule : string) : string :=
  "[tick-hub: " +:+ name +:+ " · " +:+ schedule +:+ "]".

Definition format_schedule (cadence_secs : Z) (cadence_offset_secs : option Z) : string :=
  if decide (cadence_secs <= 0)%Z then "every tick"
  else match cadence_offset_secs with
       | Some offset => "every " +:+ pretty cadence_secs +:+ "s at +" +:+ pretty offset +:+ "s"
       | None => "every " +:+ pretty cadence_secs +:+ "s"
       end.

Definition format_note (text : string) : string := "NOTE: " +:+ text.
Definition format_error (text : string) : string := "ERROR: " +:+ text.

Definition format_health (name status : string) (age_secs : option Z) (threshold_secs : Z)
    (detail : string) : string :=
  let age := match age_secs with Some a => pretty a | None => "NA" end in
  "HEALTH: " +:+ name +:+ " " +:+ status +:+ " age_secs=" +:+ age +:+ " threshold_secs="
  +:+ pretty threshold_secs +:+ " detail=" +:+ quote detail.

(** [detail.trim()] is Rust's trim, not the contract's. *)
Definition format_no_result (name detail : string) : string :=
  let detail := str_trim detail in
  let line := "NO_RESULT: " +:+ name
              +:+ " could not determine its condition; this is not a pass" in
  if str_is_empty detail then line else line +:+ " (" +:+ detail +:+ ")".

Definition format_unevaluable (name : string) (dependencies : list string) : string :=
  "NO_RESULT: " +:+ name +:+ " is unevaluable because dependency " +:+ join "," dependencies
  +:+ " could not determine its condition; this is not a pass".

Definition format_clean (name : string) : string :=
  "CLEAN: " +:+ name +:+ " ran and found nothing to report".

Definition format_suppressed (name : string) (missing_flags : list string) : string :=
  let flags := match missing_flags with [] => "(none recorded)" | _ => join "," missing_flags end in
  "SUPPRESSED: " +:+ name +:+ " did not run; required flag(s) not set: " +:+ flags.

Definition EVERY_TICK : Z := 0.

Inductive EmitKind := Action | Note.

Definition EmitKind_as_str (k : EmitKind) : string :=
  match k with Action => "action" | Note => "note" end.

Definition EmitKind_from_value (v : string) : option EmitKind :=
  match v with "action" => Some Action | "note" => Some Note | _ => None end.

Inductive GateWhen := Success | Failure | Nonempty | Always.

Definition GateWhen_as_str (w : GateWhen) : string :=
  match w with
  | Success => "success" | Failure => "failure" | Nonempty => "nonempty" | Always => "always"
  end.

Definition GateWhen_from_value (v : string) : option GateWhen :=
  match v with
  | "success" => Some Success
  | "failure" => Some Failure
  | "nonempty" => Some Nonempty
  | "always" => Some Always
  | _ => None
  end.

Record Gate := {
  cmd : string;
  when : GateWhen;
  capture : bool;
  parallel : bool;
  timeout_secs : option Z;
}.

Definition Gate_new (cmd : string) : Gate := {|
  cmd := cmd; when := Success; capture := false; parallel := false; timeout_secs := None |}.

Record Emit := {
  kind : EmitKind;
  title : string;
  skill : string;
  fields : index_map;
}.

Definition Emit_action (skill title : string) : Emit := {|
  kind := Action; title := title; skill := skill; fields := [] |}.
Definition Emit_note (text : string) : Emit := {|
  kind := Note; title := text; skill := ""; fields := [] |}.

Record Reminder := {
  name : string;
  emit : Emit;
  cadence_secs : Z;
  requires_flags : list string;
  gate : option Gate;
  depends_on : list string;
  cadence_offset_secs : option Z;
  cadence_window_secs : option Z;
}.

Definition Reminder_new (name : string) (emit : Emit) : Reminder := {|
  name := name; emit := emit; cadence_secs := EVERY_TICK; requires_flags := []; gate := None;
  depends_on := []; cadence_offset_secs := None; cadence_window_secs := None |}.

Record HealthCheck := {
  hc_name : string;
  hc_glob : string;
  threshold_secs : Z;
  detail : string;
}.

Record TickConfig := {
  reminders : list Reminder;
  health_checks : list HealthCheck;
  description : string;
}.

Definition by_name (config : TickConfig) : list (string * Reminder) :=
  foldl (fun out r => im_insert out (name r) r) [] (reminders config).

(** ** Boundaries ([protocols.rs]) *)

Record GateResult := {
  returncode : Z;
  stdout : string;
  ok : bool;
  error : option string;
}.

Definition GateResult_completed (returncode : Z) (stdout : string) : GateResult := {|
  returncode := returncode; stdout := stdout; ok := true; error := None |}.
Definition GateResult_failed (error : string) : GateResult := {|
  returncode := -1; stdout := ""; ok := false; error := Some error |}.

(** The two traits; within one tick a boundary answers the same question alike. *)
Class GateRunner := run : string -> option Z -> GateResult.
Class FileAgeProbe := newest_age_secs : string -> Z -> option Z.
