(* ===== verification/TickCadence.v ===== *)
(** * tick-hub: cadences and the fired-state store ([rs/tick-hub/src/cadence.rs])

    Dueness decisions on [i64] seconds, the text of the fired-state file, and its
    replacement through a temporary file.  The file system is a map from
    directory and file name to contents; which operation fails is an input. *)
From S2P Require Import Prelude RustStr TickModel.

Definition INTERNAL_STATE_PREFIX : string := "__tick_hub_internal__.".
Definition UNRESOLVED_RENDER_STATE_PREFIX : string := "__tick_hub_internal__.unresolved_render.".
Definition UNRESOLVED_RENDER_COUNT_SUFFIX : string := ".count".
Definition UNRESOLVED_RENDER_FIRST_SUFFIX : string := ".first_failure_epoch".

Definition unresolved_render_state_keys (name : string) : string * string :=
  let base := UNRESOLVED_RENDER_STATE_PREFIX +:+ name in
  (base +:+ UNRESOLVED_RENDER_COUNT_SUFFIX, base +:+ UNRESOLVED_RENDER_FIRST_SUFFIX).

(** ** Dueness *)

(** [i64::div_euclid] for a non-zero divisor. *)
Definition div_euclid (a b : Z) : Z := if decide (0 < b)%Z then (a / b)%Z else (- (a / - b))%Z.

(** Multiplication and addition wrap, as in a release build. *)
Definition scheduled_instant (cadence_secs offset_secs now : Z) : Z :=
  (div_euclid (now -sat offset_secs) cadence_secs *w cadence_secs +w offset_secs)%i64.

Definition is_due (name : string) (cadence_secs now : Z) (last_fired : gmap string Z)
    (offset_secs window_secs : option Z) : bool :=
  if decide (cadence_secs <= EVERY_TICK)%Z then true
  else match last_fired !! name with
  | None => true
  | Some last =>
      match offset_secs with
      | None => bool_decide (cadence_secs <= (now -sat last)%i64)%Z
      | Some offset =>
          let instant := scheduled_instant cadence_secs offset now in
          if decide (instant <= last)%Z then false
          else match window_secs with
               | Some window => bool_decide ((now -sat instant)%i64 < window)%Z
               | None => true
               end
      end
  end.

Definition reminder_due (now : Z) (last_fired : gmap string Z) (r : Reminder) : bool :=
  is_due (name r) (cadence_secs r) now last_fired (cadence_offset_secs r) (cadence_window_secs r).

Definition due_reminders (rs : list Reminder) (now : Z) (last_fired : gmap string Z)
  : list Reminder :=
  List.filter (reminder_due now last_fired) rs.

(** ** The fired-state text *)

(** One line of [load_fired_state]: the entry it adds, if any. *)
Definition fired_entry (raw_line : string) : option (string * Z) :=
  let line := trim raw_line in
  if str_is_empty line || starts_with line "#" then None
  else
    '(key, v) ← split_once "=" line;
    if str_is_empty key || existsb is_whitespace (chars key)
       || str_is_empty v || negb (str_forallb is_digit v)
    then None
    else epoch ← parse_i64 v; Some (key, epoch).

(** The file's text, or [None] when it cannot be read. *)
Definition load_fired_state (file : option string) : gmap string Z :=
  match file with
  | None => ∅
  | Some text => map_collect (omap fired_entry (split_lines text))
  end.

Definition invalid_entry (kv : string * Z) : bool :=
  str_is_empty kv.1 || str_contains_byte "=" kv.1 || existsb is_whitespace (chars kv.1)
  || bool_decide (kv.2 < 0)%Z.

Definition fired_header : string :=
  "# tick-hub fired-state — reminder=last_fired_epoch (managed by tick-hub)" +:+ str1 nl
  +:+ "# " +:+ INTERNAL_STATE_PREFIX +:+ "* entries are reserved retry diagnostics" +:+ str1 nl.

Definition fired_line (kv : string * Z) : string := kv.1 +:+ "=" +:+ pretty kv.2 +:+ str1 nl.

Definition fired_text (state : gmap string Z) : string :=
  fired_header +:+ of_chars (fired_line <$> btree_iter state).

(** ** Replacing the file *)

(** A path is its directory and its [file_name], which may be missing. *)
Abbreviation path := (string * option string)%type.
Abbreviation files := (gmap (string * string) string).

Inductive io_error :=
| InvalidInput (key : string) (v : Z)
| IoError (message : string).

(** What the operating system answers: an error for any of the three calls, and how
    much of the text a failing write leaves behind. *)
Record Faults := {
  create_dir_fails : option string;
  write_fails : option (string * nat);
  rename_fails : option string;
}.

(** [path.file_name().unwrap_or("state")] with [.tmp] pushed. *)
Definition temporary_name (p : path) : string := default "state" p.2 +:+ ".tmp".

(** The result, and every state the file system goes through, the last one first:
    what a reader or a crash can observe. *)
Definition persist_fired_state (faults : Faults) (fs : files) (p : path)
    (state : gmap string Z) : result io_error () * list files :=
  match List.find invalid_entry (btree_iter state) with
  | Some (key, v) => (Err (InvalidInput key v), [fs])
  | None =>
      match create_dir_fails faults with
      | Some e => (Err (IoError e), [fs])
      | None =>
          let temporary := (p.1, temporary_name p) in
          let text := fired_text state in
          let partial n := <[temporary := String.substring 0 n text]> fs in
          match write_fails faults with
          | Some (e, n) => (Err (IoError e), rev (partial <$> seq 0 (S n)) ++ [fs])
          | None =>
              let written := <[temporary := text]> fs in
              let before := rev (partial <$> seq 0 (S (String.length text))) ++ [fs] in
              match rename_fails faults, p.2 with
              | Some e, _ => (Err (IoError e), delete temporary written :: written :: before)
              | None, None =>
                  (Err (IoError "is a directory"), delete temporary written :: written :: before)
              | None, Some target =>
                  (Ok (), <[(p.1, target) := text]> (delete temporary written) :: written :: before)
              end
          end
      end
  end.
