(* ===== verification/TickIo.v ===== *)
(** * tick-hub: configuration files ([rs/tick-hub/src/io.rs])

    The strict value tree, the reading of a configuration from a JSON value, its
    serialization, and the validation both share.  The parsers and printers of
    JSON and YAML text are third-party code and not modelled: a parsed document is
    a [document], with the duplicate keys it may hold.  An error is a constructor
    that carries the values the source formats into its text. *)
From S2P Require Import Prelude RustStr External TickModel TickCadence.

Section io.
Context `{JsonNumber}.

Inductive TickConfigError :=
| ExpectedObject (place : string) (v : value)
| UnknownFields (place : string) (keys : list string)
| MustBeString (place key : string)
| MustBeInteger (place key : string)
| MustBeNonNegative (place key : string)
| MustBeBoolean (place key : string)
| MustBeStringList (place key : string)
| MustContainStrings (place key : string)
| UnknownWhen (place spelling : string)
| TimeoutNotPositive (place : string) (secs : Z)
| UnknownKind (place spelling : string)
| SkillRequired (place : string)
| EmitRequired (place : string)
| MustBeNonEmpty (place key : string)
| NameNotAKey (place : string)
| NameReserved (place : string)
| OffsetWithoutCadence (place : string)
| OffsetTooLarge (place : string) (offset cadence : Z)
| WindowWithoutOffset (place : string)
| WindowOutOfRange (place : string) (window cadence : Z)
| InvalidDependency (reminder dependency : string)
| DuplicateDependency (reminder : string)
| SelfDependency (reminder : string)
| UnknownDependency (reminder dependency : string)
| DependencyCycle (path : list string)
| MustBeList (key : string)
| ReminderNamesNotUnique
| HealthNamesNotUnique
| InvalidReminderNames
| NegativeCadence
| ActionWithoutSkill
| MergeKey
| HealthNameEmpty
| HealthGlobEmpty
| NegativeThreshold.

(** ** Reading fields *)

Definition as_obj (v : value) (place : string) : result TickConfigError object :=
  match as_object v with Some obj => Ok obj | None => Err (ExpectedObject place v) end.

Definition reject_unknown (obj : object) (allowed : list string) (place : string)
  : result TickConfigError () :=
  match sort_dedup (List.filter (fun key => negb (bool_decide (key ∈ allowed))) obj.*1) with
  | [] => Ok ()
  | unknown => Err (UnknownFields place unknown)
  end.

Definition req_str (obj : object) (key place : string) : result TickConfigError string :=
  match v ← obj_get obj key; as_str v with
  | Some s => Ok s
  | None => Err (MustBeString place key)
  end.

Definition opt_str (obj : object) (key default place : string) : result TickConfigError string :=
  match obj_get obj key with
  | None => Ok default
  | Some (VString s) => Ok s
  | Some _ => Err (MustBeString place key)
  end.

Definition opt_int (obj : object) (key : string) (default : Z) (place : string)
  : result TickConfigError Z :=
  match obj_get obj key with
  | None => Ok default
  | Some v => match as_i64 v with Some z => Ok z | None => Err (MustBeInteger place key) end
  end.

Definition opt_nonnegative_int (obj : object) (key : string) (default : Z) (place : string)
  : result TickConfigError Z :=
  z ← opt_int obj key default place;
  if decide (z < 0)%Z then Err (MustBeNonNegative place key) else Ok z.

Definition opt_bool (obj : object) (key : string) (default : bool) (place : string)
  : result TickConfigError bool :=
  match obj_get obj key with
  | None => Ok default
  | Some v => match as_bool v with Some b => Ok b | None => Err (MustBeBoolean place key) end
  end.

Definition opt_str_list (obj : object) (key place : string)
  : result TickConfigError (list string) :=
  match obj_get obj key with
  | None => Ok []
  | Some v =>
      match as_array v with
      | None => Err (MustBeStringList place key)
      | Some items =>
          collect_results (fun item => match as_str item with
                                       | Some s => Ok s
                                       | None => Err (MustContainStrings place key)
                                       end) items
      end
  end.

Definition insert_field (place key : string) (nv : string * value) (out : index_map)
  : result TickConfigError index_map :=
  match as_str nv.2 with
  | Some s => Ok (im_insert out nv.1 s)
  | None => Err (MustBeString (place +:+ "." +:+ key) nv.1)
  end.

Definition opt_fields (obj : object) (key place : string) : result TickConfigError index_map :=
  match obj_get obj key with
  | None => Ok []
  | Some v =>
      fields ← as_obj v (place +:+ "." +:+ key);
      each_result (insert_field place key) fields []
  end.

(** [match object.get(key) { Some(value) if !value.is_null() => ... }] *)
Definition present (obj : object) (key : string) : bool :=
  match obj_get obj key with None | Some Null => false | Some _ => true end.

(** ** Gates and emissions *)

Definition gate_timeout (obj : object) (place : string) : result TickConfigError (option Z) :=
  if present obj "timeout_secs" then
    secs ← opt_nonnegative_int obj "timeout_secs" 0 place;
    if decide (secs <= 0)%Z then Err (TimeoutNotPositive place secs) else Ok (Some secs)
  else Ok None.

Definition gate_keys : list string := ["cmd"; "when"; "capture"; "timeout_secs"; "parallel"].

Definition gate_from (v : option value) (place : string) : result TickConfigError (option Gate) :=
  match v with
  | None | Some Null => Ok None
  | Some v =>
      obj ← as_obj v place;
      reject_unknown obj gate_keys place;;
      when_name ← opt_str obj "when" "success" place;
      match GateWhen_from_value when_name with
      | None => Err (UnknownWhen place when_name)
      | Some w =>
          timeout ← gate_timeout obj place;
          command ← req_str obj "cmd" place;
          capture ← opt_bool obj "capture" false place;
          parallel ← opt_bool obj "parallel" false place;
          Ok (Some {| cmd := command; when := w; capture := capture; parallel := parallel;
                      timeout_secs := timeout |})
      end
  end.

Definition emit_keys : list string := ["kind"; "title"; "skill"; "fields"].

(** [emit.kind == EmitKind::Action && trim(&emit.skill).is_empty()] *)
Definition action_without_skill (e : Emit) : bool :=
  match kind e with Action => str_is_empty (trim (skill e)) | Note => false end.

Definition emit_from (v : value) (place : string) : result TickConfigError Emit :=
  obj ← as_obj v place;
  reject_unknown obj emit_keys place;;
  kind_name ← opt_str obj "kind" "action" place;
  match EmitKind_from_value kind_name with
  | None => Err (UnknownKind place kind_name)
  | Some k =>
      title ← opt_str obj "title" "" place;
      skill ← opt_str obj "skill" "" place;
      fields ← opt_fields obj "fields" place;
      let e := {| kind := k; title := title; skill := skill; fields := fields |} in
      if action_without_skill e then Err (SkillRequired place) else Ok e
  end.

(** ** Reminders *)

(** [name.contains('=') || name.chars().any(is_whitespace)] *)
Definition not_a_key (n : string) : bool :=
  str_contains_byte "=" n || existsb is_whitespace (chars n).

Definition reminder_name (obj : object) (place : string) : result TickConfigError string :=
  n ← req_str obj "name" place;
  if str_is_empty (trim n) then Err (MustBeNonEmpty place "name")
  else if not_a_key n then Err (NameNotAKey place)
  else if starts_with n INTERNAL_STATE_PREFIX then Err (NameReserved place)
  else Ok n.

Definition reminder_offset (obj : object) (cadence : Z) (place : string)
  : result TickConfigError (option Z) :=
  if present obj "cadence_offset_secs" then
    offset ← opt_nonnegative_int obj "cadence_offset_secs" 0 place;
    if decide (cadence <= 0)%Z then Err (OffsetWithoutCadence place)
    else if decide (cadence <= offset)%Z then Err (OffsetTooLarge place offset cadence)
    else Ok (Some offset)
  else Ok None.

Definition reminder_window (obj : object) (cadence : Z) (offset : option Z) (place : string)
  : result TickConfigError (option Z) :=
  if present obj "cadence_window_secs" then
    window ← opt_nonnegative_int obj "cadence_window_secs" 0 place;
    match offset with
    | None => Err (WindowWithoutOffset place)
    | Some _ =>
        if decide (window <= 0 \/ cadence < window)%Z
        then Err (WindowOutOfRange place window cadence) else Ok (Some window)
    end
  else Ok None.

Definition reminder_keys : list string :=
  ["name"; "emit"; "cadence_secs"; "cadence_offset_secs"; "cadence_window_secs";
   "requires_flags"; "depends_on"; "gate"].

Definition reminder_from (v : value) (place : string) : result TickConfigError Reminder :=
  obj ← as_obj v place;
  reject_unknown obj reminder_keys place;;
  match obj_get obj "emit" with
  | None | Some Null => Err (EmitRequired place)
  | Some emit =>
      n ← reminder_name obj place;
      cadence ← opt_nonnegative_int obj "cadence_secs" 0 place;
      offset ← reminder_offset obj cadence place;
      window ← reminder_window obj cadence offset place;
      e ← emit_from emit (place +:+ ".emit");
      required ← opt_str_list obj "requires_flags" place;
      g ← gate_from (obj_get obj "gate") (place +:+ ".gate");
      depends ← opt_str_list obj "depends_on" place;
      Ok {| name := n; emit := e; cadence_secs := cadence; requires_flags := required;
            gate := g; depends_on := depends; cadence_offset_secs := offset;
            cadence_window_secs := window |}
  end.

(** ** Dependencies *)

(** One dependency of the first pass, with the ones of its reminder seen so far. *)
Definition check_dependency (known : gmap string Reminder) (r : Reminder) (dependency : string)
    (unique : gset string) : result TickConfigError (gset string) :=
  if str_is_empty (trim dependency) || not_a_key dependency
  then Err (InvalidDependency (name r) dependency)
  else if decide (dependency ∈ unique) then Err (DuplicateDependency (name r))
  else if (dependency =? name r)%string then Err (SelfDependency (name r))
  else match known !! dependency with
       | None => Err (UnknownDependency (name r) dependency)
       | Some _ => Ok ({[dependency]} ∪ unique)
       end.

Definition check_dependencies (known : gmap string Reminder) (r : Reminder) (_ : ())
  : result TickConfigError () :=
  each_result (check_dependency known r) (depends_on r) ∅;; Ok ().

(** The sets [visiting] and [visited], and [path]. *)
Record Visit := { visiting : gset string; visited : gset string; visit_path : list string }.

Definition dependencies (known : gmap string Reminder) (n : string) : list string :=
  match known !! n with Some r => depends_on r | None => [] end.

(** The depth-first search; the fuel bounds the depth of the recursion, and every
    name on the path is another known one. *)
Fixpoint visit (fuel : nat) (known : gmap string Reminder) (n : string) (st : Visit)
  : result TickConfigError Visit :=
  match fuel with
  | 0 => Ok st
  | S fuel =>
      if decide (n ∈ visited st) then Ok st
      else if decide (n ∈ visiting st) then Err (DependencyCycle (visit_path st ++ [n]))
      else
        st ← each_result (visit fuel known) (dependencies known n)
               {| visiting := {[n]} ∪ visiting st; visited := visited st;
                  visit_path := visit_path st ++ [n] |};
        Ok {| visiting := visiting st ∖ {[n]}; visited := {[n]} ∪ visited st;
              visit_path := removelast (visit_path st) |}
  end.

(** One turn of the loop over the reminders, with a new [path] each. *)
Definition visit_root (known : gmap string Reminder) (r : Reminder) (st : Visit)
  : result TickConfigError Visit :=
  visit (S (size known)) known (name r)
    {| visiting := visiting st; visited := visited st; visit_path := [] |}.

Definition reminders_by_name (rs : list Reminder) : gmap string Reminder :=
  map_collect ((fun r => (name r, r)) <$> rs).

Definition validate_dependencies (rs : list Reminder) : result TickConfigError () :=
  let known := reminders_by_name rs in
  each_result (check_dependencies known) rs ();;
  each_result (visit_root known) rs {| visiting := ∅; visited := ∅; visit_path := [] |};;
  Ok ().

(** ** The configuration *)

Definition health_keys : list string := ["name"; "glob"; "threshold_secs"; "detail"].

Definition health_from (v : value) (place : string) : result TickConfigError HealthCheck :=
  obj ← as_obj v place;
  reject_unknown obj health_keys place;;
  n ← req_str obj "name" place;
  if str_is_empty (trim n) then Err (MustBeNonEmpty place "name")
  else
    glob ← req_str obj "glob" place;
    if str_is_empty (trim glob) then Err (MustBeNonEmpty place "glob")
    else
      threshold ← opt_nonnegative_int obj "threshold_secs" 0 place;
      detail ← opt_str obj "detail" "" place;
      Ok {| hc_name := n; hc_glob := glob; threshold_secs := threshold; detail := detail |}.

(** The list under [key], each item read at its index. *)
Definition items_from {A} (read : value -> string -> result TickConfigError A) (obj : object)
    (key : string) : result TickConfigError (list A) :=
  match obj_get obj key with
  | None => Ok []
  | Some (Array items) =>
      collect_results (fun iv => read iv.2 (key +:+ "[" +:+ pretty (iv.1 : nat) +:+ "]"))
        (imap pair items)
  | Some _ => Err (MustBeList key)
  end.

(** The insertion of each name into a set, refusing a second one. *)
Definition insert_unique (e : TickConfigError) (n : string) (names : gset string)
  : result TickConfigError (gset string) :=
  if decide (n ∈ names) then Err e else Ok ({[n]} ∪ names).

Definition config_keys : list string := ["reminders"; "health_checks"; "description"].

Definition config_from_value (raw : value) : result TickConfigError TickConfig :=
  obj ← as_obj raw "<root>";
  reject_unknown obj config_keys "<root>";;
  rs ← items_from reminder_from obj "reminders";
  each_result (fun r => insert_unique ReminderNamesNotUnique (name r)) rs ∅;;
  validate_dependencies rs;;
  hs ← items_from health_from obj "health_checks";
  each_result (fun h => insert_unique HealthNamesNotUnique (hc_name h)) hs ∅;;
  description ← opt_str obj "description" "" "<root>";
  Ok {| reminders := rs; health_checks := hs; description := description |}.

(** ** Serialization *)

Definition int_value (z : Z) : value := Number (number_of_i64 z).

Definition gate_to_value (g : option Gate) : value :=
  match g with
  | None => Null
  | Some g =>
      Object ([("cmd", VString (cmd g)); ("when", VString (GateWhen_as_str (when g)));
               ("capture", VBool (capture g))]
              ++ match timeout_secs g with
                 | Some secs => [("timeout_secs", int_value secs)]
                 | None => []
                 end
              ++ if parallel g then [("parallel", VBool true)] else [])
  end.

(** [emit.fields] by ascending key. *)
Definition sorted_fields (m : index_map) : index_map :=
  (fun k => (k, default "" (im_get m k))) <$> sort_by_key id m.*1.

Definition emit_to_value (e : Emit) : value :=
  Object [("kind", VString (EmitKind_as_str (kind e))); ("title", VString (title e));
          ("skill", VString (skill e));
          ("fields", Object (prod_map id VString <$> sorted_fields (fields e)))].

Definition health_to_value (h : HealthCheck) : value :=
  Object [("name", VString (hc_name h)); ("glob", VString (hc_glob h));
          ("threshold_secs", int_value (threshold_secs h)); ("detail", VString (detail h))].

Definition optional_int (key : string) (z : option Z) : object :=
  match z with Some z => [(key, int_value z)] | None => [] end.

Definition reminder_to_value (r : Reminder) : value :=
  Object ([("name", VString (name r)); ("cadence_secs", int_value (cadence_secs r))]
          ++ optional_int "cadence_offset_secs" (cadence_offset_secs r)
          ++ optional_int "cadence_window_secs" (cadence_window_secs r)
          ++ [("requires_flags", Array (VString <$> requires_flags r))]
          ++ match depends_on r with
             | [] => []
             | ds => [("depends_on", Array (VString <$> ds))]
             end
          ++ [("gate", gate_to_value (gate r)); ("emit", emit_to_value (emit r))]).

Definition config_to_value (c : TickConfig) : value :=
  Object [("description", VString (description c));
          ("health_checks", Array (health_to_value <$> health_checks c));
          ("reminders", Array (reminder_to_value <$> reminders c))].

(** ** Validation before serialization *)

Definition check_reminder (r : Reminder) (names : gset string)
  : result TickConfigError (gset string) :=
  if str_is_empty (trim (name r)) || not_a_key (name r)
     || starts_with (name r) INTERNAL_STATE_PREFIX then Err InvalidReminderNames
  else
    names ← insert_unique ReminderNamesNotUnique (name r) names;
    if decide (cadence_secs r < 0)%Z then Err NegativeCadence
    else if action_without_skill (emit r) then Err ActionWithoutSkill
    else if im_contains (fields (emit r)) "<<" then Err MergeKey
    else Ok names.

Definition check_health (h : HealthCheck) (names : gset string)
  : result TickConfigError (gset string) :=
  if str_is_empty (trim (hc_name h)) then Err HealthNameEmpty
  else
    names ← insert_unique HealthNamesNotUnique (hc_name h) names;
    if str_is_empty (trim (hc_glob h)) then Err HealthGlobEmpty
    else if decide (threshold_secs h < 0)%Z then Err NegativeThreshold
    else Ok names.

Definition validate_serializable (c : TickConfig) : result TickConfigError () :=
  each_result check_reminder (reminders c) ∅;;
  validate_dependencies (reminders c);;
  each_result check_health (health_checks c) ∅;;
  Ok ().

(** The value [config_to_json] and [config_to_yaml] print. *)
Definition config_serialized (c : TickConfig) : result TickConfigError value :=
  validate_serializable c;; Ok (config_to_value c).
End io.
