(* ===== verification/TickState.v ===== *)
(** * tick-hub: per-host runtime state ([rs/tick-hub/src/state.rs])

    Validation of a deserialized state mapping, its serialization back to a
    mapping, and the lines the state contributes to a tick.  The error messages
    are constructors that carry the values the source formats into its text. *)
From S2P Require Import Prelude RustStr External TickModel.

Definition DEFAULT_TICK_FREQUENCY_MIN : Z := 30.

Inductive FlagValue := FlagBool (b : bool) | FlagInt (i : Z) | FlagString (s : string).

#[export] Instance FlagValue_eq_dec : EqDecision FlagValue.
Proof. solve_decision. Defined.

Definition is_truthy (v : FlagValue) : bool :=
  match v with
  | FlagBool b => b
  | FlagInt i => negb (bool_decide (i = 0%Z))
  | FlagString s => negb (str_is_empty s)
  end.

Record OpsState := {
  enabled : bool;
  tick_frequency_min : Z;
  label : option string;
  flags : gmap string FlagValue;
}.

Definition OpsState_default : OpsState := {|
  enabled := true; tick_frequency_min := DEFAULT_TICK_FREQUENCY_MIN; label := None; flags := ∅ |}.

Definition flag_truthy (flags : gmap string FlagValue) (name : string) : bool :=
  match flags !! name with Some v => is_truthy v | None => false end.

Section values.
Context `{JsonNumber}.

Inductive StateError :=
| NotAMapping
| UnknownKeys (keys : list string)
| EnabledNotBool (v : value)
| TickNotInteger (v : value)
| TickNotPositive (tick : Z)
| LabelNotString (v : value)
| FlagsNotMapping (v : value)
| ReservedKey
| FlagNotScalar (flag : string) (v : value).

Definition parse_flag (name : string) (raw : value) : result StateError FlagValue :=
  if (name =? "<<")%string then Err ReservedKey
  else match raw with
  | VBool b => Ok (FlagBool b)
  | Number n => match number_as_i64 n with
                | Some i => Ok (FlagInt i)
                | None => Err (FlagNotScalar name raw)
                end
  | VString s => Ok (FlagString s)
  | other => Err (FlagNotScalar name other)
  end.

(** The loop over the mapping; a [serde_json] map has each key once. *)
Fixpoint parse_flag_entries (out : gmap string FlagValue) (obj : object)
  : result StateError (gmap string FlagValue) :=
  match obj with
  | [] => Ok out
  | (name, raw) :: obj =>
      match parse_flag name raw with
      | Ok v => parse_flag_entries (<[name := v]> out) obj
      | Err e => Err e
      end
  end.

Definition parse_flags (v : option value) : result StateError (gmap string FlagValue) :=
  match v with
  | None => Ok ∅
  | Some v => match as_object v with
              | None => Err (FlagsNotMapping v)
              | Some obj => parse_flag_entries ∅ obj
              end
  end.

Definition allowed_keys : list string := ["enabled"; "tick_frequency_min"; "label"; "flags"].

Definition unknown_keys (obj : object) : list string :=
  sort_dedup (List.filter
    (fun key => negb (bool_decide (key ∈ allowed_keys)) && negb (starts_with key "_")) obj.*1).

Definition parse_enabled (obj : object) : result StateError bool :=
  match v ← obj_get obj "enabled"; as_bool v with
  | Some b => Ok b
  | None => Err (EnabledNotBool (default Null (obj_get obj "enabled")))
  end.

Definition parse_tick (obj : object) : result StateError Z :=
  match obj_get obj "tick_frequency_min" with
  | None => Ok DEFAULT_TICK_FREQUENCY_MIN
  | Some v => match as_i64 v with
              | Some tick => if decide (tick <= 0)%Z then Err (TickNotPositive tick) else Ok tick
              | None => Err (TickNotInteger v)
              end
  end.

Definition parse_label (obj : object) : result StateError (option string) :=
  match obj_get obj "label" with
  | None | Some Null => Ok None
  | Some (VString s) =>
      let trimmed := trim s in
      Ok (if str_is_empty trimmed then None else Some trimmed)
  | Some v => Err (LabelNotString v)
  end.

(** [OpsState::from_value] *)
Definition OpsState_from_value (raw : value) : result StateError OpsState :=
  match as_object raw with
  | None => Err NotAMapping
  | Some obj =>
      match unknown_keys obj with
      | (_ :: _) as keys => Err (UnknownKeys keys)
      | [] =>
          enabled ← parse_enabled obj;
          tick ← parse_tick obj;
          label ← parse_label obj;
          flags ← parse_flags (obj_get obj "flags");
          Ok {| enabled := enabled; tick_frequency_min := tick; label := label; flags := flags |}
      end
  end.

Definition flag_to_value (v : FlagValue) : value :=
  match v with
  | FlagBool b => VBool b
  | FlagInt i => Number (number_of_i64 i)
  | FlagString s => VString s
  end.

(** [OpsState::to_value] *)
Definition OpsState_to_value (s : OpsState) : value :=
  Object
    [("enabled", VBool (enabled s));
     ("tick_frequency_min", Number (number_of_i64 (tick_frequency_min s)));
     ("label", match label s with Some l => VString l | None => Null end);
     ("flags", Object ((fun kv => (kv.1, flag_to_value kv.2)) <$> btree_iter (flags s)))].
End values.

(** ** Lines *)

Definition flag_text (v : FlagValue) : string :=
  match v with
  | FlagBool true => "true"
  | FlagBool false => "false"
  | FlagInt i => pretty i
  | FlagString s => s
  end.

Definition flags_summary (flags : gmap string FlagValue) : string :=
  if decide (flags = ∅) then ""
  else " flags=" +:+ join "," ((fun kv => kv.1 +:+ "=" +:+ flag_text kv.2) <$> btree_iter flags).

Definition bool_text (b : bool) : string := if b then "true" else "false".

Definition state_lines (state : OpsState) (current_tick_min : option Z) : list string :=
  let label := match label state with Some l => " label=" +:+ l | None => "" end in
  let tick := tick_frequency_min state in
  [format_note ("ops-state enabled=" +:+ bool_text (enabled state) +:+ " tick_frequency_min="
                +:+ pretty tick +:+ label +:+ flags_summary (flags state))]
  ++ (match current_tick_min with
      | Some current =>
          if decide (current = tick) then []
          else [format_action "actualize-tick-frequency"
                  [("desired", pretty tick); ("current", pretty current)]
                  ("reschedule the tick to " +:+ pretty tick
                   +:+ " min so it matches the intended cadence (currently "
                   +:+ pretty current +:+ " min)")]
      | None => []
      end)
  ++ (if enabled state then []
      else [format_note "ops-state disabled — no reminders will fire this tick; set enabled: true to activate"]).
