(* ===== verification/TickEngine.v ===== *)
(** * tick-hub: gates and rendering ([rs/tick-hub/src/engine.rs])

    Gate interpretation, placeholder interpolation, the render-failure counters
    and the records of one reminder.  [BTreeMap<String, i64>] is a [gmap]; the
    [emit] callback is the [write] of a sink, which may fail, and the mutable
    arguments threaded through the rendering functions are the state of a monad. *)
From S2P Require Import Prelude RustStr TickModel TickCadence TickState.

Definition MAX_PARALLEL_GATES : nat := 8.
Definition NO_RESULT_EXIT : Z := 75.
Definition REPEATED_RENDER_FAILURE_THRESHOLD : Z := 3.

(** ** Gates *)

(** One line of [parse_kv_lines]. *)
Definition kv_line (out : index_map) (raw_line : string) : index_map :=
  let line := trim raw_line in
  if str_is_empty line || starts_with line "#" then out
  else match split_once "=" line with
       | Some (raw_key, raw_value) =>
           let key := trim raw_key in
           if str_is_empty key then out else im_insert out key (trim raw_value)
       | None => out
       end.

Definition parse_kv_lines (text : string) : index_map := foldl kv_line [] (split_lines text).

Definition evaluate_health `{FileAgeProbe} (hc : HealthCheck) (now : Z) : string :=
  let age := newest_age_secs (hc_glob hc) now in
  let status := match age with
                | None => HEALTH_STATUS_MISSING
                | Some age => if decide (age <= threshold_secs hc)%Z
                              then HEALTH_STATUS_OK else HEALTH_STATUS_STALE
                end in
  format_health (hc_name hc) status age (threshold_secs hc) (detail hc).

Inductive GateOutcome := Quiet | Fire | NoResult.

#[export] Instance GateOutcome_eq_dec : EqDecision GateOutcome.
Proof. solve_decision. Defined.

Definition gate_fires (when : GateWhen) (returncode : Z) (stdout : string) : bool :=
  match when with
  | Success => bool_decide (returncode = 0%Z)
  | Failure => negb (bool_decide (returncode = 0%Z))
  | Nonempty => negb (str_is_empty (trim stdout))
  | Always => true
  end.

Definition interpret_gate_result (g : Gate) (r : GateResult)
  : result string (GateOutcome * index_map) :=
  if negb (ok r) then
    Err ("gate command could not run (" +:+ string_repr (cmd g) +:+ "): "
         +:+ default "None" (error r))
  else
    let captured := if capture g then parse_kv_lines (stdout r) else [] in
    if decide (returncode r = NO_RESULT_EXIT) then Ok (NoResult, captured)
    else Ok (if gate_fires (when g) (returncode r) (stdout r) then Fire else Quiet, captured).

(** [u64::try_from(secs).ok()] *)
Definition u64_try_from (secs : Z) : option Z := if decide (0 <= secs)%Z then Some secs else None.

Definition eval_gate `{GateRunner} (g : option Gate) : result string (GateOutcome * index_map) :=
  match g with
  | None => Ok (Fire, [])
  | Some g => interpret_gate_result g (run (cmd g) (timeout_secs g ≫= u64_try_from))
  end.

(** ** Placeholders *)

Definition interpolate (text : string) (vs : index_map) : string :=
  foldl (fun text kv => replace ("{" +:+ kv.1 +:+ "}") kv.2 text) text vs.

Definition name_start (c : ascii) : bool := is_alpha c || (c =? "_")%char.
Definition name_byte (c : ascii) : bool :=
  is_alnum c || (c =? "_")%char || (c =? ".")%char || (c =? "-")%char.

Fixpoint take_name (s : string) : string * string :=
  match s with
  | String c s' => if name_byte c then let '(n, r) := take_name s' in (String c n, r) else ("", s)
  | "" => ("", "")
  end.

(** At the byte after a brace: the placeholder that starts there and what follows it. *)
Definition placeholder_at (s : string) : option (string * string) :=
  match s with
  | String c s' =>
      if name_start c then
        let '(n, r) := take_name s' in
        match r with
        | String "}" r' =>
            if starts_with r' "}" then None else Some ("{" +:+ String c n +:+ "}", r')
        | _ => None
        end
      else None
  | "" => None
  end.

(** The [while] loop; [after_brace] is [bytes[index - 1] == b'{'].  Every turn
    consumes a byte, so the length of the text is enough fuel. *)
Fixpoint scan_placeholders (fuel : nat) (after_brace : bool) (s : string) : gset string :=
  match fuel, s with
  | S fuel, String c s' =>
      if negb (c =? "{")%char || after_brace then scan_placeholders fuel (c =? "{")%char s'
      else match placeholder_at s' with
           | Some (p, r) => {[p]} ∪ scan_placeholders fuel false r
           | None => scan_placeholders fuel true s'
           end
  | _, _ => ∅
  end.

Definition unresolved_placeholders (text : string) : gset string :=
  scan_placeholders (String.length text) false text.

(** ** Emissions *)

Definition merge_captured (fields captured : index_map) : index_map :=
  foldl (fun m kv => im_insert m kv.1 kv.2) fields captured.

Definition interpolate_field (captured : index_map) (m : index_map) (key : string) : index_map :=
  if im_contains captured key then m
  else im_insert m key (interpolate (default "" (im_get m key)) m).

Definition merged_fields (e : Emit) (captured : index_map) : index_map :=
  foldl (interpolate_field captured) (merge_captured (fields e) captured) (fields e).*1.

(** [Err] is [UnresolvedPlaceholderError]. *)
Definition render_emit (e : Emit) (captured : index_map) : result (list string) string :=
  let merged := merged_fields e captured in
  let title := interpolate (TickModel.title e) merged in
  let unresolved := foldl (fun found kv => found ∪ unresolved_placeholders kv.2)
                      (unresolved_placeholders title) merged in
  if decide (unresolved = ∅) then
    Ok (match kind e with
        | Note => format_note title
        | Action => format_action (skill e) merged title
        end)
  else Err (btree_elems unresolved).

Definition unresolved_message (placeholders : list string) : string :=
  "refusing emission with unresolved placeholder(s): " +:+ join ", " placeholders.

Definition placeholder_name (p : string) : string :=
  default p (v ← strip_prefix "{" p; strip_suffix "}" v).

Definition placeholder_names (placeholders : list string) : string :=
  join "," (placeholder_name <$> placeholders).

Definition action_skill (r : Reminder) : string :=
  if str_is_empty (skill (emit r)) then "tick-hub-no-signal" else skill (emit r).

Definition no_signal_action (r : Reminder) (reason detail : string)
    (missing_placeholders : list string) : string :=
  let fields := [("component", "tick-hub-reporting"); ("outcome", "NO-SIGNAL");
                 ("gate", name r); ("reason", reason)] in
  let detail := of_chars (take 240 (chars (join " " (split_whitespace detail)))) in
  let fields := if str_is_empty detail then fields else im_insert fields "detail" detail in
  let title := "NO-SIGNAL gate=" +:+ name r +:+ ": " +:+ reason in
  match missing_placeholders with
  | [] => format_action (action_skill r) fields title
  | _ =>
      let missing := placeholder_names missing_placeholders in
      format_action (action_skill r) (im_insert fields "missing_placeholders" missing)
        (title +:+ "; missing placeholder(s)=" +:+ missing)
  end.

Definition repeated_render_failure_action (r : Reminder)
    (consecutive_failures first_failure_epoch : Z) (missing_placeholders : list string) : string :=
  let missing := placeholder_names missing_placeholders in
  format_action (action_skill r)
    [("component", "tick-hub-reporting"); ("outcome", "NO-SIGNAL"); ("gate", name r);
     ("reason", "unresolved-placeholder");
     ("consecutive_failures", pretty consecutive_failures);
     ("first_failure_epoch", pretty first_failure_epoch);
     ("missing_placeholders", missing)]
    ("NO-SIGNAL gate=" +:+ name r +:+ ": unresolved-placeholder repeated for "
     +:+ pretty consecutive_failures +:+ " consecutive render failures since first_failure_epoch="
     +:+ pretty first_failure_epoch +:+ "; missing placeholder(s)=" +:+ missing).

(** ** Render-failure counters *)

Definition clear_render_failure_state (state : gmap string Z) (reminder_name : string)
  : gmap string Z :=
  let '(count_key, first_key) := unresolved_render_state_keys reminder_name in
  delete first_key (delete count_key state).

Definition record_render_failure (state : gmap string Z) (reminder_name : string) (now : Z)
  : gmap string Z * (Z * Z) :=
  let '(count_key, first_key) := unresolved_render_state_keys reminder_name in
  let previous_count := Z.max (default 0 (state !! count_key))%Z 0 in
  let consecutive := (previous_count +sat 1)%i64 in
  let first_failure_epoch :=
    if decide (previous_count = 0%Z) then Z.max now 0
    else Z.max (default (Z.max now 0) (state !! first_key)) 0 in
  (<[first_key := first_failure_epoch]> (<[count_key := consecutive]> state),
   (consecutive, first_failure_epoch)).

(** What [retain] keeps. *)
Definition keep_state_key (reminder_names : gset string) (key : string) : bool :=
  match strip_prefix UNRESOLVED_RENDER_STATE_PREFIX key with
  | None => true
  | Some rest =>
      match (match strip_suffix UNRESOLVED_RENDER_COUNT_SUFFIX rest with
             | Some n => Some n
             | None => strip_suffix UNRESOLVED_RENDER_FIRST_SUFFIX rest
             end) with
      | Some n => negb (str_is_empty n) && bool_decide (n ∈ reminder_names)
      | None => false
      end
  end.

Definition prune_removed_render_failure_state (state : gmap string Z)
    (reminder_names : gset string) : gmap string Z :=
  filter (fun kv => keep_state_key reminder_names kv.1 = true) state.
