(* ===== verification/TickRun.v ===== *)
(** * tick-hub: one tick ([rs/tick-hub/src/engine.rs], from [record_line] on)

    The rendering functions run in a monad over the lines so far, the fired-state
    map and the sink of the [emit] callback; a failing callback stops the tick.
    The scoped threads of the parallel window are the map [parallel] from an index
    to the result its worker will deliver. *)
From S2P Require Import Prelude RustStr TickModel TickCadence TickState TickEngine.

(** ** The state of a tick *)

Section tick.
(** The sink [emit] writes to and the errors of its [io::Result]. *)
Context {W E : Type}.

Record Tick := { lines : list string; new_fired : gmap string Z; sink : W }.

Definition tickM (A : Type) : Type := Tick -> Tick * result E A.

#[export] Instance tick_ret : MRet tickM := fun A a t => (t, Ok a).
#[export] Instance tick_bind : MBind tickM := fun A B f m t =>
  match m t with
  | (t', Ok a) => f a t'
  | (t', Err e) => (t', Err e)
  end.

Definition update_fired {A} (f : gmap string Z -> gmap string Z * A) : tickM A := fun t =>
  let '(fired, a) := f (new_fired t) in
  ({| lines := lines t; new_fired := fired; sink := sink t |}, Ok a).

Definition modify_fired (f : gmap string Z -> gmap string Z) : tickM () :=
  update_fired (fun fired => (f fired, ())).

(** [EmitLine]: the callback, if there is one. *)
Context (write : option (string -> W -> W * result E ())).

Definition record_line (line : string) : tickM () := fun t =>
  let recorded := lines t ++ [line] in
  match write with
  | None => ({| lines := recorded; new_fired := new_fired t; sink := sink t |}, Ok ())
  | Some callback =>
      let '(w, r) := callback line (sink t) in
      ({| lines := recorded; new_fired := new_fired t; sink := w |}, r)
  end.

Fixpoint record_lines (ls : list string) : tickM () :=
  match ls with
  | [] => mret ()
  | l :: ls => record_line l;; record_lines ls
  end.

(** ** One reminder's records *)

Definition reminder_header (r : Reminder) : string :=
  format_tick_header (name r) (format_schedule (cadence_secs r) (cadence_offset_secs r)).
Definition ops_state_header : string := format_tick_header "ops-state" "every tick".

Record ReminderEvaluation := {
  reminder : Reminder;
  outcome : GateOutcome;
  captured : index_map;
  eval_error : option string;
}.

Inductive PlannedReminder := Runnable (r : Reminder) | PlannedSuppressed (ls : list string).
Inductive ReminderReport := Evaluated (e : ReminderEvaluation) | Suppressed (ls : list string).

Definition render_failed (r : Reminder) (now : Z) (placeholders : list string) : tickM nat :=
  record_line (format_error ("reminder " +:+ name r +:+ ": " +:+ unresolved_message placeholders));;
  record_line (no_signal_action r "unresolved-placeholder" "" placeholders);;
  counters ← update_fired (fun fired => record_render_failure fired (name r) now);
  if decide (REPEATED_RENDER_FAILURE_THRESHOLD <= counters.1)%Z then
    record_line (repeated_render_failure_action r counters.1 counters.2 placeholders);;
    mret 2
  else mret 1.

Definition render_evaluation (ev : ReminderEvaluation) (unavailable : gset string) (now : Z)
    (report_pending : bool) : tickM nat :=
  let r := reminder ev in
  let clear := modify_fired (fun fired => clear_render_failure_state fired (name r)) in
  match eval_error ev with
  | Some err =>
      clear;;
      record_line (reminder_header r);;
      record_line (format_error ("reminder " +:+ name r +:+ ": " +:+ err));;
      record_line (no_signal_action r "gate-execution-error" err []);;
      mret 1
  | None =>
      match outcome ev with
      | NoResult =>
          let detail := default "" (im_get (captured ev) "summary") in
          clear;;
          record_line (reminder_header r);;
          record_line (format_no_result (name r) detail);;
          record_line (no_signal_action r "could-not-determine" detail []);;
          mret 1
      | Quiet =>
          clear;;
          match List.filter (fun d => bool_decide (d ∈ unavailable)) (depends_on r) with
          | (_ :: _) as unavailable_dependencies =>
              record_line (reminder_header r);;
              record_line (format_unevaluable (name r) unavailable_dependencies);;
              record_line (no_signal_action r "dependency-could-not-determine"
                             (join "," unavailable_dependencies) []);;
              mret 1
          | [] =>
              (if report_pending
               then record_line (reminder_header r);; record_line (format_clean (name r))
               else mret ());;
              modify_fired (<[name r := now]>);;
              mret 0
          end
      | Fire =>
          record_line (reminder_header r);;
          match render_emit (emit r) (captured ev) with
          | Ok line =>
              clear;;
              modify_fired (<[name r := now]>);;
              record_line line;;
              mret (if starts_with line "ACTION: " then 1 else 0)
          | Err placeholders => render_failed r now placeholders
          end
      end
  end.

Definition render_report (rep : ReminderReport) (unavailable : gset string) (now : Z)
    (report_pending : bool) : tickM nat :=
  match rep with
  | Suppressed ls => record_lines ls;; mret 0
  | Evaluated ev => render_evaluation ev unavailable now report_pending
  end.

(** ** The dependency pass *)

(** [evaluation.error.is_none() && evaluation.outcome == o] *)
Definition clean_outcome (o : GateOutcome) (ev : ReminderEvaluation) : bool :=
  match eval_error ev with None => bool_decide (outcome ev = o) | Some _ => false end.

Definition no_result_name (rep : ReminderReport) : option string :=
  match rep with
  | Evaluated ev => if clean_outcome NoResult ev then Some (name (reminder ev)) else None
  | Suppressed _ => None
  end.

Definition dependency_step (acc : gset string * bool) (rep : ReminderReport)
  : gset string * bool :=
  let '(unavailable, changed) := acc in
  match rep with
  | Evaluated ev =>
      if negb (clean_outcome Quiet ev)
         || bool_decide (name (reminder ev) ∈ unavailable) then acc
      else if existsb (fun d => bool_decide (d ∈ unavailable)) (depends_on (reminder ev))
      then ({[name (reminder ev)]} ∪ unavailable, true)
      else acc
  | Suppressed _ => acc
  end.

Fixpoint dependency_loop (fuel : nat) (reports : list ReminderReport) (unavailable : gset string)
  : gset string :=
  match fuel with
  | 0 => unavailable
  | S fuel =>
      let '(unavailable, changed) := foldl dependency_step (unavailable, false) reports in
      if changed then dependency_loop fuel reports unavailable else unavailable
  end.

(** Every changing turn adds the name of a report, so their number bounds the turns. *)
Definition unavailable_names (reports : list ReminderReport) : gset string :=
  dependency_loop (S (length reports)) reports (list_to_set (omap no_result_name reports)).

Fixpoint render_reports (reports : list ReminderReport) (unavailable : gset string) (now : Z)
    (report_pending : bool) (actions : nat) : tickM nat :=
  match reports with
  | [] => mret actions
  | rep :: reports =>
      n ← render_report rep unavailable now report_pending;
      render_reports reports unavailable now report_pending (actions + n)
  end.

Definition render_after_dependency_pass (reports : list ReminderReport) (render_from : nat)
    (now : Z) (report_pending : bool) : tickM nat :=
  render_reports (drop render_from reports) (unavailable_names reports) now report_pending 0.

(** ** Planning *)

Definition runnable_flags (state : OpsState) (r : Reminder) : bool :=
  forallb (flag_truthy (flags state)) (requires_flags r).

Definition missing_flags (state : OpsState) (r : Reminder) : list string :=
  List.filter (fun f => negb (flag_truthy (flags state) f)) (requires_flags r).

(** The body of the planning loop: what it pushes, if anything. *)
Definition plan_reminder (state : OpsState) (now : Z) (fired : gmap string Z)
    (report_pending : bool) (r : Reminder) : option PlannedReminder :=
  if negb (reminder_due now fired r) then None
  else if negb (runnable_flags state r) then
    if report_pending
    then Some (PlannedSuppressed [reminder_header r;
                                  format_suppressed (name r) (missing_flags state r)])
    else None
  else Some (Runnable r).

Definition has_dependencies (p : PlannedReminder) : bool :=
  match p with
  | Runnable r => match depends_on r with [] => false | _ => true end
  | PlannedSuppressed _ => false
  end.

(** [iter().position(p).unwrap_or(len)] *)
Fixpoint position_or_len {A} (p : A -> bool) (l : list A) : nat :=
  match l with
  | [] => 0
  | x :: l => if p x then 0 else S (position_or_len p l)
  end.

Definition stream_prefix_len (planned : list PlannedReminder) : nat :=
  match write with
  | Some _ => position_or_len has_dependencies planned
  | None => 0
  end.

(** ** The parallel window *)

Context `{GateRunner}.

Definition eval_reminder (r : Reminder) : result string (GateOutcome * index_map) :=
  eval_gate (gate r).

Definition is_parallel (p : PlannedReminder) : bool :=
  match p with
  | Runnable r => match gate r with Some g => parallel g | None => false end
  | PlannedSuppressed _ => false
  end.

Definition parallel_indexes (planned : list PlannedReminder) : list nat :=
  omap (fun ip => if is_parallel ip.2 then Some ip.1 else None) (imap pair planned).

Abbreviation handle := (result string (GateOutcome * index_map)).

(** The handles not yet joined, by index, and the position of the next index to spawn. *)
Record Window := { handles : gmap nat handle; next_parallel : nat }.

(** [parallel.insert(index, scope.spawn(...))]; an index of a runnable reminder. *)
Definition spawn (planned : list PlannedReminder) (hs : gmap nat handle) (index : nat)
  : gmap nat handle :=
  match planned !! index with
  | Some (Runnable r) => <[index := eval_reminder r]> hs
  | _ => hs
  end.

Definition window_start (planned : list PlannedReminder) : Window :=
  let indexes := parallel_indexes planned in
  {| handles := if decide (2 <= length indexes)
                then foldl (spawn planned) ∅ (take MAX_PARALLEL_GATES indexes) else ∅;
     next_parallel := MAX_PARALLEL_GATES |}.

(** Evaluate the runnable reminder at [index]: join its worker and start the next
    one, or run its gate in place. *)
Definition window_eval (planned : list PlannedReminder) (w : Window) (index : nat) (r : Reminder)
  : Window * handle :=
  match handles w !! index with
  | Some joined =>
      let hs := delete index (handles w) in
      (match parallel_indexes planned !! next_parallel w with
       | Some next => {| handles := spawn planned hs next; next_parallel := S (next_parallel w) |}
       | None => {| handles := hs; next_parallel := next_parallel w |}
       end, joined)
  | None => (w, eval_reminder r)
  end.

Definition evaluated (r : Reminder) (h : handle) : ReminderReport :=
  Evaluated (match h with
             | Ok (o, captured) =>
                 {| reminder := r; outcome := o; captured := captured; eval_error := None |}
             | Err err =>
                 {| reminder := r; outcome := Quiet; captured := []; eval_error := Some err |}
             end).

Definition window_step (planned : list PlannedReminder) (w : Window) (index : nat)
    (p : PlannedReminder) : Window * ReminderReport :=
  match p with
  | PlannedSuppressed ls => (w, Suppressed ls)
  | Runnable r => let '(w, h) := window_eval planned w index r in (w, evaluated r h)
  end.

(** The loop over [planned] inside the thread scope: evaluate in order, and render
    what lies before the first reminder with dependencies at once. *)
Fixpoint scope_loop (all : list PlannedReminder) (now : Z) (report_pending : bool)
    (prefix_len : nat) (planned : list PlannedReminder) (index : nat) (w : Window)
    (reports : list ReminderReport) (actions : nat) : tickM (list ReminderReport * nat) :=
  match planned with
  | [] => mret (reports, actions)
  | p :: planned =>
      let '(w, report) := window_step all w index p in
      n ← (if decide (index < prefix_len) then render_report report ∅ now report_pending
           else mret 0);
      scope_loop all now report_pending prefix_len planned (S index) w
        (reports ++ [report]) (actions + n)
  end.

(** ** The tick *)

Context `{FileAgeProbe}.

Fixpoint record_state_lines (ls : list string) (actions : nat) : tickM nat :=
  match ls with
  | [] => mret actions
  | line :: ls =>
      if starts_with line "ACTION: " then
        record_line ops_state_header;; record_line line;; record_state_lines ls (S actions)
      else record_line line;; record_state_lines ls actions
  end.

Definition run_reminders (config : TickConfig) (state : OpsState) (now : Z)
    (fired : gmap string Z) (report_pending : bool) (actions : nat) : tickM nat :=
  let planned := omap (plan_reminder state now fired report_pending) (reminders config) in
  let prefix_len := stream_prefix_len planned in
  '(reports, actions) ← scope_loop planned now report_pending prefix_len planned 0
                          (window_start planned) [] actions;
  if decide (prefix_len < length reports) then
    n ← render_after_dependency_pass reports prefix_len now report_pending;
    mret (actions + n)
  else mret actions.

Definition run_tick_body (config : TickConfig) (state : OpsState) (now : Z)
    (fired : gmap string Z) (current_tick_min : option Z) (report_pending : bool) : tickM nat :=
  record_lines ((fun hc => evaluate_health hc now) <$> health_checks config);;
  actions ← record_state_lines (state_lines state current_tick_min) 0;
  modify_fired (fun _ =>
    prune_removed_render_failure_state fired (list_to_set (name <$> reminders config)));;
  actions ← (if enabled state
             then run_reminders config state now fired report_pending actions
             else mret actions);
  record_line (format_note ("emitted " +:+ pretty actions +:+ " instruction(s) this tick"));;
  mret actions.

Record TickResult := {
  result_lines : list string;
  result_fired : gmap string Z;
  actions_emitted : nat;
}.

(** [run_tick_inner], and the sink it leaves behind. *)
Definition run_tick_inner (config : TickConfig) (state : OpsState) (now : Z)
    (fired : gmap string Z) (current_tick_min : option Z) (report_pending : bool) (w : W)
  : W * result E TickResult :=
  let '(t, r) := run_tick_body config state now fired current_tick_min report_pending
                   {| lines := []; new_fired := fired; sink := w |} in
  (sink t,
   match r with
   | Ok actions => Ok {| result_lines := lines t; result_fired := new_fired t;
                         actions_emitted := actions |}
   | Err e => Err e
   end).
End tick.

(** [run_tick]: no callback, so no error: the [expect] of the source. *)
Definition run_tick `{GateRunner, FileAgeProbe} (config : TickConfig) (state : OpsState) (now : Z)
    (fired : gmap string Z) (current_tick_min : option Z) : option TickResult :=
  result_ok (run_tick_inner (W := ()) (E := Empty_set) None config state now fired
               current_tick_min false ()).2.

Definition run_tick_with_emit `{GateRunner, FileAgeProbe} {W E} (config : TickConfig)
    (state : OpsState) (now : Z) (fired : gmap string Z) (current_tick_min : option Z)
    (report_pending : bool) (emit : string -> W -> W * result E ()) (w : W)
  : W * result E TickResult :=
  run_tick_inner (Some emit) config state now fired current_tick_min report_pending w.
