(* ===== verification/TickEffects.v ===== *)
(** * tick-hub: what a tick promises

    The records of a tick as a pure function of the reports: the lines one report
    contributes, how it advances the fired-state and how many instructions it
    counts.  [refines] relates the engine's monad to it for every callback, the
    failing ones included. *)
From S2P Require Import Prelude RustStr TickModel TickCadence TickState TickEngine TickRun.

(** ** The abstract effect *)

Record Effect := { e_lines : list string; e_fired : gmap string Z; e_actions : nat }.

Definition effect_then (e : Effect) (k : gmap string Z -> Effect) : Effect :=
  let e' := k (e_fired e) in
  {| e_lines := e_lines e ++ e_lines e'; e_fired := e_fired e';
     e_actions := e_actions e + e_actions e' |}.

Section effects.
Context (unavailable : gset string) (now : Z) (report_pending : bool).

(** A reminder that fires: its emission, or the account of why it cannot be rendered. *)
Definition fire_effect (r : Reminder) (captured : index_map) (fired : gmap string Z) : Effect :=
  match render_emit (emit r) captured with
  | Ok line =>
      {| e_lines := [reminder_header r; line];
         e_fired := <[name r := now]> (clear_render_failure_state fired (name r));
         e_actions := if starts_with line "ACTION: " then 1 else 0 |}
  | Err placeholders =>
      let '(fired', (count, first)) := record_render_failure fired (name r) now in
      let lines := [reminder_header r;
                    format_error ("reminder " +:+ name r +:+ ": " +:+ unresolved_message placeholders);
                    no_signal_action r "unresolved-placeholder" "" placeholders] in
      if decide (REPEATED_RENDER_FAILURE_THRESHOLD <= count)%Z
      then {| e_lines := lines ++ [repeated_render_failure_action r count first placeholders];
              e_fired := fired'; e_actions := 2 |}
      else {| e_lines := lines; e_fired := fired'; e_actions := 1 |}
  end.

Definition missing_dependencies (r : Reminder) : list string :=
  List.filter (fun d => bool_decide (d ∈ unavailable)) (depends_on r).

Definition evaluation_effect (ev : ReminderEvaluation) (fired : gmap string Z) : Effect :=
  let r := reminder ev in
  let cleared := clear_render_failure_state fired (name r) in
  let signal line reason detail :=
    {| e_lines := [reminder_header r; line; no_signal_action r reason detail []];
       e_fired := cleared; e_actions := 1 |} in
  match eval_error ev, outcome ev with
  | Some err, _ =>
      signal (format_error ("reminder " +:+ name r +:+ ": " +:+ err)) "gate-execution-error" err
  | None, NoResult =>
      let detail := default "" (im_get (captured ev) "summary") in
      signal (format_no_result (name r) detail) "could-not-determine" detail
  | None, Quiet =>
      match missing_dependencies r with
      | (_ :: _) as ds =>
          signal (format_unevaluable (name r) ds) "dependency-could-not-determine" (join "," ds)
      | [] =>
          {| e_lines := if report_pending
                        then [reminder_header r; format_clean (name r)] else [];
             e_fired := <[name r := now]> cleared; e_actions := 0 |}
      end
  | None, Fire => fire_effect r (captured ev) fired
  end.

Definition report_effect (rep : ReminderReport) (fired : gmap string Z) : Effect :=
  match rep with
  | Evaluated ev => evaluation_effect ev fired
  | Suppressed ls => {| e_lines := ls; e_fired := fired; e_actions := 0 |}
  end.

Fixpoint reports_effect (reports : list ReminderReport) (fired : gmap string Z) : Effect :=
  match reports with
  | [] => {| e_lines := []; e_fired := fired; e_actions := 0 |}
  | rep :: reports => effect_then (report_effect rep fired) (reports_effect reports)
  end.
End effects.

Lemma effect_then_assoc e k k' :
  effect_then (effect_then e k) k' = effect_then e (fun f => effect_then (k f) k').
Proof. unfold effect_then. simpl. f_equal; [by rewrite app_assoc|lia]. Qed.

Lemma reports_effect_app U now rp r1 r2 fired :
  reports_effect U now rp (r1 ++ r2) fired
  = effect_then (reports_effect U now rp r1 fired) (reports_effect U now rp r2).
Proof.
  revert fired. induction r1 as [|r r1 IH]; intros fired; simpl.
  - unfold effect_then. simpl. by destruct (reports_effect _ _ _ r2 fired).
  - rewrite effect_then_assoc. unfold effect_then. by rewrite IH.
Qed.

(** ** The engine refines it *)

Section refines.
Context {W E : Type} (write : option (string -> W -> W * result E ())).

(** The sink after the lines, or after the line that failed, with its error. *)
Fixpoint deliver (ls : list string) (w : W) : W * result E () :=
  match write, ls with
  | Some callback, l :: ls =>
      match callback l w with
      | (w', Ok _) => deliver ls w'
      | (w', Err e) => (w', Err e)
      end
  | _, _ => (w, Ok ())
  end.

Definition refines {A} (m : tickM A) (f : gmap string Z -> Effect) (a : nat -> A) : Prop :=
  forall t, let e := f (new_fired t) in
  match deliver (e_lines e) (sink t) with
  | (w, Ok _) =>
      m t = ({| lines := lines t ++ e_lines e; new_fired := e_fired e; sink := w |},
             Ok (a (e_actions e)))
  | (w, Err err) =>
      exists t', m t = (t', Err err) /\ sink t' = w
                 /\ lines t' `prefix_of` lines t ++ e_lines e
  end.

Lemma deliver_app l1 l2 w :
  deliver (l1 ++ l2) w =
  match deliver l1 w with (w', Ok _) => deliver l2 w' | failed => failed end.
Proof.
  revert w. induction l1 as [|l l1 IH]; intros w.
  - cbn [app]. replace (deliver [] w) with (w, Ok () : result E ()); [done|].
    cbn [deliver]. by destruct write.
  - cbn [deliver app]. destruct write as [cb|] eqn:Hw.
    + destruct (cb l w) as [w' [[]|err]]; [apply IH|done].
    + destruct l2; cbn [deliver]; by rewrite Hw.
Qed.

Lemma deliver_nil w : deliver [] w = (w, Ok ()).
Proof. cbn [deliver]. by destruct write. Qed.

(** *** Composition *)

Lemma refines_ext {A} (m : tickM A) f g a :
  (forall fired, f fired = g fired) -> refines m f a -> refines m g a.
Proof. intros Hfg Hm t. cbv zeta. rewrite <-Hfg. apply Hm. Qed.

Lemma refines_ret {A} n (a : nat -> A) x :
  x = a n -> refines (mret x) (fun fired => {| e_lines := []; e_fired := fired; e_actions := n |}) a.
Proof.
  intros -> t. cbn [e_lines e_fired e_actions]. rewrite deliver_nil, app_nil_r. by destruct t.
Qed.

(** The second part may depend on the count of the first. *)
Lemma refines_bind_dep {A B} (m : tickM B) (k : B -> tickM A) f g (b : nat -> B) a :
  refines m f b -> (forall n, refines (k (b n)) (g n) (fun x => a (n + x))) ->
  refines (m ≫= k) (fun fired => effect_then (f fired) (g (e_actions (f fired)))) a.
Proof.
  intros Hm Hk t. specialize (Hm t). cbv zeta in *. unfold effect_then at 1.
  cbn [e_lines]. rewrite deliver_app. unfold mbind, tick_bind.
  destruct (deliver (e_lines (f (new_fired t))) (sink t)) as [w [[]|err]].
  - rewrite Hm. specialize (Hk (e_actions (f (new_fired t)))
      {| lines := lines t ++ e_lines (f (new_fired t));
         new_fired := e_fired (f (new_fired t)); sink := w |}).
    cbv zeta in Hk. cbn [new_fired sink lines] in Hk.
    unfold effect_then. cbn [e_lines e_fired e_actions].
    destruct (deliver _ w) as [w' [[]|err]].
    + rewrite Hk. by rewrite <-app_assoc.
    + by rewrite app_assoc.
  - destruct Hm as (t' & -> & Hs & Hp). exists t'. split_and!; [done|done|].
    unfold effect_then. cbn [e_lines]. rewrite app_assoc. by apply prefix_app_r.
Qed.

Lemma refines_bind {A B} (m : tickM B) (k : B -> tickM A) f g (b : nat -> B) a :
  refines m f b -> (forall n, refines (k (b n)) g (fun x => a (n + x))) ->
  refines (m ≫= k) (fun fired => effect_then (f fired) g) a.
Proof. intros Hm Hk. by apply (refines_bind_dep m k f (fun _ => g) b a). Qed.

Lemma refines_update {A B} (u : gmap string Z -> gmap string Z * B) (k : B -> tickM A) f a :
  (forall b, refines (k b) (f b) a) ->
  refines (update_fired u ≫= k) (fun fired => f (u fired).2 (u fired).1) a.
Proof.
  intros Hk t. unfold mbind, tick_bind, update_fired.
  destruct (u (new_fired t)) as [fired b]. cbn [fst snd].
  exact (Hk b {| lines := lines t; new_fired := fired; sink := sink t |}).
Qed.

Lemma refines_modify {A} h (k : tickM A) f a :
  refines k f a -> refines (modify_fired h;; k) (fun fired => f (h fired)) a.
Proof. intros Hk. by apply (refines_update (fun fired => (h fired, ())) (fun _ => k) (fun _ => f)). Qed.

Definition with_lines (ls : list string) (e : Effect) : Effect :=
  {| e_lines := ls ++ e_lines e; e_fired := e_fired e; e_actions := e_actions e |}.

Lemma refines_line {A} l (k : tickM A) f a :
  refines k f a ->
  refines (record_line write l;; k) (fun fired => with_lines [l] (f fired)) a.
Proof.
  intros Hk t. unfold mbind, tick_bind, record_line, with_lines. cbn [e_lines e_fired e_actions app].
  cbv zeta.
  destruct write as [cb|] eqn:Hw; cbn [deliver]; rewrite Hw.
  - destruct (cb l (sink t)) as [w [[]|err]].
    + specialize (Hk {| lines := lines t ++ [l]; new_fired := new_fired t; sink := w |}).
      cbv zeta in Hk. cbn [new_fired sink lines] in Hk.
      destruct (deliver _ w) as [w' [[]|err]]; rewrite <-app_assoc in Hk; exact Hk.
    + eexists. split; [done|]. cbn [sink lines]. split; [done|].
      apply prefix_app, prefix_cons, prefix_nil.
  - specialize (Hk {| lines := lines t ++ [l]; new_fired := new_fired t; sink := sink t |}).
    cbv zeta in Hk. cbn [new_fired sink lines] in Hk.
    assert (Hd : forall ls w, deliver ls w = (w, Ok ())).
    { intros ls w. destruct ls; cbn [deliver]; by rewrite Hw. }
    rewrite Hd in Hk. by rewrite <-app_assoc in Hk.
Qed.

Lemma refines_lines {A} ls (k : tickM A) f a :
  refines k f a ->
  refines (record_lines write ls;; k) (fun fired => with_lines ls (f fired)) a.
Proof.
  intros Hk. induction ls as [|l ls IH]; cbn [record_lines].
  - eapply refines_ext; [|exact Hk]. intros fired. unfold with_lines. by destruct (f fired).
  - apply (refines_line l) in IH. intros t. specialize (IH t). unfold with_lines in *.
    cbv zeta in *. cbn [e_lines e_fired e_actions app] in *.
    destruct (deliver _ _) as [w [[]|err]]; revert IH;
      unfold mbind, tick_bind; by destruct (record_line write l t) as [t' [[]|err']].
Qed.
End refines.
