(* ===== verification/TickRefine.v ===== *)
(** * tick-hub: the engine refines the effects

    Every rendering function of [TickRun] produces the effect [TickEffects] gives
    it; the parallel window evaluates each reminder as if it were alone; and
    streaming a prefix of the reports early changes nothing. *)
From S2P Require Import Prelude RustStr TickModel TickCadence TickState TickEngine TickRun TickEffects.

(** ** Rendering *)

Section rendering.
Context {W E : Type} (write : option (string -> W -> W * result E ())).
#[local] Notation refines := (refines write).

Lemma refines_assoc {A B C} (m : tickM (W := W) (E := E) A) (f : A -> tickM B) (k : B -> tickM C) g a :
  refines (m ≫= fun x => f x ≫= k) g a -> refines ((m ≫= f) ≫= k) g a.
Proof.
  intros Hm t. specialize (Hm t). cbv zeta in *. unfold mbind, tick_bind in *.
  by destruct (m t) as [t' [x|err]].
Qed.

(** Peel the leading operation of a computation. *)
Ltac peel :=
  lazymatch goal with
  | |- TickEffects.refines _ (mbind _ (mbind _ _)) _ _ => apply refines_assoc
  | |- TickEffects.refines _ (mbind _ (mret _)) _ _ =>
      lazymatch goal with |- TickEffects.refines ?w (mbind ?k (mret ?x)) ?f ?a =>
        change (TickEffects.refines w (k x) f a); cbv beta end
  | |- TickEffects.refines _ (mbind _ (record_line _ _)) _ _ => apply refines_line
  | |- TickEffects.refines _ (mbind _ (modify_fired _)) _ _ => apply refines_modify
  | |- TickEffects.refines _ (mbind _ (update_fired _)) _ _ => apply refines_update; intros
  | |- TickEffects.refines _ (mret _) _ _ => apply refines_ret; reflexivity
  end.

Lemma render_failed_refines r now ps :
  refines (render_failed write r now ps)
    (fun fired =>
       let '(fired', (count, first)) := record_render_failure fired (name r) now in
       let lines := [format_error ("reminder " +:+ name r +:+ ": " +:+ unresolved_message ps);
                     no_signal_action r "unresolved-placeholder" "" ps] in
       if decide (REPEATED_RENDER_FAILURE_THRESHOLD <= count)%Z
       then {| e_lines := lines ++ [repeated_render_failure_action r count first ps];
               e_fired := fired'; e_actions := 2 |}
       else {| e_lines := lines; e_fired := fired'; e_actions := 1 |}) id.
Proof.
  unfold render_failed. eapply refines_ext; cycle 1.
  - do 2 peel. apply (refines_update write _ _ (fun c fired' =>
      if decide (REPEATED_RENDER_FAILURE_THRESHOLD <= c.1)%Z
      then with_lines [repeated_render_failure_action r c.1 c.2 ps]
             {| e_lines := []; e_fired := fired'; e_actions := 2 |}
      else {| e_lines := []; e_fired := fired'; e_actions := 1 |})).
    intros c. case_decide; repeat peel.
  - intros fired. cbn beta. destruct (record_render_failure fired (name r) now) as [f' [c fst']].
    cbn [fst snd]. by case_decide.
Qed.

Lemma render_evaluation_refines U now rp ev :
  refines (render_evaluation write ev U now rp) (evaluation_effect U now rp ev) id.
Proof.
  unfold render_evaluation, evaluation_effect, missing_dependencies.
  destruct (eval_error ev) as [err|].
  { eapply refines_ext; cycle 1; [repeat peel|reflexivity]. }
  destruct (outcome ev).
  - destruct (List.filter _ _) as [|d ds]; [destruct rp|];
      (eapply refines_ext; cycle 1; [repeat peel|reflexivity]).
  - unfold fire_effect. destruct (render_emit _ _) as [line|ps].
    + eapply refines_ext; cycle 1; [repeat peel|reflexivity].
    + eapply refines_ext; cycle 1; [peel; apply render_failed_refines|].
      intros fired. cbn beta. destruct (record_render_failure fired _ now) as [f' [c fst']].
      by case_decide.
  - eapply refines_ext; cycle 1; [repeat peel|reflexivity].
Qed.

Lemma render_report_refines U now rp rep :
  refines (render_report write rep U now rp) (report_effect U now rp rep) id.
Proof.
  destruct rep as [ev|ls]; cbn [render_report report_effect].
  - apply render_evaluation_refines.
  - eapply refines_ext; cycle 1; [apply refines_lines; peel|].
    intros fired. unfold with_lines. cbn. by rewrite app_nil_r.
Qed.

Lemma render_reports_refines U now rp reports n :
  refines (render_reports write reports U now rp n) (reports_effect U now rp reports)
    (fun x => n + x).
Proof.
  revert n. induction reports as [|rep reports IH]; intros n; cbn [render_reports reports_effect].
  - apply refines_ret. lia.
  - eapply refines_bind; [apply render_report_refines|]. intros m t. unfold id.
    specialize (IH (n + m) t). cbv zeta in *.
    destruct (deliver _ _ _) as [w [[]|err]]; [|done]. by rewrite Nat.add_assoc.
Qed.
End rendering.

(** ** The parallel window *)

Section window.
Context `{GateRunner} (all : list PlannedReminder).
#[local] Notation I := (parallel_indexes all).

(** The report a planned entry has when it is evaluated by itself. *)
Definition alone (p : PlannedReminder) : ReminderReport :=
  match p with
  | PlannedSuppressed ls => Suppressed ls
  | Runnable r => evaluated r (eval_gate (gate r))
  end.

Lemma parallel_indexes_from n (l : list PlannedReminder) :
  let J := omap (fun ip : nat * PlannedReminder => if is_parallel ip.2 then Some ip.1 else None)
             (imap (fun i p => (n + i, p)) l) in
  StronglySorted lt J /\
  (forall x, x ∈ J <-> exists p, n <= x /\ l !! (x - n) = Some p /\ is_parallel p = true).
Proof.
  revert n. induction l as [|p l IH]; intros n; cbn zeta.
  { split; [constructor|]. intros x. simpl. split; [set_solver|]. by intros (? & _ & ? & _). }
  rewrite imap_cons, omap_cons. cbn [fst snd].
  rewrite (imap_ext _ (fun i p => (S n + i, p)) l) by (intros; simpl; f_equal; lia).
  destruct (IH (S n)) as [Hs Hin]. cbn zeta in Hs, Hin.
  assert (Htail : forall x, (exists q, S n <= x /\ l !! (x - S n) = Some q /\ is_parallel q = true)
    <-> n < x /\ exists q, (p :: l) !! (x - n) = Some q /\ is_parallel q = true).
  { intros x. split.
    - intros (q & Hle & Hl & Hp). split; [lia|]. exists q.
      replace (x - n) with (S (x - S n)) by lia. done.
    - intros (Hlt & q & Hl & Hp). exists q. split; [lia|].
      by replace (x - n) with (S (x - S n)) in Hl by lia. }
  rewrite Nat.add_0_r. destruct (is_parallel p) eqn:Hp; split.
  - constructor; [done|]. apply list.Forall_forall. intros x Hx. apply Hin in Hx. naive_solver lia.
  - intros x. rewrite elem_of_cons, Hin, Htail. split.
    + intros [->|(Hlt & q & Hq & Hpq)]; [exists p; by rewrite Nat.sub_diag|].
      exists q. split; [lia|done].
    + intros (q & Hle & Hq & Hpq). destruct (decide (x = n)) as [->|]; [by left|right].
      split; [lia|eauto].
  - done.
  - intros x. rewrite Hin, Htail. split.
    + intros (Hlt & q & Hq & Hpq). exists q. split; [lia|done].
    + intros (q & Hle & Hq & Hpq). destruct (decide (x = n)) as [->|].
      { rewrite Nat.sub_diag in Hq. injection Hq as ->. congruence. }
      split; [lia|eauto].
Qed.

Lemma parallel_sorted : StronglySorted lt I.
Proof. apply (parallel_indexes_from 0). Qed.

Lemma elem_of_parallel x :
  x ∈ I <-> exists p, all !! x = Some p /\ is_parallel p = true.
Proof.
  unfold parallel_indexes. rewrite (proj2 (parallel_indexes_from 0 all)).
  setoid_rewrite Nat.sub_0_r. split; [naive_solver|]. intros (p & ? & ?). exists p.
  split; [lia|done].
Qed.

Lemma parallel_runnable x : x ∈ I -> exists r, all !! x = Some (Runnable r).
Proof. intros ([r|ls] & Hx & Hp)%elem_of_parallel; [eauto|done]. Qed.

(** Before entry [i]: the handles are right, at most eight, and belong to spawned
    entries not reached yet. *)
Record window_inv (i : nat) (w : Window) : Prop := {
  handles_right : forall x h, handles w !! x = Some h ->
    exists r, all !! x = Some (Runnable r) /\ h = eval_gate (gate r);
  handles_bounded : size (handles w) <= MAX_PARALLEL_GATES;
  handles_pending :
    (handles w = ∅ /\ length I < 2) \/
    (forall x, is_Some (handles w !! x) <-> x ∈ take (next_parallel w) I /\ i <= x);
}.

Lemma spawn_runnable hs x :
  x ∈ I -> exists r, all !! x = Some (Runnable r) /\ spawn all hs x = <[x := eval_gate (gate r)]> hs.
Proof. intros [r Hx]%parallel_runnable. exists r. unfold spawn. by rewrite Hx. Qed.

Lemma insert_size_le (hs : gmap nat (result string (GateOutcome * index_map))) x h :
  size (<[x := h]> hs) <= S (size hs).
Proof. rewrite map_size_insert. case_match; unfold id; lia. Qed.

Lemma spawn_all l hs :
  (forall x, x ∈ l -> x ∈ I) ->
  (forall x h, hs !! x = Some h ->
    exists r, all !! x = Some (Runnable r) /\ h = eval_gate (gate r)) ->
  let hs' := foldl (spawn all) hs l in
  (forall x h, hs' !! x = Some h ->
    exists r, all !! x = Some (Runnable r) /\ h = eval_gate (gate r)) /\
  size hs' <= size hs + length l /\
  (forall x, is_Some (hs' !! x) <-> x ∈ l \/ is_Some (hs !! x)).
Proof.
  revert hs. induction l as [|x l IH]; intros hs HI Hok; cbn zeta; cbn [foldl length].
  { split_and!; [done|lia|set_solver]. }
  destruct (spawn_runnable hs x) as (r & Hr & ->); [apply HI; set_solver|].
  destruct (IH (<[x := eval_gate (gate r)]> hs)) as (H1 & H2 & H3).
  - intros y Hy. apply HI. set_solver.
  - intros y h. rewrite lookup_insert. case_decide; [|apply Hok]. intros [= <-]. subst. eauto.
  - split_and!; [exact H1| |].
    + pose proof (insert_size_le hs x (eval_gate (gate r))). cbn zeta in H2. lia.
    + intros y. rewrite H3, elem_of_cons, lookup_insert. case_decide as Hxy.
      * subst. split; [auto|]. intros _. right. eauto.
      * naive_solver.
Qed.

Lemma window_start_inv : window_inv 0 (window_start all).
Proof.
  unfold window_start. case_decide as H2.
  - destruct (spawn_all (take MAX_PARALLEL_GATES I) ∅) as (Hr & Hs & Hp).
    + intros x Hx. by apply (subseteq_take MAX_PARALLEL_GATES I).
    + intros x h. by rewrite lookup_empty.
    + constructor; cbn [handles next_parallel]; [exact Hr| |].
      * rewrite map_size_empty, length_take in Hs. lia.
      * right. intros x. rewrite Hp, lookup_empty. split; [intros [?|[]%is_Some_None]; split; [done|lia]|].
        intros [? _]. by left.
  - constructor; cbn [handles next_parallel]; [by intros x h; rewrite lookup_empty| |].
    + rewrite map_size_empty. lia.
    + left. split; [done|lia].
Qed.

Lemma take_S_elem k nx x : I !! k = Some nx -> x ∈ take (S k) I <-> x ∈ take k I \/ x = nx.
Proof. intros Hk. rewrite (take_S_r _ _ _ Hk). set_solver. Qed.

(** A spawned entry comes before the next one to spawn. *)
Lemma spawned_before k nx x : I !! k = Some nx -> x ∈ take k I -> x < nx.
Proof.
  intros Hk [j Hj]%list_elem_of_lookup. apply lookup_take_Some in Hj as [Hj Hlt].
  by eapply (StronglySorted_lookup_lt _ _ _ _ _ _ parallel_sorted).
Qed.

Lemma window_step_inv i w p :
  window_inv i w -> all !! i = Some p ->
  (window_step all w i p).2 = alone p /\ window_inv (S i) (window_step all w i p).1.
Proof.
  intros [Hr Hb Hp] Hi. destruct p as [r|ls]; cbn [window_step].
  - unfold window_eval. destruct (handles w !! i) as [joined|] eqn:Hj.
    + destruct (Hr i joined Hj) as (r' & Hr' & ->). rewrite Hi in Hr'. injection Hr' as <-.
      destruct Hp as [[Hemp _]|Hp]; [by rewrite Hemp, lookup_empty in Hj|].
      assert (Hii : i ∈ take (next_parallel w) I) by (apply Hp; eauto).
      assert (Hdel : forall x h, delete i (handles w) !! x = Some h ->
        exists r, all !! x = Some (Runnable r) /\ h = eval_gate (gate r)).
      { intros x h [_ ?]%lookup_delete_Some. by apply Hr. }
      assert (Hsize : S (size (delete i (handles w))) = size (handles w)).
      { rewrite (map_size_delete_Some (M := gmap nat)) by eauto.
        assert (size (handles w) <> 0); [|lia]. rewrite map_size_non_empty_iff.
        intros He. by rewrite He, lookup_empty in Hj. }
      assert (Hlater : forall x, is_Some (delete i (handles w) !! x)
        <-> x ∈ take (next_parallel w) I /\ S i <= x).
      { intros x. rewrite lookup_delete_is_Some, Hp. split; [intros (? & ? & ?)|intros (? & ?)];
          split_and!; (done || lia). }
      destruct (I !! next_parallel w) as [nx|] eqn:Hnx; (split; [done|]).
      * destruct (spawn_runnable (delete i (handles w)) nx) as (rn & Hrn & Hsp).
        { by apply list_elem_of_lookup_2 in Hnx. }
        pose proof (spawned_before _ _ _ Hnx Hii) as Hlt.
        constructor; cbn [handles next_parallel fst]; rewrite Hsp.
        { intros x h. rewrite lookup_insert. case_decide; [|apply Hdel].
          intros [= <-]. subst. eauto. }
        { pose proof (insert_size_le (delete i (handles w)) nx (eval_gate (gate rn))). lia. }
        right. intros x. rewrite (take_S_elem _ _ x Hnx), lookup_insert. case_decide as Hx.
        { subst. split; [intros _; split; [by right|lia]|eauto]. }
        rewrite Hlater. naive_solver.
      * constructor; cbn [handles next_parallel fst]; [exact Hdel|lia|by right].
    + split; [done|]. constructor; [done|done|]. destruct Hp as [?|Hp]; [by left|right].
      intros x. rewrite Hp. split; [|naive_solver lia]. intros [Hx Hle]. split; [done|].
      destruct (decide (x = i)) as [->|]; [|lia].
      destruct (proj2 (Hp i)) as [h Hh]; [done|congruence].
  - split; [done|]. constructor; [done|done|]. destruct Hp as [?|Hp]; [by left|right].
    intros x. rewrite Hp. split; [|naive_solver lia]. intros [Hx Hle]. split; [done|].
    destruct (decide (x = i)) as [->|]; [|lia].
    destruct (parallel_runnable i) as [r Hr']; [by apply (subseteq_take (next_parallel w))|].
    congruence.
Qed.
End window.

(** ** The loop over the planned reminders *)

Section scope.
Context {W E : Type} (write : option (string -> W -> W * result E ())) `{GateRunner}.
#[local] Notation refines := (refines write).
Context (all : list PlannedReminder) (now : Z) (rp : bool).

Lemma scope_loop_refines prefix_len planned i w reports actions :
  window_inv all i w -> planned = drop i all ->
  refines (scope_loop write all now rp prefix_len planned i w reports actions)
    (reports_effect ∅ now rp (take (prefix_len - i) (alone <$> planned)))
    (fun n => (reports ++ (alone <$> planned), actions + n)).
Proof.
  revert i w reports actions.
  induction planned as [|p planned IH]; intros i w reports actions Hw Hd; cbn [scope_loop].
  - rewrite fmap_nil, take_nil. apply refines_ret. by rewrite app_nil_r, Nat.add_0_r.
  - assert (Hi : all !! i = Some p).
    { replace (all !! i) with (drop i all !! 0) by (rewrite lookup_drop; f_equal; lia).
      by rewrite <-Hd. }
    assert (Hd' : planned = drop (S i) all).
    { replace (S i) with (i + 1) by lia. rewrite <-drop_drop, <-Hd. done. }
    destruct (window_step_inv all i w p Hw Hi) as [Hrep Hw'].
    destruct (window_step all w i p) as [w' rep]. cbn [fst snd] in Hrep, Hw'. subst rep.
    rewrite fmap_cons. case_decide as Hlt.
    + replace (prefix_len - i) with (S (prefix_len - S i)) by lia. cbn [take reports_effect].
      eapply refines_bind; [apply render_report_refines|]. intros n. unfold id.
      specialize (IH (S i) w' (reports ++ [alone p]) (actions + n) Hw' Hd').
      intros t. specialize (IH t). cbv zeta in *. rewrite <-app_assoc in IH.
      destruct (deliver _ _ _) as [s [[]|err]]; [|done]. by rewrite Nat.add_assoc.
    + replace (prefix_len - i) with 0 by lia.
      specialize (IH (S i) w' (reports ++ [alone p]) (actions + 0) Hw' Hd').
      replace (prefix_len - S i) with 0 in IH by lia. rewrite <-app_assoc in IH.
      intros t. specialize (IH t). cbv zeta in *.
      destruct (deliver _ _ _) as [s [[]|err]]; [|exact IH].
      etrans; [exact IH|]. by rewrite Nat.add_0_r.
Qed.
End scope.

(** ** Streaming *)

Lemma position_or_len_take {A} (p : A -> bool) l x :
  x ∈ take (position_or_len p l) l -> p x = false.
Proof.
  induction l as [|y l IH]; simpl; [set_solver|]. destruct (p y) eqn:Hy; [set_solver|].
  intros [->|?]%elem_of_cons; auto.
Qed.

(** A reminder without dependencies is rendered alike whatever is unavailable. *)
Lemma report_effect_independent U V now rp p fired :
  has_dependencies p = false ->
  forall h, report_effect U now rp (match p with
    | PlannedSuppressed ls => Suppressed ls | Runnable r => evaluated r h end) fired
  = report_effect V now rp (match p with
    | PlannedSuppressed ls => Suppressed ls | Runnable r => evaluated r h end) fired.
Proof.
  destruct p as [r|ls]; [|done]. simpl. intros Hd h.
  destruct (depends_on r) eqn:Hdep; [|done].
  destruct h as [[[] c]|err]; cbn [report_effect evaluated evaluation_effect
    eval_error outcome reminder captured]; try done.
  unfold evaluation_effect, missing_dependencies. cbn. by rewrite Hdep.
Qed.

Lemma reports_effect_independent `{GateRunner} U V now rp planned fired :
  (forall p, p ∈ planned -> has_dependencies p = false) ->
  reports_effect U now rp (alone <$> planned) fired
  = reports_effect V now rp (alone <$> planned) fired.
Proof.
  revert fired. induction planned as [|p planned IH]; intros fired Hp; [done|].
  rewrite fmap_cons. cbn [reports_effect]. unfold effect_then.
  assert (Heq : report_effect U now rp (alone p) fired = report_effect V now rp (alone p) fired).
  { unfold alone. destruct p as [r|ls]; [|done].
    apply (report_effect_independent U V now rp (Runnable r) fired); apply Hp; set_solver. }
  rewrite Heq, IH; [done|]. intros q Hq. apply Hp. set_solver.
Qed.

(** ** The whole tick *)

Section whole.
Context `{GateRunner, FileAgeProbe} (config : TickConfig) (state : OpsState) (now : Z)
  (fired : gmap string Z) (current_tick_min : option Z) (rp : bool).

Definition planned_reminders : list PlannedReminder :=
  omap (plan_reminder state now fired rp) (reminders config).

(** The reports of the tick, in registration order. *)
Definition tick_reports : list ReminderReport := alone <$> planned_reminders.

Definition reminders_effect (start : gmap string Z) : Effect :=
  reports_effect (unavailable_names tick_reports) now rp tick_reports start.

Definition pruned : gmap string Z :=
  prune_removed_render_failure_state fired (list_to_set (name <$> reminders config)).

Fixpoint state_records (ls : list string) : list string :=
  match ls with
  | [] => []
  | l :: ls => if starts_with l "ACTION: " then ops_state_header :: l :: state_records ls
               else l :: state_records ls
  end.

Definition is_action (line : string) : bool := starts_with line "ACTION: ".

(** The lines before the reminders. *)
Definition preamble : list string :=
  ((fun hc => evaluate_health hc now) <$> health_checks config)
  ++ state_records (state_lines state current_tick_min).

(** A whole tick, from any fired-state in the engine's variable. *)
Definition tick_effect : Effect :=
  let start := {| e_lines := preamble; e_fired := pruned;
                  e_actions := length (List.filter is_action (state_lines state current_tick_min)) |} in
  let e := if enabled state then effect_then start reminders_effect else start in
  {| e_lines := e_lines e
       ++ [format_note ("emitted " +:+ pretty (e_actions e) +:+ " instruction(s) this tick")];
     e_fired := e_fired e; e_actions := e_actions e |}.

Context {W E : Type} (write : option (string -> W -> W * result E ())).
#[local] Notation refines := (refines write).

Lemma run_reminders_refines actions :
  refines (run_reminders write config state now fired rp actions) reminders_effect
    (fun n => actions + n).
Proof.
  unfold run_reminders, reminders_effect, tick_reports. fold planned_reminders.
  set (planned := planned_reminders). set (k := stream_prefix_len write planned).
  eapply refines_ext; cycle 1.
  - eapply refines_bind.
    + apply (scope_loop_refines write planned now rp k planned 0 (window_start planned) [] actions);
        [apply window_start_inv|done].
    + intros n. cbn [app]. instantiate (1 := reports_effect (unavailable_names (alone <$> planned))
        now rp (drop k (alone <$> planned))).
      case_decide as Hk.
      * eapply refines_ext; cycle 1; [eapply refines_bind|].
        { unfold render_after_dependency_pass. apply render_reports_refines. }
        { intros m. apply refines_ret. instantiate (1 := 0). lia. }
        intros f. unfold effect_then. cbn. destruct (reports_effect _ _ _ _ f); simpl.
        by rewrite app_nil_r, Nat.add_0_r.
      * rewrite drop_ge by lia. apply refines_ret. lia.
  - intros f. cbn beta. rewrite Nat.sub_0_r.
    transitivity (reports_effect (unavailable_names (alone <$> planned)) now rp
      (take k (alone <$> planned) ++ drop k (alone <$> planned)) f);
      [rewrite reports_effect_app|by rewrite take_drop].
    unfold effect_then. rewrite <-fmap_take, (reports_effect_independent ∅
      (unavailable_names (alone <$> planned))); [done|].
    intros p. subst k. unfold stream_prefix_len. destruct write; [|set_solver].
    apply position_or_len_take.
Qed.

Lemma record_state_lines_refines ls actions :
  refines (record_state_lines write ls actions)
    (fun f => {| e_lines := state_records ls; e_fired := f;
                 e_actions := length (List.filter is_action ls) |}) (fun n => actions + n).
Proof.
  revert actions. induction ls as [|l ls IH]; intros actions; cbn [record_state_lines].
  { apply refines_ret. simpl. lia. }
  cbn [state_records List.filter]. unfold is_action at 1.
  destruct (starts_with l "ACTION: ").
  - eapply refines_ext; cycle 1; [do 2 apply refines_line|].
    + intros t. specialize (IH (S actions) t). cbv zeta in *. cbn [e_lines e_fired e_actions] in *.
      instantiate (1 := fun f => {| e_lines := state_records ls; e_fired := f;
                 e_actions := S (length (List.filter is_action ls)) |}).
      cbn [e_lines e_fired e_actions]. destruct (deliver _ _ _) as [w [[]|err]]; [|exact IH].
      etrans; [exact IH|]. do 2 f_equal. lia.
    + reflexivity.
  - eapply refines_ext; cycle 1; [apply refines_line, IH|reflexivity].
Qed.

Lemma run_tick_body_refines :
  refines (run_tick_body write config state now fired current_tick_min rp)
    (fun _ => tick_effect) id.
Proof.
  unfold run_tick_body. set (acts := length (List.filter is_action (state_lines state current_tick_min))).
  set (last (n : nat) := format_note ("emitted " +:+ pretty n +:+ " instruction(s) this tick")).
  set (body := fun f : gmap string Z => if enabled state then reminders_effect f
                 else {| e_lines := []; e_fired := f; e_actions := 0 |}).
  eapply refines_ext; cycle 1.
  - apply refines_lines.
    apply refines_bind_dep with (b := fun x => 0 + x)
      (g := fun n _ => effect_then (body pruned) (fun f =>
         {| e_lines := [last (n + e_actions (body pruned))]; e_fired := f; e_actions := 0 |}));
      [apply record_state_lines_refines|]. intros n.
    apply (refines_modify write (fun _ => pruned) _ (fun f => effect_then (body f) (fun f' =>
         {| e_lines := [last (n + e_actions (body f))]; e_fired := f'; e_actions := 0 |}))).
    apply refines_bind_dep with (b := fun x => n + x)
      (g := fun m f => {| e_lines := [last (n + m)]; e_fired := f; e_actions := 0 |}).
    + subst body. destruct (enabled state); [apply run_reminders_refines|apply refines_ret; done].
    + intros m. apply (refines_line write (last (n + m)) _
        (fun f => {| e_lines := []; e_fired := f; e_actions := 0 |})).
      apply refines_ret. unfold id. lia.
  - intros f. unfold tick_effect, body, preamble, effect_then, with_lines.
    cbn [e_lines e_fired e_actions]. fold acts.
    destruct (enabled state); cbn [e_lines e_fired e_actions app]; f_equal;
      rewrite ?app_assoc, ?Nat.add_0_r; try done.
Qed.
End whole.
