(* ===== verification/TickFacts.v ===== *)
(** * tick-hub: facts about a tick's effect

    How many instructions the lines hold, which entries of the fired-state a tick
    moves, and which reminders the dependency pass marks. *)
From S2P Require Import Prelude RustStr TickModel TickCadence TickState TickEngine TickRun TickEffects TickRefine.

(** ** Counting instructions *)

Definition action_count (ls : list string) : nat := length (List.filter is_action ls).

Lemma action_count_app l1 l2 : action_count (l1 ++ l2) = action_count l1 + action_count l2.
Proof. unfold action_count. by rewrite List.filter_app, length_app. Qed.

Lemma is_action_format skill fields title : is_action (format_action skill fields title) = true.
Proof.
  unfold format_action, join. cbv zeta.
  destruct (str_is_empty title), fields as [|f fs]; reflexivity.
Qed.

Lemma is_action_no_signal r reason detail ps : is_action (no_signal_action r reason detail ps) = true.
Proof. unfold no_signal_action. destruct ps; apply is_action_format. Qed.

(** The lines that are no instruction; each starts with another keyword. *)
Lemma is_action_others :
  (forall r, is_action (reminder_header r) = false) /\ (forall x, is_action (format_error x) = false) /\
  (forall x, is_action (format_note x) = false) /\ (forall x, is_action (format_clean x) = false) /\
  (forall x d, is_action (format_no_result x d) = false) /\
  (forall x d, is_action (format_unevaluable x d) = false) /\
  (forall x m, is_action (format_suppressed x m) = false) /\
  (forall n s a t d, is_action (format_health n s a t d) = false).
Proof.
  split_and!; intros; try reflexivity. unfold format_no_result. by destruct (str_is_empty _).
Qed.

Section counts.
Context (U : gset string) (now : Z) (rp : bool).

Lemma evaluation_effect_count ev fired :
  action_count (e_lines (evaluation_effect U now rp ev fired))
  = e_actions (evaluation_effect U now rp ev fired).
Proof.
  destruct is_action_others as (Hh & He & _ & Hc & Hn & Hu & _).
  assert (Hsignal : forall l reason detail, is_action l = false ->
    action_count [reminder_header (reminder ev); l;
                  no_signal_action (reminder ev) reason detail []] = 1).
  { intros l reason detail Hl. unfold action_count. cbn [List.filter].
    by rewrite Hh, Hl, is_action_no_signal. }
  unfold evaluation_effect. destruct (eval_error ev); [by apply Hsignal|].
  destruct (outcome ev); [| |by apply Hsignal].
  - destruct (missing_dependencies U (reminder ev)); [|by apply Hsignal].
    cbn [e_lines e_actions]. destruct rp; [|done]. unfold action_count. cbn [List.filter].
    by rewrite Hh, Hc.
  - unfold fire_effect. destruct (render_emit _ _) as [line|ps].
    + cbn [e_lines e_actions]. unfold action_count. cbn [List.filter]. rewrite Hh.
      unfold is_action. by destruct (starts_with line "ACTION: ").
    + destruct (record_render_failure _ _ _) as [f' [c first]].
      case_decide; unfold action_count; cbn [e_lines e_actions app List.filter];
        rewrite Hh, He, is_action_no_signal; [|done].
      unfold repeated_render_failure_action. by rewrite is_action_format.
Qed.

Definition suppressed_quiet (rep : ReminderReport) : Prop :=
  match rep with Suppressed ls => action_count ls = 0 | Evaluated _ => True end.

Lemma reports_effect_count reports fired :
  Forall suppressed_quiet reports ->
  action_count (e_lines (reports_effect U now rp reports fired))
  = e_actions (reports_effect U now rp reports fired).
Proof.
  intros Hq. revert fired. induction Hq as [|rep reports Hrep _ IH]; intros fired; [done|].
  cbn [reports_effect]. unfold effect_then. cbn [e_lines e_actions].
  rewrite action_count_app, IH. f_equal. destruct rep as [ev|ls]; cbn [report_effect].
  - apply evaluation_effect_count.
  - exact Hrep.
Qed.
End counts.

Section tick_counts.
Context `{GateRunner, FileAgeProbe} (config : TickConfig) (state : OpsState) (now : Z)
  (fired : gmap string Z) (current_tick_min : option Z) (rp : bool).
#[local] Notation effect := (tick_effect config state now fired current_tick_min rp).

Lemma tick_reports_quiet : Forall suppressed_quiet (tick_reports config state now fired rp).
Proof.
  apply list.Forall_forall. intros rep (p & -> & Hp)%list_elem_of_fmap.
  unfold planned_reminders in Hp. apply list_elem_of_omap in Hp as (r & _ & Hp).
  unfold plan_reminder in Hp. repeat case_match; simplify_eq; try done.
Qed.

Lemma state_records_count ls : action_count (state_records ls) = length (List.filter is_action ls).
Proof.
  induction ls as [|l ls IH]; [done|]. cbn [state_records List.filter].
  fold (is_action l). unfold action_count in *. destruct (is_action l) eqn:Hl;
    cbn [List.filter]; rewrite Hl; [|done].
  change (is_action ops_state_header) with false. cbn iota. simpl. by rewrite IH.
Qed.

Lemma preamble_count :
  action_count (preamble config state now current_tick_min)
  = length (List.filter is_action (state_lines state current_tick_min)).
Proof.
  unfold preamble. rewrite action_count_app, state_records_count.
  replace (action_count _) with 0; [done|]. symmetry. unfold action_count.
  induction (health_checks config) as [|hc hcs IH]; [done|]. rewrite fmap_cons. cbn [List.filter].
  destruct is_action_others as (_ & _ & _ & _ & _ & _ & _ & Hhealth).
  unfold evaluate_health at 1. by rewrite Hhealth.
Qed.

Lemma tick_effect_count : action_count (e_lines effect) = e_actions effect.
Proof.
  destruct is_action_others as (_ & _ & Hnote & _).
  unfold tick_effect. cbn [e_lines e_actions]. rewrite action_count_app.
  assert (Hlast : forall x, action_count [format_note x] = 0).
  { intros x. unfold action_count. cbn [List.filter]. by rewrite Hnote. }
  rewrite Hlast, Nat.add_0_r. destruct (enabled state); cbn [e_lines e_actions effect_then].
  - rewrite action_count_app, preamble_count. f_equal. apply reports_effect_count, tick_reports_quiet.
  - apply preamble_count.
Qed.
End tick_counts.

(** ** The fired-state *)

(** Not one of tick-hub's own render-failure keys. *)
Definition plain_key (k : string) : Prop := starts_with k UNRESOLVED_RENDER_STATE_PREFIX = false.

Lemma plain_not_state_key k n :
  plain_key k -> k <> (unresolved_render_state_keys n).1 /\ k <> (unresolved_render_state_keys n).2.
Proof.
  unfold plain_key. rewrite <-not_true_iff_false, starts_with_spec. intros Hk.
  split; intros ->; apply Hk; unfold unresolved_render_state_keys; cbn [fst snd];
    rewrite str_app_assoc; eauto.
Qed.

Lemma clear_plain fired n k : plain_key k -> clear_render_failure_state fired n !! k = fired !! k.
Proof.
  intros [H1 H2]%(plain_not_state_key _ n). unfold clear_render_failure_state.
  destruct (unresolved_render_state_keys n) as [ck fk]. cbn [fst snd] in *.
  by rewrite !lookup_delete_ne.
Qed.

Lemma record_plain fired n now k :
  plain_key k -> (record_render_failure fired n now).1 !! k = fired !! k.
Proof.
  intros [H1 H2]%(plain_not_state_key _ n). unfold record_render_failure.
  destruct (unresolved_render_state_keys n) as [ck fk]. cbn [fst snd] in *.
  by rewrite !lookup_insert_ne.
Qed.

Lemma pruned_plain fired names k :
  plain_key k -> prune_removed_render_failure_state fired names !! k = fired !! k.
Proof.
  intros Hk. unfold prune_removed_render_failure_state.
  destruct (fired !! k) as [v|] eqn:Hf.
  - apply map_lookup_filter_Some. split; [done|]. cbn [fst]. unfold keep_state_key.
    unfold plain_key, starts_with in Hk. by destruct (strip_prefix _ k).
  - apply map_lookup_filter_None. by left.
Qed.

(** What decides whether an evaluated reminder counts as done this tick. *)
Definition settles (U : gset string) (r : Reminder) (h : result string (GateOutcome * index_map))
  : bool :=
  match h with
  | Ok (Fire, captured) => is_ok (render_emit (emit r) captured)
  | Ok (Quiet, _) => match missing_dependencies U r with [] => true | _ => false end
  | Ok (NoResult, _) | Err _ => false
  end.

Section fired.
Context (U : gset string) (now : Z) (rp : bool).

Lemma evaluated_fired r h fired k :
  plain_key k ->
  e_fired (report_effect U now rp (evaluated r h) fired) !! k =
  if decide (k = name r /\ settles U r h = true) then Some now else fired !! k.
Proof.
  intros Hk. pose proof (clear_plain fired (name r) k Hk) as Hc.
  assert (Hset : forall v, <[name r := v]> (clear_render_failure_state fired (name r)) !! k
    = if decide (k = name r) then Some v else fired !! k).
  { intros v. rewrite lookup_insert, Hc. by repeat case_decide; subst. }
  destruct h as [[[] c]|err];
    cbn [report_effect evaluated evaluation_effect eval_error outcome reminder captured settles];
    unfold evaluation_effect; cbn [eval_error outcome reminder captured].
  - destruct (missing_dependencies U r); cbn [e_fired]; rewrite ?Hset, ?Hc;
      repeat case_decide; naive_solver.
  - unfold fire_effect. destruct (render_emit _ c) as [line|ps]; cbn [is_ok].
    + cbn [e_fired]. rewrite Hset. repeat case_decide; naive_solver.
    + pose proof (record_plain fired (name r) now k Hk) as Hr.
      destruct (record_render_failure _ _ _) as [f' [n first]]. cbn [fst] in Hr.
      rewrite (decide_False (P := k = name r /\ false = true)) by naive_solver.
      clear Hset; case_decide; exact Hr.
  - cbn [e_fired]. rewrite decide_False by naive_solver. exact Hc.
  - cbn [e_fired]. rewrite decide_False by naive_solver. exact Hc.
Qed.

Context `{GateRunner}.

Lemma reports_fired_other planned fired k :
  plain_key k -> (forall r, Runnable r ∈ planned -> name r <> k) ->
  e_fired (reports_effect U now rp (alone <$> planned) fired) !! k = fired !! k.
Proof.
  intros Hk. revert fired. induction planned as [|p planned IH]; intros fired Hne; [done|].
  rewrite fmap_cons. cbn [reports_effect effect_then e_fired].
  rewrite IH by (intros r Hr; apply Hne; set_solver).
  destruct p as [r|ls]; [|done]. cbn [alone]. rewrite evaluated_fired by done.
  rewrite decide_False; [done|]. intros [-> _]. apply (Hne r); [set_solver|done].
Qed.

Definition planned_names (planned : list PlannedReminder) : list string :=
  omap (fun p => match p with Runnable r => Some (name r) | PlannedSuppressed _ => None end) planned.

Lemma elem_of_planned_names planned r : Runnable r ∈ planned -> name r ∈ planned_names planned.
Proof. intros Hr. apply list_elem_of_omap. by exists (Runnable r). Qed.

Lemma reports_fired_own planned fired r :
  plain_key (name r) -> NoDup (planned_names planned) -> Runnable r ∈ planned ->
  e_fired (reports_effect U now rp (alone <$> planned) fired) !! name r =
  if settles U r (eval_gate (gate r)) then Some now else fired !! name r.
Proof.
  intros Hk. revert fired. induction planned as [|p planned IH]; intros fired Hnd Hr; [set_solver|].
  rewrite fmap_cons. cbn [reports_effect effect_then e_fired].
  unfold planned_names in Hnd. rewrite omap_cons in Hnd. fold (planned_names planned) in Hnd.
  apply elem_of_cons in Hr as [<-|Hr].
  - apply NoDup_cons in Hnd as [Hn Hnd]. rewrite reports_fired_other; [|done|].
    + cbn [alone]. rewrite evaluated_fired by done.
      destruct (settles U r _); case_decide; naive_solver.
    + intros r' Hr' Heq. apply Hn. rewrite <-Heq. by apply elem_of_planned_names.
  - destruct p as [r'|ls]; [|by apply IH].
    apply NoDup_cons in Hnd as [Hn Hnd]. rewrite IH by done.
    destruct (settles U r _); [done|]. cbn [alone]. rewrite evaluated_fired by done.
    rewrite decide_False; [done|]. intros [Heq _]. apply Hn. rewrite <-Heq.
    by apply elem_of_planned_names.
Qed.
End fired.

(** ** The dependency pass *)

(** What the loop computes: names of reports without a result, and of quiet reports
    that depend on such a name. *)
Inductive unevaluable (reports : list ReminderReport) : string -> Prop :=
| unevaluable_no_result ev :
    Evaluated ev ∈ reports -> clean_outcome NoResult ev = true ->
    unevaluable reports (name (reminder ev))
| unevaluable_depends ev d :
    Evaluated ev ∈ reports -> clean_outcome Quiet ev = true ->
    d ∈ depends_on (reminder ev) -> unevaluable reports d ->
    unevaluable reports (name (reminder ev)).

Definition report_names (reports : list ReminderReport) : gset string :=
  list_to_set (omap (fun rep => match rep with
                                | Evaluated ev => Some (name (reminder ev))
                                | Suppressed _ => None end) reports).

Lemma elem_of_report_names reports ev :
  Evaluated ev ∈ reports -> name (reminder ev) ∈ report_names reports.
Proof.
  intros Hin. unfold report_names. apply elem_of_list_to_set, list_elem_of_omap.
  by exists (Evaluated ev).
Qed.

Definition closed_under (reports : list ReminderReport) (U : gset string) : Prop :=
  forall ev d, Evaluated ev ∈ reports -> clean_outcome Quiet ev = true ->
    d ∈ depends_on (reminder ev) -> d ∈ U -> name (reminder ev) ∈ U.

Lemma dependency_step_cases acc rep :
  let acc' := dependency_step acc rep in
  (acc' = acc /\ closed_under [rep] acc.1) \/
  (exists ev d, rep = Evaluated ev /\ clean_outcome Quiet ev = true /\
     d ∈ depends_on (reminder ev) /\ d ∈ acc.1 /\ name (reminder ev) ∉ acc.1 /\
     acc' = ({[name (reminder ev)]} ∪ acc.1, true)).
Proof.
  destruct acc as [U ch], rep as [ev|ls]; cbn [dependency_step fst]; [|left].
  - destruct (clean_outcome Quiet ev) eqn:Hq; simpl.
    2:{ left. split; [done|]. intros ev' d [= ->]%list_elem_of_singleton Hq'. congruence. }
    destruct (bool_decide_reflect (name (reminder ev) ∈ U)) as [Hn|Hn]; simpl.
    { left. split; [done|]. by intros ev' d [= ->]%list_elem_of_singleton. }
    destruct (existsb _ _) eqn:Hx.
    + right. apply existsb_elem in Hx as (d & Hd & HdU). b2p. by exists ev, d.
    + left. split; [done|]. intros ev' d [= ->]%list_elem_of_singleton _ Hd HdU.
      rewrite existsb_false in Hx. specialize (Hx d Hd). by b2p.
  - split; [done|]. by intros ev d [=]%list_elem_of_singleton.
Qed.

Lemma dependency_pass_spec all reports U ch U' ch' :
  (forall rep, rep ∈ reports -> rep ∈ all) ->
  foldl dependency_step (U, ch) reports = (U', ch') ->
  U ⊆ U' /\ ((forall x, x ∈ U -> unevaluable all x) -> forall x, x ∈ U' -> unevaluable all x) /\
  (ch = true -> ch' = true) /\
  (ch' = false -> U' = U /\ closed_under reports U) /\
  (ch' = true -> ch = true \/ exists x, x ∈ report_names all /\ x ∈ U' /\ x ∉ U).
Proof.
  revert U ch. induction reports as [|rep reports IH]; intros U ch Hin; cbn [foldl].
  { intros [= <- <-]. split_and!; auto. intros _. split; [done|]. intros ev d Hx. set_solver. }
  intros Hf. assert (Hrep : rep ∈ all) by (apply Hin; set_solver).
  assert (Hin' : forall rep, rep ∈ reports -> rep ∈ all) by (intros ? ?; apply Hin; set_solver).
  destruct (dependency_step_cases (U, ch) rep) as [[Heq Hcl]|(ev & d & -> & Hq & Hd & HdU & Hn & Heq)];
    cbn [fst] in *; rewrite Heq in Hf; destruct (IH _ _ Hin' Hf) as (H1 & H2 & H3 & H4 & H5).
  - split_and!; [done|done|done| |done]. intros Hch. destruct (H4 Hch) as [-> Hc]. split; [done|].
    intros ev d [<-|Hev]%elem_of_cons; [apply Hcl; set_solver|by apply Hc].
  - split_and!; [set_solver| |intros _; by apply H3| |].
    + intros HU. apply H2. intros x [->%elem_of_singleton|Hx]%elem_of_union; [|by apply HU].
      eapply unevaluable_depends; [done|done|done|by apply HU].
    + intros Hch. rewrite H3 in Hch; done.
    + intros _. right. exists (name (reminder ev)).
      split_and!; [by apply elem_of_report_names|set_solver|done].
Qed.

Lemma dependency_loop_spec fuel reports U :
  size (report_names reports ∖ U) < fuel ->
  (forall x, x ∈ U -> unevaluable reports x) ->
  let U' := dependency_loop fuel reports U in
  U ⊆ U' /\ closed_under reports U' /\ forall x, x ∈ U' -> unevaluable reports x.
Proof.
  revert U. induction fuel as [|fuel IH]; intros U Hf HU; [lia|]. cbn [dependency_loop].
  destruct (foldl dependency_step (U, false) reports) as [U' ch] eqn:Hp.
  destruct (dependency_pass_spec reports reports U false U' ch) as (H1 & H2 & _ & H4 & H5);
    [done|done|].
  specialize (H2 HU). destruct ch.
  - destruct (H5 eq_refl) as [?|(x & Hx & HxU' & HxU)]; [done|].
    destruct (IH U') as (I1 & I2 & I3); [|done|].
    + enough (size (report_names reports ∖ U') < size (report_names reports ∖ U)) by lia.
      apply subset_size. split; [set_solver|]. intros Hs.
      assert (x ∈ report_names reports ∖ U') by (apply Hs; set_solver). set_solver.
    + split_and!; [by etrans|done|done].
  - destruct (H4 eq_refl) as [-> Hc]. done.
Qed.

Lemma elem_of_unavailable_names reports n :
  n ∈ unavailable_names reports <-> unevaluable reports n.
Proof.
  unfold unavailable_names. set (U := list_to_set (omap no_result_name reports)).
  assert (HU : forall x, x ∈ U <-> exists ev, Evaluated ev ∈ reports
    /\ clean_outcome NoResult ev = true /\ x = name (reminder ev)).
  { intros x. unfold U. rewrite elem_of_list_to_set, list_elem_of_omap. split.
    - intros ([ev|ls] & Hin & Hn); cbn [no_result_name] in Hn; [|done].
      destruct (clean_outcome NoResult ev) eqn:Hc; [|done]. injection Hn as <-. eauto.
    - intros (ev & Hin & Hc & ->). exists (Evaluated ev). cbn [no_result_name]. by rewrite Hc. }
  destruct (dependency_loop_spec (S (length reports)) reports U) as (H1 & H2 & H3).
  - assert (size (report_names reports) <= length reports).
    { unfold report_names. etrans; [apply list_to_set_size_le|apply length_omap_le]. }
    assert (size (report_names reports ∖ U) <= size (report_names reports))
      by (apply subseteq_size; set_solver). lia.
  - intros x (ev & Hin & Hc & ->)%HU. by apply unevaluable_no_result.
  - split; [apply H3|]. induction 1 as [ev Hin Hc|ev d Hin Hq Hd _ IH].
    + apply H1, HU. eauto.
    + by eapply H2.
Qed.

(** ** The result of a tick *)

Definition effect_result (e : Effect) : TickResult := {|
  result_lines := e_lines e; result_fired := e_fired e; actions_emitted := e_actions e |}.

Lemma run_tick_effect `{GateRunner, FileAgeProbe} config state now fired current :
  run_tick config state now fired current
  = Some (effect_result (tick_effect config state now fired current false)).
Proof.
  unfold run_tick, run_tick_inner.
  pose proof (run_tick_body_refines config state now fired current false (W := ()) (E := Empty_set)
    None {| lines := []; new_fired := fired; sink := () |}) as Hr.
  cbv zeta in Hr. cbn [sink lines] in Hr.
  replace (deliver None _ _) with ((), Ok () : result Empty_set ()) in Hr; [|by destruct (e_lines _)].
  by rewrite Hr.
Qed.

Section planned.
Context (config : TickConfig) (state : OpsState) (now : Z) (fired : gmap string Z) (rp : bool).
#[local] Notation planned := (planned_reminders config state now fired rp).

Lemma plan_reminder_Some r p :
  plan_reminder state now fired rp r = Some p ->
  p = Runnable r /\ reminder_due now fired r = true /\ runnable_flags state r = true \/
  exists ls, p = PlannedSuppressed ls.
Proof.
  unfold plan_reminder. destruct (reminder_due now fired r), (runnable_flags state r), rp;
    simpl; intros [= <-]; eauto.
Qed.

Lemma planned_runnable r :
  r ∈ reminders config -> reminder_due now fired r = true -> runnable_flags state r = true ->
  Runnable r ∈ planned.
Proof.
  intros Hr Hd Hf. apply list_elem_of_omap. exists r. split; [done|].
  unfold plan_reminder. by rewrite Hd, Hf.
Qed.

Lemma planned_runnable_inv r :
  Runnable r ∈ planned ->
  r ∈ reminders config /\ reminder_due now fired r = true /\ runnable_flags state r = true.
Proof.
  intros (r' & Hr' & Hp)%list_elem_of_omap.
  apply plan_reminder_Some in Hp as [([= ->] & ? & ?)|[ls ?]]; [|done]. done.
Qed.

Lemma planned_names_NoDup : NoDup (name <$> reminders config) -> NoDup (planned_names planned).
Proof.
  unfold planned_names, planned_reminders.
  assert (Hin : forall (rs : list Reminder) n, n ∈ omap (fun p => match p with
      | Runnable r => Some (name r) | PlannedSuppressed _ => None end)
      (omap (plan_reminder state now fired rp) rs) -> n ∈ name <$> rs).
  { intros rs n (p & (r & Hr & Hp)%list_elem_of_omap & Hn)%list_elem_of_omap.
    apply plan_reminder_Some in Hp as [(-> & _)|[ls ->]]; [|done]. injection Hn as <-.
    apply list_elem_of_fmap. eauto. }
  induction (reminders config) as [|r rs IH]; [constructor|].
  rewrite fmap_cons, omap_cons. intros [Hr Hrs]%NoDup_cons.
  destruct (plan_reminder state now fired rp r) as [p|] eqn:Hp; [|by apply IH].
  rewrite omap_cons. apply plan_reminder_Some in Hp as [(-> & _)|[ls ->]]; [|by apply IH].
  apply NoDup_cons. split; [|by apply IH]. intros Hn. by apply Hr, Hin.
Qed.
End planned.

(** ** Render-failure counters *)

Lemma state_keys_distinct n m :
  (unresolved_render_state_keys n).1 <> (unresolved_render_state_keys m).2.
Proof.
  unfold unresolved_render_state_keys. cbn [fst snd]. intros Heq%(f_equal str_last).
  unfold UNRESOLVED_RENDER_COUNT_SUFFIX, UNRESOLVED_RENDER_FIRST_SUFFIX in Heq.
  by rewrite !str_last_app in Heq.
Qed.

(** [ts] are the times of consecutive failures, from a state without counters. *)
Definition fail_all (state : gmap string Z) (n : string) (ts : list Z) : gmap string Z :=
  foldl (fun s t => (record_render_failure s n t).1) state ts.

Lemma record_render_failure_spec state n now :
  let count := default 0%Z (state !! (unresolved_render_state_keys n).1) in
  let first := default (Z.max now 0) (state !! (unresolved_render_state_keys n).2) in
  (0 <= count <= i64_max)%Z -> (0 <= first)%Z ->
  let count' := Z.min (count + 1) i64_max in
  let first' := if decide (count = 0%Z) then Z.max now 0 else first in
  (record_render_failure state n now).2 = (count', first') /\
  (record_render_failure state n now).1 !! (unresolved_render_state_keys n).1 = Some count' /\
  (record_render_failure state n now).1 !! (unresolved_render_state_keys n).2 = Some first'.
Proof.
  intros count first Hc Hf. unfold record_render_failure. pose proof (state_keys_distinct n n) as Hne.
  destruct (unresolved_render_state_keys n) as [ck fk]. cbn [fst snd] in *. subst count first.
  rewrite !(Z.max_l (default 0%Z _)) by lia.
  assert (Hclamp : i64_clamp (default 0%Z (state !! ck) + 1)
                   = Z.min (default 0%Z (state !! ck) + 1) i64_max).
  { unfold i64_clamp, i64_min, i64_max in *. lia. }
  rewrite Hclamp, (Z.max_l (default (Z.max now 0) (state !! fk))) by lia.
  split_and!; [done|by rewrite lookup_insert_ne, lookup_insert_eq|by rewrite lookup_insert_eq].
Qed.

Lemma fail_all_spec state n t ts :
  state !! (unresolved_render_state_keys n).1 = None ->
  state !! (unresolved_render_state_keys n).2 = None ->
  fail_all state n (t :: ts) !! (unresolved_render_state_keys n).1
    = Some (Z.min (Z.of_nat (S (length ts))) i64_max) /\
  fail_all state n (t :: ts) !! (unresolved_render_state_keys n).2 = Some (Z.max t 0).
Proof.
  intros Hc Hf. unfold fail_all. induction ts as [|t' ts IH] using rev_ind.
  - cbn [foldl length]. destruct (record_render_failure_spec state n t) as (_ & -> & ->);
      rewrite ?Hc, ?Hf; cbn [default]; unfold id; try (unfold i64_max; lia).
    rewrite decide_True by done. done.
  - rewrite app_comm_cons, foldl_app. cbn [foldl]. cbn [foldl] in IH. destruct IH as [IHc IHf].
    destruct (record_render_failure_spec
      (foldl (fun s t => (record_render_failure s n t).1) (record_render_failure state n t).1 ts) n t')
      as (_ & -> & ->); rewrite ?IHc, ?IHf; cbn [default]; unfold id; try (unfold i64_max; lia).
    rewrite length_app. cbn [length]. split; [f_equal; unfold i64_max; lia|].
    rewrite decide_False; [done|]. unfold i64_max. lia.
Qed.

(** ** Pruning *)

Lemma keep_state_key_spec names k :
  keep_state_key names k = true <->
  plain_key k \/ exists n, n ∈ names /\ n <> "" /\
    (k = (unresolved_render_state_keys n).1 \/ k = (unresolved_render_state_keys n).2).
Proof.
  unfold keep_state_key, plain_key, starts_with, unresolved_render_state_keys. cbn [fst snd].
  destruct (strip_prefix _ k) as [rest|] eqn:Hp.
  2:{ split; [by left|done]. }
  apply strip_prefix_Some in Hp as ->.
  assert (Hnone : forall n, strip_suffix UNRESOLVED_RENDER_COUNT_SUFFIX
                    (n +:+ UNRESOLVED_RENDER_FIRST_SUFFIX) = None).
  { intros n. destruct (strip_suffix _ _) as [m|] eqn:Hs; [|done].
    apply strip_suffix_Some, (f_equal str_last) in Hs.
    unfold UNRESOLVED_RENDER_COUNT_SUFFIX, UNRESOLVED_RENDER_FIRST_SUFFIX in Hs.
    by rewrite !str_last_app in Hs. }
  assert (Hkeep : forall n, negb (str_is_empty n) && bool_decide (n ∈ names) = true
    <-> n ∈ names /\ n <> "").
  { intros n. rewrite andb_true_iff, bool_decide_eq_true. destruct n; naive_solver. }
  split.
  - intros H. right. destruct (strip_suffix UNRESOLVED_RENDER_COUNT_SUFFIX rest) as [n|] eqn:Hc.
    + apply strip_suffix_Some in Hc as ->. apply Hkeep in H as [? ?]. exists n.
      rewrite !str_app_assoc. auto.
    + destruct (strip_suffix UNRESOLVED_RENDER_FIRST_SUFFIX rest) as [n|] eqn:Hf; [|done].
      apply strip_suffix_Some in Hf as ->. apply Hkeep in H as [? ?]. exists n.
      rewrite !str_app_assoc. auto.
  - intros [?|(n & Hn & Hne & Hk)]; [done|]. rewrite !str_app_assoc in Hk.
    destruct Hk as [Hk|Hk]; apply (inj (String.append _)) in Hk as ->.
    + rewrite (proj2 (strip_suffix_Some UNRESOLVED_RENDER_COUNT_SUFFIX _ n)) by done. by apply Hkeep.
    + rewrite Hnone, (proj2 (strip_suffix_Some UNRESOLVED_RENDER_FIRST_SUFFIX _ n)) by done.
      by apply Hkeep.
Qed.
