(* ===== verification/TickPlaceholders.v ===== *)
(** * tick-hub: facts about placeholders

    The byte scan of [unresolved_placeholders] finds exactly the placeholders that
    occur in a text. *)
From S2P Require Import Prelude RustStr TickModel TickEngine.

(** A brace, a name and a brace. *)
Definition is_placeholder (p : string) : Prop :=
  exists c n, p = "{" +:+ (String c n +:+ "}") /\ name_start c = true
              /\ str_forallb name_byte n = true.

(** The byte before an occurrence is no opening brace; [ab] is the byte before [s]. *)
Fixpoint brace_before (ab : bool) (pre : string) : bool :=
  match pre with "" => ab | String c pre => brace_before (c =? "{")%char pre end.

(** [p] occurs in [s], not doubled by braces on either side. *)
Definition occurs (ab : bool) (p s : string) : Prop :=
  is_placeholder p /\
  exists pre post, s = pre +:+ (p +:+ post) /\ brace_before ab pre = false
                   /\ starts_with post "}" = false.

(** ** Names *)

Lemma name_no_brace c : name_byte c = true -> (c =? "{")%char = false /\ (c =? "}")%char = false.
Proof. destruct c as [[] [] [] [] [] [] [] []]; vm_compute; done. Qed.

Lemma name_start_byte c : name_start c = true -> name_byte c = true.
Proof. destruct c as [[] [] [] [] [] [] [] []]; vm_compute; done. Qed.

Lemma take_name_spec s :
  let '(n, r) := take_name s in
  s = n +:+ r /\ str_forallb name_byte n = true /\
  match r with "" => True | String c _ => name_byte c = false end.
Proof.
  induction s as [|c s IH]; [done|]. cbn [take_name]. destruct (name_byte c) eqn:Hc; [|done].
  destruct (take_name s) as [n r]. destruct IH as (-> & Hn & Hr). split_and!; [done| |done].
  cbn [str_forallb]. by rewrite Hc.
Qed.

Lemma take_name_unique n r :
  str_forallb name_byte n = true -> match r with "" => True | String c _ => name_byte c = false end ->
  take_name (n +:+ r) = (n, r).
Proof.
  intros Hn Hr. induction n as [|c n IH].
  - change ("" +:+ r) with r. destruct r as [|c r]; [done|]. cbn [take_name]. by rewrite Hr.
  - cbn [str_forallb] in Hn. apply andb_true_iff in Hn as [Hc Hn]. rewrite str_app_cons.
    cbn [take_name]. by rewrite Hc, IH.
Qed.

Lemma placeholder_at_spec s p r :
  placeholder_at s = Some (p, r) <->
  String "{" s = p +:+ r /\ is_placeholder p /\ starts_with r "}" = false.
Proof.
  split.
  - destruct s as [|c s]; [done|]. cbn [placeholder_at].
    destruct (name_start c) eqn:Hc; [|done].
    pose proof (take_name_spec s) as Hs. destruct (take_name s) as [n t].
    destruct Hs as (-> & Hn & _). destruct t as [|d t]; [done|].
    destruct (Ascii.eqb_spec d "}"%char) as [->|Hd].
    2:{ destruct d as [[] [] [] [] [] [] [] []]; done. }
    destruct (starts_with t "}") eqn:Ht; [done|]. intros [= <- <-]. split_and!.
    + change ("{" +:+ String c n +:+ "}") with (String "{" (String c (n +:+ "}"))).
      by rewrite !str_app_cons, str_app_assoc.
    + by exists c, n.
    + done.
  - intros (Heq & (c & n & -> & Hc & Hn) & Hr).
    change ("{" +:+ String c n +:+ "}") with (String "{" (String c (n +:+ "}"))) in Heq |- *.
    rewrite !str_app_cons, str_app_assoc in Heq. injection Heq as ->.
    cbn [placeholder_at]. rewrite Hc, take_name_unique by done.
    change ("}" +:+ r) with (String "}" r). cbn iota beta. by rewrite Hr.
Qed.

(** ** The scan *)

(** Text without opening braces hides no start of a placeholder. *)
Lemma skip_no_brace m pre r z :
  (forall a b, m <> a +:+ String "{" b) -> m +:+ r = pre +:+ String "{" z ->
  exists pre', pre = m +:+ pre' /\ r = pre' +:+ String "{" z.
Proof.
  revert pre. induction m as [|c m IH]; intros pre Hm Heq.
  - by exists pre.
  - destruct pre as [|d pre].
    + exfalso. change ("" +:+ String "{" z) with (String "{" z) in Heq.
      rewrite str_app_cons in Heq. injection Heq as -> _. by apply (Hm "" m).
    + rewrite !str_app_cons in Heq. injection Heq as -> Heq.
      destruct (IH pre) as (pre' & -> & ->); [|done|].
      * intros a b ->. by apply (Hm (String d a) b).
      * by exists pre'.
Qed.

Lemma name_app_no_brace n :
  str_forallb name_byte n = true -> forall a b, n +:+ "}" <> a +:+ String "{" b.
Proof.
  induction n as [|c n IH]; cbn [str_forallb].
  - intros _ [|d a] b; [done|]. rewrite str_app_cons. intros [= <- Heq]. by destruct a.
  - intros [Hc Hn]%andb_true_iff [|d a] b; rewrite str_app_cons.
    + intros [= -> _]. by apply name_no_brace in Hc as [? _].
    + rewrite str_app_cons. intros [= <- Heq]. by eapply IH.
Qed.

Lemma brace_before_app ab pre pre' :
  pre <> "" -> brace_before ab (pre +:+ pre') = brace_before (brace_before false pre) pre'.
Proof.
  destruct pre as [|c pre]; [done|]. intros _. rewrite str_app_cons. cbn [brace_before].
  generalize (c =? "{")%char as b. induction pre as [|d pre IH]; intros b; [done|].
  rewrite str_app_cons. cbn [brace_before]. apply IH.
Qed.

Lemma occurs_cons ab c s p :
  occurs ab p (String c s) <->
  (exists post, ab = false /\ is_placeholder p /\ String c s = p +:+ post
                /\ starts_with post "}" = false)
  \/ occurs (c =? "{")%char p s.
Proof.
  unfold occurs. split.
  - intros (Hp & [|d pre] & post & Heq & Hb & Hs).
    + left. by exists post.
    + right. rewrite str_app_cons in Heq. injection Heq as <- ->. eauto 6.
  - intros [(post & Hab & Hp & Heq & Hs)|(Hp & pre & post & -> & Hb & Hs)].
    + split; [done|]. exists "", post. done.
    + split; [done|]. exists (String c pre), post. done.
Qed.

Lemma brace_before_close ab m : brace_before ab (m +:+ "}") = false.
Proof. revert ab. induction m as [|c m IH]; intros ab; [done|]. apply IH. Qed.

(** A found placeholder hides nothing: the rest is scanned as if it came first. *)
Lemma occurs_after m p r :
  (forall a b, m +:+ "}" <> a +:+ String "{" b) ->
  occurs true p ((m +:+ "}") +:+ r) <-> occurs false p r.
Proof.
  intros Hnb. assert (Hne : m +:+ "}" <> "") by by destruct m.
  assert (Hb : forall pre, brace_before true ((m +:+ "}") +:+ pre) = brace_before false pre).
  { intros pre. by rewrite brace_before_app, brace_before_close. }
  unfold occurs. split; intros (Hp & pre & post & He & Hpre & Hs); (split; [done|]).
  - pose proof Hp as (c & n & Hpe & _). rewrite Hpe in He.
    change ("{" +:+ String c n +:+ "}") with (String "{" (String c (n +:+ "}"))) in He.
    rewrite str_app_cons in He. apply skip_no_brace in He as (pre' & -> & ->); [|done].
    exists pre', post. rewrite Hb in Hpre. split_and!; [|done|done].
    rewrite Hpe. by rewrite str_app_cons.
  - exists ((m +:+ "}") +:+ pre), post. rewrite Hb, He, !str_app_assoc. done.
Qed.

Lemma scan_spec fuel ab s p :
  String.length s <= fuel -> p ∈ scan_placeholders fuel ab s <-> occurs ab p s.
Proof.
  revert ab s. induction fuel as [|fuel IH]; intros ab [|c s] Hf; cbn [String.length] in Hf;
    try lia; cbn [scan_placeholders].
  1,2: split; [set_solver|]; intros ((d & n & -> & _) & [|? ?] & post & ? & _); done.
  rewrite occurs_cons. destruct (negb (c =? "{")%char || ab) eqn:Hskip.
  - rewrite IH by lia. split; [by right|]. intros [(post & -> & (d & n & -> & _) & Heq & _)|?]; [|done].
    rewrite orb_false_r in Hskip. b2p. change ("{" +:+ ?x) with (String "{" x) in Heq.
    rewrite !str_app_cons in Heq. injection Heq as -> _. done.
  - apply orb_false_iff in Hskip as [Hc ->]. b2p. apply Ascii.eqb_eq in Hc as ->.
    destruct (placeholder_at s) as [[q r]|] eqn:Hq.
    + apply placeholder_at_spec in Hq as (Heq & Hqp & Hr).
      destruct Hqp as (d & n & Hqe & Hd & Hn).
      assert (Hs : s = (String d n +:+ "}") +:+ r).
      { subst q. rewrite str_app_cons in Heq. by injection Heq. }
      assert (Hnb : forall a b, String d n +:+ "}" <> a +:+ String "{" b).
      { apply name_app_no_brace. cbn [str_forallb]. by rewrite (name_start_byte d Hd), Hn. }
      assert (Hlen : String.length r <= fuel).
      { rewrite Hs, str_length_app in Hf. lia. }
      rewrite elem_of_union, elem_of_singleton, IH by done.
      change ("{" =? "{")%char with true. rewrite Hs, occurs_after by done. rewrite <-Hs.
      split; [|intros [(post & _ & Hp & Hep & Hps)|?]; [left|by right]].
      * intros [->|?]; [left|by right]. exists r. split_and!; [done|by exists d, n|done|done].
      * assert (Hx : placeholder_at s = Some (p, post)) by by apply placeholder_at_spec.
        assert (Hy : placeholder_at s = Some (q, r)).
        { apply placeholder_at_spec. split_and!; [done|by exists d, n|done]. }
        congruence.
    + rewrite IH by lia. change ("{" =? "{")%char with true. split; [by right|].
      intros [(post & _ & Hp & Heq & Hs)|?]; [|done].
      assert (Hx : placeholder_at s = Some (p, post)) by by apply placeholder_at_spec.
      congruence.
Qed.

Lemma elem_of_unresolved text p : p ∈ unresolved_placeholders text <-> occurs false p text.
Proof. by apply scan_spec. Qed.
