(* ===== verification/TickIoFacts.v ===== *)
(** * tick-hub: facts about configuration files

    The depth-first search of [visit] decides acyclicity of the dependencies, the
    fields of an accepted document are well formed, and a well-formed
    configuration is read back from the value it is written as. *)
From S2P Require Import Prelude RustStr External TickModel TickCadence TickIo.

(** ** [each_result] and [collect_results] *)

Lemma each_result_check {E A} (f : A -> () -> result E ()) l :
  each_result f l () = Ok () <-> forall x, x ∈ l -> f x () = Ok ().
Proof.
  induction l as [|x l IH]; cbn [each_result]; [split; [set_solver|done]|].
  destruct (f x ()) as [[]|e] eqn:Hx.
  - rewrite IH. set_solver.
  - split; [done|]. intros Hl. rewrite Hl in Hx; [done|set_solver].
Qed.

(** A set built by inserting distinct new elements that pass a check. *)
Lemma each_result_insert {E A} (key : A -> string) (good : A -> Prop)
    (f : A -> gset string -> result E (gset string)) l (seen seen' : gset string) :
  (forall x s s', f x s = Ok s' <-> good x /\ key x ∉ s /\ s' = {[key x]} ∪ s) ->
  each_result f l seen = Ok seen' <->
  (forall x, x ∈ l -> good x /\ key x ∉ seen) /\ NoDup (key <$> l)
  /\ seen' = list_to_set (key <$> l) ∪ seen.
Proof.
  intros Hf. revert seen. induction l as [|x l IH]; intros seen; cbn [each_result].
  { rewrite fmap_nil. cbn [list_to_set]. rewrite union_empty_l_L.
    split; [intros [= ->]|intros (_ & _ & ->); done]. split_and!; [set_solver|constructor|done]. }
  rewrite fmap_cons, NoDup_cons. cbn [list_to_set].
  assert (Hset : list_to_set (key <$> l) ∪ ({[key x]} ∪ seen)
                 = {[key x]} ∪ list_to_set (key <$> l) ∪ seen) by set_solver.
  destruct (f x seen) as [s|e] eqn:Hx.
  - apply Hf in Hx as (Hg & Hk & ->). rewrite IH, Hset. split.
    + intros (Hl & Hnd & ->). split_and!; [| |done|done].
      * intros y [->|Hy]%elem_of_cons; [done|]. destruct (Hl y Hy). split; set_solver.
      * intros (y & Heq & Hy)%list_elem_of_fmap. destruct (Hl y Hy). set_solver.
    + intros (Hl & (Hnx & Hnd) & ->). split_and!; [|done|done].
      intros y Hy. destruct (Hl y) as [Hgy Hky]; [set_solver|]. split; [done|].
      intros [Heq%elem_of_singleton|?]%elem_of_union; [|done].
      apply Hnx. apply list_elem_of_fmap. eauto.
  - split; [done|]. intros (Hl & _ & _). destruct (Hl x) as [Hg Hk]; [set_solver|].
    enough (f x seen = Ok ({[key x]} ∪ seen)) by congruence. by apply Hf.
Qed.

Lemma collect_results_Forall2 {E A B} (f : A -> result E B) l bs :
  collect_results f l = Ok bs <-> Forall2 (fun a b => f a = Ok b) l bs.
Proof.
  split.
  - revert bs. induction l as [|a l IH]; intros bs; cbn [collect_results].
    { intros [= <-]. constructor. }
    destruct (f a) as [b|e] eqn:Ha; [|done].
    destruct (collect_results f l) as [bs'|e]; [|done]. intros [= <-]. by constructor; [|apply IH].
  - induction 1 as [|a b l bs Ha _ IH]; cbn [collect_results]; [done|]. by rewrite Ha, IH.
Qed.

(** ** The depth-first search *)

Section visit.
Context `{JsonNumber} (known : gmap string Reminder).

Definition depends (a b : string) : Prop := b ∈ dependencies known a.

(** Each name of the path depends on the next one. *)
Definition dep_path (p : list string) : Prop :=
  forall i a b, p !! i = Some a -> p !! S i = Some b -> depends a b.

Lemma dep_path_snoc p n :
  dep_path p -> (forall m, last p = Some m -> depends m n) -> dep_path (p ++ [n]).
Proof.
  intros Hp Hn i a b Ha Hb. destruct (decide (S i < length p)) as [Hi|Hi].
  - apply (Hp i); [by rewrite <-(lookup_app_l p [n]) by lia|].
    by rewrite <-(lookup_app_l p [n]) by lia.
  - apply lookup_lt_Some in Hb as Hlen. rewrite length_app in Hlen. cbn [length] in Hlen.
    assert (S i = length p) as Hs by lia. rewrite Hs, list_lookup_middle in Hb by done.
    injection Hb as <-. apply Hn. rewrite last_lookup, <-Hs.
    by rewrite lookup_app_l in Ha by lia.
Qed.

(** A path that ends in a name it already holds. *)
Definition cycle_path (p : list string) : Prop :=
  exists q m, p = q ++ [m] /\ m ∈ q /\ dep_path p.

Lemma dep_path_tc p i j a b :
  dep_path p -> i < j -> p !! i = Some a -> p !! j = Some b -> tc depends a b.
Proof.
  intros Hp Hij. revert b. induction Hij as [|j Hij IH]; intros b Ha Hb.
  - apply tc_once. by eapply Hp.
  - destruct (p !! j) as [c|] eqn:Hc.
    + eapply tc_r; [by apply IH|]. by eapply Hp.
    + apply lookup_ge_None in Hc. apply lookup_lt_Some in Hb. lia.
Qed.

Lemma cycle_path_tc p : cycle_path p -> exists n, tc depends n n.
Proof.
  intros (q & m & -> & [i Hi]%list_elem_of_lookup & Hp). exists m.
  apply lookup_lt_Some in Hi as Hlt. apply (dep_path_tc (q ++ [m]) i (length q)); [done|done| |].
  - by rewrite lookup_app_l.
  - by rewrite list_lookup_middle.
Qed.

Record visit_inv (st : Visit) : Prop := {
  vi_path : visiting st = list_to_set (visit_path st);
  vi_chain : dep_path (visit_path st);
  vi_disjoint : forall n, n ∈ visited st -> n ∉ visiting st;
  vi_closed : forall n d, n ∈ visited st -> depends n d -> d ∈ visited st;
  vi_acyclic : forall n, n ∈ visited st -> ~ tc depends n n;
}.

(** What a call promises of the names [ns] it was given. *)
Definition visit_outcome (st : Visit) (ns : list string) (r : result TickConfigError Visit)
  : Prop :=
  match r with
  | Ok st' => visit_inv st' /\ visiting st' = visiting st /\ visit_path st' = visit_path st
      /\ visited st ⊆ visited st' /\ (forall n, n ∈ ns -> n ∈ visited st')
  | Err e => exists p, e = DependencyCycle p /\ cycle_path p
  end.

Lemma each_visit_outcome f st ns :
  visit_inv st ->
  (forall st' n, n ∈ ns -> visit_inv st' -> visiting st' = visiting st ->
     visit_path st' = visit_path st -> visit_outcome st' [n] (f n st')) ->
  visit_outcome st ns (each_result f ns st).
Proof.
  revert st. induction ns as [|n ns IH]; intros st Hi Hf; cbn [each_result].
  { cbn [visit_outcome]. split_and!; [done|done|done|done|set_solver]. }
  assert (Hn : visit_outcome st [n] (f n st)) by (apply Hf; [set_solver|done..]).
  destruct (f n st) as [st1|e]; [|done]. destruct Hn as (Hi1 & Hv1 & Hp1 & Hs1 & Hn1).
  assert (Hns : visit_outcome st1 ns (each_result f ns st1)).
  { apply IH; [done|]. intros st' m Hm Hi' Hv' Hp'.
    apply Hf; [set_solver|done|by rewrite Hv', Hv1|by rewrite Hp', Hp1]. }
  destruct (each_result f ns st1) as [st2|e]; [|done].
  destruct Hns as (Hi2 & Hv2 & Hp2 & Hs2 & Hn2). cbn [visit_outcome]. split_and!.
  - done.
  - by rewrite Hv2.
  - by rewrite Hp2.
  - by etrans.
  - intros m [->|Hm]%elem_of_cons; [|by apply Hn2]. apply Hs2, Hn1. set_solver.
Qed.

Hypothesis closed : forall n d, n ∈ dom known -> depends n d -> d ∈ dom known.

(** Entering a name: the state the search of its dependencies starts from. *)
Lemma visit_enter st n :
  visit_inv st -> n ∉ visited st -> n ∉ visiting st ->
  (forall m, last (visit_path st) = Some m -> depends m n) ->
  visit_inv {| visiting := {[n]} ∪ visiting st; visited := visited st;
               visit_path := visit_path st ++ [n] |}.
Proof.
  intros Hi Hnv Hng Hlast. constructor; cbn [visiting visited visit_path].
  - rewrite list_to_set_app_L, (vi_path st Hi). set_solver.
  - by apply dep_path_snoc; [apply vi_chain|].
  - intros m Hm [->%elem_of_singleton|Hg]%elem_of_union; [done|].
    by apply (vi_disjoint st Hi m).
  - apply (vi_closed st Hi).
  - apply (vi_acyclic st Hi).
Qed.

Lemma visited_tc st a b :
  visit_inv st -> (forall d, depends a d -> d ∈ visited st) -> tc depends a b -> b ∈ visited st.
Proof.
  intros Hi Hd Ht. revert Hd. induction Ht as [a b Hab|a d b Had _ IH]; intros Hd; [by apply Hd|].
  apply IH. intros c. apply (vi_closed st Hi). by apply Hd.
Qed.

(** Leaving it: its dependencies are all visited. *)
Lemma visit_leave st st' n :
  visit_inv st -> n ∉ visiting st -> visit_inv st' ->
  visiting st' = {[n]} ∪ visiting st -> visit_path st' = visit_path st ++ [n] ->
  (forall d, depends n d -> d ∈ visited st') ->
  visit_inv {| visiting := visiting st' ∖ {[n]}; visited := {[n]} ∪ visited st';
               visit_path := removelast (visit_path st') |}.
Proof.
  intros Hi Hn Hi' Hv Hp Hd.
  assert (Hback : visiting st' ∖ {[n]} = visiting st) by (rewrite Hv; set_solver).
  assert (Hnv : n ∉ visited st').
  { intros Hin. apply (vi_disjoint st' Hi' n Hin). rewrite Hv. set_solver. }
  constructor; cbn [visiting visited visit_path]; rewrite ?Hback, ?Hp, ?removelast_last.
  - apply (vi_path st Hi).
  - apply (vi_chain st Hi).
  - intros m [->%elem_of_singleton|Hm]%elem_of_union; [done|].
    apply (vi_disjoint st' Hi') in Hm. rewrite Hv in Hm. set_solver.
  - intros m d [->%elem_of_singleton|Hm]%elem_of_union Hmd; apply elem_of_union_r.
    + by apply Hd.
    + by eapply (vi_closed st' Hi').
  - intros m [->%elem_of_singleton|Hm]%elem_of_union; [|by apply (vi_acyclic st' Hi')].
    intros Ht. apply Hnv. by apply (visited_tc st' n).
Qed.

Lemma dep_visit_spec fuel n st :
  n ∈ dom known -> visiting st ⊆ dom known -> size (dom known ∖ visiting st) < fuel ->
  visit_inv st -> (forall m, last (visit_path st) = Some m -> depends m n) ->
  visit_outcome st [n] (visit fuel known n st).
Proof.
  revert n st. induction fuel as [|fuel IH]; intros n st Hn Hsub Hf Hi Hlast; [lia|].
  cbn [visit]. case_decide as Hv.
  { cbn [visit_outcome]. split_and!; [done..|set_solver]. }
  case_decide as Hg.
  { exists (visit_path st ++ [n]). split; [done|]. exists (visit_path st), n.
    split_and!; [done| |by apply dep_path_snoc; [apply vi_chain|]].
    rewrite (vi_path st Hi) in Hg. by apply elem_of_list_to_set in Hg. }
  pose proof (visit_enter st n Hi Hv Hg Hlast) as He.
  set (entered := Build_Visit _ _ _) in *.
  assert (Hsize : size (dom known ∖ ({[n]} ∪ visiting st)) < fuel).
  { enough (size (dom known ∖ ({[n]} ∪ visiting st)) < size (dom known ∖ visiting st)) by lia.
    apply subset_size. split; [set_solver|]. intros Hs.
    assert (n ∈ dom known ∖ visiting st) as Hx by set_solver.
    apply Hs in Hx. set_solver. }
  assert (Hout : visit_outcome entered (dependencies known n)
                   (each_result (visit fuel known) (dependencies known n) entered)).
  { apply each_visit_outcome; [done|]. intros st' d Hd Hi' Hv' Hp'. apply IH.
    - by apply (closed n).
    - rewrite Hv'. subst entered. cbn [visiting]. set_solver.
    - by rewrite Hv'.
    - done.
    - rewrite Hp'. subst entered. cbn [visit_path]. intros m. rewrite last_snoc.
      by intros [= <-]. }
  destruct (each_result _ _ entered) as [st'|e]; [|done].
  destruct Hout as (Hi' & Hv' & Hp' & Hs' & Hd'). cbn [mbind result_bind visit_outcome].
  subst entered. cbn [visiting visited visit_path] in *. split_and!.
  - by apply (visit_leave st).
  - rewrite Hv'. set_solver.
  - by rewrite Hp', removelast_last.
  - set_solver.
  - set_solver.
Qed.
End visit.

(** ** [validate_dependencies] *)

(** [b] is a dependency of the reminder named [a]. *)
Definition requires (rs : list Reminder) (a b : string) : Prop :=
  exists r, r ∈ rs /\ name r = a /\ b ∈ depends_on r.

(** The checks on one dependency of a reminder. *)
Definition dependency_named (rs : list Reminder) (r : Reminder) (d : string) : Prop :=
  trim d <> "" /\ not_a_key d = false /\ d <> name r /\ d ∈ name <$> rs.

Definition dependencies_named (rs : list Reminder) : Prop :=
  forall r, r ∈ rs -> NoDup (depends_on r) /\ forall d, d ∈ depends_on r -> dependency_named rs r d.

Lemma str_is_empty_spec s : str_is_empty s = true <-> s = "".
Proof. by destruct s. Qed.

Lemma str_is_empty_false s : str_is_empty s = false <-> s <> "".
Proof. by destruct s. Qed.

Lemma each_result_Err {E S A} (f : A -> S -> result E S) l s e :
  each_result f l s = Err e -> exists x s', x ∈ l /\ f x s' = Err e.
Proof.
  revert s. induction l as [|x l IH]; intros s; cbn [each_result]; [done|].
  destruct (f x s) as [s'|e'] eqn:Hx.
  - intros (y & s'' & Hy & He)%IH. exists y, s''. split; [set_solver|done].
  - intros [= <-]. exists x, s. split; [set_solver|done].
Qed.

Section dependencies.
Context `{JsonNumber} (rs : list Reminder).

Let known := reminders_by_name rs.

Lemma reminders_by_name_Some n r : known !! n = Some r -> r ∈ rs /\ name r = n.
Proof.
  intros Hr%map_collect_Some. apply list_elem_of_fmap in Hr as (r' & Heq & Hr').
  by injection Heq as -> ->.
Qed.

Lemma elem_of_dom_by_name n : n ∈ dom known <-> n ∈ name <$> rs.
Proof.
  unfold known, reminders_by_name. rewrite map_collect_dom, <-list_fmap_compose.
  by rewrite elem_of_list_to_set.
Qed.

Lemma check_dependency_Ok r d s s' :
  check_dependency known r d s = Ok s' <-> dependency_named rs r d /\ d ∉ s /\ s' = {[d]} ∪ s.
Proof.
  unfold check_dependency, dependency_named. rewrite <-elem_of_dom_by_name, elem_of_dom.
  destruct (str_is_empty (trim d)) eqn:He; cbn [orb].
  { apply str_is_empty_spec in He. split; [done|tauto]. }
  apply str_is_empty_false in He as Hne.
  destruct (not_a_key d); [split; [done|naive_solver]|].
  case_decide as Hd; [split; [done|tauto]|].
  destruct (String.eqb_spec d (name r)) as [->|Hn]; [split; [done|naive_solver]|].
  destruct (known !! d) as [r'|].
  - split; [intros [= <-]; split_and!; eauto|]. by intros (_ & _ & ->).
  - split; [done|]. intros ((_ & _ & _ & [? ?]) & _); done.
Qed.

Lemma check_dependencies_Ok :
  each_result (check_dependencies known) rs () = Ok () <-> dependencies_named rs.
Proof.
  rewrite each_result_check. unfold dependencies_named. apply forall_proper; intros r.
  apply forall_proper; intros _. unfold check_dependencies.
  pose proof (each_result_insert id (dependency_named rs r) (check_dependency known r)
    (depends_on r) ∅) as Hins.
  destruct (each_result _ (depends_on r) ∅) as [s|e]; cbn [mbind result_bind].
  - destruct (proj1 (Hins s (check_dependency_Ok r)) eq_refl) as (Hl & Hnd & _).
    rewrite list_fmap_id in Hnd. split; [|done]. intros _. split; [done|]. intros d Hd.
    by apply Hl.
  - split; [done|]. intros [Hnd Hl].
    enough (@Err TickConfigError (gset string) e = Ok (list_to_set (id <$> depends_on r) ∪ ∅))
      by done.
    apply Hins; [apply check_dependency_Ok|]. rewrite list_fmap_id. split_and!; [|done|done].
    intros d Hd. split; [by apply Hl|set_solver].
Qed.

Lemma check_dependencies_no_cycle p :
  each_result (check_dependencies known) rs () <> Err (DependencyCycle p).
Proof.
  intros (r & [] & _ & Hr)%each_result_Err. unfold check_dependencies in Hr.
  destruct (each_result _ (depends_on r) ∅) as [|e] eqn:He; [done|].
  cbn [mbind result_bind] in Hr. injection Hr as ->.
  apply each_result_Err in He as (d & s & _ & Hd). unfold check_dependency in Hd.
  by repeat case_match.
Qed.

Lemma visit_roots_outcome st :
  (forall n d, n ∈ dom known -> depends known n d -> d ∈ dom known) ->
  visit_inv known st -> visiting st = ∅ -> forall l, l ⊆ rs ->
  match each_result (visit_root known) l st with
  | Ok st' => visit_inv known st' /\ visited st ⊆ visited st'
      /\ (forall n, n ∈ name <$> l -> n ∈ visited st')
  | Err e => exists p, e = DependencyCycle p /\ cycle_path known p
  end.
Proof.
  intros Hclosed Hi Hg l. revert st Hi Hg.
  induction l as [|r l IH]; intros st Hi Hg Hl; cbn [each_result]; [set_solver|].
  unfold visit_root at 1.
  set (st0 := {| visiting := visiting st; visited := visited st; visit_path := [] |}).
  assert (Hout : visit_outcome known st0 [name r] (visit (S (size known)) known (name r) st0)).
  { apply dep_visit_spec.
    - done.
    - apply elem_of_dom_by_name. set_solver.
    - subst st0. cbn [visiting]. set_solver.
    - subst st0. cbn [visiting]. rewrite Hg, difference_empty_L, size_dom. lia.
    - destruct Hi as [_ _ Hd Hc Ha]. by constructor; subst st0; cbn.
    - done. }
  destruct (visit _ known (name r) st0) as [st1|e]; [|done].
  destruct Hout as (Hi1 & Hv1 & _ & Hs1 & Hn1). subst st0. cbn [visiting visited] in *.
  assert (Hl' : match each_result (visit_root known) l st1 with
    | Ok st' => visit_inv known st' /\ visited st1 ⊆ visited st'
        /\ (forall n, n ∈ name <$> l -> n ∈ visited st')
    | Err e => exists p, e = DependencyCycle p /\ cycle_path known p
    end) by (apply IH; [done|by rewrite Hv1|set_solver]).
  destruct (each_result _ l st1) as [st2|e]; [|done]. set_solver.
Qed.

Lemma depends_requires a b : NoDup (name <$> rs) -> depends known a b <-> requires rs a b.
Proof.
  intros Hnd. unfold depends, dependencies, requires. split.
  - destruct (known !! a) as [r|] eqn:Hr; [|set_solver].
    apply reminders_by_name_Some in Hr as [? ?]. eauto.
  - intros (r & Hr & <- & Hb). unfold known, reminders_by_name.
    rewrite (map_collect_NoDup _ (name r) r); [done| |].
    + by rewrite <-list_fmap_compose.
    + apply list_elem_of_fmap. eauto.
Qed.

Lemma requires_closed n d :
  dependencies_named rs -> n ∈ dom known -> depends known n d -> d ∈ dom known.
Proof.
  intros Hd _. unfold depends, dependencies.
  destruct (known !! n) as [r|] eqn:Hr; [|set_solver].
  apply reminders_by_name_Some in Hr as [Hr _]. intros Hin.
  apply elem_of_dom_by_name. by apply (proj2 (Hd r Hr)).
Qed.
End dependencies.

Lemma validate_dependencies_Ok `{JsonNumber} rs :
  NoDup (name <$> rs) ->
  validate_dependencies rs = Ok () <->
  dependencies_named rs /\ forall n, ~ tc (requires rs) n n.
Proof.
  intros Hnd. unfold validate_dependencies. set (known := reminders_by_name rs).
  assert (Htc : forall a b, tc (depends known) a b <-> tc (requires rs) a b).
  { intros a b. split; (apply tc_subrel; intros x y; by apply depends_requires). }
  destruct (each_result (check_dependencies known) rs ()) as [[]|e] eqn:Hc;
    cbn [mbind result_bind].
  2: { rewrite <-check_dependencies_Ok. fold known. rewrite Hc. split; [done|]. by intros [? _]. }
  apply check_dependencies_Ok in Hc as Hnamed.
  set (start := {| visiting := ∅; visited := ∅; visit_path := [] |}).
  assert (Hroots := visit_roots_outcome rs start
    (fun n d => requires_closed rs n d Hnamed) ltac:(by constructor) eq_refl rs ltac:(done)).
  fold known in Hroots. destruct (each_result _ rs start) as [st|e]; cbn [mbind result_bind].
  - destruct Hroots as (Hi & _ & Hall). split; [|done]. intros _. split; [done|].
    intros n Ht. apply (vi_acyclic _ _ Hi n); [|by apply Htc].
    apply Hall. enough (forall a b, tc (requires rs) a b -> a ∈ name <$> rs) as Hin by eauto.
    intros a b [? ? (r & Hr & <- & _)|? ? ? (r & Hr & <- & _) _];
      apply list_elem_of_fmap; eauto.
  - split; [done|]. intros [_ Ha]. destruct Hroots as (p & _ & Hp).
    apply cycle_path_tc in Hp as [n Hn]. by apply Htc, Ha in Hn.
Qed.

(** ** Well-formed configurations *)

Definition reminder_wf (r : Reminder) : Prop :=
  trim (name r) <> "" /\ not_a_key (name r) = false
  /\ starts_with (name r) INTERNAL_STATE_PREFIX = false
  /\ (0 <= cadence_secs r <= i64_max)%Z
  /\ (forall o, cadence_offset_secs r = Some o -> 0 <= o < cadence_secs r)%Z
  /\ (forall w, cadence_window_secs r = Some w ->
        is_Some (cadence_offset_secs r) /\ 0 < w <= cadence_secs r)%Z
  /\ (forall g t, gate r = Some g -> timeout_secs g = Some t -> 0 < t <= i64_max)%Z
  /\ action_without_skill (emit r) = false /\ NoDup (fields (emit r)).*1.

Definition health_wf (h : HealthCheck) : Prop :=
  trim (hc_name h) <> "" /\ trim (hc_glob h) <> "" /\ (0 <= threshold_secs h <= i64_max)%Z.

Definition config_wf (c : TickConfig) : Prop :=
  NoDup (name <$> reminders c) /\ Forall reminder_wf (reminders c)
  /\ dependencies_named (reminders c) /\ (forall n, ~ tc (requires (reminders c)) n n)
  /\ NoDup (hc_name <$> health_checks c) /\ Forall health_wf (health_checks c).

(** ** What an accepted document promises *)

Lemma im_insert_keys {A} (m : list (string * A)) k a x :
  x ∈ (im_insert m k a).*1 <-> x = k \/ x ∈ m.*1.
Proof.
  induction m as [|[k' a'] m IH]; cbn [im_insert]; [set_solver|].
  destruct (String.eqb_spec k' k) as [->|Hk]; rewrite !fmap_cons, !elem_of_cons; cbn [fst];
    [tauto|]. rewrite IH. tauto.
Qed.

Lemma im_insert_NoDup {A} (m : list (string * A)) k a :
  NoDup m.*1 -> NoDup (im_insert m k a).*1.
Proof.
  induction m as [|[k' a'] m IH]; cbn [im_insert]; [constructor; [set_solver|constructor]|].
  rewrite fmap_cons, NoDup_cons. cbn [fst]. intros [Hk Hm].
  destruct (String.eqb_spec k' k) as [->|Hne]; rewrite fmap_cons, NoDup_cons; cbn [fst].
  - done.
  - rewrite im_insert_keys. split; [naive_solver|by apply IH].
Qed.

Section accepted.
Context `{JsonNumberLaws}.

Lemma opt_nonnegative_int_Ok obj key place z :
  opt_nonnegative_int obj key 0 place = Ok z -> (0 <= z <= i64_max)%Z.
Proof.
  intros Hz. unfold opt_nonnegative_int in Hz. invert_ok Hz. case_decide; [done|].
  injection Hz as <-. split; [lia|]. unfold opt_int in Ha.
  destruct (obj_get obj key) as [v|].
  - destruct (as_i64 v) as [z|] eqn:Hv; [|done]. injection Ha as ->.
    destruct v as [| |n| | |]; try done. by apply number_as_i64_range in Hv as [_ ?].
  - injection Ha as <-. unfold i64_max. lia.
Qed.

Lemma opt_fields_Ok obj key place fields :
  opt_fields obj key place = Ok fields -> NoDup fields.*1.
Proof.
  unfold opt_fields. destruct (obj_get obj key) as [v|]; [|intros [= <-]; constructor].
  intros Hf. invert_ok Hf. enough (forall l (out : index_map), NoDup out.*1 ->
    each_result (insert_field place key) l out = Ok fields -> NoDup fields.*1) as Hl.
  { by eapply Hl; [|exact Hf]; constructor. }
  clear. induction l as [|[k v] l IH]; intros out Hout; cbn [each_result].
  - by intros [= <-].
  - unfold insert_field at 1. cbn [fst snd]. destruct (as_str v); [|done].
    apply IH. by apply im_insert_NoDup.
Qed.

Lemma emit_from_Ok v place e :
  emit_from v place = Ok e -> action_without_skill e = false /\ NoDup (fields e).*1.
Proof.
  unfold emit_from. intros He. invert_ok He.
  destruct (EmitKind_from_value _) as [k|]; [|done]. invert_ok He.
  destruct (action_without_skill _) eqn:Hs; [done|]. injection He as <-. split; [done|].
  by eapply opt_fields_Ok.
Qed.

Lemma gate_from_Ok v place g t :
  gate_from v place = Ok (Some g) -> timeout_secs g = Some t -> (0 < t <= i64_max)%Z.
Proof.
  unfold gate_from. intros Hg.
  destruct v as [v|]; [|done]. destruct v; try done; invert_ok Hg;
    (destruct (GateWhen_from_value _); [|done]); invert_ok Hg; injection Hg as <-;
    cbn [timeout_secs]; intros ->; unfold gate_timeout in *;
    (destruct (present _ _); [|done]);
    match goal with Ht : _ ≫= _ = Ok (Some t) |- _ => invert_ok Ht end;
    (case_decide; [done|]); simplify_eq;
    match goal with Hi : opt_nonnegative_int _ _ _ _ = Ok t |- _ =>
      apply opt_nonnegative_int_Ok in Hi; lia end.
Qed.

Lemma reminder_name_Ok obj place n :
  reminder_name obj place = Ok n ->
  trim n <> "" /\ not_a_key n = false /\ starts_with n INTERNAL_STATE_PREFIX = false.
Proof.
  unfold reminder_name. intros Hn. invert_ok Hn.
  destruct (str_is_empty _) eqn:He; [done|]. destruct (not_a_key _) eqn:Hk; [done|].
  destruct (starts_with _ _) eqn:Hp; [done|]. injection Hn as <-. split_and!; [|done|done].
  by apply str_is_empty_false.
Qed.

Lemma reminder_offset_Ok obj cadence place offset o :
  reminder_offset obj cadence place = Ok offset -> offset = Some o -> (0 <= o < cadence)%Z.
Proof.
  unfold reminder_offset. intros Ho ->. destruct (present _ _); [|done]. invert_ok Ho.
  case_decide; [done|]. case_decide; [done|]. simplify_eq.
  apply opt_nonnegative_int_Ok in Ha. lia.
Qed.

Lemma reminder_window_Ok obj cadence offset place window w :
  reminder_window obj cadence offset place = Ok window -> window = Some w ->
  is_Some offset /\ (0 < w <= cadence)%Z.
Proof.
  unfold reminder_window. intros Hw ->. destruct (present _ _); [|done]. invert_ok Hw.
  destruct offset as [o|]; [|done]. case_decide; [done|]. simplify_eq. split; [done|lia].
Qed.

Lemma reminder_from_Ok v place r : reminder_from v place = Ok r -> reminder_wf r.
Proof.
  unfold reminder_from. intros Hr. invert_ok Hr.
  destruct (obj_get _ "emit") as [ev|]; [|done]. destruct ev; try done; invert_ok Hr;
    injection Hr as <-;
    match goal with
    | Hn : reminder_name _ _ = Ok _, Hc : opt_nonnegative_int _ _ _ _ = Ok _,
      Ho : reminder_offset _ _ _ = Ok _, Hw : reminder_window _ _ _ _ = Ok _,
      He : emit_from _ _ = Ok _, Hg : gate_from _ _ = Ok _ |- _ =>
        destruct (reminder_name_Ok _ _ _ Hn) as (? & ? & ?);
        destruct (emit_from_Ok _ _ _ He) as [? ?];
        unfold reminder_wf; cbn [name emit cadence_secs gate cadence_offset_secs cadence_window_secs];
        split_and!; [done|done|done|by eapply opt_nonnegative_int_Ok
          |by eapply opt_nonnegative_int_Ok|by intros; eapply reminder_offset_Ok
          |by intros; eapply reminder_window_Ok|intros ?? ->; by eapply gate_from_Ok|done|done]
    end.
Qed.

Lemma health_from_Ok v place h : health_from v place = Ok h -> health_wf h.
Proof.
  unfold health_from. intros Hh. invert_ok Hh.
  destruct (str_is_empty _) eqn:Hn in Hh; [done|]. invert_ok Hh.
  destruct (str_is_empty _) eqn:Hg in Hh; [done|]. invert_ok Hh. injection Hh as <-.
  apply str_is_empty_false in Hn, Hg. unfold health_wf. cbn [hc_name hc_glob threshold_secs].
  split_and!; [done|done| |]; eapply opt_nonnegative_int_Ok; eassumption.
Qed.
Lemma items_from_Ok {A} (read : value -> string -> result TickConfigError A) (P : A -> Prop)
    obj key items :
  (forall v place a, read v place = Ok a -> P a) ->
  items_from read obj key = Ok items -> Forall P items.
Proof.
  intros HP. unfold items_from. destruct (obj_get obj key) as [v|]; [|by intros [= <-]].
  destruct v; try done. intros Hi%collect_results_Forall2. apply Forall_forall. intros a Ha.
  apply list_elem_of_lookup in Ha as [i Hi'].
  eapply Forall2_lookup_r in Hi as (iv & _ & Hr); [|exact Hi']. by eapply HP.
Qed.

Lemma insert_unique_all {A} (key : A -> string) e l seen :
  each_result (fun x => insert_unique e (key x)) l ∅ = Ok seen <->
  NoDup (key <$> l) /\ seen = list_to_set (key <$> l) ∪ ∅.
Proof.
  rewrite (each_result_insert key (fun _ => True)).
  - split; [by intros (_ & ? & ?)|]. intros [? ?]. split_and!; [|done|done].
    intros x _. split; [done|set_solver].
  - intros x s s'. unfold insert_unique. case_decide; [naive_solver|].
    split; [by intros [= <-]|]. by intros (_ & _ & ->).
Qed.

Lemma config_from_value_Ok raw c : config_from_value raw = Ok c -> config_wf c.
Proof.
  unfold config_from_value. intros Hc. invert_ok Hc. injection Hc as <-.
  repeat match goal with u : () |- _ => destruct u end.
  repeat match goal with Hu : each_result _ _ ∅ = Ok _ |- _ =>
    apply insert_unique_all in Hu as [? _] end.
  match goal with Hd : validate_dependencies _ = Ok _ |- _ =>
    apply validate_dependencies_Ok in Hd as [? ?]; [|done] end.
  unfold config_wf. cbn [reminders health_checks]. split_and!; try done.
  - eapply (items_from_Ok reminder_from); [|eassumption]. apply reminder_from_Ok.
  - eapply (items_from_Ok health_from); [|eassumption]. apply health_from_Ok.
Qed.
End accepted.

(** ** Reading a written configuration *)

(** What a document keeps of an emission: all of it, but its fields come by ascending key;
    an [IndexMap]'s equality does not see their order. *)
Definition canonical_emit (e : Emit) : Emit := {|
  kind := kind e; title := title e; skill := skill e; fields := sort_by_key fst (fields e) |}.

Definition canonical_reminder (r : Reminder) : Reminder := {|
  name := name r; emit := canonical_emit (emit r); cadence_secs := cadence_secs r;
  requires_flags := requires_flags r; gate := gate r; depends_on := depends_on r;
  cadence_offset_secs := cadence_offset_secs r; cadence_window_secs := cadence_window_secs r |}.

Definition canonical_config (c : TickConfig) : TickConfig := {|
  reminders := canonical_reminder <$> reminders c; health_checks := health_checks c;
  description := description c |}.

Lemma im_insert_fresh {A} (m : list (string * A)) k a :
  k ∉ m.*1 -> im_insert m k a = m ++ [(k, a)].
Proof.
  induction m as [|[k' a'] m IH]; cbn [im_insert]; [done|].
  rewrite fmap_cons, not_elem_of_cons. cbn [fst]. intros [Hk Hm].
  destruct (String.eqb_spec k' k) as [->|_]; [done|]. by rewrite IH.
Qed.

Lemma sort_by_key_fmap `{RustOrd K} {A B} (f : A -> B) (key : B -> K) l :
  sort_by_key key (f <$> l) = f <$> sort_by_key (key ∘ f) l.
Proof.
  assert (Hi : forall x l, insert_by_key key (f x) (f <$> l) = f <$> insert_by_key (key ∘ f) x l).
  { intros x l'. induction l' as [|y l' IH]; csimpl; [done|].
    change (rle ((key ∘ f) x) ((key ∘ f) y)) with (rle (key (f x)) (key (f y))).
    case_decide; csimpl; [done|]. by rewrite IH. }
  induction l as [|x l IH]; csimpl; [done|]. by rewrite IH, Hi.
Qed.

Lemma im_get_in {A} (m : list (string * A)) k a : NoDup m.*1 -> (k, a) ∈ m -> im_get m k = Some a.
Proof.
  induction m as [|[k' a'] m IH]; csimpl; [by intros _ ?%not_elem_of_nil|].
  intros [Hk Hnd]%NoDup_cons [[= -> ->]|Hin]%elem_of_cons; [by rewrite String.eqb_refl|].
  destruct (String.eqb_spec k' k) as [->|_]; [|by apply IH].
  destruct Hk. apply list_elem_of_fmap. by exists (k, a).
Qed.

Lemma sorted_fields_sorted m : NoDup m.*1 -> sorted_fields m = sort_by_key fst m.
Proof.
  intros Hnd. unfold sorted_fields. rewrite sort_by_key_fmap, <- list_fmap_compose.
  transitivity (id <$> sort_by_key fst m); [|apply list_fmap_id].
  apply list_fmap_ext. intros i [k v] Hi%list_elem_of_lookup_2. cbn.
  rewrite elem_of_sort_by_key in Hi. by rewrite (im_get_in m k v).
Qed.

Lemma sorted_keys_NoDup {A} (m : list (string * A)) : NoDup m.*1 -> NoDup (sort_by_key fst m).*1.
Proof. by rewrite sort_by_key_perm. Qed.

Section written.
Context `{JsonNumberLaws}.

Lemma reject_unknown_Ok (obj : object) allowed place :
  Forall (fun k => k ∈ allowed) obj.*1 -> reject_unknown obj allowed place = Ok ().
Proof.
  intros Hall. unfold reject_unknown. destruct (sort_dedup _) as [|k ks] eqn:Hk; [done|].
  assert (k ∈ k :: ks) as Hin by set_solver. rewrite <-Hk, elem_of_sort_dedup in Hin.
  apply elem_of_filter_b in Hin as [Hin Hb].
  rewrite Forall_forall in Hall. apply Hall in Hin.
  by rewrite bool_decide_eq_true_2 in Hb.
Qed.

Lemma collect_strings e (l : list string) :
  collect_results (fun item => match as_str item with Some s => Ok s | None => Err e end)
    (VString <$> l) = @Ok TickConfigError _ l.
Proof. induction l as [|s l IH]; [done|]. rewrite fmap_cons. cbn [collect_results as_str]. by rewrite IH. Qed.

Lemma insert_fields place key (l out : index_map) :
  NoDup (out.*1 ++ l.*1) ->
  each_result (insert_field place key) (prod_map id VString <$> l) out = Ok (out ++ l).
Proof.
  revert out. induction l as [|[k s] l IH]; intros out Hnd; [by rewrite app_nil_r|].
  rewrite fmap_cons. cbn [each_result]. unfold insert_field at 1. cbn [prod_map fst snd as_str id].
  rewrite fmap_cons in Hnd. cbn [fst] in Hnd. rewrite im_insert_fresh.
  - rewrite IH; [by rewrite <-app_assoc|]. by rewrite fmap_app, <-app_assoc.
  - apply NoDup_app in Hnd as (_ & Hd & _). intros Hk. apply (Hd k Hk). set_solver.
Qed.

Lemma EmitKind_spelled k : EmitKind_from_value (EmitKind_as_str k) = Some k.
Proof. by destruct k. Qed.
Lemma GateWhen_spelled w : GateWhen_from_value (GateWhen_as_str w) = Some w.
Proof. by destruct w. Qed.

Lemma emit_written e place :
  action_without_skill e = false -> NoDup (fields e).*1 ->
  emit_from (emit_to_value e) place = Ok (canonical_emit e).
Proof.
  intros Hs Hnd. unfold emit_from, emit_to_value, as_obj. cbn [as_object mbind result_bind].
  rewrite reject_unknown_Ok by (unfold emit_keys; cbn; repeat constructor; set_solver).
  unfold opt_str, opt_fields, as_obj.
  cbn [obj_get String.eqb Ascii.eqb Bool.eqb mbind result_bind as_object].
  rewrite EmitKind_spelled. cbn [mbind result_bind].
  rewrite sorted_fields_sorted by done. rewrite insert_fields.
  - cbn [mbind result_bind app]. unfold action_without_skill in *. cbn [kind skill].
    by rewrite Hs.
  - cbn [app fmap list_fmap]. by apply sorted_keys_NoDup.
Qed.

Lemma nonnegative_written (obj : object) key place z :
  obj_get obj key = Some (int_value z) -> (0 <= z <= i64_max)%Z ->
  opt_nonnegative_int obj key 0 place = Ok z.
Proof.
  intros Hk Hz. unfold opt_nonnegative_int, opt_int, int_value in *. rewrite Hk.
  cbn [as_i64]. rewrite number_as_i64_of by (unfold in_i64, i64_min; lia).
  cbn [mbind result_bind]. by rewrite decide_False by lia.
Qed.

(** Read the fields of an object that is written out. *)
Ltac read_object := cbn [obj_get String.eqb Ascii.eqb Bool.eqb mbind option_bind result_bind
  as_object as_str as_bool as_array app present].

Ltac known_keys := rewrite reject_unknown_Ok by (cbn; repeat constructor; set_solver).

Lemma gate_written g place :
  (forall t, timeout_secs g = Some t -> 0 < t <= i64_max)%Z ->
  gate_from (Some (gate_to_value (Some g))) place = Ok (Some g).
Proof.
  destruct g as [command w capture parallel timeout]. cbn [timeout_secs]. intros Ht.
  unfold gate_from, gate_to_value, as_obj, opt_str, gate_timeout, present, req_str, opt_bool.
  cbn [cmd when TickModel.capture TickModel.parallel timeout_secs].
  destruct timeout as [t|], parallel; read_object; known_keys; read_object;
    rewrite GateWhen_spelled; read_object; try done;
    destruct (Ht t eq_refl); (rewrite (nonnegative_written _ _ _ t) by (done || lia));
    read_object; by rewrite decide_False by lia.
Qed.

Lemma optional_gate_written g place :
  (forall g' t, g = Some g' -> timeout_secs g' = Some t -> 0 < t <= i64_max)%Z ->
  gate_from (Some (gate_to_value g)) place = Ok g.
Proof. destruct g as [g|]; [|done]. intros Hg. apply gate_written. intros t Ht. by eapply Hg. Qed.

Lemma reminder_name_written (obj : object) place n :
  obj_get obj "name" = Some (VString n) ->
  trim n <> "" -> not_a_key n = false -> starts_with n INTERNAL_STATE_PREFIX = false ->
  reminder_name obj place = Ok n.
Proof.
  intros Hn Ht Hk Hp. unfold reminder_name, req_str. rewrite Hn. read_object.
  rewrite (proj2 (str_is_empty_false _)) by done. by rewrite Hk, Hp.
Qed.

Lemma offset_written (obj : object) cadence place offset :
  obj_get obj "cadence_offset_secs" = int_value <$> offset ->
  (forall o, offset = Some o -> 0 <= o < cadence)%Z -> (cadence <= i64_max)%Z ->
  reminder_offset obj cadence place = Ok offset.
Proof.
  intros Hk Ho Hc. unfold reminder_offset, present. rewrite Hk.
  destruct offset as [o|]; cbn [fmap option_fmap option_map]; [|done].
  specialize (Ho o eq_refl). rewrite (nonnegative_written _ _ _ o) by (done || lia).
  read_object. by rewrite !decide_False by lia.
Qed.

Lemma window_written (obj : object) cadence offset place window :
  obj_get obj "cadence_window_secs" = int_value <$> window ->
  (forall w, window = Some w -> is_Some offset /\ 0 < w <= cadence)%Z -> (cadence <= i64_max)%Z ->
  reminder_window obj cadence offset place = Ok window.
Proof.
  intros Hk Hw Hc. unfold reminder_window, present. rewrite Hk.
  destruct window as [w|]; cbn [fmap option_fmap option_map]; [|done].
  destruct (Hw w eq_refl) as [[o ->] ?]. rewrite (nonnegative_written _ _ _ w) by (done || lia).
  read_object. by rewrite decide_False by lia.
Qed.

Lemma str_list_written (obj : object) key place l :
  obj_get obj key = (match l with [] => None | _ => Some (Array (VString <$> l)) end) \/
  obj_get obj key = Some (Array (VString <$> l)) ->
  opt_str_list obj key place = Ok l.
Proof.
  unfold opt_str_list. intros [->| ->]; [destruct l; [done|]|]; cbn [as_array];
    apply collect_strings.
Qed.

(** What the reader finds under each key of a written reminder. *)
Lemma reminder_object_keys r : exists obj, reminder_to_value r = Object obj /\
  Forall (fun k => k ∈ reminder_keys) obj.*1 /\
  obj_get obj "name" = Some (VString (name r)) /\
  obj_get obj "cadence_secs" = Some (int_value (cadence_secs r)) /\
  obj_get obj "cadence_offset_secs" = int_value <$> cadence_offset_secs r /\
  obj_get obj "cadence_window_secs" = int_value <$> cadence_window_secs r /\
  obj_get obj "requires_flags" = Some (Array (VString <$> requires_flags r)) /\
  obj_get obj "depends_on"
    = (match depends_on r with [] => None | _ => Some (Array (VString <$> depends_on r)) end) /\
  obj_get obj "gate" = Some (gate_to_value (gate r)) /\
  obj_get obj "emit" = Some (emit_to_value (emit r)).
Proof.
  unfold reminder_to_value, optional_int. eexists. split; [reflexivity|].
  destruct r as [n e cadence required g depends offset window].
  cbn [name emit cadence_secs requires_flags gate depends_on cadence_offset_secs
       cadence_window_secs].
  generalize (gate_to_value g), (emit_to_value e). intros gv ev.
  destruct offset as [o|], window as [w|], depends as [|d ds];
    (split; [cbn; repeat constructor; set_solver|]); split_and!; reflexivity.
Qed.

Lemma reminder_written r place :
  reminder_wf r -> reminder_from (reminder_to_value r) place = Ok (canonical_reminder r).
Proof.
  intros (Ht & Hk & Hp & Hc & Ho & Hw & Hg & Hs & Hf).
  destruct (reminder_object_keys r)
    as (obj & -> & Hkeys & Hkn & Hkc & Hko & Hkw & Hkr & Hkd & Hkg & Hke).
  unfold reminder_from, as_obj. cbn [as_object mbind result_bind].
  rewrite reject_unknown_Ok by done. cbn [mbind result_bind].
  rewrite Hke. unfold emit_to_value at 1. cbn iota. fold (emit_to_value (emit r)).
  rewrite (reminder_name_written obj place (name r)) by done. cbn [mbind result_bind].
  rewrite (nonnegative_written obj _ place (cadence_secs r)) by done. cbn [mbind result_bind].
  rewrite (offset_written obj _ place (cadence_offset_secs r)) by (done || lia).
  cbn [mbind result_bind].
  rewrite (window_written obj _ _ place (cadence_window_secs r)) by (done || lia).
  cbn [mbind result_bind]. rewrite emit_written by done. cbn [mbind result_bind].
  rewrite (str_list_written obj "requires_flags" place (requires_flags r)) by (right; assumption).
  cbn [mbind result_bind]. rewrite Hkg, optional_gate_written by done. cbn [mbind result_bind].
  rewrite (str_list_written obj "depends_on" place (depends_on r)) by (left; assumption).
  done.
Qed.

Lemma health_written h place :
  health_wf h -> health_from (health_to_value h) place = Ok h.
Proof.
  destruct h as [n glob threshold detail]. unfold health_wf. cbn [hc_name hc_glob threshold_secs].
  intros (Hn & Hg & Ht). unfold health_from, health_to_value, as_obj, req_str, opt_str.
  cbn [hc_name hc_glob threshold_secs TickModel.detail]. read_object. known_keys. read_object.
  rewrite !(proj2 (str_is_empty_false _)) by done.
  by rewrite (nonnegative_written _ _ _ threshold) by done.
Qed.

Lemma items_written {A B} (write : A -> value) (read : value -> string -> result TickConfigError B)
    (back : A -> B) (obj : object) key l :
  obj_get obj key = Some (Array (write <$> l)) ->
  (forall a p, a ∈ l -> read (write a) p = Ok (back a)) ->
  items_from read obj key = Ok (back <$> l).
Proof.
  intros Hk Hread. unfold items_from. rewrite Hk.
  apply collect_results_Forall2, Forall2_same_length_lookup_2.
  - by rewrite length_imap, !length_fmap.
  - intros i [j v] b. rewrite list_lookup_imap, !list_lookup_fmap.
    destruct (l !! i) as [a|] eqn:Ha; [|done]. cbn [fmap option_fmap option_map fst snd].
    intros [= <- <-] [= <-]. apply Hread. by eapply list_elem_of_lookup_2.
Qed.

Lemma canonical_names (l : list Reminder) : name <$> (canonical_reminder <$> l) = name <$> l.
Proof. rewrite <-list_fmap_compose. by apply list_fmap_ext. Qed.

(** Validation does not look at the fields of an emission. *)
Lemma canonical_dependencies (l : list Reminder) :
  NoDup (name <$> l) ->
  dependencies_named l -> (forall n, ~ tc (requires l) n n) ->
  validate_dependencies (canonical_reminder <$> l) = Ok ().
Proof.
  intros Hnd Hd Ha. apply validate_dependencies_Ok; [by rewrite canonical_names|]. split.
  - intros r' (r & -> & Hr)%list_elem_of_fmap. cbn [canonical_reminder depends_on].
    destruct (Hd r Hr) as [? Hall]. split; [done|]. intros d Hin%Hall.
    unfold dependency_named in *. by rewrite canonical_names.
  - intros n Ht. apply (Ha n). eapply tc_subrel; [|exact Ht].
    intros a b (r' & (r & -> & Hr)%list_elem_of_fmap & <- & Hb). by exists r.
Qed.

Lemma config_written c :
  config_wf c -> config_from_value (config_to_value c) = Ok (canonical_config c).
Proof.
  destruct c as [rs hs desc]. unfold config_wf. cbn [reminders health_checks].
  intros (Hnd & Hwf & Hd & Ha & Hhnd & Hhwf). rewrite Forall_forall in Hwf; rewrite Forall_forall in Hhwf.
  unfold config_from_value, config_to_value, as_obj. cbn [reminders health_checks description].
  cbn [as_object mbind result_bind]. known_keys. cbn [mbind result_bind].
  rewrite (items_written reminder_to_value reminder_from canonical_reminder _ "reminders" rs)
    by (done || (intros r p Hr; by apply reminder_written, Hwf)).
  cbn [mbind result_bind].
  rewrite (proj2 (insert_unique_all name _ _ (list_to_set (name <$> (canonical_reminder <$> rs)) ∪ ∅)))
    by (split; [by rewrite canonical_names|done]).
  cbn [mbind result_bind]. rewrite canonical_dependencies by done. cbn [mbind result_bind].
  rewrite (items_written health_to_value health_from id _ "health_checks" hs)
    by (done || (intros h p Hh; by apply health_written, Hhwf)).
  cbn [mbind result_bind]. rewrite list_fmap_id.
  by rewrite (proj2 (insert_unique_all hc_name _ hs (list_to_set (hc_name <$> hs) ∪ ∅)))
    by (split; done).
Qed.
End written.

(** ** The check before writing *)

(** What [check_reminder] and [check_health] look at. *)
Definition reminder_serializable (r : Reminder) : Prop :=
  trim (name r) <> "" /\ not_a_key (name r) = false
  /\ starts_with (name r) INTERNAL_STATE_PREFIX = false /\ (0 <= cadence_secs r)%Z
  /\ action_without_skill (emit r) = false /\ im_contains (fields (emit r)) "<<" = false.

Definition health_serializable (h : HealthCheck) : Prop :=
  trim (hc_name h) <> "" /\ trim (hc_glob h) <> "" /\ (0 <= threshold_secs h)%Z.

Section serializable.
Context `{JsonNumber}.

Lemma check_reminder_Ok r s s' :
  check_reminder r s = Ok s' <->
  reminder_serializable r /\ name r ∉ s /\ s' = {[name r]} ∪ s.
Proof.
  unfold check_reminder, reminder_serializable, insert_unique.
  destruct (str_is_empty (trim (name r))) eqn:He; cbn [orb].
  { apply str_is_empty_spec in He. split; [done|naive_solver]. }
  apply str_is_empty_false in He.
  destruct (not_a_key (name r)); cbn [orb]; [split; [done|naive_solver]|].
  destruct (starts_with (name r) _); [split; [done|naive_solver]|].
  destruct (decide (name r ∈ s)); cbn [mbind result_bind]; [split; [done|naive_solver]|].
  case_decide; [split; [done|naive_solver lia]|].
  destruct (action_without_skill _); [split; [done|naive_solver]|].
  destruct (im_contains _ _); [split; [done|naive_solver]|].
  split; [intros [= <-]|naive_solver]. split_and!; try done; lia.
Qed.

Lemma check_health_Ok h s s' :
  check_health h s = Ok s' <->
  health_serializable h /\ hc_name h ∉ s /\ s' = {[hc_name h]} ∪ s.
Proof.
  unfold check_health, health_serializable, insert_unique.
  destruct (str_is_empty (trim (hc_name h))) eqn:He.
  { apply str_is_empty_spec in He. split; [done|naive_solver]. }
  apply str_is_empty_false in He.
  destruct (decide (hc_name h ∈ s)); cbn [mbind result_bind]; [split; [done|naive_solver]|].
  destruct (str_is_empty (trim (hc_glob h))) eqn:Hg.
  { apply str_is_empty_spec in Hg. split; [done|naive_solver]. }
  apply str_is_empty_false in Hg. case_decide; [split; [done|naive_solver lia]|].
  split; [intros [= <-]|naive_solver]. split_and!; try done; lia.
Qed.

Definition config_serializable (c : TickConfig) : Prop :=
  NoDup (name <$> reminders c) /\ Forall reminder_serializable (reminders c)
  /\ dependencies_named (reminders c) /\ (forall n, ~ tc (requires (reminders c)) n n)
  /\ NoDup (hc_name <$> health_checks c) /\ Forall health_serializable (health_checks c).

Lemma inserted_all {A} (key : A -> string) (good : A -> Prop)
    (f : A -> gset string -> result TickConfigError (gset string)) l :
  (forall x s s', f x s = Ok s' <-> good x /\ key x ∉ s /\ s' = {[key x]} ∪ s) ->
  (exists s, each_result f l ∅ = Ok s) <-> NoDup (key <$> l) /\ Forall good l.
Proof.
  intros Hf. rewrite Forall_forall. setoid_rewrite (each_result_insert key good f l ∅ _ Hf). split.
  - intros (s & Hl & Hnd & _). split; [done|]. intros x Hx. by apply Hl.
  - intros [Hnd Hl]. eexists. split_and!; [|done|reflexivity]. intros x Hx.
    split; [by apply Hl|set_solver].
Qed.

Lemma validate_serializable_Ok c :
  validate_serializable c = Ok () <-> config_serializable c.
Proof.
  unfold validate_serializable, config_serializable.
  pose proof (inserted_all name _ _ (reminders c) check_reminder_Ok) as Hr.
  pose proof (inserted_all hc_name _ _ (health_checks c) check_health_Ok) as Hh.
  destruct (each_result check_reminder _ ∅) as [s|e]; cbn [mbind result_bind].
  2: { split; [done|]. intros (? & ? & _). destruct (proj2 Hr); naive_solver. }
  destruct (proj1 Hr) as [Hnd Hf]; [eauto|].
  pose proof (validate_dependencies_Ok _ Hnd) as Hd.
  destruct (validate_dependencies _) as [[]|e]; cbn [mbind result_bind].
  2: { split; [done|]. intros (_ & _ & ? & ? & _). by apply Hd. }
  destruct (proj1 Hd eq_refl) as [? ?].
  destruct (each_result check_health _ ∅) as [s'|e]; cbn [mbind result_bind].
  - destruct (proj1 Hh) as [? ?]; [eauto|]. done.
  - split; [done|]. intros (_ & _ & _ & _ & ? & ?). destruct (proj2 Hh); naive_solver.
Qed.
End serializable.
