(* ===== verification/TickConfigured.v ===== *)
(** * tick-hub: the fired-state file, and a tick over a configuration that was read

    Reading back a written file gives the state that was written, and the file a
    reader sees while it is being replaced is always a complete one.  The reader of
    configurations, the reader of the fired-state file and the tick together keep every
    fired-state entry writable. *)
From S2P Require Import Prelude RustStr External TickModel TickCadence TickIo TickState TickEngine TickRun TickEffects TickRefine TickFacts TickIoFacts.

(** ** One line *)

(** An entry the writer accepts, whose key is UTF-8 text. *)
Definition storable (kv : string * Z) : Prop :=
  invalid_entry kv = false /\ in_i64 kv.2 /\ starts_in_character kv.1 = false.

(** The reader takes the line for a comment. *)
Definition is_comment (kv : string * Z) : bool := starts_with kv.1 "#".

Lemma line_boundary_whitespace ch : is_line_boundary ch = true -> is_whitespace ch = true.
Proof.
  unfold is_line_boundary, is_whitespace, char_is_whitespace, in_codes.
  set (n := char_code ch). rewrite !orb_true_iff, !andb_true_iff, !N.leb_le, !N.eqb_eq. lia.
Qed.

Lemma digit_chars s :
  str_forallb is_digit s = true ->
  starts_in_character s = false /\ forall c, c ∈ chars s -> is_whitespace c = false.
Proof.
  induction s as [|c s IH]; cbn [str_forallb]; [intros _; split; [done|set_solver]|].
  intros [Hc Hs]%andb_true_iff. destruct (IH Hs) as [Hst Hw].
  assert (Hd : is_continuation c = false /\ is_whitespace (str1 c) = false).
  { destruct c as [[] [] [] [] [] [] [] []]; vm_compute in Hc; try discriminate Hc; done. }
  split; [apply Hd|]. change (String c s) with (str1 c +:+ s). rewrite chars_app by done.
  intros x [->%list_elem_of_singleton|?]%elem_of_app; [apply Hd|by apply Hw].
Qed.

(** The line without its terminator. *)
Definition fired_body (kv : string * Z) : string := kv.1 +:+ String "=" (pretty kv.2).

Lemma fired_line_body kv : fired_line kv = fired_body kv +:+ str1 nl.
Proof. unfold fired_line, fired_body. by rewrite str_app_assoc. Qed.

Lemma fired_body_chars kv : storable kv -> forall c, c ∈ chars (fired_body kv) -> is_whitespace c = false.
Proof.
  intros (Hinv & Hi & _) c. unfold invalid_entry in Hinv.
  apply orb_false_iff in Hinv as [[[_ _]%orb_false_iff Hw]%orb_false_iff Hv]. b2p.
  destruct (pretty_nonneg kv.2) as (Hd & _ & _); [lia|]. apply digit_chars in Hd as [Hst Hd].
  unfold fired_body. rewrite chars_app by done.
  change (String "=" (pretty kv.2)) with ("=" +:+ pretty kv.2). rewrite chars_app by done.
  rewrite existsb_false in Hw.
  intros [?|[->%list_elem_of_singleton|?]%elem_of_app]%elem_of_app; [by apply Hw|done|by apply Hd].
Qed.

Lemma fired_entry_body kv :
  storable kv -> fired_entry (fired_body kv) = if is_comment kv then None else Some kv.
Proof.
  intros Hs. pose proof (fired_body_chars kv Hs) as Hw. destruct Hs as (Hinv & Hi & _).
  unfold fired_entry, trim. rewrite trim_matches_none by done.
  unfold invalid_entry in Hinv.
  apply orb_false_iff in Hinv as [[[Hne Heq]%orb_false_iff Hkw]%orb_false_iff Hv].
  apply bool_decide_eq_false in Hv.
  destruct (pretty_nonneg kv.2) as (Hd & _ & Hpe); [lia|].
  assert (Hb : str_is_empty (fired_body kv) || starts_with (fired_body kv) "#" = is_comment kv).
  { unfold fired_body, is_comment. destruct kv as [[|c k] v]; [done|]. cbn [fst] in *.
    rewrite str_app_cons. cbn [str_is_empty orb]. unfold starts_with. cbn [strip_prefix].
    by destruct (_ =? c)%char. }
  rewrite Hb. destruct (is_comment kv); [done|].
  unfold fired_body. rewrite split_once_app by done. cbn [mbind option_bind].
  rewrite Hne, Hkw, Hpe, Hd. cbn [orb negb].
  rewrite parse_i64_pretty; [by destruct kv|]. destruct Hi. lia.
Qed.

(** ** The file *)

Lemma split_lines_line a b :
  (forall c, c ∈ chars a -> is_line_boundary c = false) -> starts_in_character b = false ->
  split_lines (a +:+ (str1 nl +:+ b)) = a :: split_lines b.
Proof. intros Ha Hb. unfold split_lines. by apply split_piece. Qed.

Lemma lines_start kvs :
  (forall kv, kv ∈ kvs -> starts_in_character kv.1 = false) ->
  starts_in_character (of_chars (fired_line <$> kvs)) = false.
Proof.
  destruct kvs as [|kv kvs]; [done|]. intros Hs. rewrite fmap_cons, of_chars_cons, fired_line_body.
  unfold fired_body. specialize (Hs kv ltac:(set_solver)).
  destruct kv as [[|c k] v]; [done|exact Hs].
Qed.

Lemma load_lines kvs :
  (forall kv, kv ∈ kvs -> storable kv) ->
  omap fired_entry (split_lines (of_chars (fired_line <$> kvs)))
  = List.filter (fun kv => negb (is_comment kv)) kvs.
Proof.
  induction kvs as [|kv kvs IH]; intros Hs; [done|].
  rewrite fmap_cons, of_chars_cons, fired_line_body, str_app_assoc.
  assert (Hkv : storable kv) by (apply Hs; set_solver).
  rewrite split_lines_line.
  - rewrite omap_cons, fired_entry_body by done. cbn [List.filter].
    rewrite IH by (intros x Hx; apply Hs; set_solver). by destruct (is_comment kv).
  - intros c Hc. pose proof (fired_body_chars kv Hkv c Hc) as Hw.
    apply not_true_iff_false. intros Hb%line_boundary_whitespace. congruence.
  - apply lines_start. intros x Hx. apply Hs. set_solver.
Qed.

Lemma load_header body :
  starts_in_character body = false ->
  omap fired_entry (split_lines (fired_header +:+ body)) = omap fired_entry (split_lines body).
Proof.
  intros Hb. unfold fired_header.
  set (h1 := "# tick-hub fired-state — reminder=last_fired_epoch (managed by tick-hub)").
  set (h2 := "# __tick_hub_internal__.* entries are reserved retry diagnostics").
  change (h1 +:+ str1 nl +:+ "# " +:+ INTERNAL_STATE_PREFIX
          +:+ "* entries are reserved retry diagnostics" +:+ str1 nl)
    with ((h1 +:+ str1 nl) +:+ (h2 +:+ str1 nl)).
  assert (Hnone : forall h, forallb (fun c => negb (is_line_boundary c)) (chars h) = true ->
    forall c, c ∈ chars h -> is_line_boundary c = false).
  { intros h Hh c Hc. rewrite forallb_elem in Hh. specialize (Hh c Hc). by b2p. }
  rewrite !str_app_assoc, !split_lines_line, !omap_cons; try done; apply Hnone; by vm_compute.
Qed.

Lemma load_fired_text state :
  (forall kv, kv ∈ btree_iter state -> storable kv) ->
  load_fired_state (Some (fired_text state)) = filter (fun kv => is_comment kv = false) state.
Proof.
  intros Hs. unfold load_fired_state, fired_text. rewrite load_header.
  - rewrite load_lines by done. apply map_eq. intros k. apply option_eq. intros v.
    rewrite map_lookup_filter_Some. split.
    + intros Hk%map_collect_Some. rewrite elem_of_filter_b, elem_of_btree_iter in Hk.
      destruct Hk as [? ?]. b2p. done.
    + intros [Hk Hc]. apply map_collect_NoDup.
      * apply NoDup_fmap_filter, btree_keys_NoDup.
      * rewrite elem_of_filter_b, elem_of_btree_iter. split; [done|]. by b2p.
  - apply lines_start. intros kv Hkv. by destruct (Hs kv Hkv) as (_ & _ & ?).
Qed.

(** ** Instants *)

Lemma scheduled_instant_eq cadence offset now :
  (0 < cadence <= i64_max)%Z -> (0 <= offset < cadence)%Z -> (0 <= now <= i64_max)%Z ->
  scheduled_instant cadence offset now = ((now - offset) / cadence * cadence + offset)%Z /\
  in_i64 ((now - offset) / cadence * cadence + offset)%Z.
Proof.
  intros Hc Ho Hn. unfold scheduled_instant, div_euclid. rewrite decide_True by lia.
  pose proof (Z.mod_pos_bound (now - offset) cadence ltac:(lia)) as Hm.
  pose proof (Z.div_mod (now - offset) cadence ltac:(lia)) as Hd.
  assert (Hq : (- cadence <= cadence * ((now - offset) / cadence))%Z).
  { assert ((-1 <= (now - offset) / cadence)%Z); [|nia].
    apply Z.div_le_lower_bound; lia. }
  rewrite (i64_clamp_id (now - offset)) by (unfold in_i64, i64_min, i64_max in *; lia).
  rewrite (i64_wrap_id (_ * _)) by (unfold in_i64, i64_min, i64_max in *; lia).
  assert (Hi : in_i64 ((now - offset) / cadence * cadence + offset)%Z)
    by (unfold in_i64, i64_min, i64_max in *; lia).
  by rewrite i64_wrap_id.
Qed.

(** ** Replacing the file *)

Lemma btree_find_invalid state :
  List.find invalid_entry (btree_iter state) = None <->
  forall k v, state !! k = Some v -> invalid_entry (k, v) = false.
Proof.
  split.
  - intros Hf k v Hk. apply (List.find_none _ _ Hf), list_elem_of_In, elem_of_btree_iter. done.
  - intros Hall. destruct (List.find _ _) as [[k v]|] eqn:Hf; [|done].
    apply List.find_some in Hf as [Hin Hi]. apply list_elem_of_In, elem_of_btree_iter in Hin.
    by rewrite (Hall k v Hin) in Hi.
Qed.

(** A name with [.tmp] appended is another name. *)
Lemma temporary_other (d f : string) : (d, f +:+ ".tmp") <> (d, f).
Proof.
  intros [= Heq%(f_equal String.length)]. rewrite str_length_app in Heq. simpl in Heq. lia.
Qed.

(** States in which only the temporary file may differ from [fs]. *)
Definition only_temporary (fs : files) (p : path) (fs' : files) : Prop :=
  forall k, k <> (p.1, temporary_name p) -> fs' !! k = fs !! k.

Lemma only_temporary_insert fs p text : only_temporary fs p (<[(p.1, temporary_name p) := text]> fs).
Proof. intros k Hk. by rewrite lookup_insert_ne. Qed.

Lemma only_temporary_delete fs p text :
  only_temporary fs p (delete (p.1, temporary_name p) (<[(p.1, temporary_name p) := text]> fs)).
Proof. intros k Hk. by rewrite lookup_delete_ne, lookup_insert_ne. Qed.

Lemma only_temporary_partial fs p text ns fs' :
  fs' ∈ rev ((fun n => <[(p.1, temporary_name p) := String.substring 0 n text]> fs) <$> ns) ++ [fs] ->
  only_temporary fs p fs'.
Proof.
  rewrite elem_of_app, list_elem_of_In, <-in_rev, <-list_elem_of_In, list_elem_of_singleton.
  intros [(n & -> & _)%list_elem_of_fmap| ->]; [apply only_temporary_insert|by intros k].
Qed.

(** Every state on the way leaves all but the temporary file alone; success adds one
    last state, which differs from these in the target only. *)
Lemma persist_trace faults fs p state r trace :
  persist_fired_state faults fs p state = (r, trace) ->
  match r with
  | Err _ => Forall (only_temporary fs p) trace
  | Ok _ => exists f mid last rest, p.2 = Some f /\ trace = last :: rest
      /\ last = <[(p.1, f) := fired_text state]> mid /\ only_temporary fs p mid
      /\ Forall (only_temporary fs p) rest
      /\ (forall k v, state !! k = Some v -> invalid_entry (k, v) = false)
  end.
Proof.
  unfold persist_fired_state. remember (fired_text state) as text eqn:Htext. clear Htext.
  assert (Hself : only_temporary fs p fs) by by intros k.
  assert (Hpartial : forall ns, Forall (only_temporary fs p)
    (rev ((fun n => <[(p.1, temporary_name p) := String.substring 0 n text]> fs) <$> ns) ++ [fs])).
  { intros ns. apply list.Forall_forall. intros x. apply only_temporary_partial. }
  destruct (List.find invalid_entry _) as [[k v]|] eqn:Hf; [intros [<- <-]%pair_equal_spec; by constructor|].
  destruct (create_dir_fails faults); [intros [<- <-]%pair_equal_spec; by constructor|].
  destruct (write_fails faults) as [[e n]|]; [intros [<- <-]%pair_equal_spec; apply Hpartial|].
  destruct (rename_fails faults) as [e|], p.2 as [f|] eqn:Hp; intros [<- <-]%pair_equal_spec.
  1,2,4: constructor; [apply only_temporary_delete|constructor; [apply only_temporary_insert|apply Hpartial]].
  exists f. do 3 eexists. split_and!; [done|done|done|apply only_temporary_delete| |].
  - constructor; [apply only_temporary_insert|apply Hpartial].
  - by apply btree_find_invalid.
Qed.

(** ** Keys *)

Lemma contains_byte_app c a b :
  str_contains_byte c (a +:+ b) = str_contains_byte c a || str_contains_byte c b.
Proof.
  induction a as [|d a IH]; [done|]. rewrite str_app_cons. cbn [str_contains_byte].
  by rewrite IH, orb_assoc.
Qed.

Lemma not_a_key_app a b :
  starts_in_character b = false -> not_a_key (a +:+ b) = not_a_key a || not_a_key b.
Proof.
  intros Hb. unfold not_a_key. rewrite contains_byte_app, chars_app, existsb_app by done.
  by destruct (str_contains_byte "=" a), (str_contains_byte "=" b), (existsb _ (chars a)).
Qed.

Lemma split_once_head sep s a b : split_once sep s = Some (a, b) -> str_contains_byte sep a = false.
Proof.
  revert a. induction s as [|c s IH]; intros a; cbn [split_once]; [done|].
  destruct (Ascii.eqb_spec c sep) as [->|Hc]; [by intros [= <- <-]|].
  destruct (split_once sep s) as [[a' b']|]; [|done]. intros [= <- <-].
  cbn [str_contains_byte]. rewrite (IH a' eq_refl), orb_false_r. by apply Ascii.eqb_neq.
Qed.

(** An entry [persist_fired_state] does not refuse. *)
Definition writable (m : gmap string Z) : Prop :=
  forall k v, m !! k = Some v -> invalid_entry (k, v) = false.

Lemma invalid_entry_key k v :
  invalid_entry (k, v) = str_is_empty k || not_a_key k || bool_decide (v < 0)%Z.
Proof. unfold invalid_entry, not_a_key. cbn [fst snd]. by rewrite orb_assoc. Qed.

Lemma writable_insert m k v : writable m -> invalid_entry (k, v) = false -> writable (<[k := v]> m).
Proof.
  intros Hm Hk k' v'. rewrite lookup_insert. case_decide; [|apply Hm]. by intros [= <-]; subst.
Qed.

Lemma writable_subseteq m m' : m' ⊆ m -> writable m -> writable m'.
Proof. intros Hs Hm k v Hk. apply Hm. by eapply lookup_weaken. Qed.

(** ** The file read *)

Lemma digits_nonneg s acc z : (0 <= acc)%Z -> digits_value acc s = Some z -> (0 <= z)%Z.
Proof.
  revert acc. induction s as [|c s IH]; intros acc Ha; cbn [digits_value]; [by intros [= <-]|].
  destruct (is_digit c); [|done]. apply IH. unfold digit_value. lia.
Qed.

Lemma parse_digits_nonneg s z :
  str_forallb is_digit s = true -> parse_i64 s = Some z -> (0 <= z)%Z.
Proof.
  intros Hd. unfold parse_i64.
  assert (Hs : (match s with
    | String "-" t => ((-1)%Z, t) | String "+" t => (1%Z, t) | _ => (1%Z, s) end) = (1%Z, s)).
  { destruct s as [|c s]; [done|]. cbn [str_forallb] in Hd. apply andb_true_iff in Hd as [Hc _].
    destruct c as [[] [] [] [] [] [] [] []]; vm_compute in Hc; try discriminate Hc; done. }
  rewrite Hs. destruct s as [|c s]; [done|].
  destruct (digits_value 0 (String c s)) as [v|] eqn:Hv; [|done]. cbn [mbind option_bind].
  case_decide; [|done]. intros [= <-]. apply digits_nonneg in Hv; lia.
Qed.

Lemma fired_entry_writable raw k v : fired_entry raw = Some (k, v) -> invalid_entry (k, v) = false.
Proof.
  unfold fired_entry. destruct (_ || _) in |- *; [done|].
  destruct (split_once "=" _) as [[k' v']|] eqn:Hs; [|done]. cbn [mbind option_bind].
  destruct (str_is_empty k') eqn:He; [done|]. cbn [orb].
  destruct (existsb _ _) eqn:Hw; [done|]. destruct (str_is_empty v'); [done|].
  destruct (str_forallb is_digit v') eqn:Hd; [|done]. cbn [orb negb].
  destruct (parse_i64 v') as [z|] eqn:Hz; [|done]. intros [= <- <-].
  unfold invalid_entry. cbn [fst snd]. rewrite He, (split_once_head _ _ _ _ Hs), Hw.
  apply bool_decide_eq_false. apply parse_digits_nonneg in Hz; [lia|done].
Qed.

Lemma load_writable file : writable (load_fired_state file).
Proof.
  destruct file as [text|]; cbn [load_fired_state]; [|by intros k v].
  intros k v Hk%map_collect_Some. apply list_elem_of_omap in Hk as (raw & _ & Hr).
  by eapply fired_entry_writable.
Qed.

(** ** The tick *)

(** A reminder whose name and counters are writable keys. *)
Definition keyed (r : Reminder) : Prop :=
  name r <> "" /\ not_a_key (name r) = false /\ starts_in_character (name r) = false.

Lemma counter_keys_writable r v :
  keyed r -> (0 <= v)%Z ->
  invalid_entry ((unresolved_render_state_keys (name r)).1, v) = false /\
  invalid_entry ((unresolved_render_state_keys (name r)).2, v) = false.
Proof.
  intros (Hne & Hk & Hst) Hv. rewrite !invalid_entry_key, bool_decide_eq_false_2 by lia.
  unfold unresolved_render_state_keys. cbn [fst snd].
  rewrite !not_a_key_app, Hk by done. split; reflexivity.
Qed.

Lemma clear_writable m r : writable m -> writable (clear_render_failure_state m r).
Proof.
  apply writable_subseteq. unfold clear_render_failure_state.
  destruct (unresolved_render_state_keys r). etrans; apply delete_subseteq.
Qed.

Lemma record_writable m r now :
  keyed r -> writable m -> writable (record_render_failure m (name r) now).1.
Proof.
  intros Hr Hm. unfold record_render_failure.
  destruct (counter_keys_writable r (i64_clamp
    (Z.max (default 0%Z (m !! (unresolved_render_state_keys (name r)).1)) 0 + 1)) Hr) as [Hc _].
  { unfold i64_clamp, i64_min, i64_max. lia. }
  pose proof (fun v => proj2 (counter_keys_writable r (Z.max v 0) Hr ltac:(lia))) as Hf.
  destruct (unresolved_render_state_keys (name r)) as [ck fk]. cbn [fst snd] in *.
  apply writable_insert; [by apply writable_insert|]. case_decide; apply Hf.
Qed.

Lemma report_writable U now rp rep m :
  (0 <= now)%Z -> (forall ev, rep = Evaluated ev -> keyed (reminder ev)) ->
  writable m -> writable (e_fired (report_effect U now rp rep m)).
Proof.
  intros Hnow Hk Hm. destruct rep as [ev|ls]; [|done]. specialize (Hk ev eq_refl).
  cbn [report_effect]. unfold evaluation_effect, fire_effect.
  assert (Hc := clear_writable m (name (reminder ev)) Hm).
  assert (Hi : invalid_entry (name (reminder ev), now) = false).
  { rewrite invalid_entry_key. destruct Hk as (Hne & Hkey & _).
    rewrite (proj2 (str_is_empty_false _) Hne), Hkey. by apply bool_decide_eq_false_2; lia. }
  pose proof (record_writable m (reminder ev) now Hk Hm) as Hr.
  destruct (record_render_failure _ _ _) as [m' [count first]]. cbn [fst] in Hr.
  repeat case_match; cbn [e_fired]; try done; by apply writable_insert.
Qed.

Lemma reports_writable U now rp reports m :
  (0 <= now)%Z -> (forall ev, Evaluated ev ∈ reports -> keyed (reminder ev)) ->
  writable m -> writable (e_fired (reports_effect U now rp reports m)).
Proof.
  intros Hnow. revert m. induction reports as [|rep reports IH]; intros m Hk Hm; [done|].
  cbn [reports_effect effect_then e_fired]. apply IH; [intros ev Hev; apply Hk; set_solver|].
  apply report_writable; [done| |done]. intros ev ->. apply Hk. set_solver.
Qed.

Lemma tick_writable `{GateRunner, FileAgeProbe} config state now fired current rp :
  (0 <= now)%Z -> Forall keyed (reminders config) -> writable fired ->
  writable (e_fired (tick_effect config state now fired current rp)).
Proof.
  intros Hnow Hk Hf. unfold tick_effect. cbn [e_fired].
  assert (Hp : writable (pruned config fired)).
  { eapply writable_subseteq; [|exact Hf]. apply map_filter_subseteq. }
  destruct (enabled state); cbn [e_fired effect_then]; [|done].
  apply reports_writable; [done| |done]. rewrite Forall_forall in Hk.
  intros ev (p & Heq & Hp')%list_elem_of_fmap. apply list_elem_of_omap in Hp' as (r & Hr & Hpl).
  assert (p = Runnable r \/ exists ls, p = PlannedSuppressed ls) as [->|[ls ->]].
  { unfold plan_reminder in Hpl. repeat case_match; simplify_eq; eauto. }
  - cbn [alone] in Heq. unfold evaluated in Heq. injection Heq as ->.
    repeat case_match; by apply Hk.
  - done.
Qed.
