(* ===== verification/TickProps.v ===== *)
(** * tick-hub: the theorems

    What one tick promises: the same lines whether streamed or returned, gates
    evaluated as if alone whatever the parallel window does, fired-state that moves
    only for reminders that were settled, exact dependency propagation, and a
    fired-state file that survives a crash and a restart. *)
From S2P Require Import Prelude RustStr External TickModel TickCadence TickState TickEngine TickRun TickEffects TickRefine TickFacts TickConfigured TickPlaceholders.

(** ** A small configuration to evaluate the definitions on *)

(** Exit codes by command; an unknown command succeeds. *)
Definition exits (codes : list (string * Z)) : GateRunner :=
  fun cmd _ => GateResult_completed (default 0%Z (im_get codes cmd)) "".

Definition no_files : FileAgeProbe := fun _ _ => None.

Definition gated (n : string) (deps : list string) : Reminder := {|
  name := n; emit := Emit_action "handle" ("title " +:+ n); cadence_secs := 600;
  requires_flags := []; gate := Some {| cmd := n; when := Failure; capture := false;
    parallel := true; timeout_secs := None |};
  depends_on := deps; cadence_offset_secs := None; cadence_window_secs := None |}.

Definition demo_config : TickConfig := {|
  reminders := [gated "disk" []; gated "net" []; gated "site" ["net"]; gated "page" ["site"]];
  health_checks := []; description := "" |}.

(** Nothing fired yet. *)
Definition never : gmap string Z := ∅.

Definition demo_runner : GateRunner := exits [("disk", 1%Z); ("net", 75%Z)].

(** ** Running a tick *)


(** The window before the reminder at index [n]. *)
Fixpoint window_after `{GateRunner} (planned : list PlannedReminder) (n : nat) : Window :=
  match n with
  | 0 => window_start planned
  | S n => match planned !! n with
           | Some p => (window_step planned (window_after planned n) n p).1
           | None => window_after planned n
           end
  end.

Lemma window_after_inv `{GateRunner} planned n :
  n <= length planned -> window_inv planned n (window_after planned n).
Proof.
  induction n as [|n IH]; intros Hn; [apply window_start_inv|]. cbn [window_after].
  destruct (lookup_lt_is_Some_2 planned n) as [p Hp]; [lia|]. rewrite Hp.
  apply window_step_inv; [apply IH; lia|done].
Qed.

(** C11: The window of scoped threads: whatever the mix of parallel, sequential and
    suppressed reminders, the report at each index is that of the reminder's own
    gate, at most eight workers are outstanding at any point, and after the last
    reminder none is. *)
Theorem parallel_window_exact `{GateRunner} planned :
  (forall i p, planned !! i = Some p ->
     (window_step planned (window_after planned i) i p).2 =
     match p with
     | Runnable r => evaluated r (eval_gate (gate r))
     | PlannedSuppressed ls => Suppressed ls
     end) /\
  (forall n, n <= length planned -> size (handles (window_after planned n)) <= 8) /\
  handles (window_after planned (length planned)) = ∅.
Proof.
  split_and!.
  - intros i p Hi. apply window_step_inv; [|done]. apply window_after_inv.
    apply lookup_lt_Some in Hi. lia.
  - intros n Hn. by apply (handles_bounded planned n), window_after_inv.
  - destruct (window_after_inv planned (length planned)) as [_ _ [[? _]|Hp]]; [done|done|].
    apply map_empty. intros x. apply eq_None_not_Some. rewrite Hp. intros [Hx Hle].
    apply (subseteq_take (next_parallel _)) in Hx. apply elem_of_parallel in Hx as (p & Hx & _).
    apply lookup_lt_Some in Hx. lia.
Qed.

(** C12: The fired-state after a tick: with distinct reminder names outside the
    reserved key space, a reminder's entry becomes [now] exactly when the tick is
    enabled, the reminder is due, its flags are set, and its gate either fired and
    its emission could be rendered or was quiet with every dependency evaluable;
    otherwise, and for every other key outside the reserved space, the entry is
    unchanged.  So an explicit no-result, a failed gate or a failed rendering leaves
    the reminder due. *)
Theorem fired_state_exact `{GateRunner, FileAgeProbe} config state now fired current res :
  NoDup (name <$> reminders config) ->
  (forall r, r ∈ reminders config -> plain_key (name r)) ->
  run_tick config state now fired current = Some res ->
  let U := unavailable_names (tick_reports config state now fired false) in
  (forall r, r ∈ reminders config ->
     result_fired res !! name r =
     if enabled state && reminder_due now fired r && runnable_flags state r
        && settles U r (eval_gate (gate r))
     then Some now else fired !! name r) /\
  (forall k, plain_key k -> k ∉ name <$> reminders config -> result_fired res !! k = fired !! k).
Proof.
  intros Hnd Hplain Hres U.
  rewrite run_tick_effect in Hres. injection Hres as <-. cbn [effect_result result_fired].
  unfold tick_effect. cbn [e_fired].
  destruct (enabled state); cbn [effect_then e_fired andb].
  - unfold reminders_effect. fold U. unfold tick_reports, pruned. split.
    + intros r Hr. pose proof (Hplain r Hr) as Hk.
      destruct (reminder_due now fired r && runnable_flags state r) eqn:Hrun.
      * rewrite reports_fired_own; [|done| |].
        { rewrite pruned_plain by done. by destruct (settles _ _ _). }
        { by apply planned_names_NoDup. }
        { apply andb_true_iff in Hrun as [? ?]. by apply planned_runnable. }
      * cbn [andb]. rewrite reports_fired_other; [by apply pruned_plain|done|].
        intros r' Hr' Heq. apply planned_runnable_inv in Hr' as (Hin & Hd & Hf).
        assert (r' = r) as -> by (by apply (NoDup_fmap_elem_inj name (reminders config))).
        by rewrite Hd, Hf in Hrun.
    + intros k Hk Hnk. rewrite reports_fired_other; [by apply pruned_plain|done|].
      intros r Hr <-. apply Hnk. apply planned_runnable_inv in Hr as (Hin & _).
      apply list_elem_of_fmap. eauto.
  - split; intros; apply pruned_plain; auto.
Qed.

Lemma fired_state_exact_witness :
  let _ := demo_runner in let _ := no_files in
  let state := OpsState_default in
  match run_tick demo_config state 1000 never None with
  | Some res =>
      btree_iter (result_fired res) = [("disk", 1000%Z)] /\
      let U := unavailable_names (tick_reports demo_config state 1000 never false) in
      (forall r, r ∈ reminders demo_config ->
         result_fired res !! name r =
         if enabled state && reminder_due 1000 never r && runnable_flags state r
            && settles U r (eval_gate (gate r))
         then Some 1000%Z else never !! name r) /\
      (forall k, plain_key k -> k ∉ name <$> reminders demo_config ->
         result_fired res !! k = never !! k)
  | None => False
  end.
Proof.
  intros ? ? state.
  destruct (run_tick demo_config state 1000 never None) as [res|] eqn:Hres; [|by vm_compute in Hres].
  split; [vm_compute in Hres; injection Hres as <-; reflexivity|].
  apply (fired_state_exact demo_config state 1000 never None res).
  - by_eval.
  - apply list.Forall_forall. repeat constructor.
  - exact Hres.
Defined.

(** The instruction count a tick reports is the number of its lines that are
    instructions, those that start with [ACTION: ]. *)
Theorem actions_emitted_exact `{GateRunner, FileAgeProbe} config state now fired current res :
  run_tick config state now fired current = Some res ->
  actions_emitted res
  = length (List.filter (fun l => starts_with l "ACTION: ") (result_lines res)).
Proof.
  rewrite run_tick_effect. intros [= <-]. cbn [effect_result actions_emitted result_lines].
  symmetry. apply tick_effect_count.
Qed.

Lemma actions_emitted_exact_witness :
  let _ := demo_runner in let _ := no_files in
  match run_tick demo_config OpsState_default 1000 never None with
  | Some res => actions_emitted res = 4 /\ actions_emitted res
      = length (List.filter (fun l => starts_with l "ACTION: ") (result_lines res))
  | None => False
  end.
Proof.
  intros ? ?.
  destruct (run_tick demo_config OpsState_default 1000 never None) as [res|] eqn:Hres;
    [|by vm_compute in Hres].
  split; [vm_compute in Hres; injection Hres as <-; reflexivity|].
  apply (actions_emitted_exact demo_config OpsState_default 1000 never None res). exact Hres.
Defined.

(** The dependency pass marks exactly the reminders that cannot be evaluated:
    those whose gate had no result, and those that were quiet but depend, directly
    or through other quiet reminders, on one of these; cycles included. *)
Theorem unavailable_names_exact reports n :
  n ∈ unavailable_names reports <-> unevaluable reports n.
Proof. apply elem_of_unavailable_names. Qed.

(** ** Cadences *)

(** C13: A phased cadence: [scheduled_instant] is the one instant of the schedule in
    the cadence that ends at [now]; the reminder is due exactly when it never fired,
    or last fired before that instant and is still inside its window; and having
    fired, it is not due again before the next instant.  Nothing overflows. *)
Theorem phased_due_exact name cadence offset window now fired :
  (0 < cadence <= i64_max)%Z -> (0 <= offset < cadence)%Z -> (0 <= now <= i64_max)%Z ->
  let instant := scheduled_instant cadence offset now in
  (instant <= now < instant + cadence)%Z /\ (instant mod cadence = offset)%Z /\
  (is_due name cadence now fired (Some offset) window = true <->
   forall last, fired !! name = Some last ->
     (last < instant)%Z /\ forall w, window = Some w -> (now - instant < w)%Z) /\
  (forall later, (now <= later <= i64_max)%Z ->
     is_due name cadence later (<[name := now]> fired) (Some offset) window = true ->
     (now < scheduled_instant cadence offset later <= later)%Z).
Proof.
  intros Hc Ho Hn instant.
  assert (Hspec : forall t, (0 <= t <= i64_max)%Z ->
    let T := scheduled_instant cadence offset t in
    (T <= t < T + cadence)%Z /\ (T mod cadence = offset)%Z /\ (t -sat T)%i64 = (t - T)%Z).
  { intros t Ht T. destruct (scheduled_instant_eq cadence offset t) as [HT Hr]; [done..|].
    subst T. rewrite HT. pose proof (Z.mod_pos_bound (t - offset) cadence ltac:(lia)) as Hm.
    pose proof (Z.div_mod (t - offset) cadence ltac:(lia)) as Hd. split_and!; [lia|lia| |].
    - rewrite Z.add_comm, Z.mod_add, Z.mod_small by lia. done.
    - apply i64_clamp_id. unfold in_i64, i64_min, i64_max in *. lia. }
  assert (Hdue : forall t st, (0 <= t <= i64_max)%Z ->
    is_due name cadence t st (Some offset) window = true <->
    forall last, st !! name = Some last -> (last < scheduled_instant cadence offset t)%Z
      /\ forall w, window = Some w -> (t - scheduled_instant cadence offset t < w)%Z).
  { intros t st Ht. destruct (Hspec t Ht) as (_ & _ & Hsat). unfold is_due, EVERY_TICK.
    rewrite decide_False by lia. destruct (st !! name) as [last|]; [|done]. rewrite Hsat.
    case_decide.
    - split; [done|]. intros Hl. destruct (Hl last eq_refl). lia.
    - destruct window as [w|].
      + rewrite bool_decide_eq_true. split.
        * intros Hw last' [= <-]. split; [lia|]. by intros w' [= <-].
        * intros Hl. destruct (Hl last eq_refl) as [_ Hw]. by apply Hw.
      + split; [|done]. intros _ last' [= <-]. split; [lia|done]. }
  destruct (Hspec now Hn) as (H1 & H2 & _).
  split_and!; [apply H1|apply H1|exact H2|by apply Hdue|].
  intros later Hl Hlater. rewrite Hdue in Hlater by lia.
  destruct (Hspec later) as ([? _] & _); [lia|].
  destruct (Hlater now) as [? _]; [apply lookup_insert_eq|done].
Qed.

Lemma phased_due_exact_witness :
  let instant := scheduled_instant 3600 1800 10000 in
  instant = 9000%Z /\
  (instant <= 10000 < instant + 3600)%Z /\ (instant mod 3600 = 1800)%Z /\
  (is_due "r" 3600 10000 {[ "r" := 9000%Z ]} (Some 1800%Z) None = true <->
   forall last, ({[ "r" := 9000%Z ]} : gmap string Z) !! "r" = Some last ->
     (last < instant)%Z /\ forall w, None = Some w -> (10000 - instant < w)%Z) /\
  (forall later, (10000 <= later <= i64_max)%Z ->
     is_due "r" 3600 later (<[ "r" := 10000%Z ]> {[ "r" := 9000%Z ]}) (Some 1800%Z) None = true ->
     (10000 < scheduled_instant 3600 1800 later <= later)%Z).
Proof.
  split; [reflexivity|].
  apply (phased_due_exact "r" 3600 1800 None 10000 {[ "r" := 9000%Z ]}); unfold i64_max; lia.
Defined.

(** ** The fired-state file *)

(** C14: Replacing the fired-state file is crash-safe: in every state the file
    system passes through, whichever call fails and however much a failing write
    left behind, every file but the temporary one has its old contents, except
    that after success the target holds the complete new text. *)
Theorem persist_crash_safe faults fs dir file state r trace :
  persist_fired_state faults fs (dir, Some file) state = (r, trace) ->
  (forall fs' k, fs' ∈ trace -> k <> (dir, file +:+ ".tmp") ->
     fs' !! k = fs !! k \/
     (r = Ok () /\ k = (dir, file) /\ fs' !! k = Some (fired_text state))) /\
  (r = Ok () -> exists fs', head trace = Some fs' /\ fs' !! (dir, file) = Some (fired_text state)).
Proof.
  intros Ht%persist_trace. destruct r as [[]|e].
  - destruct Ht as (f & mid & last & rest & [= <-] & -> & -> & Hmid & Hrest & Hinv). split.
    + intros fs' k [->|Hin]%elem_of_cons Hk.
      * rewrite lookup_insert. case_decide as Heq; [right; by subst|left; by apply Hmid].
      * left. by apply (proj1 (list.Forall_forall _ _) Hrest).
    + intros _. eexists. split; [done|]. apply lookup_insert_eq.
  - split; [|done]. intros fs' k Hin Hk. left. by apply (proj1 (list.Forall_forall _ _) Ht).
Qed.

Definition no_faults : Faults := {| create_dir_fails := None; write_fails := None; rename_fails := None |}.
Definition demo_state : gmap string Z := {[ "disk" := 1000%Z; "#net" := 7%Z ]}.

Lemma persist_crash_safe_witness :
  let out := persist_fired_state no_faults ∅ ("/var", Some "state") demo_state in
  out.1 = Ok () /\
  (forall fs' k, fs' ∈ out.2 -> k <> ("/var", "state" +:+ ".tmp") ->
     fs' !! k = (∅ : files) !! k \/
     (out.1 = Ok () /\ k = ("/var", "state") /\ fs' !! k = Some (fired_text demo_state))) /\
  (out.1 = Ok () -> exists fs', head out.2 = Some fs'
                    /\ fs' !! ("/var", "state") = Some (fired_text demo_state)).
Proof.
  split; [vm_compute; reflexivity|].
  apply (persist_crash_safe no_faults ∅ "/var" "state" demo_state).
  apply surjective_pairing.
Defined.

(** C15: A persisted fired-state is read back, entry for entry, except that an entry
    whose name starts with a number sign is lost: its line reads as a comment. *)
Theorem fired_text_read_back state :
  (forall k v, state !! k = Some v ->
     invalid_entry (k, v) = false /\ (v <= i64_max)%Z /\ starts_in_character k = false) ->
  load_fired_state (Some (fired_text state))
  = filter (fun kv => starts_with kv.1 "#" = false) state.
Proof.
  intros Hs. apply load_fired_text. intros [k v] Hkv%elem_of_btree_iter.
  destruct (Hs k v Hkv) as (Hi & Hv & Hu). split_and!; [done| |done].
  unfold invalid_entry in Hi. apply orb_false_iff in Hi as [_ Hi]. b2p.
  unfold in_i64, i64_min. cbn [snd] in *. lia.
Qed.

Lemma fired_text_read_back_witness :
  filter (fun kv => starts_with kv.1 "#" = false) demo_state = {[ "disk" := 1000%Z ]} /\
  load_fired_state (Some (fired_text demo_state))
  = filter (fun kv => starts_with kv.1 "#" = false) demo_state.
Proof.
  split; [by_eval|]. apply (fired_text_read_back demo_state).
  intros k v Hkv. revert k v Hkv.
  apply (map_Forall_lookup (fun k v => invalid_entry (k, v) = false /\ (v <= i64_max)%Z
                                       /\ starts_in_character k = false) demo_state). by_eval.
Defined.

(** ** Rendering *)

(** An emission is rendered exactly when no placeholder is left in its
    interpolated title or in any merged field, and a refusal names, sorted and
    without repetition, exactly the placeholders that are left; a doubled brace on
    either side makes an occurrence literal text. *)
Theorem render_emit_exact e captured :
  let merged := merged_fields e captured in
  let texts := interpolate (TickModel.title e) merged :: merged.*2 in
  match render_emit e captured with
  | Ok _ => forall p t, t ∈ texts -> ~ occurs false p t
  | Err ps => ps <> [] /\ NoDup ps /\ StronglySorted rle ps /\
      forall p, p ∈ ps <-> exists t, t ∈ texts /\ occurs false p t
  end.
Proof.
  intros merged texts. unfold render_emit. fold merged.
  set (start := interpolate (TickModel.title e) merged) in *.
  set (found := foldl (fun found kv => found ∪ unresolved_placeholders kv.2)
                  (unresolved_placeholders start) merged).
  assert (Hfound : forall p, p ∈ found <-> exists t, t ∈ texts /\ occurs false p t).
  { intros p. subst found texts.
    assert (Hgen : forall (kvs : index_map) acc, p ∈ foldl (fun found kv => found ∪
        unresolved_placeholders kv.2) acc kvs <-> p ∈ acc \/ exists t, t ∈ kvs.*2 /\ occurs false p t).
    { induction kvs as [|kv kvs IH]; intros acc; cbn [foldl]; [set_solver|].
      rewrite IH, elem_of_union, elem_of_unresolved, fmap_cons. setoid_rewrite elem_of_cons.
      naive_solver. }
    rewrite Hgen, elem_of_unresolved. setoid_rewrite elem_of_cons. naive_solver. }
  case_decide as He.
  - intros p t Ht Ho. assert (Hp : p ∈ found) by (apply Hfound; eauto).
    rewrite He in Hp. set_solver.
  - split_and!.
    + intros Hn. apply He, elem_of_equiv_empty_L. intros p Hp.
      apply elem_of_btree_elems in Hp. rewrite Hn in Hp. set_solver.
    + apply btree_elems_NoDup.
    + apply (btree_elems_sorted found).
    + intros p. rewrite elem_of_btree_elems. apply Hfound.
Qed.

(** Consecutive rendering failures are counted: after earlier failures [ts],
    from a state without counters, a failure at [now] has the count of failures so
    far (saturating at the largest [i64]) and the time of the first one, and the
    count reaches the escalation threshold exactly from the third failure on.  Any
    other outcome of the reminder clears both counters. *)
Theorem render_failures_counted state n ts now :
  state !! (unresolved_render_state_keys n).1 = None ->
  state !! (unresolved_render_state_keys n).2 = None ->
  let '(count, first) := (record_render_failure (fail_all state n ts) n now).2 in
  count = Z.min (Z.of_nat (S (length ts))) i64_max /\
  first = Z.max (default now (head ts)) 0 /\
  ((REPEATED_RENDER_FAILURE_THRESHOLD <= count)%Z <-> 2 <= length ts) /\
  let cleared := clear_render_failure_state (fail_all state n ts) n in
  cleared !! (unresolved_render_state_keys n).1 = None /\
  cleared !! (unresolved_render_state_keys n).2 = None.
Proof.
  intros Hc Hf.
  assert (Hrec : (record_render_failure (fail_all state n ts) n now).2
    = (Z.min (Z.of_nat (S (length ts))) i64_max, Z.max (default now (head ts)) 0)).
  { destruct ts as [|t ts].
    - cbn [fail_all foldl head default]. destruct (record_render_failure_spec state n now) as [-> _];
        rewrite ?Hc, ?Hf; unfold default, id; try (unfold i64_max; lia).
      by rewrite decide_True.
    - destruct (fail_all_spec state n t ts Hc Hf) as [Hn Hm].
      destruct (record_render_failure_spec (fail_all state n (t :: ts)) n now) as [-> _];
        rewrite ?Hn, ?Hm; unfold default, id; cbn [head length]; try (unfold i64_max; lia).
      rewrite decide_False by (unfold i64_max; lia). f_equal. unfold i64_max. lia. }
  rewrite Hrec. unfold REPEATED_RENDER_FAILURE_THRESHOLD.
  split_and!; [done|done|unfold i64_max; lia| |];
    unfold clear_render_failure_state; destruct (unresolved_render_state_keys n) as [ck fk];
    cbn [fst snd]; apply lookup_delete_None; [right|by left]. by rewrite lookup_delete_eq.
Qed.

Lemma render_failures_counted_witness :
  let '(count, first) := (record_render_failure (fail_all never "disk" [50; 60]%Z) "disk" 70).2 in
  count = Z.min (Z.of_nat 3) i64_max /\ first = Z.max (default 70 (head [50; 60]))%Z 0%Z /\
  ((REPEATED_RENDER_FAILURE_THRESHOLD <= count)%Z <-> 2 <= 2) /\
  let cleared := clear_render_failure_state (fail_all never "disk" [50; 60]%Z) "disk" in
  cleared !! (unresolved_render_state_keys "disk").1 = None /\
  cleared !! (unresolved_render_state_keys "disk").2 = None.
Proof. apply (render_failures_counted never "disk" [50; 60]%Z 70%Z); reflexivity. Defined.

(** Pruning keeps every key outside the reserved space and, inside it, exactly
    the two counters of each configured reminder. *)
Theorem prune_exact state names k v :
  prune_removed_render_failure_state state names !! k = Some v <->
  state !! k = Some v /\
  (plain_key k \/ exists n, n ∈ names /\ n <> "" /\
     (k = (unresolved_render_state_keys n).1 \/ k = (unresolved_render_state_keys n).2)).
Proof.
  unfold prune_removed_render_failure_state. rewrite map_lookup_filter_Some. cbn [fst].
  by rewrite keep_state_key_spec.
Qed.

(** ** The runtime state *)

(** A state that validation accepts as it stands. *)
Definition canonical (s : OpsState) : Prop :=
  (0 < tick_frequency_min s <= i64_max)%Z /\
  (forall l, label s = Some l -> l <> "" /\ trim l = l) /\
  (forall n v, flags s !! n = Some v ->
     n <> "<<" /\ match v with FlagInt i => in_i64 i | _ => True end).

Lemma parse_flag_entries_written `{JsonNumberLaws} (out : gmap string FlagValue) kvs :
  (forall n v, (n, v) ∈ kvs -> n <> "<<" /\ match v with FlagInt i => in_i64 i | _ => True end) ->
  parse_flag_entries out ((fun kv => (kv.1, flag_to_value kv.2)) <$> kvs)
  = Ok (foldl (fun m p => <[p.1 := p.2]> m) out kvs).
Proof.
  revert out. induction kvs as [|[n v] kvs IH]; intros out Hkvs; [done|].
  rewrite fmap_cons. cbn [parse_flag_entries fst snd foldl].
  destruct (Hkvs n v) as [Hn Hv]; [set_solver|].
  assert (Hp : parse_flag n (flag_to_value v) = Ok v).
  { unfold parse_flag. destruct (String.eqb_spec n "<<") as [->|_]; [done|].
    destruct v as [b|i|t]; cbn [flag_to_value]; [done| |done]. by rewrite number_as_i64_of. }
  rewrite Hp. apply IH. intros m w Hm. apply Hkvs. set_solver.
Qed.

(** A canonical state survives serialization: validating the mapping it is
    written as gives the state back. *)
Theorem ops_state_round_trip `{JsonNumberLaws} s :
  canonical s -> OpsState_from_value (OpsState_to_value s) = Ok s.
Proof.
  intros (Htick & Hlabel & Hflags). unfold OpsState_from_value, OpsState_to_value.
  cbn [as_object]. change (unknown_keys _) with ([] : list string). cbn iota.
  unfold parse_enabled, parse_tick, parse_label, parse_flags.
  cbn [obj_get String.eqb Ascii.eqb Bool.eqb mbind option_bind result_bind as_bool as_i64].
  rewrite number_as_i64_of by (unfold in_i64, i64_min; lia). rewrite decide_False by lia.
  cbn [mbind result_bind].
  assert (Hf : parse_flag_entries ∅
      ((fun kv => (kv.1, flag_to_value kv.2)) <$> btree_iter (flags s))
    = Ok (flags s)).
  { rewrite parse_flag_entries_written.
    - fold (map_collect (btree_iter (flags s))). by rewrite map_collect_btree_iter.
    - intros n v Hv. apply Hflags. by apply elem_of_btree_iter. }
  destruct (label s) as [l|] eqn:Hs; cbn [mbind result_bind as_object]; [|rewrite Hf].
  - destruct (Hlabel l eq_refl) as [Hne ->]. rewrite Hf. destruct l; [done|].
    cbn. destruct s; simpl in *. by subst.
  - cbn. destruct s; simpl in *. by subst.
Qed.

Definition demo_ops_state : OpsState := {|
  enabled := true; tick_frequency_min := 15; label := Some "host";
  flags := {[ "count" := FlagInt 3; "on" := FlagBool true ]} |}.

Lemma ops_state_round_trip_witness :
  @OpsState_from_value integer_number (@OpsState_to_value integer_number demo_ops_state)
  = Ok demo_ops_state.
Proof.
  apply (@ops_state_round_trip integer_number _ demo_ops_state).
  split_and!; [done|done|by intros l [= <-]|].
  apply (map_Forall_lookup (fun n v => n <> "<<" /\ match v with FlagInt i => in_i64 i | _ => True end)).
  apply map_Forall_insert_2; [done|]. apply map_Forall_singleton. done.
Defined.
