(* ===== verification/TickIoProps.v ===== *)
(** * tick-hub: the theorems on configurations

    What reading a configuration guarantees the tick, that a well-formed one
    survives being written, and where the check before writing falls short of
    what the reader demands. *)
From S2P Require Import Prelude RustStr External TickModel TickCadence TickIo TickState TickEngine TickRun TickEffects TickRefine TickFacts TickIoFacts TickConfigured.

(** ** A document to evaluate the definitions on *)

Definition demo_emit : Emit := {|
  kind := Action; title := "look at {disk}"; skill := "triage";
  fields := [("size", "9"); ("disk", "sda")] |}.

Definition demo_reminder (n : string) (deps : list string) : Reminder := {|
  name := n; emit := demo_emit; cadence_secs := 3600; requires_flags := ["on"];
  gate := Some {| cmd := "df"; when := Failure; capture := true; parallel := true;
                  timeout_secs := Some 30%Z |};
  depends_on := deps; cadence_offset_secs := Some 60%Z; cadence_window_secs := Some 600%Z |}.

Definition demo_config_io : TickConfig := {|
  reminders := [demo_reminder "disk" []; demo_reminder "page" ["disk"]];
  health_checks := [{| hc_name := "log"; hc_glob := "*.log"; threshold_secs := 60;
                       detail := "" |}];
  description := "demo" |}.

Definition demo_document : @value integer_number := @config_to_value integer_number demo_config_io.

Example demo_document_read :
  config_from_value demo_document = Ok (canonical_config demo_config_io).
Proof. reflexivity. Qed.

(** ** Dependencies *)

(** C16: The dependency check decides exactly: it accepts a set of reminders when
    every dependency is a valid, distinct name of another configured reminder and
    no reminder depends on itself through any number of steps; a cycle it reports
    is a chain of dependencies that ends in a name it already holds; and it
    reports one only when all names are in order. *)
Theorem dependencies_exact `{JsonNumber} rs :
  NoDup (name <$> rs) ->
  match validate_dependencies rs with
  | Ok _ => dependencies_named rs /\ forall n, ~ tc (requires rs) n n
  | Err (DependencyCycle p) =>
      dependencies_named rs /\
      exists q m, p = q ++ [m] /\ m ∈ q /\
        forall i a b, p !! i = Some a -> p !! S i = Some b -> requires rs a b
  | Err _ => ~ dependencies_named rs
  end.
Proof.
  intros Hnd. destruct (validate_dependencies rs) as [[]|e] eqn:Hv.
  { by apply validate_dependencies_Ok in Hv. }
  unfold validate_dependencies in Hv. set (known := reminders_by_name rs) in *.
  destruct (each_result (check_dependencies known) rs ()) as [[]|e'] eqn:Hc;
    cbn [mbind result_bind] in Hv.
  - apply check_dependencies_Ok in Hc as Hnamed.
    pose proof (visit_roots_outcome rs {| visiting := ∅; visited := ∅; visit_path := [] |}
      (fun n d => requires_closed rs n d Hnamed) ltac:(by constructor) eq_refl rs ltac:(done)) as Hr.
    fold known in Hr. destruct (each_result (visit_root known) rs _) as [st|e'];
      cbn [mbind result_bind] in Hv; [done|]. injection Hv as ->.
    destruct Hr as (p & -> & q & m & -> & Hm & Hp). split; [done|]. exists q, m.
    split_and!; [done|done|]. intros i a b Ha Hb. apply (depends_requires rs a b Hnd).
    by apply (Hp i).
  - injection Hv as ->. assert (Hno : ~ dependencies_named rs).
    { intros Hn. apply check_dependencies_Ok in Hn. fold known in Hn. congruence. }
    destruct e; try exact Hno. by apply check_dependencies_no_cycle in Hc.
Qed.

Definition looped : list Reminder := [demo_reminder "a" ["b"]; demo_reminder "b" ["a"]].

Lemma dependencies_exact_witness :
  @validate_dependencies integer_number looped = Err (DependencyCycle ["a"; "b"; "a"]) /\
  exists q m, ["a"; "b"; "a"] = q ++ [m] /\ m ∈ q /\
    forall i a b, ["a"; "b"; "a"] !! i = Some a -> ["a"; "b"; "a"] !! S i = Some b ->
      requires looped a b.
Proof.
  split; [reflexivity|].
  apply (@dependencies_exact integer_number looped).
  apply (bool_decide_unpack _). vm_compute. exact I.
Defined.

(** ** Reading *)

(** C17: A document that is read gives a well-formed configuration: distinct
    reminder names that are fired-state keys outside the reserved space, phases
    below their cadence and windows inside it, positive gate limits, a skill for
    every instruction, exact and acyclic dependencies, named health checks. *)
Theorem config_accepted `{JsonNumberLaws} raw c :
  config_from_value raw = Ok c -> config_wf c.
Proof. apply config_from_value_Ok. Qed.

Lemma config_accepted_witness : config_wf (canonical_config demo_config_io).
Proof. exact (@config_accepted integer_number _ demo_document _ demo_document_read). Defined.

(** C18: Writing and reading are inverse: a document that was read, and every other
    well-formed configuration, is written as a document that reads as the same
    configuration, every field with its value, but that the fields of an emission come
    sorted by their keys; where the JSON library reads back the integers it writes. *)
Theorem config_round_trip `{JsonNumberLaws} c :
  config_wf c -> config_from_value (config_to_value c) = Ok (canonical_config c).
Proof. apply config_written. Qed.

Lemma config_round_trip_witness :
  @config_from_value integer_number (@config_to_value integer_number (canonical_config demo_config_io))
  = Ok (canonical_config (canonical_config demo_config_io)).
Proof.
  apply (@config_round_trip integer_number _).
  exact (@config_from_value_Ok integer_number _ demo_document _ demo_document_read).
Defined.

(** ** Writing *)

(** One reminder whose gate may run for no time at all. *)
Definition idle_gate_config : TickConfig := {|
  reminders := [{| name := "r"; emit := Emit_action "s" ""; cadence_secs := 0;
                   requires_flags := [];
                   gate := Some {| cmd := "true"; when := Success; capture := false;
                                   parallel := false; timeout_secs := Some 0%Z |};
                   depends_on := []; cadence_offset_secs := None;
                   cadence_window_secs := None |}];
  health_checks := []; description := "" |}.

(** The check before writing accepts exactly the configurations whose names,
    cadences, skills, field names, dependencies and health checks are in order.  It
    does not look at gate limits, phases and windows, so a configuration it accepts
    can be written as a document that the reader refuses. *)
Theorem serializable_exact `{JsonNumberLaws} :
  (forall c, config_serialized c = Ok (config_to_value c) <-> config_serializable c) /\
  exists c, config_serialized c = Ok (config_to_value c) /\
    config_from_value (config_to_value c) = Err (TimeoutNotPositive "reminders[0].gate" 0).
Proof.
  assert (Hiff : forall c, config_serialized c = Ok (config_to_value c) <-> config_serializable c).
  { intros c. rewrite <-validate_serializable_Ok. unfold config_serialized.
    by destruct (validate_serializable c) as [[]|e]. }
  split; [exact Hiff|]. exists idle_gate_config. split; [reflexivity|].
  assert (Hzero : number_as_i64 (number_of_i64 0) = Some 0%Z) by (by apply number_as_i64_of).
  unfold idle_gate_config, config_to_value, reminder_to_value, gate_to_value, int_value.
  cbn [reminders health_checks fmap list_fmap cadence_secs gate timeout_secs].
  set (zero := number_of_i64 0) in *. clearbody zero.
  unfold config_from_value, items_from. cbn -[number_as_i64 reminder_from].
  unfold reminder_from, opt_nonnegative_int, opt_int. cbn -[number_as_i64].
  rewrite Hzero. reflexivity.
Qed.

Lemma serializable_exact_witness :
  (forall c, @config_serialized integer_number c = Ok (@config_to_value integer_number c) <-> config_serializable c) /\
  exists c, @config_serialized integer_number c = Ok (@config_to_value integer_number c) /\
    @config_from_value integer_number (@config_to_value integer_number c) = Err (TimeoutNotPositive "reminders[0].gate" 0).
Proof. exact (@serializable_exact integer_number _). Defined.

(** ** Reading, running and persisting *)

(** The parts fit: after a tick over a configuration that was read and a
    fired-state that was loaded from any file, no entry of the new fired-state is
    refused by the writer, whatever the operating system answers. *)
Theorem configured_tick_persists `{JsonNumberLaws, GateRunner, FileAgeProbe}
    raw config state now file current res faults fs p k v :
  config_from_value raw = Ok config ->
  (forall r, r ∈ reminders config -> starts_in_character (name r) = false) ->
  (0 <= now)%Z ->
  run_tick config state now (load_fired_state file) current = Some res ->
  (persist_fired_state faults fs p (result_fired res)).1 <> Err (InvalidInput k v).
Proof.
  intros Hc Hutf Hnow. rewrite run_tick_effect. intros [= <-]. cbn [effect_result result_fired].
  assert (Hw : writable (e_fired
    (tick_effect config state now (load_fired_state file) current false))).
  { apply tick_writable; [done| |apply load_writable].
    apply config_from_value_Ok in Hc as (_ & Hwf & _). rewrite Forall_forall in Hwf.
    apply Forall_forall. intros r Hr. destruct (Hwf r Hr) as (Hne & Hk & _).
    split_and!; [by intros Heq; rewrite Heq in Hne|done|by apply Hutf]. }
  unfold persist_fired_state. rewrite (proj2 (btree_find_invalid _)) by exact Hw.
  by repeat case_match.
Qed.

(** Every gate fails, so the reminders fire; one was loaded as fired long ago. *)
Lemma configured_tick_persists_witness :
  exists res,
    @run_tick (fun _ _ => GateResult_completed 1 "") (fun _ _ => None)
      (canonical_config demo_config_io) OpsState_default 7200 (load_fired_state (Some "disk=5"))
      None = Some res /\
    (persist_fired_state {| create_dir_fails := None; write_fails := None; rename_fails := None |}
       ∅ ("d", Some "f") (result_fired res)).1 <> Err (InvalidInput "disk" 5).
Proof.
  set (runner := (fun _ _ => GateResult_completed 1 "") : GateRunner).
  set (probe := (fun _ _ => None) : FileAgeProbe).
  destruct (run_tick (canonical_config demo_config_io) OpsState_default 7200
    (load_fired_state (Some "disk=5")) None) as [res|] eqn:Hres.
  2: { by rewrite run_tick_effect in Hres. }
  exists res. split; [done|].
  apply (@configured_tick_persists integer_number _ runner probe demo_document
    (canonical_config demo_config_io) OpsState_default 7200 (Some "disk=5") None res); try done.
  - intros r Hr. cbn in Hr. repeat (apply elem_of_cons in Hr as [->|Hr]; [done|]).
    by apply elem_of_nil in Hr.
Defined.
